(* ===== verification/_CoqProject ===== *)
-Q . S2P
Prelude.v
LinkedList.v
Spinlock.v
Scheduler.v
SchedulerSvc.v
SchedulerApi.v
SchedulerInv.v
SchedulerSafe.v
SchedulerWake.v
SchedulerHandlers.v
SchedulerSwitch.v
SchedulerCheck.v
SchedulerSystem.v
SchedulerCalls.v
WakeLaws.v
SchedulerSample.v
SchedulerClaims.v
MutexFrame.v
WordFrame.v
MutexSystem.v
MutexSample.v
CondSystem.v
Rtos.v
Kernel.v
Semaphore.v
MemoryPool.v
MessageQueue.v
EventFlags.v
Thread.v
Mutex.v
Reaper.v
Timer.v
Deque.v
RtosLaws.v
KernelLaws.v
SemaphoreLaws.v
MemoryPoolLaws.v
MessageQueueLaws.v
EventFlagsLaws.v
MutexLaws.v
ReaperLaws.v
DequeLaws.v
TimerLaws.v
RtosSample.v
KernelInfo.v
RtosClaims.v
RtosAccesses.v
MutexPrograms.v
MutexClaims.v
SemaphorePrograms.v
SemaphoreSystem.v
SemaphoreClaims.v
Atomic.v
AtomicLaws.v
AtomicSim.v
AtomicClaims.v
Nmi.v
MulticoreIrq.v
MulticoreClaims.v
Backtrace.v
BacktraceLaws.v
UnwindLaws.v
BacktraceClaims.v
Fault.v
Threads.v
ThreadsLaws.v
ThreadsWake.v
ThreadsClaims.v
ThreadsWakeClaims.v
ThreadsPrograms.v
ThreadsSystem.v
ThreadsCond.v
RetargetLock.v
RetargetLockClaims.v
Tls.v
Glue.v
