(* ===== verification/Prelude.v ===== *)
(** * pico-toolkit: a verification library for the toolkit's C code

    The program is a toolkit for the two cores of the RP2040: a preemptive
    multicore scheduler (src/src/pico-scheduler), the CMSIS-RTOS2 and C11 thread
    libraries on top of it (pico-cmsis-rtos2, pico-threads), and what they stand
    on: atomics, interrupts between the cores, thread-local storage, the locks of
    the C library, stack unwinding and fault handling.  This development
    translates all of them from their C code into state-passing functions and
    proves what they promise.

    ** The parts and how they interact

    Application calls of the RTOS layer validate their context and object,
    then touch atomic words and, under ticket locks with interrupts masked,
    rings of control blocks.  They block and wake through futexes: the calls of
    scheduler.c trap into its service handlers, which run under one spin lock,
    move tasks between the ready queue, the futex queues and the timers, and
    ask for a context switch; the switch serves the wakes interrupt handlers
    deferred, expires timers, and picks the next task.  The C11 threads use the
    same futexes.  A switch wanted on the other core is a command word through
    the mailbox between the cores, served by a handler boosted to the NMI.  The
    atomic words are functions of pico-atomic.c, which locks in a register.  A
    switch moves the thread pointer; a fault unwinds the stack.

    ** The files

    The effects: this file.  [M S A] is a function from a state to a result
    and a state, or to a [fault]: a failed assertion, an abort, a bad pointer,
    a corrupted ring, an index out of its array, a store past an array of the
    function's own frame, or fuel used up.  [wp m Q s]:
    from [s], [m] does not fault and its outcome satisfies [Q].
    [r <| f := v |>] is an assignment to a field.

    - LinkedList: the macros and functions of linked-list.h and the sched_list
      functions of scheduler.c on a store of pointers, and their refinement by
      plain lists.  The files below use the lists.
    - Spinlock: spinlock.h, the lock word and the machine of its contenders.
    - Scheduler (data and queues), SchedulerSvc (service handlers, switch and
      tick), SchedulerApi (application calls): scheduler.h, scheduler.c, the
      hooks of multicore-glue.c and scheduler-glue.c, svc.h.  [sched] is struct
      scheduler together with the tasks, futexes, frames, atomic words and
      per-core data it reaches, each in a map by address; [t_current_queue] is
      the ring a task is in.
    - SchedulerInv (the structural invariant and the queue operations),
      SchedulerSafe (the invariant of the whole system and of a held spin
      lock), SchedulerWake, SchedulerHandlers, SchedulerSwitch,
      SchedulerSystem (the system of all events), SchedulerCalls (calls and
      critical sections): the laws of those definitions.  SchedulerCheck
      decides the invariant of a concrete state, SchedulerSample gives one,
      SchedulerClaims holds the properties and their concrete runs.
    - Rtos (control blocks, validation, resource lists: cmsis-rtos2.h and part
      of cmsis-rtos2-kernel.c), Kernel and KernelInfo (the rest
      of it, KernelInfo with its laws, and cmsis-rtos2-generic-wait.c), and one
      file per object, each the C file of its name: Semaphore, MemoryPool, MessageQueue, EventFlags, Thread and
      Reaper (both cmsis-rtos2-thread.c), Mutex, Timer, Deque.  [rtos] holds the
      scheduler's state: the words and futexes of the objects live in it.
    - WakeLaws: what a wake leaves for a task that keeps its core (class
      [Resumes]), derived once from the scheduler's theorem [wake_svc_ok], for
      the RTOS layer and for the C11 threads.
    - MutexFrame (the events of the scheduler that leave a mutex's word and queue
      alone), MutexSystem (programs of accesses to one futex word, the protocol
      they keep, and the machine of many such programs and the scheduler's
      events), MutexSample; MutexPrograms and MutexClaims put the RTOS mutex
      through them, ThreadsPrograms and ThreadsSystem the C11 mutex.
    - WordFrame (the same for the word of a futex that tracks nothing),
      SemaphorePrograms, SemaphoreSystem (the machine of callers of one counting
      word, with its history) and SemaphoreClaims put the semaphore through them;
      RtosAccesses holds what the programs of the RTOS layer share.
    - CondSystem (the machine of waiters and signallers of one sequence word, with
      its history) and ThreadsCond put the C11 condition variable through it.
    - RtosLaws to TimerLaws: the laws of those definitions, for a calling task
      nothing disturbs (class [Undisturbed]).  RtosSample gives a running
      kernel with one object of every kind, RtosClaims holds the properties.
    - Atomic: pico-atomic.c, each function a program of single accesses, and a
      machine of two cores that interleaves them and nests handlers.  AtomicLaws
      (what an operation means when nothing interferes), AtomicSim (the
      simulation by a machine of atomic steps), AtomicClaims.
    - Nmi (nmi.c and its laws), MulticoreIrq (multicore-irq.c and the start-up of
      multicore-glue.c) on one state [irqs], MulticoreClaims.
    - Backtrace (backtrace.c), BacktraceLaws (addresses and the index),
      UnwindLaws (the instruction table of the exception handling ABI, and the
      interpreter), BacktraceClaims; Fault (fault.c up to its printing, sbrk.c).
    - Threads (threads.c and machine/_threads.h), ThreadsLaws and ThreadsClaims
      (calls that do not wait), ThreadsWake and ThreadsWakeClaims (calls that
      wake somebody, when nothing else runs: class [Alone]).
      [threads] holds the scheduler's state, the blocks of the mutexes,
      conditions and threads by address, the keys and the list of threads.
    - RetargetLock: retarget-lock.c over the class [LockRuntime], which the weak
      hooks of that file ([core_runtime]) and the overrides of scheduler-glue.c
      ([rtos_runtime]) implement; RetargetLockClaims.
    - Tls (tls.c, on a memory of bytes), Glue (the rest of scheduler-glue.c).

    ** What the theorems show

    The lists: the pointer code refines lists, and walks end.  The scheduler:
    its invariant holds in every state that any interleaving of service calls,
    switches, ticks, deferred wakes, stores and lock changes reaches, and none
    of these events faults there; what each service call, the tick and the
    switch do on every branch, the switch round by round up to the task
    dispatched or the shutdown; that it ends when a task with an intact stack may
    run; that every deferred wake takes the waiters it is for; that critical
    sections exclude and give the interrupt mask back.  The spin lock: mutual exclusion
    and service in ticket order.  The RTOS objects: refinement of a counter
    (semaphore, mutex), a bounded priority queue (message queue) and a bounded
    queue (deque) over all sequences of calls that do not wait; that RTOS and C11
    mutexes exclude, and that nobody waits behind a word that does not say so,
    under every interleaving of the single accesses of any number of threads with
    each other and with the scheduler's events, and that under the same
    interleavings a semaphore is a counter with one change for each call that
    answers osOK, and a C11 condition variable loses no signal; the partition
    of a pool between its free list and its client; who is woken by a release
    or by flags; the order of running timers; and the refusal of waits in
    interrupt handlers.

    The atomics: linearizability under every interleaving of accesses and
    handlers, exclusion, the return of an operation nobody obstructs, the meaning
    of each function at each width; and that the steps of the ticket lock are
    these operations.  The interrupts: the table of boosted handlers stays equal
    to the mask, commands decode to what was sent, a call for the other core is
    that core's own call after the queued ones, a request of a switch arrives, a
    fault stops the other core, and both cores start listening.  The unwinder:
    the binary search equals a walk of the table, the interpreter refines the
    ABI's instruction table on the instructions it implements, and a walk ends
    inside its buffer whatever memory holds, or on one encoding that overruns its
    registers.  The C11 threads: mutexes nest like counters, keys hold what was set,
    the end of a thread runs each destructor once and records its broadcast, joins
    collect; an unlock hands a contended mutex over, a signal and a broadcast ready
    the waiters they mean to.  The libc locks:
    an owner and a depth, for callers that do not overlap.  Thread-local storage:
    each core's copy after the start, and the pointer across switches.

    Theorems that state a defect say so: the lost wake of two releases, the two
    releases that pass the maximum together ([osSemaphoreRelease_overshoots]), the
    double link of a restarted timer, the front of a deque, the abort of a full
    capture of robust mutexes; the flag clear that takes no lock
    ([atomic_flag_clear_lost]); calls on the own core that follow the affinity,
    and a priority written out of bounds; the frame repeated after a failed
    unwind, the popped stack pointer that is lost, the operand that is not read to
    its end and the registers overrun ([missing_mask_overruns]); the high word an
    atomic load of eight bytes loses ([load_8_truncates]); timed calls that need their
    deadline to be now, a key past the end, the detach that waits for itself
    ([first_detach_waits_for_itself]), the
    end that is announced to nobody when the slots are full
    ([thrd_exit_handler_records]); the version in octal and the identification of
    size zero; the
    libc lock that is stolen through its shared comparand; the heap that never
    refuses; and the thread pointer the scheduler's end loses.

    ** Machine and fuel

    Pointers, [unsigned long] and [size_t] are 32-bit: [u32] and [s32] write the
    wrap-around out.  A loop that need not be structural takes fuel, one unit
    per turn, and [OutOfFuel] when it is used up.  The context switch needs one
    round to dispatch when a task may run (its theorem says so) and otherwise
    idles for as long as nothing does; a compare-exchange loop needs two turns
    undisturbed; a wake loop as many as there are waiters; the mailbox handler
    one more than there are words; the index search as many as there are entries;
    the unwind interpreter the 1022 bytes of the longest table and the end; the
    walk one more than the buffer.  Where a theorem asks for fuel, the amount is
    in its statement.

    ** Interfaces left open

    [Environment] (number of cores, hooks, what happens during wfi), [Trap] (the
    exception entry and return of svc-asm.S and scheduler-m0plus-asm.S, and the
    hooks of the C library), [RtosEnv] (interrupt priorities, the allocator,
    and whatever the other tasks do while a caller waits), [Console] (the line
    printed for a thread), [RtosImage],
    [ThreadImage], [TimerImage] and [LinkMap] (addresses the linker chooses,
    thread functions), [Threads] (the end of the calling thread, for the waits),
    [ThreadsEnv] (the same for the C11 threads), [Unaware] and
    [Heedless] (hooks that leave a mutex, or a word, alone), [Sdk] (the interrupt functions
    of the Pico SDK and the mailbox), the word at an address for the unwinder.
    [EnvironmentLaws], [TrapLaws], [MailboxLaws] and [RuntimeLaws] state what is
    relied on; the samples are instances that satisfy them.

    ** Abstractions

    A ring of nodes is a list of node addresses; linking a node that is linked
    faults instead of tearing the other ring.  A queued message is kept in a map
    of its own and not in the words of its block.  Fields are read and written
    one at a time, but a call of the RTOS layer or of the C11 threads is
    interrupted only where it traps: its interleaving with other cores between two
    accesses is not modelled, except for the spin lock, the scheduler's events,
    the atomics, the libc locks, and the locking and unlocking of the two kinds of
    mutex, the acquire and release of semaphores, and the wait, signal and broadcast
    of the C11 condition variable.  In these machines the answers of steps on memory
    other than the word and its futex, and the result of a wait, are left open; the
    release of robust mutexes when a thread ends, and the broadcast an exit handler
    defers, are not among the steps.  The
    atomics run on memory that shows every access at once, in program order.

    ** Not modelled

    The assembly (scheduler-m0plus-asm.S, svc-asm.S, fault-m0plus-asm.S) is a
    parameter.  iob.c is a table of character functions that answer a constant.
    sched_dump_queue and the second half of save_fault print.  pico-rtt is third-party code.  That a C11 thread
    that had to wait goes on is proved up to its being ready: what it does then
    depends on the trap that resumes it. *)

From stdpp Require Export base tactics numbers list gmap sorting.
From Stdlib Require Export ZArith Lia.
#[global] Open Scope Z_scope.

(** ** Machine words

    The target is a 32-bit Cortex-M0+: [unsigned long], [size_t], [uint32_t]
    and pointers are [u32] values, [long] and [int] are [s32] values. *)
Definition word : Z := 2 ^ 32.
Definition u32 (x : Z) : Z := x mod word.
Definition s32 (x : Z) : Z := (x + 2 ^ 31) mod word - 2 ^ 31.
Definition UINT32_MAX : Z := 0xffffffff.
Definition INT32_MAX : Z := 0x7fffffff.
Definition is_u32 (x : Z) : Prop := 0 <= x < word.
(** [~x] on a 32-bit unsigned operand. *)
Definition not32 (x : Z) : Z := UINT32_MAX - x.
(** [(x & mask) != 0], the test the sources write for a flag. *)
Definition has (x mask : Z) : bool := negb (Z.land x mask =? 0).
#[global] Arguments word : simpl never.
#[global] Arguments u32 : simpl never.
#[global] Arguments s32 : simpl never.

Lemma word_pos : 0 < word. Proof. reflexivity. Qed.

Lemma u32_range x : is_u32 (u32 x).
Proof. unfold is_u32, u32. apply Z.mod_pos_bound, word_pos. Qed.

Lemma u32_small x : is_u32 x → u32 x = x.
Proof. intros H. apply Z.mod_small, H. Qed.

Lemma u32_idemp x : u32 (u32 x) = u32 x.
Proof. apply u32_small, u32_range. Qed.

Lemma u32_add_idemp x y : u32 (u32 x + y) = u32 (x + y).
Proof. unfold u32. rewrite Zplus_mod_idemp_l. done. Qed.

Lemma s32_small x : - 2 ^ 31 <= x < 2 ^ 31 → s32 x = x.
Proof. intros H. unfold s32, word. rewrite Z.mod_small; lia. Qed.

Lemma s32_u32 x : s32 (u32 x) = s32 x.
Proof. unfold s32, u32. rewrite Zplus_mod_idemp_l. done. Qed.

Lemma land_pow2 x k : 0 <= k → Z.land x (2 ^ k) = if Z.testbit x k then 2 ^ k else 0.
Proof.
  intros Hk. apply Z.bits_inj'. intros n Hn. rewrite Z.land_spec, Z.pow2_bits_eqb by done.
  destruct (Z.eqb_spec k n) as [->|Hne].
  - destruct (Z.testbit x n); [by rewrite Z.pow2_bits_true|by rewrite Z.bits_0].
  - rewrite andb_false_r. destruct (Z.testbit x k); [by rewrite Z.pow2_bits_false|by rewrite Z.bits_0].
Qed.

Lemma has_pow2 x k : 0 <= k → has x (2 ^ k) = Z.testbit x k.
Proof.
  intros Hk. unfold has. rewrite land_pow2 by done. destruct (Z.testbit x k); [|done].
  destruct (Z.eqb_spec (2 ^ k) 0); [|done]. pose proof (Z.pow_pos_nonneg 2 k). lia.
Qed.

(** A word put together from two fields. *)
Lemma low_bits_disjoint a b n : 0 <= b < 2 ^ n → 0 <= n → Z.land (Z.shiftl a n) b = 0.
Proof.
  intros Hb Hn. apply Z.bits_inj'. intros i Hi. rewrite Z.land_spec, Z.shiftl_spec, Z.bits_0 by done.
  destruct (decide (i < n)) as [Hlt|Hge]; [by rewrite Z.testbit_neg_r by lia|].
  rewrite <-(Z.mod_small b (2 ^ n)), Z.mod_pow2_bits_high by lia. apply andb_false_r.
Qed.

Lemma lor_low_bits a b n : 0 <= b < 2 ^ n → 0 <= n → Z.lor (Z.shiftl a n) b = a * 2 ^ n + b.
Proof.
  intros Hb Hn. rewrite <-Z.shiftl_mul_pow2, Z.add_nocarry_lxor, Z.lxor_lor by (done || by apply low_bits_disjoint). done.
Qed.

(** ** Faults, and the state-and-fault monad

    A C function is a computation over the state its file keeps.  It either
    returns ([Done]) or stops the program: a failed [assert], a call of
    [abort], a dereference of an address nothing lives at, a loop that does
    not end within the fuel of the model, a list operation that would tear
    an intrusive ring apart, a write past the buffer a caller passed, or a
    store past an array of the function's own frame, which C does not stop. *)
Inductive fault := AssertFailed | Aborted | BadPointer | OutOfFuel | RingCorrupted | OutOfBounds | Overrun.

Inductive outcome (S A : Type) :=
  | Done (a : A) (s : S)
  | Fault (f : fault).
Arguments Done {S A} a s.
Arguments Fault {S A} f.

Definition M (S A : Type) : Type := S → outcome S A.

Definition ret {S A} (a : A) : M S A := λ s, Done a s.
Definition bind {S A B} (m : M S A) (k : A → M S B) : M S B :=
  λ s, match m s with Done a s' => k a s' | Fault f => Fault f end.
Definition fail {S A} (f : fault) : M S A := λ _, Fault f.
Definition get {S} : M S S := λ s, Done s s.
Definition gets {S A} (f : S → A) : M S A := λ s, Done (f s) s.
Definition upd {S} (f : S → S) : M S unit := λ s, Done tt (f s).
Definition get_opt {S A} (f : S → option A) (e : fault) : M S A :=
  λ s, match f s with Some a => Done a s | None => Fault e end.

Declare Scope prog_scope.
Delimit Scope prog_scope with prog.
Bind Scope prog_scope with M.
Notation "x <- m ;; k" := (bind m (λ x, k))
  (at level 100, m at next level, right associativity) : prog_scope.
Notation "m ;;; k" := (bind m (λ _, k))
  (at level 100, right associativity) : prog_scope.
#[global] Open Scope prog_scope.

(** [assert(b)] and [if (b) m;] *)
Definition assert {S} (b : bool) : M S unit := if b then ret tt else fail AssertFailed.
Definition when {S} (b : bool) (m : M S unit) : M S unit := if b then m else ret tt.

(** ** Weakest preconditions *)
Definition wp {S A} (m : M S A) (Q : A → S → Prop) (s : S) : Prop :=
  match m s with Done a s' => Q a s' | Fault _ => False end.

Section wp_rules.
Context {S : Type}.
Implicit Types (s : S).

Lemma wp_done {A} (m : M S A) Q s a s' : m s = Done a s' → Q a s' → wp m Q s.
Proof. unfold wp. by intros ->. Qed.

Lemma wp_inv {A} (m : M S A) Q s : wp m Q s → ∃ a s', m s = Done a s' ∧ Q a s'.
Proof. unfold wp. destruct (m s); naive_solver. Qed.

(** A run that stops with a fault, after a first step that returns. *)
Lemma bind_fault {A B} (m : M S A) (k : A → M S B) f s :
  wp m (λ a s', k a s' = Fault f) s → bind m k s = Fault f.
Proof. unfold wp, bind. by destruct (m s). Qed.

Lemma wp_mono {A} (m : M S A) (Q Q' : A → S → Prop) s :
  wp m Q s → (∀ a s', Q a s' → Q' a s') → wp m Q' s.
Proof. unfold wp. destruct (m s); eauto. Qed.

Lemma wp_and {A} (m : M S A) (Q Q' : A → S → Prop) s :
  wp m Q s → wp m Q' s → wp m (λ a s', Q a s' ∧ Q' a s') s.
Proof. unfold wp. destruct (m s); eauto. Qed.

Lemma wp_ret {A} (a : A) Q s : Q a s → wp (ret a) Q s.
Proof. done. Qed.

Lemma wp_bind {A B} (m : M S A) (k : A → M S B) Q s :
  wp m (λ a s', wp (k a) Q s') s → wp (bind m k) Q s.
Proof. unfold wp, bind. destruct (m s); done. Qed.

Lemma wp_get Q s : Q s s → wp get Q s.
Proof. done. Qed.

Lemma wp_gets {A} (f : S → A) Q s : Q (f s) s → wp (gets f) Q s.
Proof. done. Qed.

Lemma wp_upd f Q s : Q tt (f s) → wp (upd f) Q s.
Proof. done. Qed.

Lemma wp_get_opt {A} (f : S → option A) e (Q : A → S → Prop) s a :
  f s = Some a → Q a s → wp (get_opt f e) Q s.
Proof. unfold wp, get_opt. by intros ->. Qed.

Lemma wp_assert b (Q : unit → S → Prop) s : b = true → Q tt s → wp (assert b) Q s.
Proof. by intros ->. Qed.

Lemma wp_when b m (Q : unit → S → Prop) s :
  (b = true → wp m Q s) → (b = false → Q tt s) → wp (when b m) Q s.
Proof. destruct b; cbn; eauto. Qed.
End wp_rules.

(** The weaker triple of loops the environment may keep alive: a run may also
    exhaust its fuel. *)
Definition wlp {S A} (m : M S A) (Q : A → S → Prop) (s : S) : Prop :=
  match m s with Done a s' => Q a s' | Fault f => f = OutOfFuel end.

Lemma wlp_wp {S A} (m : M S A) (Q : A → S → Prop) s : wp m Q s → wlp m Q s.
Proof. unfold wp, wlp. by destruct (m s). Qed.

Lemma wlp_bind {S A B} (m : M S A) (k : A → M S B) Q s :
  wlp m (λ a s', wlp (k a) Q s') s → wlp (bind m k) Q s.
Proof. unfold wlp, bind. by destruct (m s). Qed.

Lemma wlp_mono {S A} (m : M S A) (Q Q' : A → S → Prop) s :
  wlp m Q s → (∀ a s', Q a s' → Q' a s') → wlp m Q' s.
Proof. unfold wlp. destruct (m s); eauto. Qed.

Lemma wlp_bind_wp {S A B} (m : M S A) (k : A → M S B) Q s :
  wp m (λ a s', wlp (k a) Q s') s → wlp (bind m k) Q s.
Proof. intros Hm. by apply wlp_bind, wlp_wp. Qed.

(** ** Runs that keep a predicate *)
Definition keeps {S A} (P : S → Prop) (m : M S A) : Prop := ∀ s a s', P s → m s = Done a s' → P s'.

Lemma keeps_ret {S A} (P : S → Prop) (a : A) : keeps P (ret a).
Proof. by intros s a' s' HP [= <- <-]. Qed.
Lemma keeps_fail {S A} (P : S → Prop) f : keeps P (fail (A := A) f).
Proof. by intros s a s' HP [=]. Qed.
Lemma keeps_bind {S A B} (P : S → Prop) (m : M S A) (k : A → M S B) : keeps P m → (∀ a, keeps P (k a)) → keeps P (bind m k).
Proof. intros Hm Hk s b s' HP. unfold bind. destruct (m s) as [a s1|] eqn:E; [|done]. apply Hk. by eapply Hm. Qed.
Lemma keeps_gets {S A} (P : S → Prop) (g : S → A) : keeps P (gets g).
Proof. by intros s a s' HP [= <- <-]. Qed.
Lemma keeps_get {S} (P : S → Prop) : keeps P get.
Proof. by intros s a s' HP [= <- <-]. Qed.
Lemma keeps_upd {S} (P : S → Prop) g : (∀ s, P s → P (g s)) → keeps P (upd g).
Proof. intros Hg s [] s' HP [= <-]. by apply Hg. Qed.
Lemma keeps_get_opt {S A} (P : S → Prop) (g : S → option A) e : keeps P (get_opt g e).
Proof. intros s a s' HP. unfold get_opt. destruct (g s); [|done]. by intros [= <- <-]. Qed.
Lemma keeps_bind_val {S A B} (P : S → Prop) (m : M S A) (k : A → M S B) :
  keeps P m → (∀ s a s', P s → m s = Done a s' → keeps P (k a)) → keeps P (bind m k).
Proof.
  intros Hm Hk s b s' HP. unfold bind. destruct (m s) as [a s1|] eqn:E; [|done].
  apply (Hk s a s1); [done|done|by eapply Hm].
Qed.
Lemma keeps_if {S A} (P : S → Prop) (b : bool) (m1 m2 : M S A) : keeps P m1 → keeps P m2 → keeps P (if b then m1 else m2).
Proof. by destruct b. Qed.

Ltac keeps_step :=
  lazymatch goal with
  | |- keeps _ (bind _ _) => apply keeps_bind; [|intros ?]
  | |- keeps _ (ret _) => apply keeps_ret
  | |- keeps _ (fail _) => apply keeps_fail
  | |- keeps _ (gets _) => apply keeps_gets
  | |- keeps _ get => apply keeps_get
  | |- keeps _ (get_opt _ _) => apply keeps_get_opt
  | |- keeps _ (upd _) => apply keeps_upd; intros ? ?
  | |- keeps _ (when _ _) => apply keeps_if
  | |- keeps _ (assert _) => apply keeps_if
  | |- keeps _ (if _ then _ else _) => apply keeps_if
  | |- keeps _ (match ?o with _ => _ end) => destruct o
  | |- keeps _ (let '(_, _) := ?p in _) => destruct p
  end.
Ltac keeps_steps := repeat first [keeps_step | progress cbv zeta | done].

(** One step of symbolic execution; leaves the side conditions. *)
Ltac wp_step :=
  lazymatch goal with
  | |- wp (bind _ _) _ _ => apply wp_bind
  | |- wp (ret _) _ _ => apply wp_ret
  | |- wp get _ _ => apply wp_get
  | |- wp (gets _) _ _ => apply wp_gets
  | |- wp (upd _) _ _ => apply wp_upd
  | |- wp (get_opt _ _) _ _ => eapply wp_get_opt
  | |- wp (assert _) _ _ => apply wp_assert
  | |- wp (when _ _) _ _ => apply wp_when; intros ?
  | |- wp (if ?b then _ else _) _ _ => destruct b eqn:?
  | |- wp (match ?o with Some _ => _ | None => _ end) _ _ => destruct o eqn:?
  end.

(** A decidable fact, by evaluation. *)
Ltac by_eval := refine (bool_decide_eq_true_1 _ _); vm_compute; reflexivity.

(** Run the verifier until it meets a goal it has no rule for. *)
Ltac wp_steps := repeat (wp_step; try done).

(** ** Record update

    [r <| f := v |>] and [r <| f ::= g |>] are the C assignments [r->f = v]
    and [r->f = g(r->f)].  A record declares its [Eta] expansion once; the
    setter of a field is derived from it by abstracting the field. *)
Class Eta (R : Type) := eta : R → R.
Class Setter {R T : Type} (proj : R → T) := over : (T → T) → R → R.
#[global] Arguments over {R T} proj {_} f r : simpl never.

Ltac derive_setter :=
  lazymatch goal with
  | |- @Setter ?R ?T ?proj =>
      let f := fresh "f" in
      let r := fresh "r" in
      intros f r;
      let e := constr:(ltac:(typeclasses eauto) : Eta R) in
      let e := eval cbv [eta] in e in
      let e := lazymatch e with | ?x => x end in
      let b := eval cbv beta in (e r) in
      let b := eval hnf in b in
      lazymatch eval pattern (proj r) in b with
      | ?g _ => let t := eval cbv beta in (g (f (proj r))) in exact t
      end
  end.
#[export] Hint Extern 1 (Setter _) => derive_setter : typeclass_instances.

Notation "r <| f := v |>" := (over f (λ _, v) r)
  (at level 1, f at next level, left associativity) : stdpp_scope.
Notation "r <| f ::= g |>" := (over f g r)
  (at level 1, f at next level, left associativity) : stdpp_scope.

(** Read a field of an updated record. *)
Ltac rsimp_step :=
  match goal with
  | |- context [?p (@over _ _ ?q _ ?f ?r)] =>
      first [ constr_eq p q; change (p (over q f r)) with (f (p r)); cbv beta
            | change (p (over q f r)) with (p r) ]
  | H : context [?p (@over _ _ ?q _ ?f ?r)] |- _ =>
      first [ constr_eq p q; change (p (over q f r)) with (f (p r)) in H; cbv beta in H
            | change (p (over q f r)) with (p r) in H ]
  end.
Ltac rsimp := repeat rsimp_step.

(** ** Lists

    [place p x l] walks [l] to the first element that satisfies [p] and links
    [x] in front of it, at the tail when there is none: the insertion loop of
    every ordered list of the code. [without x l] unlinks [x]. *)
Section lists.
Context {A : Type} `{EqDecision A}.
Implicit Types (x y : A) (l : list A) (p : A → bool) (key : A → Z).

Fixpoint place p x l : list A :=
  match l with
  | [] => [x]
  | y :: l' => if p y then x :: y :: l' else y :: place p x l'
  end.

Definition without x l : list A := filter (λ y, y ≠ x) l.

(** The keys never decrease along the list. *)
Definition sorted_by key l : Prop := StronglySorted (λ a b, key a <= key b) l.

Lemma place_split p x l :
  ∃ l1 l2, l = l1 ++ l2 ∧ place p x l = l1 ++ x :: l2 ∧
    Forall (λ y, p y = false) l1 ∧ (∀ y, head l2 = Some y → p y = true).
Proof.
  induction l as [|y l (l1 & l2 & -> & IH & H1 & H2)]; cbn.
  { by exists [], []. }
  destruct (p y) eqn:Hp.
  - exists [], (y :: l1 ++ l2). repeat split; [constructor|]. cbn. congruence.
  - exists (y :: l1), l2. rewrite IH. repeat split; auto.
Qed.

Lemma place_perm p x l : place p x l ≡ₚ x :: l.
Proof.
  destruct (place_split p x l) as (l1 & l2 & -> & -> & _).
  by rewrite Permutation_middle.
Qed.

Lemma elem_of_place p x y l : y ∈ place p x l ↔ y = x ∨ y ∈ l.
Proof. by rewrite place_perm, elem_of_cons. Qed.

Lemma length_place p x l : length (place p x l) = S (length l).
Proof. by rewrite place_perm. Qed.

Lemma NoDup_place p x l : x ∉ l → NoDup l → NoDup (place p x l).
Proof. intros ??. rewrite place_perm. by constructor. Qed.

Lemma sorted_by_app key l1 l2 :
  sorted_by key (l1 ++ l2) ↔
  sorted_by key l1 ∧ sorted_by key l2 ∧ (∀ x y, x ∈ l1 → y ∈ l2 → key x <= key y).
Proof.
  unfold sorted_by. induction l1 as [|z l1 IH]; cbn.
  { split; [intros H|naive_solver]. repeat split; [constructor|done|set_solver]. }
  split.
  - intros H. inversion_clear H as [|?? Hs Hf].
    apply IH in Hs as (?&?&?). apply Forall_app in Hf as [? Hf].
    rewrite Forall_forall in Hf.
    repeat split; [by constructor|done|].
    intros x y [->|?]%elem_of_cons ?; auto.
  - intros (Hs & ? & Hk). inversion_clear Hs as [|?? Hs' Hf].
    constructor.
    + apply IH. split_and!; [done..|]. intros; apply Hk; set_solver.
    + apply Forall_app. split; [done|]. apply Forall_forall. intros; apply Hk; set_solver.
Qed.

Lemma sorted_by_cons key x l :
  sorted_by key (x :: l) ↔ sorted_by key l ∧ ∀ y, y ∈ l → key x <= key y.
Proof.
  change (x :: l) with ([x] ++ l). rewrite sorted_by_app. split.
  - intros (_ & ? & H). split; [done|]. intros; apply H; set_solver.
  - intros [? H]. split_and!; [repeat constructor|done|].
    intros ?? ->%list_elem_of_singleton. auto.
Qed.

(** Inserting in front of the first strictly larger key keeps the order, and
    puts the element behind every element of the same key. *)
Lemma place_sorted_split key x l :
  sorted_by key l →
  ∃ l1 l2, l = l1 ++ l2 ∧ place (λ y, key x <? key y) x l = l1 ++ x :: l2 ∧
    (∀ y, y ∈ l1 → key y <= key x) ∧ (∀ y, y ∈ l2 → key x < key y).
Proof.
  intros Hs.
  destruct (place_split (λ y, key x <? key y) x l) as (l1 & l2 & -> & -> & H1 & H2).
  exists l1, l2. split_and!; [done..| |].
  - rewrite Forall_forall in H1. intros y Hy. apply H1 in Hy. lia.
  - apply sorted_by_app in Hs as (_ & Hs & _).
    destruct l2 as [|z l2]; [set_solver|].
    specialize (H2 z eq_refl). apply sorted_by_cons in Hs as [_ Hs].
    intros y [->|Hy]%elem_of_cons; [lia|]. apply Hs in Hy. lia.
Qed.

Lemma place_sorted key x l :
  sorted_by key l → sorted_by key (place (λ y, key x <? key y) x l).
Proof.
  intros Hs.
  destruct (place_sorted_split key x l Hs) as (l1 & l2 & -> & -> & H1 & H2).
  apply sorted_by_app in Hs as (? & ? & H).
  apply sorted_by_app. split_and!; [done| |].
  - apply sorted_by_cons. split; [done|]. intros y Hy. apply H2 in Hy. lia.
  - intros y z Hy [->|Hz]%elem_of_cons; auto.
Qed.

Lemma sorted_by_ext key key' l :
  (∀ x, x ∈ l → key x = key' x) → sorted_by key l → sorted_by key' l.
Proof.
  induction l as [|x l IH]; intros He; [constructor|].
  rewrite !sorted_by_cons. intros [Hs Hx]. split.
  - apply IH; [|done]. intros; apply He; set_solver.
  - intros y Hy. rewrite <-!He by set_solver. auto.
Qed.

Lemma sorted_by_sublist key l1 l2 :
  l1 `sublist_of` l2 → sorted_by key l2 → sorted_by key l1.
Proof.
  induction 1 as [|x l1 l2 Hl IH|x l1 l2 Hl IH]; [done|..];
    rewrite ?sorted_by_cons; intros [Hs Hx]; [|auto].
  split; [auto|]. intros y Hy. apply Hx. by eapply sublist_subseteq.
Qed.

Lemma without_sublist x l : without x l `sublist_of` l.
Proof.
  unfold without. induction l as [|y l IH]; [done|].
  rewrite filter_cons. case_decide; by constructor.
Qed.

Lemma elem_of_without x y l : y ∈ without x l ↔ y ≠ x ∧ y ∈ l.
Proof. unfold without. by rewrite list_elem_of_filter. Qed.

Lemma NoDup_without x l : NoDup l → NoDup (without x l).
Proof. apply NoDup_filter. Qed.

Lemma without_id x l : x ∉ l → without x l = l.
Proof.
  intros H. unfold without.
  induction l as [|y l IH]; [done|]. rewrite filter_cons_True by set_solver.
  f_equal. apply IH. set_solver.
Qed.

Lemma without_mid x l1 l2 :
  NoDup (l1 ++ x :: l2) → without x (l1 ++ x :: l2) = l1 ++ l2.
Proof.
  intros H%NoDup_app. destruct H as (H1 & H2 & H3). apply NoDup_cons in H3 as [H3 ?].
  unfold without. rewrite filter_app, filter_cons_False by auto.
  fold (without x l1) (without x l2). rewrite !without_id; [done|done|].
  intros Hx. apply (H2 x Hx). set_solver.
Qed.

Lemma without_place p x l : x ∉ l → without x (place p x l) = l.
Proof.
  intros Hx. destruct (place_split p x l) as (l1 & l2 & -> & -> & _).
  unfold without. rewrite filter_app, filter_cons_False by auto.
  fold (without x l1) (without x l2). rewrite !without_id; set_solver.
Qed.

Lemma without_perm x l : NoDup l → x ∈ l → l ≡ₚ x :: without x l.
Proof.
  intros Hnd (l1 & l2 & ->)%list_elem_of_split.
  rewrite without_mid by done. by rewrite Permutation_middle.
Qed.

Lemma place_key p q x l : (∀ y, y ∈ l → p y = q y) → place p x l = place q x l.
Proof.
  induction l as [|y l IH]; cbn; [done|]. intros E. rewrite (E y) by set_solver.
  destruct (q y); [done|]. f_equal. apply IH. intros; apply E; set_solver.
Qed.
End lists.

Lemma fmap_place {A B} (f : A → B) p q x l : (∀ y, y ∈ l → p y = q (f y)) → f <$> place p x l = place q (f x) (f <$> l).
Proof.
  induction l as [|y l IH]; cbn; [done|]. intros E. rewrite (E y) by set_solver.
  destruct (q (f y)); [done|]. cbn. f_equal. apply IH. intros; apply E; set_solver.
Qed.

(** ** Per-core data

    The processor has two cores; [false] is core 0. *)
Definition core_num (c : bool) : Z := if c then 1 else 0.

Definition upd_core {A} (c : bool) (x : A) (f : bool → A) : bool → A :=
  λ d, if Bool.eqb c d then x else f d.

Lemma upd_core_eq {A} c (x : A) f : upd_core c x f c = x.
Proof. by destruct c. Qed.

Lemma upd_core_ne {A} c (x : A) f : upd_core c x f (negb c) = f (negb c).
Proof. by destruct c. Qed.

Lemma upd_core_other {A} c d (x : A) f : d ≠ c → upd_core c x f d = f d.
Proof. by destruct c, d. Qed.

Create HintDb rings.
#[export] Hint Resolve NoDup_place NoDup_without place_sorted without_sublist : rings.
#[export] Hint Rewrite @elem_of_place @elem_of_without @length_place : rings.
