(* ===== verification/LinkedList.v ===== *)
(** * Intrusive doubly linked lists

    [toolkit-support/include/pico/toolkit/linked-list.h] and the [sched_list_*]
    functions of [pico-scheduler/scheduler.c], on a store of list nodes: every
    node is an address, a head and its nodes form a ring, and every operation
    is the sequence of pointer writes of the source.

    The second half relates the store to lists: [ring] says which sequence a
    head represents, [Rep] says which rings and loose nodes a store holds, and
    every operation is shown to refine the operation on lists. *)
From S2P Require Import Prelude.

(** [struct linked_list] / [struct sched_list]. *)
Record link := Link { next : Z; prev : Z }.
#[export] Instance eta_link : Eta link := λ r, Link (next r) (prev r).
#[export] Instance link_eq_dec : EqDecision link.
Proof. solve_decision. Defined.

(** The nodes that exist; address 0 is the null pointer. *)
Abbreviation store := (gmap Z link).

(** ** The operations *)
Definition rd (n : Z) : M store link := get_opt (λ σ : store, σ !! n) BadPointer.
Definition set_next (n v : Z) : M store unit :=
  l <- rd n ;; upd (λ σ : store, <[n := l <| next := v |>]> σ).
Definition set_prev (n v : Z) : M store unit :=
  l <- rd n ;; upd (λ σ : store, <[n := l <| prev := v |>]> σ).
Definition nonnull (n : Z) : bool := negb (n =? 0).

Definition list_init (list : Z) : M store unit :=
  assert (nonnull list) ;;; upd (λ σ : store, <[list := Link list list]> σ).

Definition list_is_empty (list : Z) : M store bool :=
  assert (nonnull list) ;;;
  l <- rd list ;;
  ret ((next l =? list) && (prev l =? list)).

Definition list_insert_after (entry node : Z) : M store unit :=
  assert (nonnull entry && nonnull node) ;;;
  e <- rd entry ;; set_next node (next e) ;;;
  set_prev node entry ;;;
  e <- rd entry ;; set_prev (next e) node ;;;
  set_next entry node.

Definition list_insert_before (entry node : Z) : M store unit :=
  assert (nonnull entry && nonnull node) ;;;
  set_next node entry ;;;
  e <- rd entry ;; set_prev node (prev e) ;;;
  e <- rd entry ;; set_next (prev e) node ;;;
  set_prev entry node.

Definition list_remove (node : Z) : M store unit :=
  assert (nonnull node) ;;;
  n <- rd node ;;
  assert (nonnull (next n) && nonnull (prev n)) ;;;
  set_prev (next n) (prev n) ;;;
  n <- rd node ;; set_next (prev n) (next n) ;;;
  list_init node.

Definition list_front (list : Z) : M store Z :=
  e <- list_is_empty list ;;
  if (e : bool) then ret 0 else l <- rd list ;; ret (next l).

Definition list_back (list : Z) : M store Z :=
  e <- list_is_empty list ;;
  if (e : bool) then ret 0 else l <- rd list ;; ret (prev l).

Definition list_add (list node : Z) : M store unit :=
  assert (nonnull list && nonnull node) ;;;
  set_next node list ;;;
  l <- rd list ;; set_prev node (prev l) ;;;
  l <- rd list ;; set_next (prev l) node ;;;
  set_prev list node.

Definition list_push (list node : Z) : M store unit :=
  assert (nonnull list && nonnull node) ;;;
  l <- rd list ;; set_next node (next l) ;;;
  set_prev node list ;;;
  l <- rd list ;; set_prev (next l) node ;;;
  set_next list node.

Definition list_pop (list : Z) : M store Z :=
  e <- list_is_empty list ;;
  if (e : bool) then ret 0
  else l <- rd list ;; list_remove (next l) ;;; ret (next l).

Definition list_next (list node : Z) : M store Z :=
  assert (nonnull list && nonnull node) ;;;
  n <- rd node ;; ret (if next n =? list then 0 else next n).

Definition list_prev (list node : Z) : M store Z :=
  assert (nonnull list && nonnull node) ;;;
  n <- rd node ;; ret (if prev n =? list then 0 else prev n).

Definition list_is_linked (node : Z) : M store bool :=
  assert (nonnull node) ;;;
  n <- rd node ;;
  ret (negb (next n =? node) && negb (prev n =? node)).

(** [list_for_each(cursor, list)]: the nodes the cursor visits, in order.
    [fuel] bounds the walk; a ring that does not come back to its head runs
    out of any fuel. *)
Fixpoint walk (fuel : nat) (list cursor : Z) : M store (Datatypes.list Z) :=
  match fuel with
  | O => fail OutOfFuel
  | S fuel' =>
      if cursor =? list then ret []
      else n <- rd cursor ;;
           rest <- walk fuel' list (next n) ;;
           ret (cursor :: rest)
  end.

Definition list_for_each (fuel : nat) (list : Z) : M store (Datatypes.list Z) :=
  l <- rd list ;; walk fuel list (next l).

Definition list_size (fuel : nat) (list : Z) : M store Z :=
  assert (nonnull list) ;;;
  nodes <- list_for_each fuel list ;; ret (Z.of_nat (length nodes)).

(** The scheduler keeps its own copies of these functions. *)
Definition sched_list_init (list : Z) : M store unit :=
  upd (λ σ : store, <[list := Link list list]> σ).

Definition sched_list_empty (list : Z) : M store bool :=
  assert (nonnull list) ;;; l <- rd list ;; ret (next l =? list).

Definition sched_list_insert (node first second : Z) : M store unit :=
  assert (nonnull node && nonnull first && nonnull second) ;;;
  set_prev second node ;;;
  set_next node second ;;;
  set_prev node first ;;;
  set_next first node.

Definition sched_list_remove (node : Z) : M store unit :=
  assert (nonnull node) ;;;
  n <- rd node ;; set_prev (next n) (prev n) ;;;
  n <- rd node ;; set_next (prev n) (next n) ;;;
  set_next node node ;;;
  set_prev node node.

Definition sched_list_push (list node : Z) : M store unit :=
  assert (nonnull list && nonnull node) ;;;
  l <- rd list ;; sched_list_insert node (prev l) list.

Definition sched_list_pop (list : Z) : M store Z :=
  assert (nonnull list) ;;;
  l <- rd list ;;
  if next l =? list then ret 0
  else sched_list_remove (next l) ;;; ret (next l).

Definition sched_list_is_linked (node : Z) : M store bool :=
  assert (nonnull node) ;;; n <- rd node ;; ret (negb (next n =? node)).

(** ** What a store represents *)
Definition nx (σ : store) (n : Z) : option Z := next <$> σ !! n.
Definition pv (σ : store) (n : Z) : option Z := prev <$> σ !! n.

Definition edge (σ : store) (a b : Z) : Prop := nx σ a = Some b ∧ pv σ b = Some a.

(** Edges lead from [a] through [l], and [chain] closes the path at [b]. *)
Fixpoint upto (σ : store) (a : Z) (l : list Z) : Prop :=
  match l with
  | [] => True
  | x :: l' => edge σ a x ∧ upto σ x l'
  end.

Definition last_or (a : Z) (l : list Z) : Z := default a (last l).
Definition head_or (a : Z) (l : list Z) : Z := default a (head l).

Definition chain (σ : store) (a : Z) (l : list Z) (b : Z) : Prop :=
  upto σ a l ∧ edge σ (last_or a l) b.

Definition ring (σ : store) (h : Z) (l : list Z) : Prop :=
  chain σ h l h ∧ NoDup (h :: l).

(** The edges from the first node of [l] on. *)
Definition from (σ : store) (l : list Z) (b : Z) : Prop :=
  match l with [] => True | e :: l' => chain σ e l' b end.

Lemma last_or_app a l x l' : last_or a (l ++ x :: l') = last_or x l'.
Proof. unfold last_or. rewrite last_app_cons, last_cons. by destruct (last l'). Qed.

Lemma last_or_elem a l : last_or a l ∈ a :: l.
Proof.
  unfold last_or. destruct (last l) as [x|] eqn:E; cbn; [|set_solver].
  apply last_Some in E as [l' ->]. set_solver.
Qed.

Lemma head_or_elem a l : head_or a l ∈ a :: l.
Proof. destruct l; set_solver. Qed.

Lemma last_or_elem_app a l1 l2 : last_or a l1 ∈ a :: l1 ++ l2.
Proof. pose proof (last_or_elem a l1). set_solver. Qed.

Lemma head_or_elem_app a l1 l2 : head_or a l2 ∈ a :: l1 ++ l2.
Proof. pose proof (head_or_elem a l2). set_solver. Qed.

Lemma upto_app σ a l1 x l2 :
  upto σ a (l1 ++ x :: l2) ↔ upto σ a l1 ∧ edge σ (last_or a l1) x ∧ upto σ x l2.
Proof.
  revert a. induction l1 as [|y l1 IH]; intros a; cbn; [tauto|].
  rewrite IH, (last_or_app a [] y l1 : last_or a (y :: l1) = _). tauto.
Qed.

(** A path splits at any point into the edges before it, the edge across it
    and the edges after it. *)
Lemma chain_split σ a l1 l2 b :
  chain σ a (l1 ++ l2) b ↔
  upto σ a l1 ∧ edge σ (last_or a l1) (head_or b l2) ∧ from σ l2 b.
Proof.
  destruct l2 as [|x l2]; cbn.
  { rewrite app_nil_r. unfold chain. tauto. }
  unfold chain. rewrite upto_app, last_or_app. tauto.
Qed.

Lemma upto_frame σ σ' a l :
  NoDup (a :: l) →
  (∀ x, x ∈ a :: l → x ≠ last_or a l → nx σ' x = nx σ x) →
  (∀ x, x ∈ l → pv σ' x = pv σ x) →
  upto σ a l → upto σ' a l.
Proof.
  revert a. induction l as [|x l IH]; intros a Hnd Hn Hp; cbn; [done|].
  apply NoDup_cons in Hnd as [Ha Hnd].
  rewrite (last_or_app a [] x l : last_or a (x :: l) = _) in Hn.
  intros [[H1 H2] H3]. split.
  - split; [rewrite Hn|rewrite Hp]; [done|set_solver| |done|set_solver].
    intros ->. apply Ha, last_or_elem.
  - apply IH; [done|..|done]; intros; [apply Hn|apply Hp]; set_solver.
Qed.

Lemma from_frame σ σ' l b :
  NoDup (b :: l) →
  (∀ x, x ∈ l → nx σ' x = nx σ x) →
  (∀ x, x ∈ b :: l → x ≠ head_or b l → pv σ' x = pv σ x) →
  from σ l b → from σ' l b.
Proof.
  destruct l as [|e l]; cbn; [done|]. intros Hnd Hn Hp [Hu [H1 H2]].
  apply NoDup_cons in Hnd as [Hb Hnd]. pose proof Hnd as [He ?]%NoDup_cons.
  split.
  - apply (upto_frame σ); [done|..|done]; intros; [apply Hn|apply Hp]; set_solver.
  - split; [rewrite Hn|rewrite Hp]; [done|apply last_or_elem|done|set_solver|cbn; set_solver].
Qed.

Lemma ring_frame σ σ' h l :
  (∀ x, x ∈ h :: l → nx σ' x = nx σ x ∧ pv σ' x = pv σ x) →
  ring σ h l → ring σ' h l.
Proof.
  intros Hf [[Hu [H1 H2]] Hnd]. split; [|done]. split.
  - apply (upto_frame σ); [done|..|done]; intros; apply Hf; set_solver.
  - split.
    + by rewrite (proj1 (Hf _ (last_or_elem h l))).
    + by rewrite (proj2 (Hf h ltac:(set_solver))).
Qed.

(** *** The two pointer surgeries

    [spliced]: [n] now sits between [p] and [e]; [unlinked]: [n] points at
    itself and its neighbours [p] and [e] at each other. *)
Definition spliced (σ σ' : store) (p n e : Z) : Prop :=
  (∀ x, nx σ' x = if decide (x = p) then Some n else if decide (x = n) then Some e else nx σ x) ∧
  (∀ x, pv σ' x = if decide (x = e) then Some n else if decide (x = n) then Some p else pv σ x).

Definition unlinked (σ σ' : store) (p n e : Z) : Prop :=
  (∀ x, nx σ' x = if decide (x = n) then Some n else if decide (x = p) then Some e else nx σ x) ∧
  (∀ x, pv σ' x = if decide (x = n) then Some n else if decide (x = e) then Some p else pv σ x).

(** Settle which node a read or write hits, given the memberships in scope. *)
Ltac ring_cases :=
  repeat case_decide; subst;
  first [done | congruence | exfalso; solve [eauto 3 using list_elem_of_here, list_elem_of_further]].

(** Where a ring is cut in two, the parts share no node. *)
Lemma ring_parts h (l1 l2 : list Z) :
  NoDup (h :: l1 ++ l2) →
  NoDup (h :: l1) ∧ NoDup (h :: l2) ∧ head_or h l2 ∉ l1 ∧ last_or h l1 ∉ l2.
Proof.
  intros [Hh (Hn1 & Hd & Hn2)%NoDup_app]%NoDup_cons.
  rewrite elem_of_app in Hh.
  pose proof (last_or_elem h l1) as Hpe. pose proof (head_or_elem h l2) as Hee.
  rewrite elem_of_cons in Hpe, Hee.
  split_and!; [apply NoDup_cons; tauto..| |].
  - destruct Hee as [->|?]; [tauto|]. intros ?; by eapply Hd.
  - destruct Hpe as [->|?]; [tauto|]. by apply Hd.
Qed.

Lemma ring_spliced σ σ' h l1 l2 n :
  ring σ h (l1 ++ l2) → n ∉ h :: l1 ++ l2 →
  spliced σ σ' (last_or h l1) n (head_or h l2) →
  ring σ' h (l1 ++ n :: l2).
Proof.
  intros [Hc Hnd] Hn [Hx Hp].
  apply chain_split in Hc as (Hu & _ & Hf).
  pose proof (last_or_elem h l1) as Hpe. pose proof (head_or_elem h l2) as Hee.
  destruct (ring_parts _ _ _ Hnd) as (Hn1 & Hn2 & Hd1 & Hd2).
  assert (n ∉ h :: l1) as Hni1 by (clear -Hn; set_solver).
  assert (n ∉ h :: l2) as Hni2 by (clear -Hn; set_solver).
  split.
  - apply chain_split. split_and!.
    + apply (upto_frame σ); [done|..|done]; intros x Hin; intros; rewrite ?Hx, ?Hp; ring_cases.
    + split; cbn; rewrite ?Hx, ?Hp; ring_cases.
    + change (chain σ' n ([] ++ l2) h). apply chain_split. cbn. split_and!; [done| |].
      * split; rewrite ?Hx, ?Hp; ring_cases.
      * apply (from_frame σ); [done|..|done]; intros x Hin; intros; rewrite ?Hx, ?Hp; ring_cases.
  - rewrite <-Permutation_middle, NoDup_cons, elem_of_cons, NoDup_cons.
    apply NoDup_cons in Hnd as [??]. clear -Hn H H0. set_solver.
Qed.

Lemma ring_unlinked σ σ' h l1 l2 n :
  ring σ h (l1 ++ n :: l2) →
  unlinked σ σ' (last_or h l1) n (head_or h l2) →
  ring σ' h (l1 ++ l2) ∧ nx σ' n = Some n ∧ pv σ' n = Some n.
Proof.
  intros [Hc Hnd] [Hx Hp].
  apply chain_split in Hc as (Hu & _ & Hf). cbn in Hf.
  change (chain σ n ([] ++ l2) h) in Hf. apply chain_split in Hf as (_ & _ & Hf).
  pose proof (last_or_elem h l1) as Hpe. pose proof (head_or_elem h l2) as Hee.
  assert (n ∉ h :: l1 ++ l2 ∧ NoDup (h :: l1 ++ l2)) as [Hn Hnd'].
  { rewrite <-Permutation_middle in Hnd. rewrite !NoDup_cons in *. set_solver. }
  destruct (ring_parts _ _ _ Hnd') as (Hn1 & Hn2 & Hd1 & Hd2).
  assert (n ∉ h :: l1) as Hni1 by (clear -Hn; set_solver).
  assert (n ∉ h :: l2) as Hni2 by (clear -Hn; set_solver).
  split; [split; [|done]|rewrite Hx, Hp; by repeat case_decide].
  apply chain_split. split_and!.
  - apply (upto_frame σ); [done|..|done]; intros x Hin; intros; rewrite ?Hx, ?Hp; ring_cases.
  - split; rewrite ?Hx, ?Hp; ring_cases.
  - apply (from_frame σ); [done|..|done]; intros x Hin; intros; rewrite ?Hx, ?Hp; ring_cases.
Qed.

(** *** Running the operations

    A node lives in a store when both its pointers can be read. *)
Definition live (σ : store) (n a b : Z) : Prop := nx σ n = Some a ∧ pv σ n = Some b.

Lemma live_lookup σ n a b : live σ n a b ↔ σ !! n = Some (Link a b).
Proof.
  unfold live, nx, pv. destruct (σ !! n) as [[a' b']|]; cbn; naive_solver.
Qed.

Lemma wp_rd σ n a b (Q : link → store → Prop) :
  live σ n a b → Q (Link a b) σ → wp (rd n) Q σ.
Proof. rewrite live_lookup. intros. by apply (wp_get_opt _ _ _ _ (Link a b)). Qed.

Lemma wp_set_next σ n v a b (Q : unit → store → Prop) :
  live σ n a b →
  (∀ σ', (∀ x, nx σ' x = if decide (x = n) then Some v else nx σ x) →
         (∀ x, pv σ' x = pv σ x) → Q tt σ') →
  wp (set_next n v) Q σ.
Proof.
  intros Hl HQ. unfold set_next. wp_step. apply (wp_rd _ _ a b); [done|].
  wp_step. apply live_lookup in Hl. apply HQ; intros x; unfold nx, pv;
    rewrite lookup_insert; repeat case_decide; subst; try done; by rewrite Hl.
Qed.

Lemma wp_set_prev σ n v a b (Q : unit → store → Prop) :
  live σ n a b →
  (∀ σ', (∀ x, nx σ' x = nx σ x) →
         (∀ x, pv σ' x = if decide (x = n) then Some v else pv σ x) → Q tt σ') →
  wp (set_prev n v) Q σ.
Proof.
  intros Hl HQ. unfold set_prev. wp_step. apply (wp_rd _ _ a b); [done|].
  wp_step. apply live_lookup in Hl. apply HQ; intros x; unfold nx, pv;
    rewrite lookup_insert; repeat case_decide; subst; try done; by rewrite Hl.
Qed.

Lemma wp_list_init σ n (Q : unit → store → Prop) :
  n ≠ 0 →
  (∀ σ', (∀ x, nx σ' x = if decide (x = n) then Some n else nx σ x) →
         (∀ x, pv σ' x = if decide (x = n) then Some n else pv σ x) → Q tt σ') →
  wp (list_init n) Q σ.
Proof.
  intros Hn HQ. unfold list_init, nonnull. do 2 wp_step; [by rewrite (proj2 (Z.eqb_neq n 0))|].
  wp_step. apply HQ; intros x; unfold nx, pv; rewrite lookup_insert; by repeat case_decide.
Qed.

(** The facts about the neighbours of a splice point. *)
Definition splice_point (σ : store) (p n e : Z) : Prop :=
  (∃ a b, live σ n a b) ∧ nx σ p = Some e ∧ pv σ e = Some p ∧ is_Some (nx σ e) ∧
  is_Some (pv σ p) ∧ n ≠ p ∧ n ≠ e ∧ n ≠ 0 ∧ p ≠ 0 ∧ e ≠ 0.

Ltac solve_nonnull :=
  unfold nonnull; rewrite ?(proj2 (Z.eqb_neq _ _)) by done; reflexivity.

Ltac solve_live :=
  split; repeat (match goal with
    | H : ∀ x, nx _ x = _ |- context [nx _ _] => rewrite H
    | H : ∀ x, pv _ x = _ |- context [pv _ _] => rewrite H
    end); repeat case_decide; first [exfalso; congruence | eassumption | reflexivity].

Ltac link_step :=
  lazymatch goal with
  | |- wp (bind _ _) _ _ => apply wp_bind
  | |- wp (ret _) _ _ => apply wp_ret
  | |- wp (assert _) _ _ => apply wp_assert; [solve_nonnull|]
  | |- wp (rd _) _ _ => eapply wp_rd; [solve_live|]; cbn [next prev]
  | |- wp (set_next _ _) _ _ => eapply wp_set_next; [solve_live|]; intros ???
  | |- wp (set_prev _ _) _ _ => eapply wp_set_prev; [solve_live|]; intros ???
  | |- wp (list_init _) _ _ => apply wp_list_init; [done|]; intros ???
  end.

Ltac solve_surgery :=
  split; intros ?; repeat (match goal with
    | H : ∀ x, nx _ x = _ |- context [nx _ _] => rewrite H
    | H : ∀ x, pv _ x = _ |- context [pv _ _] => rewrite H
    end); repeat case_decide; congruence.

Ltac run_splice p e :=
  intros ((na & nb & ? & ?) & ? & ? & [ea ?] & [pb ?] & ? & ? & ? & ? & ?);
  destruct (decide (p = e)); [simplify_eq|]; repeat link_step; solve_surgery.

Lemma list_insert_before_splices σ p n e :
  splice_point σ p n e → wp (list_insert_before e n) (λ _ σ', spliced σ σ' p n e) σ.
Proof. unfold list_insert_before. run_splice p e. Qed.

Lemma list_insert_after_splices σ p n e :
  splice_point σ p n e → wp (list_insert_after p n) (λ _ σ', spliced σ σ' p n e) σ.
Proof. unfold list_insert_after. run_splice p e. Qed.

Lemma list_add_splices σ p n e :
  splice_point σ p n e → wp (list_add e n) (λ _ σ', spliced σ σ' p n e) σ.
Proof. unfold list_add. run_splice p e. Qed.

Lemma list_push_splices σ p n e :
  splice_point σ p n e → wp (list_push p n) (λ _ σ', spliced σ σ' p n e) σ.
Proof. unfold list_push. run_splice p e. Qed.

Lemma sched_list_push_splices σ p n e :
  splice_point σ p n e → wp (sched_list_push e n) (λ _ σ', spliced σ σ' p n e) σ.
Proof. unfold sched_list_push, sched_list_insert. run_splice p e. Qed.

Definition unlink_point (σ : store) (p n e : Z) : Prop :=
  live σ n e p ∧ (∃ a, live σ p n a) ∧ (∃ b, live σ e b n) ∧ n ≠ 0 ∧ p ≠ 0 ∧ e ≠ 0.

Ltac run_unlink p n e :=
  intros ([? ?] & [pa [? ?]] & [eb [? ?]] & ? & ? & ?);
  destruct (decide (p = n)), (decide (e = n)), (decide (p = e));
  simplify_eq; repeat link_step; solve_surgery.

Lemma list_remove_unlinks σ p n e :
  unlink_point σ p n e → wp (list_remove n) (λ _ σ', unlinked σ σ' p n e) σ.
Proof. unfold list_remove. run_unlink p n e. Qed.

Lemma sched_list_remove_unlinks σ p n e :
  unlink_point σ p n e → wp (sched_list_remove n) (λ _ σ', unlinked σ σ' p n e) σ.
Proof. unfold sched_list_remove. run_unlink p n e. Qed.

(** *** Nodes of a ring *)
Lemma ring_cut σ h l1 l2 :
  ring σ h (l1 ++ l2) → edge σ (last_or h l1) (head_or h l2).
Proof. intros [Hc _]. by apply chain_split in Hc as (_ & ? & _). Qed.

Lemma ring_node σ h l1 n l2 :
  ring σ h (l1 ++ n :: l2) → edge σ (last_or h l1) n ∧ edge σ n (head_or h l2).
Proof.
  intros Hr. split; [by apply (ring_cut σ h l1 (n :: l2))|].
  rewrite cons_middle, app_assoc in Hr. apply ring_cut in Hr.
  by rewrite last_or_app in Hr.
Qed.

Lemma ring_live σ h l x : ring σ h l → x ∈ h :: l → is_Some (nx σ x) ∧ is_Some (pv σ x).
Proof.
  intros Hr [->|(l1 & l2 & ->)%list_elem_of_split]%elem_of_cons.
  - split; eexists.
    + apply (ring_cut σ h [] l Hr).
    + rewrite <-(app_nil_r l) in Hr. apply (ring_cut σ h l [] Hr).
  - apply ring_node in Hr as [[_ ?] [? _]]. split; eexists; eassumption.
Qed.

Lemma ring_splice_point σ h l1 l2 n a b :
  ring σ h (l1 ++ l2) → live σ n a b → n ∉ h :: l1 ++ l2 →
  σ !! 0 = None → splice_point σ (last_or h l1) n (head_or h l2).
Proof.
  intros Hr Hl Hn H0. pose proof (ring_cut _ _ _ _ Hr) as [He Hp].
  destruct (ring_live _ _ _ _ Hr (last_or_elem_app h l1 l2)) as [_ ?],
    (ring_live _ _ _ _ Hr (head_or_elem_app h l1 l2)) as [? _].
  pose proof (last_or_elem_app h l1 l2). pose proof (head_or_elem_app h l1 l2).
  assert (∀ x, is_Some (nx σ x) → x ≠ 0) as Hnz.
  { intros x [? Hx] ->. unfold nx in Hx. by rewrite H0 in Hx. }
  destruct Hl as [? ?].
  split_and!; eauto; try (intros ->; done).
  by exists a, b.
Qed.

Lemma ring_unlink_point σ h l1 n l2 :
  ring σ h (l1 ++ n :: l2) → σ !! 0 = None →
  unlink_point σ (last_or h l1) n (head_or h l2).
Proof.
  intros Hr H0. pose proof (ring_node _ _ _ _ _ Hr) as [[? ?] [? ?]].
  destruct (ring_live _ _ _ _ Hr (last_or_elem_app h l1 (n :: l2))) as [[? ?] [? ?]].
  assert (head_or h l2 ∈ h :: l1 ++ n :: l2) as Hem.
  { rewrite cons_middle, app_assoc. apply head_or_elem_app. }
  destruct (ring_live _ _ _ _ Hr Hem) as [[? ?] [? ?]].
  assert (nx σ 0 = None ∧ pv σ 0 = None) as [??] by (unfold nx, pv; by rewrite H0).
  unfold unlink_point, live. split_and!; eauto; congruence.
Qed.

(** ** Refinement: the store implements lists

    The abstract state: the list each head owns, and the nodes that are in no
    list and point at themselves. *)
Record rings := Rings { ring_of : gmap Z (list Z); loose : gset Z }.

Record Rep (σ : store) (R : rings) : Prop := {
  rep_null : σ !! 0 = None;
  rep_ring h l : ring_of R !! h = Some l → ring σ h l;
  rep_loose n : n ∈ loose R → live σ n n n;
  rep_disj h1 h2 l1 l2 x :
    ring_of R !! h1 = Some l1 → ring_of R !! h2 = Some l2 →
    x ∈ h1 :: l1 → x ∈ h2 :: l2 → h1 = h2;
  rep_apart h l x : ring_of R !! h = Some l → x ∈ h :: l → x ∉ loose R
}.

Definition attach (R : rings) (h : Z) (l : list Z) (n : Z) : rings :=
  Rings (<[h := l]> (ring_of R)) (loose R ∖ {[n]}).
Definition detach (R : rings) (h : Z) (l : list Z) (n : Z) : rings :=
  Rings (<[h := l]> (ring_of R)) ({[n]} ∪ loose R).

Lemma rep_spliced σ σ' R h l1 l2 n :
  Rep σ R → ring_of R !! h = Some (l1 ++ l2) → n ∈ loose R →
  spliced σ σ' (last_or h l1) n (head_or h l2) →
  Rep σ' (attach R h (l1 ++ n :: l2) n).
Proof.
  intros HR Hh Hn Hs. pose proof (rep_ring _ _ HR _ _ Hh) as Hr.
  pose proof (rep_loose _ _ HR _ Hn) as [Hln Hlp].
  assert (∀ h' l', ring_of R !! h' = Some l' → n ∉ h' :: l') as Hfresh.
  { intros h' l' Hh' Hin. by apply (rep_apart _ _ HR _ _ _ Hh' Hin). }
  assert (∀ x, (x ∉ h :: l1 ++ n :: l2) → nx σ' x = nx σ x ∧ pv σ' x = pv σ x) as Hfr.
  { intros x Hx. destruct Hs as [-> ->].
    pose proof (last_or_elem h l1). pose proof (head_or_elem h l2).
    split; repeat case_decide; subst; try done; exfalso; apply Hx; clear -H H0; set_solver. }
  assert (σ' !! 0 = None) as H0.
  { destruct (Hfr 0) as [Hx _].
    - intros Hin. assert (nx σ 0 = None) as Hz by (unfold nx; by rewrite (rep_null _ _ HR)).
      rewrite <-Permutation_middle, Permutation_swap in Hin.
      apply elem_of_cons in Hin as [<-|Hin]; [congruence|].
      destruct (ring_live _ _ _ _ Hr Hin) as [[? ?] _]. congruence.
    - unfold nx in Hx. rewrite (rep_null _ _ HR) in Hx. by destruct (σ' !! 0). }
  assert (∀ h' l' x, ring_of R !! h' = Some l' → h' ≠ h → x ∈ h' :: l' → x ∉ h :: l1 ++ n :: l2) as Hoth.
  { intros h' l' x Hh' Hne Hx Hin. rewrite <-Permutation_middle, Permutation_swap in Hin.
    apply elem_of_cons in Hin as [->|Hin]; [by eapply Hfresh|].
    apply Hne. by eapply (rep_disj _ _ HR). }
  split; cbn.
  - done.
  - intros h' l'. rewrite lookup_insert. case_decide as Heq; [subst; intros [= <-]|intros Hh'].
    + eapply ring_spliced; eauto.
    + eapply ring_frame; [|by eapply rep_ring]. intros; apply Hfr; eauto.
  - intros x Hx. apply elem_of_difference in Hx as [Hx Hxn].
    destruct (rep_loose _ _ HR _ Hx). unfold live. destruct (Hfr x) as [-> ->]; [|done].
    rewrite <-Permutation_middle, Permutation_swap. intros [->|Hin]%elem_of_cons; [set_solver|].
    by apply (rep_apart _ _ HR _ _ _ Hh Hin).
  - intros h1 h2 k1 k2 x. rewrite !lookup_insert. repeat case_decide; subst; try done.
    + intros [= <-] H2 Hx Hx2. exfalso. by eapply (Hoth h2 k2 x).
    + intros H1 [= <-] Hx Hx2. exfalso. by eapply (Hoth h1 k1 x).
    + intros ???? . by eapply (rep_disj _ _ HR).
  - intros h' l' x. rewrite lookup_insert, elem_of_difference. case_decide; [subst; intros [= <-]|].
    + rewrite <-Permutation_middle, Permutation_swap. intros [->|Hin]%elem_of_cons [? ?]; [set_solver|].
      by apply (rep_apart _ _ HR _ _ _ Hh Hin).
    + intros Hh' Hx [? _]. by apply (rep_apart _ _ HR _ _ _ Hh' Hx).
Qed.

Lemma rep_unlinked σ σ' R h l1 l2 n :
  Rep σ R → ring_of R !! h = Some (l1 ++ n :: l2) →
  unlinked σ σ' (last_or h l1) n (head_or h l2) →
  Rep σ' (detach R h (l1 ++ l2) n).
Proof.
  intros HR Hh Hs. pose proof (rep_ring _ _ HR _ _ Hh) as Hr.
  assert (∀ x, (x ∉ h :: l1 ++ n :: l2) → nx σ' x = nx σ x ∧ pv σ' x = pv σ x) as Hfr.
  { intros x Hx. pose proof (last_or_elem_app h l1 (n :: l2)).
    pose proof (head_or_elem_app h (l1 ++ [n]) l2) as Hq. rewrite <-app_assoc in Hq.
    destruct Hs as [-> ->]. split; repeat case_decide; subst; try done;
      exfalso; apply Hx; first [done | clear; set_solver]. }
  assert (∀ h' l' x, ring_of R !! h' = Some l' → h' ≠ h → x ∈ h' :: l' → x ∉ h :: l1 ++ n :: l2) as Hoth.
  { intros h' l' x Hh' Hne Hx Hin. apply Hne. by eapply (rep_disj _ _ HR). }
  assert (∀ x, x ∈ h :: l1 ++ l2 → x ∈ h :: l1 ++ n :: l2) as Hsub by (clear; set_solver).
  destruct (ring_unlinked _ _ _ _ _ _ Hr Hs) as (Hr' & Hnn & Hpn).
  split; cbn.
  - destruct (Hfr 0) as [Hx _].
    + intros Hin. destruct (ring_live _ _ _ _ Hr Hin) as [[? Hz] _].
      unfold nx in Hz. by rewrite (rep_null _ _ HR) in Hz.
    + unfold nx in Hx. rewrite (rep_null _ _ HR) in Hx. by destruct (σ' !! 0).
  - intros h' l'. rewrite lookup_insert. case_decide as Heq; [subst; by intros [= <-]|intros Hh'].
    eapply ring_frame; [|by eapply rep_ring]. intros; apply Hfr; eauto.
  - intros x [->%elem_of_singleton|Hx]%elem_of_union; [done|].
    destruct (rep_loose _ _ HR _ Hx). unfold live. destruct (Hfr x) as [-> ->]; [|done].
    intros Hin. by apply (rep_apart _ _ HR _ _ _ Hh Hin).
  - intros h1 h2 k1 k2 x. rewrite !lookup_insert. repeat case_decide; subst; try done.
    + intros [= <-] H2 Hx Hx2. exfalso. apply (Hoth h2 k2 x); eauto.
    + intros H1 [= <-] Hx Hx2. exfalso. apply (Hoth h1 k1 x); eauto.
    + intros ????. by eapply (rep_disj _ _ HR).
  - intros h' l' x. rewrite lookup_insert, elem_of_union, elem_of_singleton.
    case_decide; [subst; intros [= <-] Hin|intros Hh' Hx].
    + destruct Hr as [_ Hnd]. rewrite <-Permutation_middle, NoDup_cons in Hnd.
      intros [->|Hl]; [|by apply (rep_apart _ _ HR _ _ _ Hh (Hsub _ Hin))].
      destruct Hnd as [H1 [H2 _]%NoDup_cons]. clear -Hin H1 H2. set_solver.
    + intros [->|Hl]; [|by apply (rep_apart _ _ HR _ _ _ Hh' Hx)].
      apply (Hoth h' l' n); [done..|]. clear; set_solver.
Qed.

(** The calls a client makes, and what each does to the lists. *)
Inductive op :=
  | OpAdd (list node : Z) | OpPush (list node : Z)
  | OpInsertBefore (entry node : Z) | OpInsertAfter (entry node : Z)
  | OpRemove (node : Z) | OpPop (list : Z)
  | OpSchedPush (list node : Z) | OpSchedRemove (node : Z) | OpSchedPop (list : Z).

Definition run (o : op) : M store Z :=
  match o with
  | OpAdd h n => list_add h n ;;; ret 0
  | OpPush h n => list_push h n ;;; ret 0
  | OpInsertBefore e n => list_insert_before e n ;;; ret 0
  | OpInsertAfter e n => list_insert_after e n ;;; ret 0
  | OpRemove n => list_remove n ;;; ret 0
  | OpPop h => list_pop h
  | OpSchedPush h n => sched_list_push h n ;;; ret 0
  | OpSchedRemove n => sched_list_remove n ;;; ret 0
  | OpSchedPop h => sched_list_pop h
  end.

Fixpoint run_all (os : list op) : M store (list Z) :=
  match os with
  | [] => ret []
  | o :: os' => v <- run o ;; vs <- run_all os' ;; ret (v :: vs)
  end.

(** [links R o h l1 l2 n]: [o] links the loose node [n] into the list of [h],
    between [l1] and [l2]. *)
Inductive links (R : rings) : op → Z → list Z → list Z → Z → Prop :=
  | links_add h l n : links R (OpAdd h n) h l [] n
  | links_sched_push h l n : links R (OpSchedPush h n) h l [] n
  | links_push h l n : links R (OpPush h n) h [] l n
  | links_before h l1 l2 n : links R (OpInsertBefore (head_or h l2) n) h l1 l2 n
  | links_after h l1 l2 n : links R (OpInsertAfter (last_or h l1) n) h l1 l2 n.

Inductive astep (R : rings) : op → rings → Z → Prop :=
  | astep_link o h l1 l2 n :
      links R o h l1 l2 n → ring_of R !! h = Some (l1 ++ l2) → n ∈ loose R →
      astep R o (attach R h (l1 ++ n :: l2) n) 0
  | astep_remove o h l1 l2 n :
      o = OpRemove n ∨ o = OpSchedRemove n →
      ring_of R !! h = Some (l1 ++ n :: l2) →
      astep R o (detach R h (l1 ++ l2) n) 0
  | astep_pop o h n l :
      o = OpPop h ∨ o = OpSchedPop h → ring_of R !! h = Some (n :: l) →
      astep R o (detach R h l n) n
  | astep_pop_empty o h :
      o = OpPop h ∨ o = OpSchedPop h → ring_of R !! h = Some [] → astep R o R 0.

Inductive asteps : rings → list op → rings → list Z → Prop :=
  | asteps_nil R : asteps R [] R []
  | asteps_cons R o R1 v os R2 vs :
      astep R o R1 v → asteps R1 os R2 vs → asteps R (o :: os) R2 (v :: vs).

Lemma links_splices R σ o h l1 l2 n :
  Rep σ R → links R o h l1 l2 n → ring_of R !! h = Some (l1 ++ l2) → n ∈ loose R →
  wp (run o) (λ v σ', v = 0 ∧ Rep σ' (attach R h (l1 ++ n :: l2) n)) σ.
Proof.
  intros HR Hl Hh Hn.
  pose proof (ring_splice_point _ _ _ _ n n n (rep_ring _ _ HR _ _ Hh) (rep_loose _ _ HR _ Hn)
    (λ Hin, rep_apart _ _ HR _ _ _ Hh Hin Hn) (rep_null _ _ HR)) as Hsp.
  assert (∀ m : M store unit, wp m (λ _ σ', spliced σ σ' (last_or h l1) n (head_or h l2)) σ →
            wp (m ;;; ret 0) (λ v σ', v = 0 ∧ Rep σ' (attach R h (l1 ++ n :: l2) n)) σ) as Hm.
  { intros m Hm. apply wp_bind. eapply wp_mono; [exact Hm|]. intros [] σ' Hs.
    apply wp_ret. split; [done|by apply (rep_spliced σ)]. }
  destruct Hl; cbn [run]; apply Hm.
  - by apply list_add_splices.
  - by apply sched_list_push_splices.
  - by apply list_push_splices.
  - by apply list_insert_before_splices.
  - by apply list_insert_after_splices.
Qed.

Lemma remove_refines R σ h l1 l2 n :
  Rep σ R → ring_of R !! h = Some (l1 ++ n :: l2) →
  wp (list_remove n) (λ _ σ', Rep σ' (detach R h (l1 ++ l2) n)) σ ∧
  wp (sched_list_remove n) (λ _ σ', Rep σ' (detach R h (l1 ++ l2) n)) σ.
Proof.
  intros HR Hh.
  pose proof (ring_unlink_point _ _ _ _ _ (rep_ring _ _ HR _ _ Hh) (rep_null _ _ HR)).
  split.
  - eapply wp_mono; [by apply list_remove_unlinks|]. intros [] σ' ?. by apply (rep_unlinked σ).
  - eapply wp_mono; [by apply sched_list_remove_unlinks|]. intros [] σ' ?. by apply (rep_unlinked σ).
Qed.

Lemma ring_nil_head σ h : ring σ h [] → nx σ h = Some h ∧ pv σ h = Some h.
Proof. intros [[_ [? ?]] _]. done. Qed.

Lemma ring_cons_head σ h n l : ring σ h (n :: l) → nx σ h = Some n ∧ n ≠ h.
Proof.
  intros [[[[? _] _] _] Hnd]. split; [done|]. apply NoDup_cons in Hnd as [? _]. set_solver.
Qed.

Lemma rep_head_nonnull σ R h l : Rep σ R → ring_of R !! h = Some l → h ≠ 0.
Proof.
  intros HR Hh ->. destruct (ring_live _ _ _ 0 (rep_ring _ _ HR _ _ Hh)) as [[? Hz] _]; [set_solver|].
  unfold nx in Hz. by rewrite (rep_null _ _ HR) in Hz.
Qed.

Lemma pop_refines R σ h l :
  Rep σ R → ring_of R !! h = Some l →
  let Q v σ' := match l with
                | [] => v = 0 ∧ Rep σ' R
                | n :: l' => v = n ∧ Rep σ' (detach R h l' n)
                end in
  wp (list_pop h) Q σ ∧ wp (sched_list_pop h) Q σ.
Proof.
  intros HR Hh Q. pose proof (rep_ring _ _ HR _ _ Hh) as Hr.
  pose proof (rep_head_nonnull _ _ _ _ HR Hh).
  destruct (ring_live _ _ _ h Hr) as [_ [b Hb]]; [set_solver|].
  unfold list_pop, list_is_empty, sched_list_pop. destruct l as [|n l].
  - clear Hb. apply ring_nil_head in Hr as [Hn Hp]. split; repeat link_step; cbn [next prev];
      rewrite !Z.eqb_refl; by apply wp_ret.
  - apply ring_cons_head in Hr as [Hn Hne].
    destruct (remove_refines R σ h [] l n HR Hh) as [H1 H2].
    split; repeat link_step; cbn [next prev]; rewrite (proj2 (Z.eqb_neq n h)) by done; cbn;
      repeat link_step; (eapply wp_mono; [eassumption|]); intros [] σ' ?; by apply wp_ret.
Qed.

(** C26: the pointer code of the intrusive lists implements lists: any sequence
    of linking, unlinking and popping calls that the list view allows runs
    without touching a null or unknown pointer, returns the nodes the list view
    returns, and ends in a store that represents the resulting lists. *)
Theorem list_operations_refine σ R os R' vs :
  Rep σ R → asteps R os R' vs → wp (run_all os) (λ vs' σ', vs' = vs ∧ Rep σ' R') σ.
Proof.
  intros HR Hs. revert σ HR. induction Hs as [R|R o R1 v os R2 vs Ho Hos IH]; intros σ HR; [done|].
  cbn [run_all]. apply wp_bind.
  enough (wp (run o) (λ v' σ', v' = v ∧ Rep σ' R1) σ) as Hrun.
  { eapply wp_mono; [exact Hrun|]. intros ? σ1 [-> HR1]. apply wp_bind.
    eapply wp_mono; [by apply IH|]. by intros ? ? [-> ?]. }
  destruct Ho as [o h l1 l2 n Hl Hh Hn|o h l1 l2 n Ho Hh|o h n l Ho Hh|o h Ho Hh].
  - by apply links_splices.
  - destruct (remove_refines _ _ _ _ _ _ HR Hh) as [H1 H2].
    destruct Ho as [-> | ->]; cbn [run]; apply wp_bind; (eapply wp_mono; [eassumption|]); by intros [] ? ?.
  - destruct (pop_refines _ _ _ _ HR Hh) as [H1 H2]. destruct Ho as [-> | ->]; done.
  - destruct (pop_refines _ _ _ _ HR Hh) as [H1 H2]. destruct Ho as [-> | ->]; done.
Qed.

(** iterating over a ring visits exactly the represented nodes in order,
    from any fuel above their number: the walk of [list_for_each] and
    [list_size] terminates on every well-formed ring. *)
Theorem list_for_each_visits σ h l fuel :
  ring σ h l → h ≠ 0 → (length l < fuel)%nat →
  list_for_each fuel h σ = Done l σ ∧ list_size fuel h σ = Done (Z.of_nat (length l)) σ.
Proof.
  intros Hr Hz Hf.
  assert (∀ l2 l1 c k, l = l1 ++ l2 → c = head_or h l2 → (length l2 < k)%nat →
            walk k h c σ = Done l2 σ) as Hwalk.
  { induction l2 as [|x l2 IH]; intros l1 c [|k] -> -> Hk; cbn in Hk; try lia; cbn.
    { by rewrite Z.eqb_refl. }
    pose proof (proj2 Hr) as Hnd. pose proof (ring_node _ _ _ _ _ Hr) as [_ [Hn _]].
    destruct (ring_live _ _ _ x Hr) as [_ [b Hb]]; [clear; set_solver|].
    assert (x ≠ h) as Hne by (apply NoDup_cons in Hnd as [Hh _]; clear -Hh; set_solver).
    rewrite (proj2 (Z.eqb_neq x h)) by done.
    assert (σ !! x = Some (Link (head_or h l2) b)) as Hx by (by apply live_lookup).
    unfold bind at 1, rd, get_opt. rewrite Hx. cbn [next].
    unfold bind. rewrite (IH (l1 ++ [x]) _ k); [done|by rewrite <-app_assoc|done|lia]. }
  assert (list_for_each fuel h σ = Done l σ) as Hfe.
  { unfold list_for_each, bind, rd, get_opt.
    pose proof (ring_cut σ h [] l Hr) as [Hn _]. unfold nx in Hn. cbn in Hn.
    destruct (σ !! h) as [lk|]; [|done]. cbn in Hn. injection Hn as Hn. rewrite Hn.
    by apply (Hwalk l []). }
  split; [done|]. unfold list_size, nonnull. rewrite (proj2 (Z.eqb_neq h 0)) by done. cbn.
  unfold bind. cbn. by rewrite Hfe.
Qed.

(** A store is built by [list_init]: of a node that stays loose, or of a head
    that owns the empty list. *)
Lemma rep_empty : Rep ∅ (Rings ∅ ∅).
Proof. split; cbn; try done; intros; first [by rewrite lookup_empty in *|set_solver]. Qed.

Lemma rep_fresh σ R n :
  Rep σ R → σ !! n = None → (∀ h l, ring_of R !! h = Some l → n ∉ h :: l) ∧ n ∉ loose R.
Proof.
  intros HR Hn. split.
  - intros h l Hh Hin. destruct (ring_live _ _ _ _ (rep_ring _ _ HR _ _ Hh) Hin) as [[? Hx] _].
    unfold nx in Hx. by rewrite Hn in Hx.
  - intros Hin. destruct (rep_loose _ _ HR _ Hin) as [Hx _]. unfold nx in Hx. by rewrite Hn in Hx.
Qed.

Lemma insert_link_frame σ (n m : Z) v :
  m ≠ n → nx (<[n := v]> σ) m = nx σ m ∧ pv (<[n := v]> σ) m = pv σ m.
Proof. intros. unfold nx, pv. by rewrite lookup_insert_ne by done. Qed.

Lemma rep_init_loose σ R n :
  Rep σ R → σ !! n = None → n ≠ 0 →
  Rep (<[n := Link n n]> σ) (Rings (ring_of R) ({[n]} ∪ loose R)).
Proof.
  intros HR Hn Hz. destruct (rep_fresh _ _ _ HR Hn) as [Hfr Hfl]. split; cbn.
  - rewrite lookup_insert_ne by done. apply (rep_null _ _ HR).
  - intros h l Hh. eapply ring_frame; [|by eapply rep_ring]. intros x Hx.
    apply insert_link_frame. intros ->. by eapply Hfr.
  - intros x [->%elem_of_singleton|Hx]%elem_of_union.
    + apply live_lookup, lookup_insert_eq.
    + destruct (insert_link_frame σ n x (Link n n)) as [H1 H2]; [by intros ->|].
      destruct (rep_loose _ _ HR _ Hx). by split; rewrite ?H1, ?H2.
  - apply (rep_disj _ _ HR).
  - intros h l x Hh Hx [->%elem_of_singleton|Hl]%elem_of_union; [by eapply Hfr|].
    by apply (rep_apart _ _ HR _ _ _ Hh Hx).
Qed.

Lemma rep_loose_head σ R n :
  Rep σ R → n ∈ loose R → Rep σ (Rings (<[n := []]> (ring_of R)) (loose R ∖ {[n]})).
Proof.
  intros HR Hn.
  assert (∀ h l, ring_of R !! h = Some l → n ∉ h :: l) as Hfr.
  { intros h l Hh Hin. by apply (rep_apart _ _ HR _ _ _ Hh Hin). }
  destruct (rep_loose _ _ HR _ Hn) as [H1 H2]. split; cbn.
  - apply (rep_null _ _ HR).
  - intros h l. rewrite lookup_insert. case_decide; [subst; intros [= <-]|by apply (rep_ring _ _ HR)].
    split; [by split|]. apply NoDup_singleton.
  - intros x [Hx _]%elem_of_difference. by apply (rep_loose _ _ HR).
  - intros h1 h2 l1 l2 x. rewrite !lookup_insert. repeat case_decide; subst; try done.
    + intros [= <-] Hh ->%list_elem_of_singleton Hx. by destruct (Hfr _ _ Hh).
    + intros Hh [= <-] Hx ->%list_elem_of_singleton. by destruct (Hfr _ _ Hh).
    + apply (rep_disj _ _ HR).
  - intros h l x. rewrite lookup_insert, elem_of_difference.
    case_decide; [subst; intros [= <-] ->%list_elem_of_singleton [_ ?]; set_solver|].
    intros Hh Hx [? _]. by apply (rep_apart _ _ HR _ _ _ Hh Hx).
Qed.

(** A head at 10 and two loose nodes. *)
Definition sample_store : store := <[2 := Link 2 2]> (<[1 := Link 1 1]> (<[10 := Link 10 10]> ∅)).
Definition sample_rings : rings := Rings {[10 := []]} {[1; 2]}.

Lemma sample_rep : Rep sample_store sample_rings.
Proof.
  pose proof (rep_init_loose _ _ 10 rep_empty eq_refl ltac:(done)) as HR.
  apply (rep_loose_head _ _ 10) in HR; [|set_solver].
  apply (rep_init_loose _ _ 1) in HR; [|done..]. apply (rep_init_loose _ _ 2) in HR; [|done..].
  cbn in HR. replace sample_rings with (Rings (<[10:=[]]> ∅)
    ({[2]} ∪ ({[1]} ∪ ({[10]} ∪ ∅) ∖ {[10]}))); [exact HR|].
  reflexivity.
Qed.

(** Add 1, push 2 in front of it, pop: the node popped is 2 and 1 is left. *)
Lemma sample_steps : ∃ R',
  asteps sample_rings [OpAdd 10 1; OpPush 10 2; OpPop 10] R' [0; 0; 2] ∧ ring_of R' !! 10 = Some [1].
Proof.
  eexists. split.
  - eapply asteps_cons; [|eapply asteps_cons; [|eapply asteps_cons; [|apply asteps_nil]]].
    + eapply (astep_link _ _ 10 [] [] 1); [apply links_add|done|set_solver].
    + eapply (astep_link _ _ 10 [] [1] 2); [apply links_push|done|set_solver].
    + eapply (astep_pop _ _ 10 2 [1]); [by left|reflexivity].
  - reflexivity.
Qed.

Lemma list_operations_refine_witness : ∃ R',
  wp (run_all [OpAdd 10 1; OpPush 10 2; OpPop 10])
     (λ vs σ', vs = [0; 0; 2] ∧ Rep σ' R') sample_store ∧ ring_of R' !! 10 = Some [1].
Proof.
  destruct sample_steps as (R' & Hs & Hr). exists R'. split; [|exact Hr].
  exact (list_operations_refine sample_store sample_rings _ R' _ sample_rep Hs).
Defined.

Lemma list_for_each_visits_witness :
  list_for_each 1 10 sample_store = Done [] sample_store ∧
  list_size 1 10 sample_store = Done 0 sample_store.
Proof.
  apply (list_for_each_visits sample_store 10 [] 1); [|done|cbn; lia].
  apply (rep_ring _ _ sample_rep). reflexivity.
Defined.
