(* ===== verification/Spinlock.v ===== *)
(** * The ticket spin lock

    [toolkit-support/include/pico/toolkit/spinlock.h].  The lock is one 32-bit
    word: the low half is the ticket being served, the high half the next
    ticket to give.  First the operations on the word, then the machine of any
    number of contenders, one atomic access per step, and its theorems: mutual
    exclusion and service in ticket order, while fewer than 2^16 contend. *)
From S2P Require Import Prelude.

(** ** The word *)
Definition half : Z := 2 ^ 16.
Definition serving (w : Z) : Z := Z.land w 0xffff.
Definition next_ticket (w : Z) : Z := Z.shiftr w 16.

(** [atomic_fetch_add(spinlock, 1UL << 16)] *)
Definition take_ticket (w : Z) : Z := u32 (w + Z.shiftl 1 16).
(** [atomic_fetch_add((uint16_t * )spinlock, 1)]: the low half wraps on its own. *)
Definition serve_next (w : Z) : Z := Z.shiftl (Z.shiftr w 16) 16 + (serving w + 1) mod half.

(** The word with [n] the next ticket and [s] the ticket served. *)
Definition lock_word (n s : Z) : Z := (n mod half) * half + s mod half.

(** The lock's operations in a state that holds the word.  A contender alone
    with a lock it does not get spins for ever. *)
Section operations.
Context {S : Type} (get_lock : S → Z) (set_lock : Z → S → S).

Definition spin_lock : M S unit :=
  ticket <- gets (λ s, next_ticket (get_lock s)) ;;
  upd (λ s, set_lock (take_ticket (get_lock s)) s) ;;;
  served <- gets (λ s, serving (get_lock s)) ;;
  if negb (served =? ticket) then fail OutOfFuel else ret tt.

Definition spin_unlock : M S unit := upd (λ s, set_lock (serve_next (get_lock s)) s).

Definition spin_try_lock : M S bool :=
  value <- gets get_lock ;;
  if negb (next_ticket value =? serving value) then ret false
  else
    now <- gets get_lock ;;
    if now =? value then upd (set_lock (take_ticket value)) ;;; ret true else ret false.
End operations.

Lemma serving_mod w : serving w = w mod half.
Proof. unfold serving, half. change 0xffff with (Z.ones 16). by apply Z.land_ones. Qed.

Lemma next_ticket_div w : next_ticket w = w / half.
Proof. unfold next_ticket, half. by apply Z.shiftr_div_pow2. Qed.

Lemma half_word : word = half * half. Proof. reflexivity. Qed.

Lemma lock_word_parts n s : serving (lock_word n s) = s mod half ∧ next_ticket (lock_word n s) = n mod half.
Proof.
  rewrite serving_mod, next_ticket_div. unfold lock_word. split.
  - rewrite Z.add_comm, Z_mod_plus_full. apply Z.mod_mod. done.
  - rewrite Z.add_comm, Z.div_add by done. rewrite Z.div_small; [lia|]. by apply Z.mod_pos_bound.
Qed.

Lemma take_ticket_word n s : take_ticket (lock_word n s) = lock_word (n + 1) s.
Proof.
  unfold take_ticket, lock_word, u32. rewrite half_word. change (Z.shiftl 1 16) with half.
  pose proof (Z.mod_pos_bound n half ltac:(done)) as Hn. pose proof (Z.mod_pos_bound s half ltac:(done)) as Hs.
  replace (n mod half * half + s mod half + half) with ((n mod half + 1) * half + s mod half) by lia.
  rewrite <-(Zplus_mod_idemp_l n 1 half). destruct (decide (n mod half + 1 = half)) as [E|E].
  - rewrite E, Z_mod_same_full. replace (half * half + s mod half) with (s mod half + 1 * (half * half)) by lia.
    rewrite Z_mod_plus_full, Z.mod_small by (unfold half in *; lia). lia.
  - rewrite (Z.mod_small (n mod half + 1)) by lia. apply Z.mod_small. unfold half in *. lia.
Qed.

Lemma serve_next_word n s : serve_next (lock_word n s) = lock_word n (s + 1).
Proof.
  unfold serve_next. destruct (lock_word_parts n s) as [E1 E2]. rewrite E1. fold (next_ticket (lock_word n s)).
  rewrite E2, Z.shiftl_mul_pow2 by done. unfold lock_word. by rewrite Zplus_mod_idemp_l.
Qed.

(** ** The contenders

    A contender is about to take a ticket, spins with the ticket it took, or
    holds the lock. *)
Inductive contender := Outside | Spinning (ticket : Z) | Holding.
#[export] Instance contender_eq_dec : EqDecision contender.
Proof. solve_decision. Defined.

Record arena := Arena { lock : Z; who : gmap nat contender }.
#[export] Instance eta_arena : Eta arena := λ a, Arena (lock a) (who a).

(** One atomic access of the contender [i]. *)
Inductive arena_step : arena → arena → Prop :=
  | step_take i a : who a !! i = Some Outside →
      arena_step a (Arena (take_ticket (lock a)) (<[i := Spinning (next_ticket (lock a))]> (who a)))
  | step_spin i t a : who a !! i = Some (Spinning t) → serving (lock a) ≠ t → arena_step a a
  | step_enter i t a : who a !! i = Some (Spinning t) → serving (lock a) = t →
      arena_step a (Arena (lock a) (<[i := Holding]> (who a)))
  | step_leave i a : who a !! i = Some Holding →
      arena_step a (Arena (serve_next (lock a)) (<[i := Outside]> (who a))).

Inductive arena_reachable (a0 : arena) : arena → Prop :=
  | arena_start : arena_reachable a0 a0
  | arena_next a a' : arena_reachable a0 a → arena_step a a' → arena_reachable a0 a'.

(** The ghost view: the contenders that took a ticket and have not left, in
    ticket order; the first is the one served, the last took ticket [served +
    length - 1]. *)
Record ordered (a : arena) (served : Z) (queue : list nat) : Prop := {
  or_lock : lock a = lock_word (served + Z.of_nat (length queue)) served;
  or_nodup : NoDup queue;
  or_few : Z.of_nat (length queue) < half;
  or_queue k i : queue !! k = Some i →
    (who a !! i = Some Holding ∧ k = 0%nat) ∨
    who a !! i = Some (Spinning ((served + Z.of_nat k) mod half));
  or_outside i c : who a !! i = Some c → i ∉ queue → c = Outside
}.

(** The contenders fit the ticket space. *)
Definition few (a : arena) : Prop := Z.of_nat (size (who a)) < half.

Lemma step_size a a' : arena_step a a' → size (who a') = size (who a).
Proof. intros [i a1 Hi|i t a1|i t a1 Hi|i a1 Hi]; cbn; rewrite ?map_size_insert_Some; eauto. Qed.

Lemma ordered_member a v q i : ordered a v q → i ∈ q → ∃ k, q !! k = Some i ∧
  ((who a !! i = Some Holding ∧ k = 0%nat) ∨ who a !! i = Some (Spinning ((v + Z.of_nat k) mod half))).
Proof. intros Ho [k Hk]%list_elem_of_lookup. exists k. split; [done|]. by apply (or_queue _ _ _ Ho). Qed.

Lemma ordered_live a v q i c : ordered a v q → who a !! i = Some c → c ≠ Outside → i ∈ q.
Proof. intros Ho Hi Hc. destruct (decide (i ∈ q)); [done|]. by destruct Hc, (or_outside _ _ _ Ho i c Hi). Qed.

Lemma ticket_position v k j :
  (v + Z.of_nat k) mod half = (v + Z.of_nat j) mod half → Z.of_nat k < half → Z.of_nat j < half → k = j.
Proof.
  intros E Hk Hj. apply (f_equal (λ x, (x - v) mod half)) in E. cbv beta in E.
  rewrite !Zminus_mod_idemp_l in E. replace (v + Z.of_nat k - v) with (Z.of_nat k) in E by lia.
  replace (v + Z.of_nat j - v) with (Z.of_nat j) in E by lia. rewrite !Z.mod_small in E by lia. lia.
Qed.

Lemma ordered_length a v q : ordered a v q → (length q <= size (who a))%nat.
Proof.
  intros Ho. rewrite <-(size_dom (D := gset nat)), <-(size_list_to_set (C := gset nat) q) by apply Ho.
  apply subseteq_size. intros i Hi%elem_of_list_to_set.
  destruct (ordered_member _ _ _ _ Ho Hi) as (k & _ & [[E _]|E]); by apply elem_of_dom; eexists.
Qed.

Lemma ordered_take a v q i :
  ordered a v q → few a → who a !! i = Some Outside →
  ordered (Arena (take_ticket (lock a)) (<[i := Spinning (next_ticket (lock a))]> (who a))) v (q ++ [i]).
Proof.
  intros Ho Hf Hi. assert (i ∉ q) as Hn.
  { intros Hin. destruct (ordered_member _ _ _ _ Ho Hin) as (k & _ & [[E _]|E]); congruence. }
  assert (Z.of_nat (length (q ++ [i])) < half) as Hlen.
  { rewrite length_app. cbn. assert (length (i :: q) <= size (who a))%nat; [|cbn in *; unfold few in Hf; lia].
    rewrite <-(size_dom (D := gset nat)), <-(size_list_to_set (C := gset nat) (i :: q)) by (constructor; [done|apply Ho]).
    apply subseteq_size. intros j [->|Hj]%elem_of_list_to_set%elem_of_cons; [by apply elem_of_dom; eexists|].
    destruct (ordered_member _ _ _ _ Ho Hj) as (k & _ & [[E _]|E]); by apply elem_of_dom; eexists. }
  split; cbn; [| |done| |].
  - rewrite (or_lock _ _ _ Ho), take_ticket_word, length_app. cbn. f_equal. lia.
  - apply NoDup_app. split_and!; [apply Ho| |apply NoDup_singleton]. by intros j Hj ->%list_elem_of_singleton.
  - intros k j Hk. destruct (decide (j = i)) as [->|Hji].
    + right. rewrite lookup_insert_eq. destruct (lookup_app_Some q [i] k i) as [Hs _].
      destruct (Hs Hk) as [Hq|[Hge Hl]]; [by apply list_elem_of_lookup_2 in Hq|].
      destruct (k - length q)%nat eqn:E; [|done]. assert (k = length q) as -> by lia.
      rewrite (or_lock _ _ _ Ho). by rewrite (proj2 (lock_word_parts _ _)).
    + rewrite lookup_insert_ne by done. apply (or_queue _ _ _ Ho).
      apply lookup_app_Some in Hk as [Hk|[_ Hk%list_lookup_singleton_Some]]; [done|]. by destruct Hk.
  - intros j c. rewrite elem_of_app, list_elem_of_singleton. intros Hj Hnj.
    rewrite lookup_insert_ne in Hj by naive_solver. apply (or_outside _ _ _ Ho j); naive_solver.
Qed.

Lemma ordered_enter a v q i t :
  ordered a v q → who a !! i = Some (Spinning t) → serving (lock a) = t →
  ordered (Arena (lock a) (<[i := Holding]> (who a))) v q.
Proof.
  intros Ho Hi Ht. pose proof (ordered_live _ _ _ _ _ Ho Hi ltac:(done)) as Hin.
  destruct (ordered_member _ _ _ _ Ho Hin) as (k & Hk & [[E _]|E]); [congruence|].
  rewrite Hi in E. injection E as E. rewrite (or_lock _ _ _ Ho), (proj1 (lock_word_parts _ _)) in Ht.
  assert (k = 0%nat) as ->.
  { apply (ticket_position v); [by rewrite Z.add_0_r, <-E| |done]. pose proof (or_few _ _ _ Ho).
    apply lookup_lt_Some in Hk. lia. }
  split; cbn; try apply Ho.
  - intros k j Hj. destruct (decide (j = i)) as [->|Hji].
    + left. rewrite lookup_insert_eq. split; [done|]. by eapply NoDup_lookup; [apply Ho|..].
    + rewrite lookup_insert_ne by done. by apply (or_queue _ _ _ Ho).
  - intros j c Hj Hnj. rewrite lookup_insert_ne in Hj by (intros ->; done). by apply (or_outside _ _ _ Ho j).
Qed.

Lemma ordered_leave a v q i :
  ordered a v q → who a !! i = Some Holding →
  ∃ q', q = i :: q' ∧ ordered (Arena (serve_next (lock a)) (<[i := Outside]> (who a))) (v + 1) q'.
Proof.
  intros Ho Hi. pose proof (ordered_live _ _ _ _ _ Ho Hi ltac:(done)) as Hin.
  destruct (ordered_member _ _ _ _ Ho Hin) as (k & Hk & [[_ ->]|E]); [|congruence].
  destruct q as [|j q']; [done|]. injection Hk as ->. exists q'. split; [done|].
  pose proof (or_nodup _ _ _ Ho) as [Hni Hnd]%NoDup_cons. pose proof (or_few _ _ _ Ho) as Hf. cbn in Hf.
  split; cbn; [|done|lia| |].
  - rewrite (or_lock _ _ _ Ho), serve_next_word. cbn. f_equal. lia.
  - intros k j Hj. rewrite lookup_insert_ne by (intros ->; by apply list_elem_of_lookup_2 in Hj).
    destruct (or_queue _ _ _ Ho (S k) j Hj) as [[_ ?]|E]; [done|]. right. rewrite E. do 3 f_equal. lia.
  - intros j c Hj Hnj. destruct (decide (j = i)) as [->|Hji]; [rewrite lookup_insert_eq in Hj; congruence|].
    rewrite lookup_insert_ne in Hj by done. apply (or_outside _ _ _ Ho j); [done|]. set_solver.
Qed.

Lemma ordered_step a a' v q :
  ordered a v q → few a → arena_step a a' → ∃ v' q', ordered a' v' q'.
Proof.
  intros Ho Hf Hs. destruct Hs as [i a Hi|i t a Hi Ht|i t a Hi Ht|i a Hi].
  - exists v, (q ++ [i]). by apply ordered_take.
  - by exists v, q.
  - exists v, q. by eapply ordered_enter.
  - destruct (ordered_leave _ _ _ _ Ho Hi) as (q' & _ & Ho'). by exists (v + 1), q'.
Qed.

(** Nobody has the lock and nobody waits for it. *)
Definition quiet_arena (n : Z) (a : arena) : Prop :=
  lock a = lock_word n n ∧ ∀ i c, who a !! i = Some c → c = Outside.

Lemma ordered_reachable n a0 a :
  quiet_arena n a0 → few a0 → arena_reachable a0 a → few a ∧ ∃ v q, ordered a v q.
Proof.
  intros [Hl Ho] Hf. induction 1 as [|a a' _ (Hfa & v & q & IH) Hs].
  - split; [done|]. exists n, []. split; cbn; [by rewrite Z.add_0_r|constructor|done|done|]. intros i c Hi _. by eapply Ho.
  - split; [unfold few; by rewrite (step_size _ _ Hs)|]. by eapply ordered_step.
Qed.

(** C8: At most one contender holds the ticket lock, the lock serves in the order
    the tickets were taken, and whenever somebody waits either the first in that
    order holds the lock or it may enter at once. *)
Theorem ticket_lock_excludes n a0 a :
  quiet_arena n a0 → few a0 → arena_reachable a0 a →
  (∀ i j, who a !! i = Some Holding → who a !! j = Some Holding → i = j) ∧
  ∃ served queue, NoDup queue ∧ serving (lock a) = served mod half ∧
    (∀ i c, who a !! i = Some c → (i ∈ queue ↔ c ≠ Outside)) ∧
    (∀ k i t, queue !! k = Some i → who a !! i = Some (Spinning t) → t = (served + Z.of_nat k) mod half) ∧
    (∀ i, head queue = Some i →
       who a !! i = Some Holding ∨
       arena_step a (Arena (lock a) (<[i := Holding]> (who a)))).
Proof.
  intros Hq Hf Hr. destruct (ordered_reachable n a0 a Hq Hf Hr) as (_ & v & q & Ho).
  assert (∀ i, who a !! i = Some Holding → q !! 0%nat = Some i) as Hh.
  { intros i Hi. pose proof (ordered_live _ _ _ _ _ Ho Hi ltac:(done)) as Hin.
    destruct (ordered_member _ _ _ _ Ho Hin) as (k & Hk & [[_ ->]|E]); [done|congruence]. }
  assert (serving (lock a) = v mod half) as Hsv by (by rewrite (or_lock _ _ _ Ho), (proj1 (lock_word_parts _ _))).
  split; [intros i j Hi%Hh Hj%Hh; congruence|]. exists v, q. split_and!; [apply Ho|done| | |].
  - intros i c Hi. split; [|by eapply ordered_live].
    intros Hin ->. destruct (ordered_member _ _ _ _ Ho Hin) as (k & _ & [[E _]|E]); congruence.
  - intros k i t Hk Hi. destruct (or_queue _ _ _ Ho k i Hk) as [[E _]|E]; congruence.
  - intros i Hi. destruct q as [|j q]; [done|]. injection Hi as ->.
    destruct (or_queue _ _ _ Ho 0 i eq_refl) as [[E _]|E]; [by left|right].
    eapply step_enter; [exact E|]. by rewrite Z.add_0_r.
Qed.

Definition two_contenders : arena := Arena (lock_word 65535 65535) (list_to_map [(0%nat, Outside); (1%nat, Outside)]).

(** Both take a ticket, the second one past the end of the half word, and the
    first enters. *)
Definition first_taken : arena :=
  Arena (take_ticket (lock two_contenders)) (<[0%nat := Spinning (next_ticket (lock two_contenders))]> (who two_contenders)).
Definition both_taken : arena :=
  Arena (take_ticket (lock first_taken)) (<[1%nat := Spinning (next_ticket (lock first_taken))]> (who first_taken)).
Definition one_holds : arena := Arena (lock both_taken) (<[0%nat := Holding]> (who both_taken)).

Lemma one_holds_reachable : arena_reachable two_contenders one_holds.
Proof.
  eapply arena_next; [eapply arena_next; [eapply arena_next; [apply arena_start|]|]|].
  - by apply (step_take 0 two_contenders).
  - by apply (step_take 1 first_taken).
  - by apply (step_enter 0 65535 both_taken).
Qed.

Lemma ticket_lock_excludes_witness :
  (who one_holds !! 0%nat = Some Holding ∧ who one_holds !! 1%nat = Some (Spinning 0)) ∧
  ∃ served queue, NoDup queue ∧ serving (lock one_holds) = served mod half ∧ 0%nat ∈ queue ∧ 1%nat ∈ queue.
Proof.
  split; [done|].
  destruct (ticket_lock_excludes 65535 two_contenders one_holds) as (_ & served & queue & Hnd & Hs & Hin & _);
    [|reflexivity|exact one_holds_reachable|].
  - split; [reflexivity|]. intros i c Hi. cbn in Hi. rewrite !lookup_insert, lookup_empty in Hi. repeat case_decide; congruence.
  - exists served, queue. split; [done|]. split; [done|].
    split; [by apply (Hin 0%nat Holding)|by apply (Hin 1%nat (Spinning 0))].
Defined.
