(* ===== verification/Scheduler.v ===== *)
(** * The scheduler: its state, queues and timers

    [pico-scheduler/include/pico/toolkit/scheduler.h] and the static functions
    of [pico-scheduler/scheduler.c].  The intrusive rings are lists here:
    [s_tasks], [s_timers] and [s_ready] are the rings headed in
    [struct scheduler], [f_waiters] the one headed in a futex, and
    [t_owned_futexes] the one headed in a task; [LinkedList] shows that the
    pointer code implements those lists.  Linking a node that is still linked
    elsewhere would tear two rings apart, so it is the fault [RingCorrupted]. *)
From S2P Require Import Prelude.

(** ** Constants *)
Definition SCHEDULER_NUM_TASK_PRIORITIES : Z := 64.
Definition SCHEDULER_MIN_TASK_PRIORITY : Z := SCHEDULER_NUM_TASK_PRIORITIES - 1.
Definition SCHEDULER_MARKER : Z := 0x13700731.
Definition SCHEDULER_TASK_MARKER : Z := 0x137aa731.
Definition SCHEDULER_FUTEX_MARKER : Z := 0x137bb731.
Definition SCHEDULER_STACK_MARKER : Z := 0x137cc731.
Definition SCHEDULER_WAIT_FOREVER : Z := 0xffffffff.
Definition SCHEDULER_IGNORE_VIABLE : Z := 0x01.
Definition SCHEDULER_TASK_STACK_CHECK : Z := 0x02.
Definition SCHEDULER_NO_TLS_INIT : Z := 0x04.
Definition SCHEDULER_NO_FRAME_INIT : Z := 0x08.
Definition SCHEDULER_PRIMORDIAL_TASK : Z := 0x10.
Definition SCHEDULER_CORE_AFFINITY : Z := 0x20.
Definition SCHEDULER_CREATE_SUSPENDED : Z := 0x40.
Definition SCHEDULER_FUTEX_CONTENTION_TRACKING : Z := 0x01.
Definition SCHEDULER_FUTEX_PI : Z := 0x02.
Definition SCHEDULER_FUTEX_OWNER_TRACKING : Z := 0x04.
Definition SCHEDULER_MAX_DEFERED_WAKE : nat := 8.
Definition SCHEDULER_TIME_SLICE : Z := INT32_MAX.

(** The error numbers of the C library. *)
Definition ESRCH : Z := 3.
Definition EFAULT : Z := 14.
Definition EINVAL : Z := 22.
Definition ENOSPC : Z := 28.
Definition ETIMEDOUT : Z := 116.
Definition ECANCELED : Z := 140.

(** ** Data *)
Inductive task_state := TASK_TERMINATED | TASK_BLOCKED | TASK_SUSPENDED | TASK_READY | TASK_RUNNING.
#[export] Instance task_state_eq_dec : EqDecision task_state.
Proof. solve_decision. Defined.

Definition task_state_val (st : task_state) : Z :=
  match st with
  | TASK_TERMINATED => 1 | TASK_BLOCKED => 2 | TASK_SUSPENDED => 4
  | TASK_READY => 5 | TASK_RUNNING => 6
  end.

(** Which [struct sched_queue] a task is on: the ready queue of the scheduler,
    or the waiters of a futex. *)
Inductive queue_id := ready_queue | waiters (futex : Z).
#[export] Instance queue_id_eq_dec : EqDecision queue_id.
Proof. solve_decision. Defined.

(** The registers a handler reads or writes through a saved frame. *)
Record frame := Frame { r0 : Z; r1 : Z; r2 : Z; exec_return : Z; control : Z; lr : Z; pc : Z; psr : Z }.
#[export] Instance eta_frame : Eta frame :=
  λ f, Frame (r0 f) (r1 f) (r2 f) (exec_return f) (control f) (lr f) (pc f) (psr f).

Record task := Task {
  t_psp : Z;
  t_tls : Z;
  t_stack_marker : Z;
  t_state : task_state;
  t_core : Z;
  t_affinity : Z;
  t_base_priority : Z;
  t_current_priority : Z;
  t_timer_expires : Z;
  t_owned_futexes : list Z;
  t_current_queue : option queue_id;
  t_context : Z;
  t_exit_handler : Z;
  t_flags : Z;
  t_marker : Z
}.
#[export] Instance eta_task : Eta task :=
  λ t, Task (t_psp t) (t_tls t) (t_stack_marker t) (t_state t) (t_core t) (t_affinity t)
    (t_base_priority t) (t_current_priority t) (t_timer_expires t) (t_owned_futexes t)
    (t_current_queue t) (t_context t) (t_exit_handler t) (t_flags t) (t_marker t).

Record futex := Futex { f_value : Z; f_waiters : list Z; f_flags : Z; f_marker : Z }.
#[export] Instance eta_futex : Eta futex :=
  λ f, Futex (f_value f) (f_waiters f) (f_flags f) (f_marker f).

(** The [core_local] variables, and the core registers the code touches: the
    PendSV pending bit, the active exception number and the interrupt mask. *)
Record cpu := Cpu {
  scheduler_initial_frame : Z;
  current_task : Z;
  slice_expires : Z;
  ticks : Z;
  deferred_wake : list Z;
  taken_wake_counter : Z;
  given_wake_counter : Z;
  tls_pointer : Z;
  pendsv : bool;
  ipsr : Z;
  cpu_primask : Z
}.
#[export] Instance eta_cpu : Eta cpu :=
  λ c, Cpu (scheduler_initial_frame c) (current_task c) (slice_expires c) (ticks c)
    (deferred_wake c) (taken_wake_counter c) (given_wake_counter c) (tls_pointer c)
    (pendsv c) (ipsr c) (cpu_primask c).

(** The core-local section as the loader leaves it. *)
Definition cpu_reset : cpu :=
  Cpu 0 0 INT32_MAX 0 (replicate SCHEDULER_MAX_DEFERED_WAKE 0) 0 0 0 false 0 0.

(** The memory the scheduler works on: [struct scheduler] itself, the tasks,
    futexes and saved frames by address, the words futexes and stack markers
    point at, and the core-local sections. *)
Record sched := Sched {
  s_present : bool;           (* the [scheduler] singleton is set *)
  s_tls_size : Z;
  s_slice_duration : Z;
  s_ready : list Z;
  s_tasks : list Z;
  s_timers : list Z;
  s_timer_expires : Z;
  s_running : Z;
  s_locked : Z;
  s_critical : Z;
  s_critical_counter : Z;
  s_marker : Z;
  s_spin : bool;              (* the scheduler spin lock is held *)
  s_errno : Z;
  task_at : gmap Z task;
  futex_at : gmap Z futex;
  frame_at : gmap Z frame;
  word_at : gmap Z Z;
  cpu_at : gmap Z cpu
}.
#[export] Instance eta_sched : Eta sched :=
  λ s, Sched (s_present s) (s_tls_size s) (s_slice_duration s) (s_ready s) (s_tasks s)
    (s_timers s) (s_timer_expires s) (s_running s) (s_locked s) (s_critical s)
    (s_critical_counter s) (s_marker s) (s_spin s) (s_errno s) (task_at s) (futex_at s)
    (frame_at s) (word_at s) (cpu_at s).

Abbreviation SM := (M sched).

(** ** Memory access *)
Definition get_task (t : Z) : SM task := get_opt (λ s, task_at s !! t) BadPointer.
Definition get_futex (f : Z) : SM futex := get_opt (λ s, futex_at s !! f) BadPointer.
Definition get_frame (a : Z) : SM frame := get_opt (λ s, frame_at s !! a) BadPointer.
Definition get_word (a : Z) : SM Z := get_opt (λ s, word_at s !! a) BadPointer.
Definition upd_task (t : Z) (g : task → task) : SM unit :=
  tk <- get_task t ;; upd (λ s, s <| task_at := <[t := g tk]> (task_at s) |>).
Definition upd_futex (f : Z) (g : futex → futex) : SM unit :=
  fx <- get_futex f ;; upd (λ s, s <| futex_at := <[f := g fx]> (futex_at s) |>).
Definition upd_frame (a : Z) (g : frame → frame) : SM unit :=
  fr <- get_frame a ;; upd (λ s, s <| frame_at := <[a := g fr]> (frame_at s) |>).
Definition set_word (a v : Z) : SM unit :=
  _w <- get_word a ;; upd (λ s, s <| word_at := <[a := v]> (word_at s) |>).
Definition cls (s : sched) (core : Z) : cpu := default cpu_reset (cpu_at s !! core).
Definition upd_cls (core : Z) (g : cpu → cpu) : SM unit :=
  upd (λ s, s <| cpu_at := <[core := g (cls s core)]> (cpu_at s) |>).

(** The spin lock of [multicore-glue.c]: taking a held lock spins for ever. *)
Definition scheduler_spin_lock : SM unit :=
  held <- gets s_spin ;;
  if (held : bool) then fail OutOfFuel else upd (λ s, s <| s_spin := true |>).
Definition scheduler_spin_unlock : SM unit := upd (λ s, s <| s_spin := false |>).

(** [scheduler_request_switch]: set PendSV pending on [core]; the default
    definition drops requests for all other cores ([UINT32_MAX]). *)
Definition scheduler_request_switch (core : Z) : SM unit :=
  when (negb (core =? UINT32_MAX)) (upd_cls core (λ c, c <| pendsv := true |>)).

(** [scheduler_switch_hook] of [scheduler-glue.c]: move the TLS pointer. *)
Definition scheduler_switch_hook (core t : Z) : SM unit :=
  if t =? 0 then upd_cls core (λ c, c <| tls_pointer := 0 |>)
  else tk <- get_task t ;; upd_cls core (λ c, c <| tls_pointer := t_tls tk |>).

Definition marked_task (t : Z) : SM unit :=
  tk <- get_task t ;; assert (t_marker tk =? SCHEDULER_TASK_MARKER).

Definition sched_get_current (core : Z) : SM Z :=
  t <- gets (λ s, current_task (cls s core)) ;;
  when (negb (t =? 0)) (marked_task t) ;;;
  ret t.

Definition sched_set_current (core t : Z) : SM Z :=
  when (negb (t =? 0)) (marked_task t) ;;;
  prev <- gets (λ s, current_task (cls s core)) ;;
  upd_cls core (λ c, c <| current_task := t |>) ;;;
  scheduler_switch_hook core t ;;;
  ret prev.

(** ** Queues

    [queue s q] is the ring of a [struct sched_queue]. *)
Definition queue (s : sched) (q : queue_id) : option (list Z) :=
  match q with
  | ready_queue => Some (s_ready s)
  | waiters f => f_waiters <$> futex_at s !! f
  end.
Definition get_queue (q : queue_id) : SM (list Z) := get_opt (λ s, queue s q) BadPointer.
Definition set_queue (q : queue_id) (l : list Z) : SM unit :=
  match q with
  | ready_queue => upd (λ s, s <| s_ready := l |>)
  | waiters f => upd_futex f (λ fx, fx <| f_waiters := l |>)
  end.

(** [sched_list_remove(&task->queue_node)]: out of whatever ring it is in. *)
Definition unlink_queue_node (t : Z) (s : sched) : sched :=
  s <| s_ready ::= without t |>
    <| futex_at ::= fmap (λ fx, fx <| f_waiters ::= without t |>) |>.

(** The node is in some queue ring. *)
Definition queue_node_linked (t : Z) (s : sched) : bool :=
  bool_decide (t ∈ s_ready s) ||
  bool_decide (map_Exists (λ _ fx, t ∈ f_waiters fx) (futex_at s)).

Definition sched_queue_empty (q : queue_id) : SM bool :=
  l <- get_queue q ;; ret (bool_decide (l = [])).

Definition sched_queue_remove (t : Z) : SM unit :=
  _tk <- get_task t ;;
  upd (unlink_queue_node t) ;;;
  upd_task t (λ tk, tk <| t_current_queue := None |>).

(** The priority of the task at an address, as the insertion loop reads it. *)
Definition priority_of (s : sched) (t : Z) : Z :=
  from_option t_current_priority 0 (task_at s !! t).

Definition sched_queue_push (q : queue_id) (t : Z) : SM unit :=
  tk <- get_task t ;;
  assert (bool_decide (t_current_queue tk = None)) ;;;
  linked <- gets (queue_node_linked t) ;;
  when linked (fail RingCorrupted) ;;;
  s <- get ;;
  l <- get_queue q ;;
  set_queue q (place (λ e, t_current_priority tk <? priority_of s e) t l) ;;;
  upd_task t (λ tk, tk <| t_current_queue := Some q |>).

(** May the task run on [core]? *)
Definition runs_on (s : sched) (core t : Z) : bool :=
  match task_at s !! t with
  | Some tk => negb (has (t_flags tk) SCHEDULER_CORE_AFFINITY) || (t_affinity tk =? core)
  | None => false
  end.

(** Returns 0 where the C code returns a null pointer. *)
Definition sched_queue_pop (q : queue_id) (core : Z) : SM Z :=
  l <- get_queue q ;;
  if core =? UINT32_MAX then
    match l with
    | [] => ret 0
    | t :: _ =>
        upd (unlink_queue_node t) ;;;
        upd_task t (λ tk, tk <| t_current_queue := None |>) ;;;
        ret t
    end
  else
    s <- get ;;
    match find (runs_on s core) l with
    | Some t => sched_queue_remove t ;;; ret t
    | None => ret 0
    end.

Definition sched_queue_highest_priority (q : queue_id) : SM Z :=
  l <- get_queue q ;;
  match l with
  | [] => ret SCHEDULER_NUM_TASK_PRIORITIES
  | t :: _ => tk <- get_task t ;; ret (t_current_priority tk)
  end.

Definition sched_queue_reprioritize (t new_priority : Z) : SM unit :=
  upd_task t (λ tk, tk <| t_current_priority := new_priority |>) ;;;
  tk <- get_task t ;;
  match t_current_queue tk with
  | Some q => sched_queue_remove t ;;; sched_queue_push q t
  | None => ret tt
  end.

Definition scheduler_check_stack (t : Z) : SM bool :=
  tk <- get_task t ;;
  if negb (has (t_flags tk) SCHEDULER_TASK_STACK_CHECK) then ret true
  else
    m0 <- get_word (t_stack_marker tk) ;;
    if negb (m0 =? SCHEDULER_STACK_MARKER) then ret false
    else m1 <- get_word (t_stack_marker tk + 4) ;; ret (m1 =? SCHEDULER_STACK_MARKER).

(** ** Timers *)
Definition scheduler_get_ticks (s : sched) : Z := ticks (cls s 0).

Definition expires_of (s : sched) (t : Z) : Z :=
  from_option t_timer_expires 0 (task_at s !! t).

(** The [timer_expires] of the first armed task, [UINT_MAX] when there is none. *)
Definition closest_expiry (s : sched) : Z :=
  match s_timers s with [] => UINT32_MAX | t :: _ => expires_of s t end.

Definition scheduler_timer_push (t delay : Z) : SM unit :=
  _tk <- get_task t ;;
  upd (λ s, s <| s_timers ::= without t |>) ;;;
  now <- gets scheduler_get_ticks ;;
  upd_task t (λ tk, tk <| t_timer_expires := u32 (now + delay) |>) ;;;
  upd (λ s, s <| s_timers ::= place (λ e, expires_of s t <? expires_of s e) t |>) ;;;
  upd (λ s, s <| s_timer_expires := closest_expiry s |>).

Definition scheduler_timer_remove (t : Z) : SM unit :=
  _tk <- get_task t ;;
  upd (λ s, s <| s_timers ::= without t |>) ;;;
  upd (λ s, s <| s_timer_expires := closest_expiry s |>).

Definition scheduler_timer_pop : SM Z :=
  l <- gets s_timers ;;
  match l with
  | [] => ret 0
  | t :: _ =>
      tk <- get_task t ;;
      now <- gets scheduler_get_ticks ;;
      if t_timer_expires tk <=? now then scheduler_timer_remove t ;;; ret t
      else ret 0
  end.

Definition scheduler_is_running (s : sched) : bool := s_present s && (0 <? s_running s).

Definition scheduler_task_alive (t : Z) : SM Z :=
  l <- gets s_tasks ;;
  ret (if negb (t =? 0) && bool_decide (t ∈ l) then 0 else - ESRCH).

(** The walk over the tasks stops at the first one that counts. *)
Definition counts_viable (tk : task) : bool :=
  (task_state_val TASK_BLOCKED <=? task_state_val (t_state tk)) && negb (has (t_flags tk) SCHEDULER_IGNORE_VIABLE).

Fixpoint viable_among (l : list Z) : SM bool :=
  match l with
  | [] => ret false
  | t :: l' =>
      marked_task t ;;;
      tk <- get_task t ;;
      if counts_viable tk then ret true else viable_among l'
  end.

Definition scheduler_is_viable : SM bool :=
  tasks <- gets s_tasks ;; viable_among tasks.
