(* ===== verification/SchedulerSvc.v ===== *)
(** * The scheduler: service handlers, the context switch and the tick

    The service calls of [pico-scheduler/scheduler.c] (run by the SVC
    exception), [scheduler_switch] (run by PendSV) and [scheduler_tick] (run by
    SysTick), each the whole handler on the state of [Scheduler].  [core] is
    the core that executes the handler. *)
From S2P Require Import Prelude Scheduler.

(** What lies outside the scheduler: the number of cores, the function a task's
    [exit_handler] points at, the function [scheduler_tick_hook] and, for the
    idle loop, everything interrupts and other cores do while this core waits
    in [__WFI()] with the lock released. *)
Class Environment := {
  num_cores : Z;
  call_exit_handler : Z → Z → SM unit;
  tick_hook : Z → SM unit;
  wfi : Z → SM unit
}.

(** How a round of the [while (true)] of [scheduler_switch] ends: with the task
    to run, with another round, or with the frame of the caller of
    [scheduler_run] when nothing is viable. *)
Inductive round := RunTask (t : Z) | Again | Shutdown (frame : Z).

Section handlers.
Context `{Environment} (core : Z).

Definition alive (t frame : Z) : SM bool :=
  st <- scheduler_task_alive t ;;
  upd_frame frame (λ fr, fr <| r0 := u32 st |>) ;;;
  ret (u32 st =? 0).

Definition scheduler_terminated_hook (t : Z) : SM unit :=
  marked_task t ;;;
  tk <- get_task t ;;
  when (negb (t_exit_handler tk =? 0)) (call_exit_handler (t_exit_handler tk) t).

Definition scheduler_tick : SM unit :=
  running <- gets scheduler_is_running ;;
  if negb running then ret tt
  else
    upd_cls core (λ c, c <| ticks ::= λ n, u32 (n + 1) |>) ;;;
    timer_expires <- gets s_timer_expires ;;
    now <- gets scheduler_get_ticks ;;
    when (timer_expires <=? now) (scheduler_request_switch core) ;;;
    slice <- gets (λ s, slice_expires (cls s core)) ;;
    when (negb (slice =? INT32_MAX))
      (upd_cls core (λ c, c <| slice_expires := s32 (slice - 1) |>) ;;;
       when (s32 (slice - 1) =? 0) (scheduler_request_switch core)) ;;;
    tick_hook now.

Definition scheduler_create_svc (frame : Z) : SM unit :=
  fr <- get_frame frame ;;
  present <- gets s_present ;;
  assert (negb (r0 fr =? 0) && present) ;;;
  let t := r0 fr in
  scheduler_spin_lock ;;;
  marked_task t ;;;
  listed <- gets s_tasks ;;
  when (bool_decide (t ∈ listed)) (fail RingCorrupted) ;;;
  upd (λ s, s <| s_tasks ::= λ l, l ++ [t] |>) ;;;
  tk <- get_task t ;;
  (if negb (has (t_flags tk) SCHEDULER_CREATE_SUSPENDED) then
     upd_task t (λ tk, tk <| t_state := TASK_READY |>) ;;;
     sched_queue_push ready_queue t ;;;
     running <- gets scheduler_is_running ;;
     if (running : bool) then
       current <- sched_get_current core ;;
       cur <- get_task current ;;
       when (t_current_priority tk <? t_current_priority cur) (scheduler_request_switch core)
     else ret tt
   else upd_task t (λ tk, tk <| t_state := TASK_SUSPENDED |>)) ;;;
  scheduler_spin_unlock.

Definition scheduler_yield_svc (frame : Z) : SM unit := scheduler_request_switch core.

Definition scheduler_suspend_svc (frame : Z) : SM unit :=
  current <- sched_get_current core ;;
  fr <- get_frame frame ;;
  let t := r0 fr in
  let ticks := r1 fr in
  scheduler_spin_lock ;;;
  ok <- alive t frame ;;
  if negb ok then scheduler_spin_unlock
  else
    (if negb (t =? current) then
       sched_queue_remove t ;;;
       scheduler_timer_remove t ;;;
       upd_task t (λ tk, tk <| t_state := TASK_SUSPENDED |> <| t_core := UINT32_MAX |>) ;;;
       upd_task current (λ tk, tk <| t_state := TASK_READY |>) ;;;
       sched_queue_push ready_queue current
     else
       upd_task current (λ tk, tk <| t_state := TASK_SUSPENDED |> <| t_core := UINT32_MAX |>)) ;;;
    when (ticks <? SCHEDULER_WAIT_FOREVER) (scheduler_timer_push t ticks) ;;;
    upd_task current (λ tk, tk <| t_psp := frame |>) ;;;
    _prev <- sched_set_current core 0 ;;
    scheduler_request_switch core ;;;
    scheduler_spin_unlock.

Definition scheduler_resume_svc (frame : Z) : SM unit :=
  fr <- get_frame frame ;;
  let t := r0 fr in
  upd_frame frame (λ fr, fr <| r0 := 0 |>) ;;;
  scheduler_spin_lock ;;;
  ok <- alive t frame ;;
  if negb ok then scheduler_spin_unlock
  else
    marked_task t ;;;
    tk <- get_task t ;;
    (if bool_decide (t_state tk = TASK_BLOCKED ∨ t_state tk = TASK_SUSPENDED) then
       scheduler_timer_remove t ;;;
       sched_queue_remove t ;;;
       when (bool_decide (t_state tk = TASK_BLOCKED))
         (upd_frame (t_psp tk) (λ fr, fr <| r0 := u32 (- ECANCELED) |>)) ;;;
       upd_task t (λ tk, tk <| t_state := TASK_READY |>) ;;;
       sched_queue_push ready_queue t
     else upd_frame frame (λ fr, fr <| r0 := u32 (- EINVAL) |>)) ;;;
    scheduler_request_switch core ;;;
    scheduler_spin_unlock.

(** [atomic_compare_exchange_strong(addr, &expected, desired)]: whether it
    exchanged, and the value [expected] holds afterwards. *)
Definition compare_exchange (addr expected desired : Z) : SM (bool * Z) :=
  w <- get_word addr ;;
  if w =? expected then set_word addr desired ;;; ret (true, expected)
  else ret (false, w).

(** [futex->owned] is linked in the ring of some task. *)
Definition owned_linked (f : Z) (s : sched) : bool :=
  bool_decide (map_Exists (λ _ tk, f ∈ t_owned_futexes tk) (task_at s)).
Definition unlink_owned (f : Z) (s : sched) : sched :=
  s <| task_at ::= fmap (λ tk, tk <| t_owned_futexes ::= without f |>) |>.
Definition add_owned (t f : Z) : SM unit :=
  linked <- gets (owned_linked f) ;;
  when linked (fail RingCorrupted) ;;;
  upd_task t (λ tk, tk <| t_owned_futexes ::= λ l, l ++ [f] |>).

Definition PI_AND_OWNER : Z := Z.lor SCHEDULER_FUTEX_PI SCHEDULER_FUTEX_OWNER_TRACKING.
Definition owner_of (value : Z) : Z := Z.land value (not32 SCHEDULER_FUTEX_CONTENTION_TRACKING).
Definition contended (flags expected : Z) : Z :=
  if has flags SCHEDULER_FUTEX_CONTENTION_TRACKING
  then Z.lor expected SCHEDULER_FUTEX_CONTENTION_TRACKING else expected.

Definition scheduler_wait_svc (frame : Z) : SM unit :=
  fr <- get_frame frame ;;
  let f := r0 fr in
  let expected := r1 fr in
  fx <- get_futex f ;;
  let value := contended (f_flags fx) expected in
  let ticks := r2 fr in
  current <- sched_get_current core ;;
  scheduler_spin_lock ;;;
  assert (negb (f =? 0) && (f_marker fx =? SCHEDULER_FUTEX_MARKER) && negb (current =? 0)) ;;;
  upd_frame frame (λ fr, fr <| r0 := 0 |>) ;;;
  cx <- compare_exchange (f_value fx) expected value ;;
  (if fst cx || (snd cx =? value) then
     when (ticks <? SCHEDULER_WAIT_FOREVER) (scheduler_timer_push current ticks) ;;;
     upd_task current (λ tk, tk <| t_state := TASK_BLOCKED |> <| t_core := UINT32_MAX |>) ;;;
     sched_queue_push (waiters f) current ;;;
     when (Z.land (f_flags fx) PI_AND_OWNER =? PI_AND_OWNER)
       (let owner := owner_of value in
        marked_task owner ;;;
        linked <- gets (owned_linked f) ;;
        when (negb linked) (add_owned owner f) ;;;
        highest <- sched_queue_highest_priority (waiters f) ;;
        otk <- get_task owner ;;
        when (highest <? t_current_priority otk) (sched_queue_reprioritize owner highest))
   else
     upd_task current (λ tk, tk <| t_state := TASK_READY |>) ;;;
     sched_queue_push ready_queue current) ;;;
  upd_task current (λ tk, tk <| t_psp := frame |>) ;;;
  _prev <- sched_set_current core 0 ;;
  scheduler_request_switch core ;;;
  scheduler_spin_unlock.

(** The loop over [owner->owned_futexes] in [scheduler_wake_futex]. *)
Fixpoint highest_owned (l : list Z) (highest : Z) : SM Z :=
  match l with
  | [] => ret highest
  | f :: l' =>
      p <- sched_queue_highest_priority (waiters f) ;;
      highest_owned l' (if p <? highest then p else highest)
  end.

(** The body of the wake loop; the result tells whether to go round again. *)
Definition wake_one (f : Z) (all : bool) (woken : Z) : SM (bool * Z) :=
  t <- sched_queue_pop (waiters f) UINT32_MAX ;;
  if t =? 0 then ret (false, woken)
  else
    marked_task t ;;;
    fx <- get_futex f ;;
    when (has (f_flags fx) SCHEDULER_FUTEX_OWNER_TRACKING) (set_word (f_value fx) t) ;;;
    empty <- sched_queue_empty (waiters f) ;;
    when (has (f_flags fx) SCHEDULER_FUTEX_PI && negb empty)
      (add_owned t f ;;;
       highest <- sched_queue_highest_priority (waiters f) ;;
       sched_queue_reprioritize t highest) ;;;
    scheduler_timer_remove t ;;;
    upd_task t (λ tk, tk <| t_state := TASK_READY |>) ;;;
    sched_queue_push ready_queue t ;;;
    ret (all && negb (has (f_flags fx) SCHEDULER_FUTEX_OWNER_TRACKING), woken + 1).

Fixpoint wake_loop (fuel : nat) (f : Z) (all : bool) (woken : Z) : SM Z :=
  match fuel with
  | O => fail OutOfFuel
  | S fuel' =>
      r <- wake_one f all woken ;;
      if fst r then wake_loop fuel' f all (snd r) else ret (snd r)
  end.

Definition scheduler_wake_futex (f : Z) (all : bool) : SM Z :=
  fx <- get_futex f ;;
  when (Z.land (f_flags fx) PI_AND_OWNER =? PI_AND_OWNER)
    (v <- get_word (f_value fx) ;;
     let owner := owner_of v in
     marked_task owner ;;;
     upd (unlink_owned f) ;;;
     otk <- get_task owner ;;
     highest <- highest_owned (t_owned_futexes otk) (t_base_priority otk) ;;
     sched_queue_reprioritize owner highest) ;;;
  woken <- wake_loop (S (length (f_waiters fx))) f all 0 ;;
  when (has (f_flags fx) SCHEDULER_FUTEX_CONTENTION_TRACKING)
    (empty <- sched_queue_empty (waiters f) ;;
     v <- get_word (f_value fx) ;;
     set_word (f_value fx)
       (if (empty : bool) then owner_of v else Z.lor v SCHEDULER_FUTEX_CONTENTION_TRACKING)) ;;;
  ret woken.

Definition scheduler_wake_svc (frame : Z) : SM unit :=
  fr <- get_frame frame ;;
  let f := r0 fr in
  let all := negb (r1 fr =? 0) in
  scheduler_spin_lock ;;;
  fx <- get_futex f ;;
  assert (negb (f =? 0) && (f_marker fx =? SCHEDULER_FUTEX_MARKER)) ;;;
  woken <- scheduler_wake_futex f all ;;
  upd_frame frame (λ fr, fr <| r0 := u32 woken |>) ;;;
  when (0 <? u32 woken) (scheduler_request_switch core) ;;;
  scheduler_spin_unlock.

Definition scheduler_terminate_svc (frame : Z) : SM unit :=
  current <- sched_get_current core ;;
  fr <- get_frame frame ;;
  let t := r0 fr in
  scheduler_spin_lock ;;;
  ok <- alive t frame ;;
  if negb ok then scheduler_spin_unlock
  else
    upd_task t (λ tk, tk <| t_state := TASK_TERMINATED |> <| t_core := UINT32_MAX |>) ;;;
    sched_queue_remove t ;;;
    scheduler_timer_remove t ;;;
    upd (λ s, s <| s_tasks ::= without t |>) ;;;
    scheduler_terminated_hook t ;;;
    when (t =? current)
      (_prev <- sched_set_current core 0 ;; scheduler_request_switch core) ;;;
    scheduler_spin_unlock.

Definition scheduler_priority_svc (frame : Z) : SM unit :=
  fr <- get_frame frame ;;
  let t := r0 fr in
  let priority := r1 fr in
  scheduler_spin_lock ;;;
  ok <- alive t frame ;;
  if negb ok then scheduler_spin_unlock
  else
    marked_task t ;;;
    upd_task t (λ tk, tk <| t_base_priority := priority |>) ;;;
    sched_queue_reprioritize t priority ;;;
    scheduler_request_switch core ;;;
    scheduler_spin_unlock.

(** ** The context switch *)

(** The loop over the deferred wake slots, from slot [i] on, [n] slots left. *)
Fixpoint drain_deferred (n : nat) (i : nat) : SM unit :=
  match n with
  | O => ret tt
  | S n' =>
      c <- gets (λ s, cls s core) ;;
      if Z.lxor (taken_wake_counter c) (given_wake_counter c) =? 0 then ret tt
      else
        let wakeup := deferred_wake c !!! i in
        upd_cls core (λ c, c <| deferred_wake ::= <[i := 0]> |>) ;;;
        when (negb (wakeup =? 0))
          (_woken <- scheduler_wake_futex (Z.land wakeup (not32 1)) (has wakeup 1) ;;
           upd_cls core (λ c, c <| taken_wake_counter ::= λ n, u32 (n + 1) |>)) ;;;
        drain_deferred n' (S i)
  end.

(** One turn of the loop over the expired timers; [false] when none is due. *)
Definition expire_one : SM bool :=
  t <- scheduler_timer_pop ;;
  if t =? 0 then ret false
  else
    marked_task t ;;;
    sched_queue_remove t ;;;
    upd_task t (λ tk, tk <| t_state := TASK_READY |>) ;;;
    tk <- get_task t ;;
    upd_frame (t_psp tk) (λ fr, fr <| r0 := u32 (- ETIMEDOUT) |>) ;;;
    sched_queue_push ready_queue t ;;;
    ret true.

Fixpoint expire_timers (fuel : nat) : SM unit :=
  match fuel with
  | O => fail OutOfFuel
  | S fuel' =>
      go <- expire_one ;;
      if go then expire_timers fuel' else ret tt
  end.

(** A task whose stack marker is damaged is evicted. *)
Definition evict (t : Z) : SM unit :=
  upd_task t (λ tk, tk <| t_state := TASK_TERMINATED |>) ;;;
  tk <- get_task t ;;
  upd_frame (t_psp tk) (λ fr, fr <| r0 := u32 (- EFAULT) |>) ;;;
  sched_queue_remove t ;;;
  upd (λ s, s <| s_timers ::= without t |>) ;;;
  upd (λ s, s <| s_tasks ::= without t |>) ;;;
  scheduler_terminated_hook t.

(** The assertion as it is meant: [cls_datum(current_task == 0)] hands the
    comparison to the macro, where it becomes part of an address. *)
Definition scheduler_idle_hook : SM unit :=
  scheduler_spin_unlock ;;;
  wfi core ;;;
  upd_cls core (λ c, c <| pendsv := false |>) ;;;
  scheduler_spin_lock ;;;
  current <- gets (λ s, current_task (cls s core)) ;;
  assert (current =? 0).

Definition next_task : SM round :=
  drain_deferred SCHEDULER_MAX_DEFERED_WAKE 0 ;;;
  timers <- gets s_timers ;;
  expire_timers (S (length timers)) ;;;
  t <- sched_queue_pop ready_queue core ;;
  good <- (if t =? 0 then ret false
           else marked_task t ;;;
                ok <- scheduler_check_stack t ;;
                (if (ok : bool) then ret tt else evict t) ;;;
                ret ok) ;;
  if (good : bool) then ret (RunTask t)
  else
    viable <- scheduler_is_viable ;;
    initial <- gets (λ s, scheduler_initial_frame (cls s core)) ;;
    if negb viable && negb (initial =? 0) then
      upd_frame initial (λ fr, fr <| r0 := 0 |>) ;;;
      scheduler_spin_unlock ;;;
      ret (Shutdown initial)
    else scheduler_idle_hook ;;; ret Again.

Fixpoint select_task (fuel : nat) : SM round :=
  match fuel with
  | O => fail OutOfFuel
  | S fuel' =>
      r <- next_task ;;
      match r with Again => select_task fuel' | _ => ret r end
  end.

(** Kick the cores that run a task of lower priority than the first ready
    task that may run there. *)
Definition kick_core (other : Z) : SM unit :=
  core_task <- gets (λ s, current_task (cls s other)) ;;
  when (negb (other =? core) && negb (core_task =? 0))
    (s <- get ;;
     match find (runs_on s other) (s_ready s) with
     | Some cursor =>
         ctk <- get_task core_task ;;
         when (priority_of s cursor <? t_current_priority ctk) (scheduler_request_switch other)
     | None => ret tt
     end).

Fixpoint kick_cores (cores : list Z) : SM unit :=
  match cores with [] => ret tt | c :: cs => kick_core c ;;; kick_cores cs end.

Definition all_cores : list Z := Z.of_nat <$> seq 0 (Z.to_nat num_cores).

Definition dispatch (t last_task : Z) : SM Z :=
  tk <- get_task t ;;
  assert (bool_decide (t_state tk = TASK_READY)) ;;;
  upd_task t (λ tk, tk <| t_state := TASK_RUNNING |> <| t_core := core |>) ;;;
  slice <- gets (λ s, slice_expires (cls s core)) ;;
  when (negb (t =? last_task) || (slice <? 0))
    (duration <- gets s_slice_duration ;;
     upd_cls core (λ c, c <| slice_expires := s32 duration |>)) ;;;
  prev <- sched_set_current core t ;;
  when (negb (prev =? 0)) (fail Aborted) ;;;
  empty <- sched_queue_empty ready_queue ;;
  when (negb empty) (kick_cores all_cores) ;;;
  scheduler_spin_unlock ;;;
  ret (t_psp tk).

Definition scheduler_switch (fuel : nat) (frame : Z) : SM Z :=
  present <- gets s_present ;;
  assert present ;;;
  scheduler_spin_lock ;;;
  last_task <- sched_set_current core 0 ;;
  locked <- gets s_locked ;;
  if negb (last_task =? 0) && (locked <? 0) then
    tk <- get_task last_task ;;
    assert ((t_marker tk =? SCHEDULER_TASK_MARKER) && bool_decide (t_state tk = TASK_RUNNING)) ;;;
    _prev <- sched_set_current core last_task ;;
    scheduler_spin_unlock ;;;
    ret frame
  else
    when (negb (last_task =? 0))
      (tk <- get_task last_task ;;
       assert ((t_marker tk =? SCHEDULER_TASK_MARKER) && bool_decide (t_state tk = TASK_RUNNING)) ;;;
       upd_task last_task (λ tk, tk <| t_state := TASK_READY |> <| t_core := UINT32_MAX |>
                                    <| t_psp := frame |>) ;;;
       sched_queue_push ready_queue last_task) ;;;
    r <- select_task fuel ;;
    match r with
    | RunTask t => dispatch t last_task
    | Shutdown initial => ret initial
    | Again => fail OutOfFuel
    end.
End handlers.
