(* ===== verification/SchedulerApi.v ===== *)
(** * The scheduler: the calls applications make

    The functions [scheduler.h] declares.  A service call traps into a handler
    of [SchedulerSvc] with an exception frame that holds the arguments; its
    result is what the frame's [r0] holds when the caller runs again. *)
From S2P Require Import Prelude Scheduler SchedulerSvc.

(** What lies outside: where the trap stores the caller's registers, what
    happens between the end of the handler and the return to the caller (the
    pending context switch and everything that runs meanwhile), the TLS
    initialiser, and the startup and shutdown hooks. *)
Class Trap := {
  trap_frame : Z → sched → Z;
  return_to_caller : Z → Z → SM unit;
  scheduler_tls_init_hook : Z → SM unit;
  scheduler_startup_hook : SM unit;
  scheduler_shutdown_hook : SM unit;
  scheduler_start_svc : Z → Z → SM unit
}.

Definition SIZEOF_TASK : Z := 88.
Definition SIZEOF_SCHEDULER_FRAME : Z := 72.
Definition CONTROL_SPSEL : Z := 2.
Definition XPSR_T : Z := 0x01000000.
Definition EXEC_RETURN : Z := 0xfffffffd.

Record task_descriptor := Descriptor {
  entry_point : Z; exit_handler : Z; context : Z; flags : Z; priority : Z; affinity : Z
}.

Definition set_errno (e : Z) : SM unit := upd (λ s, s <| s_errno := e |>).

Section api.
Context `{Environment} `{Trap} (core : Z).

(** [svc_call0] to [svc_call3]. *)
Definition svc_call (handler : Z → SM unit) (a b c : Z) : SM Z :=
  frame <- gets (trap_frame core) ;;
  upd (λ s, s <| frame_at ::= <[frame := Frame a b c 0 0 0 0 0]> |>) ;;;
  handler frame ;;;
  return_to_caller core frame ;;;
  fr <- get_frame frame ;;
  ret (s32 (r0 fr)).

Definition scheduler_init (new_scheduler tls_size : Z) : SM Z :=
  if new_scheduler =? 0 then set_errno EINVAL ;;; ret (- EINVAL)
  else
    upd (λ s, s <| s_marker := SCHEDULER_MARKER |> <| s_slice_duration := SCHEDULER_TIME_SLICE |>
                <| s_tls_size := tls_size |> <| s_locked := 0 |> <| s_timer_expires := UINT32_MAX |>
                <| s_critical := UINT32_MAX |> <| s_critical_counter := 0 |> <| s_running := 0 |>
                <| s_ready := [] |> <| s_timers := [] |> <| s_tasks := [] |>) ;;;
    upd (λ s, s <| cpu_at := foldr (λ c m, <[c := (default cpu_reset (m !! c))
                <| scheduler_initial_frame := 0 |> <| current_task := 0 |>
                <| slice_expires := INT32_MAX |> <| ticks := 0 |>
                <| deferred_wake := replicate SCHEDULER_MAX_DEFERED_WAKE 0 |>]> m) (cpu_at s) all_cores |>) ;;;
    upd (λ s, s <| s_present := true |>) ;;;
    ret 0.

Definition scheduler_run : SM Z :=
  present <- gets s_present ;;
  if negb present then set_errno EINVAL ;;; ret (- EINVAL)
  else
    scheduler_startup_hook ;;;
    upd (λ s, s <| s_running ::= λ n, s32 (n + 1) |>) ;;;
    result <- svc_call (scheduler_start_svc core) 0 0 0 ;;
    if result <? 0 then set_errno (- result) ;;; ret result
    else
      upd (λ s, s <| s_running ::= λ n, s32 (n - 1) |>) ;;;
      scheduler_shutdown_hook ;;;
      ret 0.

(** ** Critical sections *)

(** [disable_interrupts] and [enable_interrupts] of cmsis.h. *)
Definition disable_interrupts : SM Z :=
  primask <- gets (λ s, cpu_primask (cls s core)) ;;
  upd_cls core (λ c, c <| cpu_primask := 1 |>) ;;;
  ret primask.

Definition enable_interrupts (primask : Z) : SM unit :=
  upd_cls core (λ c, c <| cpu_primask := primask |>).

(** The spin loop: one turn per unit of fuel. *)
Fixpoint grab_critical (fuel : nat) : SM unit :=
  match fuel with
  | O => fail OutOfFuel
  | S fuel' =>
      scheduler_spin_lock ;;;
      critical <- gets s_critical ;;
      if (critical =? UINT32_MAX) || (critical =? core) then
        upd (λ s, s <| s_critical := core |> <| s_critical_counter ::= λ n, s32 (n + 1) |>)
      else scheduler_spin_unlock ;;; grab_critical fuel'
  end.

Definition scheduler_enter_critical (fuel : nat) : SM Z :=
  running <- gets scheduler_is_running ;;
  assert running ;;;
  state <- disable_interrupts ;;
  critical <- gets s_critical ;;
  (if critical =? core then upd (λ s, s <| s_critical_counter ::= λ n, s32 (n + 1) |>)
   else grab_critical fuel) ;;;
  ret state.

Definition scheduler_exit_critical (state : Z) : SM unit :=
  running <- gets scheduler_is_running ;;
  critical <- gets s_critical ;;
  assert (running && (critical =? core)) ;;;
  upd (λ s, s <| s_critical_counter ::= λ n, s32 (n - 1) |>) ;;;
  counter <- gets s_critical_counter ;;
  if 1 <=? counter then ret tt
  else
    upd (λ s, s <| s_critical := UINT32_MAX |>) ;;;
    scheduler_spin_unlock ;;;
    enable_interrupts state.

(** ** Locking the scheduler *)
Definition asserted_running : SM unit :=
  running <- gets scheduler_is_running ;; assert running.

Definition scheduler_lock : SM Z :=
  asserted_running ;;;
  old <- gets s_locked ;;
  upd (λ s, s <| s_locked := s32 (old - 1) |>) ;;; ret old.

Definition scheduler_unlock : SM Z :=
  asserted_running ;;;
  old <- gets s_locked ;;
  upd (λ s, s <| s_locked := s32 (old + 1) |>) ;;; ret old.

Definition scheduler_lock_restore (state : Z) : SM Z :=
  asserted_running ;;;
  old <- gets s_locked ;;
  upd (λ s, s <| s_locked := state |>) ;;; ret old.

Definition scheduler_is_locked : SM bool :=
  asserted_running ;;; gets (λ s, s_locked s <? 0).

(** ** Tasks *)
Definition scheduler_yield : SM unit :=
  locked <- gets s_locked ;;
  if locked <? 0 then ret tt
  else _status <- svc_call (scheduler_yield_svc core) 0 0 0 ;; ret tt.

Definition scheduler_task : SM Z :=
  present <- gets s_present ;;
  if (present : bool) then sched_get_current core else ret 0.

(** [if (!task) task = scheduler_task();] *)
Definition self_or (t : Z) : SM Z := if t =? 0 then scheduler_task else ret t.

Definition scheduler_sleep (n : Z) : SM Z :=
  if n =? 0 then scheduler_yield ;;; ret 0
  else
    t <- scheduler_task ;;
    status <- svc_call (scheduler_suspend_svc core) t n 0 ;;
    if (status <? 0) && negb (status =? - ETIMEDOUT) then set_errno (- status) ;;; ret status
    else ret 0.

Definition scheduler_suspend (t : Z) : SM Z :=
  t <- self_or t ;;
  self <- (if 1 <? num_cores then scheduler_task else ret t) ;;
  if (1 <? num_cores) && negb (t =? self) then set_errno EINVAL ;;; ret (- EINVAL)
  else
    status <- svc_call (scheduler_suspend_svc core) t SCHEDULER_WAIT_FOREVER 0 ;;
    if status <? 0 then set_errno (- status) ;;; ret status else ret 0.

Definition scheduler_resume (t : Z) : SM Z :=
  assert (negb (t =? 0)) ;;;
  status <- svc_call (scheduler_resume_svc core) t 0 0 ;;
  when (status <? 0) (set_errno (- status)) ;;;
  ret status.

Definition scheduler_terminate (t : Z) : SM Z :=
  t <- self_or t ;;
  self <- (if 1 <? num_cores then scheduler_task else ret t) ;;
  if (1 <? num_cores) && negb (t =? self) then set_errno EINVAL ;;; ret (- EINVAL)
  else
    status <- svc_call (scheduler_terminate_svc core) t 0 0 ;;
    if status <? 0 then set_errno (- status) ;;; ret status else ret status.

Definition marked_futex (f : Z) : SM futex :=
  fx <- get_futex f ;;
  assert (negb (f =? 0) && (f_marker fx =? SCHEDULER_FUTEX_MARKER)) ;;;
  ret fx.

Definition scheduler_futex_init (f value flags : Z) : SM unit :=
  assert (negb (f =? 0)) ;;;
  upd (λ s, s <| futex_at ::= <[f := Futex value [] flags SCHEDULER_FUTEX_MARKER]> |>).

Definition scheduler_futex_wait (f value n : Z) : SM Z :=
  _fx <- marked_futex f ;;
  status <- svc_call (scheduler_wait_svc core) f value n ;;
  when (status <? 0) (set_errno (- status)) ;;;
  ret status.

(** The search for an empty slot, from slot [i] on, [n] slots left. *)
Fixpoint defer_wake (n : nat) (i : nat) (wakeup : Z) : SM Z :=
  match n with
  | O => set_errno ENOSPC ;;; ret (- ENOSPC)
  | S n' =>
      slot <- gets (λ s, deferred_wake (cls s core) !!! i) ;;
      if slot =? 0 then
        upd_cls core (λ c, c <| deferred_wake ::= <[i := wakeup]> |>) ;;;
        upd_cls core (λ c, c <| given_wake_counter ::= λ n, u32 (n + 1) |>) ;;;
        scheduler_request_switch core ;;;
        ret 0
      else if slot =? wakeup then ret 0
      else defer_wake n' (S i) wakeup
  end.

Definition scheduler_futex_wake (f : Z) (all : bool) : SM Z :=
  fx <- marked_futex f ;;
  irq <- gets (λ s, negb (ipsr (cls s core) =? 0)) ;;
  if (irq : bool) then
    if has (f_flags fx) PI_AND_OWNER then set_errno EINVAL ;;; ret (- EINVAL)
    else defer_wake SCHEDULER_MAX_DEFERED_WAKE 0 (Z.lor f (Z.b2z all))
  else
    status <- svc_call (scheduler_wake_svc core) f (Z.b2z all) 0 ;;
    when (status <? 0) (set_errno (- status)) ;;;
    ret status.

Definition scheduler_set_priority (t priority : Z) : SM Z :=
  if SCHEDULER_MIN_TASK_PRIORITY <? priority then set_errno (- EINVAL) ;;; ret (- EINVAL)
  else
    t <- self_or t ;;
    svc_call (scheduler_priority_svc core) t priority 0.

Definition scheduler_get_priority (t : Z) : SM Z :=
  t <- self_or t ;;
  tk <- get_task t ;;
  ret (t_current_priority tk).

Definition self_marked (t : Z) : SM Z :=
  t <- self_or t ;;
  assert (negb (t =? 0)) ;;;
  marked_task t ;;;
  ret t.

Definition scheduler_set_flags (t mask : Z) : SM unit :=
  t <- self_marked t ;; upd_task t (λ tk, tk <| t_flags ::= λ f, Z.lor f mask |>).
Definition scheduler_clear_flags (t mask : Z) : SM unit :=
  t <- self_marked t ;; upd_task t (λ tk, tk <| t_flags ::= λ f, Z.land f (not32 mask) |>).
Definition scheduler_get_flags (t : Z) : SM Z :=
  t <- self_marked t ;; tk <- get_task t ;; ret (t_flags tk).
Definition scheduler_get_state (t : Z) : SM task_state :=
  t <- self_marked t ;; tk <- get_task t ;; ret (t_state tk).

(** The walk of [scheduler_for_each] over the nodes [l] of a ring. *)
Fixpoint for_each_node (func : Z → SM bool) (l : list Z) : SM unit :=
  match l with
  | [] => ret tt
  | node :: l' => go <- func node ;; if (go : bool) then for_each_node func l' else ret tt
  end.

Definition scheduler_for_each (l : list Z) (func : Z → SM bool) : SM unit :=
  _old <- scheduler_lock ;; for_each_node func l ;;; _old <- scheduler_unlock ;; ret tt.

(** ** Creation *)

(** Fill the stack with markers, a word at a time. *)
Definition fill_stack (stack size : Z) (m : gmap Z Z) : gmap Z Z :=
  foldr (λ i m, <[stack + 4 * Z.of_nat i := SCHEDULER_STACK_MARKER]> m) m
    (seq 0 (Z.to_nat ((size + 3) / 4))).

(** A node of the task is linked in some ring: initialising it in place would
    tear that ring. *)
Definition linked_anywhere (t : Z) (s : sched) : bool :=
  bool_decide (t ∈ s_tasks s) || bool_decide (t ∈ s_timers s) || queue_node_linked t s.

Definition blank_task : task := Task 0 0 0 TASK_TERMINATED 0 0 0 0 0 [] None 0 0 0 0.

(** The task at the bottom of a stack of [size] bytes filled with markers: what
    [scheduler_create] may leave unwritten, and [t_state], which only the
    creation service or the primordial branch writes, before it is read. *)
Definition filled_task (size : Z) (tk : task) : task :=
  tk <| t_psp ::= λ v, if 0 <? size then SCHEDULER_STACK_MARKER else v |>
     <| t_tls ::= λ v, if 4 <? size then SCHEDULER_STACK_MARKER else v |>
     <| t_stack_marker ::= λ v, if 8 <? size then SCHEDULER_STACK_MARKER else v |>.

(** The fields [scheduler_create] always writes; the others keep the bytes the
    stack held. *)
Definition new_task (d : task_descriptor) (tk : task) : task :=
  tk <| t_marker := SCHEDULER_TASK_MARKER |> <| t_owned_futexes := [] |> <| t_current_queue := None |>
     <| t_timer_expires := UINT32_MAX |> <| t_base_priority := priority d |>
     <| t_current_priority := priority d |> <| t_exit_handler := exit_handler d |>
     <| t_flags := flags d |> <| t_context := context d |> <| t_core := UINT32_MAX |>
     <| t_affinity := if has (flags d) SCHEDULER_CORE_AFFINITY then affinity d else UINT32_MAX |>.

Definition frame_address (stack stack_size : Z) : Z :=
  Z.land (u32 (stack + stack_size - SIZEOF_SCHEDULER_FRAME)) (not32 7).
Definition new_frame (d : task_descriptor) : Scheduler.frame :=
  Frame (context d) 0 0 EXEC_RETURN CONTROL_SPSEL 0 (Z.land (entry_point d) (not32 1)) XPSR_T.
Definition round8 (n : Z) : Z := Z.land (n + 7) (not32 7).

Definition scheduler_create (stack stack_size : Z) (d : option task_descriptor) : SM Z :=
  present <- gets s_present ;;
  match d with
  | None => set_errno EINVAL ;;; ret 0
  | Some d =>
    if (stack =? 0) || negb present then set_errno EINVAL ;;; ret 0
    else
      when (has (flags d) SCHEDULER_TASK_STACK_CHECK)
        (upd (λ s, s <| word_at ::= fill_stack stack stack_size |>
                     <| task_at ::= λ m, <[stack := filled_task stack_size (default blank_task (m !! stack))]> m |>)) ;;;
      linked <- gets (linked_anywhere stack) ;;
      when linked (fail RingCorrupted) ;;;
      upd (λ s, s <| task_at ::= λ m, <[stack := new_task d (default blank_task (m !! stack))]> m |>) ;;;
      when (negb (has (flags d) SCHEDULER_NO_FRAME_INIT))
        (upd (λ s, s <| frame_at ::= <[frame_address stack stack_size := new_frame d]> |>) ;;;
         upd_task stack (λ tk, tk <| t_psp := frame_address stack stack_size |>)) ;;;
      when (negb (has (flags d) SCHEDULER_NO_TLS_INIT))
        (let tls := u32 (stack + round8 SIZEOF_TASK) in
         upd_task stack (λ tk, tk <| t_tls := tls |>) ;;;
         scheduler_tls_init_hook tls ;;;
         size <- gets s_tls_size ;;
         upd_task stack (λ tk, tk <| t_stack_marker := u32 (tls + size) |>)) ;;;
      good <- scheduler_check_stack stack ;;
      assert good ;;;
      if has (flags d) SCHEDULER_PRIMORDIAL_TASK then
        upd (λ s, s <| s_tasks ::= λ l, l ++ [stack] |>) ;;;
        upd_task stack (λ tk, tk <| t_flags ::= λ f, Z.lor f SCHEDULER_CORE_AFFINITY |> <| t_affinity := core |>) ;;;
        upd_task stack (λ tk, tk <| t_state := TASK_RUNNING |> <| t_core := t_affinity tk |>) ;;;
        upd_cls core (λ c, c <| current_task := stack |>) ;;;
        tk <- get_task stack ;;
        when (negb (t_tls tk =? 0)) (scheduler_switch_hook core stack) ;;;
        ret stack
      else svc_call (scheduler_create_svc core) stack 0 0
  end.
End api.
