(* ===== verification/SchedulerInv.v ===== *)
(** * The scheduler: structural invariant

    [struct_inv] is the well-formedness of the scheduler's rings: what the
    queues, the timer list and the task list may hold and in which order.
    Every primitive of [Scheduler] runs without a fault on a well-formed state
    and keeps it well formed; the rules of this file say so in the form the
    handlers of [SchedulerSvc] are verified with. *)
From S2P Require Import Prelude Scheduler.

Definition alive_task (s : sched) (t : Z) : Prop := t ∈ s_tasks s.

Record struct_inv (s : sched) : Prop := {
  si_null : task_at s !! 0 = None;
  si_tasks : NoDup (s_tasks s);
  si_alive t : t ∈ s_tasks s →
    ∃ tk, task_at s !! t = Some tk ∧ t_marker tk = SCHEDULER_TASK_MARKER;
  si_queue q l : queue s q = Some l → NoDup l ∧ sorted_by (priority_of s) l;
  si_member q l t : queue s q = Some l → t ∈ l →
    t ∈ s_tasks s ∧ ∃ tk, task_at s !! t = Some tk ∧ t_current_queue tk = Some q;
  si_queued t tk q : task_at s !! t = Some tk → t_current_queue tk = Some q →
    ∃ l, queue s q = Some l ∧ t ∈ l;
  si_timers : NoDup (s_timers s) ∧ sorted_by (expires_of s) (s_timers s) ∧
    s_timer_expires s = closest_expiry s;
  si_timer_alive t : t ∈ s_timers s → t ∈ s_tasks s;
  si_owned t tk f : task_at s !! t = Some tk → f ∈ t_owned_futexes tk → is_Some (futex_at s !! f);
  si_words f fx : futex_at s !! f = Some fx → is_Some (word_at s !! f_value fx)
}.

(** The fields of a futex no scheduler code writes. *)
Definition futex_id (fx : futex) : Z * Z * Z := (f_value fx, f_flags fx, f_marker fx).
(** A task up to the ring of futexes it owns. *)
Definition strip (tk : task) : task := tk <| t_owned_futexes := [] |>.

(** The fields of a task only [scheduler_create] writes. *)
Definition task_id (tk : task) : Z * Z * Z * Z * Z * Z :=
  (t_flags tk, t_stack_marker tk, t_affinity tk, t_tls tk, t_context tk, t_exit_handler tk).

(** Nothing but the task [t] (and the order of the rings it is linked into)
    differs between [s] and [s']. *)
Record others (t : Z) (s s' : sched) : Prop := {
  ot_tasks : s_tasks s' = s_tasks s;
  ot_cpu : cpu_at s' = cpu_at s;
  ot_frame : frame_at s' = frame_at s;
  ot_word : word_at s' = word_at s;
  ot_spin : s_spin s' = s_spin s;
  ot_present : s_present s' = s_present s;
  ot_locked : s_locked s' = s_locked s;
  ot_running : s_running s' = s_running s;
  ot_task u : u ≠ t → strip <$> task_at s' !! u = strip <$> task_at s !! u;
  ot_id u : task_id <$> task_at s' !! u = task_id <$> task_at s !! u;
  ot_timers : without t (s_timers s') = without t (s_timers s);
  ot_futex f : futex_id <$> futex_at s' !! f = futex_id <$> futex_at s !! f;
  ot_queue q : without t <$> queue s' q = without t <$> queue s q
}.

Lemma others_refl t s : others t s s.
Proof. by split. Qed.

Lemma others_trans t s1 s2 s3 : others t s1 s2 → others t s2 s3 → others t s1 s3.
Proof.
  intros H1 H2. split.
  - by rewrite (ot_tasks _ _ _ H2), (ot_tasks _ _ _ H1).
  - by rewrite (ot_cpu _ _ _ H2), (ot_cpu _ _ _ H1).
  - by rewrite (ot_frame _ _ _ H2), (ot_frame _ _ _ H1).
  - by rewrite (ot_word _ _ _ H2), (ot_word _ _ _ H1).
  - by rewrite (ot_spin _ _ _ H2), (ot_spin _ _ _ H1).
  - by rewrite (ot_present _ _ _ H2), (ot_present _ _ _ H1).
  - by rewrite (ot_locked _ _ _ H2), (ot_locked _ _ _ H1).
  - by rewrite (ot_running _ _ _ H2), (ot_running _ _ _ H1).
  - intros u Hu. by rewrite (ot_task _ _ _ H2 u Hu), (ot_task _ _ _ H1 u Hu).
  - intros u. by rewrite (ot_id _ _ _ H2 u), (ot_id _ _ _ H1 u).
  - by rewrite (ot_timers _ _ _ H2), (ot_timers _ _ _ H1).
  - intros f. by rewrite (ot_futex _ _ _ H2 f), (ot_futex _ _ _ H1 f).
  - intros q. by rewrite (ot_queue _ _ _ H2 q), (ot_queue _ _ _ H1 q).
Qed.

Lemma ot_timer t s s' u : others t s s' → u ≠ t → u ∈ s_timers s' ↔ u ∈ s_timers s.
Proof.
  intros Ho Hu. pose proof (elem_of_without t u (s_timers s')) as E1.
  rewrite (ot_timers _ _ _ Ho), elem_of_without in E1. tauto.
Qed.

Lemma others_futex t s s' f fx :
  others t s s' → futex_at s !! f = Some fx →
  ∃ fx', futex_at s' !! f = Some fx' ∧ futex_id fx' = futex_id fx.
Proof.
  intros Ho Hf. pose proof (ot_futex _ _ _ Ho f) as He. rewrite Hf in He. cbn in He.
  destruct (futex_at s' !! f) as [fx'|]; [|done]. exists fx'. split; [done|]. cbn in He. congruence.
Qed.

Lemma others_task t s s' u tk :
  others t s s' → u ≠ t → task_at s !! u = Some tk →
  ∃ tk', task_at s' !! u = Some tk' ∧ strip tk' = strip tk.
Proof.
  intros Ho Hu Ht. pose proof (ot_task _ _ _ Ho u Hu) as He. rewrite Ht in He. cbn in He.
  destruct (task_at s' !! u) as [tk'|]; [|done]. exists tk'. split; [done|]. cbn in He. congruence.
Qed.

(** ** Reading updated states *)
Lemma queue_upd_tasks s g q : queue (s <| task_at ::= g |>) q = queue s q.
Proof. by destruct q. Qed.

Lemma queue_unlink t s q : queue (unlink_queue_node t s) q = without t <$> queue s q.
Proof.
  unfold unlink_queue_node. destruct q as [|f]; cbn [queue]; rsimp; [done|].
  rewrite lookup_fmap. by destruct (futex_at s !! f).
Qed.

Lemma queue_node_linked_spec t s :
  queue_node_linked t s = true ↔ ∃ q l, queue s q = Some l ∧ t ∈ l.
Proof.
  unfold queue_node_linked. rewrite orb_true_iff, !bool_decide_eq_true. split.
  - intros [?|(f & fx & Hf & Ht)]; [by exists ready_queue, (s_ready s)|].
    exists (waiters f), (f_waiters fx). cbn. by rewrite Hf.
  - intros ([|f] & l & Hq & Ht); cbn in Hq.
    + left. by injection Hq as ->.
    + right. destruct (futex_at s !! f) as [fx|] eqn:Hf; [|done]. injection Hq as <-.
      by exists f, fx.
Qed.

Lemma unlinked_from_queues s t tk :
  struct_inv s → task_at s !! t = Some tk → t_current_queue tk = None →
  queue_node_linked t s = false.
Proof.
  intros Hs Ht Hq. apply not_true_iff_false. rewrite queue_node_linked_spec.
  intros (q & l & Hl & Hin). destruct (si_member _ Hs _ _ _ Hl Hin) as (_ & tk' & ? & ?).
  simplify_eq.
Qed.

Lemma priority_of_lookup s t tk : task_at s !! t = Some tk → priority_of s t = t_current_priority tk.
Proof. unfold priority_of. by intros ->. Qed.

Lemma expires_of_lookup s t tk : task_at s !! t = Some tk → expires_of s t = t_timer_expires tk.
Proof. unfold expires_of. by intros ->. Qed.

(** ** Updates of a task that the rings do not depend on

    [quiet g]: [g] leaves alone what the rings are ordered and indexed by. *)
Definition quiet (g : task → task) : Prop := ∀ tk,
  t_current_priority (g tk) = t_current_priority tk ∧
  t_timer_expires (g tk) = t_timer_expires tk ∧
  t_current_queue (g tk) = t_current_queue tk ∧
  t_owned_futexes (g tk) = t_owned_futexes tk ∧ t_marker (g tk) = t_marker tk ∧
  task_id (g tk) = task_id tk.

Lemma struct_tasks s m :
  struct_inv s →
  (∀ u tk', m !! u = Some tk' → ∃ tk, task_at s !! u = Some tk ∧
     t_current_priority tk' = t_current_priority tk ∧ t_timer_expires tk' = t_timer_expires tk ∧
     t_current_queue tk' = t_current_queue tk ∧ t_marker tk' = t_marker tk ∧
     (∀ f, f ∈ t_owned_futexes tk' → is_Some (futex_at s !! f))) →
  (∀ u, is_Some (task_at s !! u) → is_Some (m !! u)) →
  struct_inv (s <| task_at := m |>).
Proof.
  intros Hs Hm Hd.
  assert (∀ u tk, task_at s !! u = Some tk → ∃ tk', m !! u = Some tk' ∧
     t_current_priority tk' = t_current_priority tk ∧ t_timer_expires tk' = t_timer_expires tk ∧
     t_current_queue tk' = t_current_queue tk ∧ t_marker tk' = t_marker tk) as Hf.
  { intros u tk Hu. destruct (Hd u) as [tk' Htk']; [eauto|].
    destruct (Hm _ _ Htk') as (? & ? & ?). simplify_eq. naive_solver. }
  assert (∀ u, priority_of (s <| task_at := m |>) u = priority_of s u) as Hp.
  { intros u. unfold priority_of. rsimp. destruct (task_at s !! u) as [tk|] eqn:Hu.
    - destruct (Hf _ _ Hu) as (? & -> & ?). cbn. naive_solver.
    - destruct (m !! u) as [tk'|] eqn:Hu'; [|done]. destruct (Hm _ _ Hu') as (? & ? & _). congruence. }
  assert (∀ u, expires_of (s <| task_at := m |>) u = expires_of s u) as He.
  { intros u. unfold expires_of. rsimp. destruct (task_at s !! u) as [tk|] eqn:Hu.
    - destruct (Hf _ _ Hu) as (? & -> & ?). cbn. naive_solver.
    - destruct (m !! u) as [tk'|] eqn:Hu'; [|done]. destruct (Hm _ _ Hu') as (? & ? & _). congruence. }
  destruct Hs as [Hnull Htasks Halive Hqueue Hmem Hqd (Ht1 & Ht2 & Ht3) Hta Ho Hw]. split; rsimp; try done.
  - destruct (m !! 0) as [tk'|] eqn:H0; [|done]. destruct (Hm _ _ H0) as (? & ? & _). congruence.
  - intros t Ht. destruct (Halive _ Ht) as (tk & Htk & Hmk). destruct (Hf _ _ Htk) as (tk' & ? & ?).
    exists tk'. split; [done|]. naive_solver congruence.
  - intros q l. intros Hl. destruct (Hqueue _ _ Hl) as [? ?]. split; [done|].
    by eapply sorted_by_ext; [|eassumption].
  - intros q l t. intros Hl Hin. destruct (Hmem _ _ _ Hl Hin) as (? & tk & Htk & ?).
    split; [done|]. destruct (Hf _ _ Htk) as (tk' & ? & ? & ? & ? & ?). exists tk'. split; congruence.
  - intros t tk' q Ht Hcq. destruct (Hm _ _ Ht) as (tk & ? & ? & ? & ? & ?).
    eapply Hqd; [done|]. congruence.
  - split_and!; [done|by eapply sorted_by_ext; [|eassumption]|].
    rewrite Ht3. unfold closest_expiry. rsimp. destruct (s_timers s); [done|]. by rewrite He.
  - intros t tk' f Ht Hin. destruct (Hm _ _ Ht) as (tk & ? & ? & ? & ? & ? & ?). eauto.
Qed.

Lemma wp_get_task t tk (Q : task → sched → Prop) s :
  task_at s !! t = Some tk → Q tk s → wp (get_task t) Q s.
Proof. intros ? ?. by apply (wp_get_opt (λ s, task_at s !! t) _ _ _ tk). Qed.

Lemma wp_get_futex f fx (Q : futex → sched → Prop) s :
  futex_at s !! f = Some fx → Q fx s → wp (get_futex f) Q s.
Proof. intros ? ?. by apply (wp_get_opt (λ s, futex_at s !! f) _ _ _ fx). Qed.

Lemma wp_get_frame a fr (Q : frame → sched → Prop) s :
  frame_at s !! a = Some fr → Q fr s → wp (get_frame a) Q s.
Proof. intros ? ?. by apply (wp_get_opt (λ s, frame_at s !! a) _ _ _ fr). Qed.

Lemma wp_upd_task_raw t g tk (Q : unit → sched → Prop) s :
  task_at s !! t = Some tk →
  Q tt (s <| task_at := <[t := g tk]> (task_at s) |>) → wp (upd_task t g) Q s.
Proof. intros Ht HQ. unfold upd_task. apply wp_bind. by apply (wp_get_task _ tk). Qed.

Lemma wp_upd_task_quiet t g tk (Q : unit → sched → Prop) s :
  struct_inv s → quiet g → task_at s !! t = Some tk →
  (∀ s', struct_inv s' → others t s s' → task_at s' !! t = Some (g tk) →
         s_timers s' = s_timers s → Q tt s') →
  wp (upd_task t g) Q s.
Proof.
  intros Hs Hg Ht HQ. apply (wp_upd_task_raw _ _ tk); [done|]. apply HQ.
  - destruct (Hg tk) as (? & ? & ? & ? & ? & _). apply struct_tasks; [done| |].
    + intros u tk'. rewrite lookup_insert. case_decide; subst.
      * intros [= <-]. exists tk. split_and!; try done.
        intros f Hf. rewrite H2 in Hf. by eapply si_owned.
      * intros Hu. exists tk'. split_and!; try done. intros. by eapply si_owned.
    + intros u. rewrite lookup_insert. by case_decide.
  - split; rsimp; try done; intros u; [intros ?; by rewrite lookup_insert_ne by done|].
    rewrite lookup_insert. case_decide; [subst; rewrite Ht; cbn; f_equal; apply (Hg tk)|done].
  - rsimp. apply lookup_insert_eq.
  - done.
Qed.

(** ** Moving one task between the queues

    [requeued t tk' s s']: only the entry of [t] and its place in the queues
    changed, and the queues hold [t] exactly where its entry says. *)
Record requeued (t : Z) (tk' : task) (s s' : sched) : Prop := {
  rq_tasks : s_tasks s' = s_tasks s;
  rq_timers : s_timers s' = s_timers s;
  rq_expires : s_timer_expires s' = s_timer_expires s;
  rq_words : word_at s' = word_at s;
  rq_task : task_at s' = <[t := tk']> (task_at s);
  rq_futex f : futex_id <$> futex_at s' !! f = futex_id <$> futex_at s !! f;
  rq_queue q l' : queue s' q = Some l' → ∃ l, queue s q = Some l ∧ NoDup l' ∧
    sorted_by (priority_of s') l' ∧ (∀ u, u ≠ t → u ∈ l' ↔ u ∈ l) ∧
    (t ∈ l' ↔ t_current_queue tk' = Some q)
}.

Lemma requeued_queue t tk' s s' q : requeued t tk' s s' → is_Some (queue s' q) ↔ is_Some (queue s q).
Proof.
  intros Hr. destruct q as [|f]; cbn; [done|].
  rewrite !fmap_is_Some, <-(fmap_is_Some futex_id (futex_at s' !! f)), (rq_futex _ _ _ _ Hr).
  by rewrite fmap_is_Some.
Qed.

Lemma requeued_struct t tk tk' s s' :
  struct_inv s → requeued t tk' s s' → task_at s !! t = Some tk →
  t_timer_expires tk' = t_timer_expires tk → t_owned_futexes tk' = t_owned_futexes tk →
  t_marker tk' = t_marker tk →
  (∀ q, t_current_queue tk' = Some q → t ∈ s_tasks s ∧ is_Some (queue s q)) →
  struct_inv s'.
Proof.
  intros Hs Hr Ht Hte Hto Htm Htq.
  assert (∀ u, expires_of s' u = expires_of s u) as He.
  { intros u. unfold expires_of. rewrite (rq_task _ _ _ _ Hr), lookup_insert.
    case_decide; subst; [by rewrite Ht|done]. }
  assert (∀ f, is_Some (futex_at s !! f) → is_Some (futex_at s' !! f)) as Hfs.
  { intros f. rewrite <-!(fmap_is_Some futex_id), (rq_futex _ _ _ _ Hr). done. }
  destruct (si_timers _ Hs) as (Ht1 & Ht2 & Ht3).
  split; rewrite ?(rq_tasks _ _ _ _ Hr), ?(rq_timers _ _ _ _ Hr), ?(rq_words _ _ _ _ Hr).
  - rewrite (rq_task _ _ _ _ Hr), lookup_insert_ne by (intros ->; by rewrite (si_null _ Hs) in Ht).
    apply (si_null _ Hs).
  - apply (si_tasks _ Hs).
  - intros u Hu. destruct (si_alive _ Hs _ Hu) as (tku & Htku & Hm).
    rewrite (rq_task _ _ _ _ Hr), lookup_insert. case_decide; subst; [|eauto].
    exists tk'. split; [done|]. congruence.
  - intros q l' Hl'. by destruct (rq_queue _ _ _ _ Hr _ _ Hl') as (l & _ & ? & ? & _).
  - intros q l' u Hl' Hu. destruct (rq_queue _ _ _ _ Hr _ _ Hl') as (l & Hl & _ & _ & Hne & Hin).
    rewrite (rq_task _ _ _ _ Hr), lookup_insert. case_decide; subst.
    + apply Hin in Hu. split; [by eapply Htq|]. by exists tk'.
    + apply Hne in Hu; [|done]. by eapply si_member.
  - intros u tku q. rewrite (rq_task _ _ _ _ Hr), lookup_insert. case_decide; subst.
    + intros [= <-] Hq. destruct (Htq _ Hq) as [_ Hsome].
      apply (requeued_queue _ _ _ _ q Hr) in Hsome as [l' Hl']. exists l'. split; [done|].
      destruct (rq_queue _ _ _ _ Hr _ _ Hl') as (l & _ & _ & _ & _ & Hin). by apply Hin.
    + intros Hu Hq. destruct (si_queued _ Hs _ _ _ Hu Hq) as (l & Hl & Hul).
      assert (is_Some (queue s' q)) as [l' Hl'] by (apply (requeued_queue _ _ _ _ q Hr); eauto).
      exists l'. split; [done|].
      destruct (rq_queue _ _ _ _ Hr _ _ Hl') as (l0 & ? & _ & _ & Hne & _). simplify_eq.
      by apply Hne.
  - split_and!; [done|by eapply sorted_by_ext; [|eassumption]|].
    rewrite (rq_expires _ _ _ _ Hr), Ht3. unfold closest_expiry.
    rewrite (rq_timers _ _ _ _ Hr). destruct (s_timers s); [done|]. by rewrite He.
  - apply (si_timer_alive _ Hs).
  - intros u tku f. rewrite (rq_task _ _ _ _ Hr), lookup_insert. case_decide; subst.
    + intros [= <-]. rewrite Hto. intros Hf. by eapply Hfs, si_owned.
    + intros Hu Hf. by eapply Hfs, si_owned.
  - intros f fx' Hf. pose proof (rq_futex _ _ _ _ Hr f) as Hid. rewrite Hf in Hid. cbn in Hid.
    destruct (futex_at s !! f) as [fx|] eqn:Hfx; [|done].
    assert (f_value fx' = f_value fx) as -> by (unfold futex_id in Hid; cbn in Hid; congruence).
    by eapply si_words.
Qed.

Lemma priority_of_update t tk' s m u :
  m = <[t := tk']> (task_at s) →
  priority_of (s <| task_at := m |>) u = if decide (u = t) then t_current_priority tk' else priority_of s u.
Proof.
  intros ->. unfold priority_of. rsimp. rewrite lookup_insert. repeat case_decide; by subst.
Qed.

Lemma without_idemp t (l : list Z) : without t (without t l) = without t l.
Proof. apply without_id. rewrite elem_of_without. tauto. Qed.

(** The state after [sched_queue_remove]. *)
Definition dequeued (t : Z) (tk : task) (s : sched) : sched :=
  (unlink_queue_node t s) <| task_at := <[t := tk <| t_current_queue := None |>]> (task_at s) |>.

Lemma dequeued_requeued t tk s :
  struct_inv s → task_at s !! t = Some tk →
  requeued t (tk <| t_current_queue := None |>) s (dequeued t tk s).
Proof.
  intros Hs Ht. split; unfold dequeued, unlink_queue_node; rsimp; try done.
  - intros f. rewrite lookup_fmap. by destruct (futex_at s !! f).
  - intros q l' Hl'.
    assert (queue (unlink_queue_node t s) q = Some l') as Hl by (by destruct q).
    rewrite queue_unlink in Hl. destruct (queue s q) as [l|] eqn:Hq; [|done].
    injection Hl as <-. exists l. destruct (si_queue _ Hs _ _ Hq) as [Hnd Hso].
    split_and!; [done|by apply NoDup_without| | |].
    + eapply (sorted_by_ext (priority_of s)); [|by eapply sorted_by_sublist; [apply without_sublist|]].
      intros u [Hu _]%elem_of_without. unfold priority_of. rsimp. by rewrite lookup_insert_ne.
    + intros u Hu. rewrite elem_of_without. tauto.
    + rewrite elem_of_without. naive_solver.
Qed.

Lemma requeued_others t tk' s s' :
  requeued t tk' s s' → cpu_at s' = cpu_at s → frame_at s' = frame_at s →
  s_spin s' = s_spin s → s_present s' = s_present s → s_locked s' = s_locked s → s_running s' = s_running s →
  (∀ q, without t <$> queue s' q = without t <$> queue s q) →
  Some (task_id tk') = task_id <$> task_at s !! t → others t s s'.
Proof.
  intros Hr ??????? Hid. split; try done; try congruence.
  - apply (rq_tasks _ _ _ _ Hr).
  - by rewrite (rq_words _ _ _ _ Hr).
  - intros u Hu. by rewrite (rq_task _ _ _ _ Hr), lookup_insert_ne.
  - intros u. rewrite (rq_task _ _ _ _ Hr), lookup_insert. case_decide; by subst.
  - by rewrite (rq_timers _ _ _ _ Hr).
  - apply (rq_futex _ _ _ _ Hr).
Qed.

Lemma dequeued_others t tk s :
  struct_inv s → task_at s !! t = Some tk → others t s (dequeued t tk s).
Proof.
  intros Hs Ht. apply (requeued_others _ _ _ _ (dequeued_requeued t tk s Hs Ht)); try done.
  - intros q. change (queue (dequeued t tk s) q) with (queue (unlink_queue_node t s) q).
    rewrite queue_unlink. destruct (queue s q); cbn; [by rewrite without_idemp|done].
  - by rewrite Ht.
Qed.

Lemma wp_sched_queue_remove t tk (Q : unit → sched → Prop) s :
  struct_inv s → task_at s !! t = Some tk →
  (∀ s', struct_inv s' → others t s s' →
     task_at s' !! t = Some (tk <| t_current_queue := None |>) →
     s_timers s' = s_timers s → s' = dequeued t tk s → Q tt s') →
  wp (sched_queue_remove t) Q s.
Proof.
  intros Hs Ht HQ. unfold sched_queue_remove. wp_step. apply (wp_get_task _ tk); [done|].
  do 2 wp_step. apply (wp_upd_task_raw _ _ tk); [done|].
  pose proof (dequeued_requeued t tk s Hs Ht) as Hr.
  apply HQ; try done.
  - by apply (requeued_struct t tk _ s _ Hs Hr).
  - exact (dequeued_others t tk s Hs Ht).
  - rsimp. apply lookup_insert_eq.
Qed.

Lemma wp_set_queue q l (Q : unit → sched → Prop) s :
  is_Some (queue s q) →
  (∀ s', (∀ q', queue s' q' = if decide (q' = q) then Some l else queue s q') →
     (∀ f, futex_id <$> futex_at s' !! f = futex_id <$> futex_at s !! f) →
     s' = s <| s_ready := s_ready s' |> <| futex_at := futex_at s' |> → Q tt s') →
  wp (set_queue q l) Q s.
Proof.
  intros [l0 Hl0] HQ. destruct q as [|f]; cbn [set_queue].
  - wp_step. apply HQ; [|done..]. intros [|f]; cbn [queue]; rsimp; by case_decide.
  - cbn in Hl0. destruct (futex_at s !! f) as [fx|] eqn:Hf; [|done].
    unfold upd_futex. wp_step. apply (wp_get_futex _ fx); [done|]. wp_step. apply HQ; [| |done].
    + intros [|f']; cbn [queue]; rsimp; [by case_decide|].
      rewrite lookup_insert. repeat case_decide; simplify_eq; done.
    + intros f'. rsimp. rewrite lookup_insert. case_decide; [subst; by rewrite Hf|done].
Qed.

(** Pushing an unqueued live task: the queue holds it behind the tasks of the
    same or a higher priority and in front of the others. *)
Definition pushed (s : sched) (t : Z) (tk : task) (l : list Z) : list Z :=
  place (λ e, t_current_priority tk <? priority_of s e) t l.

Lemma pushed_ok s t tk q l :
  struct_inv s → task_at s !! t = Some tk → t_current_queue tk = None → queue s q = Some l →
  NoDup (pushed s t tk l) ∧ sorted_by (priority_of s) (pushed s t tk l) ∧ t ∉ l.
Proof.
  intros Hs Ht Hcq Hl. destruct (si_queue _ Hs _ _ Hl) as [Hnd Hso].
  assert (t ∉ l) as Hni.
  { intros Hin. destruct (si_member _ Hs _ _ _ Hl Hin) as (_ & ? & ? & ?). simplify_eq. }
  unfold pushed. rewrite <-(priority_of_lookup s t tk) by done.
  split_and!; [by apply NoDup_place|by apply place_sorted|done].
Qed.

Lemma wp_sched_queue_push q t tk l (Q : unit → sched → Prop) s :
  struct_inv s → task_at s !! t = Some tk → t_current_queue tk = None → t ∈ s_tasks s →
  queue s q = Some l →
  (∀ s', struct_inv s' → others t s s' →
     task_at s' !! t = Some (tk <| t_current_queue := Some q |>) →
     s_timers s' = s_timers s →
     (∀ q', queue s' q' = if decide (q' = q) then Some (pushed s t tk l) else queue s q') →
     (∀ u, u ≠ t → task_at s' !! u = task_at s !! u) → Q tt s') →
  wp (sched_queue_push q t) Q s.
Proof.
  intros Hs Ht Hcq Hal Hl HQ. unfold sched_queue_push.
  wp_step. apply (wp_get_task _ tk); [done|]. cbn beta.
  do 2 wp_step; [by rewrite Hcq|]. do 2 wp_step.
  rewrite (unlinked_from_queues s t tk) by done. do 2 wp_step; [done|].
  do 2 wp_step. wp_step. apply (wp_get_opt _ _ _ _ l); [done|]. cbn beta. wp_step.
  destruct (pushed_ok s t tk q l Hs Ht Hcq Hl) as (Hnd & Hso & Hni).
  apply wp_set_queue; [eauto|]. intros s1 Hq1 Hf1 Hs1.
  assert (task_at s1 = task_at s) as Ht1 by (by rewrite Hs1).
  apply (wp_upd_task_raw _ _ tk); [by rewrite Ht1|].
  set (s2 := s1 <| task_at := _ |>).
  assert (∀ q', queue s2 q' = if decide (q' = q) then Some (pushed s t tk l) else queue s q') as Hq2.
  { intros q'. subst s2. by rewrite queue_upd_tasks, Hq1. }
  assert (requeued t (tk <| t_current_queue := Some q |>) s s2) as Hr.
  { subst s2. split; rsimp; try (by rewrite Hs1).
    intros q' l' Hl'. change (queue s1 q' = Some l') in Hl'. rewrite Hq1 in Hl'.
    assert (∀ u, priority_of (s1 <| task_at := <[t := tk <| t_current_queue := Some q |>]> (task_at s1) |>) u
                 = priority_of s u) as Hp.
    { intros u. rewrite (priority_of_update t (tk <| t_current_queue := Some q |>)) by done.
      destruct (decide (u = t)) as [->|]; unfold priority_of; rewrite ?Ht1, ?Ht; done. }
    case_decide as Hd.
    - subst q'. injection Hl' as <-. exists l. split_and!; [done|done| | |].
      + by eapply sorted_by_ext; [|eassumption].
      + intros u Hu. unfold pushed. rewrite elem_of_place. tauto.
      + unfold pushed. rewrite elem_of_place. naive_solver.
    - exists l'. destruct (si_queue _ Hs _ _ Hl') as [??]. split_and!; [done..| | |].
      + by eapply sorted_by_ext; [|eassumption].
      + done.
      + split; [|naive_solver]. intros Hin.
        destruct (si_member _ Hs _ _ _ Hl' Hin) as (_ & ? & ? & ?). simplify_eq. }
  apply HQ.
  - apply (requeued_struct t tk _ s _ Hs Hr); try done.
    intros q' Hq'. cbn in Hq'. rsimp. injection Hq' as <-. eauto.
  - apply (requeued_others _ _ _ _ Hr); [subst s2; rsimp; by rewrite Hs1..| |by rewrite Ht].
    intros q'. rewrite Hq2. case_decide; [subst q'; rewrite Hl; cbn|done].
    unfold pushed. by rewrite without_place, without_id.
  - subst s2. rsimp. apply lookup_insert_eq.
  - apply (rq_timers _ _ _ _ Hr).
  - done.
  - intros u Hu. rewrite (rq_task _ _ _ _ Hr). by apply lookup_insert_ne.
Qed.

(** ** Popping

    [pick]: the first task of the queue that may run on the core. *)
Definition pick (s : sched) (core : Z) (l : list Z) : option Z :=
  if core =? UINT32_MAX then head l else find (runs_on s core) l.

Lemma pick_elem s core l t : pick s core l = Some t → t ∈ l.
Proof.
  unfold pick. case_match; [destruct l; [done|]; intros [= ->]; set_solver|].
  intros Hf. apply find_some in Hf as [Hin _]. by apply list_elem_of_In.
Qed.

Lemma member_nonzero s q l t : struct_inv s → queue s q = Some l → t ∈ l → t ≠ 0.
Proof.
  intros Hs Hl Hin ->. destruct (si_member _ Hs _ _ _ Hl Hin) as (_ & ? & Ht & _).
  by rewrite (si_null _ Hs) in Ht.
Qed.

Lemma wp_get_queue q l (Q : list Z → sched → Prop) s :
  queue s q = Some l → Q l s → wp (get_queue q) Q s.
Proof. intros ??. by apply (wp_get_opt (λ s, queue s q) _ _ _ l). Qed.

Lemma queue_dequeued t tk s q : queue (dequeued t tk s) q = without t <$> queue s q.
Proof. rewrite <-queue_unlink. by destruct q. Qed.

Lemma wp_sched_queue_pop q core l (Q : Z → sched → Prop) s :
  struct_inv s → queue s q = Some l →
  (pick s core l = None → Q 0 s) →
  (∀ t tk s', pick s core l = Some t → t ∈ l → t ≠ 0 → task_at s !! t = Some tk →
     t_current_queue tk = Some q → t ∈ s_tasks s →
     struct_inv s' → others t s s' → task_at s' !! t = Some (tk <| t_current_queue := None |>) →
     s_timers s' = s_timers s → s' = dequeued t tk s → Q t s') →
  wp (sched_queue_pop q core) Q s.
Proof.
  intros Hs Hl HN HS. unfold sched_queue_pop, pick in *.
  wp_step. apply (wp_get_queue _ l); [done|]. cbn beta.
  destruct (core =? UINT32_MAX).
  - destruct l as [|t l]; [by apply wp_ret, HN|].
    assert (t ∈ t :: l) as Hin by set_solver.
    destruct (si_member _ Hs _ _ _ Hl Hin) as (Ha & tk & Ht & Hcq).
    do 2 wp_step. wp_step. apply (wp_upd_task_raw _ _ tk); [done|]. wp_step.
    pose proof (dequeued_requeued t tk s Hs Ht) as Hr.
    apply (HS t tk); try done.
    + by eapply (member_nonzero s).
    + by apply (requeued_struct t tk _ s _ Hs Hr).
    + exact (dequeued_others t tk s Hs Ht).
    + rsimp. apply lookup_insert_eq.
  - do 2 wp_step. destruct (find (runs_on s core) l) as [t|] eqn:Hf; [|by apply wp_ret, HN].
    assert (t ∈ l) as Hin by (apply find_some in Hf as [? _]; by apply list_elem_of_In).
    destruct (si_member _ Hs _ _ _ Hl Hin) as (Ha & tk & Ht & Hcq).
    wp_step. apply (wp_sched_queue_remove _ tk); [done..|]. intros s' ?????. wp_step.
    apply (HS t tk); try done. by eapply (member_nonzero s).
Qed.

Lemma wp_sched_queue_empty q l (Q : bool → sched → Prop) s :
  queue s q = Some l → Q (bool_decide (l = [])) s → wp (sched_queue_empty q) Q s.
Proof. intros ??. unfold sched_queue_empty. wp_step. by apply (wp_get_queue _ l). Qed.

(** The priority of the first task of a queue; the lowest one is past the end
    of the range, so that an empty queue raises nobody. *)
Definition head_priority (s : sched) (l : list Z) : Z :=
  match l with [] => SCHEDULER_NUM_TASK_PRIORITIES | t :: _ => priority_of s t end.

Lemma wp_highest_priority q l (Q : Z → sched → Prop) s :
  struct_inv s → queue s q = Some l → Q (head_priority s l) s →
  wp (sched_queue_highest_priority q) Q s.
Proof.
  intros Hs Hl HQ. unfold sched_queue_highest_priority.
  wp_step. apply (wp_get_queue _ l); [done|]. cbn beta.
  destruct l as [|t l]; [done|].
  destruct (si_member _ Hs _ _ t Hl) as (_ & tk & Ht & _); [set_solver|].
  wp_step. apply (wp_get_task _ tk); [done|]. apply wp_ret.
  cbn in HQ. by rewrite (priority_of_lookup _ _ tk) in HQ.
Qed.

(** ** Changing a priority *)
Lemma upd_priority_unqueued s t tk p :
  struct_inv s → task_at s !! t = Some tk → t_current_queue tk = None →
  struct_inv (s <| task_at := <[t := tk <| t_current_priority := p |>]> (task_at s) |>) ∧
  others t s (s <| task_at := <[t := tk <| t_current_priority := p |>]> (task_at s) |>).
Proof.
  intros Hs Ht Hcq.
  assert (requeued t (tk <| t_current_priority := p |>) s
    (s <| task_at := <[t := tk <| t_current_priority := p |>]> (task_at s) |>)) as Hr.
  { split; rsimp; try done. intros q l Hl. change (queue s q = Some l) in Hl.
    exists l. destruct (si_queue _ Hs _ _ Hl) as [??].
    assert (t ∉ l) as Hni.
    { intros Hin. destruct (si_member _ Hs _ _ _ Hl Hin) as (_ & ? & ? & ?). simplify_eq. }
    split_and!; [done..| | |].
    - eapply (sorted_by_ext (priority_of s)); [|done]. intros u Hu.
      rewrite (priority_of_update t (tk <| t_current_priority := p |>)) by done.
      rewrite decide_False; [done|]. by intros ->.
    - done.
    - split; [done|]. rewrite Hcq. done. }
  split.
  - apply (requeued_struct t tk _ s _ Hs Hr); try done. rsimp. by rewrite Hcq.
  - apply (requeued_others _ _ _ _ Hr); try done. by rewrite Ht.
Qed.

(** Re-prioritising re-queues a queued task behind its new peers, wherever it
    waits; [repriced] is what the queues look like afterwards. *)
Lemma wp_sched_queue_reprioritize t p tk (Q : unit → sched → Prop) s :
  struct_inv s → task_at s !! t = Some tk →
  (∀ s', struct_inv s' → others t s s' →
     task_at s' !! t = Some (tk <| t_current_priority := p |>) →
     (∀ u, u ≠ t → task_at s' !! u = task_at s !! u) →
     s_timers s' = s_timers s →
     (∀ q l, queue s q = Some l → ∃ l', queue s' q = Some l' ∧ l' ≡ₚ l ∧ without t l' = without t l) →
     Q tt s') →
  wp (sched_queue_reprioritize t p) Q s.
Proof.
  intros Hs Ht HQ. unfold sched_queue_reprioritize.
  wp_step. apply (wp_upd_task_raw _ _ tk); [done|].
  set (s1 := s <| task_at := _ |>).
  assert (task_at s1 !! t = Some (tk <| t_current_priority := p |>)) as Ht1.
  { subst s1. rsimp. apply lookup_insert_eq. }
  wp_step. apply (wp_get_task _ _ _ _ Ht1). cbn beta. rsimp.
  destruct (t_current_queue tk) as [q|] eqn:Hcq.
  2: { destruct (upd_priority_unqueued s t tk p Hs Ht Hcq) as [??]. apply wp_ret, HQ; try done.
       - subst s1. intros u Hu. rsimp. by apply lookup_insert_ne.
       - intros q l Hl. exists l. split_and!; [by destruct q|done|done]. }
  destruct (si_queued _ Hs _ _ _ Ht Hcq) as (l & Hl & Hin).
  destruct (si_member _ Hs _ _ _ Hl Hin) as [Hal _].
  (* writing the priority before or after leaving the queue is the same *)
  set (tk0 := tk <| t_current_queue := None |>).
  assert (wp (sched_queue_remove t) (λ _ s', s' = (dequeued t tk s)
    <| task_at := <[t := tk0 <| t_current_priority := p |>]> (task_at (dequeued t tk s)) |>) s1) as Hrm.
  { unfold sched_queue_remove. wp_step. apply (wp_get_task _ _ _ _ Ht1). do 2 wp_step.
    apply (wp_upd_task_raw _ _ (tk <| t_current_priority := p |>)); [done|].
    subst s1. unfold dequeued, unlink_queue_node. rsimp.
    unfold over. cbn. by rewrite !insert_insert_eq. }
  wp_step. eapply wp_mono; [exact Hrm|]. intros [] s2 ->.
  pose proof (dequeued_requeued t tk s Hs Ht) as Hr.
  assert (struct_inv (dequeued t tk s)) as Hs1 by (by apply (requeued_struct t tk _ s _ Hs Hr)).
  assert (others t s (dequeued t tk s)) as Ho1 by by exact (dequeued_others t tk s Hs Ht).
  assert (task_at (dequeued t tk s) !! t = Some tk0) as Ht0.
  { unfold dequeued. rsimp. apply lookup_insert_eq. }
  destruct (upd_priority_unqueued _ t tk0 p Hs1 Ht0 eq_refl) as [Hs2 Ho2].
  apply (wp_sched_queue_push _ _ (tk0 <| t_current_priority := p |>) (without t l)); try done.
  - rsimp. apply lookup_insert_eq.
  - change (queue (dequeued t tk s) q = Some (without t l)).
    by rewrite queue_dequeued, Hl.
  - intros s' Hs' Ho' Ht' Htm' Hq' Hu'. apply HQ; try done.
    + by eapply others_trans, others_trans.
    + rewrite Ht'. f_equal. subst tk0. unfold over. cbn. destruct tk. cbn in Hcq |- *. by rewrite Hcq.
    + intros u Hu. rewrite (Hu' u Hu). rsimp. rewrite lookup_insert_ne by done.
      unfold dequeued. rsimp. by rewrite lookup_insert_ne by done.
    + intros q' l0 Hl0. rewrite Hq'.
      change (queue ((dequeued t tk s) <| task_at := _ |>) q') with (queue (dequeued t tk s) q').
      rewrite queue_dequeued, Hl0. cbn. case_decide as Hd; eexists; (split; [reflexivity|]).
      * subst q'. simplify_eq. unfold pushed.
        assert (l ≡ₚ t :: without t l) as Hp by (by apply without_perm; [apply (si_queue _ Hs _ _ Hl)|]).
        split; [by rewrite place_perm, <-Hp|].
        rewrite without_place; [done|]. rewrite elem_of_without. naive_solver.
      * assert (without t l0 = l0) as Hw; [|by rewrite !Hw].
        apply without_id. intros Hin'.
        destruct (si_member _ Hs _ _ _ Hl0 Hin') as (_ & ? & ? & ?); simplify_eq.
Qed.

(** ** Timers *)
Definition set_timers (t : Z) (tk' : task) (l : list Z) (s : sched) : sched :=
  let s1 := s <| task_at := <[t := tk']> (task_at s) |> <| s_timers := l |> in
  s1 <| s_timer_expires := closest_expiry s1 |>.

Lemma set_timers_ok t tk e l s :
  struct_inv s → task_at s !! t = Some tk →
  NoDup l → sorted_by (expires_of (set_timers t (tk <| t_timer_expires := e |>) l s)) l →
  (∀ u, u ∈ l → u ∈ s_tasks s) → without t l = without t (s_timers s) →
  struct_inv (set_timers t (tk <| t_timer_expires := e |>) l s) ∧
  others t s (set_timers t (tk <| t_timer_expires := e |>) l s).
Proof.
  intros Hs Ht Hnd Hso Hal Hne. set (s' := set_timers _ _ _ _) in *.
  assert (∀ u, priority_of s' u = priority_of s u) as Hp.
  { intros u. unfold priority_of, s', set_timers. rsimp. rewrite lookup_insert.
    case_decide; [subst; by rewrite Ht|done]. }
  assert (∀ u tku', task_at s' !! u = Some tku' → ∃ tku, task_at s !! u = Some tku ∧
    t_current_queue tku' = t_current_queue tku ∧ t_marker tku' = t_marker tku ∧
    t_owned_futexes tku' = t_owned_futexes tku) as Hb.
  { intros u tku'. unfold s', set_timers. rsimp. rewrite lookup_insert.
    case_decide; [subst; intros [= <-]; by exists tk|intros ?; by exists tku']. }
  assert (∀ u tku, task_at s !! u = Some tku → ∃ tku', task_at s' !! u = Some tku' ∧
    t_current_queue tku' = t_current_queue tku ∧ t_marker tku' = t_marker tku) as Hf.
  { intros u tku Hu. unfold s', set_timers. rsimp. rewrite lookup_insert.
    case_decide; [subst; simplify_eq; eexists; done|by exists tku]. }
  assert (∀ q, queue s' q = queue s q) as Hq by done.
  assert (s_tasks s' = s_tasks s ∧ s_timers s' = l ∧ word_at s' = word_at s ∧ futex_at s' = futex_at s
          ∧ s_timer_expires s' = closest_expiry s') as (E1 & E2 & E3 & E4 & E5) by done.
  assert (others t s s') as Ho.
  { split; try done; intros u; unfold s', set_timers; rsimp; [intros ?; by rewrite lookup_insert_ne|].
    rewrite lookup_insert. case_decide as Hu; [by rewrite <-Hu, Ht|done]. }
  clearbody s'.
  assert (struct_inv s') as Hs'.
  { split; rewrite ?E1, ?E2, ?E3, ?E4, ?E5.
    - destruct (task_at s' !! 0) as [tk'|] eqn:H0; [|done]. destruct (Hb _ _ H0) as (? & H1 & _).
      by rewrite (si_null _ Hs) in H1.
    - apply (si_tasks _ Hs).
    - intros u Hu. destruct (si_alive _ Hs _ Hu) as (tku & Htku & ?).
      destruct (Hf _ _ Htku) as (tku' & ? & _ & ?). exists tku'. split; congruence.
    - intros q l0. rewrite Hq. intros Hl0. destruct (si_queue _ Hs _ _ Hl0) as [? ?].
      split; [done|]. by eapply sorted_by_ext; [|eassumption].
    - intros q l0 u. rewrite Hq. intros Hl0 Hu.
      destruct (si_member _ Hs _ _ _ Hl0 Hu) as (? & tku & Htku & ?). split; [done|].
      destruct (Hf _ _ Htku) as (tku' & ? & ? & _). exists tku'. split; congruence.
    - intros u tku' q Hu Hcq. rewrite Hq. destruct (Hb _ _ Hu) as (tku & ? & ? & _).
      eapply si_queued; [done..|congruence].
    - done.
    - done.
    - intros u tku' f Hu Hin. destruct (Hb _ _ Hu) as (tku & ? & _ & _ & He).
      rewrite He in Hin. by eapply si_owned.
    - apply (si_words _ Hs). }
  done.
Qed.

Lemma set_timers_id t tk l s :
  task_at s !! t = Some tk →
  set_timers t (tk <| t_timer_expires := t_timer_expires tk |>) l s =
  s <| s_timers := l |> <| s_timer_expires := closest_expiry (s <| s_timers := l |>) |>.
Proof.
  intros Ht. unfold set_timers.
  assert (<[t := tk <| t_timer_expires := t_timer_expires tk |>]> (task_at s) = task_at s) as ->.
  { apply insert_id. rewrite Ht. by destruct tk. }
  by destruct s.
Qed.

Lemma wp_scheduler_timer_remove t tk (Q : unit → sched → Prop) s :
  struct_inv s → task_at s !! t = Some tk →
  (∀ s', struct_inv s' → others t s s' → task_at s' = task_at s → (∀ q, queue s' q = queue s q) →
     s_timers s' = without t (s_timers s) → Q tt s') →
  wp (scheduler_timer_remove t) Q s.
Proof.
  intros Hs Ht HQ. unfold scheduler_timer_remove. wp_step.
  apply (wp_get_task _ tk); [done|]. do 3 wp_step. rsimp.
  destruct (si_timers _ Hs) as (Hnd & Hso & _).
  assert (∀ u, expires_of (set_timers t (tk <| t_timer_expires := t_timer_expires tk |>)
    (without t (s_timers s)) s) u = expires_of s u) as He.
  { intros u. rewrite set_timers_id by done. done. }
  destruct (set_timers_ok t tk (t_timer_expires tk) (without t (s_timers s)) s) as [Hs' Ho'];
    try done.
  - by apply NoDup_without.
  - eapply sorted_by_ext; [intros ? _; symmetry; apply He|].
    by eapply sorted_by_sublist; [apply without_sublist|].
  - intros u [_ Hu]%elem_of_without. by apply (si_timer_alive _ Hs).
  - apply without_idemp.
  - rewrite set_timers_id in Hs', Ho' by done. by apply HQ.
Qed.

Lemma wp_scheduler_timer_push t d tk (Q : unit → sched → Prop) s :
  struct_inv s → task_at s !! t = Some tk → t ∈ s_tasks s →
  let e := u32 (scheduler_get_ticks s + d) in
  (∀ s', struct_inv s' → others t s s' → task_at s' !! t = Some (tk <| t_timer_expires := e |>) →
     (∀ u, u ≠ t → task_at s' !! u = task_at s !! u) → (∀ q, queue s' q = queue s q) →
     s_timers s' = place (λ u, e <? expires_of s u) t (without t (s_timers s)) → Q tt s') →
  wp (scheduler_timer_push t d) Q s.
Proof.
  intros Hs Ht Hal e HQ. unfold scheduler_timer_push. wp_step.
  apply (wp_get_task _ tk); [done|]. do 3 wp_step. wp_step. wp_step.
  apply (wp_upd_task_raw _ _ tk); [done|]. do 3 wp_step.
  change (scheduler_get_ticks (s <| s_timers ::= without t |>)) with (scheduler_get_ticks s).
  fold e. rsimp.
  set (s1 := s <| s_timers ::= without t |> <| task_at := _ |>).
  assert (∀ u, expires_of s1 u = if decide (u = t) then e else expires_of s u) as He1.
  { intros u. unfold expires_of, s1. rsimp. rewrite lookup_insert. repeat case_decide; by subst. }
  destruct (si_timers _ Hs) as (Hnd & Hso & _).
  set (l := place (λ u, e <? expires_of s u) t (without t (s_timers s))).
  assert (place (λ u, expires_of s1 t <? expires_of s1 u) t (without t (s_timers s)) = l) as Hl.
  { subst l. rewrite He1, decide_True by done. clear -He1.
    assert (∀ u, u ∈ without t (s_timers s) → expires_of s1 u = expires_of s u) as Hx.
    { intros u [Hu _]%elem_of_without. by rewrite He1, decide_False. }
    revert Hx. induction (without t (s_timers s)) as [|u k IH]; intros Hx; [done|]. cbn.
    rewrite Hx by set_solver. rewrite IH; [done|]. intros; apply Hx; set_solver. }
  assert (∀ u, expires_of (set_timers t (tk <| t_timer_expires := e |>) l s) u = expires_of s1 u) as He2.
  { intros u. unfold expires_of, s1, set_timers. by rsimp. }
  destruct (set_timers_ok t tk e l s) as [Hs' Ho']; try done.
  - subst l. apply NoDup_place; [rewrite elem_of_without; naive_solver|by apply NoDup_without].
  - eapply sorted_by_ext; [intros ? _; symmetry; apply He2|]. rewrite <-Hl.
    apply place_sorted. eapply (sorted_by_ext (expires_of s)).
    + intros u [Hu _]%elem_of_without. by rewrite He1, decide_False.
    + by eapply sorted_by_sublist; [apply without_sublist|].
  - intros u. subst l. rewrite elem_of_place, elem_of_without.
    intros [->|[_ ?]]; [done|]. by apply (si_timer_alive _ Hs).
  - subst l. rewrite without_place; [done|rewrite elem_of_without; tauto].
  - assert (set_timers t (tk <| t_timer_expires := e |>) l s =
      let s2 := s1 <| s_timers ::= place (λ u, expires_of s1 t <? expires_of s1 u) t |> in
      s2 <| s_timer_expires := closest_expiry s2 |>) as Heq.
    { assert (s1 <| s_timers ::= place (λ u, expires_of s1 t <? expires_of s1 u) t |> =
              s <| task_at := <[t := tk <| t_timer_expires := e |>]> (task_at s) |> <| s_timers := l |>) as Hx.
      { rewrite <-Hl. done. }
      cbn zeta. rewrite Hx. done. }
    cbn zeta in Heq. rewrite <-Heq. apply HQ; try done.
    + unfold set_timers. rsimp. apply lookup_insert_eq.
    + intros u Hu. unfold set_timers. rsimp. by apply lookup_insert_ne.
Qed.
