(* ===== verification/SchedulerSafe.v ===== *)
(** * The scheduler: every handler preserves the invariant

    [inv_x X s]: the rings are well formed and, for every live task outside
    [X], its state field agrees with the rings and the cores.  [X] holds the
    tasks a handler is in the middle of moving; [quiescent] is the invariant
    between handlers, with [X] empty and the spin lock released. *)
From S2P Require Import Prelude Scheduler SchedulerSvc SchedulerInv.

Definition current (s : sched) (c : Z) : Z := current_task (cls s c).

(** The task can be resumed from its saved frame. *)
Definition saved (s : sched) (tk : task) : Prop := is_Some (frame_at s !! t_psp tk).

Definition agrees (s : sched) (t : Z) (tk : task) : Prop :=
  match t_state tk with
  | TASK_READY => t_current_queue tk = Some ready_queue ∧ t ∉ s_timers s ∧ saved s tk
  | TASK_BLOCKED => (∃ f, t_current_queue tk = Some (waiters f)) ∧ saved s tk
  | TASK_SUSPENDED => t_current_queue tk = None ∧ saved s tk
  | TASK_RUNNING => t_current_queue tk = None ∧ t ∉ s_timers s ∧ current s (t_core tk) = t
  | TASK_TERMINATED => False
  end ∧
  (∀ c, current s c = t → t_state tk = TASK_RUNNING ∧ t_core tk = c).

Definition consistent (s : sched) (t : Z) : Prop :=
  ∃ tk, task_at s !! t = Some tk ∧ agrees s t tk.

(** Priority inheritance is only ever asked of futexes that track their owner. *)
Definition futex_wf (fx : futex) : Prop :=
  has (f_flags fx) SCHEDULER_FUTEX_PI = true → has (f_flags fx) SCHEDULER_FUTEX_OWNER_TRACKING = true.

(** A deferred wake names a futex without owner tracking or inheritance, as
    [scheduler_futex_wake] checks before it fills a slot. *)
Definition deferred_ok (s : sched) (w : Z) : Prop :=
  w ≠ 0 → ∃ fx, futex_at s !! (Z.land w (not32 1)) = Some fx ∧
    Z.land (f_flags fx) PI_AND_OWNER = 0.

(** The two guard words at the bottom of a checked stack are there. *)
Definition guarded (s : sched) (tk : task) : Prop :=
  has (t_flags tk) SCHEDULER_TASK_STACK_CHECK = true →
  is_Some (word_at s !! t_stack_marker tk) ∧ is_Some (word_at s !! (t_stack_marker tk + 4)).

Record inv_x (X : gset Z) (s : sched) : Prop := {
  ix_struct : struct_inv s;
  ix_consistent t : t ∈ s_tasks s → t ∉ X → consistent s t;
  ix_current c : current s c ≠ 0 → current s c ∈ s_tasks s ∨ current s c ∈ X;
  ix_futex f fx : futex_at s !! f = Some fx → futex_wf fx;
  ix_deferred c w : w ∈ deferred_wake (cls s c) → deferred_ok s w;
  ix_slots c : length (deferred_wake (cls s c)) = SCHEDULER_MAX_DEFERED_WAKE;
  ix_initial c : scheduler_initial_frame (cls s c) ≠ 0 →
    is_Some (frame_at s !! scheduler_initial_frame (cls s c));
  ix_guard t tk : t ∈ s_tasks s → task_at s !! t = Some tk → guarded s tk
}.

Definition quiescent (s : sched) : Prop := inv_x ∅ s ∧ s_spin s = false ∧ s_present s = true.

(** ** Carrying consistency across a step *)
Lemma agrees_mono s s' t tk tk' :
  t_state tk' = t_state tk → t_current_queue tk' = t_current_queue tk →
  t_psp tk' = t_psp tk → t_core tk' = t_core tk →
  (t ∈ s_timers s' → t ∈ s_timers s) → (∀ c, current s' c = current s c) →
  (∀ a, is_Some (frame_at s !! a) → is_Some (frame_at s' !! a)) →
  agrees s t tk → agrees s' t tk'.
Proof.
  intros E1 E2 E3 E4 Ht Hc Hf [H1 H2]. unfold agrees, saved in *.
  rewrite E1, E2, E3, E4. split.
  - destruct (t_state tk); rewrite ?Hc; naive_solver.
  - intros c. rewrite Hc. apply H2.
Qed.

Lemma ot_cls t s s' c : others t s s' → cls s' c = cls s c.
Proof. intros Ho. unfold cls. by rewrite (ot_cpu _ _ _ Ho). Qed.

Lemma ot_current t s s' : others t s s' → ∀ c, current s' c = current s c.
Proof. intros Ho c. unfold current. by rewrite (ot_cls _ _ _ _ Ho). Qed.

Lemma consistent_others s s' t u :
  u ≠ t → others t s s' → consistent s u → consistent s' u.
Proof.
  intros Hu Ho (tk & Htk & Ha). destruct (others_task _ _ _ _ _ Ho Hu Htk) as (tk' & Htk' & Hst).
  exists tk'. split; [done|].
  eapply agrees_mono; [exact (f_equal t_state Hst)|exact (f_equal t_current_queue Hst)
    |exact (f_equal t_psp Hst)|exact (f_equal t_core Hst)| | | |exact Ha].
  - by rewrite (ot_timer _ _ _ u Ho Hu).
  - intros c. unfold current, cls. by rewrite (ot_cpu _ _ _ Ho).
  - intros a. by rewrite (ot_frame _ _ _ Ho).
Qed.

Lemma deferred_others t s s' w : others t s s' → deferred_ok s w → deferred_ok s' w.
Proof.
  intros Ho Hd Hw. destruct (Hd Hw) as (fx & Hfx & Hfl).
  destruct (others_futex _ _ _ _ _ Ho Hfx) as (fx' & ? & Hid). exists fx'. split; [done|].
  unfold futex_id in Hid. congruence.
Qed.

Lemma futex_wf_others t s s' :
  others t s s' → (∀ f fx, futex_at s !! f = Some fx → futex_wf fx) →
  ∀ f fx, futex_at s' !! f = Some fx → futex_wf fx.
Proof.
  intros Ho Hw f fx' Hf. pose proof (ot_futex _ _ _ Ho f) as Hid. rewrite Hf in Hid. cbn in Hid.
  destruct (futex_at s !! f) as [fx|] eqn:Hfx; [|done]. apply (inj Some) in Hid.
  specialize (Hw _ _ Hfx). unfold futex_wf in *.
  by assert (f_flags fx' = f_flags fx) as -> by (unfold futex_id in Hid; congruence).
Qed.

Lemma guarded_id s s' tk tk' :
  task_id tk' = task_id tk → (∀ a, is_Some (word_at s !! a) → is_Some (word_at s' !! a)) →
  guarded s tk → guarded s' tk'.
Proof.
  intros Hid Hw Hg. unfold guarded, task_id in *. injection Hid as -> -> _ _ _ _.
  intros Hc. destruct (Hg Hc). auto.
Qed.

Lemma guarded_others t s s' u tk' :
  (∀ tk, task_at s !! u = Some tk → guarded s tk) → others t s s' →
  task_at s' !! u = Some tk' → guarded s' tk'.
Proof.
  intros Hg Ho Hu. pose proof (ot_id _ _ _ Ho u) as Hid. rewrite Hu in Hid.
  destruct (task_at s !! u) as [tk|] eqn:Ht; [|done]. cbn in Hid.
  apply (guarded_id s s' tk tk'); [congruence|intros a; by rewrite (ot_word _ _ _ Ho)|by apply Hg].
Qed.

Lemma inv_others X t s s' :
  inv_x X s → struct_inv s' → others t s s' → inv_x ({[t]} ∪ X) s'.
Proof.
  intros Hi Hs Ho.
  assert (∀ c, cls s' c = cls s c) as Hc by (intros; unfold cls; by rewrite (ot_cpu _ _ _ Ho)).
  assert (∀ c, current s' c = current s c) as Hcur by (intros; unfold current; by rewrite Hc).
  split; [done|..].
  - intros u Hu Hx. rewrite (ot_tasks _ _ _ Ho) in Hu.
    apply (consistent_others s _ t); [set_solver|done|]. apply (ix_consistent _ _ Hi); set_solver.
  - intros c. rewrite Hcur, (ot_tasks _ _ _ Ho). intros H.
    destruct (ix_current _ _ Hi c H); set_solver.
  - by apply (futex_wf_others _ _ _ Ho), (ix_futex _ _ Hi).
  - intros c w. rewrite Hc. intros Hw. by eapply deferred_others, (ix_deferred _ _ Hi).
  - intros c. rewrite Hc. apply (ix_slots _ _ Hi).
  - intros c. rewrite Hc, (ot_frame _ _ _ Ho). apply (ix_initial _ _ Hi).
  - intros u tk'. rewrite (ot_tasks _ _ _ Ho). intros Hu.
    apply (guarded_others t s s' u); [|done]. intros tk. by apply (ix_guard _ _ Hi).
Qed.

(** Tasks leave the exempt set when they are consistent (or dead) again. *)
Lemma inv_restore X Y s :
  inv_x X s → (∀ t, t ∈ X → t ∉ Y → t ∈ s_tasks s → consistent s t) →
  (∀ c, current s c ≠ 0 → current s c ∈ X → current s c ∈ s_tasks s ∨ current s c ∈ Y) →
  inv_x Y s.
Proof.
  intros Hi HX Hc. destruct Hi as [? Hco Hcu ?????]. split; try done.
  - intros t Ht HY. destruct (decide (t ∈ X)); eauto.
  - intros c H. destruct (Hcu c H); auto.
Qed.

Lemma inv_restore_live X t s :
  inv_x ({[t]} ∪ X) s → t ∈ s_tasks s → consistent s t → inv_x X s.
Proof.
  intros Hi Ht Hc. apply (inv_restore ({[t]} ∪ X)); [done| |].
  - intros u Hu Hn _. assert (u = t) as -> by set_solver. done.
  - intros c _ Hu. destruct (decide (current s c ∈ X)) as [|Hn]; [by right|left].
    by assert (current s c = t) as -> by set_solver.
Qed.

Lemma inv_weaken X Y s : inv_x X s → X ⊆ Y → inv_x Y s.
Proof.
  intros Hi HXY. apply (inv_restore X); [done| |].
  - intros t Hx Hy. set_solver.
  - intros c _ Hx. right. set_solver.
Qed.

(** *** Steps on the cores only *)
Record cpu_step (s s' : sched) : Prop := {
  cs_rest : s' = s <| cpu_at := cpu_at s' |>;
  cs_deferred c : deferred_wake (cls s' c) = deferred_wake (cls s c);
  cs_initial c : scheduler_initial_frame (cls s' c) = scheduler_initial_frame (cls s c);
  cs_ipsr c : ipsr (cls s' c) = ipsr (cls s c)
}.

Lemma struct_cpu s s' : s' = s <| cpu_at := cpu_at s' |> → struct_inv s → struct_inv s'.
Proof. intros -> [? ? ? ? ? ? ? ? ? ?]. by split. Qed.

Lemma inv_cpu X s s' :
  inv_x X s → cpu_step s s' → (∀ c, current s' c = current s c) → inv_x X s'.
Proof.
  intros Hi [Hr Hd Hin Hip] Hc. split.
  - by eapply struct_cpu, (ix_struct _ _ Hi).
  - intros t. rewrite Hr at 1. intros Ht HX.
    destruct (ix_consistent _ _ Hi t Ht HX) as (tk & Htk & Ha). exists tk. rewrite Hr at 1.
    split; [done|]. eapply agrees_mono; [done..| | | |exact Ha]; [by rewrite Hr|done|by rewrite Hr].
  - intros c. rewrite Hc. rewrite Hr at 1. apply (ix_current _ _ Hi).
  - rewrite Hr. apply (ix_futex _ _ Hi).
  - intros c w. rewrite Hd. intros Hw. unfold deferred_ok. rewrite Hr. by apply (ix_deferred _ _ Hi c).
  - intros c. rewrite Hd. apply (ix_slots _ _ Hi).
  - intros c. rewrite Hin. rewrite Hr at 1. apply (ix_initial _ _ Hi).
  - rewrite Hr. apply (ix_guard _ _ Hi).
Qed.

Lemma cls_upd s c core g :
  cls (s <| cpu_at := <[core := g]> (cpu_at s) |>) c = if decide (c = core) then g else cls s c.
Proof. unfold cls. rsimp. rewrite lookup_insert. repeat case_decide; by subst. Qed.

Lemma wp_request_switch core (Q : unit → sched → Prop) s :
  (∀ s', cpu_step s s' → (∀ c, current s' c = current s c) →
     (core ≠ UINT32_MAX → pendsv (cls s' core) = true) → Q tt s') →
  wp (scheduler_request_switch core) Q s.
Proof.
  intros HQ. unfold scheduler_request_switch. wp_step.
  - unfold upd_cls. wp_step. apply HQ; [split; [done|..]| |]; try intros c; unfold current;
      rewrite cls_upd; case_decide; subst; done.
  - apply HQ; [split; [by destruct s|done..]|done|]. intros ?. lia.
Qed.

Lemma wp_sched_set_current core u (Q : Z → sched → Prop) s :
  struct_inv s → (u = 0 ∨ u ∈ s_tasks s) →
  (∀ s', cpu_step s s' → (∀ c, current s' c = if decide (c = core) then u else current s c) →
     Q (current s core) s') →
  wp (sched_set_current core u) Q s.
Proof.
  intros Hs Hu HQ. unfold sched_set_current, scheduler_switch_hook.
  assert (u ≠ 0 → ∃ tk, task_at s !! u = Some tk ∧ t_marker tk = SCHEDULER_TASK_MARKER) as Hal.
  { intros Hz. destruct Hu as [|Hu]; [done|]. by apply (si_alive _ Hs). }
  assert (wp (when (negb (u =? 0)) (marked_task u)) (λ _ s', s' = s) s) as Hm.
  { wp_step; [|done]. destruct Hal as (tk & Htk & Hmk); [lia|]. unfold marked_task.
    wp_step. apply (wp_get_task _ tk); [done|]. wp_step; [by rewrite Hmk|done]. }
  assert (∀ g, wp (upd_cls core (λ c, c <| tls_pointer := g |>)) (λ _ s',
    cpu_step s s' ∧ (∀ c, current s' c = if decide (c = core) then u else current s c))
    (s <| cpu_at := <[core := (cls s core) <| current_task := u |>]> (cpu_at s) |>)) as Hh.
  { intros g. unfold upd_cls. apply wp_upd.
    rewrite cls_upd, decide_True by done.
    match goal with |- cpu_step _ ?x ∧ _ => assert (x = s <| cpu_at :=
      <[core := (cls s core) <| current_task := u |> <| tls_pointer := g |>]> (cpu_at s) |>) as -> end.
    { unfold over. cbn. by rewrite insert_insert_eq. }
    split; [split; [done|..]|]; intros c; unfold current; rewrite cls_upd; case_decide; subst; done. }
  wp_step. eapply wp_mono; [exact Hm|]. intros [] s1 ->.
  do 3 wp_step. apply wp_upd. wp_step. destruct (u =? 0) eqn:Hz.
  - eapply wp_mono; [apply Hh|]. intros [] s' [? ?]. apply wp_ret. by apply HQ.
  - destruct Hal as (tk & Htk & _); [lia|]. wp_step. apply (wp_get_task _ tk); [done|].
    eapply wp_mono; [apply Hh|]. intros [] s' [? ?]. apply wp_ret. by apply HQ.
Qed.

Lemma inv_cpu_set X core u s s' :
  inv_x X s → cpu_step s s' →
  (∀ c, current s' c = if decide (c = core) then u else current s c) →
  (u = 0 ∨ u ∈ s_tasks s) → inv_x ({[current s core]} ∪ ({[u]} ∪ X)) s'.
Proof.
  intros Hi [Hr Hd Hin Hip] Hc Hu. split.
  - by eapply struct_cpu, (ix_struct _ _ Hi).
  - intros t. rewrite Hr at 1. intros Ht HX.
    assert (t ≠ current s core ∧ t ≠ u ∧ t ∉ X) as (Hn1 & Hn2 & HnX) by set_solver.
    destruct (ix_consistent _ _ Hi t Ht HnX) as (tk & Htk & [Ha1 Ha2]). exists tk. rewrite Hr at 1.
    split; [done|]. split.
    + rewrite Hr. unfold saved in *. rsimp. rewrite <-Hr.
      destruct (t_state tk); try done. destruct Ha1 as (? & ? & Hcur). split_and!; try done.
      rewrite Hc. case_decide as Heq; [|done]. by rewrite Heq in Hcur.
    + intros c. rewrite Hc. case_decide; [by intros ->|]. apply Ha2.
  - intros c. rewrite Hc. rewrite Hr at 1. change (s_tasks (s <| cpu_at := cpu_at s' |>)) with (s_tasks s).
    case_decide.
    + intros Hz. left. by destruct Hu.
    + intros Hz. destruct (ix_current _ _ Hi c Hz); set_solver.
  - rewrite Hr. apply (ix_futex _ _ Hi).
  - intros c w. rewrite Hd. intros Hw. unfold deferred_ok. rewrite Hr. by apply (ix_deferred _ _ Hi c).
  - intros c. rewrite Hd. apply (ix_slots _ _ Hi).
  - intros c. rewrite Hin. rewrite Hr at 1. apply (ix_initial _ _ Hi).
  - rewrite Hr. apply (ix_guard _ _ Hi).
Qed.

Lemma struct_frames s m : struct_inv s → struct_inv (s <| frame_at := m |>).
Proof. intros [? ? ? ? ? ? ? ? ? ?]. by split. Qed.

(** ** Rules that keep [inv_x] *)
Lemma inv_frames X s m :
  inv_x X s → (∀ a, is_Some (frame_at s !! a) → is_Some (m !! a)) →
  inv_x X (s <| frame_at := m |>).
Proof.
  intros Hi Hm. split; try apply Hi.
  - by apply struct_frames, Hi.
  - intros t Ht HX. destruct (ix_consistent _ _ Hi t Ht HX) as (tk & Htk & Ha).
    exists tk. split; [done|]. eapply agrees_mono; [done..| | | |exact Ha]; done.
  - intros c Hc. rsimp. by apply Hm, (ix_initial _ _ Hi).
Qed.

Lemma inv_spin X s b : inv_x X s → inv_x X (s <| s_spin := b |>).
Proof. intros [[]]. by split; [split|..]. Qed.

Lemma wp_spin_lock (Q : unit → sched → Prop) s :
  s_spin s = false → Q tt (s <| s_spin := true |>) → wp scheduler_spin_lock Q s.
Proof. intros Hf HQ. unfold scheduler_spin_lock. do 2 wp_step. by rewrite Hf. Qed.

Lemma wp_upd_frame a g fr (Q : unit → sched → Prop) s :
  frame_at s !! a = Some fr → Q tt (s <| frame_at := <[a := g fr]> (frame_at s) |>) →
  wp (upd_frame a g) Q s.
Proof. intros Hf HQ. unfold upd_frame. wp_step. by apply (wp_get_frame _ fr). Qed.

Lemma frames_insert (m : gmap Z frame) a fr b : is_Some (m !! b) → is_Some (<[a := fr]> m !! b).
Proof. rewrite lookup_insert. by case_decide. Qed.

Lemma wp_marked t tk (Q : unit → sched → Prop) s :
  task_at s !! t = Some tk → t_marker tk = SCHEDULER_TASK_MARKER → Q tt s → wp (marked_task t) Q s.
Proof.
  intros Ht Hm HQ. unfold marked_task. wp_step. apply (wp_get_task _ tk); [done|].
  wp_step; [by rewrite Hm|done].
Qed.

Lemma wp_marked_alive t (Q : unit → sched → Prop) s :
  struct_inv s → t ∈ s_tasks s → Q tt s → wp (marked_task t) Q s.
Proof. intros Hs Ht. destruct (si_alive _ Hs _ Ht) as (tk & ? & ?). by apply (wp_marked _ tk). Qed.

Lemma wp_get_current core X (Q : Z → sched → Prop) s :
  inv_x X s → (current s core ≠ 0 → current s core ∈ s_tasks s) →
  Q (current s core) s → wp (sched_get_current core) Q s.
Proof.
  intros Hi Hc HQ. unfold sched_get_current. do 2 wp_step. wp_step. wp_step.
  - apply wp_marked_alive; [apply Hi|apply Hc; unfold current; lia|done].
  - done.
Qed.

(** The liveness test of the handlers: writes its result to the caller's [r0]. *)
Definition answered (a v : Z) (fr : frame) (s : sched) : sched :=
  s <| frame_at := <[a := fr <| r0 := v |>]> (frame_at s) |>.

Lemma wp_alive t a fr (Q : bool → sched → Prop) s :
  frame_at s !! a = Some fr →
  (t ∈ s_tasks s → t ≠ 0 → Q true (answered a 0 fr s)) →
  ((t = 0 ∨ t ∉ s_tasks s) → Q false (answered a (u32 (- ESRCH)) fr s)) →
  wp (alive t a) Q s.
Proof.
  intros Hf HT HF. unfold alive, scheduler_task_alive. do 4 wp_step. cbn beta.
  destruct (decide (t ∈ s_tasks s ∧ t ≠ 0)) as [[Hin Hz]|Hn].
  - rewrite bool_decide_true by done. replace (negb (t =? 0)) with true by lia. cbn [andb].
    wp_step. apply (wp_upd_frame _ _ fr); [done|]. wp_step. by apply HT.
  - replace (negb (t =? 0) && bool_decide (t ∈ s_tasks s)) with false.
    2: { destruct (t =? 0) eqn:Hz; [done|]. rewrite bool_decide_false; [done|]. intros ?. apply Hn. split; [done|lia]. }
    wp_step. apply (wp_upd_frame _ _ fr); [done|]. wp_step. apply HF.
    destruct (decide (t ∈ s_tasks s)); [left|by right]. apply dec_stable. naive_solver.
Qed.

Lemma wp_alive_live X t a fr (Q : bool → sched → Prop) s :
  inv_x X s → frame_at s !! a = Some fr → t ∈ s_tasks s → Q true (answered a 0 fr s) →
  wp (alive t a) Q s.
Proof.
  intros Hi Hf Ht HQ. apply (wp_alive _ _ fr); [done|done|]. intros [->|Hn]; [|by destruct Hn].
  destruct (si_alive _ (ix_struct _ _ Hi) _ Ht) as (? & Hz & _).
  by rewrite (si_null _ (ix_struct _ _ Hi)) in Hz.
Qed.

Lemma wp_alive_dead t a fr (Q : bool → sched → Prop) s :
  frame_at s !! a = Some fr → t ∉ s_tasks s → Q false (answered a (u32 (- ESRCH)) fr s) →
  wp (alive t a) Q s.
Proof. intros Hf Ht HQ. by apply (wp_alive _ _ fr). Qed.

Lemma inv_answered X s a v fr : inv_x X s → inv_x X (answered a v fr s).
Proof. intros Hi. apply inv_frames; [done|]. intros b. apply frames_insert. Qed.

Lemma cpu_step_rest s s' :
  cpu_step s s' → task_at s' = task_at s ∧ futex_at s' = futex_at s ∧ frame_at s' = frame_at s ∧
  word_at s' = word_at s ∧ s_tasks s' = s_tasks s ∧ s_timers s' = s_timers s ∧
  s_ready s' = s_ready s ∧ s_spin s' = s_spin s ∧ s_present s' = s_present s.
Proof. intros [-> _ _ _]. done. Qed.

Lemma cpu_step_trans s1 s2 s3 : cpu_step s1 s2 → cpu_step s2 s3 → cpu_step s1 s3.
Proof.
  intros [E1 D1 I1 P1] [E2 D2 I2 P2]. split.
  - rewrite E2. rewrite E1 at 1. done.
  - intros c. by rewrite D2.
  - intros c. by rewrite I2.
  - intros c. by rewrite P2.
Qed.

Lemma inv_drop_null X s : inv_x ({[0]} ∪ X) s → inv_x X s.
Proof.
  intros Hi. apply (inv_restore ({[0]} ∪ X)); [done| |].
  - intros t Ht Hn Hal. assert (t = 0) as -> by set_solver.
    destruct (si_alive _ (ix_struct _ _ Hi) _ Hal) as (tk & Hz & _).
    by rewrite (si_null _ (ix_struct _ _ Hi)) in Hz.
  - intros c Hc HX. right. set_solver.
Qed.


(** ** Rules for tasks that are being moved

    [calm]: what no primitive on the rings touches. *)
Record calm (s s' : sched) : Prop := {
  cm_tasks : s_tasks s' = s_tasks s;
  cm_cpu : cpu_at s' = cpu_at s;
  cm_frame a : is_Some (frame_at s !! a) → is_Some (frame_at s' !! a);
  cm_word a : is_Some (word_at s !! a) → is_Some (word_at s' !! a);
  cm_futex f : futex_id <$> futex_at s' !! f = futex_id <$> futex_at s !! f;
  cm_id t : task_id <$> task_at s' !! t = task_id <$> task_at s !! t;
  cm_spin : s_spin s' = s_spin s;
  cm_present : s_present s' = s_present s;
  cm_running : s_running s' = s_running s;
  cm_locked : s_locked s' = s_locked s
}.

Lemma others_calm t s s' : others t s s' → calm s s'.
Proof. intros []. split; try done; congruence. Qed.

Lemma calm_refl s : calm s s.
Proof. by split. Qed.

Lemma calm_trans s1 s2 s3 : calm s1 s2 → calm s2 s3 → calm s1 s3.
Proof. intros [] []. split; try congruence; auto. Qed.

Lemma calm_current s s' c : calm s s' → current s' c = current s c.
Proof. intros Hm. unfold current, cls. by rewrite (cm_cpu _ _ Hm). Qed.

Lemma calm_ticks s s' : calm s s' → scheduler_get_ticks s' = scheduler_get_ticks s.
Proof. intros Hm. unfold scheduler_get_ticks, cls. by rewrite (cm_cpu _ _ Hm). Qed.

Lemma calm_queue s s' q : calm s s' → is_Some (queue s q) → is_Some (queue s' q).
Proof.
  intros Hm. destruct q as [|f]; cbn [queue]; [done|].
  rewrite !fmap_is_Some, <-!(fmap_is_Some futex_id (futex_at _ !! f)). by rewrite (cm_futex _ _ Hm).
Qed.

(** The entry of [t] up to the futexes it owns, and whether its timer is armed. *)
Definition holds (s : sched) (t : Z) (tk : task) (armed : bool) : Prop :=
  (∃ o, task_at s !! t = Some (tk <| t_owned_futexes := o |>)) ∧ (t ∈ s_timers s ↔ armed = true).

(** The tasks of [X] are out of consistency since [s0]. *)
Record held (X : gset Z) (s0 s : sched) : Prop := {
  hd_inv : inv_x X s;
  hd_calm : calm s0 s
}.

Lemma held_open X s : inv_x ∅ s → held X s s.
Proof. intros Hi. split; [|apply calm_refl]. eapply inv_weaken; [done|]. set_solver. Qed.

Lemma holds_open s t tk : task_at s !! t = Some tk → holds s t tk (bool_decide (t ∈ s_timers s)).
Proof.
  intros Ht. split; [|by rewrite bool_decide_eq_true]. exists (t_owned_futexes tk).
  rewrite Ht. by destruct tk.
Qed.

Lemma holds_others t s s' u tk b :
  others t s s' → u ≠ t → holds s u tk b → holds s' u tk b.
Proof.
  intros Ho Hu [[o Ht] Hb]. split; [|by rewrite (ot_timer _ _ _ u Ho Hu)].
  destruct (others_task _ _ _ _ _ Ho Hu Ht) as (tk' & Ht' & Hs).
  exists (t_owned_futexes tk'). rewrite Ht'. f_equal.
  assert (tk' = (strip tk') <| t_owned_futexes := t_owned_futexes tk' |>) as E by (by destruct tk').
  rewrite Hs in E. exact E.
Qed.

Definition owned_blind (g : task → task) : Prop :=
  ∀ tk o, g (tk <| t_owned_futexes := o |>) = (g tk) <| t_owned_futexes := o |>.

Section held_rules.
Context (X : gset Z) (s0 s : sched) (t : Z) (tk : task) (b : bool).
Hypothesis (Hd : held X s0 s) (HX : t ∈ X) (Ht : holds s t tk b).

Lemma held_step tk' b' s' :
  struct_inv s' → others t s s' → task_at s' !! t = Some tk' → (t ∈ s_timers s' ↔ b' = true) →
  held X s0 s' ∧ ∀ tk1 o, tk' = tk1 <| t_owned_futexes := o |> → holds s' t tk1 b'.
Proof.
  intros Hs Ho Ht' Hb. split; [split|].
  - eapply inv_weaken; [eapply inv_others; [apply Hd|done..]|]. set_solver.
  - eapply calm_trans; [apply Hd|by eapply others_calm].
  - intros tk1 o ->. split; [by exists o|done].
Qed.

Lemma held_queue_remove (Q : unit → sched → Prop) :
  (∀ s', held X s0 s' → holds s' t (tk <| t_current_queue := None |>) b → others t s s' → Q tt s') →
  wp (sched_queue_remove t) Q s.
Proof.
  intros HQ. destruct Ht as [[o Hto] Hb].
  apply (wp_sched_queue_remove _ _ _ _ (ix_struct _ _ (hd_inv _ _ _ Hd)) Hto).
  intros s' Hs Ho Ht' Htm _. edestruct held_step as [Hd' Hh]; [done..| |].
  { rewrite Htm. exact Hb. }
  apply HQ; [done| |done]. by apply (Hh _ o).
Qed.

Lemma held_queue_push q (Q : unit → sched → Prop) :
  t_current_queue tk = None → t ∈ s_tasks s0 → is_Some (queue s0 q) →
  (∀ s', held X s0 s' → holds s' t (tk <| t_current_queue := Some q |>) b → others t s s' → Q tt s') →
  wp (sched_queue_push q t) Q s.
Proof.
  intros Hcq Ha Hq HQ. destruct Ht as [[o Hto] Hb].
  apply (calm_queue _ s) in Hq as [l Hl]; [|apply Hd].
  assert (t ∈ s_tasks s) as Hal by (by rewrite (cm_tasks _ _ (hd_calm _ _ _ Hd))).
  apply (wp_sched_queue_push q t _ l _ _ (ix_struct _ _ (hd_inv _ _ _ Hd)) Hto Hcq Hal Hl).
  intros s' Hs Ho Ht' Htm _ _. edestruct held_step as [Hd' Hh]; [done..| |].
  { rewrite Htm. exact Hb. }
  apply HQ; [done| |done]. by apply (Hh _ o).
Qed.

Lemma held_timer_remove (Q : unit → sched → Prop) :
  (∀ s', held X s0 s' → holds s' t tk false → others t s s' → Q tt s') →
  wp (scheduler_timer_remove t) Q s.
Proof.
  intros HQ. destruct Ht as [[o Hto] Hb].
  apply (wp_scheduler_timer_remove _ _ _ _ (ix_struct _ _ (hd_inv _ _ _ Hd)) Hto).
  intros s' Hs Ho Ht' _ Htm. edestruct (held_step (tk <| t_owned_futexes := o |>) false) as [Hd' Hh]; [done..| | |].
  { by rewrite Ht'. }
  { rewrite Htm, elem_of_without. naive_solver. }
  apply HQ; [done| |done]. by apply (Hh _ o).
Qed.

(** [if (ticks < SCHEDULER_WAIT_FOREVER) scheduler_timer_push(task, ticks);] *)
Definition armed_for (d : Z) : task :=
  if d <? SCHEDULER_WAIT_FOREVER
  then tk <| t_timer_expires := u32 (scheduler_get_ticks s0 + d) |> else tk.

Lemma held_timer_arm d (Q : unit → sched → Prop) :
  t ∈ s_tasks s0 →
  (∀ s', held X s0 s' → holds s' t (armed_for d) ((d <? SCHEDULER_WAIT_FOREVER) || b) →
     others t s s' → Q tt s') →
  wp (when (d <? SCHEDULER_WAIT_FOREVER) (scheduler_timer_push t d)) Q s.
Proof.
  intros Ha HQ. unfold armed_for in HQ.
  destruct (d <? SCHEDULER_WAIT_FOREVER); [|by apply (HQ s Hd), others_refl].
  destruct Ht as [[o Hto] Hb].
  assert (t ∈ s_tasks s) as Hal by (by rewrite (cm_tasks _ _ (hd_calm _ _ _ Hd))).
  rewrite <-(calm_ticks _ _ (hd_calm _ _ _ Hd)) in HQ.
  apply (wp_scheduler_timer_push _ _ _ _ _ (ix_struct _ _ (hd_inv _ _ _ Hd)) Hto Hal).
  intros s' Hs Ho Ht' _ _ Htm. edestruct held_step as [Hd' Hh]; [done..| |].
  { rewrite Htm, elem_of_place. split; [intros _; reflexivity|by left]. }
  apply HQ; [done| |done]. by apply (Hh _ o).
Qed.

Lemma held_upd_task g (Q : unit → sched → Prop) :
  quiet g → owned_blind g →
  (∀ s', held X s0 s' → holds s' t (g tk) b → others t s s' → Q tt s') →
  wp (upd_task t g) Q s.
Proof.
  intros Hg Hbl HQ. destruct Ht as [[o Hto] Hb].
  apply (wp_upd_task_quiet _ _ _ _ _ (ix_struct _ _ (hd_inv _ _ _ Hd)) Hg Hto).
  intros s' Hs Ho Ht' Htm. edestruct held_step as [Hd' Hh]; [done..| |].
  { rewrite Htm. exact Hb. }
  apply HQ; [done| |done]. apply (Hh _ o). apply Hbl.
Qed.

Lemma held_reprioritize p (Q : unit → sched → Prop) :
  (∀ s', held X s0 s' → holds s' t (tk <| t_current_priority := p |>) b → others t s s' → Q tt s') →
  wp (sched_queue_reprioritize t p) Q s.
Proof.
  intros HQ. destruct Ht as [[o Hto] Hb].
  apply (wp_sched_queue_reprioritize _ _ _ _ _ (ix_struct _ _ (hd_inv _ _ _ Hd)) Hto).
  intros s' Hs Ho Ht' _ Htm _. edestruct held_step as [Hd' Hh]; [done..| |].
  { rewrite Htm. exact Hb. }
  apply HQ; [done| |done]. by apply (Hh _ o).
Qed.

Lemma held_get_task (Q : task → sched → Prop) :
  (∀ o, Q (tk <| t_owned_futexes := o |>) s) → wp (get_task t) Q s.
Proof. intros HQ. destruct Ht as [[o Hto] Hb]. by eapply wp_get_task. Qed.
End held_rules.

(** Frames and words are not part of any ring. *)
Lemma held_upd_frame X s0 s a g (Q : unit → sched → Prop) :
  held X s0 s → is_Some (frame_at s0 !! a) →
  (∀ s' fr, held X s0 s' → (∀ t tk b, holds s t tk b → holds s' t tk b) →
     frame_at s !! a = Some fr → s' = s <| frame_at := <[a := g fr]> (frame_at s) |> → Q tt s') →
  wp (upd_frame a g) Q s.
Proof.
  intros Hd Ha HQ. apply (cm_frame _ _ (hd_calm _ _ _ Hd)) in Ha as [fr Hfr].
  apply (wp_upd_frame _ _ fr); [done|].
  assert (∀ b, is_Some (frame_at s !! b) → is_Some (<[a := g fr]> (frame_at s) !! b)) as Hm.
  { intros. by apply frames_insert. }
  apply (HQ _ fr); try done.
  split; [apply inv_frames; [apply Hd|done]|]. eapply calm_trans; [apply Hd|]. by split.
Qed.

Lemma inv_words X s m :
  inv_x X s → (∀ a, is_Some (word_at s !! a) → is_Some (m !! a)) → inv_x X (s <| word_at := m |>).
Proof.
  intros Hi Hm. split; try apply Hi.
  - destruct (ix_struct _ _ Hi). split; try done. intros. eapply Hm. eauto.
  - intros t tk Ht Htk. apply (guarded_id s (s <| word_at := m |>) tk tk); [done|rsimp; exact Hm|].
    by apply (ix_guard _ _ Hi t).
Qed.

Lemma held_set_word X s0 s a v (Q : unit → sched → Prop) :
  held X s0 s → is_Some (word_at s !! a) →
  (∀ s', held X s0 s' → (∀ t tk b, holds s t tk b → holds s' t tk b) →
     s' = s <| word_at := <[a := v]> (word_at s) |> → Q tt s') →
  wp (set_word a v) Q s.
Proof.
  intros Hd [w Hw] HQ.
  unfold set_word, get_word. wp_step. apply (wp_get_opt _ _ _ _ w); [done|]. wp_step.
  assert (∀ b, is_Some (word_at s !! b) → is_Some (<[a := v]> (word_at s) !! b)) as Hm.
  { intros b. rewrite lookup_insert. by case_decide. }
  apply HQ; try done.
  split; [apply inv_words; [apply Hd|done]|]. eapply calm_trans; [apply Hd|]. by split.
Qed.

(** Run a rule on one task and carry what is known of the others along. *)
Ltac carry :=
  match goal with
  | Ho : others ?t ?s ?s', H : holds ?s ?u _ _ |- _ =>
      first [ eapply holds_others in H; [|exact Ho|solve [done|congruence]] | clear H ]
  end.
Tactic Notation "hstep" uconstr(rule) :=
  eapply rule; [eassumption|try set_solver|eassumption|try done..|];
  let s' := fresh "s" in let Hd := fresh "Hd" in let Hh := fresh "Hh" in let Ho := fresh "Ho" in
  intros s' Hd Hh Ho;
  repeat carry;
  repeat match goal with H : held _ _ ?s1, H' : held _ _ ?s2 |- _ =>
    constr_eq H' Hd; clear H end.
Tactic Notation "hstep" uconstr(rule) "as" ident(N) :=
  eapply rule; [eassumption|try set_solver|eassumption|try done..|];
  let s' := fresh "s" in let Hd := fresh "Hd" in let Hh := fresh "Hh" in let Ho := fresh "Ho" in
  intros s' Hd Hh Ho;
  repeat carry;
  repeat match goal with H : held _ _ ?s1, H' : held _ _ ?s2 |- _ =>
    constr_eq H' Hd; clear H end;
  rename Hh into N.

(** ** Settling tasks again *)

(** The states of a task that is on no core. *)
Definition parked (tk : task) (armed : bool) : Prop :=
  match t_state tk with
  | TASK_READY => t_current_queue tk = Some ready_queue ∧ armed = false
  | TASK_BLOCKED => ∃ f, t_current_queue tk = Some (waiters f)
  | TASK_SUSPENDED => t_current_queue tk = None
  | _ => False
  end.

Lemma holds_task s t tk b : holds s t tk b → ∃ tk', task_at s !! t = Some tk' ∧
  t_state tk' = t_state tk ∧ t_current_queue tk' = t_current_queue tk ∧ t_psp tk' = t_psp tk ∧
  t_core tk' = t_core tk ∧ t_timer_expires tk' = t_timer_expires tk ∧
  t_current_priority tk' = t_current_priority tk ∧ t_base_priority tk' = t_base_priority tk.
Proof. intros [[o Ho] _]. eexists. split; [exact Ho|]. by rsimp. Qed.

Lemma holds_parked s t tk b :
  holds s t tk b → parked tk b → is_Some (frame_at s !! t_psp tk) → (∀ c, current s c ≠ t) →
  consistent s t.
Proof.
  intros [[o Ho] Hb] Hp Hf Hc. eexists. split; [exact Ho|].
  split; [|by intros c ?%Hc]. unfold parked, saved in *. rsimp.
  destruct (t_state tk); try naive_solver.
Qed.

Lemma holds_agrees s s' t tk tk' :
  agrees s t tk → holds s' t tk' (bool_decide (t ∈ s_timers s)) →
  t_state tk' = t_state tk → t_current_queue tk' = t_current_queue tk →
  t_psp tk' = t_psp tk → t_core tk' = t_core tk →
  (∀ c, current s' c = current s c) →
  (∀ a, is_Some (frame_at s !! a) → is_Some (frame_at s' !! a)) → consistent s' t.
Proof.
  intros Ha [[o Ho] Hb] E1 E2 E3 E4 Hc Hf. eexists. split; [exact Ho|].
  eapply agrees_mono; [exact E1|exact E2|exact E3|exact E4| |exact Hc|exact Hf|exact Ha].
  rewrite Hb, bool_decide_eq_true. done.
Qed.

Lemma consistent_parked s t tk :
  consistent s t → task_at s !! t = Some tk → (∀ c, current s c ≠ t) →
  parked tk (bool_decide (t ∈ s_timers s)) ∧ is_Some (frame_at s !! t_psp tk).
Proof.
  intros (tk' & ? & Ha & _) ? Hc. simplify_eq. unfold parked, saved in *.
  destruct (t_state tk'); rewrite ?bool_decide_eq_false; naive_solver.
Qed.

Lemma wp_unlock X (Q : unit → sched → Prop) s :
  inv_x X s → (inv_x X (s <| s_spin := false |>) → Q tt (s <| s_spin := false |>)) →
  wp scheduler_spin_unlock Q s.
Proof. intros Hi HQ. unfold scheduler_spin_unlock. wp_step. by apply HQ, inv_spin. Qed.

(** ** Taking the caller off its core *)
Definition switch_pending (core : Z) (s : sched) : Prop :=
  core ≠ UINT32_MAX → pendsv (cls s core) = true.

(** The state a handler leaves: the lock is free, a context switch is pending on
    its core, and [cur] is the current task of that core. *)
Record released (core cur : Z) (s0 s : sched) : Prop := {
  rl_current c : current s c = if decide (c = core) then cur else current s0 c;
  rl_pend : switch_pending core s;
  rl_tasks : s_tasks s = s_tasks s0;
  rl_frame a : is_Some (frame_at s0 !! a) → is_Some (frame_at s !! a);
  rl_spin : s_spin s = false;
  rl_present : s_present s = s_present s0;
  rl_futex f : futex_id <$> futex_at s !! f = futex_id <$> futex_at s0 !! f;
  rl_word a : is_Some (word_at s0 !! a) → is_Some (word_at s !! a)
}.

Lemma cpu_step_holds s s' t tk b : cpu_step s s' → holds s t tk b → holds s' t tk b.
Proof.
  intros Hc. destruct (cpu_step_rest _ _ Hc) as (E1 & _ & _ & _ & _ & E2 & _).
  unfold holds. by rewrite E1, E2.
Qed.

(** The end of the handlers that block or suspend their caller. *)
Lemma wp_leave_core X s0 s core cur frame tk b (Q : unit → sched → Prop) :
  held X s0 s → cur ∈ X → holds s cur tk b → current s0 core = cur →
  (∀ s', inv_x X s' → released core 0 s0 s' → holds s' cur (tk <| t_psp := frame |>) b →
     (∀ u tku bu, u ≠ cur → holds s u tku bu → holds s' u tku bu) →
     frame_at s' = frame_at s → word_at s' = word_at s →
     (∀ u, t_current_priority <$> task_at s' !! u = t_current_priority <$> task_at s !! u) → Q tt s') →
  wp (upd_task cur (λ tk, tk <| t_psp := frame |>) ;;;
      _prev <- sched_set_current core 0 ;;
      scheduler_request_switch core ;;; scheduler_spin_unlock) Q s.
Proof.
  intros Hd HX Ht Hcur HQ. wp_step.
  assert (wp (upd_task cur (λ tk, tk <| t_psp := frame |>)) (λ _ s1, (held X s0 s1 ∧
    holds s1 cur (tk <| t_psp := frame |>) b ∧ others cur s s1) ∧
    frame_at s1 = frame_at s ∧ word_at s1 = word_at s ∧
    ∀ u, t_current_priority <$> task_at s1 !! u = t_current_priority <$> task_at s !! u) s) as Hw.
  { apply wp_and; [by hstep held_upd_task|]. destruct Ht as [[o Ho] _].
    apply (wp_upd_task_raw _ _ _ _ _ Ho). split_and!; [done..|]. intros u. rsimp.
    rewrite lookup_insert. case_decide; [subst; by rewrite Ho|done]. }
  eapply wp_mono; [exact Hw|]. intros [] s1 ((Hd1 & Ht1 & Ho1) & Hf1 & Hw1 & Hp1).
  pose proof (hd_inv _ _ _ Hd1) as Hi1. pose proof (hd_calm _ _ _ Hd1) as Hm1.
  wp_step. apply (wp_sched_set_current core 0 _ s1 (ix_struct _ _ Hi1) (or_introl eq_refl)).
  intros s2 Hc2 Hcur2. assert (inv_x X s2) as Hi2.
  { apply inv_drop_null. eapply inv_weaken; [by eapply (inv_cpu_set X core 0); eauto|].
    rewrite (calm_current _ _ _ Hm1). set_solver. }
  wp_step. apply wp_request_switch. intros s3 Hc3 Hcur3 Hp3. unfold scheduler_spin_unlock. wp_step.
  pose proof (cpu_step_trans _ _ _ Hc2 Hc3) as Hc.
  destruct (cpu_step_rest _ _ Hc) as (E1 & E2 & E3 & E4 & E5 & E6 & E7 & E8 & E9).
  apply HQ; rsimp.
  - apply inv_spin. by eapply inv_cpu.
  - split; rsimp; rewrite ?E2, ?E3, ?E4, ?E5, ?E9; try apply Hm1; try done.
    intros c. change (current s3 c = if decide (c = core) then 0 else current s0 c).
    by rewrite Hcur3, Hcur2, (calm_current _ _ _ Hm1).
  - by apply (cpu_step_holds s1 s3).
  - intros u tku bu Hu Hhu. apply (cpu_step_holds s1 s3); [done|]. by eapply holds_others.
  - congruence.
  - congruence.
  - intros u. by rewrite E1.
Qed.

Lemma released_settle X core cur s0 s :
  inv_x X s → released core cur s0 s → s_present s0 = true →
  (∀ t, t ∈ X → t ∈ s_tasks s0 ∧ consistent s t) → quiescent s ∧ current s core = cur.
Proof.
  intros Hi Ho Hp HX. split; [split; [|split; [apply Ho|by rewrite (rl_present _ _ _ _ Ho)]]|].
  - apply (inv_restore X); [done| |].
    + intros t Ht _ _. by apply HX.
    + intros c _ Ht. left. rewrite (rl_tasks _ _ _ _ Ho). by apply HX.
  - rewrite (rl_current _ _ _ _ Ho). by rewrite decide_True.
Qed.

(** The end of the other handlers that change the ready queue. *)
Lemma wp_release X s0 s core (Q : unit → sched → Prop) :
  held X s0 s →
  (∀ s', inv_x X s' → released core (current s0 core) s0 s' →
     (∀ u tku bu, holds s u tku bu → holds s' u tku bu) →
     frame_at s' = frame_at s → word_at s' = word_at s → task_at s' = task_at s → Q tt s') →
  wp (scheduler_request_switch core ;;; scheduler_spin_unlock) Q s.
Proof.
  intros Hd HQ. pose proof (hd_calm _ _ _ Hd) as Hm.
  wp_step. apply wp_request_switch. intros s3 Hc Hcur Hp. unfold scheduler_spin_unlock. wp_step.
  destruct (cpu_step_rest _ _ Hc) as (E1 & E2 & E3 & E4 & E5 & E6 & E7 & E8 & E9).
  apply HQ; rsimp; try done.
  - apply inv_spin. by eapply inv_cpu; [apply Hd|..].
  - split; rsimp; rewrite ?E2, ?E3, ?E4, ?E5, ?E9; try apply Hm; try done.
    intros c. change (current s3 c = if decide (c = core) then current s0 core else current s0 c).
    rewrite Hcur, (calm_current _ _ _ Hm). case_decide; by subst.
  - intros u tku bu Hu. by apply (cpu_step_holds s s3).
Qed.

Lemma released_same core s0 s : released core (current s0 core) s0 s → ∀ c, current s c = current s0 c.
Proof. intros Hr c. rewrite (rl_current _ _ _ _ Hr). case_decide; by subst. Qed.

(** The task that left its core runs nowhere. *)
Lemma released_nowhere core s0 s t :
  released core 0 s0 s → t ≠ 0 → (∀ c, current s0 c = t → c = core) → ∀ c, current s c ≠ t.
Proof. intros Ho Hz Hu c. rewrite (rl_current _ _ _ _ Ho). case_decide; [done|]. by intros ?%Hu. Qed.

Lemma armed_for_fields s0 tk d :
  t_state (armed_for s0 tk d) = t_state tk ∧ t_current_queue (armed_for s0 tk d) = t_current_queue tk ∧
  t_psp (armed_for s0 tk d) = t_psp tk ∧
  (d < SCHEDULER_WAIT_FOREVER → t_timer_expires (armed_for s0 tk d) = u32 (scheduler_get_ticks s0 + d)).
Proof. unfold armed_for. destruct (d <? _) eqn:Hd; rsimp; split_and!; try done. lia. Qed.

(** ** The task list *)
Lemma inv_unlist X s t :
  inv_x X s → t ∈ X → t ∉ s_timers s →
  (∀ tk, task_at s !! t = Some tk → t_current_queue tk = None) →
  inv_x X (s <| s_tasks ::= without t |>).
Proof.
  intros Hi HX Htm Hcq. pose proof (ix_struct _ _ Hi) as Hs. split; try apply Hi; rsimp.
  - pose proof Hs as []. split; try done; rsimp.
    + by apply NoDup_without.
    + intros u [_ Hu]%elem_of_without. auto.
    + intros q l u Hl Hu. destruct (si_member _ _ _ Hl Hu) as (? & tk & Htk & Hq).
      split; [|by exists tk]. apply elem_of_without. split; [|done]. intros ->.
      by rewrite (Hcq _ Htk) in Hq.
    + intros u Hu. apply elem_of_without. split; [by intros ->|auto].
  - intros u [_ Hu]%elem_of_without HuX.
    exact (ix_consistent _ _ Hi _ Hu HuX).
  - intros c Hc. destruct (ix_current _ _ Hi c Hc) as [Hin|]; [|by right].
    destruct (decide (current s c = t)) as [->|]; [by right|]. left. by apply elem_of_without.
  - intros u tku [_ Hu]%elem_of_without. by apply (ix_guard _ _ Hi).
Qed.

Lemma inv_list X s t tk :
  inv_x X s → t ∉ s_tasks s → t ∈ X → task_at s !! t = Some tk → t_marker tk = SCHEDULER_TASK_MARKER →
  guarded s tk →
  inv_x X (s <| s_tasks ::= λ l, l ++ [t] |>).
Proof.
  intros Hi Hn HX Ht Hm Hgu. pose proof (ix_struct _ _ Hi) as Hs. split; try apply Hi; rsimp.
  - pose proof Hs as []. split; try done; rsimp.
    + apply NoDup_app. split_and!; [done| |apply NoDup_singleton].
      intros u Hu ->%list_elem_of_singleton. done.
    + intros u [Hu| ->%list_elem_of_singleton]%elem_of_app; [auto|by exists tk].
    + intros q l u Hl Hu. destruct (si_member _ _ _ Hl Hu) as (? & ?). rewrite elem_of_app. eauto.
    + intros u Hu. rewrite elem_of_app. eauto.
  - intros u [Hu| ->%list_elem_of_singleton]%elem_of_app HuX; [|done].
    exact (ix_consistent _ _ Hi _ Hu HuX).
  - intros c Hc. rewrite elem_of_app. destruct (ix_current _ _ Hi c Hc); auto.
  - intros u tku [Hu| ->%list_elem_of_singleton]%elem_of_app Htu; [by apply (ix_guard _ _ Hi u)|].
    by assert (tku = tk) as -> by congruence.
Qed.

(** A terminated task leaves the exempt set once no core runs it. *)
Lemma inv_buried t s :
  inv_x {[t]} s → t ∉ s_tasks s → (∀ c, current s c ≠ t) → inv_x ∅ s.
Proof.
  intros Hi Hn Hc. apply (inv_restore {[t]}); [done| |].
  - by intros u ->%elem_of_singleton _ ?.
  - by intros c _ ?%elem_of_singleton%Hc.
Qed.

(** ** What the handlers rely on outside the scheduler

    An exit handler runs inside the handler that ends its task, with the lock
    held: it may make any call an interrupt handler may make.  While a core
    waits for an interrupt the lock is free, so every other core and every
    interrupt handler may run; each keeps the invariant. *)
Record kept (s s' : sched) : Prop := {
  kp_tasks : s_tasks s' = s_tasks s;
  kp_current c : current s' c = current s c;
  kp_spin : s_spin s' = s_spin s;
  kp_present : s_present s' = s_present s
}.

Class EnvironmentLaws `{Environment} : Prop := {
  exit_handler_law X h t s :
    inv_x X s → wp (call_exit_handler h t) (λ _ s', inv_x X s' ∧ kept s s') s;
  tick_hook_law now s : quiescent s → wp (tick_hook now) (λ _ s', quiescent s' ∧
    ∀ c, pendsv (cls s c) = true → pendsv (cls s' c) = true) s;
  wfi_law core s :
    quiescent s → current s core = 0 →
    wp (wfi core) (λ _ s', quiescent s' ∧ current s' core = 0) s
}.

Lemma wp_terminated_hook `{EnvironmentLaws} X t tk (Q : unit → sched → Prop) s :
  inv_x X s → task_at s !! t = Some tk → t_marker tk = SCHEDULER_TASK_MARKER →
  (∀ s', inv_x X s' → kept s s' → Q tt s') → wp (scheduler_terminated_hook t) Q s.
Proof.
  intros Hi Ht Hm HQ. unfold scheduler_terminated_hook. wp_step. apply (wp_marked _ tk); [done..|].
  wp_step. apply (wp_get_task _ tk); [done|]. wp_step.
  - eapply wp_mono; [by apply exit_handler_law|]. intros [] s' [? ?]. by apply HQ.
  - by apply HQ.
Qed.

Lemma calm_kept s s' : calm s s' → kept s s'.
Proof.
  intros Hm. split; [apply (cm_tasks _ _ Hm)| |apply (cm_spin _ _ Hm)|apply (cm_present _ _ Hm)].
  intros c. by apply calm_current.
Qed.

Lemma cpu_step_kept s s' : cpu_step s s' → (∀ c, current s' c = current s c) → kept s s'.
Proof.
  intros Hc Hcur. destruct (cpu_step_rest _ _ Hc) as (E1 & E2 & E3 & E4 & E5 & E6 & E7 & E8 & E9).
  by split.
Qed.

Lemma kept_trans s1 s2 s3 : kept s1 s2 → kept s2 s3 → kept s1 s3.
Proof. intros [] []. split; congruence. Qed.

Lemma kept_refl s : kept s s.
Proof. by split. Qed.

(** ** Owned futexes and inherited priorities

    These touch a task that need not be in the exempt set: it stays consistent. *)

(** What a change of the priority and of the owned futexes of [owner] leaves. *)
Record retuned (X : gset Z) (s0 s s' : sched) : Prop := {
  rt_held : held X s0 s';
  rt_holds t tk b : holds s t tk b → ∃ p, holds s' t (tk <| t_current_priority := p |>) b;
  rt_frame : frame_at s' = frame_at s;
  rt_word : word_at s' = word_at s;
  rt_queue q l : queue s q = Some l → ∃ l', queue s' q = Some l' ∧ l' ≡ₚ l
}.

Lemma holds_priority s t tk b : holds s t tk b → ∃ p, holds s t (tk <| t_current_priority := p |>) b.
Proof. intros Hh. exists (t_current_priority tk). by destruct tk. Qed.

Lemma retuned_refl X s0 s : held X s0 s → retuned X s0 s s.
Proof. intros Hd. split; try done; [intros; by apply holds_priority|eauto]. Qed.

Lemma retuned_trans X s0 s1 s2 s3 : retuned X s0 s1 s2 → retuned X s0 s2 s3 → retuned X s0 s1 s3.
Proof.
  intros H1 H2. split; [apply H2| | | |].
  - intros t tk b Hh. apply H1 in Hh as [p Hh]. apply H2 in Hh as [p' Hh]. by exists p'.
  - by rewrite (rt_frame _ _ _ _ H2), (rt_frame _ _ _ _ H1).
  - by rewrite (rt_word _ _ _ _ H2), (rt_word _ _ _ _ H1).
  - intros q l Hl. apply (rt_queue _ _ _ _ H1) in Hl as (l1 & Hl1 & Hp1).
    apply (rt_queue _ _ _ _ H2) in Hl1 as (l2 & Hl2 & Hp2). exists l2. split; [done|]. by rewrite Hp2.
Qed.

Lemma retuned_step X s0 s s' t tk tk' :
  held X s0 s → t ∈ s_tasks s → task_at s !! t = Some tk → struct_inv s' → others t s s' →
  task_at s' !! t = Some tk' →
  (∃ p, strip tk' = strip (tk <| t_current_priority := p |>)) → s_timers s' = s_timers s →
  (∀ q l, queue s q = Some l → ∃ l', queue s' q = Some l' ∧ l' ≡ₚ l) → retuned X s0 s s'.
Proof.
  intros Hd Hal Ht Hs Ho Ht' [p Hp] Htm Hq.
  assert (∀ b, (t ∈ s_timers s ↔ b = true) → holds s' t (tk <| t_current_priority := p |>) b) as Hh.
  { intros b Hb. split; [|by rewrite Htm]. exists (t_owned_futexes tk'). rewrite Ht'. f_equal.
    transitivity ((strip tk') <| t_owned_futexes := t_owned_futexes tk' |>); [by destruct tk'|]. by rewrite Hp. }
  split; [split| | | |done].
  - pose proof (inv_others X t _ _ (hd_inv _ _ _ Hd) Hs Ho) as Hi.
    destruct (decide (t ∈ X)) as [HX|HX]; [eapply inv_weaken; [exact Hi|set_solver]|].
    eapply inv_restore_live; [exact Hi|by rewrite (ot_tasks _ _ _ Ho)|].
    destruct (ix_consistent _ _ (hd_inv _ _ _ Hd) _ Hal HX) as (tk0 & ? & Ha). simplify_eq.
    eapply holds_agrees; [exact Ha|apply Hh; by rewrite bool_decide_eq_true|done..| |].
    + by apply (ot_current t).
    + intros a. by rewrite (ot_frame _ _ _ Ho).
  - eapply calm_trans; [apply Hd|by eapply others_calm].
  - intros u tku b Hu. destruct (decide (u = t)) as [->|Hne].
    + destruct Hu as [[o Hto] Hb]. assert (tk = tku <| t_owned_futexes := o |>) as -> by congruence.
      exists p. destruct (Hh b Hb) as [[o' E] ?]. split; [by exists o'|done].
    + apply holds_priority. by eapply holds_others.
  - apply (ot_frame _ _ _ Ho).
  - apply (ot_word _ _ _ Ho).
Qed.

Lemma retuned_reprioritize X s0 s t p (Q : unit → sched → Prop) :
  held X s0 s → t ∈ s_tasks s →
  (∀ s' tk, retuned X s0 s s' → task_at s !! t = Some tk →
     task_at s' !! t = Some (tk <| t_current_priority := p |>) →
     (∀ u, u ≠ t → task_at s' !! u = task_at s !! u) → Q tt s') →
  wp (sched_queue_reprioritize t p) Q s.
Proof.
  intros Hd Hal HQ. pose proof (ix_struct _ _ (hd_inv _ _ _ Hd)) as Hs.
  destruct (si_alive _ Hs _ Hal) as (tk & Ht & _).
  apply (wp_sched_queue_reprioritize _ _ tk); [done..|]. intros s' Hs' Ho Ht' Hu Htm Hq.
  apply (HQ _ tk); [|done..]. eapply retuned_step; try done; [by exists p|].
  intros q l Hl. destruct (Hq q l Hl) as (l' & ? & ? & _). eauto.
Qed.

Definition owning (t f : Z) (tk : task) (s : sched) : sched :=
  s <| task_at := <[t := tk <| t_owned_futexes ::= λ l, l ++ [f] |>]> (task_at s) |>.

Lemma owning_ok s t f tk :
  struct_inv s → task_at s !! t = Some tk → is_Some (futex_at s !! f) →
  struct_inv (owning t f tk s) ∧ others t s (owning t f tk s).
Proof.
  intros Hs Ht Hf. split.
  - apply struct_tasks; [done| |intros u; rewrite lookup_insert; by case_decide].
    intros u tk'. rewrite lookup_insert. case_decide; subst.
    + intros [= <-]. exists tk. split_and!; try done. rsimp.
      intros g [Hg| ->%list_elem_of_singleton]%elem_of_app; [by eapply si_owned|done].
    + intros Hu. exists tk'. split_and!; try done. intros. by eapply si_owned.
  - split; unfold owning; rsimp; try done; intros u; [intros ?; by rewrite lookup_insert_ne|].
    rewrite lookup_insert. case_decide as Hu; [by rewrite <-Hu, Ht|done].
Qed.

Lemma wp_add_owned t f tk (Q : unit → sched → Prop) s :
  task_at s !! t = Some tk → owned_linked f s = false → Q tt (owning t f tk s) →
  wp (add_owned t f) Q s.
Proof.
  intros Ht Hl HQ. unfold add_owned. do 2 wp_step. rewrite Hl.
  wp_step. wp_step; [done|]. by apply (wp_upd_task_raw _ _ tk).
Qed.

Lemma retuned_add_owned X s0 s t f (Q : unit → sched → Prop) :
  held X s0 s → t ∈ s_tasks s → is_Some (futex_at s !! f) → owned_linked f s = false →
  (∀ tk, task_at s !! t = Some tk → retuned X s0 s (owning t f tk s) → Q tt (owning t f tk s)) →
  wp (add_owned t f) Q s.
Proof.
  intros Hd Hal Hf Hl HQ. pose proof (ix_struct _ _ (hd_inv _ _ _ Hd)) as Hs.
  destruct (si_alive _ Hs _ Hal) as (tk & Ht & _). apply (wp_add_owned _ _ tk); [done..|].
  destruct (owning_ok s t f tk Hs Ht Hf) as [Hs' Ho']. apply HQ; [done|].
  eapply retuned_step; try done; [apply lookup_insert_eq| |eauto].
  exists (t_current_priority tk). by destruct tk.
Qed.

Lemma held_add_owned X s0 s t tk b f (Q : unit → sched → Prop) :
  held X s0 s → t ∈ X → holds s t tk b → is_Some (futex_at s !! f) → owned_linked f s = false →
  (∀ s', held X s0 s' → holds s' t tk b → others t s s' → Q tt s') →
  wp (add_owned t f) Q s.
Proof.
  intros Hd HX Hh Hf Hl HQ. pose proof (ix_struct _ _ (hd_inv _ _ _ Hd)) as Hs.
  destruct (Hh) as [[o Ht] Hb]. eapply wp_add_owned; [exact Ht|done|].
  destruct (owning_ok s t f _ Hs Ht Hf) as [Hs' Ho'].
  edestruct held_step as [Hd' Hh'];
    [exact Hd|exact HX|exact Hh|exact Hs'|exact Ho'|apply lookup_insert_eq|exact Hb|]. apply HQ; [done| |done]. by apply (Hh' _ (o ++ [f])).
Qed.

Lemma head_priority_le s q l t tk :
  struct_inv s → queue s q = Some l → t ∈ l → task_at s !! t = Some tk →
  head_priority s l <= t_current_priority tk.
Proof.
  intros Hs Hl Hin Ht. destruct (si_queue _ Hs _ _ Hl) as [_ Hso]. rewrite <-(priority_of_lookup _ _ _ Ht).
  destruct l as [|u l]; [set_solver|]. cbn. apply sorted_by_cons in Hso as [_ Hle].
  apply elem_of_cons in Hin as [->|]; [lia|by apply Hle].
Qed.

(** The boost of the owner of a contended priority-inheritance futex. *)
Lemma wp_boost X s0 s f l owner cur ck :
  held X s0 s → owner ∈ s_tasks s → queue s (waiters f) = Some l → cur ∈ l →
  task_at s !! cur = Some ck →
  wp (marked_task owner ;;;
      linked <- gets (owned_linked f) ;;
      when (negb linked) (add_owned owner f) ;;;
      highest <- sched_queue_highest_priority (waiters f) ;;
      otk <- get_task owner ;;
      when (highest <? t_current_priority otk) (sched_queue_reprioritize owner highest))
    (λ _ s', retuned X s0 s s' ∧ ∃ otk, task_at s' !! owner = Some otk ∧
       t_current_priority otk <= t_current_priority ck) s.
Proof.
  intros Hd Hal Hl Hin Hc.
  wp_step. apply wp_marked_alive; [apply Hd|done|]. do 2 wp_step.
  wp_step. apply (wp_mono _ (λ _ s1, retuned X s0 s s1 ∧ owner ∈ s_tasks s1 ∧ queue s1 (waiters f) = Some l ∧
    ∃ ck1, task_at s1 !! cur = Some ck1 ∧ t_current_priority ck1 = t_current_priority ck)).
  { wp_step; [|split_and!; [by apply retuned_refl|done..|by exists ck]].
    assert (is_Some (futex_at s !! f)) as Hf.
    { cbn in Hl. destruct (futex_at s !! f); [eauto|done]. }
    eapply retuned_add_owned; [exact Hd|done|done|by destruct (owned_linked f s)|].
    intros tk Htk Hr. split_and!; [done..|]. unfold owning. rsimp. rewrite lookup_insert.
    case_decide; [subst; simplify_eq|by exists ck]. by eexists. }
  intros [] s1 (Hr1 & Hal1 & Hl1 & ck1 & Hck1 & Hp1). pose proof (rt_held _ _ _ _ Hr1) as Hd1.
  pose proof (ix_struct _ _ (hd_inv _ _ _ Hd1)) as Hs1.
  wp_step. eapply wp_highest_priority; [done|exact Hl1|].
  pose proof (head_priority_le _ _ _ _ _ Hs1 Hl1 Hin Hck1) as Hle.
  destruct (si_alive _ Hs1 _ Hal1) as (otk & Hot & _).
  wp_step. apply (wp_get_task _ otk); [done|]. wp_step.
  - eapply retuned_reprioritize; [exact Hd1|done|].
    intros s2 otk' Hr2 ? Hot2 _. simplify_eq.
    split; [by eapply retuned_trans|]. eexists. split; [exact Hot2|]. rsimp. lia.
  - split; [done|]. exists otk. split; [done|]. lia.
Qed.

(** [atomic_compare_exchange_strong], by whether it finds what it expects. *)
Lemma wp_compare_exchange X s0 s a w expected desired (Q : bool * Z → sched → Prop) :
  held X s0 s → word_at s !! a = Some w →
  (∀ s', w = expected → held X s0 s' → (∀ t tk b, holds s t tk b → holds s' t tk b) →
     s' = s <| word_at := <[a := desired]> (word_at s) |> → Q (true, expected) s') →
  (w ≠ expected → Q (false, w) s) → wp (compare_exchange a expected desired) Q s.
Proof.
  intros Hd Hw HT HF. unfold compare_exchange. wp_step. unfold get_word.
  apply (wp_get_opt _ _ _ _ w); [done|]. cbn beta. destruct (w =? expected) eqn:E.
  - wp_step. eapply held_set_word; [exact Hd|by exists w|]. intros s' Hd' Hh Hs'. wp_step. apply HT; try done. lia.
  - wp_step. apply HF. lia.
Qed.

(** ** Queues of others *)
Lemma others_queue t s s' q l :
  others t s s' → queue s q = Some l → t ∉ l → (∀ l', queue s' q = Some l' → t ∉ l') →
  queue s' q = Some l.
Proof.
  intros Ho Hl Hn Hn'. pose proof (ot_queue _ _ _ Ho q) as E. rewrite Hl in E. cbn in E.
  destruct (queue s' q) as [l'|]; [|done]. injection E as E.
  by rewrite (without_id t l'), (without_id t l) in E by auto; subst.
Qed.

Lemma holds_unqueued s t tk b q l :
  struct_inv s → holds s t tk b → t_current_queue tk ≠ Some q → queue s q = Some l → t ∉ l.
Proof.
  intros Hs [[o Ht] _] Hq Hl Hin. destruct (si_member _ Hs _ _ _ Hl Hin) as (_ & tk' & ? & Hq').
  assert (tk' = tk <| t_owned_futexes := o |>) as -> by congruence. done.
Qed.

(** A queue the moved task is on neither before nor after keeps its tasks. *)
Lemma held_queue X s0 s s' t tk b tk' b' q l :
  held X s0 s → held X s0 s' → others t s s' → holds s t tk b → holds s' t tk' b' →
  t_current_queue tk ≠ Some q → t_current_queue tk' ≠ Some q → queue s q = Some l →
  queue s' q = Some l.
Proof.
  intros Hd Hd' Ho Hh Hh' Hq Hq' Hl. eapply others_queue; [done|done| |].
  - by eapply holds_unqueued; [apply Hd|..].
  - intros l' Hl'. by eapply holds_unqueued; [apply Hd'|..].
Qed.
