(* ===== verification/SchedulerWake.v ===== *)
(** * The scheduler: waking a futex

    [scheduler_wake_futex] readies the waiters of a futex in the order of its
    queue, all of them or the first one, hands an owner-tracked futex to the
    task it wakes, and keeps the contention bit of the word. *)
From S2P Require Import Prelude Scheduler SchedulerSvc SchedulerInv SchedulerSafe.

Definition readied (s : sched) (t : Z) : Prop :=
  ∃ tk, holds s t tk false ∧ t_state tk = TASK_READY ∧ t_current_queue tk = Some ready_queue.

Lemma readied_others t s s' u : others t s s' → u ≠ t → readied s u → readied s' u.
Proof. intros Ho Hu (tk & Hh & ?). exists tk. split; [by eapply holds_others|done]. Qed.

Lemma readied_retuned X s0 s s' u : retuned X s0 s s' → readied s u → readied s' u.
Proof. intros Hr (tk & Hh & ?). apply (rt_holds _ _ _ _ Hr) in Hh as [p Hh]. by eexists. Qed.

Lemma held_weaken X Y s0 s : held X s0 s → X ⊆ Y → held Y s0 s.
Proof. intros [] ?. split; [by eapply inv_weaken|done]. Qed.

Lemma held_restore t s0 s :
  held {[t]} s0 s → t ∈ s_tasks s → consistent s t → held ∅ s0 s.
Proof.
  intros [Hi Hm] Ht Hc. split; [|done]. eapply inv_restore_live; [|done..].
  eapply inv_weaken; [exact Hi|set_solver].
Qed.

Lemma owned_linked_dequeued f t tk s :
  task_at s !! t = Some tk → owned_linked f (dequeued t tk s) = owned_linked f s.
Proof.
  intros Ht. unfold owned_linked. apply bool_decide_ext. unfold dequeued. rsimp. split.
  - intros (u & tku & Hu & Hf). rewrite lookup_insert in Hu. case_decide; [|by exists u, tku].
    subst. injection Hu as <-. by exists u, tk.
  - intros (u & tku & Hu & Hf). exists u. destruct (decide (t = u)) as [->|].
    + rewrite lookup_insert_eq. eexists. split; [done|]. by simplify_eq.
    + exists tku. by rewrite lookup_insert_ne.
Qed.

(** What is known of the first waiter of a futex. *)
Lemma waiter_blocked s0 s f t l :
  held ∅ s0 s → queue s (waiters f) = Some (t :: l) → ∃ tk, task_at s !! t = Some tk ∧
    t ∈ s_tasks s ∧ t_current_queue tk = Some (waiters f) ∧ t_state tk = TASK_BLOCKED ∧
    is_Some (frame_at s !! t_psp tk) ∧ (∀ c, current s c ≠ t) ∧ t ∉ l.
Proof.
  intros Hd Hl. pose proof (hd_inv _ _ _ Hd) as Hi. pose proof (ix_struct _ _ Hi) as Hs.
  destruct (si_member _ Hs _ _ t Hl) as (Hal & tk & Ht & Hq); [set_solver|].
  destruct (si_queue _ Hs _ _ Hl) as [Hnd _]. apply NoDup_cons in Hnd as [Hni _].
  destruct (ix_consistent _ _ Hi _ Hal) as (tk' & ? & [Ha1 Ha2]); [set_solver|]. simplify_eq.
  exists tk. destruct (t_state tk) eqn:Hst; try rewrite Hq in Ha1; try naive_solver.
Qed.

Section wake.
Context (s0 : sched) (f : Z) (fx : futex).

(** Facts about the futex that no step of the wake changes. *)
Definition futex_kept (s : sched) : Prop :=
  ∃ fx', futex_at s !! f = Some fx' ∧ futex_id fx' = futex_id fx.

Lemma calm_futex s s' : calm s s' → futex_kept s → futex_kept s'.
Proof.
  intros Hm (fx1 & Hf & Hid). pose proof (cm_futex _ _ Hm f) as E. rewrite Hf in E. cbn in E.
  destruct (futex_at s' !! f) as [fx2|] eqn:Hf2; [|done]. exists fx2. split; [done|].
  cbn in E. congruence.
Qed.

Lemma futex_kept_held X Y s s' : held X s0 s → held Y s0 s' → futex_kept s → futex_kept s'.
Proof.
  intros Hd Hd' (fx1 & Hfx & Hid). pose proof (cm_futex _ _ (hd_calm _ _ _ Hd) f) as E.
  rewrite Hfx in E. cbn in E. eapply calm_futex; [apply Hd'|].
  destruct (futex_at s0 !! f) as [fx0|] eqn:Hfx0; [|done].
  exists fx0. split; [done|]. cbn in E. congruence.
Qed.

Lemma wp_kept_futex (Q : futex → sched → Prop) s :
  futex_kept s → (∀ fx', f_flags fx' = f_flags fx → f_value fx' = f_value fx → Q fx' s) →
  wp (get_futex f) Q s.
Proof.
  intros (fx' & Hf & Hid) HQ. apply (wp_get_futex _ fx'); [done|]. unfold futex_id in Hid. apply HQ; congruence.
Qed.

Definition owner_tracking : bool := has (f_flags fx) SCHEDULER_FUTEX_OWNER_TRACKING.

(** Hand the futex over: the new owner inherits the priority of the waiters left. *)
Lemma wp_inherit s t tk b l :
  held {[t]} s0 s → holds s t tk b → queue s (waiters f) = Some l →
  t_current_queue tk = None → (has (f_flags fx) SCHEDULER_FUTEX_PI = true → owned_linked f s = false) →
  wp (when (has (f_flags fx) SCHEDULER_FUTEX_PI && negb (bool_decide (l = [])))
        (add_owned t f ;;;
         highest <- sched_queue_highest_priority (waiters f) ;;
         sched_queue_reprioritize t highest))
     (λ _ s', held {[t]} s0 s' ∧ (∃ p, holds s' t (tk <| t_current_priority := p |>) b) ∧
        others t s s' ∧ queue s' (waiters f) = Some l) s.
Proof.
  intros Hd Hh Hl Hcq Hol.
  assert (is_Some (futex_at s !! f)) as Hf by (cbn in Hl; destruct (futex_at s !! f); [eauto|done]).
  wp_step.
  - wp_step. eapply held_add_owned; [exact Hd|set_solver|exact Hh|done|apply Hol; by destruct (has _ _)|].
    intros s1 Hd1 Hh1 Ho1.
    assert (queue s1 (waiters f) = Some l) as Hl1.
    { eapply (held_queue {[t]} s0 s s1); [done..| | |done]; by rewrite Hcq. }
    wp_step. eapply wp_highest_priority; [apply Hd1|done|].
    eapply held_reprioritize; [exact Hd1|set_solver|exact Hh1|]. intros s2 Hd2 Hh2 Ho2.
    split_and!; [done|by eexists|by eapply others_trans|].
    eapply (held_queue {[t]} s0 s1 s2); [done..| | |done]; rsimp; by rewrite Hcq.
  - split_and!; [done|by apply holds_priority|apply others_refl|done].
Qed.

(** One round of the wake loop. *)
Record woke (t : Z) (l : list Z) (s s' : sched) : Prop := {
  wk_held : held ∅ s0 s';
  wk_queue : queue s' (waiters f) = Some l;
  wk_rest g l' : g ≠ f → queue s (waiters g) = Some l' → queue s' (waiters g) = Some l';
  wk_readied : readied s' t;
  wk_others u : u ≠ t → readied s u → readied s' u;
  wk_frame : frame_at s' = frame_at s;
  wk_word : word_at s' = if owner_tracking then <[f_value fx := t]> (word_at s) else word_at s
}.

Lemma wake_one_step s t l all woken :
  held ∅ s0 s → futex_kept s → queue s (waiters f) = Some (t :: l) →
  (has (f_flags fx) SCHEDULER_FUTEX_PI = true → owned_linked f s = false) →
  wp (wake_one f all woken)
    (λ r s', r = (all && negb owner_tracking, woken + 1) ∧ woke t l s s') s.
Proof.
  intros Hd Hkf Hl Hol. destruct (waiter_blocked _ _ _ _ _ Hd Hl) as
    (tk & Ht & Hal & Hcq & Hst & Hfr & Hno & Hni).
  pose proof (ix_struct _ _ (hd_inv _ _ _ Hd)) as Hs. pose proof (hd_calm _ _ _ Hd) as Hm0.
  assert (t ∈ s_tasks s0) as Hal0 by (by rewrite <-(cm_tasks _ _ Hm0)).
  pose proof (held_weaken _ {[t]} _ _ Hd ltac:(set_solver)) as Hd1.
  pose proof (holds_open _ _ _ Ht) as Hh. set (b := bool_decide (t ∈ s_timers s)) in *.
  unfold wake_one. wp_step. eapply wp_sched_queue_pop; [done|exact Hl|done|].
  intros t' tk' s1 [= <-] _ Hz ? _ _ Hs1 Ho1 Ht1 Htm1 ->. simplify_eq.
  edestruct (held_step {[t]} s0 s t) as [Hd2 Hh2];
    [exact Hd1|set_solver|exact Hh|exact Hs1|exact Ho1|exact Ht1|rewrite Htm1; apply Hh|].
  specialize (Hh2 (tk <| t_current_queue := None |>) (t_owned_futexes tk) ltac:(by destruct tk)).
  assert (queue (dequeued t tk s) (waiters f) = Some l) as Hl2.
  { rewrite queue_dequeued, Hl. unfold without. cbn. rewrite decide_False by auto. f_equal. by apply without_id. }
  assert (futex_kept (dequeued t tk s)) as Hkf2 by (eapply calm_futex; [by eapply others_calm|done]).
  rewrite <-(owned_linked_dequeued f t tk s Ht) in Hol.
  set (s1 := dequeued t tk s) in *. replace (t =? 0) with false by lia.
  wp_step. apply wp_marked_alive; [done|by rewrite (ot_tasks _ _ _ Ho1)|].
  wp_step. eapply wp_kept_futex; [done|]. intros fx' -> ->. fold owner_tracking.
  wp_step. apply (wp_mono _ (λ _ s2, held {[t]} s0 s2 ∧ holds s2 t (tk <| t_current_queue := None |>) b ∧
    queue s2 (waiters f) = Some l ∧
    (has (f_flags fx) SCHEDULER_FUTEX_PI = true → owned_linked f s2 = false) ∧
    (∀ u, u ≠ t → readied s u → readied s2 u) ∧ (∀ q, queue s2 q = queue s1 q) ∧ frame_at s2 = frame_at s ∧
    word_at s2 = if owner_tracking then <[f_value fx := t]> (word_at s) else word_at s)).
  { assert (∀ u, u ≠ t → readied s u → readied s1 u) as Hro.
    { intros. by eapply readied_others. }
    wp_step.
    - replace owner_tracking with true. destruct Hkf2 as (fx2 & Hfx2 & Hid).
      destruct (si_words _ Hs1 _ _ Hfx2) as [w Hw].
      assert (f_value fx2 = f_value fx) as Hv by (unfold futex_id in Hid; congruence). rewrite Hv in Hw.
      eapply held_set_word; [exact Hd2|eauto|]. intros s2 Hd3 Hk3 ->. by split_and!.
    - replace owner_tracking with false. split_and!; done. }
  intros [] s2 (Hd3 & Hh3 & Hl3 & Hol3 & Hro3 & Hq3 & Hf3 & Hw3).
  wp_step. eapply wp_sched_queue_empty; [exact Hl3|].
  wp_step. eapply wp_mono; [by apply (wp_inherit s2 t (tk <| t_current_queue := None |>) b l)|].
  intros [] s3 (Hd4 & [p Hh4] & Ho4 & Hl4).
  wp_step. hstep held_timer_remove as Hh4. wp_step. hstep held_upd_task as Hh4.
  assert (∀ s', others t s5 s' → others t s2 s') as Hch.
  { intros s' Ho'. eapply others_trans; [exact Ho4|]. eapply others_trans; [exact Ho|].
    by eapply others_trans. }
  wp_step. hstep held_queue_push as Hh4. wp_step. split; [done|].
  pose proof (Hch _ Ho2) as Ho2s.
  assert (frame_at s6 = frame_at s) as Hf6 by (by rewrite (ot_frame _ _ _ Ho2s)).
  assert (∀ c, current s6 c ≠ t) as Hno6.
  { intros c. rewrite (calm_current _ _ c (hd_calm _ _ _ Hd0)), <-(calm_current _ _ c Hm0). apply Hno. }
  assert (s_tasks s6 = s_tasks s) as Hl6.
  { by rewrite (cm_tasks _ _ (hd_calm _ _ _ Hd0)), (cm_tasks _ _ Hm0). }
  split; [|eapply others_queue; [exact Ho2s|done|done|]| | | | |].
  - eapply held_restore; [exact Hd0|by rewrite Hl6|].
    eapply holds_parked; [exact Hh4|done|by rewrite Hf6|done].
  - intros l'. by eapply holds_unqueued; [apply Hd0|exact Hh4|].
  - intros g l' Hg Hgl. assert (t ∉ l') as Hnt.
    { eapply (holds_unqueued s t tk); [exact Hs|by apply holds_open| |exact Hgl]. rewrite Hcq. congruence. }
    eapply others_queue; [exact Ho2s| |done|].
    + rewrite Hq3. unfold s1. rewrite queue_dequeued, Hgl. cbn. by rewrite without_id.
    + intros l''. by eapply holds_unqueued; [apply Hd0|exact Hh4|].
  - by eexists.
  - intros u Hu Hr. eapply readied_others; [exact Ho2s|done|by apply Hro3].
  - done.
  - by rewrite (ot_word _ _ _ Ho2s).
Qed.

(** How many waiters a call wakes, and the word it leaves for the next owner. *)
Definition chosen (all : bool) (l : list Z) : list Z :=
  if all && negb owner_tracking then l else take 1 l.
Definition handed (l : list Z) (m : gmap Z Z) : gmap Z Z :=
  match l with t :: _ => if owner_tracking then <[f_value fx := t]> m else m | [] => m end.

(** The whole loop: [l] is the queue it starts from. *)
Record woke_all (all : bool) (l : list Z) (s s' : sched) : Prop := {
  wl_held : held ∅ s0 s';
  wl_queue : ∃ l', l = chosen all l ++ l' ∧ queue s' (waiters f) = Some l';
  wl_rest g l' : g ≠ f → queue s (waiters g) = Some l' → queue s' (waiters g) = Some l';
  wl_readied t : t ∈ chosen all l → readied s' t;
  wl_others u : u ∉ chosen all l → readied s u → readied s' u;
  wl_frame : frame_at s' = frame_at s;
  wl_word : word_at s' = handed l (word_at s)
}.

Hypothesis Hwf : futex_wf fx.

Lemma wake_one_empty s all woken :
  queue s (waiters f) = Some [] → wp (wake_one f all woken) (λ r s', r = (false, woken) ∧ s' = s) s.
Proof.
  intros Hl. unfold wake_one, sched_queue_pop. wp_step. wp_step. by apply (wp_get_queue _ []).
Qed.

Lemma wake_loop_ok fuel : ∀ s l all woken,
  (length l < fuel)%nat → held ∅ s0 s → futex_kept s → queue s (waiters f) = Some l →
  (has (f_flags fx) SCHEDULER_FUTEX_PI = true → owned_linked f s = false) →
  wp (wake_loop fuel f all woken)
    (λ n s', n = woken + Z.of_nat (length (chosen all l)) ∧ woke_all all l s s') s.
Proof.
  induction fuel as [|fuel IH]; intros s l all woken Hlt Hd Hkf Hl Hol; [lia|].
  cbn [wake_loop]. wp_step. destruct l as [|t l].
  { eapply wp_mono; [by apply wake_one_empty|]. intros r s' [-> ->]. cbn [fst snd]. wp_step.
    assert (chosen all [] = []) as Hc by (by unfold chosen; destruct (_ && _)).
    rewrite Hc. split; [cbn; lia|].
    split; rewrite ?Hc; [done|by exists []|done| |done..]. by intros t ?%elem_of_nil. }
  pose proof (waiter_blocked _ _ _ _ _ Hd Hl) as (_ & _ & _ & _ & _ & _ & _ & Hni).
  eapply wp_mono; [by apply wake_one_step|]. intros r s1 [-> [Hd1 Hl1 Hg1 Hr1 Hk1 Hf1 Hw1]]. cbn [fst snd].
  destruct (all && negb owner_tracking) eqn:Hgo.
  - apply andb_true_iff in Hgo as [-> Hot]. apply negb_true_iff in Hot.
    assert (futex_kept s1) as Hkf1 by (by eapply futex_kept_held; [exact Hd|exact Hd1|]).
    eapply wp_mono; [apply (IH s1 l true (woken + 1)); [cbn in Hlt; lia|done|done|done|]|].
    { intros Hpi. unfold owner_tracking in Hot. by rewrite (Hwf Hpi) in Hot. }
    assert (∀ l, chosen true l = l) as Hc by (intros; unfold chosen; by rewrite Hot).
    intros n s2 [-> [Hd2 (l' & E & Hl2) Hg2 Hr2 Hk2 Hf2 Hw2]]. rewrite !Hc in *. split; [cbn; lia|].
    split; rewrite ?Hc; [done| | | | |congruence|].
    + exists l'. split; [cbn; congruence|done].
    + auto.
    + intros u [->|Hu]%elem_of_cons; auto.
    + intros u [? ?]%not_elem_of_cons ?. auto.
    + rewrite Hw2, Hw1. unfold handed. rewrite Hot. by destruct l.
  - wp_step. assert (∀ l, chosen all l = take 1 l) as Hc by (intros; unfold chosen; by rewrite Hgo).
    rewrite Hc. split; [done|]. split; rewrite ?Hc; cbn; [done|by exists l|done| | |done|done].
    + by intros u ->%list_elem_of_singleton.
    + intros u Hu%not_elem_of_cons ?. apply Hk1; naive_solver.
Qed.

(** ** Unlinking the futex from its owner *)
Lemma strip_unlink u s : strip <$> task_at (unlink_owned f s) !! u = strip <$> task_at s !! u.
Proof. unfold unlink_owned. rsimp. rewrite lookup_fmap. by destruct (task_at s !! u). Qed.

Lemma unlink_unlinked s : owned_linked f (unlink_owned f s) = false.
Proof.
  unfold owned_linked. apply bool_decide_eq_false_2. intros (u & tk & Hu & Hf).
  unfold unlink_owned in Hu. rsimp. rewrite lookup_fmap in Hu.
  destruct (task_at s !! u) as [tk0|]; [|done]. cbn in Hu. injection Hu as <-. rsimp.
  apply elem_of_without in Hf. naive_solver.
Qed.

Lemma unlink_others t s : others t s (unlink_owned f s).
Proof.
  split; try done; intros u; [intros _; apply strip_unlink|].
  unfold unlink_owned. rsimp. rewrite lookup_fmap. by destruct (task_at s !! u).
Qed.

Lemma unlink_struct s : struct_inv s → struct_inv (unlink_owned f s).
Proof.
  intros Hs. apply (struct_tasks s); [done| |].
  - intros u tk'. rewrite lookup_fmap. destruct (task_at s !! u) as [tk|] eqn:Hu; [|done].
    cbn. intros [= <-]. exists tk. split_and!; try done. rsimp.
    intros g [_ Hg]%elem_of_without. by eapply si_owned.
  - intros u [tk Hu]. rewrite lookup_fmap, Hu. by eexists.
Qed.

Lemma unlink_retuned s t : held ∅ s0 s → t ∈ s_tasks s → retuned ∅ s0 s (unlink_owned f s).
Proof.
  intros Hd Hal. pose proof (ix_struct _ _ (hd_inv _ _ _ Hd)) as Hs.
  destruct (si_alive _ Hs _ Hal) as (tk & Ht & _).
  eapply (retuned_step ∅ s0 s _ t tk); [done|done|done|by apply unlink_struct|apply unlink_others| | |done|eauto].
  - unfold unlink_owned. rsimp. by rewrite lookup_fmap, Ht.
  - exists (t_current_priority tk). by destruct tk.
Qed.

Lemma wp_highest_owned (l : list Z) : ∀ h (Q : Z → sched → Prop) s,
  struct_inv s → (∀ g, g ∈ l → is_Some (futex_at s !! g)) → (∀ r, r <= h → Q r s) →
  wp (highest_owned l h) Q s.
Proof.
  induction l as [|g l IH]; intros h Q s Hs Hl HQ; cbn [highest_owned]; [apply wp_ret, HQ; lia|].
  destruct (Hl g) as [fg Hg]; [set_solver|].
  wp_step. eapply (wp_highest_priority _ (f_waiters fg)); [done|cbn; by rewrite Hg|].
  apply IH; [done|intros; apply Hl; set_solver|]. intros r Hr. apply HQ. destruct (_ <? _) eqn:?; lia.
Qed.

Definition inherits : bool := Z.land (f_flags fx) PI_AND_OWNER =? PI_AND_OWNER.

(** The owner gives up what it inherited through this futex. *)
Lemma wp_disown s v l :
  held ∅ s0 s → futex_kept s → queue s (waiters f) = Some l → word_at s !! f_value fx = Some v →
  (inherits = true → owner_of v ∈ s_tasks s) →
  wp (when inherits
        (v <- get_word (f_value fx) ;;
         let owner := owner_of v in
         marked_task owner ;;;
         upd (unlink_owned f) ;;;
         otk <- get_task owner ;;
         highest <- highest_owned (t_owned_futexes otk) (t_base_priority otk) ;;
         sched_queue_reprioritize owner highest))
    (λ _ s1, retuned ∅ s0 s s1 ∧ (inherits = true → owned_linked f s1 = false) ∧
       (inherits = false → s1 = s) ∧
       (inherits = true → ∃ otk, task_at s1 !! owner_of v = Some otk ∧
          t_current_priority otk <= t_base_priority otk)) s.
Proof.
  intros Hd Hkf Hl Hv Hown. wp_step; [|split_and!; [by apply retuned_refl|congruence..|congruence]].
  specialize (Hown ltac:(done)). wp_step. unfold get_word. apply (wp_get_opt _ _ _ _ v); [done|]. cbn beta zeta.
  wp_step. apply wp_marked_alive; [apply Hd|done|]. do 2 wp_step.
  pose proof (unlink_retuned s (owner_of v) Hd Hown) as Hr. set (s1 := unlink_owned f s) in *.
  pose proof (rt_held _ _ _ _ Hr) as Hd1. pose proof (ix_struct _ _ (hd_inv _ _ _ Hd1)) as Hs1.
  destruct (si_alive _ Hs1 (owner_of v) Hown) as (otk & Hot & _).
  wp_step. apply (wp_get_task _ otk); [done|]. wp_step.
  apply wp_highest_owned; [done|by intros g; eapply si_owned|]. intros h Hh.
  eapply retuned_reprioritize; [exact Hd1|done|]. intros s2 otk' Hr2 ? Hot2 Hu2. simplify_eq.
  split_and!; [by eapply retuned_trans| |congruence|].
  - intros _. pose proof (unlink_unlinked s) as Hul. fold s1 in Hul. unfold owned_linked in *.
    apply bool_decide_eq_false in Hul. apply bool_decide_eq_false_2. intros (u & tk & Hu & Hf).
    apply Hul. destruct (decide (u = owner_of v)) as [->|Hne].
    + exists (owner_of v), otk. split; [done|]. by simplify_eq.
    + exists u, tk. by rewrite <-Hu2.
  - intros _. eexists. split; [exact Hot2|]. by rsimp.
Qed.

Lemma inherits_flags : has (f_flags fx) SCHEDULER_FUTEX_PI = true → inherits = true.
Proof.
  intros Hpi. pose proof (Hwf Hpi) as Hot. unfold inherits. apply Z.eqb_eq.
  change SCHEDULER_FUTEX_PI with (2 ^ 1) in *. change SCHEDULER_FUTEX_OWNER_TRACKING with (2 ^ 2) in *.
  change PI_AND_OWNER with (Z.lor (2 ^ 1) (2 ^ 2)).
  rewrite has_pow2 in Hpi, Hot by done. rewrite Z.land_lor_distr_r, !land_pow2 by done.
  by rewrite Hpi, Hot.
Qed.

(** The word the wake leaves, given the word and the queue it started from. *)
Definition final_word (all : bool) (l : list Z) (v : Z) : Z :=
  let v1 := match l with t :: _ => if owner_tracking then t else v | [] => v end in
  if has (f_flags fx) SCHEDULER_FUTEX_CONTENTION_TRACKING then
    if bool_decide (length (chosen all l) = length l) then owner_of v1
    else Z.lor v1 SCHEDULER_FUTEX_CONTENTION_TRACKING
  else v1.

(** What [scheduler_wake_futex] promises: the tasks [chosen] from the queue are
    ready, the rest still wait, and the word says who owns the futex and whether
    it is contended. *)
Record futex_woken (all : bool) (l : list Z) (v : Z) (n : Z) (s s' : sched) : Prop := {
  fw_held : held ∅ s0 s';
  fw_count : n = Z.of_nat (length (chosen all l));
  fw_split : ∃ l1 l2, l1 ≡ₚ l ∧ (inherits = false → l1 = l) ∧
    l1 = chosen all l1 ++ l2 ∧ queue s' (waiters f) = Some l2 ∧
    (∀ t, t ∈ chosen all l1 → readied s' t) ∧
    word_at s' !! f_value fx = Some (final_word all l1 v);
  fw_rest g l' : inherits = false → g ≠ f → queue s (waiters g) = Some l' → queue s' (waiters g) = Some l';
  fw_others t : readied s t → readied s' t;
  fw_frame : frame_at s' = frame_at s;
  fw_word a : a ≠ f_value fx → word_at s' !! a = word_at s !! a
}.

Lemma length_chosen all l l' : l ≡ₚ l' → length (chosen all l) = length (chosen all l').
Proof.
  intros Hp. unfold chosen. destruct (_ && _); [by rewrite Hp|].
  rewrite !length_take. by rewrite Hp.
Qed.

Lemma handed_lookup l m v : m !! f_value fx = Some v →
  handed l m !! f_value fx = Some (match l with t :: _ => if owner_tracking then t else v | [] => v end).
Proof. intros Hm. unfold handed. destruct l; [done|]. destruct owner_tracking; [apply lookup_insert_eq|done]. Qed.

Lemma chosen_rest all l l2 : l = chosen all l ++ l2 →
  bool_decide (l2 = []) = bool_decide (length (chosen all l) = length l).
Proof.
  intros E. assert (length l = length (chosen all l) + length l2)%nat as Hlen by (rewrite E at 1; apply length_app).
  apply bool_decide_ext. split; [intros ->; cbn in Hlen; lia|].
  intros Hl. destruct l2; [done|]. cbn in Hlen. lia.
Qed.

(** The contention bit, once the loop is done. *)
Lemma wp_contention all l l2 v s :
  held ∅ s0 s → queue s (waiters f) = Some l2 → l = chosen all l ++ l2 →
  word_at s !! f_value fx = Some (match l with t :: _ => if owner_tracking then t else v | [] => v end) →
  wp (when (has (f_flags fx) SCHEDULER_FUTEX_CONTENTION_TRACKING)
        (empty <- sched_queue_empty (waiters f) ;;
         v <- get_word (f_value fx) ;;
         set_word (f_value fx)
           (if (empty : bool) then owner_of v else Z.lor v SCHEDULER_FUTEX_CONTENTION_TRACKING)))
    (λ _ s', held ∅ s0 s' ∧ queue s' (waiters f) = Some l2 ∧ (∀ q, queue s' q = queue s q) ∧ (∀ t, readied s t → readied s' t) ∧
       frame_at s' = frame_at s ∧ word_at s' !! f_value fx = Some (final_word all l v) ∧
       ∀ a, a ≠ f_value fx → word_at s' !! a = word_at s !! a) s.
Proof.
  intros Hd Hl E Hw. unfold final_word. wp_step.
  - replace (has _ _) with true. wp_step. eapply wp_sched_queue_empty; [exact Hl|].
    rewrite (chosen_rest _ _ _ E). wp_step. unfold get_word. eapply wp_get_opt; [exact Hw|]. cbn beta.
    eapply held_set_word; [exact Hd|eauto|]. intros s' Hd' Hh' ->. split_and!; [done|done|done| |done| |].
    + intros t (tk & Hh & ?). exists tk. split; [by apply Hh'|done].
    + apply lookup_insert_eq.
    + intros a Ha. by apply lookup_insert_ne.
  - replace (has _ _) with false. by split_and!.
Qed.

Lemma scheduler_wake_futex_ok s v l all :
  held ∅ s0 s → futex_at s !! f = Some fx → queue s (waiters f) = Some l →
  word_at s !! f_value fx = Some v → (inherits = true → owner_of v ∈ s_tasks s) →
  wp (scheduler_wake_futex f all) (λ n s', futex_woken all l v n s s') s.
Proof.
  intros Hd Hf Hl Hv Hown. assert (futex_kept s) as Hkf by (by exists fx).
  unfold scheduler_wake_futex. wp_step. apply (wp_get_futex _ fx); [done|].
  wp_step. eapply wp_mono; [by eapply wp_disown|]. intros [] s1 (Hr1 & Hul & Hid & _).
  destruct (rt_queue _ _ _ _ Hr1 _ _ Hl) as (l1 & Hl1 & Hp1).
  assert (f_waiters fx = l) as Hfl by (cbn in Hl; rewrite Hf in Hl; cbn in Hl; congruence).
  wp_step. eapply wp_mono; [eapply (wake_loop_ok _ s1 l1); [|apply Hr1| |done|]|].
  { rewrite Hfl, Hp1. lia. }
  { by eapply futex_kept_held; [exact Hd|apply Hr1|]. }
  { intros Hpi. by apply Hul, inherits_flags. }
  intros n s2 [-> [Hd2 (l2 & E & Hl2) Hg2 Hrd Hot Hf2 Hw2]].
  wp_step. eapply wp_mono; [eapply (wp_contention all l1 l2 v s2); [done..|]|].
  { rewrite Hw2. apply handed_lookup. by rewrite (rt_word _ _ _ _ Hr1). }
  intros [] s3 (Hd3 & Hl3 & Hq3 & Hk3 & Hf3 & Hw3 & Ho3). wp_step. split; [done| | | | | |].
  - rewrite (length_chosen all l1 l Hp1). lia.
  - exists l1, l2. split_and!; [done| |done|done|intros; by apply Hk3, Hrd|done].
    intros Hn. rewrite (Hid Hn) in Hl1. congruence.
  - intros g l' Hn Hg. rewrite Hq3, (Hid Hn) in *. by apply Hg2.
  - intros t Ht. apply Hk3, Hot; [|by eapply readied_retuned]. intros Hin.
    apply (readied_retuned _ _ _ _ _ Hr1) in Ht as (tk & Hh & _ & Hq).
    eapply (holds_unqueued s1 t tk false (waiters f) l1); [apply Hr1|done|by rewrite Hq|done|].
    rewrite E. apply elem_of_app. by left.
  - by rewrite Hf3, Hf2, (rt_frame _ _ _ _ Hr1).
  - intros a Ha. rewrite Ho3, Hw2, <-(rt_word _ _ _ _ Hr1) by done. unfold handed.
    destruct l1; [done|]. destruct owner_tracking; [|done]. by apply lookup_insert_ne.
Qed.
End wake.
