(* ===== verification/SchedulerHandlers.v ===== *)
(** * The scheduler: the service handlers are safe and do what they are for

    Each handler of [SchedulerSvc], started between handlers ([quiescent])
    with the arguments a caller can pass, runs without a fault, re-establishes
    the invariant, gives the lock back, and has the effect its name says. *)
From S2P Require Import Prelude Scheduler SchedulerSvc SchedulerInv SchedulerSafe SchedulerWake.

Section svc.
Context `{Environment} (core frame : Z) (fr : Scheduler.frame) (s : sched).
Hypothesis (Hq : quiescent s) (Hfr : frame_at s !! frame = Some fr).

Let Hi : inv_x ∅ s := proj1 Hq.

Lemma current_alive : current s core ≠ 0 → current s core ∈ s_tasks s.
Proof.
  intros Hc. destruct (ix_current _ _ Hi core Hc) as [Hin|Hin].
  - exact Hin.
  - by apply not_elem_of_empty in Hin.
Qed.

Lemma task_nonzero t : t ∈ s_tasks s → t ≠ 0.
Proof.
  intros Ht ->. destruct (si_alive _ (ix_struct _ _ Hi) _ Ht) as (? & Hz & _).
  by rewrite (si_null _ (ix_struct _ _ Hi)) in Hz.
Qed.

Lemma quiescent_consistent t : t ∈ s_tasks s → consistent s t.
Proof. intros Ht. apply (ix_consistent _ _ Hi); [done|]. apply not_elem_of_empty. Qed.

(** The state in which a handler has taken the lock and answered its caller. *)
Definition entered (v : Z) : sched := answered frame v fr (s <| s_spin := true |>).

Lemma entered_inv v : inv_x ∅ (entered v).
Proof. by apply inv_answered, inv_spin. Qed.

Lemma entered_frame v a : is_Some (frame_at s !! a) → is_Some (frame_at (entered v) !! a).
Proof. apply frames_insert. Qed.

Lemma entered_r0 v : r0 <$> frame_at (entered v) !! frame = Some v.
Proof. unfold entered, answered. rsimp. by rewrite lookup_insert_eq. Qed.

Lemma entered_holds v t tk b : holds s t tk b → holds (entered v) t tk b.
Proof. done. Qed.

Lemma current_running : current s core ≠ 0 → ∃ tk, 
  (∀ v, holds (entered v) (current s core) tk false) ∧ task_at s !! current s core = Some tk ∧
  t_state tk = TASK_RUNNING ∧ t_current_queue tk = None ∧ t_core tk = core ∧
  ∀ c, current s c = current s core → c = core.
Proof.
  intros Hc. destruct (quiescent_consistent _ (current_alive Hc)) as (tk & Htk & [Ha1 Ha2]).
  exists tk. destruct (Ha2 core eq_refl) as [Hst Hco]. rewrite Hst in Ha1.
  destruct Ha1 as (? & Hni & ?). split_and!; try done.
  - intros v. assert (holds s (current s core) tk (bool_decide (current s core ∈ s_timers s))) as Hh.
    { by apply holds_open. }
    rewrite bool_decide_eq_false_2 in Hh by done. by apply entered_holds.
  - intros c Hcc. destruct (Ha2 c Hcc). congruence.
Qed.

Lemma parked_task t : t ∈ s_tasks s → (∀ c, current s c ≠ t) → ∃ tk b,
  (∀ v, holds (entered v) t tk b) ∧ task_at s !! t = Some tk ∧ parked tk b ∧
  is_Some (frame_at s !! t_psp tk) ∧ b = bool_decide (t ∈ s_timers s).
Proof.
  intros Ht Hc. destruct (quiescent_consistent _ Ht) as (tk & Htk & Ha).
  destruct (consistent_parked s t tk) as [Hp Hf]; [by exists tk|done..|].
  exists tk, (bool_decide (t ∈ s_timers s)). split_and!; try done. intros v. by apply (entered_holds v), holds_open.
Qed.

(** A handler refuses a task that is not in the task list, and changes nothing
    else. *)
Definition refused : sched := answered frame (u32 (- ESRCH)) fr s.

Lemma refused_unlock : (entered (u32 (- ESRCH))) <| s_spin := false |> = refused.
Proof.
  unfold refused, entered, answered, over. cbn. by rewrite <-(proj1 (proj2 Hq)).
Qed.

Lemma suspend_svc_dead :
  r0 fr ∉ s_tasks s → current s core ≠ 0 →
  wp (scheduler_suspend_svc core frame) (λ _ s', s' = refused) s.
Proof.
  intros Ht Hc. unfold scheduler_suspend_svc. wp_step.
  apply (wp_get_current core ∅); [done|intros; by apply current_alive|].
  wp_step. apply (wp_get_frame _ fr); [done|]. wp_step. apply wp_spin_lock; [apply Hq|].
  wp_step. apply (wp_alive_dead _ _ fr); [done..|]. unfold scheduler_spin_unlock. cbn [negb]. wp_step.
  apply refused_unlock.
Qed.

Lemma suspend_svc_self :
  current s core ≠ 0 → r0 fr = current s core →
  wp (scheduler_suspend_svc core frame) (λ _ s', quiescent s' ∧ current s' core = 0 ∧ switch_pending core s' ∧
    ∃ tk' b, holds s' (r0 fr) tk' b ∧ t_state tk' = TASK_SUSPENDED ∧ t_psp tk' = frame ∧
      b = (r1 fr <? SCHEDULER_WAIT_FOREVER) ∧
      (b = true → t_timer_expires tk' = u32 (scheduler_get_ticks s + r1 fr))) s.
Proof.
  intros Hc Ht. destruct (proj2 Hq) as [Hsp Hpr].
  destruct (current_running Hc) as (tk & Hh & Htk & Hst & Hcq & Hco & Hun).
  pose proof (current_alive Hc) as Hal.
  unfold scheduler_suspend_svc. wp_step. apply (wp_get_current core ∅); [done..|].
  wp_step. apply (wp_get_frame _ fr); [done|]. wp_step. apply wp_spin_lock; [done|].
  wp_step. rewrite Ht. apply (wp_alive_live ∅ _ _ fr); [by apply inv_spin|done|done|].
  fold (entered 0). cbn [negb]. rewrite Z.eqb_refl. cbn [negb].
  set (t := current s core) in *. pose proof (held_open {[t]} _ (entered_inv 0)) as Hd.
  specialize (Hh 0). wp_step. hstep held_upd_task. wp_step. hstep held_timer_arm.
  eapply wp_leave_core; [exact Hd|set_solver|exact Hh|done|]. intros s' Hi' Hoff Hh' _ _ _ _.
  destruct (armed_for_fields (entered 0) (tk <| t_state := TASK_SUSPENDED |> <| t_core := UINT32_MAX |>)
    (r1 fr)) as (E1 & E2 & E3 & E4).
  assert (quiescent s' ∧ current s' core = 0) as [??].
  { eapply released_settle; [done..|]. intros ? ->%elem_of_singleton. split; [done|].
    eapply holds_parked; [exact Hh'|unfold parked; rsimp; by rewrite E1, E2| |].
    - rsimp. apply (rl_frame _ _ _ _ Hoff), entered_frame. eauto.
    - by eapply released_nowhere. }
  split_and!; [done..|apply Hoff|]. eexists _, _. split; [exact Hh'|]. rsimp.
  split_and!; [done|done|by destruct (_ <? _)|]. rewrite orb_false_r. intros ?. apply E4. lia.
Qed.

Lemma suspend_svc_other :
  current s core ≠ 0 → r0 fr ∈ s_tasks s → (∀ c, current s c ≠ r0 fr) →
  wp (scheduler_suspend_svc core frame) (λ _ s', quiescent s' ∧ current s' core = 0 ∧ switch_pending core s' ∧
    ∃ tk' b ck', holds s' (r0 fr) tk' b ∧ t_state tk' = TASK_SUSPENDED ∧
      b = (r1 fr <? SCHEDULER_WAIT_FOREVER) ∧
      (b = true → t_timer_expires tk' = u32 (scheduler_get_ticks s + r1 fr)) ∧
      holds s' (current s core) ck' false ∧ t_state ck' = TASK_READY ∧ t_psp ck' = frame) s.
Proof.
  intros Hc Ht Hno. destruct (proj2 Hq) as [Hsp Hpr].
  destruct (current_running Hc) as (ck & Hck & _ & Hcst & Hccq & Hcco & Hcun).
  destruct (parked_task _ Ht Hno) as (tk & b & Hh & _ & Hpk & Hfp & _).
  pose proof (current_alive Hc) as Hcal.
  unfold scheduler_suspend_svc. wp_step. apply (wp_get_current core ∅); [done..|].
  wp_step. apply (wp_get_frame _ fr); [done|]. wp_step. apply wp_spin_lock; [done|].
  wp_step. apply (wp_alive_live ∅ _ _ fr); [by apply inv_spin|done|done|]. fold (entered 0).
  set (cur := current s core) in *. set (t := r0 fr) in *.
  assert (t ≠ cur) as Hne by (intros E; by eapply Hno).
  cbn [negb]. replace (t =? cur) with false by lia. cbn [negb].
  pose proof (held_open {[t; cur]} _ (entered_inv 0)) as Hd. specialize (Hh 0). specialize (Hck 0).
  do 2 wp_step. hstep held_queue_remove as Hh. wp_step. hstep held_timer_remove as Hh.
  wp_step. hstep held_upd_task as Hh. wp_step. hstep held_upd_task as Hck.
  hstep held_queue_push as Hck. wp_step. hstep held_timer_arm as Hh.
  eapply wp_leave_core; [exact Hd|set_solver|exact Hck|done|]. intros s' Hi' Hoff Hck' Hk _ _ _.
  apply Hk in Hh; [|done].
  destruct (armed_for_fields (entered 0) (tk <| t_current_queue := None |>
    <| t_state := TASK_SUSPENDED |> <| t_core := UINT32_MAX |>) (r1 fr)) as (E1 & E2 & E3 & E4).
  assert (quiescent s' ∧ current s' core = 0) as [??].
  { eapply released_settle; [done..|]. intros ? [->%elem_of_singleton| ->%elem_of_singleton]%elem_of_union.
    - split; [done|]. eapply holds_parked; [exact Hh|unfold parked; by rewrite E1, E2| |].
      + rewrite E3. by apply (rl_frame _ _ _ _ Hoff), entered_frame.
      + eapply released_nowhere; [done| |by intros c ?%Hno]. intros Hz. by destruct (task_nonzero t).
    - split; [done|]. eapply holds_parked; [exact Hck'|done| |].
      + rsimp. apply (rl_frame _ _ _ _ Hoff), entered_frame. eauto.
      + by eapply released_nowhere. }
  split_and!; [done..|apply Hoff|]. eexists _, _, _. split_and!; [exact Hh|done|by destruct (_ <? _)| |exact Hck'|done..].
  rewrite orb_false_r. intros ?. apply E4. lia.
Qed.

(** The same state, entered after the caller's [r0] was cleared. *)
Lemma reentered v :
  answered frame v (fr <| r0 := 0 |>) ((answered frame 0 fr s) <| s_spin := true |>) = entered v.
Proof. unfold entered, answered, over. cbn. by rewrite insert_insert_eq. Qed.

Lemma frame_cleared (Q : unit → sched → Prop) :
  Q tt (answered frame 0 fr s) → wp (upd_frame frame (λ fr, fr <| r0 := 0 |>)) Q s.
Proof. intros HQ. by apply (wp_upd_frame _ _ fr). Qed.

Definition wakeable (tk : task) : Prop := t_state tk = TASK_BLOCKED ∨ t_state tk = TASK_SUSPENDED.

Lemma resume_svc_wakes tk :
  r0 fr ∈ s_tasks s → task_at s !! r0 fr = Some tk → wakeable tk →
  wp (scheduler_resume_svc core frame) (λ _ s', quiescent s' ∧ switch_pending core s' ∧
    current s' core = current s core ∧
    readied s' (r0 fr) ∧
    (t_state tk = TASK_BLOCKED → r0 <$> frame_at s' !! t_psp tk = Some (u32 (- ECANCELED))) ∧
    (t_psp tk ≠ frame → r0 <$> frame_at s' !! frame = Some 0)) s.
Proof.
  intros Ht Htk Hst. destruct (proj2 Hq) as [Hsp Hpr]. set (t := r0 fr) in *.
  assert (∀ c, current s c ≠ t) as Hno.
  { intros c Hc. destruct (quiescent_consistent _ Ht) as (? & ? & [_ Ha]).
    destruct (Ha _ Hc). simplify_eq. destruct Hst; congruence. }
  destruct (parked_task _ Ht Hno) as (tk1 & b & Hh & ? & Hpk & Hfp & _). simplify_eq.
  unfold scheduler_resume_svc. wp_step. apply (wp_get_frame _ fr); [done|]. fold t.
  wp_step. apply frame_cleared. wp_step. apply wp_spin_lock; [done|].
  wp_step. apply (wp_alive_live ∅ _ _ (fr <| r0 := 0 |>)); [by apply inv_spin, inv_answered|apply lookup_insert_eq|done|].
  rewrite reentered. cbn [negb]. specialize (Hh 0).
  pose proof (held_open {[t]} _ (entered_inv 0)) as Hd.
  wp_step. apply wp_marked_alive; [apply Hd|done|]. wp_step.
  apply (wp_get_task _ tk); [done|]. rewrite bool_decide_eq_true_2 by exact Hst. cbv iota.
  do 2 wp_step. hstep held_timer_remove as Hh. wp_step. hstep held_queue_remove as Hh.
  assert (frame_at s1 = <[frame := fr <| r0 := 0 |>]> (frame_at s)) as Hf1.
  { rewrite (ot_frame _ _ _ Ho0). apply (ot_frame _ _ _ Ho). }
  wp_step. apply (wp_mono _ (λ _ s2, held {[t]} (entered 0) s2 ∧
    holds s2 t (tk <| t_current_queue := None |>) false ∧
    (t_state tk = TASK_BLOCKED → r0 <$> frame_at s2 !! t_psp tk = Some (u32 (- ECANCELED))) ∧
    (t_psp tk ≠ frame → r0 <$> frame_at s2 !! frame = Some 0))).
  { wp_step.
    - eapply held_upd_frame; [exact Hd|by apply entered_frame|]. intros s2 fr2 Hd2 Hk2 _ Hs2.
      split_and!; [done|by apply Hk2|..]; rewrite Hs2; rsimp; [by rewrite lookup_insert_eq|].
      intros ?. by rewrite lookup_insert_ne, Hf1, lookup_insert_eq.
    - split_and!; [done..| |].
      + intros ?. by case_bool_decide.
      + intros _. by rewrite Hf1, lookup_insert_eq. }
  intros [] s2 (Hd2 & Hh2 & Hf2 & Hf2').
  wp_step. hstep held_upd_task as Hh2. hstep held_queue_push as Hh2.
  eapply wp_release; [exact Hd|]. intros s' Hi' Hrl Hk Hfr' _ _. apply Hk in Hh2.
  rewrite <-(ot_frame _ _ _ Ho1), <-(ot_frame _ _ _ Ho2), <-Hfr' in Hf2, Hf2'.
  assert (quiescent s' ∧ current s' core = current s core) as [??].
  { eapply released_settle; [done..|]. intros ? ->%elem_of_singleton. split; [done|].
    eapply holds_parked; [exact Hh2|done|by apply (rl_frame _ _ _ _ Hrl), entered_frame|].
    intros c. rewrite (released_same _ _ _ Hrl). apply Hno. }
  split_and!; [done|apply Hrl|done|by eexists|done|done].
Qed.

(** Resuming a task that is ready or running is an error of the caller. *)
Lemma resume_svc_ready tk :
  r0 fr ∈ s_tasks s → task_at s !! r0 fr = Some tk → ¬ wakeable tk →
  wp (scheduler_resume_svc core frame) (λ _ s', quiescent s' ∧ switch_pending core s' ∧
    task_at s' = task_at s ∧ r0 <$> frame_at s' !! frame = Some (u32 (- EINVAL))) s.
Proof.
  intros Ht Htk Hst. destruct (proj2 Hq) as [Hsp Hpr]. set (t := r0 fr) in *.
  unfold scheduler_resume_svc. wp_step. apply (wp_get_frame _ fr); [done|]. fold t.
  wp_step. apply frame_cleared. wp_step. apply wp_spin_lock; [done|].
  wp_step. apply (wp_alive_live ∅ _ _ (fr <| r0 := 0 |>)); [by apply inv_spin, inv_answered|apply lookup_insert_eq|done|].
  rewrite reentered. cbn [negb]. pose proof (held_open ∅ _ (entered_inv 0)) as Hd.
  wp_step. apply wp_marked_alive; [apply Hd|done|]. wp_step.
  apply (wp_get_task _ tk); [done|]. rewrite bool_decide_eq_false_2 by exact Hst. cbv iota.
  wp_step. eapply (held_upd_frame ∅ (entered 0)); [done|apply entered_frame; eauto|].
  intros s1 fr1 Hd1 _ _ Hs1. eapply wp_release; [exact Hd1|]. intros s' Hi' Hrl _ Hf' _ Ht'.
  assert (quiescent s' ∧ current s' core = current s core) as [??] by (by eapply released_settle).
  split_and!; [done|apply Hrl|by rewrite Ht', Hs1|]. rewrite Hf', Hs1. rsimp. by rewrite lookup_insert_eq.
Qed.

Lemma resume_svc_dead :
  r0 fr ∉ s_tasks s → wp (scheduler_resume_svc core frame) (λ _ s', s' = refused) s.
Proof.
  intros Ht. unfold scheduler_resume_svc. wp_step. apply (wp_get_frame _ fr); [done|].
  wp_step. apply frame_cleared. wp_step. apply wp_spin_lock; [apply Hq|].
  wp_step. apply (wp_alive_dead _ _ (fr <| r0 := 0 |>)); [apply lookup_insert_eq|done|].
  rewrite reentered. unfold scheduler_spin_unlock. cbn [negb]. wp_step. apply refused_unlock.
Qed.

(** [refused] is a quiescent state. *)
Lemma refused_quiescent : quiescent refused.
Proof. split; [by apply inv_answered|apply Hq]. Qed.

(** ** Priority and yield *)
Lemma priority_svc_dead :
  r0 fr ∉ s_tasks s → wp (scheduler_priority_svc core frame) (λ _ s', s' = refused) s.
Proof.
  intros Ht. unfold scheduler_priority_svc. wp_step. apply (wp_get_frame _ fr); [done|].
  wp_step. apply wp_spin_lock; [apply Hq|]. wp_step. apply (wp_alive_dead _ _ fr); [done..|].
  unfold scheduler_spin_unlock. cbn [negb]. wp_step. apply refused_unlock.
Qed.

Lemma priority_svc_sets tk :
  r0 fr ∈ s_tasks s → task_at s !! r0 fr = Some tk →
  wp (scheduler_priority_svc core frame) (λ _ s', quiescent s' ∧ switch_pending core s' ∧
    ∃ b, holds s' (r0 fr) (tk <| t_base_priority := r1 fr |> <| t_current_priority := r1 fr |>) b) s.
Proof.
  intros Ht Htk. destruct (proj2 Hq) as [Hsp Hpr]. set (t := r0 fr) in *.
  unfold scheduler_priority_svc. wp_step. apply (wp_get_frame _ fr); [done|]. fold t.
  wp_step. apply wp_spin_lock; [done|].
  wp_step. apply (wp_alive_live ∅ _ _ fr); [by apply inv_spin|done|done|]. fold (entered 0).
  pose proof (held_open {[t]} _ (entered_inv 0)) as Hd.
  pose proof (entered_holds 0 _ _ _ (holds_open _ _ _ Htk)) as Hh.
  cbn [negb]. wp_step. apply wp_marked_alive; [apply Hd|done|].
  wp_step. hstep held_upd_task as Hh. wp_step. hstep held_reprioritize as Hh.
  eapply wp_release; [exact Hd|]. intros s' Hi' Hrl Hk _ _ _. apply Hk in Hh.
  assert (quiescent s' ∧ current s' core = current s core) as [??].
  { eapply released_settle; [done..|]. intros ? ->%elem_of_singleton. split; [done|].
    destruct (quiescent_consistent _ Ht) as (tk1 & ? & Ha). simplify_eq.
    eapply holds_agrees; [exact Ha|exact Hh|done..| |].
    - intros c. by rewrite (released_same _ _ _ Hrl).
    - intros a ?. by apply (rl_frame _ _ _ _ Hrl), entered_frame. }
  split_and!; [done|apply Hrl|]. by eexists.
Qed.

Lemma yield_svc_ok :
  wp (scheduler_yield_svc core frame) (λ _ s', quiescent s' ∧ switch_pending core s' ∧
    task_at s' = task_at s ∧ s_ready s' = s_ready s) s.
Proof.
  apply wp_request_switch. intros s' Hc Hcur Hp.
  destruct (cpu_step_rest _ _ Hc) as (E1 & E2 & E3 & E4 & E5 & E6 & E7 & E8 & E9).
  split_and!; try done. split; [by eapply inv_cpu|]. rewrite E8, E9. apply Hq.
Qed.

(** ** Create *)

(** A task as [scheduler_create] hands it to the service. *)
Record fresh_task (t : Z) (tk : task) : Prop := {
  ft_entry : task_at s !! t = Some tk;
  ft_marker : t_marker tk = SCHEDULER_TASK_MARKER;
  ft_unlisted : t ∉ s_tasks s;
  ft_queue : t_current_queue tk = None;
  ft_frame : is_Some (frame_at s !! t_psp tk);
  ft_guard : guarded s tk;
  ft_nowhere c : current s c ≠ t
}.

Definition listed (t : Z) : sched := (s <| s_spin := true |>) <| s_tasks ::= λ l, l ++ [t] |>.

Lemma listed_held t tk : fresh_task t tk → held {[t]} (listed t) (listed t) ∧ holds (listed t) t tk false.
Proof.
  intros Hf. split; [split; [|apply calm_refl]|split].
  - apply (inv_list _ _ _ tk); [|apply Hf|set_solver|apply Hf..].
    eapply inv_weaken; [by apply inv_spin|set_solver].
  - exists (t_owned_futexes tk). rewrite (ft_entry _ _ Hf : task_at (listed t) !! t = _). by destruct tk.
  - split; [|done]. intros Ht. destruct (ft_unlisted _ _ Hf). by apply (si_timer_alive _ (ix_struct _ _ Hi)).
Qed.

(** Does the new task outrank the caller? *)
Definition outranks (tk : task) : bool := scheduler_is_running s && (t_current_priority tk <? priority_of s (current s core)).

(** The end of the creation of a ready task. *)
Lemma create_kick t tk s1 :
  fresh_task t tk → (scheduler_is_running s = true → current s core ≠ 0) →
  held {[t]} (listed t) s1 → others t (listed t) s1 →
  wp (running <- gets scheduler_is_running ;;
      if (running : bool) then
        current <- sched_get_current core ;;
        cur <- get_task current ;;
        when (t_current_priority tk <? t_current_priority cur) (scheduler_request_switch core)
      else ret tt)
    (λ _ s2, inv_x {[t]} s2 ∧ kept (listed t) s2 ∧ frame_at s2 = frame_at s ∧
       (∀ tk' b, holds s1 t tk' b → holds s2 t tk' b) ∧
       (outranks tk = true → switch_pending core s2)) s1.
Proof.
  intros Hf Hrun Hd Ho. pose proof (hd_calm _ _ _ Hd) as Hm.
  pose proof (ot_frame _ _ _ Ho : frame_at s1 = frame_at s) as Hfr1. do 2 wp_step.
  replace (scheduler_is_running s1) with (scheduler_is_running s).
  2: { unfold scheduler_is_running. by rewrite (cm_present _ _ Hm), (cm_running _ _ Hm). }
  unfold outranks. destruct (scheduler_is_running s) eqn:Hr.
  2: { wp_step. split_and!; [apply Hd|by apply calm_kept|done..]. }
  specialize (Hrun eq_refl). pose proof (current_alive Hrun) as Hal.
  destruct (current_running Hrun) as (ck & _ & Hck & _).
  pose proof (calm_current _ _ core Hm : current s1 core = current s core) as Hcur.
  destruct (others_task _ _ _ (current s core) ck Ho) as (ck' & Hck' & Hst); [apply Hf|exact Hck|].
  wp_step. eapply wp_get_current; [apply Hd|rewrite Hcur, (cm_tasks _ _ Hm)|].
  { intros _. apply elem_of_app. by left. }
  rewrite Hcur. wp_step. apply (wp_get_task _ ck'); [done|].
  replace (t_current_priority ck') with (priority_of s (current s core)).
  2: { rewrite (priority_of_lookup _ _ _ Hck). symmetry. exact (f_equal t_current_priority Hst). }
  cbn [andb]. wp_step.
  - apply wp_request_switch. intros s2 Hc2 Hcur2 Hp2.
    destruct (cpu_step_rest _ _ Hc2) as (_ & _ & E3 & _).
    split_and!; [by eapply inv_cpu; [apply Hd|..]| |by rewrite E3|intros ??; by apply cpu_step_holds|done].
    eapply kept_trans; [by apply calm_kept|by apply cpu_step_kept].
  - split_and!; [apply Hd|by apply calm_kept|done|done|]. intros ?. congruence.
Qed.

Lemma create_svc_ok tk :
  r0 fr ≠ 0 → fresh_task (r0 fr) tk → (scheduler_is_running s = true → current s core ≠ 0) →
  let suspended := has (t_flags tk) SCHEDULER_CREATE_SUSPENDED in
  wp (scheduler_create_svc core frame) (λ _ s', quiescent s' ∧
    s_tasks s' = s_tasks s ++ [r0 fr] ∧
    (∃ tk', holds s' (r0 fr) tk' false ∧
       t_state tk' = (if suspended then TASK_SUSPENDED else TASK_READY)) ∧
    (suspended = false → outranks tk = true → switch_pending core s') ∧ frame_at s' = frame_at s) s.
Proof.
  intros Hz Hf Hrun suspended. destruct (proj2 Hq) as [Hsp Hpr]. set (t := r0 fr) in *.
  destruct (listed_held t tk Hf) as [Hd Hh].
  assert (t ∈ s_tasks (listed t)) as Hin by (apply elem_of_app; right; set_solver).
  pose proof (ft_queue _ _ Hf) as Hcq.
  unfold scheduler_create_svc. wp_step. apply (wp_get_frame _ fr); [done|]. fold t.
  do 3 wp_step. wp_step; [rewrite Hpr, andb_true_r; lia|]. wp_step. apply wp_spin_lock; [done|].
  wp_step. apply (wp_marked _ tk); [apply Hf|apply Hf|]. do 3 wp_step.
  rewrite bool_decide_eq_false_2 by apply Hf. cbn [when]. wp_step. do 2 wp_step.
  fold (listed t). wp_step. apply (wp_get_task _ tk); [apply Hf|]. cbn beta. fold suspended.
  wp_step. apply (wp_mono _ (λ _ s2, inv_x {[t]} s2 ∧ kept (listed t) s2 ∧ frame_at s2 = frame_at s ∧
    (∃ tk', holds s2 t tk' false ∧ t_psp tk' = t_psp tk ∧ parked tk' false ∧
       t_state tk' = (if suspended then TASK_SUSPENDED else TASK_READY)) ∧
    (suspended = false → outranks tk = true → switch_pending core s2))).
  { destruct suspended; cbn [negb].
    - hstep held_upd_task as Hh. split_and!; [apply Hd0|apply calm_kept, Hd0|apply (ot_frame _ _ _ Ho)| |done].
      eexists. split; [exact Hh|]. split_and!; [done|apply Hf|done].
    - wp_step. hstep held_upd_task as Hh. wp_step. hstep held_queue_push as Hh.
      eapply wp_mono; [apply create_kick; [done|done|done|by eapply others_trans]|].
      intros [] s2 (Hi2 & Hk2 & Hf2 & Hh2 & Hp2). split_and!; [done..| |by intros _].
      eexists. split; [by apply Hh2|done]. }
  intros [] s2 (Hi2 & Hk2 & Hf2 & (tk' & Hh2 & Hpsp & Hpk & Hst) & Hp2).
  eapply wp_unlock; [exact Hi2|]. intros Hi3. split; [split; [|split; [done|]]|split_and!].
  - eapply inv_restore_live; [exact (inv_weaken _ ({[t]} ∪ ∅) _ Hi3 ltac:(set_solver))|..].
    + rsimp. by rewrite (kp_tasks _ _ Hk2).
    + eapply (holds_parked _ _ tk'); [done|done| |].
      * rsimp. rewrite Hf2, Hpsp. apply Hf.
      * intros c. change (current s2 c ≠ t). rewrite (kp_current _ _ Hk2). apply Hf.
  - rsimp. by rewrite (kp_present _ _ Hk2).
  - apply (kp_tasks _ _ Hk2).
  - by exists tk'.
  - done.
  - done.
Qed.

(** ** Wait *)

(** The arguments of a wait: a live futex, and for a priority-inheritance futex
    a word that names a live owner. *)
Record wait_args (fx : futex) : Prop := {
  wa_futex : futex_at s !! r0 fr = Some fx;
  wa_marker : f_marker fx = SCHEDULER_FUTEX_MARKER;
  wa_address : r0 fr ≠ 0;
  wa_owner : Z.land (f_flags fx) PI_AND_OWNER = PI_AND_OWNER →
    owner_of (contended (f_flags fx) (r1 fr)) ∈ s_tasks s
}.

(** The caller once it waits. *)
Definition waiting (ck : task) (d : Z) : task :=
  (armed_for (entered 0) ck d) <| t_state := TASK_BLOCKED |> <| t_core := UINT32_MAX |>
    <| t_current_queue := Some (waiters (r0 fr)) |>.

Lemma waiting_fields ck d :
  t_state (waiting ck d) = TASK_BLOCKED ∧ t_current_queue (waiting ck d) = Some (waiters (r0 fr)) ∧
  (d < SCHEDULER_WAIT_FOREVER → t_timer_expires (waiting ck d) = u32 (scheduler_get_ticks s + d)).
Proof. split_and!; [done..|]. apply (armed_for_fields (entered 0) ck d). Qed.

Lemma wait_block fx ck s1 :
  let cur := current s core in
  let value := contended (f_flags fx) (r1 fr) in
  wait_args fx → cur ∈ s_tasks s → held {[cur]} (entered 0) s1 → holds s1 cur ck false →
  t_current_queue ck = None →
  wp (when (r2 fr <? SCHEDULER_WAIT_FOREVER) (scheduler_timer_push cur (r2 fr)) ;;;
      upd_task cur (λ tk, tk <| t_state := TASK_BLOCKED |> <| t_core := UINT32_MAX |>) ;;;
      sched_queue_push (waiters (r0 fr)) cur ;;;
      when (Z.land (f_flags fx) PI_AND_OWNER =? PI_AND_OWNER)
        (marked_task (owner_of value) ;;;
         linked <- gets (owned_linked (r0 fr)) ;;
         when (negb linked) (add_owned (owner_of value) (r0 fr)) ;;;
         highest <- sched_queue_highest_priority (waiters (r0 fr)) ;;
         otk <- get_task (owner_of value) ;;
         when (highest <? t_current_priority otk) (sched_queue_reprioritize (owner_of value) highest)))
    (λ _ s2, held {[cur]} (entered 0) s2 ∧
       (∃ p, holds s2 cur ((waiting ck (r2 fr)) <| t_current_priority := p |>) (r2 fr <? SCHEDULER_WAIT_FOREVER)) ∧
       frame_at s2 = frame_at s1 ∧ word_at s2 = word_at s1 ∧
       (Z.land (f_flags fx) PI_AND_OWNER = PI_AND_OWNER → ∃ otk, task_at s2 !! owner_of value = Some otk ∧
          t_current_priority otk <= t_current_priority ck)) s1.
Proof.
  intros cur value Ha Hcal Hd Hh Hccq.
  destruct (armed_for_fields (entered 0) ck (r2 fr)) as (_ & E2 & _ & _).
  assert (is_Some (queue (entered 0) (waiters (r0 fr)))) as Hqs 
    by (exists (f_waiters fx); change (f_waiters <$> futex_at s !! r0 fr = Some (f_waiters fx)); by rewrite (wa_futex _ Ha)).
  wp_step. hstep held_timer_arm as Hh. wp_step. hstep held_upd_task as Hh.
  rewrite Hccq in E2. wp_step. hstep held_queue_push as Hh. rewrite orb_false_r in Hh.
  assert (frame_at s3 = frame_at s1 ∧ word_at s3 = word_at s1) as [Hf3 Hw3].
  { rewrite (ot_frame _ _ _ Ho1), (ot_word _ _ _ Ho1), (ot_frame _ _ _ Ho0), (ot_word _ _ _ Ho0).
    by rewrite (ot_frame _ _ _ Ho), (ot_word _ _ _ Ho). }
  wp_step.
  - destruct Hh as [[o Hto] Hb]. pose proof (ix_struct _ _ (hd_inv _ _ _ Hd0)) as Hs3.
    destruct (si_queued _ Hs3 _ _ (waiters (r0 fr)) Hto eq_refl) as (l & Hl & Hin).
    eapply wp_mono; [eapply wp_boost; [exact Hd0| |exact Hl|exact Hin|exact Hto]|].
    { rewrite (cm_tasks _ _ (hd_calm _ _ _ Hd0)). apply (wa_owner _ Ha). lia. }
    intros [] s4 [Hr (otk & Hot & Hle)].
    split_and!; [apply Hr| |rewrite (rt_frame _ _ _ _ Hr); done|rewrite (rt_word _ _ _ _ Hr); done|].
    + apply (rt_holds _ _ _ _ Hr). split; [by exists o|done].
    + intros _. exists otk. split; [done|]. by destruct (r2 fr <? SCHEDULER_WAIT_FOREVER) eqn:E; unfold armed_for in Hle; rewrite E in Hle.
  - split_and!; [done|by apply holds_priority|done|done|lia].
Qed.

(** What a wait leaves when the word had the expected value (or was contended
    on the way in): the caller is queued on the futex, its timer armed, the word
    marked contended, and the owner of an inheritance futex boosted. *)
Record blocked_on (fx : futex) (s' : sched) : Prop := {
  bo_word : word_at s' !! f_value fx = Some (contended (f_flags fx) (r1 fr));
  bo_caller : ∃ ck, holds s' (current s core) ck (r2 fr <? SCHEDULER_WAIT_FOREVER) ∧
    t_state ck = TASK_BLOCKED ∧ t_psp ck = frame ∧ t_current_queue ck = Some (waiters (r0 fr)) ∧
    (r2 fr < SCHEDULER_WAIT_FOREVER → t_timer_expires ck = u32 (scheduler_get_ticks s + r2 fr));
  bo_boost : Z.land (f_flags fx) PI_AND_OWNER = PI_AND_OWNER → ∃ otk,
    task_at s' !! owner_of (contended (f_flags fx) (r1 fr)) = Some otk ∧
    t_current_priority otk <= priority_of s (current s core)
}.

(** Otherwise the caller just gives up its core. *)
Definition passed_by (s' : sched) : Prop :=
  word_at s' = word_at s ∧ ∃ ck, holds s' (current s core) ck false ∧ t_state ck = TASK_READY ∧
    t_psp ck = frame ∧ t_current_queue ck = Some ready_queue.

Lemma wait_svc_ok fx w :
  wait_args fx → current s core ≠ 0 → word_at s !! f_value fx = Some w →
  wp (scheduler_wait_svc core frame) (λ _ s', quiescent s' ∧ current s' core = 0 ∧
    switch_pending core s' ∧ r0 <$> frame_at s' !! frame = Some 0 ∧
    (if (w =? r1 fr) || (w =? contended (f_flags fx) (r1 fr)) then blocked_on fx s' else passed_by s')) s.
Proof.
  intros Ha Hc Hw. destruct (proj2 Hq) as [Hsp Hpr].
  destruct (current_running Hc) as (ck & Hck & Hcl & Hcst & Hccq & Hcco & Hcun).
  pose proof (current_alive Hc) as Hcal. set (value := contended (f_flags fx) (r1 fr)).
  pose proof (held_open {[current s core]} _ (entered_inv 0)) as Hd. specialize (Hck 0).
  unfold scheduler_wait_svc. wp_step. apply (wp_get_frame _ fr); [done|].
  wp_step. apply (wp_get_futex _ fx); [apply Ha|].
  wp_step. apply (wp_get_current core ∅); [done..|]. fold value.
  wp_step. apply wp_spin_lock; [done|]. wp_step. wp_step.
  { rewrite (wa_marker _ Ha), Z.eqb_refl. pose proof (wa_address _ Ha). lia. }
  wp_step. apply (wp_upd_frame _ _ fr); [done|]. fold (answered frame 0 fr (s <| s_spin := true |>)).
  fold (entered 0). wp_step.
  apply (wp_mono _ (λ cx s1, fst cx || (snd cx =? value) = (w =? r1 fr) || (w =? value) ∧
    held {[current s core]} (entered 0) s1 ∧ holds s1 (current s core) ck false ∧
    frame_at s1 = frame_at (entered 0) ∧
    (if (w =? r1 fr) || (w =? value) then word_at s1 !! f_value fx = Some value else word_at s1 = word_at s))).
  { eapply wp_compare_exchange; [exact Hd|exact Hw|..].
    - intros s1 -> Hd1 Hk1 ->. rewrite Z.eqb_refl. cbn [orb fst].
      split_and!; [done..|by apply Hk1|done|]. apply lookup_insert_eq.
    - intros Hn. replace (w =? r1 fr) with false by lia. cbn [fst snd orb]. split_and!; try done.
      destruct (w =? value) eqn:E; [|done]. replace value with w by lia. done. }
  intros cx s1 (-> & Hd1 & Hh1 & Hf1 & Hw1). clear Hd Hck.
  assert (∀ t c, t ≠ 0 → current (entered 0) c = t → current s c = t) as Hcs by done.
  wp_step. destruct (_ || _) eqn:Hgo.
  - eapply wp_mono; [by apply (wait_block fx ck)|].
    intros [] s2 (Hd2 & [p Hh2] & Hf2 & Hw2 & Hpi).
    eapply wp_leave_core; [exact Hd2|set_solver|exact Hh2|done|]. intros s' Hi' Hrl Hh' _ Hfr' Hwd' Hpr'.
    destruct (waiting_fields ck (r2 fr)) as (E1 & E2 & E3).
    assert (quiescent s' ∧ current s' core = 0) as [??].
    { eapply released_settle; [done..|]. intros ? ->%elem_of_singleton. split; [done|].
      eapply holds_parked; [exact Hh'|unfold parked; rsimp; rewrite E1; by eexists| |].
      - rsimp. apply (rl_frame _ _ _ _ Hrl), entered_frame. eauto.
      - by eapply released_nowhere. }
    split_and!; [done|done|apply Hrl| |].
    + rewrite Hfr', Hf2, Hf1. by apply entered_r0.
    + split; [by rewrite Hwd', Hw2| |].
      * eexists. split; [exact Hh'|done].
      * intros Hf. destruct (Hpi Hf) as (otk & Hot & Hle). specialize (Hpr' (owner_of value)).
        rewrite (Hot : task_at s2 !! owner_of value = _) in Hpr'.
        destruct (task_at s' !! owner_of value) as [otk'|] eqn:Hot'; [|done].
        exists otk'. split; [done|]. rewrite (priority_of_lookup _ _ _ Hcl). cbn in Hpr'.
        assert (t_current_priority otk' = t_current_priority otk) by congruence. lia.
  - wp_step. hstep held_upd_task as Hh1. hstep held_queue_push as Hh1.
    eapply wp_leave_core; [eassumption|set_solver|exact Hh1|done|]. intros s' Hi' Hrl Hh' _ Hfr' Hwd' _.
    assert (quiescent s' ∧ current s' core = 0) as [??].
    { eapply released_settle; [done..|]. intros ? ->%elem_of_singleton. split; [done|].
      eapply holds_parked; [exact Hh'|done| |].
      - rsimp. apply (rl_frame _ _ _ _ Hrl), entered_frame. eauto.
      - by eapply released_nowhere. }
    split_and!; [done|done|apply Hrl| |split].
    + rewrite Hfr', (ot_frame _ _ _ Ho0), (ot_frame _ _ _ Ho), Hf1. by apply entered_r0.
    + by rewrite Hwd', (ot_word _ _ _ Ho0), (ot_word _ _ _ Ho), Hw1.
    + eexists. split; [exact Hh'|done].
Qed.

(** ** Wake *)
Record wake_args (fx : futex) (v : Z) : Prop := {
  ka_futex : futex_at s !! r0 fr = Some fx;
  ka_marker : f_marker fx = SCHEDULER_FUTEX_MARKER;
  ka_address : r0 fr ≠ 0;
  ka_word : word_at s !! f_value fx = Some v;
  ka_owner : inherits fx = true → owner_of v ∈ s_tasks s
}.

(** What a wake of [fx] leaves alone. *)
Record wake_frame (fx : futex) (s1 s2 : sched) : Prop := {
  wf_word a : a ≠ f_value fx → word_at s2 !! a = word_at s1 !! a;
  wf_frame a : a ≠ frame → frame_at s2 !! a = frame_at s1 !! a;
  wf_futex f : futex_id <$> futex_at s2 !! f = futex_id <$> futex_at s1 !! f;
  wf_ipsr c : ipsr (cls s2 c) = ipsr (cls s1 c);
  wf_tasks : s_tasks s2 = s_tasks s1;
  wf_locked : s_locked s2 = s_locked s1
}.

Lemma wake_svc_ok fx v :
  let all := negb (r1 fr =? 0) in
  let n := Z.of_nat (length (chosen fx all (f_waiters fx))) in
  wake_args fx v →
  wp (scheduler_wake_svc core frame) (λ _ s', quiescent s' ∧ current s' core = current s core ∧
    r0 <$> frame_at s' !! frame = Some (u32 n) ∧ (0 < u32 n → switch_pending core s') ∧
    ∃ l1 l2, l1 ≡ₚ f_waiters fx ∧ (inherits fx = false → l1 = f_waiters fx) ∧
      l1 = chosen fx all l1 ++ l2 ∧ queue s' (waiters (r0 fr)) = Some l2 ∧
      (∀ t, t ∈ chosen fx all l1 → readied s' t) ∧
      word_at s' !! f_value fx = Some (final_word fx all l1 v) ∧ wake_frame fx s s') s.
Proof.
  intros all n Ha. destruct (proj2 Hq) as [Hsp Hpr].
  unfold scheduler_wake_svc. wp_step. apply (wp_get_frame _ fr); [done|].
  wp_step. apply wp_spin_lock; [done|]. wp_step. apply (wp_get_futex _ fx); [apply Ha|].
  wp_step. wp_step. { rewrite (ka_marker _ _ Ha), Z.eqb_refl. pose proof (ka_address _ _ Ha). lia. }
  set (s1 := s <| s_spin := true |>).
  assert (held ∅ s1 s1) as Hd by (apply held_open; by apply inv_spin).
  assert (wp (scheduler_wake_futex (r0 fr) all)
    (λ n s', futex_woken s1 (r0 fr) fx all (f_waiters fx) v n s1 s') s1) as Hw.
  { apply scheduler_wake_futex_ok; [|done|apply Ha| |apply Ha|apply Ha].
    - eapply ix_futex; [exact Hi|apply Ha].
    - change (f_waiters <$> futex_at s !! r0 fr = Some (f_waiters fx)). by rewrite (ka_futex _ _ Ha). }
  wp_step. eapply wp_mono; [exact Hw|]. clear Hw.
  intros m s2 [Hd2 -> (l1 & l2 & Hp & Hil & E & Hl2 & Hr2 & Hw2) _ _ Hf2 Ho2].
  wp_step. eapply held_upd_frame; [exact Hd2|by exists fr|]. intros s3 fr3 Hd3 Hk3 Hfr3 Hs3.
  assert (word_at s3 = word_at s2 ∧ queue s3 (waiters (r0 fr)) = queue s2 (waiters (r0 fr))) as [Hw3 Hq3] by (by rewrite Hs3).
  assert (r0 <$> frame_at s3 !! frame = Some (u32 n)) as Hr3 by (rewrite Hs3; rsimp; by rewrite lookup_insert_eq).
  assert (∀ t, readied s2 t → readied s3 t) as Hrd.
  { intros t (tk & Hh & ?). exists tk. split; [by apply Hk3|done]. }
  wp_step. apply (wp_mono _ (λ _ s4, cpu_step s3 s4 ∧ (∀ c, current s4 c = current s3 c) ∧
    (0 < u32 n → switch_pending core s4) ∧ s_locked s4 = s_locked s3)).
  { wp_step.
    - apply wp_request_switch. intros s' Hc ? ?. split_and!; [done..|]. by rewrite (cs_rest _ _ Hc).
    - split_and!; [split; by destruct s3|done|intros Hn; unfold n in Hn; lia|done]. }
  intros [] s4 (Hc4 & Hcur4 & Hp4 & Hk4). destruct (cpu_step_rest _ _ Hc4) as (E1 & E2 & E3 & E4 & E5 & E6 & E7 & E8 & E9).
  assert (inv_x ∅ s4) as Hi4 by (by eapply inv_cpu; [apply Hd3|..]).
  eapply wp_unlock; [exact Hi4|]. intros Hi5. split_and!.
  - split; [done|]. split; [done|]. rsimp. rewrite E9. by rewrite (cm_present _ _ (hd_calm _ _ _ Hd3)).
  - transitivity (current s4 core); [done|]. by rewrite Hcur4, (calm_current _ _ _ (hd_calm _ _ _ Hd3)).
  - rsimp. by rewrite E3.
  - done.
  - exists l1, l2. split_and!; try done.
    + transitivity (queue s4 (waiters (r0 fr))); [done|]. cbn [queue]. rewrite E2. by rewrite <-Hl2, <-Hq3.
    + intros t Ht. destruct (Hrd t (Hr2 t Ht)) as (tk & Hh & ?). exists tk.
      split; [|done]. exact (cpu_step_holds _ _ _ _ _ Hc4 Hh).
    + rsimp. by rewrite E4, Hw3.
    + pose proof (hd_calm _ _ _ Hd2) as Hm2. split; rsimp.
      * intros a Hne. rewrite E4, Hw3. by apply Ho2.
      * intros a Hne. rewrite E3, Hs3. rsimp. rewrite lookup_insert_ne by done. by rewrite Hf2.
      * intros g. rewrite E2, Hs3. rsimp. by rewrite (cm_futex _ _ Hm2).
      * intros c. change (ipsr (cls s4 c) = ipsr (cls s c)). rewrite (cs_ipsr _ _ Hc4), Hs3.
        unfold cls. rsimp. by rewrite (cm_cpu _ _ Hm2).
      * rewrite E5, Hs3. rsimp. by rewrite (cm_tasks _ _ Hm2).
      * rewrite Hk4, Hs3. rsimp. by rewrite (cm_locked _ _ Hm2).
Qed.

(** ** Terminate *)
Lemma terminate_svc_dead :
  r0 fr ∉ s_tasks s → wp (scheduler_terminate_svc core frame) (λ _ s', s' = refused) s.
Proof.
  intros Ht. unfold scheduler_terminate_svc. wp_step.
  apply (wp_get_current core ∅); [done|apply current_alive|].
  wp_step. apply (wp_get_frame _ fr); [done|].
  wp_step. apply wp_spin_lock; [apply Hq|]. wp_step. apply (wp_alive_dead _ _ fr); [done..|].
  unfold scheduler_spin_unlock. cbn [negb]. wp_step. apply refused_unlock.
Qed.

Context `{!EnvironmentLaws}.

Lemma terminate_svc_ends :
  r0 fr ∈ s_tasks s → (∀ c, current s c = r0 fr → c = core) →
  wp (scheduler_terminate_svc core frame) (λ _ s', quiescent s' ∧
    s_tasks s' = without (r0 fr) (s_tasks s) ∧
    (r0 fr = current s core → switch_pending core s' ∧ current s' core = 0) ∧
    (r0 fr ≠ current s core → current s' core = current s core)) s.
Proof.
  intros Ht Hun. destruct (proj2 Hq) as [Hsp Hpr]. set (t := r0 fr) in *.
  destruct (quiescent_consistent _ Ht) as (tk & Htk & _).
  unfold scheduler_terminate_svc. wp_step. apply (wp_get_current core ∅); [done|apply current_alive|].
  wp_step. apply (wp_get_frame _ fr); [done|]. fold t. wp_step. apply wp_spin_lock; [done|].
  wp_step. apply (wp_alive_live ∅ _ _ fr); [by apply inv_spin|done|done|]. fold (entered 0).
  pose proof (held_open {[t]} _ (entered_inv 0)) as Hd.
  pose proof (entered_holds 0 _ _ _ (holds_open _ _ _ Htk)) as Hh.
  cbn [negb]. wp_step. hstep held_upd_task as Hh. wp_step. hstep held_queue_remove as Hh.
  wp_step. hstep held_timer_remove as Hh. do 2 wp_step.
  destruct (Hh) as [[o Hto] Htm]. set (s3 := s2 <| s_tasks ::= without t |>).
  assert (inv_x {[t]} s3) as Hi3.
  { apply inv_unlist; [apply Hd0|set_solver|by rewrite Htm|]. intros tk' ?. by simplify_eq. }
  assert (s_tasks s3 = without t (s_tasks s)) as Hl3.
  { unfold s3. rsimp. by rewrite (cm_tasks _ _ (hd_calm _ _ _ Hd0)). }
  assert (∀ c, current s3 c = current s c) as Hc3.
  { intros c. apply (calm_current (entered 0) s2 c), Hd0. }
  wp_step. eapply wp_terminated_hook; [exact Hi3|exact Hto|..].
  { destruct (si_alive _ (ix_struct _ _ Hi) _ Ht) as (? & ? & ?). by simplify_eq. }
  intros s4 Hi4 Hk4.
  assert (t ∉ s_tasks s4) as Hdead by (rewrite (kp_tasks _ _ Hk4), Hl3, elem_of_without; naive_solver).
  assert (∀ c, current s4 c = current s c) as Hc4 by (intros c; by rewrite (kp_current _ _ Hk4)).
  assert (s_present s4 = true) as Hp4.
  { rewrite (kp_present _ _ Hk4). transitivity (s_present (entered 0)); [apply (cm_present _ _ (hd_calm _ _ _ Hd0))|exact Hpr]. }
  do 2 wp_step.
  - wp_step. apply (wp_sched_set_current core 0 _ s4 (ix_struct _ _ Hi4) (or_introl eq_refl)).
    intros s5 Hs5 Hc5. apply wp_request_switch. intros s6 Hs6 Hc6 Hp6.
    pose proof (cpu_step_trans _ _ _ Hs5 Hs6) as Hs46.
    destruct (cpu_step_rest _ _ Hs46) as (E1 & E2 & E3 & E4 & E5 & E6 & E7 & E8 & E9).
    assert (∀ c, current s6 c = if decide (c = core) then 0 else current s4 c) as Hc46.
    { intros c. by rewrite Hc6, Hc5. }
    assert (inv_x {[t]} s6) as Hi6.
    { apply inv_drop_null. eapply inv_weaken; [by eapply (inv_cpu_set _ core 0); eauto|].
      rewrite Hc4. replace t with (current s core) by lia. set_solver. }
    eapply wp_unlock; [exact Hi6|]. intros Hi7.
    assert (current s6 core = 0) as Hz by (by rewrite Hc46, decide_True).
    split; [split; [|split; [done|by rewrite <-Hp4, <-E9]]|split_and!].
    + apply (inv_buried t); [done|by rewrite <-E5 in Hdead|].
      intros c. change (current s6 c ≠ t). rewrite Hc46. case_decide as Hcc.
      * intros Hz'. by eapply task_nonzero.
      * rewrite Hc4. by intros ?%Hun.
    + rewrite <-Hl3, <-(kp_tasks _ _ Hk4). exact E5.
    + intros _. by split.
    + lia.
  - eapply wp_unlock; [exact Hi4|]. intros Hi7.
    split; [split; [|split; [done|done]]|split_and!].
    + apply (inv_buried t); [done|done|]. intros c. change (current s4 c ≠ t). rewrite Hc4.
      intros Hcc. pose proof (Hun _ Hcc) as ->. lia.
    + by rewrite <-Hl3, <-(kp_tasks _ _ Hk4).
    + lia.
    + intros _. apply Hc4.
Qed.
End svc.
