(* ===== verification/SchedulerSwitch.v ===== *)
(** * The scheduler: the context switch and the tick

    [scheduler_switch] takes the running task off its core, drains the deferred
    wakes, readies the tasks whose timers expired, and dispatches the first
    ready task the core may run, idling until there is one. *)
From S2P Require Import Prelude Scheduler SchedulerSvc SchedulerInv SchedulerSafe SchedulerWake.

(** The state of a core inside the loop of [scheduler_switch]. *)
Record switching (core : Z) (s : sched) : Prop := {
  sw_inv : inv_x ∅ s;
  sw_spin : s_spin s = true;
  sw_present : s_present s = true;
  sw_current : current s core = 0
}.

Lemma switching_held core s0 s : switching core s0 → held ∅ s0 s → switching core s.
Proof.
  intros [Hi Hs Hp Hc] [Hi' Hm]. split; [done| | |].
  - by rewrite (cm_spin _ _ Hm).
  - by rewrite (cm_present _ _ Hm).
  - by rewrite (calm_current _ _ _ Hm).
Qed.

(** ** Core-local updates *)
Record local_step (g : cpu → cpu) (c : cpu) : Prop := {
  ls_current : current_task (g c) = current_task c;
  ls_initial : scheduler_initial_frame (g c) = scheduler_initial_frame c;
  ls_ipsr : ipsr (g c) = ipsr c;
  ls_length : length (deferred_wake (g c)) = length (deferred_wake c);
  ls_deferred w : w ∈ deferred_wake (g c) → w = 0 ∨ w ∈ deferred_wake c
}.

Definition on_core (core : Z) (g : cpu → cpu) (s : sched) : sched :=
  s <| cpu_at := <[core := g (cls s core)]> (cpu_at s) |>.

Lemma cls_on_core core g s c :
  cls (on_core core g s) c = if decide (c = core) then g (cls s core) else cls s c.
Proof. apply cls_upd. Qed.

Lemma current_on_core core g s : local_step g (cls s core) → ∀ c, current (on_core core g s) c = current s c.
Proof.
  intros Hg c. unfold current. rewrite cls_on_core. case_decide; [subst; by rewrite (ls_current _ _ Hg)|done].
Qed.

Lemma inv_on_core X core g s : inv_x X s → local_step g (cls s core) → inv_x X (on_core core g s).
Proof.
  intros Hi Hg. pose proof (current_on_core core g s Hg) as Hc. split; try apply Hi.
  - apply (struct_cpu s); [done|apply Hi].
  - intros t Ht HX. destruct (ix_consistent _ _ Hi t Ht HX) as (tk & Htk & Ha). exists tk.
    split; [done|]. eapply agrees_mono; [done..| | | |exact Ha]; [done|exact Hc|done].
  - intros c. rewrite Hc. apply (ix_current _ _ Hi).
  - intros c w. rewrite cls_on_core. case_decide; [|apply (ix_deferred _ _ Hi)].
    intros Hw. destruct (ls_deferred _ _ Hg _ Hw) as [->|Hin]; [by intros []|]. exact (ix_deferred _ _ Hi core w Hin).
  - intros c. rewrite cls_on_core. case_decide; [|apply (ix_slots _ _ Hi)].
    rewrite (ls_length _ _ Hg). apply (ix_slots _ _ Hi).
  - intros c. rewrite cls_on_core. case_decide; [|apply (ix_initial _ _ Hi)].
    rewrite (ls_initial _ _ Hg). apply (ix_initial _ _ Hi).
Qed.

Lemma switching_on_core core g s :
  switching core s → local_step g (cls s core) → switching core (on_core core g s).
Proof.
  intros [Hi Hs Hp Hc] Hg. split; [by apply inv_on_core|done|done|]. by rewrite current_on_core.
Qed.

Section switch.
Context `{Environment} (core : Z).

(** ** The deferred wakes *)

(** Draining readies tasks and takes none away. *)
Definition no_futex_word (s : sched) (a : Z) : Prop := ∀ f fx, futex_at s !! f = Some fx → f_value fx ≠ a.

Record drained (s s' : sched) : Prop := {
  dr_readied t : readied s t → readied s' t;
  dr_tasks : s_tasks s' = s_tasks s;
  dr_id t : task_id <$> task_at s' !! t = task_id <$> task_at s !! t;
  dr_current c : current s' c = current s c;
  dr_futex f : futex_id <$> futex_at s' !! f = futex_id <$> futex_at s !! f;
  dr_word a : no_futex_word s a → word_at s' !! a = word_at s !! a
}.

Lemma drained_refl s : drained s s.
Proof. by split. Qed.

Lemma no_futex_word_id s s' a :
  (∀ f, futex_id <$> futex_at s' !! f = futex_id <$> futex_at s !! f) → no_futex_word s a → no_futex_word s' a.
Proof.
  intros Hid Hn f fx Hf. specialize (Hid f). rewrite Hf in Hid.
  destruct (futex_at s !! f) as [fx0|] eqn:Hf0; [|done]. specialize (Hn _ _ Hf0).
  cbn in Hid. unfold futex_id in Hid. congruence.
Qed.

Lemma drained_trans s1 s2 s3 : drained s1 s2 → drained s2 s3 → drained s1 s3.
Proof.
  intros [H1 H2 H3 H4 H5 H6] [K1 K2 K3 K4 K5 K6].
  split; [auto|congruence|intros; by rewrite K3|intros; by rewrite K4|intros; by rewrite K5|].
  intros a Ha. rewrite K6; [by apply H6|by apply (no_futex_word_id s1)].
Qed.

(** What the recorded wakes take from the queue [l] of the futex at [f]: a wake
    of all empties it, any other takes its first waiter. *)
Definition serve_one (f : Z) (l : list Z) (w : Z) : list Z :=
  if negb (w =? 0) && (Z.land w (not32 1) =? f) then if has w 1 then [] else drop 1 l else l.
Definition serve (ws : list Z) (f : Z) (l : list Z) : list Z := foldl (serve_one f) l ws.

(** Every futex is left with the waiters its recorded wakes did not take, and
    those they took are ready. *)
Definition served (ws : list Z) (s s' : sched) : Prop := ∀ f l, queue s (waiters f) = Some l →
  queue s' (waiters f) = Some (serve ws f l) ∧ ∀ t, t ∈ l → t ∉ serve ws f l → readied s' t.

Lemma served_none ws s : Forall (λ w, w = 0) ws → served ws s s.
Proof.
  intros Hw f l Hl. assert (serve ws f l = l) as -> by (induction Hw as [|w ws -> _ IH]; [done|exact IH]). done.
Qed.

Lemma served_cons w ws s1 s2 s3 :
  served [w] s1 s2 → served ws s2 s3 → (∀ t, readied s2 t → readied s3 t) → served (w :: ws) s1 s3.
Proof.
  intros H1 H2 Hk f l Hl. destruct (H1 f l Hl) as [Hl1 Hr1]. destruct (H2 f _ Hl1) as [Hl2 Hr2]. split; [exact Hl2|].
  intros t Ht Hn. destruct (decide (t ∈ serve [w] f l)) as [Hin|Hout]; [by apply Hr2|by apply Hk, Hr1].
Qed.

(** The wakes given and not yet taken are the slots in use. *)
Definition pending_wakes (c : cpu) : list Z := filter (λ w, w ≠ 0) (deferred_wake c).
Definition accounted (c : cpu) : Prop :=
  is_u32 (given_wake_counter c) ∧ is_u32 (taken_wake_counter c) ∧
  u32 (given_wake_counter c - taken_wake_counter c) = Z.of_nat (length (pending_wakes c)).
Definition cleared (c : cpu) (i : nat) : Prop := Forall (λ w, w = 0) (take i (deferred_wake c)).
Definition all_clear (c : cpu) : Prop :=
  pending_wakes c = [] ∧ given_wake_counter c = taken_wake_counter c.

Lemma accounted_equal c :
  accounted c → Z.lxor (taken_wake_counter c) (given_wake_counter c) = 0 → all_clear c.
Proof.
  intros (Hg & Ht & Ha) He%Z.lxor_eq. split; [|done]. rewrite He, Z.sub_diag in Ha.
  destruct (pending_wakes c); [done|]. cbn in Ha. unfold u32 in Ha. rewrite Z.mod_0_l in Ha; [lia|done].
Qed.

Lemma accounted_end c i : accounted c → cleared c i → length (deferred_wake c) = i → all_clear c.
Proof.
  intros (Hg & Ht & Ha) Hcl <-. unfold cleared in Hcl. rewrite firstn_all in Hcl.
  assert (pending_wakes c = []) as Hp.
  { unfold pending_wakes. induction Hcl as [|w l -> Hl IH]; [done|]. by rewrite filter_cons_False by auto. }
  split; [done|]. rewrite Hp in Ha. cbn in Ha. unfold u32, is_u32 in *.
  apply Z.mod_divide in Ha as [k Hk]; [|done]. change word with 4294967296 in *. lia.
Qed.

Definition clear_slot (i : nat) (c : cpu) : cpu := c <| deferred_wake ::= <[i := 0]> |>.

Lemma clear_slot_split i c w :
  deferred_wake c !! i = Some w →
  deferred_wake c = take i (deferred_wake c) ++ w :: drop (S i) (deferred_wake c) ∧
  deferred_wake (clear_slot i c) = take i (deferred_wake c) ++ 0 :: drop (S i) (deferred_wake c).
Proof.
  intros Hi. split; [by rewrite take_drop_middle|]. unfold clear_slot. rsimp.
  apply insert_take_drop. by eapply lookup_lt_Some.
Qed.

Lemma cleared_slot i c w :
  deferred_wake c !! i = Some w → cleared c i → cleared (clear_slot i c) (S i).
Proof.
  intros Hi Hcl. destruct (clear_slot_split _ _ _ Hi) as [_ E]. unfold cleared in *. rewrite E.
  assert (length (take i (deferred_wake c)) = i) as Hlen.
  { rewrite length_take. apply lookup_lt_Some in Hi. lia. }
  rewrite firstn_app, Hlen. replace (S i - i)%nat with 1%nat by lia. cbn [firstn].
  rewrite firstn_all2 by lia. apply Forall_app. split; [done|by constructor].
Qed.

Lemma pending_slot i c w :
  deferred_wake c !! i = Some w →
  length (pending_wakes c) = (length (pending_wakes (clear_slot i c)) + (if decide (w = 0%Z) then 0 else 1))%nat.
Proof.
  intros Hi. destruct (clear_slot_split _ _ _ Hi) as [E1 E2]. unfold pending_wakes. rewrite E2, E1 at 1.
  rewrite !filter_app, !length_app. rewrite (filter_cons_False _ 0) by auto.
  destruct (decide (w = 0)); [rewrite filter_cons_False by auto|rewrite filter_cons_True by auto; cbn]; lia.
Qed.

Definition take_wake (c : cpu) : cpu := c <| taken_wake_counter ::= λ n, u32 (n + 1) |>.

Lemma accounted_empty i c : deferred_wake c !! i = Some 0 → accounted c → accounted (clear_slot i c).
Proof.
  intros Hi (Hg & Ht & Ha). split_and!; [done|done|]. rewrite (pending_slot _ _ _ Hi), decide_True in Ha by done.
  unfold clear_slot at 1 2. rsimp. rewrite Ha. f_equal. lia.
Qed.

Lemma accounted_taken i c w :
  deferred_wake c !! i = Some w → w ≠ 0 → length (deferred_wake c) = SCHEDULER_MAX_DEFERED_WAKE →
  accounted c → accounted (take_wake (clear_slot i c)).
Proof.
  intros Hi Hw Hlen (Hg & Ht & Ha). split_and!; [done|apply u32_range|].
  rewrite (pending_slot _ _ _ Hi), decide_False in Ha by done.
  change (u32 (given_wake_counter c - u32 (taken_wake_counter c + 1)) =
    Z.of_nat (length (pending_wakes (clear_slot i c)))).
  assert (length (pending_wakes (clear_slot i c)) <= SCHEDULER_MAX_DEFERED_WAKE)%nat as Hle.
  { unfold pending_wakes. etrans; [apply length_filter|]. unfold clear_slot. rsimp. by rewrite length_insert, Hlen. }
  unfold u32 in *. rewrite Zminus_mod_idemp_r.
  replace (given_wake_counter c - (taken_wake_counter c + 1)) with
    (given_wake_counter c - taken_wake_counter c - 1) by lia.
  rewrite <-Zminus_mod_idemp_l, Ha. unfold SCHEDULER_MAX_DEFERED_WAKE in Hle.
  change word with 4294967296. rewrite Z.mod_small; lia.
Qed.

Lemma pending_none c : all_clear c → Forall (λ w, w = 0) (deferred_wake c).
Proof.
  intros [Hp _]. apply Forall_forall. intros w Hw. apply dec_stable. intros Hn.
  assert (w ∈ pending_wakes c) as Hin by (by apply list_elem_of_filter). rewrite Hp in Hin. by apply elem_of_nil in Hin.
Qed.

(** A wake of a futex without owner or inheritance takes what [serve] says. *)
Lemma woken_served w s fx s' n v s0 :
  w ≠ 0 → inherits fx = false → queue s (waiters (Z.land w (not32 1))) = Some (f_waiters fx) →
  has (f_flags fx) SCHEDULER_FUTEX_OWNER_TRACKING = false →
  futex_woken s0 (Z.land w (not32 1)) fx (has w 1) (f_waiters fx) v n s s' → served [w] s s'.
Proof.
  intros Hw Hni Hl Hot Hfw f l Hfl. unfold serve. cbn [foldl]. unfold serve_one.
  rewrite (proj2 (Z.eqb_neq w 0)) by done. cbn [negb andb]. destruct (Z.eqb_spec (Z.land w (not32 1)) f) as [<-|Hne].
  - rewrite Hl in Hfl. injection Hfl as <-. destruct (fw_split _ _ _ _ _ _ _ _ _ Hfw) as (l1 & l2 & _ & E1 & E & Hq & Hrd & _).
    rewrite (E1 Hni) in *. unfold chosen, owner_tracking in *. rewrite Hot in *. rewrite andb_true_r in *.
    assert (l2 = if has w 1 then [] else drop 1 (f_waiters fx)) as <-.
    { destruct (has w 1).
      - rewrite <-(app_nil_r (f_waiters fx)) in E at 1. by apply app_inv_head in E.
      - rewrite <-(take_drop 1 (f_waiters fx)) in E at 1. by apply app_inv_head in E. }
    split; [done|]. intros t Ht Hn. apply Hrd. rewrite E in Ht. by apply elem_of_app in Ht as [?|?].
  - split; [by apply (fw_rest _ _ _ _ _ _ _ _ _ Hfw)|done].
Qed.

Lemma wp_drain_deferred n : ∀ i s,
  (i + n)%nat = SCHEDULER_MAX_DEFERED_WAKE → switching core s →
  wp (drain_deferred core n i) (λ _ s', switching core s' ∧ drained s s' ∧
    (accounted (cls s core) → cleared (cls s core) i →
     all_clear (cls s' core) ∧ served (drop i (deferred_wake (cls s core))) s s')) s.
Proof.
  induction n as [|n IH]; intros i s Hin Hsw; cbn [drain_deferred].
  { assert (length (deferred_wake (cls s core)) = i) as Hlen by (rewrite (ix_slots _ _ (sw_inv _ _ Hsw)); lia).
    apply wp_ret. split_and!; [done|apply drained_refl|]. intros Ha Hcl. split; [by eapply accounted_end|].
    apply served_none. by rewrite drop_ge by lia. }
  do 2 wp_step. destruct (Z.lxor _ _ =? 0) eqn:Hx.
  { wp_step. split_and!; [done|apply drained_refl|]. intros Ha _.
    assert (all_clear (cls s core)) as Hcl by (apply accounted_equal; [done|lia]). split; [done|].
    apply served_none, Forall_drop, pending_none, Hcl. }
  set (c := cls s core). set (w := deferred_wake c !!! i). cbv zeta. wp_step. unfold upd_cls at 1. apply wp_upd.
  fold (clear_slot i c). fold (on_core core (clear_slot i) s). set (s1 := on_core core (clear_slot i) s).
  assert (length (deferred_wake c) = SCHEDULER_MAX_DEFERED_WAKE) as Hlen by apply (ix_slots _ _ (sw_inv _ _ Hsw)).
  assert (deferred_wake c !! i = Some w) as Hiw by (apply list_lookup_lookup_total_lt; lia).
  assert (local_step (clear_slot i) c) as Hg.
  { split; unfold clear_slot; rsimp; [done|done|done|by rewrite length_insert|].
    intros w' (j & Hj)%list_elem_of_lookup. rewrite list_lookup_insert in Hj.
    case_decide; [left; congruence|right]. by eapply list_elem_of_lookup_2. }
  assert (w ∈ deferred_wake c) as Hw by (by eapply list_elem_of_lookup_2).
  pose proof (ix_deferred _ _ (sw_inv _ _ Hsw) core w Hw) as Hok.
  pose proof (switching_on_core core (clear_slot i) s Hsw Hg : switching core s1) as Hsw1.
  assert (cls s1 core = clear_slot i c) as Hc1 by (unfold s1; by rewrite cls_on_core, decide_True).
  assert (drained s s1) as Hdr1 by (split; [done|done|done|by apply current_on_core|done|done]).
  wp_step. apply (wp_mono _ (λ _ s2, switching core s2 ∧ drained s s2 ∧ served [w] s s2 ∧
    cls s2 core = if w =? 0 then clear_slot i c else take_wake (clear_slot i c))).
  2: { intros [] s2 (Hsw2 & Hdr2 & Hsv2 & Hc2). eapply wp_mono; [apply (IH (S i)); [lia|done]|].
       intros [] s3 (Hsw3 & Hdr3 & Hk). split_and!; [done|by eapply drained_trans|].
       assert (drop i (deferred_wake c) = w :: drop (S i) (deferred_wake (cls s2 core))) as ->.
       { rewrite Hc2. rewrite (drop_S _ _ _ Hiw). f_equal. symmetry.
         destruct (w =? 0); apply drop_insert_lt; lia. }
       intros Ha Hcl. assert (all_clear (cls s3 core) ∧ served (drop (S i) (deferred_wake (cls s2 core))) s2 s3) as [? ?];
         [|split; [done|by eapply served_cons; [..|apply Hdr3]]].
       rewrite Hc2 in Hk. rewrite Hc2. destruct (w =? 0) eqn:Hwz.
       - apply Hk; [apply accounted_empty; [|done]|by eapply cleared_slot]. rewrite Hiw. f_equal. lia.
       - apply Hk; [eapply accounted_taken; [done|lia|done|done]|by eapply (cleared_slot i c w)]. }
  wp_step; [|split_and!; [done|done|apply (served_none [w] s1); constructor; [by destruct (Z.eqb_spec w 0)|done]|]; by replace (w =? 0) with true by (by destruct (w =? 0))].
  destruct (Hok ltac:(lia)) as (fx & Hfx & Hfl).
  destruct (si_words _ (ix_struct _ _ (sw_inv _ _ Hsw1)) _ _ Hfx) as [v Hv].
  assert (held ∅ s1 s1) as Hd by apply held_open, Hsw1.
  assert (inherits fx = false) as Hni by (unfold inherits; by rewrite Hfl).
  assert (queue s1 (waiters (Z.land w (not32 1))) = Some (f_waiters fx)) as Hl.
  { change (f_waiters <$> futex_at s !! Z.land w (not32 1) = Some (f_waiters fx)). by rewrite Hfx. }
  wp_step. eapply wp_mono; [eapply (scheduler_wake_futex_ok s1 _ fx); [|exact Hd|exact Hfx|exact Hl|exact Hv|by rewrite Hni]|].
  { by eapply (ix_futex _ _ (sw_inv _ _ Hsw)). }
  intros n' s2 Hfw. pose proof Hfw as [Hd2 _ _ _ Hrd _ Hwo]. unfold upd_cls. apply wp_upd. fold (take_wake (cls s2 core)).
  fold (on_core core take_wake s2). pose proof (hd_calm _ _ _ Hd2) as Hm2.
  assert (local_step take_wake (cls s2 core)) as Hg2 by (split; [done|done|done|done|by right]).
  split_and!; [apply switching_on_core; [by eapply switching_held|done]| | |].
  - eapply drained_trans; [exact Hdr1|]. split; [apply Hrd|apply Hm2|apply Hm2| |apply Hm2|].
    + intros d. rewrite current_on_core by done. by apply calm_current.
    + intros a Ha. apply Hwo. apply not_eq_sym. by apply (Ha (Z.land w (not32 1)) fx).
  - assert (served [w] s1 s2) as Hsv; [|exact Hsv]. eapply (woken_served w s1 fx); [lia|exact Hni|exact Hl| |exact Hfw].
    unfold has. change SCHEDULER_FUTEX_OWNER_TRACKING with (Z.land PI_AND_OWNER SCHEDULER_FUTEX_OWNER_TRACKING).
    by rewrite Z.land_assoc, Hfl.
  - rewrite cls_on_core, decide_True by done. replace (w =? 0) with false by lia.
    assert (cls s2 core = cls s1 core) as -> by (unfold cls; by rewrite (cm_cpu _ _ Hm2)). by rewrite Hc1.
Qed.

(** ** The expired timers *)
Lemma armed_task s t :
  inv_x ∅ s → t ∈ s_timers s → ∃ tk, task_at s !! t = Some tk ∧ t ∈ s_tasks s ∧
    is_Some (frame_at s !! t_psp tk) ∧ (∀ c, current s c ≠ t).
Proof.
  intros Hi Ht. pose proof (si_timer_alive _ (ix_struct _ _ Hi) _ Ht) as Hal.
  destruct (ix_consistent _ _ Hi _ Hal) as (tk & Htk & [Ha1 Ha2]); [apply not_elem_of_empty|].
  exists tk. destruct (t_state tk) eqn:Hst; unfold saved in Ha1; try naive_solver.
Qed.

Lemma expires_others t s s' u : others t s s' → u ≠ t → expires_of s' u = expires_of s u.
Proof.
  intros Ho Hu. assert (∀ s, expires_of s u = from_option t_timer_expires 0 (strip <$> task_at s !! u)) as E.
  { intros s1. unfold expires_of. by destruct (task_at s1 !! u). }
  by rewrite !E, (ot_task _ _ _ Ho u Hu).
Qed.

Lemma readied_unarmed s t : readied s t → t ∉ s_timers s.
Proof. intros (tk & [_ Hb] & _). rewrite Hb. done. Qed.

Lemma wp_expire_one s :
  switching core s →
  wp expire_one
     (λ go s', switching core s' ∧ drained s s' ∧ scheduler_get_ticks s' = scheduler_get_ticks s ∧
        match s_timers s with
        | t :: l => if expires_of s t <=? scheduler_get_ticks s
            then go = true ∧ s_timers s' = l ∧ readied s' t ∧
                 (∀ u, u ≠ t → (readied s u → readied s' u) ∧ expires_of s' u = expires_of s u)
            else go = false ∧ s' = s
        | [] => go = false ∧ s' = s
        end) s.
Proof.
  intros Hsw. pose proof (sw_inv _ _ Hsw) as Hi. pose proof (ix_struct _ _ Hi) as Hs.
  unfold expire_one, scheduler_timer_pop. do 2 wp_step. wp_step. destruct (s_timers s) as [|t l] eqn:Hl; [by wp_step; split_and!; [|by apply drained_refl|..]|].
  destruct (armed_task s t Hi) as (tk & Htk & Hal & Hfr & Hno); [rewrite Hl; set_solver|].
  assert (t ≠ 0) as Hz by (intros ->; by rewrite (si_null _ Hs) in Htk).
  wp_step. apply (wp_get_task _ tk); [done|]. do 2 wp_step. rewrite (expires_of_lookup _ _ _ Htk).
  destruct (t_timer_expires tk <=? scheduler_get_ticks s); [|by wp_step; split_and!; [|by apply drained_refl|..]].
  pose proof (held_open {[t]} _ Hi) as Hd. pose proof (holds_open _ _ _ Htk) as Hh.
  wp_step. hstep held_timer_remove as Hh. wp_step. replace (t =? 0) with false by lia.
  wp_step. apply wp_marked_alive; [apply Hd0|by rewrite (cm_tasks _ _ (hd_calm _ _ _ Hd0))|].
  wp_step. hstep held_queue_remove as Hh. wp_step. hstep held_upd_task as Hh.
  wp_step. eapply (held_get_task _ t); [exact Hh|]. intros o. wp_step. rsimp.
  assert (others t s s2) as Ho2 by (eapply others_trans; [exact Ho|]; by eapply others_trans).
  eapply held_upd_frame; [eassumption|done|]. intros s3 fr3 Hd3 Hk3 _ Hs3.
  apply Hk3 in Hh. wp_step. clear Hd0. hstep held_queue_push as Hh. wp_step.
  destruct (si_timers _ Hs) as (Hnd & _ & _). rewrite Hl in Hnd.
  assert (held ∅ s s4) as Hd4.
  { eapply held_restore; [exact Hd|by rewrite (cm_tasks _ _ (hd_calm _ _ _ Hd))|].
    eapply holds_parked; [exact Hh|done| |].
    - by apply (cm_frame _ _ (hd_calm _ _ _ Hd)).
    - intros c. rewrite (calm_current _ _ _ (hd_calm _ _ _ Hd)). apply Hno. }
  assert (∀ u, u ≠ t → readied s u → readied s4 u) as Hru.
  { intros u Hu Hr. eapply readied_others; [exact Ho3|done|].
    destruct (readied_others _ _ _ _ Ho2 Hu Hr) as (tku & Hhu & ?). exists tku. split; [by apply Hk3|done]. }
  split_and!; [by eapply switching_held| |by apply calm_ticks, Hd|done| |by eexists|].
  - pose proof (hd_calm _ _ _ Hd) as Hm. split; [|apply Hm|apply Hm|intros c; by apply calm_current|apply Hm|].
    + intros u Hu. apply Hru; [|done]. intros ->. apply (readied_unarmed _ _ Hu). rewrite Hl. set_solver.
    + intros a _. by rewrite (ot_word _ _ _ Ho3), Hs3, <-(ot_word _ _ _ Ho2).
  - destruct Hh as [_ Hb]. rewrite <-(without_id t (s_timers s4)) by (rewrite Hb; done).
    rewrite (ot_timers _ _ _ Ho3). replace (s_timers s3) with (s_timers s2) by (by rewrite Hs3).
    rewrite (ot_timers _ _ _ Ho2), Hl. by apply (without_mid t [] l).
  - intros u Hu. split.
    + by apply Hru.
    + rewrite (expires_others _ _ _ _ Ho3 Hu). replace (expires_of s3 u) with (expires_of s2 u) by (by rewrite Hs3).
      by apply expires_others with t.
Qed.

(** The loop: the due prefix of the timer list is readied, in order, and what
    remains is not due. *)
Record expired (s s' : sched) : Prop := {
  ex_switching : switching core s';
  ex_ticks : scheduler_get_ticks s' = scheduler_get_ticks s;
  ex_split : ∃ l1, s_timers s = l1 ++ s_timers s' ∧
    (∀ t, t ∈ l1 → expires_of s t <= scheduler_get_ticks s ∧ readied s' t) ∧
    (∀ t, t ∈ s_timers s' → scheduler_get_ticks s < expires_of s t);
  ex_drained : drained s s'
}.

Lemma wp_expire_timers fuel : ∀ s,
  (length (s_timers s) < fuel)%nat → switching core s →
  wp (expire_timers fuel) (λ _ s', expired s s') s.
Proof.
  induction fuel as [|fuel IH]; intros s Hlt Hsw; [lia|]. cbn [expire_timers].
  pose proof (ix_struct _ _ (sw_inv _ _ Hsw)) as Hs. destruct (si_timers _ Hs) as (Hnd & Hso & _).
  wp_step. eapply wp_mono; [by apply wp_expire_one|]. intros go s1 (Hsw1 & Hdr1 & Htk & Hc).
  destruct (s_timers s) as [|t l] eqn:Hl.
  { destruct Hc as [-> ->]. wp_step. split; [done|done|exists []; rewrite Hl; split_and!; set_solver|done]. }
  destruct (expires_of s t <=? scheduler_get_ticks s) eqn:Hdue.
  - destruct Hc as (-> & Hl1 & Hr1 & Hk1).
    eapply wp_mono; [apply IH; [rewrite Hl1; cbn in Hlt; lia|done]|].
    intros [] s2 [Hsw2 Htk2 (l1 & E & Hd & Hn) Hdr2]. apply NoDup_cons in Hnd as [Hni Hnd].
    assert (∀ u, u ∈ l → u ≠ t) as Hne by (intros u Hu ->; done). rewrite Hl1 in *.
    assert (∀ u, u ∈ l → expires_of s1 u = expires_of s u) as He by (intros u Hu; by apply Hk1, Hne).
    split; [done|congruence| |].
    + exists (t :: l1). rewrite Hl. split_and!; [cbn; congruence| |].
      * intros u [->|Hu]%elem_of_cons; [split; [lia|by apply Hdr2]|].
        destruct (Hd u Hu) as [Hle ?]. rewrite He in Hle by (rewrite E; set_solver). split; [lia|done].
      * intros u Hu. specialize (Hn u Hu). rewrite He in Hn by (rewrite E; set_solver). lia.
    + by eapply drained_trans.
  - destruct Hc as [-> ->]. wp_step. split; [done|done| |done]. exists []. rewrite Hl. split_and!; [done|set_solver|].
    apply sorted_by_cons in Hso as [_ Hle]. intros u [->|Hu]%elem_of_cons; [lia|]. specialize (Hle u Hu). lia.
Qed.

(** ** Picking a task *)

(** No ready task that may run on the core outranks [t]. *)
Definition foremost (s : sched) (t : Z) : Prop :=
  ∀ u, u ∈ s_ready s → runs_on s core u = true → priority_of s t <= priority_of s u.

(** A task popped to be run: off every ring, with a frame to resume from. *)
Record popped (t : Z) (s : sched) : Prop := {
  pp_inv : inv_x {[t]} s;
  pp_spin : s_spin s = true;
  pp_present : s_present s = true;
  pp_current : current s core = 0;
  pp_alive : t ∈ s_tasks s;
  pp_entry : ∃ tk, holds s t tk false ∧ t_state tk = TASK_READY ∧ t_current_queue tk = None ∧
    is_Some (frame_at s !! t_psp tk);
  pp_nowhere c : current s c ≠ t;
  pp_runs : runs_on s core t = true;
  pp_foremost : foremost s t
}.

Lemma find_sorted (p : Z → bool) key l t :
  sorted_by key l → find p l = Some t → ∀ u, u ∈ l → p u = true → key t <= key u.
Proof.
  induction l as [|x l IH]; [done|]. rewrite sorted_by_cons. intros [Hs Hx]. cbn.
  destruct (p x) eqn:Hp.
  - intros [= <-] u [->|Hu]%elem_of_cons _; [lia|auto].
  - intros Hf u [->|Hu]%elem_of_cons Hpu; [congruence|]. by apply IH.
Qed.

Hypothesis Hcore : core ≠ UINT32_MAX.

Lemma runs_on_dequeued t tk s u :
  task_at s !! t = Some tk → runs_on (dequeued t tk s) core u = runs_on s core u.
Proof.
  intros Ht. unfold runs_on, dequeued. rsimp. rewrite lookup_insert.
  case_decide as E; [by rewrite <-E, Ht|done].
Qed.

Lemma priority_dequeued t tk s u :
  task_at s !! t = Some tk → priority_of (dequeued t tk s) u = priority_of s u.
Proof.
  intros Ht. unfold priority_of, dequeued. rsimp. rewrite lookup_insert.
  case_decide as E; [by rewrite <-E, Ht|done].
Qed.

Lemma ready_task s t :
  inv_x ∅ s → t ∈ s_ready s → ∃ tk, task_at s !! t = Some tk ∧ t ∈ s_tasks s ∧
    t_state tk = TASK_READY ∧ t_current_queue tk = Some ready_queue ∧ t ∉ s_timers s ∧
    is_Some (frame_at s !! t_psp tk) ∧ (∀ c, current s c ≠ t).
Proof.
  intros Hi Ht. pose proof (ix_struct _ _ Hi) as Hs.
  destruct (si_member _ Hs ready_queue _ _ eq_refl Ht) as (Hal & tk & Htk & Hq).
  destruct (ix_consistent _ _ Hi _ Hal) as (tk' & ? & [Ha1 Ha2]); [apply not_elem_of_empty|]. simplify_eq.
  exists tk. destruct (t_state tk) eqn:Hst; unfold saved in Ha1; try rewrite Hq in Ha1; naive_solver.
Qed.

Lemma wp_pop_ready s (Q : Z → sched → Prop) :
  switching core s →
  (pick s core (s_ready s) = None → Q 0 s) →
  (∀ t s', pick s core (s_ready s) = Some t → t ≠ 0 → others t s s' → popped t s' → Q t s') →
  wp (sched_queue_pop ready_queue core) Q s.
Proof.
  intros [Hi Hsp Hpr Hc] HN HS. pose proof (ix_struct _ _ Hi) as Hs.
  eapply wp_sched_queue_pop; [done|done|exact HN|].
  intros t tk s' Hp Hin Hz Ht Hq Hal Hs' Ho Ht' Htm ->. apply HS; [done|done|done|].
  destruct (ready_task _ _ Hi Hin) as (tk' & ? & _ & Hst & _ & Hnt & Hfr & Hno). simplify_eq.
  pose proof (others_calm _ _ _ Ho) as Hm. split; try done.
  - eapply inv_weaken; [by eapply inv_others|]. set_solver.
  - exists (tk <| t_current_queue := None |>). split; [split; [exists (t_owned_futexes tk)|]|done].
    + rewrite Ht'. by destruct tk.
    + rewrite Htm. split; [by intros ?%Hnt|done].
  - rewrite runs_on_dequeued by done. unfold pick in Hp. destruct (core =? UINT32_MAX) eqn:E; [lia|].
    by apply find_some in Hp as [_ ?].
  - intros u Hu Hr. rewrite runs_on_dequeued in Hr by done. rewrite !priority_dequeued by done.
    unfold pick in Hp. destruct (core =? UINT32_MAX) eqn:E; [lia|].
    destruct (si_queue _ Hs ready_queue _ eq_refl) as [_ Hso].
    change (s_ready (dequeued t tk s)) with (without t (s_ready s)) in Hu. apply elem_of_without in Hu as [_ Hu].
    by eapply find_sorted.
Qed.

(** ** The stack guard

    Both words at the bottom of a stack that is checked hold the marker. *)
Definition stack_intact (s : sched) (t : Z) : Prop := ∀ tk, task_at s !! t = Some tk →
  has (t_flags tk) SCHEDULER_TASK_STACK_CHECK = true →
  word_at s !! t_stack_marker tk = Some SCHEDULER_STACK_MARKER ∧
  word_at s !! (t_stack_marker tk + 4) = Some SCHEDULER_STACK_MARKER.

Lemma wp_check_stack t tk (Q : bool → sched → Prop) s :
  task_at s !! t = Some tk → guarded s tk → (∀ b, b = true ↔ stack_intact s t → Q b s) → wp (scheduler_check_stack t) Q s.
Proof.
  intros Ht Hg HQ. unfold scheduler_check_stack. wp_step. apply (wp_get_task _ tk); [done|].
  cbn beta. unfold guarded in Hg. unfold stack_intact in HQ.
  destruct (has _ _) eqn:Hc; cbn [negb]; [|wp_step; apply HQ; split; [|done]; intros _ tk' ? ?; simplify_eq; congruence].
  destruct Hg as [[m0 H0] [m1 H1]]; [done|].
  wp_step. unfold get_word. apply (wp_get_opt _ _ _ _ m0); [done|]. cbn beta.
  destruct (Z.eqb_spec m0 SCHEDULER_STACK_MARKER) as [->|Hne]; cbn [negb].
  - wp_step. apply (wp_get_opt _ _ _ _ m1); [done|]. wp_step. apply HQ. rewrite Z.eqb_eq. split.
    + intros -> tk' ? _. simplify_eq. by split.
    + intros Hs. destruct (Hs _ Ht Hc). congruence.
  - wp_step. apply HQ. split; [done|]. intros Hs. destruct (Hs _ Ht Hc). congruence.
Qed.

Lemma stack_intact_mono s s' t :
  task_id <$> task_at s' !! t = task_id <$> task_at s !! t →
  (∀ tk, task_at s !! t = Some tk → has (t_flags tk) SCHEDULER_TASK_STACK_CHECK = true →
     word_at s' !! t_stack_marker tk = word_at s !! t_stack_marker tk ∧
     word_at s' !! (t_stack_marker tk + 4) = word_at s !! (t_stack_marker tk + 4)) →
  stack_intact s t → stack_intact s' t.
Proof.
  intros Hid Hw Hs tk' Ht' Hc. rewrite Ht' in Hid. destruct (task_at s !! t) as [tk|] eqn:Ht; [|done].
  cbn in Hid. unfold task_id in Hid. injection Hid as Ef Em _ _ _ _. rewrite Ef in Hc. rewrite Em.
  destruct (Hw tk eq_refl Hc) as [-> ->]. by apply Hs.
Qed.

Lemma stack_intact_others t s s' : others t s s' → stack_intact s t ↔ stack_intact s' t.
Proof.
  intros Ho. pose proof (ot_id _ _ _ Ho t). pose proof (ot_word _ _ _ Ho) as Hw.
  split; apply stack_intact_mono; rewrite ?Hw; auto.
Qed.

Context `{!EnvironmentLaws}.

(** A task with a damaged stack is buried, not run. *)
Lemma wp_evict t s :
  popped t s → wp (evict t) (λ _ s', switching core s' ∧ s_tasks s' = without t (s_tasks s)) s.
Proof.
  intros Hp. destruct (pp_entry _ _ Hp) as (tk & Hh & Hst & Hcq & Hfr).
  assert (held {[t]} s s) as Hd by (split; [apply Hp|apply calm_refl]).
  unfold evict. wp_step. hstep held_upd_task as Hh. wp_step. eapply (held_get_task _ t); [exact Hh|]. intros o.
  wp_step. rsimp. eapply held_upd_frame; [eassumption|done|]. intros s1 fr1 Hd1 Hk1 _ _. apply Hk1 in Hh.
  wp_step. clear Hd0. hstep held_queue_remove as Hh. do 2 wp_step. do 2 wp_step.
  destruct Hh as [[o' Hto] Hb]. pose proof (hd_inv _ _ _ Hd) as Hi2. pose proof (ix_struct _ _ Hi2) as Hs2.
  assert (t ∉ s_timers s2) as Hnt by (rewrite Hb; done).
  replace (s2 <| s_timers ::= without t |>) with s2.
  2: { transitivity (s2 <| s_timers := s_timers s2 |>); [by destruct s2|]. unfold over. by rewrite without_id. }
  set (s3 := s2 <| s_tasks ::= without t |>).
  assert (inv_x {[t]} s3) as Hi3.
  { apply inv_unlist; [done|set_solver|done|]. intros tk' ?. by simplify_eq. }
  assert (t ∉ s_tasks s3) as Hd3 by (unfold s3; rsimp; rewrite elem_of_without; naive_solver).
  eapply wp_terminated_hook; [exact Hi3|exact Hto| |].
  { destruct (si_alive _ Hs2 t) as (? & ? & ?); [rewrite (cm_tasks _ _ (hd_calm _ _ _ Hd)); exact (pp_alive _ _ Hp)|]. by simplify_eq. }
  intros s4 Hi4 Hk4. pose proof (hd_calm _ _ _ Hd) as Hm.
  assert (∀ c, current s4 c = current s c) as Hc4.
  { intros c. rewrite (kp_current _ _ Hk4). apply (calm_current _ _ c Hm). }
  assert (t ∉ s_tasks s4) as Hd4 by (by rewrite (kp_tasks _ _ Hk4)).
  split; [split|rewrite (kp_tasks _ _ Hk4), <-(cm_tasks _ _ Hm); reflexivity].
  - apply (inv_buried t); [done|done|]. intros c. rewrite Hc4. apply Hp.
  - rewrite (kp_spin _ _ Hk4). transitivity (s_spin s); [apply Hm|apply Hp].
  - rewrite (kp_present _ _ Hk4). transitivity (s_present s); [apply Hm|apply Hp].
  - rewrite Hc4. apply Hp.
Qed.

Lemma wp_idle s : switching core s →
  wp (scheduler_idle_hook core) (λ _ s', switching core s' ∧ scheduler_idle_hook core s = Done tt s') s.
Proof.
  intros [Hi Hsp Hpr Hc]. assert (wp (scheduler_idle_hook core) (λ _ s', switching core s') s) as Hw.
  2: { unfold wp in *. by destruct (scheduler_idle_hook core s) as [[] s'|]. }
  unfold scheduler_idle_hook. wp_step. eapply wp_unlock; [exact Hi|]. intros Hi1.
  wp_step. eapply wp_mono; [by apply wfi_law|]. intros [] s1 [(Hi2 & Hsp2 & Hpr2) Hc2].
  wp_step. unfold upd_cls. apply wp_upd. set (g := λ c, c <| pendsv := false |>). fold (on_core core g s1).
  assert (local_step g (cls s1 core)) as Hg by (split; [done|done|done|done|by right]).
  wp_step. apply wp_spin_lock; [done|]. set (s2 := over s_spin _ _).
  assert (current s2 core = 0) as Hc3 by (change (current (on_core core g s1) core = 0); by rewrite current_on_core).
  do 2 wp_step. wp_step; [unfold current in Hc3; by rewrite Hc3|].
  split; [|done|done|done]. apply inv_spin. by apply inv_on_core.
Qed.

(** ** A round

    The scheduler is worth keeping: some task that is not marked to be ignored
    is alive. *)
Definition viable (s : sched) : Prop := ∃ t tk, t ∈ s_tasks s ∧ task_at s !! t = Some tk ∧
  t_state tk ≠ TASK_TERMINATED ∧ has (t_flags tk) SCHEDULER_IGNORE_VIABLE = false.

Lemma counts_viable_true tk :
  counts_viable tk = true ↔ t_state tk ≠ TASK_TERMINATED ∧ has (t_flags tk) SCHEDULER_IGNORE_VIABLE = false.
Proof. unfold counts_viable. rewrite andb_true_iff, negb_true_iff. by destruct (t_state tk); cbn; naive_solver. Qed.

Lemma wp_viable_among l : ∀ (Q : bool → sched → Prop) s,
  (∀ t, t ∈ l → ∃ tk, task_at s !! t = Some tk ∧ t_marker tk = SCHEDULER_TASK_MARKER) →
  (∀ b, b = true ↔ (∃ t tk, t ∈ l ∧ task_at s !! t = Some tk ∧ counts_viable tk = true) → Q b s) →
  wp (viable_among l) Q s.
Proof.
  induction l as [|t l IH]; intros Q s Hm HQ; cbn [viable_among].
  { wp_step. apply HQ. split; [done|]. by intros (? & ? & ?%elem_of_nil & _). }
  destruct (Hm t) as (tk & Ht & Hmk); [set_solver|]. wp_step. apply (wp_marked t tk); [done|done|].
  wp_step. apply (wp_get_task _ tk); [done|]. destruct (counts_viable tk) eqn:Hv.
  - wp_step. apply HQ. split; [|done]. intros _. exists t, tk. split; [set_solver|done].
  - apply IH; [set_solver|]. intros b Hb. apply HQ. rewrite Hb. split.
    + intros (u & tku & Hu & ?). exists u, tku. split; [set_solver|done].
    + intros (u & tku & [->|Hu]%elem_of_cons & Htu & Hvu); [congruence|by exists u, tku].
Qed.

Lemma wp_viable s (Q : bool → sched → Prop) : struct_inv s → (∀ b, b = true ↔ viable s → Q b s) → wp scheduler_is_viable Q s.
Proof.
  intros Hs HQ. unfold scheduler_is_viable. do 2 wp_step. apply wp_viable_among.
  - intros t Ht. destruct (si_alive _ Hs t Ht) as (tk & ? & ?). by exists tk.
  - intros b Hb. apply HQ. rewrite Hb. unfold viable. by setoid_rewrite counts_viable_true.
Qed.

(** A round begins with the deferred wakes and the timers. *)
Record serviced (s s' : sched) : Prop := {
  sv_switching : switching core s';
  sv_drained : drained s s';
  sv_order : ∃ s1, drained s s1 ∧ expired s1 s' ∧
    (accounted (cls s core) → all_clear (cls s1 core) ∧ served (deferred_wake (cls s core)) s s1)
}.

(** It finds nothing to run: no ready task may run on the core, or the first
    that may has a damaged stack and is evicted, and it alone. *)
Inductive nothing_runs (s s' : sched) : Prop :=
  | nothing_ready : pick s core (s_ready s) = None → s' = s → nothing_runs s s'
  | stack_damaged t : pick s core (s_ready s) = Some t → ¬ stack_intact s t →
      s_tasks s' = without t (s_tasks s) → nothing_runs s s'.

(** How a round that begins in [s] ends: with the first ready task that may run
    on the core, its stack intact; or, when nothing runs, with the shutdown if
    nothing is viable and somebody called [scheduler_run], and idle if not. *)
Definition round_post (s : sched) (r : round) (s' : sched) : Prop :=
  ∃ s1, serviced s s1 ∧
  match r with
  | RunTask t => pick s1 core (s_ready s1) = Some t ∧ stack_intact s1 t ∧ s_tasks s' = s_tasks s1 ∧ popped t s'
  | Shutdown a => ∃ s2 fr, nothing_runs s1 s2 ∧ ¬ viable s2 ∧
      a = scheduler_initial_frame (cls s2 core) ∧ a ≠ 0 ∧ frame_at s2 !! a = Some fr ∧
      s' = answered a 0 fr s2 <| s_spin := false |> ∧ quiescent s' ∧ current s' core = 0
  | Again => ∃ s2, nothing_runs s1 s2 ∧ (viable s2 ∨ scheduler_initial_frame (cls s2 core) = 0) ∧
      scheduler_idle_hook core s2 = Done tt s' ∧ switching core s'
  end.

(** The end of a round that found nothing to run. *)
Lemma wp_nothing s0 s1 s :
  serviced s0 s1 → nothing_runs s1 s → switching core s →
  wp (viable <- scheduler_is_viable ;;
      initial <- gets (λ s, scheduler_initial_frame (cls s core)) ;;
      if negb viable && negb (initial =? 0) then
        upd_frame initial (λ fr, fr <| r0 := 0 |>) ;;;
        scheduler_spin_unlock ;;;
        ret (Shutdown initial)
      else scheduler_idle_hook core ;;; ret Again) (round_post s0) s.
Proof.
  intros Hsv Hn Hsw. wp_step. apply wp_viable; [apply Hsw|]. intros b Hb. do 2 wp_step. set (a := scheduler_initial_frame (cls s core)).
  destruct (negb b && negb (a =? 0)) eqn:Hsd.
  - destruct Hsw as [Hi Hsp Hpr Hc]. apply andb_true_iff in Hsd as [Hb' Ha%negb_true_iff%Z.eqb_neq].
    destruct (ix_initial _ _ Hi core Ha) as [fr Hfr]. wp_step. apply (wp_upd_frame _ _ fr); [done|].
    wp_step. eapply wp_unlock; [apply inv_frames; [exact Hi|]; intros; by apply frames_insert|]. intros Hi2.
    wp_step. exists s1. split; [done|]. exists s, fr. split_and!; try done. rewrite <-Hb. by destruct b.
  - wp_step. eapply wp_mono; [by apply wp_idle|]. intros [] s2 [Hs2 E]. wp_step. exists s1. split; [done|]. exists s.
    split_and!; [done| |done|done]. rewrite <-Hb. apply andb_false_iff in Hsd as [Hsd|Hsd]; [left; by destruct b|right].
    by apply negb_false_iff, Z.eqb_eq in Hsd.
Qed.

Lemma wp_next_task s : switching core s → wp (next_task core) (round_post s) s.
Proof.
  intros Hsw. unfold next_task. wp_step. eapply wp_mono; [by apply wp_drain_deferred|]. intros [] s1 (Hsw1 & Hdr1 & Hcl).
  do 3 wp_step. eapply wp_mono; [by apply wp_expire_timers; [lia|]|]. intros [] s2 Hex. pose proof (ex_switching _ _ Hex) as Hsw2.
  assert (serviced s s2) as Hsv.
  { split; [done|by eapply drained_trans; [|apply Hex]|]. exists s1. split_and!; [done..|]. intros Ha. apply Hcl; [done|constructor]. }
  wp_step. apply wp_pop_ready; [done|..].
  { intros Hn. rewrite Z.eqb_refl. do 2 wp_step. eapply (wp_nothing s s2); [done|by apply nothing_ready|done]. }
  intros t s3 Hpk Hz Ho Hp. replace (t =? 0) with false by lia.
  destruct (pp_entry _ _ Hp) as (tk & Hh & Hst & Hcq & Hfr). destruct (Hh) as [[o Hto] _].
  do 2 wp_step. apply wp_marked_alive; [apply Hp|exact (pp_alive _ _ Hp)|].
  wp_step. eapply wp_check_stack; [exact Hto|eapply (ix_guard _ _ (pp_inv _ _ Hp)); [exact (pp_alive _ _ Hp)|done]|].
  intros b Hb. rewrite <-(stack_intact_others _ _ _ Ho) in Hb. destruct b.
  - wp_step. do 2 wp_step. wp_step. exists s2. split; [done|]. split_and!; [done|by apply Hb|apply Ho|done].
  - wp_step. eapply wp_mono; [by apply wp_evict|]. intros [] s4 [Hsw4 Ht4]. wp_step.
    eapply (wp_nothing s s2); [done| |done]. apply (stack_damaged _ _ t); [done| |by rewrite Ht4, (ot_tasks _ _ _ Ho)].
    intros Hs. by apply Hb in Hs.
Qed.

(** Rounds that only idled, one after the other. *)
Definition idled : relation sched := rtc (λ s s', round_post s Again s').

Lemma wlp_select_task fuel : ∀ s, switching core s →
  wlp (select_task core fuel) (λ r s', r ≠ Again ∧ ∃ s1, idled s s1 ∧ round_post s1 r s') s.
Proof.
  induction fuel as [|fuel IH]; intros s Hsw; cbn [select_task]; [done|].
  apply wlp_bind_wp. eapply wp_mono; [by apply wp_next_task|]. intros [t| |a] s1 Hr.
  - split; [done|]. exists s. split; [apply rtc_refl|done].
  - eapply wlp_mono; [apply IH; by destruct Hr as (? & _ & ? & _ & _ & _ & ?)|].
    intros r s2 (Hne & s3 & Hid & Hr3). split; [done|]. exists s3. split; [by eapply rtc_l|done].
  - split; [done|]. exists s. split; [apply rtc_refl|done].
Qed.

(** ** Dispatch *)

(** Core [c] runs a task some ready task that may run there outranks. *)
Definition needs_kick (s : sched) (c : Z) : bool :=
  negb (c =? core) && negb (current s c =? 0) &&
  match find (runs_on s c) (s_ready s) with
  | Some u => priority_of s u <? priority_of s (current s c)
  | None => false
  end.

Record kicked (cores : list Z) (s s' : sched) : Prop := {
  kk_step : cpu_step s s';
  kk_current c : current s' c = current s c;
  kk_mono c : pendsv (cls s c) = true → pendsv (cls s' c) = true;
  kk_kicked c : c ∈ cores → c ≠ UINT32_MAX → needs_kick s c = true → pendsv (cls s' c) = true
}.

Lemma needs_kick_step s s' c :
  cpu_step s s' → (∀ c, current s' c = current s c) → needs_kick s' c = needs_kick s c.
Proof.
  intros Hc Hcur. destruct (cpu_step_rest _ _ Hc) as (E1 & _ & _ & _ & _ & _ & E7 & _).
  unfold needs_kick, runs_on, priority_of. by rewrite Hcur, E7, E1.
Qed.

Lemma request_keeps_pending c (Q : unit → sched → Prop) s :
  (∀ s', cpu_step s s' → (∀ d, current s' d = current s d) →
     (c ≠ UINT32_MAX → pendsv (cls s' c) = true) →
     (∀ d, pendsv (cls s d) = true → pendsv (cls s' d) = true) → Q tt s') →
  wp (scheduler_request_switch c) Q s.
Proof.
  intros HQ. unfold scheduler_request_switch. wp_step.
  - unfold upd_cls. wp_step. apply HQ; [split; [done|..]|..]; try intros d; try intros Hd; unfold current;
      rewrite cls_upd; case_decide; subst; done.
  - apply HQ; [split; [by destruct s|done..]|done| |done]. intros ?. lia.
Qed.

Lemma wp_kick_core c s : inv_x ∅ s → wp (kick_core core c) (λ _ s', kicked [c] s s') s.
Proof.
  intros Hi. assert (needs_kick s c = false → kicked [c] s s) as Hno.
  { intros Hn. split; [split; [by destruct s|done..]|done|done|].
    intros d ->%list_elem_of_singleton _. by rewrite Hn. }
  unfold kick_core. do 2 wp_step. wp_step; [|apply Hno; unfold needs_kick, current; by destruct (_ && _)].
  assert (current s c ≠ 0) as Hz by (unfold current; lia).
  destruct (ix_current _ _ Hi c Hz) as [Hal|]; [|set_solver].
  destruct (si_alive _ (ix_struct _ _ Hi) _ Hal) as (ck & Hck & _). fold (current s c).
  wp_step. apply wp_get. destruct (find (runs_on s c) (s_ready s)) as [u|] eqn:Hf.
  - wp_step. apply (wp_get_task _ ck); [done|]. wp_step.
    + apply request_keeps_pending. intros s' Hc Hcur Hp Hm. split; [done|done|done|].
      intros d ->%list_elem_of_singleton ? _. by apply Hp.
    + apply Hno. unfold needs_kick. rewrite Hf, (priority_of_lookup _ _ _ Hck).
      destruct (_ <? _); [done|]. by rewrite andb_false_r.
  - wp_step. apply Hno. unfold needs_kick. rewrite Hf. by rewrite andb_false_r.
Qed.

Lemma wp_kick_cores cores : ∀ s, inv_x ∅ s → wp (kick_cores core cores) (λ _ s', kicked cores s s') s.
Proof.
  induction cores as [|c cores IH]; intros s Hi; cbn [kick_cores].
  { apply wp_ret. split; [split; [by destruct s|done..]|done|done|]. by intros c ?%elem_of_nil. }
  wp_step. eapply wp_mono; [by apply wp_kick_core|]. intros [] s1 [Hs1 Hc1 Hm1 Hk1].
  eapply wp_mono; [apply IH; by eapply inv_cpu|]. intros [] s2 [Hs2 Hc2 Hm2 Hk2].
  split; [by eapply cpu_step_trans|intros; by rewrite Hc2|auto|].
  intros d [->|Hd]%elem_of_cons Hne Hn.
  - apply Hm2, Hk1; [set_solver|done|done].
  - apply Hk2; [done|done|]. by rewrite (needs_kick_step s).
Qed.

(** The task [t] runs on the core, and nobody who could run there outranks it. *)
Record dispatched (t a : Z) (s : sched) : Prop := {
  dp_quiescent : quiescent s;
  dp_current : current s core = t;
  dp_entry : ∃ tk, holds s t tk false ∧ t_state tk = TASK_RUNNING ∧ t_core tk = core ∧ t_psp tk = a;
  dp_frame : is_Some (frame_at s !! a);
  dp_foremost : foremost s t;
  dp_kicked c : 0 <= c < num_cores → c ≠ UINT32_MAX → needs_kick s c = true → pendsv (cls s c) = true
}.

Lemma elem_of_all_cores c : c ∈ all_cores ↔ 0 <= c < num_cores.
Proof.
  unfold all_cores. rewrite list_elem_of_fmap. split.
  - intros (n & -> & Hn%elem_of_seq). lia.
  - intros Hc. exists (Z.to_nat c). rewrite elem_of_seq. lia.
Qed.

Lemma foremost_step s s' t :
  s_ready s' = s_ready s → (∀ u, runs_on s' core u = runs_on s core u) →
  (∀ u, priority_of s' u = priority_of s u) → foremost s t → foremost s' t.
Proof. intros E1 E2 E3 Hf u. rewrite E1, E2, !E3. apply Hf. Qed.

(** The task becomes current: the invariant holds without exception again. *)
Lemma wp_make_current t tk b s (Q : Z → sched → Prop) :
  inv_x {[t]} s → t ∈ s_tasks s → holds s t tk b → b = false → t_state tk = TASK_RUNNING →
  t_core tk = core → t_current_queue tk = None → current s core = 0 → (∀ c, current s c ≠ t) →
  (∀ s', inv_x ∅ s' → cpu_step s s' → current s' core = t → Q 0 s') →
  wp (sched_set_current core t) Q s.
Proof.
  intros Hi Hal Hh -> Hst Hco Hcq Hc Hno HQ.
  apply wp_sched_set_current; [apply Hi|by right|]. intros s' Hs' Hcur. rewrite Hc. apply HQ; [|done|].
  - assert (inv_x {[t]} s') as Hi'.
    { apply inv_drop_null. eapply inv_weaken; [by eapply inv_cpu_set; eauto|]. rewrite Hc. set_solver. }
    destruct (cpu_step_rest _ _ Hs') as (E1 & _ & _ & _ & E5 & E6 & _).
    apply (inv_restore_live ∅ t); [apply (inv_weaken {[t]}); [exact Hi'|set_solver]|by rewrite E5|].
    destruct Hh as [[o Hto] Hb]. eexists. split; [rewrite E1; exact Hto|]. split.
    + rsimp. rewrite Hst. split_and!; [done|rewrite E6, Hb; done|]. rewrite Hco, Hcur. by rewrite decide_True.
    + intros c. rewrite Hcur. rsimp. case_decide; [by subst|]. by intros ?%Hno.
  - rewrite Hcur. by rewrite decide_True.
Qed.

(** [task->state = TASK_RUNNING; task->core = scheduler_current_core()] *)
Lemma wp_mark_running t tk s (Q : unit → sched → Prop) :
  popped t s → holds s t tk false →
  (∀ s', held {[t]} s s' → holds s' t (tk <| t_state := TASK_RUNNING |> <| t_core := core |>) false →
     foremost s' t → Q tt s') →
  wp (upd_task t (λ tk, tk <| t_state := TASK_RUNNING |> <| t_core := core |>)) Q s.
Proof.
  intros Hp Hh HQ. assert (held {[t]} s s) as Hd by (split; [apply Hp|apply calm_refl]).
  eapply wp_mono; [apply (wp_and _ (λ _ s', held {[t]} s s' ∧
      holds s' t (tk <| t_state := TASK_RUNNING |> <| t_core := core |>) false) (λ _ s', foremost s' t))|
    intros [] s' [[??] ?]; by apply HQ].
  - by hstep held_upd_task.
  - destruct Hh as [[o Hto] Hb]. apply (wp_upd_task_raw _ _ _ _ _ Hto).
    apply (foremost_step s); [done|intros u; unfold runs_on|intros u; unfold priority_of|apply Hp];
      rsimp; rewrite lookup_insert; case_decide as E; try done; by rewrite <-E, Hto.
Qed.

Lemma cpu_step_refl s : cpu_step s s.
Proof. split; [by destruct s|done..]. Qed.

Lemma wp_set_slice (b : bool) s (Q : unit → sched → Prop) :
  (∀ s', cpu_step s s' → (∀ c, current s' c = current s c) → Q tt s') →
  wp (when b (duration <- gets s_slice_duration ;;
              upd_cls core (λ c, c <| slice_expires := s32 duration |>))) Q s.
Proof.
  intros HQ. wp_step.
  - do 2 wp_step. unfold upd_cls. wp_step. apply HQ; [split; [done|..]|]; intros c; unfold current;
      rewrite cls_upd; case_decide; subst; done.
  - apply HQ; [apply cpu_step_refl|done].
Qed.

Lemma wp_dispatch t last s :
  popped t s → wp (dispatch core t last) (λ a s', dispatched t a s' ∧ s_tasks s' = s_tasks s) s.
Proof.
  intros Hp. destruct (pp_entry _ _ Hp) as (tk & Hh & Hst & Hcq & Hfr).
  unfold dispatch. wp_step. eapply (held_get_task _ t); [exact Hh|]. intros o.
  wp_step. wp_step; [rsimp; by rewrite Hst|]. wp_step. rsimp.
  eapply wp_mark_running; [done|exact Hh|]. intros s0 [Hi0 Hm0] Hh0 Hfm0.
  do 3 wp_step. apply wp_set_slice. intros s1 Hs1 Hc1.
  destruct (cpu_step_rest _ _ Hs1) as (E1 & E2 & E3 & E4 & E5 & E6 & E7 & E8 & E9).
  assert (∀ c, current s1 c = current s c) as Hcs by (intros c; by rewrite Hc1, (calm_current _ _ _ Hm0)).
  wp_step. eapply (wp_make_current t _ false s1).
  - by eapply inv_cpu.
  - rewrite E5, (cm_tasks _ _ Hm0). exact (pp_alive _ _ Hp).
  - eapply cpu_step_holds; [exact Hs1|exact Hh0].
  - done.
  - done.
  - done.
  - done.
  - rewrite Hcs. apply Hp.
  - intros c. rewrite Hcs. apply Hp.
  - intros s2 Hi2 Hs2 Hc2. rewrite Z.eqb_refl. do 2 wp_step; [done|].
    wp_step. eapply wp_sched_queue_empty; [done|]. wp_step.
    apply (wp_mono _ (λ _ s3, cpu_step s2 s3 ∧ (∀ c, current s3 c = current s2 c) ∧
      ∀ c, 0 <= c < num_cores → c ≠ UINT32_MAX → needs_kick s3 c = true → pendsv (cls s3 c) = true)).
    { wp_step.
      - eapply wp_mono; [by apply wp_kick_cores|]. intros [] s3 [Hs3 Hc3 _ Hk3]. split_and!; [done..|].
        intros c Hc Hne. rewrite (needs_kick_step s2) by done. by apply Hk3; [apply elem_of_all_cores|].
      - split_and!; [apply cpu_step_refl|done|]. intros c _ _ Hn. unfold needs_kick in Hn.
        case_bool_decide as He; [|done]. rewrite He in Hn. cbn in Hn. by rewrite andb_false_r in Hn. }
    intros [] s3 (Hs3 & Hc3 & Hk3). pose proof (cpu_step_trans _ _ _ (cpu_step_trans _ _ _ Hs1 Hs2) Hs3) as Hs03.
    destruct (cpu_step_rest _ _ Hs03) as (F1 & F2 & F3 & F4 & F5 & F6 & F7 & F8 & F9).
    wp_step. eapply wp_unlock; [by eapply inv_cpu|]. intros Hi3. wp_step.
    split; [|rsimp; by rewrite F5, (cm_tasks _ _ Hm0)]. split.
    + split; [done|]. split; [done|]. rsimp. rewrite F9, (cm_present _ _ Hm0). apply Hp.
    + transitivity (current s3 core); [done|]. by rewrite Hc3.
    + eexists. split; [exact (cpu_step_holds _ _ _ _ _ Hs03 Hh0)|]. by rsimp.
    + rsimp. rewrite F3. by apply (cm_frame _ _ Hm0).
    + apply (foremost_step s0); [done| | |done].
      * intros u. unfold runs_on. rsimp. by rewrite F1.
      * intros u. unfold priority_of. rsimp. by rewrite F1.
    + exact Hk3.
Qed.

(** ** The whole switch *)

(** What the entry of the switch leaves when the scheduler is not locked: the
    task that ran is ready again, with the frame it was interrupted in. *)
Record entered_switch (frame : Z) (s s' : sched) : Prop := {
  es_switching : switching core s';
  es_tasks : s_tasks s' = s_tasks s;
  es_id t : task_id <$> task_at s' !! t = task_id <$> task_at s !! t;
  es_readied t : readied s t → readied s' t;
  es_last : current s core ≠ 0 → readied s' (current s core);
  es_frame : current s core ≠ 0 → t_psp <$> task_at s' !! current s core = Some frame;
  es_word : word_at s' = word_at s;
  es_futex f : futex_id <$> futex_at s' !! f = futex_id <$> futex_at s !! f
}.

(** The ways [scheduler_switch] returns.  The scheduler is locked, and the caller
    goes on; or, after rounds that only idled, the last round picks a task,
    which is dispatched, or shuts the scheduler down. *)
Inductive switched (frame : Z) (s : sched) (a : Z) (s' : sched) : Prop :=
  | switched_locked : quiescent s' → s_locked s < 0 → current s core ≠ 0 → a = frame →
      current s' core = current s core → task_at s' = task_at s → switched frame s a s'
  | switched_task t s1 s2 s3 : ~ (s_locked s < 0 ∧ current s core ≠ 0) →
      entered_switch frame s s1 → idled s1 s2 → round_post s2 (RunTask t) s3 →
      dispatched t a s' → s_tasks s' = s_tasks s3 → switched frame s a s'
  | switched_shutdown s1 s2 : ~ (s_locked s < 0 ∧ current s core ≠ 0) →
      entered_switch frame s s1 → idled s1 s2 → round_post s2 (Shutdown a) s' → switched frame s a s'.

Lemma running_task s t :
  inv_x ∅ s → current s core = t → t ≠ 0 → ∃ tk, task_at s !! t = Some tk ∧ t ∈ s_tasks s ∧
    t_state tk = TASK_RUNNING ∧ t_current_queue tk = None ∧ t_core tk = core ∧ t ∉ s_timers s ∧
    (∀ c, current s c = t → c = core) ∧ t_marker tk = SCHEDULER_TASK_MARKER.
Proof.
  intros Hi Hc Hz. destruct (ix_current _ _ Hi core) as [Hal|]; [by rewrite Hc| |set_solver]. rewrite Hc in Hal.
  destruct (ix_consistent _ _ Hi _ Hal) as (tk & Htk & [Ha1 Ha2]); [apply not_elem_of_empty|].
  destruct (Ha2 core Hc) as [Hst Hco]. rewrite Hst in Ha1.
  destruct (si_alive _ (ix_struct _ _ Hi) _ Hal) as (? & ? & ?). simplify_eq.
  exists tk. split_and!; try done; [apply Ha1|apply Ha1|]. intros c Hcc. by destruct (Ha2 c Hcc).
Qed.

(** The state right after [sched_set_current(0)]. *)
Record left_core (s s' : sched) : Prop := {
  lc_step : cpu_step s s';
  lc_spin : s_spin s = true;
  lc_current c : current s' c = if decide (c = core) then 0 else current s c
}.

Lemma left_core_inv s s' :
  inv_x ∅ s → left_core s s' → inv_x {[current s core]} s'.
Proof.
  intros Hi [Hs _ Hc]. apply inv_drop_null. eapply inv_weaken; [by eapply inv_cpu_set; eauto|]. set_solver.
Qed.

(** Requeueing the task that ran. *)
Lemma wp_requeue_last frame s s' t :
  inv_x ∅ s → s_present s = true → left_core s s' → current s core = t → t ≠ 0 →
  is_Some (frame_at s !! frame) →
  wp (tk <- get_task t ;;
      assert ((t_marker tk =? SCHEDULER_TASK_MARKER) && bool_decide (t_state tk = TASK_RUNNING)) ;;;
      upd_task t (λ tk, tk <| t_state := TASK_READY |> <| t_core := UINT32_MAX |> <| t_psp := frame |>) ;;;
      sched_queue_push ready_queue t)
    (λ _ s2, entered_switch frame s s2) s'.
Proof.
  intros Hi Hpr Hlc Hcur Hz Hfr. destruct (running_task s t Hi Hcur Hz) as
    (tk & Htk & Hal & Hst & Hcq & Hco & Hnt & Hun & Hmk).
  pose proof (left_core_inv _ _ Hi Hlc) as Hi'. destruct Hlc as [Hs' Hsp Hc']. rewrite Hcur in Hi'.
  destruct (cpu_step_rest _ _ Hs') as (E1 & E2 & E3 & E4 & E5 & E6 & E7 & E8 & E9).
  assert (held {[t]} s' s') as Hd by (split; [done|apply calm_refl]).
  assert (holds s' t tk false) as Hh.
  { apply (cpu_step_holds s); [done|]. pose proof (holds_open _ _ _ Htk) as Hh. by rewrite bool_decide_eq_false_2 in Hh. }
  assert (t ∈ s_tasks s') as Hal' by (by rewrite E5).
  wp_step. apply (wp_get_task _ tk); [by rewrite E1|]. wp_step. wp_step.
  { rewrite Hmk, Hst, bool_decide_true by done. by rewrite Z.eqb_refl. }
  wp_step. hstep held_upd_task as Hh. hstep held_queue_push as Hh.
  assert (others t s' s1) as Ho1 by (by eapply others_trans). pose proof (hd_calm _ _ _ Hd) as Hm1.
  assert (∀ c, current s1 c ≠ t) as Hno.
  { intros c. rewrite (calm_current _ _ _ Hm1), Hc'. case_decide; [done|]. by intros ?%Hun. }
  assert (held ∅ s' s1) as Hd1.
  { eapply held_restore; [done|by rewrite (cm_tasks _ _ Hm1)|]. eapply holds_parked; [exact Hh|done| |done].
    rsimp. apply (cm_frame _ _ Hm1). by rewrite E3. }
  assert (readied s1 t) as Hr by (by eexists).
  split.
  - split; [apply Hd1|by rewrite (cm_spin _ _ Hm1), E8|by rewrite (cm_present _ _ Hm1), E9|].
    rewrite (calm_current _ _ _ Hm1), Hc'. by rewrite decide_True.
  - by rewrite (cm_tasks _ _ Hm1).
  - intros u. by rewrite (cm_id _ _ Hm1), E1.
  - intros u (tku & Hhu & ?). destruct (decide (u = t)) as [->|Hne]; [done|].
    eapply readied_others; [exact Ho1|done|]. exists tku. split; [by apply (cpu_step_holds s)|done].
  - intros _. by rewrite Hcur.
  - intros _. rewrite Hcur. destruct Hh as [[o Hto] _]. by rewrite Hto.
  - by rewrite (ot_word _ _ _ Ho1), E4.
  - intros f. by rewrite (ot_futex _ _ _ Ho1), E2.
Qed.

(** The part of [scheduler_switch] before the selection loop; [K] is the rest,
    and [T] the triple it is verified in, partial or total. *)
Lemma enter_switch (T : SM Z → (Z → sched → Prop) → sched → Prop) frame s (K : Z → SM Z) (Q : Z → sched → Prop) :
  (∀ B (m : SM B) (k : B → SM Z) Q s, wp m (λ b s', T (k b) Q s') s → T (bind m k) Q s) →
  quiescent s → is_Some (frame_at s !! frame) → ~ (s_locked s < 0 ∧ current s core ≠ 0) →
  (∀ s', entered_switch frame s s' → T (K (current s core)) Q s') →
  T (last_task <- sched_set_current core 0 ;;
       locked <- gets s_locked ;;
       if negb (last_task =? 0) && (locked <? 0) then
         tk <- get_task last_task ;;
         assert ((t_marker tk =? SCHEDULER_TASK_MARKER) && bool_decide (t_state tk = TASK_RUNNING)) ;;;
         _prev <- sched_set_current core last_task ;;
         scheduler_spin_unlock ;;;
         ret frame
       else
         when (negb (last_task =? 0))
           (tk <- get_task last_task ;;
            assert ((t_marker tk =? SCHEDULER_TASK_MARKER) && bool_decide (t_state tk = TASK_RUNNING)) ;;;
            upd_task last_task (λ tk, tk <| t_state := TASK_READY |> <| t_core := UINT32_MAX |>
                                         <| t_psp := frame |>) ;;;
            sched_queue_push ready_queue last_task) ;;;
         K last_task) Q (s <| s_spin := true |>).
Proof.
  intros HT (Hi & Hsp & Hpr) Hfr Hnl HQ. set (s0 := s <| s_spin := true |>).
  assert (inv_x ∅ s0) as Hi0 by (by apply inv_spin).
  apply HT. apply (wp_sched_set_current core 0 _ s0 (ix_struct _ _ Hi0) (or_introl eq_refl)).
  intros s1 Hs1 Hc1. change (current s0 core) with (current s core).
  assert (left_core s0 s1) as Hlc by done.
  destruct (cpu_step_rest _ _ Hs1) as (E1 & E2 & E3 & E4 & E5 & E6 & E7 & E8 & E9).
  apply HT. wp_step. replace (s_locked s1) with (s_locked s) by (by rewrite (cs_rest _ _ Hs1)).
  destruct (current s core =? 0) eqn:Hz; cbn [negb andb].
  - apply HT. wp_step; [done|]. apply HQ.
    assert (current s core = 0) as Hz0 by lia. split.
    + split; [|by rewrite E8|by rewrite E9|by rewrite Hc1, decide_True].
      apply inv_drop_null. replace ({[0]} ∪ ∅ : gset Z) with ({[current s0 core]} : gset Z).
      * by apply left_core_inv.
      * change (current s0 core) with (current s core). rewrite Hz0. set_solver.
    + done.
    + intros t. by rewrite E1.
    + intros t (tk & Hh & ?). exists tk. split; [by apply (cpu_step_holds s0)|done].
    + done.
    + done.
    + done.
    + intros f. by rewrite E2.
  - destruct (s_locked s <? 0) eqn:Hlk; [destruct Hnl; lia|]. apply HT. wp_step; [|done].
    eapply wp_mono; [apply (wp_requeue_last frame s0 s1); try done; lia|]. intros [] s2 Hes. apply HQ. by destruct Hes.
Qed.

(** A locked scheduler gives the core back to the task it interrupted. *)
Lemma wlp_switch_locked frame s (K : Z → SM Z) :
  quiescent s → s_locked s < 0 → current s core ≠ 0 →
  wlp (last_task <- sched_set_current core 0 ;;
       locked <- gets s_locked ;;
       if negb (last_task =? 0) && (locked <? 0) then
         tk <- get_task last_task ;;
         assert ((t_marker tk =? SCHEDULER_TASK_MARKER) && bool_decide (t_state tk = TASK_RUNNING)) ;;;
         _prev <- sched_set_current core last_task ;;
         scheduler_spin_unlock ;;;
         ret frame
       else K last_task) (λ a s', switched frame s a s') (s <| s_spin := true |>).
Proof.
  intros (Hi & Hsp & Hpr) Hlk Hz. set (s0 := s <| s_spin := true |>).
  assert (inv_x ∅ s0) as Hi0 by (by apply inv_spin). apply wlp_wp.
  destruct (running_task s0 _ Hi0 eq_refl Hz) as (tk & Htk & Hal & Hst & Hcq & Hco & Hnt & Hun & Hmk).
  wp_step. apply (wp_sched_set_current core 0 _ s0 (ix_struct _ _ Hi0) (or_introl eq_refl)).
  intros s1 Hs1 Hc1. assert (left_core s0 s1) as Hlc by done.
  pose proof (left_core_inv _ _ Hi0 Hlc) as Hi1. set (t := current s0 core) in *.
  destruct (cpu_step_rest _ _ Hs1) as (E1 & E2 & E3 & E4 & E5 & E6 & E7 & E8 & E9).
  do 2 wp_step. replace (s_locked s1) with (s_locked s) by (by rewrite (cs_rest _ _ Hs1)).
  replace (negb (t =? 0) && (s_locked s <? 0)) with true.
  2: { destruct (t =? 0) eqn:E; [exfalso; apply Hz; change (t = 0); lia|]. cbn. lia. }
  wp_step. apply (wp_get_task _ tk); [by rewrite E1|]. wp_step. wp_step.
  { rewrite Hmk, Hst, bool_decide_true by done. by rewrite Z.eqb_refl. }
  wp_step. eapply (wp_make_current t tk false s1); try done.
  - by rewrite E5.
  - apply (cpu_step_holds s0); [done|]. pose proof (holds_open _ _ _ Htk) as Hh.
    by rewrite bool_decide_eq_false_2 in Hh.
  - by rewrite Hc1, decide_True.
  - intros c. rewrite Hc1. case_decide; [done|]. by intros ?%Hun.
  - intros s2 Hi2 Hs2 Hc2. destruct (cpu_step_rest _ _ Hs2) as (F1 & F2 & F3 & F4 & F5 & F6 & F7 & F8 & F9).
    wp_step. eapply wp_unlock; [exact Hi2|]. intros Hi3. wp_step.
    apply switched_locked; [split; [done|split; [done|]]|done|done|done|exact Hc2|].
    + rsimp. by rewrite F9, E9.
    + rsimp. by rewrite F1, E1.
Qed.

Lemma scheduler_switch_ok fuel frame s :
  quiescent s → is_Some (frame_at s !! frame) →
  wlp (scheduler_switch core fuel frame) (λ a s', switched frame s a s') s.
Proof.
  intros Hq Hfr. pose proof Hq as (Hi & Hsp & Hpr). unfold scheduler_switch.
  apply wlp_bind_wp. wp_step. apply wlp_bind_wp. wp_step; [done|]. apply wlp_bind_wp. apply wp_spin_lock; [done|].
  destruct (decide (s_locked s < 0 ∧ current s core ≠ 0)) as [[Hlk Hz]|Hnl].
  - by apply wlp_switch_locked.
  - eapply (enter_switch wlp frame s (λ last_task, r <- select_task core fuel ;;
      match r with RunTask t => dispatch core t last_task | Shutdown initial => ret initial | Again => fail OutOfFuel end)); [intros; by apply wlp_bind_wp|done..|].
    intros s1 Hes. apply wlp_bind. eapply wlp_mono; [by apply wlp_select_task, Hes|].
    intros [t| |a] s2 (Hne & s3 & Hid & Hr); [|done|].
    + pose proof Hr as (_ & _ & _ & _ & _ & Hp). apply wlp_wp. eapply wp_mono; [by apply wp_dispatch|].
      intros a s4 [Hd Ht]. by eapply (switched_task frame s a s4 t s1 s3 s2).
    + apply wlp_wp, wp_ret. by eapply (switched_shutdown frame s a s2 s1 s3).
Qed.

(** ** A switch with something to run does not idle

    The stacks of the tasks are intact, and no futex word lies on their guard
    words. *)
Record stacks_intact (s : sched) : Prop := {
  sk_intact t : t ∈ s_tasks s → stack_intact s t;
  sk_apart t tk : t ∈ s_tasks s → task_at s !! t = Some tk → has (t_flags tk) SCHEDULER_TASK_STACK_CHECK = true →
    no_futex_word s (t_stack_marker tk) ∧ no_futex_word s (t_stack_marker tk + 4)
}.

Lemma stacks_kept s s' :
  s_tasks s' = s_tasks s → (∀ t, task_id <$> task_at s' !! t = task_id <$> task_at s !! t) →
  (∀ f, futex_id <$> futex_at s' !! f = futex_id <$> futex_at s !! f) →
  (∀ a, no_futex_word s a → word_at s' !! a = word_at s !! a) → stacks_intact s → stacks_intact s'.
Proof.
  intros Ht Hid Hf Hw [Hi Ha]. split.
  - intros t. rewrite Ht. intros Hal. apply (stack_intact_mono s); [done| |by apply Hi].
    intros tk Htk Hc. destruct (Ha t tk Hal Htk Hc). split; by apply Hw.
  - intros t tk'. rewrite Ht. intros Hal Htk' Hc. specialize (Hid t). rewrite Htk' in Hid.
    destruct (task_at s !! t) as [tk|] eqn:Htk; [|done]. cbn in Hid. unfold task_id in Hid.
    injection Hid as Ef Em _ _ _ _. rewrite Ef in Hc. rewrite Em. destruct (Ha t tk Hal Htk Hc).
    split; by apply (no_futex_word_id s).
Qed.

Lemma runs_on_id s s' u :
  task_id <$> task_at s' !! u = task_id <$> task_at s !! u → runs_on s' core u = runs_on s core u.
Proof.
  unfold runs_on. destruct (task_at s' !! u) as [tk'|], (task_at s !! u) as [tk|]; try done.
  cbn. unfold task_id. intros E. by assert (t_flags tk' = t_flags tk ∧ t_affinity tk' = t_affinity tk) as [-> ->] by (split; congruence).
Qed.

Lemma readied_pick s u : switching core s → readied s u → runs_on s core u = true →
  pick s core (s_ready s) ≠ None.
Proof.
  intros Hsw (tk & [[o Hto] _] & _ & Hq) Hr. unfold pick. destruct (core =? UINT32_MAX) eqn:E; [lia|].
  destruct (si_queued _ (ix_struct _ _ (sw_inv _ _ Hsw)) _ _ ready_queue Hto Hq) as (l & [= <-] & Hin).
  intros Hn. eapply find_none in Hn; [|by apply list_elem_of_In]. congruence.
Qed.

(** A round that has a task to run runs one. *)
Lemma round_runs s r s' u : switching core s → stacks_intact s → readied s u → runs_on s core u = true →
  round_post s r s' → ∃ t, r = RunTask t ∧ popped t s'.
Proof.
  intros Hsw Hk Hr Hro (s1 & [Hsw1 Hdr _] & Hr1).
  assert (stacks_intact s1) as Hk1 by (apply (stacks_kept s); [apply Hdr..|done]).
  assert (∀ s2, ¬ nothing_runs s1 s2) as Hno.
  { intros s2 [Hn _|t Hpk Hd _].
    - apply (readied_pick s1 u); [done|by apply Hdr| |done]. rewrite <-Hro. apply runs_on_id, Hdr.
    - apply Hd, (sk_intact _ Hk1). unfold pick in Hpk. destruct (core =? UINT32_MAX) eqn:E; [lia|].
      apply find_some in Hpk as [Hin _]. apply list_elem_of_In in Hin.
      by destruct (si_member _ (ix_struct _ _ (sw_inv _ _ Hsw1)) ready_queue _ _ eq_refl Hin). }
  destruct r as [t| |a]; [|by destruct Hr1 as (s2 & Hn & _); destruct (Hno s2)|by destruct Hr1 as (s2 & fr & Hn & _); destruct (Hno s2)].
  exists t. split; [done|]. apply Hr1.
Qed.

Lemma scheduler_switch_returns frame s u :
  quiescent s → is_Some (frame_at s !! frame) → 0 <= s_locked s → stacks_intact s →
  (readied s u ∨ (u = current s core ∧ u ≠ 0)) → runs_on s core u = true →
  wp (scheduler_switch core 1 frame) (λ a s', ∃ t, dispatched t a s') s.
Proof.
  intros Hq Hfr Hlk Hun Hu Hro. pose proof Hq as (Hi & Hsp & Hpr). unfold scheduler_switch.
  do 2 wp_step. wp_step. wp_step; [done|]. wp_step. apply wp_spin_lock; [done|].
  eapply (enter_switch wp frame s (λ last_task, r <- select_task core 1 ;;
    match r with RunTask t => dispatch core t last_task | Shutdown initial => ret initial | Again => fail OutOfFuel end));
    [intros; by apply wp_bind|done|done|lia|].
  intros s1 Hes. wp_step. cbn [select_task]. wp_step. eapply wp_mono; [apply wp_next_task, Hes|].
  intros r s2 Hr. destruct (round_runs s1 r s2 u) as (t & -> & Hp); [apply Hes| | | |done|].
  - apply (stacks_kept s); [apply Hes..| |done]. intros a _. by rewrite (es_word _ _ _ Hes).
  - destruct Hu as [?|[-> ?]]; [by apply (es_readied _ _ _ Hes)|by apply (es_last _ _ _ Hes)].
  - rewrite <-Hro. by apply runs_on_id, Hes.
  - wp_step. eapply wp_mono; [by apply wp_dispatch|]. intros a s3 [Hd _]. by exists t.
Qed.

(** ** The tick *)
Definition tick_count (c : cpu) : cpu := c <| ticks ::= λ n, u32 (n + 1) |>.

Lemma tick_local c : local_step tick_count c.
Proof. split; [done|done|done|done|by right]. Qed.

(** A turn on one core, whatever it does to its pending switch. *)
Lemma quiescent_step s s' :
  quiescent s → cpu_step s s' → (∀ c, current s' c = current s c) → quiescent s'.
Proof.
  intros (Hi & Hsp & Hpr) Hc Hcur. destruct (cpu_step_rest _ _ Hc) as (_ & _ & _ & _ & _ & _ & _ & E8 & E9).
  split; [by eapply inv_cpu|]. by rewrite E8, E9.
Qed.

Lemma local_cpu_step g s : local_step g (cls s core) → deferred_wake (g (cls s core)) = deferred_wake (cls s core) →
  cpu_step s (on_core core g s).
Proof.
  intros Hg Hd. split; [done|..]; intros c; rewrite cls_on_core; case_decide; subst; try done;
    [by rewrite (ls_initial _ _ Hg)|by rewrite (ls_ipsr _ _ Hg)].
Qed.

(** A switch asked for on this core. *)
Definition asks (c : cpu) : cpu := c <| pendsv := true |>.

Lemma asks_local c : local_step asks c.
Proof. split; [done|done|done|done|by right]. Qed.

Lemma quiescent_on_core g s :
  quiescent s → local_step g (cls s core) → deferred_wake (g (cls s core)) = deferred_wake (cls s core) →
  quiescent (on_core core g s).
Proof. intros Hq Hg Hd. eapply quiescent_step; [exact Hq|by apply local_cpu_step|by apply current_on_core]. Qed.

Lemma wp_ask (Q : unit → sched → Prop) s :
  Q tt (on_core core asks s) → wp (scheduler_request_switch core) Q s.
Proof.
  intros HQ. unfold scheduler_request_switch. rewrite (proj2 (Z.eqb_neq _ _) Hcore). cbn [negb when].
  unfold upd_cls. by apply wp_upd.
Qed.

Definition slice_count (c : cpu) : cpu := c <| slice_expires := s32 (slice_expires c - 1) |>.

Lemma slice_count_local c : local_step slice_count c.
Proof. split; [done|done|done|done|by right]. Qed.

Lemma cls_own g s : cls (on_core core g s) core = g (cls s core).
Proof. by rewrite cls_on_core, decide_True. Qed.

(** The timer half of the tick, and the slice half. *)
Lemma wp_tick_timer now s :
  quiescent s →
  wp (when (s_timer_expires s <=? now) (scheduler_request_switch core)) (λ _ s', quiescent s' ∧
    slice_expires (cls s' core) = slice_expires (cls s core) ∧
    (s_timer_expires s <= now → pendsv (cls s' core) = true)) s.
Proof.
  intros Hq. wp_step; [|split_and!; [done|done|lia]]. apply wp_ask.
  split; [by apply quiescent_on_core; [|apply asks_local|]|]. by rewrite cls_own.
Qed.

Lemma wp_tick_slice s :
  quiescent s → let slice := slice_expires (cls s core) in
  wp (when (negb (slice =? INT32_MAX))
       (upd_cls core (λ c, c <| slice_expires := s32 (slice - 1) |>) ;;;
        when (s32 (slice - 1) =? 0) (scheduler_request_switch core))) (λ _ s', quiescent s' ∧
    (pendsv (cls s core) = true ∨ slice = 1 → pendsv (cls s' core) = true)) s.
Proof.
  intros Hq slice. wp_step.
  2: { split; [done|]. intros [?|E]; [done|]. rewrite E in *. done. }
  wp_step. unfold upd_cls. apply wp_upd. fold (slice_count (cls s core)). fold (on_core core slice_count s).
  pose proof (quiescent_on_core _ _ Hq (slice_count_local _) eq_refl) as Hq1. wp_step.
  - apply wp_ask. fold (slice_count (cls s core)). fold (on_core core slice_count s).
    split; [by apply quiescent_on_core; [|apply asks_local|]|]. by rewrite cls_own.
  - split; [done|]. change (pendsv (cls s core) = true ∨ slice = 1 → pendsv (cls (on_core core slice_count s) core) = true).
    rewrite cls_own. intros [?|E]; [done|]. rewrite E in *. done.
Qed.

Lemma scheduler_tick_ok s :
  quiescent s →
  let now := scheduler_get_ticks (on_core core tick_count s) in
  wp (scheduler_tick core) (λ _ s', quiescent s' ∧
    (scheduler_is_running s = true → s_timer_expires s <= now ∨ slice_expires (cls s core) = 1 →
     pendsv (cls s' core) = true)) s.
Proof.
  intros Hq now. unfold scheduler_tick. do 2 wp_step. destruct (scheduler_is_running s); cbn [negb]; [|by wp_step].
  wp_step. unfold upd_cls at 1. apply wp_upd. fold (tick_count (cls s core)). fold (on_core core tick_count s).
  pose proof (quiescent_on_core _ _ Hq (tick_local _) eq_refl) as Hq1.
  do 5 wp_step. eapply wp_mono; [by apply wp_tick_timer|].
  intros [] s2 (Hq2 & Es2 & Hp2). rewrite cls_own in Es2. do 3 wp_step. eapply wp_mono; [by apply wp_tick_slice|].
  intros [] s3 (Hq3 & Hp3). eapply wp_mono; [by apply tick_hook_law|].
  intros a s4 [Hq4 Hk]. split; [done|]. intros _ Ho. apply Hk, Hp3. rewrite Es2. destruct Ho; [left; by apply Hp2|by right].
Qed.
End switch.
