(* ===== verification/SchedulerCheck.v ===== *)
(** * The scheduler: the invariant as a program

    [checked s] decides [quiescent s] by looking at the maps, so that concrete
    states are shown to be quiescent by evaluation; and a sample system, an
    environment whose only interrupt is the tick, for the concrete runs. *)
From S2P Require Import Prelude Scheduler SchedulerSvc SchedulerInv SchedulerSafe.

(** ** The rings *)
Definition futexes (s : sched) : list (Z * futex) := map_to_list (futex_at s).
Definition queues (s : sched) : list (queue_id * list Z) :=
  (ready_queue, s_ready s) :: ((λ p, (waiters p.1, f_waiters p.2)) <$> futexes s).
Definition task_entries (s : sched) : list (Z * task) := map_to_list (task_at s).
Definition cores (s : sched) : list cpu := cpu_reset :: (snd <$> map_to_list (cpu_at s)).

Lemma elem_of_queues s q l : queue s q = Some l ↔ (q, l) ∈ queues s.
Proof.
  unfold queues, futexes. rewrite elem_of_cons, list_elem_of_fmap. destruct q as [|f]; cbn [queue]; split.
  - intros [= <-]. by left.
  - intros [[= ->]|([f fx] & [= ? ?] & _)]; done.
  - destruct (futex_at s !! f) as [fx|] eqn:E; [|done]. intros [= <-]. right.
    exists (f, fx). by rewrite elem_of_map_to_list.
  - intros [[=]|([g fx] & [= -> ->] & Hin%elem_of_map_to_list)]. by rewrite Hin.
Qed.

Lemma elem_of_cores s c : cls s c ∈ cores s.
Proof.
  unfold cls, cores. destruct (cpu_at s !! c) as [x|] eqn:E; cbn; [|by left].
  right. apply list_elem_of_fmap. exists (c, x). by rewrite elem_of_map_to_list.
Qed.

Definition marked (s : sched) (t : Z) : bool :=
  from_option (λ tk, t_marker tk =? SCHEDULER_TASK_MARKER) false (task_at s !! t).
Definition in_queue (s : sched) (t : Z) (q : queue_id) : bool :=
  match task_at s !! t with Some tk => bool_decide (t_current_queue tk = Some q) | None => false end.
Definition check_queue (s : sched) (p : queue_id * list Z) : bool :=
  bool_decide (NoDup p.2) && bool_decide (StronglySorted (λ a b, priority_of s a <= priority_of s b) p.2) &&
  forallb (λ t, bool_decide (t ∈ s_tasks s) && in_queue s t p.1) p.2.
Definition check_entry (s : sched) (p : Z * task) : bool :=
  match t_current_queue p.2 with
  | Some q => match queue s q with Some l => bool_decide (p.1 ∈ l) | None => false end
  | None => true
  end && forallb (λ f, bool_decide (is_Some (futex_at s !! f))) (t_owned_futexes p.2).

Definition check_struct (s : sched) : bool :=
  bool_decide (task_at s !! 0 = None) && bool_decide (NoDup (s_tasks s)) &&
  forallb (marked s) (s_tasks s) && forallb (check_queue s) (queues s) &&
  forallb (check_entry s) (task_entries s) && bool_decide (NoDup (s_timers s)) &&
  bool_decide (StronglySorted (λ a b, expires_of s a <= expires_of s b) (s_timers s)) &&
  (s_timer_expires s =? closest_expiry s) &&
  forallb (λ t, bool_decide (t ∈ s_tasks s)) (s_timers s) &&
  forallb (λ p, bool_decide (is_Some (word_at s !! f_value p.2))) (futexes s).

Lemma forallb_elem {A} (p : A → bool) l x : forallb p l = true → x ∈ l → p x = true.
Proof. rewrite forallb_forall. intros H Hx%list_elem_of_In. auto. Qed.

Ltac split_andb := repeat match goal with
  | H : _ && _ = true |- _ => apply andb_true_iff in H as [? ?]
  | H : bool_decide _ = true |- _ => apply bool_decide_eq_true in H
  | H : (_ =? _) = true |- _ => apply Z.eqb_eq in H
  end.

Lemma check_struct_sound s : check_struct s = true → struct_inv s.
Proof.
  unfold check_struct. intros H. split_andb. rename H into Hnull, H8 into Hnd, H7 into Hmk, H6 into Hq, H5 into He,
    H4 into Htn, H3 into Hts, H2 into Htc, H1 into Hta, H0 into Hw.
  assert (∀ q l, queue s q = Some l → check_queue s (q, l) = true) as Hqs.
  { intros q l Hl%elem_of_queues. by apply (forallb_elem _ _ _ Hq). }
  assert (∀ t tk, task_at s !! t = Some tk → check_entry s (t, tk) = true) as Hes.
  { intros t tk Ht%elem_of_map_to_list. by apply (forallb_elem _ _ _ He). }
  split; try done.
  - intros t Ht. pose proof (forallb_elem _ _ _ Hmk Ht) as Hm. unfold marked in Hm.
    destruct (task_at s !! t) as [tk|]; [|done]. exists tk. cbn in Hm. split; [done|lia].
  - intros q l Hl%Hqs. unfold check_queue in Hl. split_andb. done.
  - intros q l t [_ Hl]%Hqs%andb_prop Ht. pose proof (forallb_elem _ _ _ Hl Ht) as Hm.
    apply andb_prop in Hm as [Hal%bool_decide_eq_true Hm]. split; [done|].
    cbn in Hm. unfold in_queue in Hm. destruct (task_at s !! t) as [tk|]; [|done]. exists tk. split_andb. done.
  - intros t tk q Ht%Hes E. unfold check_entry in Ht. cbn in Ht. rewrite E in Ht. apply andb_prop in Ht as [Ht _].
    destruct (queue s q) as [l|]; [|done]. exists l. by apply bool_decide_eq_true in Ht.
  - intros t Ht. pose proof (forallb_elem _ _ _ Hta Ht). cbv beta in *. split_andb. done.
  - intros t tk f [_ Ht]%Hes%andb_prop Hf. pose proof (forallb_elem _ _ _ Ht Hf). cbv beta in *. split_andb. done.
  - intros f fx Hf%elem_of_map_to_list. pose proof (forallb_elem _ _ _ Hw Hf). cbv beta in *. split_andb. done.
Qed.

(** ** The tasks and the cores *)
Definition is_frame (s : sched) (a : Z) : bool := bool_decide (is_Some (frame_at s !! a)).
Definition is_word (s : sched) (a : Z) : bool := bool_decide (is_Some (word_at s !! a)).
Definition core_keys (s : sched) : list Z := fst <$> map_to_list (cpu_at s).

Definition check_state (s : sched) (t : Z) (tk : task) : bool :=
  match t_state tk with
  | TASK_READY => bool_decide (t_current_queue tk = Some ready_queue) && bool_decide (t ∉ s_timers s) &&
      is_frame s (t_psp tk)
  | TASK_BLOCKED => match t_current_queue tk with Some (waiters _) => true | _ => false end && is_frame s (t_psp tk)
  | TASK_SUSPENDED => bool_decide (t_current_queue tk = None) && is_frame s (t_psp tk)
  | TASK_RUNNING => bool_decide (t_current_queue tk = None) && bool_decide (t ∉ s_timers s) &&
      (current s (t_core tk) =? t)
  | TASK_TERMINATED => false
  end.

Definition check_task (s : sched) (t : Z) : bool :=
  match task_at s !! t with
  | Some tk => check_state s t tk &&
      forallb (λ c, negb (current s c =? t) || (bool_decide (t_state tk = TASK_RUNNING) && (t_core tk =? c)))
        (core_keys s) &&
      (negb (has (t_flags tk) SCHEDULER_TASK_STACK_CHECK) ||
        is_word s (t_stack_marker tk) && is_word s (t_stack_marker tk + 4))
  | None => false
  end.

Definition check_wake (s : sched) (w : Z) : bool :=
  (w =? 0) || match futex_at s !! (Z.land w (not32 1)) with
              | Some fx => Z.land (f_flags fx) PI_AND_OWNER =? 0
              | None => false
              end.

Definition check_cpu (s : sched) (c : cpu) : bool :=
  ((current_task c =? 0) || bool_decide (current_task c ∈ s_tasks s)) &&
  forallb (check_wake s) (deferred_wake c) &&
  bool_decide (length (deferred_wake c) = SCHEDULER_MAX_DEFERED_WAKE) &&
  ((scheduler_initial_frame c =? 0) || is_frame s (scheduler_initial_frame c)).

Definition check_futex (p : Z * futex) : bool :=
  negb (has (f_flags p.2) SCHEDULER_FUTEX_PI) || has (f_flags p.2) SCHEDULER_FUTEX_OWNER_TRACKING.

Definition checked (s : sched) : bool :=
  check_struct s && forallb (check_task s) (s_tasks s) && forallb (check_cpu s) (cores s) &&
  forallb check_futex (futexes s) && negb (s_spin s) && s_present s.

Lemma check_state_sound s t tk :
  check_state s t tk = true →
  match t_state tk with
  | TASK_READY => t_current_queue tk = Some ready_queue ∧ t ∉ s_timers s ∧ saved s tk
  | TASK_BLOCKED => (∃ f, t_current_queue tk = Some (waiters f)) ∧ saved s tk
  | TASK_SUSPENDED => t_current_queue tk = None ∧ saved s tk
  | TASK_RUNNING => t_current_queue tk = None ∧ t ∉ s_timers s ∧ current s (t_core tk) = t
  | TASK_TERMINATED => False
  end.
Proof.
  unfold check_state, is_frame, saved. destruct (t_state tk); intros H; split_andb; try done.
  destruct (t_current_queue tk) as [[|f]|]; try done. eauto.
Qed.

Lemma current_key s c t : current s c = t → t ≠ 0 → c ∈ core_keys s.
Proof.
  unfold current, cls. intros Hc Ht. destruct (cpu_at s !! c) as [x|] eqn:E; [|cbn in Hc; congruence].
  apply list_elem_of_fmap. exists (c, x). by rewrite elem_of_map_to_list.
Qed.

Lemma check_task_sound s t :
  t ≠ 0 → check_task s t = true → consistent s t ∧ ∀ tk, task_at s !! t = Some tk → guarded s tk.
Proof.
  intros Hz. unfold check_task. destruct (task_at s !! t) as [tk|] eqn:E; [|done]. intros H. split_andb.
  split; [exists tk; split; [done|split; [by apply check_state_sound|]]|].
  - intros c Hc. pose proof (forallb_elem _ _ _ H1 (current_key _ _ _ Hc Hz)) as Hk. cbn in Hk.
    rewrite Hc, Z.eqb_refl in Hk. cbn in Hk. split_andb. done.
  - intros ? [= <-] Hf. rewrite Hf in H0. cbn in H0. unfold is_word in H0. split_andb. done.
Qed.

Lemma checked_quiescent s : checked s = true → quiescent s.
Proof.
  unfold checked. intros H. split_andb. rename H into Hs, H4 into Ht, H3 into Hc, H2 into Hf, H1 into Hsp, H0 into Hp.
  apply check_struct_sound in Hs.
  assert (∀ t, t ∈ s_tasks s → t ≠ 0) as Hz.
  { intros t Hin ->. destruct (si_alive _ Hs _ Hin) as (tk & Hn & _). by rewrite (si_null _ Hs) in Hn. }
  assert (∀ c, check_cpu s (cls s c) = true) as Hcpu.
  { intros c. apply (forallb_elem _ _ _ Hc), elem_of_cores. }
  split; [|split; [by destruct (s_spin s)|done]]. split; [done|..].
  - intros t Hin _. by apply check_task_sound; [apply Hz|apply (forallb_elem _ _ _ Ht)].
  - intros c Hn. left. specialize (Hcpu c). unfold check_cpu in Hcpu. split_andb.
    apply orb_true_iff in H as [E%Z.eqb_eq|E%bool_decide_eq_true]; [by destruct Hn|done].
  - intros f fx E%elem_of_map_to_list Hpi. pose proof (forallb_elem _ _ _ Hf E) as Hk.
    unfold check_futex in Hk. cbn in Hk. by rewrite Hpi in Hk.
  - intros c w Hw Hwz. specialize (Hcpu c). unfold check_cpu in Hcpu. split_andb.
    pose proof (forallb_elem _ _ _ H2 Hw) as Hk. unfold check_wake in Hk.
    apply orb_true_iff in Hk as [Hk%Z.eqb_eq|Hk]; [done|].
    destruct (futex_at s !! _) as [fx|]; [|done]. exists fx. split_andb. done.
  - intros c. specialize (Hcpu c). unfold check_cpu in Hcpu. split_andb. done.
  - intros c Hn. specialize (Hcpu c). unfold check_cpu in Hcpu. split_andb.
    apply orb_true_iff in H0 as [E%Z.eqb_eq|E%bool_decide_eq_true]; done.
  - intros t tk Hin Htk. by apply (check_task_sound s t); [apply Hz|apply (forallb_elem _ _ _ Ht)|].
Qed.
