(* ===== verification/SchedulerSystem.v ===== *)
(** * The scheduler as a transition system

    The system is the interleaving of what the cores do: service calls, context
    switches, ticks, wakes deferred by interrupt handlers, and the stores of
    the application.  Each [event] runs whole (the scheduler spin lock and the
    exception priorities make it so) and is [admissible] when the caller keeps
    its side of the contract.  [quiescent] is an invariant of the system. *)
From S2P Require Import Prelude Scheduler SchedulerSvc SchedulerApi SchedulerInv SchedulerSafe SchedulerHandlers SchedulerSwitch.

(** The rows of the service table [scheduler_run] installs. *)
Inductive service := SvcCreate | SvcYield | SvcSuspend | SvcResume | SvcWait | SvcWake | SvcTerminate | SvcPriority.

Inductive event :=
  | ServiceCall (core frame : Z) (svc : service)
  | PendSV (core frame : Z) (fuel : nat)
  | SysTick (core : Z)
  | DeferWake (core f : Z) (all : bool)
  | StackFrame (a : Z) (fr : Scheduler.frame)
  | Store (a v : Z)
  | InitFutex (f value flags : Z)
  | Lock
  | Unlock.

Definition is_switch (e : event) : bool := match e with PendSV _ _ _ => true | _ => false end.

(** ** Deferred wakes *)
Section defer.
Context (core : Z).
Hypothesis Hcore : core ≠ UINT32_MAX.

Definition fill_slot (i : nat) (w : Z) (c : cpu) : cpu := c <| deferred_wake ::= <[i := w]> |>.
Definition give_wake (c : cpu) : cpu := c <| given_wake_counter ::= λ n, u32 (n + 1) |>.

Lemma inv_wakes X s g :
  inv_x X s → length (deferred_wake (g (cls s core))) = SCHEDULER_MAX_DEFERED_WAKE →
  current_task (g (cls s core)) = current s core →
  scheduler_initial_frame (g (cls s core)) = scheduler_initial_frame (cls s core) →
  (∀ w, w ∈ deferred_wake (g (cls s core)) → deferred_ok s w) → inv_x X (on_core core g s).
Proof.
  intros Hi Hl Hc Hin Hw.
  assert (∀ c, current (on_core core g s) c = current s c) as Hcur.
  { intros c. unfold current. rewrite cls_on_core. by case_decide; subst. }
  split; try apply Hi; try done.
  - by eapply struct_cpu, (ix_struct _ _ Hi).
  - intros t Ht HX. destruct (ix_consistent _ _ Hi t Ht HX) as (tk & Htk & Ha). exists tk. split; [done|].
    eapply agrees_mono; [done..| | | |exact Ha]; done.
  - intros c. rewrite Hcur. apply (ix_current _ _ Hi).
  - intros c w. rewrite cls_on_core. case_decide; [apply Hw|by apply (ix_deferred _ _ Hi)].
  - intros c. rewrite cls_on_core. case_decide; [done|apply (ix_slots _ _ Hi)].
  - intros c. rewrite cls_on_core. case_decide; subst; rewrite ?Hin; apply (ix_initial _ _ Hi).
Qed.

Lemma slot_filled i w v (l : list Z) : v ∈ <[i := w]> l → v = w ∨ v ∈ l.
Proof. intros [j Hj]%list_elem_of_lookup. apply list_lookup_insert_Some in Hj as [(_ & -> & _)|[_ Hj]]; [by left|].
  right. by eapply list_elem_of_lookup_2. Qed.

(** What [scheduler_futex_wake] leaves from an interrupt handler: the wake is in
    a slot, once, or there was no slot left. *)
Inductive deferred (w : Z) (s : sched) (r : Z) (s' : sched) : Prop :=
  | deferred_new i : r = 0 → deferred_wake (cls s core) !! i = Some 0 → w ∉ take i (deferred_wake (cls s core)) →
      deferred_wake (cls s' core) = <[i := w]> (deferred_wake (cls s core)) →
      given_wake_counter (cls s' core) = u32 (given_wake_counter (cls s core) + 1) →
      taken_wake_counter (cls s' core) = taken_wake_counter (cls s core) →
      switch_pending core s' → deferred w s r s'
  | deferred_coalesced : r = 0 → w ∈ deferred_wake (cls s core) → s' = s → deferred w s r s'
  | deferred_full : r = - ENOSPC → 0 ∉ deferred_wake (cls s core) → w ∉ deferred_wake (cls s core) →
      s' = s <| s_errno := ENOSPC |> → deferred w s r s'.

Lemma quiescent_errno s e : quiescent s → quiescent (s <| s_errno := e |>).
Proof. intros [[[] ] ?]. by split; [split; [split|..]|]. Qed.

Lemma defer_wake_loop w n : ∀ i s,
  quiescent s → w ≠ 0 → deferred_ok s w → (i + n)%nat = SCHEDULER_MAX_DEFERED_WAKE →
  w ∉ take i (deferred_wake (cls s core)) → 0 ∉ take i (deferred_wake (cls s core)) →
  wp (defer_wake core n i w) (λ r s', quiescent s' ∧ deferred w s r s') s.
Proof.
  induction n as [|n IH]; intros i s Hq Hw Hok Hn Hni Hz; cbn [defer_wake].
  { unfold set_errno. do 3 wp_step. pose proof (ix_slots _ _ (proj1 Hq) core) as Hl.
    rewrite take_ge in Hni, Hz by lia. split; [by apply quiescent_errno|by apply deferred_full]. }
  do 2 wp_step. pose proof (ix_slots _ _ (proj1 Hq) core) as Hl.
  destruct (lookup_lt_is_Some_2 (deferred_wake (cls s core)) i) as [x Hx]; [lia|].
  rewrite (list_lookup_total_correct _ _ _ Hx). wp_step.
  - replace x with 0 in Hx by lia.
    wp_step. unfold upd_cls at 1. apply wp_upd. fold (fill_slot i w (cls s core)). fold (on_core core (fill_slot i w) s).
    wp_step. unfold upd_cls. apply wp_upd. set (s1 := on_core core (fill_slot i w) s).
    fold (give_wake (cls s1 core)). fold (on_core core give_wake s1).
    assert (inv_x ∅ s1) as Hi1.
    { apply inv_wakes; [apply Hq|unfold fill_slot; rsimp; by rewrite length_insert|done..|].
      intros v. unfold fill_slot. rsimp. intros [->|Hv]%slot_filled; [done|]. by apply (ix_deferred _ _ (proj1 Hq) core). }
    assert (inv_x ∅ (on_core core give_wake s1)) as Hi2.
    { apply inv_wakes; [done|apply (ix_slots _ _ Hi1)|done..|apply (ix_deferred _ _ Hi1)]. }
    wp_step. apply wp_ask; [done|]. wp_step.
    set (s2 := on_core core give_wake s1) in *.
    assert (cls (on_core core asks s2) core = asks (give_wake (fill_slot i w (cls s core)))) as E.
    { unfold s2, s1. by rewrite !cls_own. }
    split; [apply quiescent_on_core; [by split; [|apply Hq]|apply asks_local|done]|].
    eapply (deferred_new _ _ _ _ i); try done; rewrite ?E; try done. intros _. by rewrite E.
  - wp_step.
    { assert (w = x) as -> by lia. wp_step. split; [done|]. apply deferred_coalesced; [done| |done].
      by eapply list_elem_of_lookup_2. }
    assert (take (S i) (deferred_wake (cls s core)) = take i (deferred_wake (cls s core)) ++ [x]) as Et by (by apply take_S_r).
    apply IH; [done..|lia| |]; rewrite Et, elem_of_app, list_elem_of_singleton; intros [?|?]; try done; lia.
Qed.

Lemma deferred_accounted w s r s' :
  length (deferred_wake (cls s core)) = SCHEDULER_MAX_DEFERED_WAKE → w ≠ 0 →
  accounted (cls s core) → deferred w s r s' → accounted (cls s' core).
Proof.
  intros Hl Hw (Hg & Ht & Ha) [i _ Hi _ Hs Hgiven Htaken _|_ _ ->|_ _ _ ->]; [|done..].
  set (c := cls s core) in *. set (c' := cls s' core) in *.
  assert (i < length (deferred_wake c))%nat as Hlt by (by eapply lookup_lt_Some).
  assert (deferred_wake c' !! i = Some w) as Hi' by (rewrite Hs; by apply list_lookup_insert_eq).
  assert (deferred_wake (clear_slot i c') = deferred_wake c) as Hc.
  { unfold clear_slot. rsimp. rewrite Hs, list_insert_insert_eq. by apply list_insert_id. }
  pose proof (pending_slot _ _ _ Hi') as Hp. rewrite decide_False in Hp by done.
  unfold pending_wakes in Hp at 2. rewrite Hc in Hp. fold (pending_wakes c) in Hp.
  assert (length (pending_wakes c) <= length (deferred_wake c))%nat as Hle by apply length_filter.
  assert (length (pending_wakes c') <= length (deferred_wake c'))%nat as Hle' by apply length_filter.
  rewrite Hs, length_insert in Hle'. rewrite Hl in Hle, Hle'. unfold SCHEDULER_MAX_DEFERED_WAKE in *.
  split; [rewrite Hgiven; apply u32_range|split; [by rewrite Htaken|]].
  rewrite Hgiven, Htaken, Hp, Nat2Z.inj_add, <-Ha.
  replace (u32 (given_wake_counter c + 1) - taken_wake_counter c) with (u32 (given_wake_counter c + 1) + - taken_wake_counter c) by lia.
  rewrite u32_add_idemp. replace (given_wake_counter c + 1 + - taken_wake_counter c) with (given_wake_counter c - taken_wake_counter c + 1) by lia.
  rewrite <-u32_add_idemp. apply u32_small. unfold is_u32, word. lia.
Qed.
End defer.

(** A futex address has its low bit free for the [all] flag of a slot. *)
Lemma slot_futex f (all : bool) :
  is_u32 f → Z.land f 1 = 0 → f ≠ 0 →
  Z.land (Z.lor f (Z.b2z all)) (not32 1) = f ∧ Z.lor f (Z.b2z all) ≠ 0.
Proof.
  intros Hr He Hf. assert (Z.lor f (Z.b2z all) ≠ 0) as Hn by (by intros [? _]%Z.lor_eq_0_iff).
  split; [|done]. rewrite Z.land_lor_distr_l. replace (Z.land (Z.b2z all) (not32 1)) with 0 by (by destruct all).
  rewrite Z.lor_0_r. assert (Z.land f UINT32_MAX = f) as E.
  { change UINT32_MAX with (Z.ones 32). rewrite Z.land_ones by done. by apply Z.mod_small. }
  transitivity (Z.lor (Z.land f (not32 1)) (Z.land f 1)); [by rewrite He, Z.lor_0_r|].
  rewrite <-Z.land_lor_distr_r. exact E.
Qed.

(** ** The calling contract *)
Section system.
Context `{Environment} `{Trap}.

Definition run_service (svc : service) (core frame : Z) : SM unit :=
  match svc with
  | SvcCreate => scheduler_create_svc core frame
  | SvcYield => scheduler_yield_svc core frame
  | SvcSuspend => scheduler_suspend_svc core frame
  | SvcResume => scheduler_resume_svc core frame
  | SvcWait => scheduler_wait_svc core frame
  | SvcWake => scheduler_wake_svc core frame
  | SvcTerminate => scheduler_terminate_svc core frame
  | SvcPriority => scheduler_priority_svc core frame
  end.

Definition run_event (e : event) : SM unit :=
  match e with
  | ServiceCall core frame svc => run_service svc core frame
  | PendSV core frame fuel => _a <- scheduler_switch core fuel frame ;; ret tt
  | SysTick core => scheduler_tick core
  | DeferWake core f all => _r <- scheduler_futex_wake core f all ;; ret tt
  | StackFrame a fr => upd (λ s, s <| frame_at ::= <[a := fr]> |>)
  | Store a v => set_word a v
  | InitFutex f value flags => scheduler_futex_init f value flags
  | Lock => _old <- scheduler_lock ;; ret tt
  | Unlock => _old <- scheduler_unlock ;; ret tt
  end.

(** What each service asks of the arguments in its frame. *)
Definition service_args (svc : service) (core : Z) (fr : Scheduler.frame) (s : sched) : Prop :=
  match svc with
  | SvcCreate => r0 fr ≠ 0 ∧ (∃ tk, fresh_task s (r0 fr) tk) ∧ (scheduler_is_running s = true → current s core ≠ 0)
  | SvcYield | SvcResume | SvcPriority => True
  | SvcSuspend => current s core ≠ 0 ∧
      (r0 fr ∈ s_tasks s → r0 fr = current s core ∨ ∀ c, current s c ≠ r0 fr)
  | SvcWait => current s core ≠ 0 ∧ ∃ fx w, wait_args fr s fx ∧ word_at s !! f_value fx = Some w
  | SvcWake => ∃ fx v, wake_args fr s fx v
  | SvcTerminate => ∀ c, current s c = r0 fr → c = core
  end.

(** The wake of an interrupt handler: the futex is one the call accepts there. *)
Record isr_wake (core f : Z) (s : sched) (fx : futex) : Prop := {
  iw_futex : futex_at s !! f = Some fx;
  iw_marker : f_marker fx = SCHEDULER_FUTEX_MARKER;
  iw_address : is_u32 f ∧ Z.land f 1 = 0 ∧ f ≠ 0;
  iw_irq : ipsr (cls s core) ≠ 0;
  iw_core : core ≠ UINT32_MAX
}.

(** Memory a futex may be initialised in: no futex there, or one nobody waits on. *)
Definition futex_memory (f value flags : Z) (s : sched) : Prop :=
  f ≠ 0 ∧ is_Some (word_at s !! value) ∧
  (∀ fx, futex_at s !! f = Some fx → f_waiters fx = [] ∧ f_flags fx = flags) ∧
  (has flags SCHEDULER_FUTEX_PI = true → has flags SCHEDULER_FUTEX_OWNER_TRACKING = true).

Definition admissible (s : sched) (e : event) : Prop :=
  match e with
  | ServiceCall core frame svc => ∃ fr, frame_at s !! frame = Some fr ∧ service_args svc core fr s
  | PendSV core frame _ => core ≠ UINT32_MAX ∧ is_Some (frame_at s !! frame)
  | SysTick core => core ≠ UINT32_MAX
  | DeferWake core f _ => ∃ fx, isr_wake core f s fx
  | StackFrame _ _ => True
  | Store a _ => is_Some (word_at s !! a)
  | InitFutex f value flags => futex_memory f value flags s
  | Lock | Unlock => scheduler_is_running s = true
  end.

(** ** The wake of an interrupt handler *)
Lemma isr_wake_ok core f all s fx :
  quiescent s → isr_wake core f s fx →
  wp (scheduler_futex_wake core f all) (λ r s', quiescent s' ∧
    if has (f_flags fx) PI_AND_OWNER then r = - EINVAL ∧ s' = s <| s_errno := EINVAL |>
    else deferred core (Z.lor f (Z.b2z all)) s r s') s.
Proof.
  intros Hq [Hfx Hm (Hr & He & Hz) Hirq Hcore]. unfold scheduler_futex_wake, marked_futex.
  do 2 wp_step. unfold get_futex. wp_step; [exact Hfx|]. wp_step. wp_step; [lia|]. do 3 wp_step.
  replace (ipsr (cls s core) =? 0) with false by lia. cbn [negb].
  destruct (has (f_flags fx) PI_AND_OWNER) eqn:Hfl.
  { unfold set_errno. do 3 wp_step. split; [by apply quiescent_errno|done]. }
  destruct (slot_futex f all Hr He Hz) as [Hsl Hn]. apply defer_wake_loop; [done..| |done|set_solver|set_solver].
  intros _. rewrite Hsl. exists fx. split; [done|]. unfold has in Hfl. lia.
Qed.

(** ** Stores of the application *)
Lemma quiescent_frames s a fr : quiescent s → quiescent (s <| frame_at ::= <[a := fr]> |>).
Proof.
  intros (Hi & Hs & Hp). split; [|done]. apply (inv_frames _ _ (<[a := fr]> (frame_at s))); [done|].
  intros b. apply frames_insert.
Qed.

Lemma struct_words s m :
  struct_inv s → (∀ a, is_Some (word_at s !! a) → is_Some (m !! a)) → struct_inv (s <| word_at := m |>).
Proof. intros [? ? ? ? ? ? ? ? ? Hw] Hm. split; try done. intros f fx Hf. by apply Hm, (Hw f fx). Qed.

Lemma quiescent_words s m :
  quiescent s → (∀ a, is_Some (word_at s !! a) → is_Some (m !! a)) → quiescent (s <| word_at := m |>).
Proof.
  intros (Hi & Hs & Hp) Hm. split; [|done]. split; try apply Hi; [by apply struct_words; [apply Hi|]|].
  intros t tk Ht Htk Hc. destruct (ix_guard _ _ Hi t tk Ht Htk Hc). split; by apply Hm.
Qed.

Lemma quiescent_locked s n : quiescent s → quiescent (s <| s_locked := n |>).
Proof. intros [[[] ] ?]. by split; [split; [split|..]|]. Qed.

(** Initialising a futex leaves every ring as it was. *)
Section init_futex.
Context (s : sched) (f value flags : Z).
Hypothesis (Hq : quiescent s) (Hm : futex_memory f value flags s).
Definition with_futex : sched :=
  s <| futex_at ::= <[f := Futex value [] flags SCHEDULER_FUTEX_MARKER]> |>.

Lemma with_futex_queue q l :
  queue with_futex q = Some l → queue s q = Some l ∨ (q = waiters f ∧ l = []).
Proof.
  unfold with_futex. destruct q as [|g]; cbn [queue]; rsimp; [by left|].
  rewrite lookup_insert. case_decide; [subst; intros [= <-]; by right|by left].
Qed.

Lemma queue_with_futex q l t : queue s q = Some l → t ∈ l → queue with_futex q = Some l.
Proof.
  unfold with_futex. destruct q as [|g]; cbn [queue]; rsimp; [done|].
  rewrite lookup_insert. case_decide; [subst|done].
  destruct (futex_at s !! g) as [fx|] eqn:E; [|done]. intros [= <-] Hin.
  destruct (proj1 (proj2 (proj2 Hm)) _ E) as [E' _]. rewrite E' in Hin. set_solver.
Qed.

Lemma with_futex_struct : struct_inv with_futex.
Proof.
  pose proof (ix_struct _ _ (proj1 Hq)) as Hs. pose proof Hs as []. split; try done.
  - intros q l [Hl|[-> ->]]%with_futex_queue; [by apply (si_queue q)|]. split; constructor.
  - intros q l t [Hl|[-> ->]]%with_futex_queue Ht; [by apply (si_member q l)|set_solver].
  - intros t tk q Ht E. destruct (si_queued t tk q Ht E) as (l & Hl & Hin). exists l.
    split; [by eapply queue_with_futex|done].
  - intros t tk g Ht Hg. unfold with_futex. rsimp. rewrite lookup_insert. case_decide; [done|]. by eapply si_owned.
  - intros g fx. unfold with_futex. rsimp. rewrite lookup_insert. case_decide; [|by apply si_words].
    intros [= <-]. apply Hm.
Qed.

Lemma init_futex_quiescent : quiescent with_futex.
Proof.
  pose proof (proj1 Hq) as Hi. split; [|exact (proj2 Hq)]. pose proof Hi as []. split; try done; [apply with_futex_struct|..].
  - intros g fx. unfold with_futex. rsimp. rewrite lookup_insert. case_decide; [|by apply ix_futex].
    intros [= <-]. unfold futex_wf. cbn. apply Hm.
  - intros c w Hw Hz. destruct (ix_deferred c w Hw Hz) as (fx & Hf & Hfl). unfold with_futex. rsimp.
    rewrite lookup_insert. case_decide as Hcase; [|by exists fx]. eexists. split; [done|]. cbn. rewrite <-Hcase in Hf.
    by destruct (proj1 (proj2 (proj2 Hm)) _ Hf) as [_ <-].
Qed.
End init_futex.

Lemma wp_get_locked (Q : Z → sched → Prop) g s :
  scheduler_is_running s = true → Q (s_locked s) (s <| s_locked := g (s_locked s) |>) →
  wp (asserted_running ;;; old <- gets s_locked ;; upd (λ s, s <| s_locked := g old |>) ;;; ret old) Q s.
Proof.
  intros Hr HQ. wp_step. unfold asserted_running. do 2 wp_step. wp_step; [done|]. by do 5 wp_step.
Qed.

(** ** Every admissible event keeps the invariant *)
Context `{!EnvironmentLaws}.

Lemma service_safe svc core frame fr s :
  quiescent s → frame_at s !! frame = Some fr → service_args svc core fr s →
  wp (run_service svc core frame) (λ _ s', quiescent s') s.
Proof.
  intros Hq Hfr Ha. pose proof (refused_quiescent frame fr s Hq) as Hrq.
  destruct svc; cbn [run_service service_args] in *.
  - destruct Ha as (Hz & [tk Hft] & Hcur). eapply wp_mono; [by eapply create_svc_ok|]. by intros ? s' [? _].
  - eapply wp_mono; [by eapply yield_svc_ok|]. by intros ? s' [? _].
  - destruct Ha as [Hcur Hal]. destruct (decide (r0 fr ∈ s_tasks s)) as [Hin|Hn].
    + destruct (Hal Hin); (eapply wp_mono; [by (eapply suspend_svc_self + eapply suspend_svc_other)|]); by intros ? s' [? _].
    + eapply wp_mono; [by eapply suspend_svc_dead|]. by intros ? s' ->.
  - destruct (decide (r0 fr ∈ s_tasks s)) as [Hin|Hn].
    + destruct (si_alive _ (ix_struct _ _ (proj1 Hq)) _ Hin) as (tk & Htk & _).
      destruct (decide (t_state tk = TASK_BLOCKED ∨ t_state tk = TASK_SUSPENDED));
        (eapply wp_mono; [by (eapply resume_svc_wakes + eapply resume_svc_ready)|]); by intros ? s' [? _].
    + eapply wp_mono; [by eapply resume_svc_dead|]. by intros ? s' ->.
  - destruct Ha as (Hcur & fx & w & Hwa & Hw). eapply wp_mono; [by eapply wait_svc_ok|]. by intros ? s' [? _].
  - destruct Ha as (fx & v & Hk). eapply wp_mono; [by eapply wake_svc_ok|]. by intros ? s' [? _].
  - destruct (decide (r0 fr ∈ s_tasks s)) as [Hin|Hn].
    + eapply wp_mono; [by eapply terminate_svc_ends|]. by intros ? s' [? _].
    + eapply wp_mono; [by eapply terminate_svc_dead|]. by intros ? s' ->.
  - destruct (decide (r0 fr ∈ s_tasks s)) as [Hin|Hn].
    + destruct (si_alive _ (ix_struct _ _ (proj1 Hq)) _ Hin) as (tk & Htk & _).
      eapply wp_mono; [by eapply priority_svc_sets|]. by intros ? s' [? _].
    + eapply wp_mono; [by eapply priority_svc_dead|]. by intros ? s' ->.
Qed.

Lemma switched_quiescent core frame s a s' : switched core frame s a s' → quiescent s'.
Proof. intros [? ? ? ? ? ?|t s1 s2 s3 _ _ _ _ [] _|s1 s2 _ _ _ (? & _ & ? & ? & _ & _ & _ & _ & _ & _ & ? & _)]; done. Qed.

(** An event that is not a context switch returns; a context switch may go on idling. *)
Lemma event_safe e s :
  quiescent s → admissible s e →
  if is_switch e then wlp (run_event e) (λ _ s', quiescent s') s
  else wp (run_event e) (λ _ s', quiescent s') s.
Proof.
  intros Hq Ha. destruct e as [core frame svc|core frame fuel|core|core f all|a fr|a v|f value flags| |]; cbn [run_event admissible is_switch] in *.
  - destruct Ha as (fr & Hfr & Ha). by eapply service_safe.
  - destruct Ha as [Hc Hfr]. apply wlp_bind. eapply wlp_mono; [by apply scheduler_switch_ok|].
    intros a s' Hs. by eapply switched_quiescent.
  - eapply wp_mono; [by apply scheduler_tick_ok|]. by intros ? s' [? _].
  - destruct Ha as [fx Hw]. wp_step. eapply wp_mono; [by eapply isr_wake_ok|]. by intros ? s' [? _].
  - wp_step. by apply quiescent_frames.
  - destruct Ha as [w Hw]. unfold set_word. wp_step. unfold get_word. wp_step; [done|]. wp_step.
    apply (quiescent_words s (<[a := v]> (word_at s))); [done|]. intros b. rewrite lookup_insert. by case_decide.
  - unfold scheduler_futex_init. wp_step. wp_step; [destruct Ha; lia|]. wp_step. by apply (init_futex_quiescent s f value flags).
  - wp_step. unfold scheduler_lock. apply (wp_get_locked _ (λ n, s32 (n - 1))); [done|]. by apply quiescent_locked.
  - wp_step. unfold scheduler_unlock. apply (wp_get_locked _ (λ n, s32 (n + 1))); [done|]. by apply quiescent_locked.
Qed.

(** ** Reachability *)
Inductive system_step : sched → sched → Prop :=
  | system_event e s s' : admissible s e → run_event e s = Done tt s' → system_step s s'.

Inductive reachable (s0 : sched) : sched → Prop :=
  | reachable_start : reachable s0 s0
  | reachable_step s s' : reachable s0 s → system_step s s' → reachable s0 s'.

Lemma event_kept e s s' : quiescent s → admissible s e → run_event e s = Done tt s' → quiescent s'.
Proof.
  intros Hq Ha Hr. pose proof (event_safe e s Hq Ha) as Hs. destruct (is_switch e).
  - unfold wlp in Hs. by rewrite Hr in Hs.
  - apply wp_inv in Hs as ([] & s1 & E & ?). congruence.
Qed.

Lemma reachable_quiescent_aux s0 s : quiescent s0 → reachable s0 s → quiescent s.
Proof.
  intros Hq. induction 1 as [|s s' _ IH Hst]; [done|].
  destruct Hst as [e s1 s2 Ha Hr]. exact (event_kept e _ _ IH Ha Hr).
Qed.
End system.
