(* ===== verification/SchedulerCalls.v ===== *)
(** * The scheduler: what the application calls promise

    Initialisation establishes the invariant, critical sections nest and exclude
    the other cores, the calls that trap keep the invariant, and the argument
    checks answer with the documented error. *)
From S2P Require Import Prelude Scheduler SchedulerSvc SchedulerApi SchedulerInv SchedulerSafe SchedulerHandlers SchedulerSwitch SchedulerSystem.

(** ** Initialisation *)
Section init.
Context `{Environment}.

(** Memory no scheduler runs in yet: no task is queued, nobody waits on a
    futex, and the only core-local sections are those of the cores. *)
Record idle_memory (s : sched) : Prop := {
  im_null : task_at s !! 0 = None;
  im_queued t tk : task_at s !! t = Some tk → t_current_queue tk = None;
  im_owned t tk f : task_at s !! t = Some tk → f ∈ t_owned_futexes tk → is_Some (futex_at s !! f);
  im_futex f fx : futex_at s !! f = Some fx →
    f_waiters fx = [] ∧ futex_wf fx ∧ is_Some (word_at s !! f_value fx);
  im_cores c x : cpu_at s !! c = Some x → 0 <= c < num_cores;
  im_spin : s_spin s = false
}.

Definition reset_core (x : cpu) : cpu :=
  x <| scheduler_initial_frame := 0 |> <| current_task := 0 |> <| slice_expires := INT32_MAX |>
    <| ticks := 0 |> <| deferred_wake := replicate SCHEDULER_MAX_DEFERED_WAKE 0 |>.

Lemma reset_lookup l (m : gmap Z cpu) c :
  default cpu_reset (foldr (λ c m, <[c := reset_core (default cpu_reset (m !! c))]> m) m l !! c) =
  if decide (c ∈ l) then reset_core (default cpu_reset (m !! c)) else default cpu_reset (m !! c).
Proof.
  induction l as [|d l IH]; cbn [foldr]; [by rewrite decide_False by set_solver|].
  destruct (decide (d = c)) as [->|Hd].
  - rewrite lookup_insert_eq. cbn. rewrite IH, (decide_True (P := c ∈ c :: l)) by set_solver. by destruct (decide (c ∈ l)).
  - rewrite lookup_insert_ne, IH by done. destruct (decide (c ∈ l)), (decide (c ∈ d :: l)); set_solver.
Qed.

(** The state [scheduler_init] leaves. *)
Record initialised (tls : Z) (s' : sched) : Prop := {
  in_quiescent : quiescent s';
  in_tasks : s_tasks s' = [] ∧ s_timers s' = [] ∧ s_ready s' = [];
  in_stopped : scheduler_is_running s' = false;
  in_locked : s_locked s' = 0;
  in_critical : s_critical s' = UINT32_MAX ∧ s_critical_counter s' = 0;
  in_tls : s_tls_size s' = tls;
  in_cores c : 0 <= c < num_cores → current s' c = 0 ∧ ticks (cls s' c) = 0 ∧
    slice_expires (cls s' c) = INT32_MAX ∧ pending_wakes (cls s' c) = []
}.

Lemma scheduler_init_ok a tls s :
  idle_memory s → a ≠ 0 → wp (scheduler_init a tls) (λ r s', r = 0 ∧ initialised tls s') s.
Proof.
  intros [Hn Hq Ho Hf Hc Hsp] Ha. unfold scheduler_init. rewrite (proj2 (Z.eqb_neq _ _) Ha).
  do 6 wp_step. wp_step. split; [done|].
  set (s' := over s_present _ _).
  assert (∀ c, cls s' c = reset_core (cls s c) ∨ cls s' c = cpu_reset) as Hcls.
  { intros c. unfold cls.
    change (cpu_at s') with (foldr (λ c m, <[c := reset_core (default cpu_reset (m !! c))]> m) (cpu_at s) all_cores). rewrite (reset_lookup all_cores (cpu_at s) c).
    case_decide as Hin; [by left|right]. destruct (cpu_at s !! c) eqn:E; [|done].
    destruct Hin. apply elem_of_all_cores. by eapply Hc. }
  assert (∀ c, current s' c = 0 ∧ deferred_wake (cls s' c) = replicate SCHEDULER_MAX_DEFERED_WAKE 0 ∧
    scheduler_initial_frame (cls s' c) = 0 ∧ ticks (cls s' c) = 0 ∧ slice_expires (cls s' c) = INT32_MAX) as Hcore.
  { intros c. unfold current. by destruct (Hcls c) as [-> | ->]. }
  assert (∀ q l, queue s' q = Some l → l = []) as Hqs.
  { intros [|f] l; cbn [queue]; [by intros [= <-]|]. change (futex_at s') with (futex_at s).
    destruct (futex_at s !! f) as [fx|] eqn:E; [|done]. intros [= <-]. by apply (Hf f). }
  assert (struct_inv s') as Hs.
  { split; try done.
    - constructor.
    - intros t Hin. by destruct (not_elem_of_nil t).
    - intros q l ->%Hqs. split; constructor.
    - intros q l t ->%Hqs Hin. by destruct (not_elem_of_nil t).
    - intros t tk q Ht E. pose proof (Hq _ _ Ht). congruence.
    - split; [constructor|split; [constructor|done]].
    - intros f fx E. by apply (Hf f). }
  split; try done.
  - split; [|by split]. split; try done.
    + intros t Hin. by destruct (not_elem_of_nil t).
    + intros c. by rewrite (proj1 (Hcore c)).
    + intros f fx E. by apply (Hf f).
    + intros c w. rewrite (proj1 (proj2 (Hcore c))). intros [E _]%elem_of_replicate Hw. by rewrite E in Hw.
    + intros c. by rewrite (proj1 (proj2 (Hcore c))).
    + intros c. by rewrite (proj1 (proj2 (proj2 (Hcore c)))).
    + intros t tk Hin. by destruct (not_elem_of_nil t).
  - intros c _. destruct (Hcore c) as (? & E & ? & ? & ?). split_and!; [done..|].
    unfold pending_wakes. by rewrite E.
Qed.
End init.

(** ** Critical sections *)
Section critical.
Context (core : Z).

(** Enter [n] times, keeping what each call answers, the last first. *)
Fixpoint enter_times (fuel n : nat) : SM (list Z) :=
  match n with
  | O => ret []
  | S n' => states <- enter_times fuel n' ;; state <- scheduler_enter_critical core fuel ;; ret (state :: states)
  end.
(** Leave once for each state. *)
Fixpoint leave_with (states : list Z) : SM unit :=
  match states with
  | [] => ret tt
  | state :: states => scheduler_exit_critical core state ;;; leave_with states
  end.

Definition no_critical (s : sched) : Prop :=
  scheduler_is_running s = true ∧ s_critical s = UINT32_MAX ∧ s_critical_counter s = 0 ∧ s_spin s = false.

(** The state inside a critical section entered [n] times, the interrupts masked. *)
Definition mask (p : Z) (s : sched) : sched := on_core core (λ c, c <| cpu_primask := p |>) s.
Definition inside (n : Z) (s : sched) : sched :=
  (mask 1 s) <| s_spin := true |> <| s_critical := core |> <| s_critical_counter := n |>.

(** What [n] entries answer, the last first: that interrupts are masked, and at
    first how they were. *)
Definition answers (n : nat) (s : sched) : list Z :=
  match n with O => [] | S n' => replicate n' 1 ++ [cpu_primask (cls s core)] end.

(** The state as it was, read core by core. *)
Definition as_before (s s' : sched) : Prop := s' = s <| cpu_at := cpu_at s' |> ∧ ∀ c, cls s' c = cls s c.

Hypothesis Hcore : core ≠ UINT32_MAX.

Lemma mask_mask p q s : mask q (mask p s) = mask q s.
Proof.
  unfold mask, on_core. rewrite cls_upd, decide_True by done. unfold over. cbn. by rewrite insert_insert_eq.
Qed.

Lemma inside_mask n s : mask 1 (inside n s) = inside n s.
Proof.
  transitivity ((mask 1 (mask 1 s)) <| s_spin := true |> <| s_critical := core |> <| s_critical_counter := n |>); [done|].
  unfold inside. by rewrite mask_mask.
Qed.

Lemma inside_primask n s : cpu_primask (cls (inside n s) core) = 1.
Proof. change (cpu_primask (cls (mask 1 s) core) = 1). unfold mask. by rewrite cls_on_core, decide_True. Qed.

Lemma wp_disable (Q : Z → sched → Prop) s : Q (cpu_primask (cls s core)) (mask 1 s) → wp (disable_interrupts core) Q s.
Proof. intros HQ. unfold disable_interrupts. do 2 wp_step. wp_step. unfold upd_cls. apply wp_upd. by wp_step. Qed.

Lemma enter_critical_first fuel s : no_critical s → (0 < fuel)%nat →
  wp (scheduler_enter_critical core fuel) (λ r s', r = cpu_primask (cls s core) ∧ s' = inside 1 s) s.
Proof.
  intros (Hr & Hc & Hk & Hs) Hf. unfold scheduler_enter_critical. do 2 wp_step. wp_step. wp_step; [done|].
  wp_step. apply wp_disable. do 2 wp_step. change (s_critical (mask 1 s)) with (s_critical s). rewrite Hc.
  replace (UINT32_MAX =? core) with false by lia. destruct fuel as [|fuel]; [lia|]. cbn [grab_critical].
  do 2 wp_step. apply wp_spin_lock; [done|]. do 2 wp_step. rsimp. change (s_critical (mask 1 s)) with (s_critical s). rewrite Hc.
  rewrite Z.eqb_refl. cbn [orb]. do 2 wp_step. split; [done|]. unfold inside, mask, on_core, over. cbn. by rewrite Hk.
Qed.

Lemma enter_critical_again fuel n s : no_critical s → 0 < n < INT32_MAX →
  wp (scheduler_enter_critical core fuel) (λ r s', r = 1 ∧ s' = inside (n + 1) s) (inside n s).
Proof.
  intros (Hr & _) Hn. unfold scheduler_enter_critical. do 2 wp_step. wp_step. wp_step; [done|].
  wp_step. apply wp_disable. rewrite inside_mask, inside_primask. do 2 wp_step.
  change (s_critical (inside n s)) with core. rewrite Z.eqb_refl. do 3 wp_step. split; [done|].
  unfold inside, over. cbn. by rewrite s32_small by (unfold INT32_MAX in *; lia).
Qed.

Lemma enter_times_ok fuel n s : no_critical s → Z.of_nat n <= INT32_MAX → (0 < fuel)%nat →
  wp (enter_times fuel n) (λ states s', states = answers n s ∧ s' = if n =? 0 then s else inside (Z.of_nat n) s)%nat s.
Proof.
  intros Hs Hn Hf. induction n as [|n IH]; cbn [enter_times]; [by wp_step|].
  wp_step. eapply wp_mono; [apply IH; lia|]. intros states s1 [-> ->]. wp_step. destruct n as [|n].
  - eapply wp_mono; [by apply enter_critical_first|]. intros r s2 [-> ->]. by wp_step.
  - eapply wp_mono; [apply (enter_critical_again fuel (Z.of_nat (S n))); [done|lia]|]. intros r s2 [-> ->]. wp_step.
    split; [done|]. cbn [Nat.eqb]. f_equal. lia.
Qed.

Lemma exit_critical_inner state n s : no_critical s → 1 < n <= INT32_MAX →
  wp (scheduler_exit_critical core state) (λ _ s', s' = inside (n - 1) s) (inside n s).
Proof.
  intros (Hr & _) Hn. unfold scheduler_exit_critical. do 4 wp_step. wp_step.
  wp_step; [change (scheduler_is_running (inside n s)) with (scheduler_is_running s); rewrite Hr; by rewrite Z.eqb_refl|].
  do 4 wp_step. change (s_critical_counter (over s_critical_counter _ (inside n s))) with (s32 (n - 1)).
  rewrite s32_small by (unfold INT32_MAX in *; lia). rewrite (proj2 (Z.leb_le 1 (n - 1))) by lia. wp_step.
  unfold inside, over. cbn. by rewrite s32_small by (unfold INT32_MAX in *; lia).
Qed.

Lemma exit_critical_last s : no_critical s →
  wp (scheduler_exit_critical core (cpu_primask (cls s core))) (λ _ s', as_before s s') (inside 1 s).
Proof.
  intros (Hr & Hc & Hk & Hs). unfold scheduler_exit_critical. do 4 wp_step. wp_step.
  wp_step; [change (scheduler_is_running (inside 1 s)) with (scheduler_is_running s); rewrite Hr; by rewrite Z.eqb_refl|].
  do 4 wp_step. change (1 <=? s_critical_counter (over s_critical_counter _ (inside 1 s))) with false. cbn match.
  unfold scheduler_spin_unlock, enable_interrupts. do 4 wp_step. unfold upd_cls. wp_step. split.
  - unfold over, inside, mask, on_core. cbn. destruct s. cbn in *. by subst.
  - intros c. rewrite cls_upd. set (s1 := over s_spin _ _).
    assert (∀ d, cls s1 d = cls (mask 1 s) d) as E by done. rewrite !E. unfold mask. rewrite !cls_on_core.
    case_decide; [subst c; rewrite decide_True by done; by destruct (cls s core)|done].
Qed.

(** Leaving in the reverse order: the section is held, masked, until the last
    exit, which brings everything back. *)
Lemma leave_times_ok n k s : no_critical s → Z.of_nat n <= INT32_MAX → (k <= n)%nat → (0 < n)%nat →
  wp (leave_with (take k (answers n s))) (λ _ s',
    if decide (k = n) then as_before s s' else s' = inside (Z.of_nat (n - k)) s) (inside (Z.of_nat n) s).
Proof.
  intros Hs. revert k. induction n as [|n IH]; intros [|k] Hn Hk Hpos; try lia.
  { destruct (decide (0%nat = S n)); [lia|]. rewrite firstn_O. cbn [leave_with]. by wp_step. }
  destruct n as [|n].
  - replace k with 0%nat by lia. destruct (decide (1%nat = 1%nat)); [|lia]. change (take 1 (answers 1 s)) with [cpu_primask (cls s core)]. cbn [leave_with]. wp_step. eapply wp_mono; [by apply exit_critical_last|]. intros [] s' Hb. by wp_step.
  - change (take (S k) (answers (S (S n)) s)) with (1 :: take k (answers (S n) s)). cbn [leave_with]. wp_step.
    eapply wp_mono; [apply (exit_critical_inner 1 (Z.of_nat (S (S n)))); [done|lia]|]. intros [] s1 ->.
    replace (Z.of_nat (S (S n)) - 1) with (Z.of_nat (S n)) by lia.
    eapply wp_mono; [apply IH; lia|]. intros [] s2 H2.
    destruct (decide (k = S n)) as [->|]; [by rewrite decide_True|by rewrite decide_False by lia].
Qed.

(** Another core that wants in spins for as long as it is watched. *)
Lemma critical_excluded other fuel n s :
  no_critical s → other ≠ core →
  scheduler_enter_critical other fuel (inside n s) = Fault OutOfFuel.
Proof.
  intros (Hr & _) Ho. unfold scheduler_enter_critical, disable_interrupts, upd_cls, bind, gets, upd.
  change (scheduler_is_running (inside n s)) with (scheduler_is_running s). rewrite Hr. cbn [assert ret].
  rsimp. change (s_critical (inside n s)) with core. replace (core =? other) with false by lia. by destruct fuel.
Qed.
End critical.

(** ** Calls that trap

    Between the end of a handler and the return to its caller the pending
    switch is taken and the other tasks run: they keep the invariant and the
    caller's frame, and only a task that waits is answered in its frame. *)
Definition frame_settled (a : Z) (s : sched) : Prop := ∀ t tk,
  t ∈ s_tasks s → task_at s !! t = Some tk → t_psp tk = a →
  t_state tk ≠ TASK_BLOCKED ∧ t_state tk ≠ TASK_SUSPENDED.

Class TrapLaws `{Trap} : Prop := {
  return_law core a fr s :
    quiescent s → frame_at s !! a = Some fr →
    wp (return_to_caller core a) (λ _ s', quiescent s' ∧
      ∃ fr', frame_at s' !! a = Some fr' ∧ (frame_settled a s → r0 fr' = r0 fr)) s;
  tls_init_law tls s :
    wp (scheduler_tls_init_hook tls) (λ _ s', ∃ m, s' = s <| word_at := m |> ∧
      (∀ a, is_Some (word_at s !! a) → is_Some (m !! a)) ∧
      (∀ a, tls + s_tls_size s <= a → m !! a = word_at s !! a)) s
}.

Section trapped.
Context `{Environment} `{TrapLaws} (core : Z).

Definition trapped (a b c : Z) (s : sched) : sched :=
  s <| frame_at ::= <[trap_frame core s := Frame a b c 0 0 0 0 0]> |>.

Lemma svc_call_ok (handler : Z → SM unit) a b c (Q : Z → sched → Prop) s :
  wp (handler (trap_frame core s)) (λ _ s1, quiescent s1 ∧
    ∃ fr, frame_at s1 !! trap_frame core s = Some fr ∧
    ∀ s2 v, quiescent s2 → (frame_settled (trap_frame core s) s1 → v = r0 fr) → Q (s32 v) s2) (trapped a b c s) →
  wp (svc_call core handler a b c) Q s.
Proof.
  intros Hh. unfold svc_call. do 3 wp_step. wp_step. wp_step. eapply wp_mono; [exact Hh|].
  intros [] s1 (Hq & fr & Hfr & HQ). wp_step. eapply wp_mono; [by eapply return_law|].
  intros [] s2 (Hq2 & fr2 & Hfr2 & Hs). wp_step. apply (wp_get_frame _ fr2); [done|]. wp_step. by apply HQ.
Qed.

Lemma quiescent_trapped a b c s : quiescent s → quiescent (trapped a b c s).
Proof. apply quiescent_frames. Qed.

Lemma trapped_frame a b c s : frame_at (trapped a b c s) !! trap_frame core s = Some (Frame a b c 0 0 0 0 0).
Proof. unfold trapped. rsimp. apply lookup_insert_eq. Qed.
End trapped.

(** ** Creating a task *)

(** The entry of a task that is not listed may change at will. *)
Lemma quiescent_unlisted s t tk :
  quiescent s → t ≠ 0 → t ∉ s_tasks s → t_current_queue tk = None → t_owned_futexes tk = [] →
  quiescent (s <| task_at := <[t := tk]> (task_at s) |>).
Proof.
  intros (Hi & Hr) Hz Hn Hq Ho. split; [|exact Hr]. pose proof (ix_struct _ _ Hi) as Hs.
  assert (∀ u, u ∈ s_tasks s → <[t := tk]> (task_at s) !! u = task_at s !! u) as Hl.
  { intros u Hu. rewrite lookup_insert_ne; [done|]. by intros ->. }
  split; try apply Hi.
  - split; try apply Hs; rsimp.
    + rewrite lookup_insert_ne by done. apply Hs.
    + intros u Hu. rewrite Hl by done. by apply Hs.
    + intros q l E. change (queue s q = Some l) in E. destruct (si_queue _ Hs _ _ E) as [? Hsort]. split; [done|].
      eapply sorted_by_ext; [|exact Hsort]. intros u Hu. unfold priority_of. rsimp. rewrite Hl; [done|].
      by apply (si_member _ Hs q l).
    + intros q l u E Hu. change (queue s q = Some l) in E. destruct (si_member _ Hs _ _ _ E Hu) as (Hal & ?).
      split; [done|]. by rewrite Hl.
    + intros u tku q. rewrite lookup_insert. case_decide; [intros [= <-]; by rewrite Hq|]. apply (si_queued _ Hs).
    + destruct (si_timers _ Hs) as (? & Hsort & Hc).
      assert (∀ u, u ∈ s_timers s → expires_of (s <| task_at := <[t := tk]> (task_at s) |>) u = expires_of s u) as He.
      { intros u Hu. unfold expires_of. rsimp. rewrite Hl; [done|]. by apply (si_timer_alive _ Hs). }
      split; [done|split].
      * eapply sorted_by_ext; [|exact Hsort]. intros u Hu. by rewrite He.
      * rewrite Hc. unfold closest_expiry. rsimp. destruct (s_timers s) as [|u l]; [done|]. rewrite He; [done|set_solver].
    + intros u tku f. rewrite lookup_insert. case_decide; [intros [= <-]; by rewrite Ho; set_solver|]. apply (si_owned _ Hs).
  - intros u Hu _. destruct (ix_consistent _ _ Hi u Hu) as (tku & Htu & Ha); [set_solver|].
    exists tku. rsimp. rewrite Hl by done. by split.
  - intros u tku Hu. rsimp. rewrite Hl by done. by apply (ix_guard _ _ Hi).
Qed.

(** The words [fill_stack] writes. *)
Lemma fill_words stack l (m : gmap Z Z) a :
  (∃ i, i ∈ l ∧ a = stack + 4 * Z.of_nat i) ∨ m !! a = Some SCHEDULER_STACK_MARKER →
  foldr (λ i m, <[stack + 4 * Z.of_nat i := SCHEDULER_STACK_MARKER]> m) m l !! a = Some SCHEDULER_STACK_MARKER.
Proof.
  induction l as [|i l IH]; cbn [foldr]; intros Ha.
  - destruct Ha as [(j & Hj & _)|Ha]; [set_solver|done].
  - destruct (decide (stack + 4 * Z.of_nat i = a)) as [<-|Hne]; [apply lookup_insert_eq|].
    rewrite lookup_insert_ne by done. apply IH. destruct Ha as [(j & [->|Hj]%elem_of_cons & ->)|Ha]; [done| |by right].
    left. by exists j.
Qed.

Lemma fill_keeps stack size m a : is_Some (m !! a) → is_Some (fill_stack stack size m !! a).
Proof.
  unfold fill_stack. induction (seq 0 (Z.to_nat ((size + 3) / 4))) as [|i l IH]; cbn [foldr]; [done|].
  intros Ha. rewrite lookup_insert. case_decide; [by eexists|by apply IH].
Qed.

Lemma fill_stack_word stack size m k :
  0 <= k → 4 * k < size → fill_stack stack size m !! (stack + 4 * k) = Some SCHEDULER_STACK_MARKER.
Proof.
  intros Hk Hs. apply fill_words. left. exists (Z.to_nat k). rewrite Z2Nat.id by done. split; [|done].
  apply elem_of_seq. pose proof (Z.div_mod (size + 3) 4). pose proof (Z.mod_pos_bound (size + 3) 4). lia.
Qed.

Section create.
Context `{EnvironmentLaws} `{TrapLaws} (core : Z).

(** A stack a task may be made in: no node of it is linked, there is room for
    the task, its TLS block and two guard words, and the flags ask for the
    frame and the TLS block to be initialised. *)
Record create_args (stack size : Z) (d : task_descriptor) (s : sched) : Prop := {
  ca_stack : 0 < stack;
  ca_unlinked : linked_anywhere stack s = false;
  ca_nowhere c : current s c ≠ stack;
  ca_frame : has (flags d) SCHEDULER_NO_FRAME_INIT = false;
  ca_tls : has (flags d) SCHEDULER_NO_TLS_INIT = false;
  ca_application : has (flags d) SCHEDULER_PRIMORDIAL_TASK = false;
  ca_aligned : 0 <= s_tls_size s ∧ s_tls_size s mod 4 = 0;
  ca_room : SIZEOF_TASK + s_tls_size s + 8 <= size ∧ stack + size < word;
  ca_caller : scheduler_is_running s = true → current s core ≠ 0
}.

(** The entry under construction: unlisted, unqueued, owning nothing. *)
Record drafted (stack : Z) (d : task_descriptor) (s0 s : sched) (tk : task) : Prop := {
  df_quiescent : quiescent s;
  df_entry : task_at s !! stack = Some tk;
  df_tasks : s_tasks s = s_tasks s0;
  df_cpu : cpu_at s = cpu_at s0;
  df_running : scheduler_is_running s = scheduler_is_running s0;
  df_tls_size : s_tls_size s = s_tls_size s0;
  df_marker : t_marker tk = SCHEDULER_TASK_MARKER;
  df_queue : t_current_queue tk = None ∧ t_owned_futexes tk = [];
  df_flags : t_flags tk = flags d;
  df_priority : t_current_priority tk = priority d
}.

(** The assignments to the new task. *)
Definition drafting (g : task → task) : Prop := ∀ tk,
  t_marker (g tk) = t_marker tk ∧ t_current_queue (g tk) = t_current_queue tk ∧
  t_owned_futexes (g tk) = t_owned_futexes tk ∧ t_flags (g tk) = t_flags tk ∧
  t_current_priority (g tk) = t_current_priority tk.

Lemma drafted_set stack d s0 s tk tk' :
  drafted stack d s0 s tk → stack ∉ s_tasks s0 → stack ≠ 0 →
  t_marker tk' = t_marker tk → t_current_queue tk' = t_current_queue tk →
  t_owned_futexes tk' = t_owned_futexes tk → t_flags tk' = t_flags tk →
  t_current_priority tk' = t_current_priority tk →
  drafted stack d s0 (s <| task_at := <[stack := tk']> (task_at s) |>) tk'.
Proof.
  intros [Hq He Ht ? ? ? ? [Hcq Ho] ? ?] Hn Hz E1 E2 E3 E4 E5. split; try done; try congruence.
  - apply quiescent_unlisted; [done|done|by rewrite Ht|congruence|congruence].
  - rsimp. apply lookup_insert_eq.
  - split; congruence.
Qed.

Lemma wp_draft stack d s0 s tk g (Q : unit → sched → Prop) :
  drafted stack d s0 s tk → stack ∉ s_tasks s0 → stack ≠ 0 → drafting g →
  (∀ s', s' = s <| task_at := <[stack := g tk]> (task_at s) |> → drafted stack d s0 s' (g tk) → Q tt s') →
  wp (upd_task stack g) Q s.
Proof.
  intros Hd Hn Hz Hg HQ. unfold upd_task. wp_step. apply (wp_get_task _ tk); [apply Hd|]. wp_step.
  destruct (Hg tk) as (? & ? & ? & ? & ?). apply HQ; [done|]. by eapply drafted_set.
Qed.

Lemma drafted_frames stack d s0 s tk a fr :
  drafted stack d s0 s tk → drafted stack d s0 (s <| frame_at ::= <[a := fr]> |>) tk.
Proof. intros []. split; try done. by apply quiescent_frames. Qed.

Lemma drafted_words stack d s0 s tk m :
  drafted stack d s0 s tk → (∀ a, is_Some (word_at s !! a) → is_Some (m !! a)) →
  drafted stack d s0 (s <| word_at := m |>) tk.
Proof. intros [] Hm. split; try done. by apply quiescent_words. Qed.

Lemma linked_anywhere_tasks t s : linked_anywhere t s = false → t ∉ s_tasks s.
Proof. unfold linked_anywhere. rewrite !orb_false_iff, !bool_decide_eq_false. tauto. Qed.

(** The task as it is handed to the create service. *)
Record ready_made (stack size : Z) (d : task_descriptor) (s0 s : sched) : Prop := {
  rm_quiescent : quiescent s;
  rm_tasks : s_tasks s = s_tasks s0;
  rm_cpu : cpu_at s = cpu_at s0;
  rm_running : scheduler_is_running s = scheduler_is_running s0;
  rm_task : ∃ tk, fresh_task s stack tk ∧ t_flags tk = flags d ∧ t_current_priority tk = priority d ∧
    t_psp tk = frame_address stack size ∧ frame_at s !! t_psp tk = Some (new_frame d) ∧
    t_tls tk = u32 (stack + round8 SIZEOF_TASK)
}.

Lemma fresh_trapped stack size d s0 s a b c :
  ready_made stack size d s0 s → quiescent (trapped core a b c s) ∧
  ∃ tk, fresh_task (trapped core a b c s) stack tk.
Proof.
  intros [Hq _ _ _ (tk & [] & _)]. split; [by apply quiescent_trapped|]. exists tk. split; try done.
  unfold trapped. rsimp. by apply frames_insert.
Qed.

Lemma create_words stack size d s :
  create_args stack size d s → 0 <= s_tls_size s →
  let m := fill_stack stack size (word_at s) in
  let mark := u32 (u32 (stack + round8 SIZEOF_TASK) + s_tls_size s) in
  m !! mark = Some SCHEDULER_STACK_MARKER ∧ m !! (mark + 4) = Some SCHEDULER_STACK_MARKER ∧
  u32 (stack + round8 SIZEOF_TASK) + s_tls_size s <= mark.
Proof.
  intros [Hs _ _ _ _ _ [Htls Hal] [Hroom Hend] _] _. cbv zeta.
  change (round8 SIZEOF_TASK) with 88 in *. change SIZEOF_TASK with 88 in *.
  rewrite (u32_small (stack + 88)) by (unfold is_u32; lia). rewrite u32_small by (unfold is_u32; lia).
  pose proof (Z.div_mod (s_tls_size s) 4 ltac:(done)) as E.
  split_and!; [| |lia].
  - replace (stack + 88 + s_tls_size s) with (stack + 4 * (22 + s_tls_size s / 4)) by lia. apply fill_stack_word; lia.
  - replace (stack + 88 + s_tls_size s + 4) with (stack + 4 * (23 + s_tls_size s / 4)) by lia. apply fill_stack_word; lia.
Qed.

Lemma wp_init_frame stack size d s0 s tk (Q : unit → sched → Prop) :
  drafted stack d s0 s tk → stack ∉ s_tasks s0 → stack ≠ 0 →
  (∀ s', drafted stack d s0 s' (tk <| t_psp := frame_address stack size |>) →
     frame_at s' !! frame_address stack size = Some (new_frame d) → word_at s' = word_at s → Q tt s') →
  wp (upd (λ s, s <| frame_at ::= <[frame_address stack size := new_frame d]> |>) ;;;
      upd_task stack (λ tk, tk <| t_psp := frame_address stack size |>)) Q s.
Proof.
  intros Hd Hn Hz HQ. do 2 wp_step. eapply wp_draft; [by apply drafted_frames|done|done|by intros ?|].
  intros s' -> Hd'. apply HQ; [done| |done]. rsimp. apply lookup_insert_eq.
Qed.

(** The TLS initialiser writes in the TLS block only, so the guard words above
    it keep the markers the stack was filled with. *)
Lemma wp_init_tls stack d s0 s tk (Q : unit → sched → Prop) :
  let tls := u32 (stack + round8 SIZEOF_TASK) in
  drafted stack d s0 s tk → stack ∉ s_tasks s0 → stack ≠ 0 →
  (∀ s', drafted stack d s0 s' (tk <| t_tls := tls |> <| t_stack_marker := u32 (tls + s_tls_size s0) |>) →
     frame_at s' = frame_at s → (∀ a, tls + s_tls_size s0 <= a → word_at s' !! a = word_at s !! a) → Q tt s') →
  wp (upd_task stack (λ tk, tk <| t_tls := tls |>) ;;;
      scheduler_tls_init_hook tls ;;;
      size <- gets s_tls_size ;;
      upd_task stack (λ tk, tk <| t_stack_marker := u32 (tls + size) |>)) Q s.
Proof.
  intros tls Hd Hn Hz HQ. wp_step. eapply wp_draft; [done..|by intros ?|]. intros s1 E1 Hd1. wp_step.
  eapply wp_mono; [apply tls_init_law|]. intros [] s2 (m & -> & Hm & Hk). do 2 wp_step. rsimp.
  rewrite (df_tls_size _ _ _ _ _ Hd1) in *.
  eapply wp_draft; [by apply drafted_words|done|done|by intros ?|]. intros s3 -> Hd3.
  apply HQ; [exact Hd3|by rewrite E1|]. intros a Ha. rsimp. rewrite Hk by done. by rewrite E1.
Qed.

Lemma new_task_drafted stack d s m tk0 :
  quiescent s → stack ≠ 0 → stack ∉ s_tasks s →
  (∀ a, is_Some (word_at s !! a) → is_Some (m !! a)) →
  ∃ tk, drafted stack d s (s <| word_at := m |> <| task_at ::= <[stack := new_task d tk0]> |>) tk.
Proof.
  intros Hq Hz Hn Hm. eexists. split; try done.
  - by apply (quiescent_unlisted (s <| word_at := m |>) stack (new_task d tk0)); [apply quiescent_words|..].
  - rsimp. apply lookup_insert_eq.
  - done.
  - done.
  - done.
  - done.
Qed.

Lemma ready_made_service stack size d s0 s :
  ready_made stack size d s0 s → stack ≠ 0 → (scheduler_is_running s0 = true → current s0 core ≠ 0) →
  wp (svc_call core (scheduler_create_svc core) stack 0 0) (λ _ s', quiescent s') s.
Proof.
  intros Hrm Hz Hcur. destruct (fresh_trapped _ _ _ _ _ stack 0 0 Hrm) as [Hq [tk Hft]].
  apply svc_call_ok. eapply wp_mono.
  - eapply (create_svc_ok core (trap_frame core s) (Frame stack 0 0 0 0 0 0 0) _ Hq (trapped_frame core _ _ _ s) tk); [done|done|].
    intros Hr. assert (current (trapped core stack 0 0 s) core = current s0 core) as ->.
    { unfold current, cls. by rewrite <-(rm_cpu _ _ _ _ _ Hrm). }
    apply Hcur. by rewrite <-(rm_running _ _ _ _ _ Hrm).
  - intros [] s1 (Hq1 & _ & _ & _ & Hfr). split; [done|]. eexists. split; [rewrite Hfr; apply trapped_frame|done].
Qed.

Lemma scheduler_create_ok stack size d s :
  quiescent s → create_args stack size d s →
  wp (scheduler_create core stack size (Some d)) (λ _ s', quiescent s') s.
Proof.
  intros Hq Ha. pose proof Hq as (_ & _ & Hp). pose proof Ha as [Hs Hun Hnw Hfi Hti Hpr [Htls _] Hroom Hcur].
  pose proof (linked_anywhere_tasks _ _ Hun) as Hn. assert (stack ≠ 0) as Hz by lia.
  unfold scheduler_create. do 2 wp_step. rewrite Hp, (proj2 (Z.eqb_neq stack 0)) by done. cbn [orb negb].
  wp_step. eapply (wp_mono _ (λ _ s1, ∃ m T, s1 = s <| word_at := m |> <| task_at := T |> ∧
    (T = task_at s ∨ ∃ tk0, T = <[stack := tk0]> (task_at s)) ∧
    (∀ a, is_Some (word_at s !! a) → is_Some (m !! a)) ∧
    (has (flags d) SCHEDULER_TASK_STACK_CHECK = true → m = fill_stack stack size (word_at s)))).
  { wp_step.
    - wp_step. do 2 eexists. split; [reflexivity|]. split; [right; by eexists|]. split; [|done]. intros a. apply fill_keeps.
    - exists (word_at s), (task_at s). split; [by destruct s|]. split; [by left|]. split; [done|congruence]. }
  intros [] s1 (m & T & -> & HT & Hm & Hfill). do 2 wp_step. wp_step.
  replace (linked_anywhere stack (s <| word_at := m |> <| task_at := T |>)) with false by (by rewrite <-Hun). cbn [when]. wp_step. wp_step.
  wp_step. set (tk0 := default blank_task (T !! stack)).
  assert (<[stack := new_task d tk0]> T = <[stack := new_task d tk0]> (task_at s)) as ET
    by (destruct HT as [->|[tk1 ->]]; [done|apply insert_insert_eq]).
  match goal with |- wp _ _ ?x => replace x with (s <| word_at := m |> <| task_at ::= <[stack := new_task d tk0]> |>)
    by (unfold over; cbn; by rewrite <-ET) end.
  destruct (new_task_drafted stack d s m tk0 Hq Hz Hn Hm) as [tk Hd]. rewrite Hfi, Hti, Hpr. cbn [negb when].
  wp_step. eapply wp_init_frame; [exact Hd|done..|]. intros s2 Hd2 Hf2 Hw2.
  wp_step. eapply wp_init_tls; [exact Hd2|done..|]. intros s3 Hd3 Hf3 Hw3.
  destruct (create_words _ _ _ _ Ha Htls) as (Hm0 & Hm1 & Hle).
  assert (has (flags d) SCHEDULER_TASK_STACK_CHECK = true → ∀ a, u32 (stack + round8 SIZEOF_TASK) + s_tls_size s <= a →
    word_at s3 !! a = fill_stack stack size (word_at s) !! a) as Hw.
  { intros Hc a Hle'. rewrite Hw3 by done. rewrite Hw2. by rewrite <-(Hfill Hc). }
  set (tk3 := over t_stack_marker _ _) in Hd3.
  assert (t_flags tk3 = flags d) as Hfl by apply Hd3.
  assert (has (flags d) SCHEDULER_TASK_STACK_CHECK = true → word_at s3 !! t_stack_marker tk3 = Some SCHEDULER_STACK_MARKER ∧
    word_at s3 !! (t_stack_marker tk3 + 4) = Some SCHEDULER_STACK_MARKER) as Hg.
  { intros Hc. split; rewrite (Hw Hc); try done; unfold tk3; rsimp; lia. }
  assert (ready_made stack size d s s3) as Hrm.
  { split; try apply Hd3. exists tk3. split_and!; [split; try apply Hd3|apply Hd3|apply Hd3|done| |done].
    - by rewrite (df_tasks _ _ _ _ _ Hd3).
    - unfold tk3. rsimp. by rewrite Hf3, Hf2.
    - intros Hc. rewrite Hfl in Hc. destruct (Hg Hc) as [E1 E2]. by rewrite E1, E2.
    - intros c. unfold current, cls. rewrite (df_cpu _ _ _ _ _ Hd3). apply Hnw.
    - unfold tk3. rsimp. by rewrite Hf3. }
  pose proof (ready_made_service _ _ _ _ _ Hrm Hz Hcur) as Hsvc.
  wp_step. unfold scheduler_check_stack. wp_step. eapply wp_get_task; [apply Hd3|].
  rewrite Hfl. destruct (has (flags d) SCHEDULER_TASK_STACK_CHECK); cbn [negb].
  - destruct (Hg eq_refl) as [E1 E2]. unfold get_word. wp_step. wp_step; [exact E1|]. rewrite Z.eqb_refl. cbn [negb].
    wp_step. wp_step; [exact E2|]. wp_step. wp_step. wp_step; [by rewrite Z.eqb_refl|done].
  - wp_step. wp_step. by wp_step.
Qed.

Lemma scheduler_create_refuses stack size d s :
  d = None ∨ stack = 0 ∨ s_present s = false →
  wp (scheduler_create core stack size d) (λ r s', r = 0 ∧ s' = s <| s_errno := EINVAL |>) s.
Proof.
  intros Hd. unfold scheduler_create, set_errno. do 2 wp_step. destruct d as [d|]; [|by do 3 wp_step].
  replace ((stack =? 0) || negb (s_present s)) with true; [by do 3 wp_step|].
  destruct Hd as [?|[-> | ->]]; [done|done|by rewrite orb_true_r].
Qed.
End create.
