(* ===== verification/WakeLaws.v ===== *)
(** * The contract of a wake

    What a trap does for a task that gets its core back, and what a wake then
    leaves of the queue, the word and the tasks: derived from the scheduler's own
    theorems, for the RTOS layer and the C11 threads. *)
From S2P Require Import Prelude Scheduler SchedulerSvc SchedulerApi SchedulerInv SchedulerSafe SchedulerWake SchedulerHandlers SchedulerSystem SchedulerCalls.

(** The trap returns to a caller that still has its core. *)
Class Resumes `{Trap} : Prop :=
  caller_resumes core a s : current s core ≠ 0 → return_to_caller core a s = Done tt s.

Section wakes.
Context `{EnvironmentLaws} `{Trap} {Hres : Resumes} (core : Z).

(** The scheduler is in order, and a task runs on the core, in thread mode; the
    tasks can be counted in an [int]. *)
Record in_thread (s : sched) : Prop := {
  it_quiescent : quiescent s;
  it_task : current s core ≠ 0;
  it_mode : ipsr (cls s core) = 0;
  it_few : Z.of_nat (length (s_tasks s)) < 2 ^ 31
}.
Lemma in_thread_words s m :
  in_thread s → (∀ a, is_Some (word_at s !! a) → is_Some (m !! a)) → in_thread (s <| word_at := m |>).
Proof. intros [] Hm. split; try done. by apply quiescent_words. Qed.

(** ** Traps *)
Lemma wp_svc_call (handler : Z → SM unit) a b c (Q : Z → sched → Prop) s :
  wp (handler (trap_frame core s)) (λ _ s1, current s1 core ≠ 0 ∧
    ∃ v, r0 <$> frame_at s1 !! trap_frame core s = Some v ∧ Q (s32 v) s1) (trapped core a b c s) →
  wp (svc_call core handler a b c) Q s.
Proof.
  intros Hh. unfold svc_call. do 3 wp_step. wp_step. wp_step. eapply wp_mono; [exact Hh|].
  intros [] s1 (Hc & v & Hfr & HQ). wp_step. eapply wp_done; [by apply caller_resumes|].
  destruct (frame_at s1 !! trap_frame core s) as [fr|] eqn:E; [|done]. injection Hfr as <-.
  wp_step. apply (wp_get_frame _ fr); [done|]. by wp_step.
Qed.

(** ** Wakes *)
Lemma waiters_short f fx s :
  in_thread s → futex_at s !! f = Some fx → Z.of_nat (length (f_waiters fx)) < 2 ^ 31.
Proof.
  intros Hs Hfx. pose proof (ix_struct _ _ (proj1 (it_quiescent _ Hs))) as Hst.
  assert (queue s (waiters f) = Some (f_waiters fx)) as Hl by (cbn [queue]; by rewrite Hfx).
  pose proof (it_few _ Hs). assert (length (f_waiters fx) <= length (s_tasks s))%nat; [|lia].
  apply submseteq_length, NoDup_submseteq; [by apply (si_queue _ Hst _ _ Hl)|].
  intros t Ht. by apply (si_member _ Hst _ _ t Hl).
Qed.

(** The scheduler after a wake of [fx] at [f]: [l1] is its queue, in the order
    the wake found it, and [l2] what it left of it. *)
Record woken_by (f : Z) (fx : futex) (all : bool) (v : Z) (l1 l2 : list Z) (s s' : sched) : Prop := {
  wb_thread : in_thread s';
  wb_order : l1 ≡ₚ f_waiters fx ∧ (inherits fx = false → l1 = f_waiters fx);
  wb_split : l1 = chosen fx all l1 ++ l2;
  wb_queue : queue s' (waiters f) = Some l2;
  wb_readied t : t ∈ chosen fx all l1 → readied s' t;
  wb_word : word_at s' !! f_value fx = Some (final_word fx all l1 v);
  wb_words a : a ≠ f_value fx → word_at s' !! a = word_at s !! a;
  wb_others g : futex_id <$> futex_at s' !! g = futex_id <$> futex_at s !! g;
  wb_tasks : s_tasks s' = s_tasks s;
  wb_locked : s_locked s' = s_locked s
}.

Lemma futex_wake_any f fx all v s :
  in_thread s → f ≠ 0 → futex_at s !! f = Some fx → f_marker fx = SCHEDULER_FUTEX_MARKER →
  word_at s !! f_value fx = Some v → (inherits fx = true → owner_of v ∈ s_tasks s) →
  wp (scheduler_futex_wake core f all) (λ r s', r = Z.of_nat (length (chosen fx all (f_waiters fx))) ∧
    ∃ l1 l2, woken_by f fx all v l1 l2 s s') s.
Proof.
  intros Hs Hf Hfx Hmk Hv Hown. pose proof (waiters_short _ _ _ Hs Hfx) as Hl. destruct Hs as [Hq Hcur Hip Hfew].
  unfold scheduler_futex_wake, marked_futex. do 2 wp_step.
  apply (wp_get_futex _ _ _ _ Hfx). wp_step. wp_step; [by rewrite (proj2 (Z.eqb_neq _ _) Hf), Hmk|].
  wp_step. wp_step. wp_step. rewrite Hip. cbn [negb Z.eqb]. wp_step. apply wp_svc_call.
  set (s1 := trapped core f (Z.b2z all) 0 s).
  pose proof (quiescent_trapped core f (Z.b2z all) 0 s Hq) as Hq1.
  eapply wp_mono; [eapply (wake_svc_ok core _ _ s1 Hq1 (trapped_frame core _ _ _ s) fx v); by split|].
  cbn [r0 r1]. replace (negb (Z.b2z all =? 0)) with all by (by destruct all).
  intros [] s2 (Hq2 & Hc2 & Hr2 & _ & l1 & l2 & Hp & Hl1 & E & Hw & Hrd & Hv2 & Hwf).
  set (n := Z.of_nat (length (chosen fx all (f_waiters fx)))) in *.
  assert (s32 (u32 n) = n) as Hn.
  { rewrite s32_u32. apply s32_small. unfold n, chosen. destruct (_ && _); [lia|]. rewrite length_take. lia. }
  split; [by rewrite Hc2|]. eexists. split; [exact Hr2|]. rewrite Hn.
  wp_step. wp_step; [lia|]. wp_step. split; [done|]. exists l1, l2. split; try done.
  - split; [done|by rewrite Hc2|by rewrite (wf_ipsr _ _ _ _ Hwf)|by rewrite (wf_tasks _ _ _ _ Hwf)].
  - intros a Ha. by rewrite (wf_word _ _ _ _ Hwf).
  - intros g. by rewrite (wf_futex _ _ _ _ Hwf).
  - by rewrite (wf_tasks _ _ _ _ Hwf).
  - by rewrite (wf_locked _ _ _ _ Hwf).
Qed.

(** ** The wake of a futex without owner or contention tracking *)

(** The futex at [f] compares the word at [a]; the tasks of [l] wait for it. *)
Record plain_futex (f a : Z) (l : list Z) (s : sched) : Prop := {
  pf_address : f ≠ 0;
  pf_futex : futex_at s !! f = Some (Futex a l 0 SCHEDULER_FUTEX_MARKER)
}.

Definition first_or_all (all : bool) (l : list Z) : list Z := if all then l else take 1 l.
Definition left_waiting (all : bool) (l : list Z) : list Z := if all then [] else drop 1 l.

(** The scheduler after the wake of some waiters of [f]. *)
Record woken (f a : Z) (l l' woke : list Z) (s s' : sched) : Prop := {
  wn_thread : in_thread s';
  wn_word : word_at s' = word_at s;
  wn_futex : plain_futex f a l' s';
  wn_others g : futex_id <$> futex_at s' !! g = futex_id <$> futex_at s !! g;
  wn_readied t : t ∈ woke → readied s' t;
  wn_tasks : s_tasks s' = s_tasks s;
  wn_locked : s_locked s' = s_locked s
}.

Lemma chosen_plain a l all : chosen (Futex a l 0 SCHEDULER_FUTEX_MARKER) all l = first_or_all all l.
Proof. unfold chosen. cbn. by destruct all. Qed.

Lemma final_word_plain a l all v : final_word (Futex a l 0 SCHEDULER_FUTEX_MARKER) all l v = v.
Proof. by destruct l. Qed.

Lemma left_waiting_split all l l2 : l = first_or_all all l ++ l2 → l2 = left_waiting all l.
Proof.
  destruct all; cbn; [|destruct l as [|t l]; cbn; rewrite ?drop_0, ?take_0; cbn; intros; congruence].
  intros E. destruct l2; [done|]. apply (f_equal length) in E. rewrite length_app in E. cbn in E. lia.
Qed.

Lemma word_map_eq (m1 m2 : gmap Z Z) a v :
  (∀ b, b ≠ a → m1 !! b = m2 !! b) → m1 !! a = Some v → m2 !! a = Some v → m1 = m2.
Proof. intros Hb E1 E2. apply map_eq. intros b. destruct (decide (b = a)) as [->|?]; [congruence|auto]. Qed.

Lemma woken_plain f a l all v l1 l2 s s' :
  plain_futex f a l s → word_at s !! a = Some v →
  woken_by f (Futex a l 0 SCHEDULER_FUTEX_MARKER) all v l1 l2 s s' →
  woken f a l (left_waiting all l) (first_or_all all l) s s'.
Proof.
  intros [Hf Hfx] Hv [Ht [_ Ho] E Hw Hrd Hv' Hws Hfs Hts Hlk]. rewrite (Ho eq_refl), chosen_plain in *.
  rewrite final_word_plain in Hv'. rewrite (left_waiting_split _ _ _ E) in Hw. split; try done.
  - by apply (word_map_eq _ _ a v).
  - split; [done|]. pose proof (Hfs f) as Hid. cbn [queue] in Hw.
    destruct (futex_at s' !! f) as [[a2 w2 g2 m2]|]; [|done]. cbn in Hw. rewrite Hfx in Hid. unfold futex_id in Hid.
    cbn in Hid. congruence.
Qed.

(** ** The word of an owner *)


Definition contended_word (t : Z) : Z := Z.lor t SCHEDULER_FUTEX_CONTENTION_TRACKING.

Lemma owner_of_contended t : owner_of t = t → owner_of (contended_word t) = t.
Proof.
  unfold owner_of, contended_word. intros Ht. rewrite Z.land_lor_distr_l, Ht.
  change (Z.land SCHEDULER_FUTEX_CONTENTION_TRACKING (not32 SCHEDULER_FUTEX_CONTENTION_TRACKING)) with 0. apply Z.lor_0_r.
Qed.

Lemma contended_differs t : owner_of t = t → contended_word t ≠ t.
Proof.
  unfold owner_of, contended_word. intros Ht E. apply (f_equal (λ x, Z.testbit x 0)) in Ht, E. revert E Ht.
  change SCHEDULER_FUTEX_CONTENTION_TRACKING with 1. rewrite Z.lor_spec, Z.land_spec. change (Z.testbit (not32 1) 0) with false.
  rewrite orb_true_r, andb_false_r. congruence.
Qed.

(** The word after the mutex passed from a contended owner to the first of its
    waiters; with nobody waiting any more, the owner's own word. *)
Definition handed_word (t : Z) (l : list Z) : Z :=
  match l with [] => t | [u] => owner_of u | u :: _ => contended_word u end.

(** The flags of a futex that tracks its owner and its contention. *)
Lemma final_word_tracked a l t flags :
  has flags SCHEDULER_FUTEX_OWNER_TRACKING = true → has flags SCHEDULER_FUTEX_CONTENTION_TRACKING = true → owner_of t = t →
  final_word (Futex a l flags SCHEDULER_FUTEX_MARKER) false l (contended_word t) = handed_word t l.
Proof.
  intros Ho Hc Ht. unfold final_word, chosen, owner_tracking. cbn [f_flags]. rewrite Ho, Hc.
  cbn [andb negb]. destruct l as [|u [|u' l]]; [by apply owner_of_contended|done|].
  rewrite bool_decide_eq_false_2; [done|]. cbn [length]. rewrite length_take. cbn [length]. lia.
Qed.
End wakes.
