(* ===== verification/SchedulerSample.v ===== *)
(** * The scheduler: a sample system

    An environment that keeps the laws [EnvironmentLaws] and [TrapLaws] ask
    for, and a quiescent state of two cores and five tasks, on which the
    theorems of [SchedulerClaims] are run. *)
From S2P Require Import Prelude Scheduler SchedulerSvc SchedulerApi SchedulerInv SchedulerSafe SchedulerCheck SchedulerHandlers SchedulerSwitch SchedulerSystem SchedulerCalls.

(** No exit handler or tick hook does anything; the interrupt that ends a wait
    asks for a context switch; a trap returns at once. *)
Definition sample_env : Environment := {|
  num_cores := 2;
  call_exit_handler _ _ := ret tt;
  tick_hook _ := ret tt;
  wfi core := scheduler_request_switch core
|}.

Definition sample_trap : Trap := {|
  trap_frame _ _ := 2000;
  return_to_caller _ _ := ret tt;
  scheduler_tls_init_hook _ := ret tt;
  scheduler_startup_hook := ret tt;
  scheduler_shutdown_hook := ret tt;
  scheduler_start_svc _ _ := ret tt
|}.

Lemma sample_env_laws : @EnvironmentLaws sample_env.
Proof.
  split; cbn.
  - intros. apply wp_ret. split; [done|apply kept_refl].
  - intros. by apply wp_ret.
  - intros core s Hq Hc. apply wp_request_switch. intros s' Hs Hcur _. rewrite Hcur.
    split; [by eapply quiescent_step|done].
Qed.

Lemma sample_trap_laws : @TrapLaws sample_trap.
Proof.
  split; cbn.
  - intros core a fr s Hq Hfr. apply wp_ret. split; [done|]. by exists fr.
  - intros tls s. change (∃ m, s = s <| word_at := m |> ∧ (∀ a, is_Some (word_at s !! a) → is_Some (m !! a)) ∧ (∀ a, tls + s_tls_size s <= a → m !! a = word_at s !! a)). exists (word_at s). split; [by destruct s|done].
Qed.

Definition sample_task (psp : Z) (st : task_state) (core prio expires : Z) (owned : list Z) (q : option queue_id) : task :=
  Task psp 0 0 st core UINT32_MAX prio prio expires owned q 0 0 0 SCHEDULER_TASK_MARKER.

(** Core 0 runs 100, core 1 idles; 200 is ready; 300 waits until tick 50 for the
    priority-inheriting futex at 400 that 100 owns; 500 is suspended; 600 waits
    for the plain futex at 700. *)
Definition sample_tasks : gmap Z task :=
  list_to_map [
    (100, sample_task 0 TASK_RUNNING 0 10 UINT32_MAX [400] None);
    (200, sample_task 1200 TASK_READY UINT32_MAX 20 UINT32_MAX [] (Some ready_queue));
    (300, sample_task 1300 TASK_BLOCKED UINT32_MAX 30 50 [] (Some (waiters 400)));
    (500, sample_task 1500 TASK_SUSPENDED UINT32_MAX 5 UINT32_MAX [] None);
    (600, sample_task 1600 TASK_BLOCKED UINT32_MAX 40 UINT32_MAX [] (Some (waiters 700)))].

Definition sample_futexes : gmap Z futex :=
  list_to_map [(400, Futex 404 [300] 7 SCHEDULER_FUTEX_MARKER); (700, Futex 704 [600] 0 SCHEDULER_FUTEX_MARKER)].

Definition no_regs : Scheduler.frame := Frame 0 0 0 0 0 0 0 0.

Definition sample (fr : Scheduler.frame) : sched :=
  Sched true 16 INT32_MAX [200] [100; 200; 300; 500; 600] [300] 50 1 0 UINT32_MAX 0 SCHEDULER_MARKER false 0
    sample_tasks sample_futexes
    (list_to_map [(1200, no_regs); (1300, no_regs); (1500, no_regs); (1600, no_regs); (2000, fr)])
    (list_to_map [(404, 101); (704, 1)])
    (list_to_map [(0, cpu_reset <| current_task := 100 |>)]).

Lemma sample_quiescent fr : quiescent (sample fr).
Proof. apply checked_quiescent. vm_compute. reflexivity. Qed.
