(* ===== verification/SchedulerClaims.v ===== *)
(** * The scheduler: its properties

    Each theorem states what one operation, or the whole scheduler, promises;
    its witness runs it on the sample system of [SchedulerSample]. *)
From S2P Require Import Prelude Scheduler SchedulerSvc SchedulerApi SchedulerInv SchedulerSafe SchedulerWake SchedulerHandlers SchedulerSwitch SchedulerCheck SchedulerSystem SchedulerCalls SchedulerSample.

Section claims.
Context `{EnvironmentLaws} `{TrapLaws}.

(** ** The system *)

(** C1: From a quiescent state, every state the interleaving of service calls,
    context switches, ticks, deferred wakes and stores reaches is quiescent
    again, and in it every admissible event runs to its end without a fault;
    only a context switch may use up its fuel, idling. *)
Theorem scheduler_reachable_safe s0 s :
  quiescent s0 → reachable s0 s →
  quiescent s ∧ ∀ e, admissible s e →
    match run_event e s with
    | Done _ s' => quiescent s'
    | Fault f => f = OutOfFuel ∧ is_switch e = true
    end.
Proof.
  intros Hq Hr. pose proof (reachable_quiescent_aux _ _ Hq Hr) as Hs. split; [done|].
  intros e Ha. pose proof (event_safe e s Hs Ha) as He. destruct (is_switch e); unfold wp, wlp in He; by destruct (run_event e s).
Qed.

(** C40: [scheduler_init] on memory no scheduler uses yet establishes the
    invariant, with no tasks, timers, pending wakes or critical section. *)
Theorem scheduler_init_establishes a tls s :
  idle_memory s → a ≠ 0 → wp (scheduler_init a tls) (λ r s', r = 0 ∧ initialised tls s') s.
Proof. apply scheduler_init_ok. Qed.

(** ** Queues *)

(** C39: Pushing a task places it behind every task of its priority or a more
    urgent one and in front of the less urgent ones: the queue is a priority
    queue, first in first out within a priority. *)
Theorem sched_queue_push_fifo q t tk l s :
  struct_inv s → task_at s !! t = Some tk → t_current_queue tk = None → t ∈ s_tasks s → queue s q = Some l →
  wp (sched_queue_push q t) (λ _ s', struct_inv s' ∧ ∃ l1 l2, l = l1 ++ l2 ∧
    queue s' q = Some (l1 ++ t :: l2) ∧
    (∀ u, u ∈ l1 → priority_of s u <= t_current_priority tk) ∧
    (∀ u, u ∈ l2 → t_current_priority tk < priority_of s u)) s.
Proof.
  intros Hs Ht Hq Hal Hl. eapply wp_sched_queue_push; [done..|]. intros s' Hs' _ _ _ Hq' _. split; [done|].
  destruct (si_queue _ Hs _ _ Hl) as [_ Hsort]. rewrite Hq', decide_True by done. unfold pushed.
  rewrite <-(priority_of_lookup _ _ _ Ht).
  destruct (place_sorted_split (priority_of s) t l Hsort) as (l1 & l2 & -> & -> & H1' & H2'). by exists l1, l2.
Qed.

(** Popping for a core takes the first task of the queue that may run on
    that core, the whole queue's first for the pseudo core [UINT32_MAX], and
    returns 0, changing nothing, when there is none. *)
Theorem sched_queue_pop_first q core l s :
  struct_inv s → queue s q = Some l →
  wp (sched_queue_pop q core) (λ t s', struct_inv s' ∧
    match pick s core l with
    | None => t = 0 ∧ s' = s
    | Some u => t = u ∧ t ≠ 0 ∧ queue s' q = Some (without t l) ∧
        (∀ v, v ∈ l → core ≠ UINT32_MAX → runs_on s core v = true → priority_of s t <= priority_of s v) ∧
        t_current_queue <$> task_at s' !! t = Some None
    end) s.
Proof.
  intros Hs Hl. eapply wp_sched_queue_pop; [done..| |].
  - intros ->. done.
  - intros t tk s' E Hin Hz Ht _ _ Hs' _ Ht' _ ->. rewrite E. split_and!; [done|done|done| | |by rewrite Ht'].
    + by rewrite queue_dequeued, Hl.
    + intros v Hv Hc Hr. destruct (si_queue _ Hs _ _ Hl) as [_ Hsort].
      unfold pick in E. rewrite (proj2 (Z.eqb_neq _ _) Hc) in E. by eapply find_sorted.
Qed.

(** ** Service calls *)

(** A task that suspends itself leaves its core with a switch pending; it is
    suspended with its frame saved, and its timer runs exactly when the delay
    is not [SCHEDULER_WAIT_FOREVER], for that delay. A dead task is answered
    [-ESRCH]. *)
Theorem scheduler_suspend_svc_spec core frame fr s :
  quiescent s → frame_at s !! frame = Some fr → current s core ≠ 0 →
  (r0 fr ∈ s_tasks s → r0 fr = current s core) →
  wp (scheduler_suspend_svc core frame) (λ _ s', quiescent s' ∧
    if bool_decide (r0 fr ∈ s_tasks s) then
      current s' core = 0 ∧ switch_pending core s' ∧
      ∃ tk b, holds s' (r0 fr) tk b ∧ t_state tk = TASK_SUSPENDED ∧ t_psp tk = frame ∧
        b = (r1 fr <? SCHEDULER_WAIT_FOREVER) ∧
        (b = true → t_timer_expires tk = u32 (scheduler_get_ticks s + r1 fr))
    else s' = answered frame (u32 (- ESRCH)) fr s) s.
Proof.
  intros Hq Hf Hc Hal. case_bool_decide as Hin.
  - eapply wp_mono; [by eapply suspend_svc_self; eauto|]. intros ? s' (? & ? & ? & ?). by split.
  - eapply wp_mono; [by eapply suspend_svc_dead|]. intros ? s' ->. split; [by apply refused_quiescent|done].
Qed.

(** Resuming a blocked or suspended task makes it ready and disarms its
    timer; a blocked one finds [-ECANCELED] as the result of its wait. The
    caller is answered 0, [-EINVAL] when the task does not wait, [-ESRCH] when
    it is dead. *)
Theorem scheduler_resume_svc_spec core frame fr s :
  quiescent s → frame_at s !! frame = Some fr →
  wp (scheduler_resume_svc core frame) (λ _ s', quiescent s' ∧
    match task_at s !! r0 fr with
    | Some tk =>
        if bool_decide (r0 fr ∈ s_tasks s) then switch_pending core s' ∧
          if bool_decide (wakeable tk) then readied s' (r0 fr) ∧
            (t_state tk = TASK_BLOCKED → r0 <$> frame_at s' !! t_psp tk = Some (u32 (- ECANCELED))) ∧
            (t_psp tk ≠ frame → r0 <$> frame_at s' !! frame = Some 0)
          else task_at s' = task_at s ∧ r0 <$> frame_at s' !! frame = Some (u32 (- EINVAL))
        else s' = answered frame (u32 (- ESRCH)) fr s
    | None => s' = answered frame (u32 (- ESRCH)) fr s
    end) s.
Proof.
  intros Hq Hf. case_bool_decide as Hin.
  - destruct (si_alive _ (ix_struct _ _ (proj1 Hq)) _ Hin) as (tk & Htk & _). rewrite Htk.
    case_bool_decide as Hw; (eapply wp_mono; [by (eapply resume_svc_wakes + eapply resume_svc_ready)|]); intros ? s' Hs'; naive_solver.
  - eapply wp_mono; [by eapply resume_svc_dead|]. intros ? s' ->. split; [by apply refused_quiescent|].
    by destruct (task_at s !! r0 fr).
Qed.
(** C15: [futex_wait] blocks the caller, behind the waiters of its priority, only
    if the futex word still holds the expected value, with or without the
    contention bit; then the word holds the contended value, the timer runs for
    the given delay, and the owner of a priority-inheriting futex runs at least
    as urgently as the caller did. Otherwise the caller stays ready and the
    word is untouched. *)
Theorem scheduler_wait_svc_spec core frame fr s fx w :
  quiescent s → frame_at s !! frame = Some fr → wait_args fr s fx → current s core ≠ 0 →
  word_at s !! f_value fx = Some w →
  wp (scheduler_wait_svc core frame) (λ _ s', quiescent s' ∧ current s' core = 0 ∧
    switch_pending core s' ∧ r0 <$> frame_at s' !! frame = Some 0 ∧
    if (w =? r1 fr) || (w =? contended (f_flags fx) (r1 fr))
    then blocked_on core frame fr s fx s' else passed_by core frame s s') s.
Proof. intros Hq Hf Ha Hc Hw. by apply wait_svc_ok. Qed.


(** Terminating a task takes it off every ring and the task list, runs its
    exit handler with the lock held and, when it ends itself, empties its core
    with a switch pending; a dead task is answered [-ESRCH]. *)
Theorem scheduler_terminate_svc_spec core frame fr s :
  quiescent s → frame_at s !! frame = Some fr → (∀ c, current s c = r0 fr → c = core) →
  wp (scheduler_terminate_svc core frame) (λ _ s', quiescent s' ∧
    if bool_decide (r0 fr ∈ s_tasks s) then
      s_tasks s' = without (r0 fr) (s_tasks s) ∧
      (r0 fr = current s core → switch_pending core s' ∧ current s' core = 0) ∧
      (r0 fr ≠ current s core → current s' core = current s core)
    else s' = answered frame (u32 (- ESRCH)) fr s) s.
Proof.
  intros Hq Hf Hc. case_bool_decide as Hin.
  - by eapply terminate_svc_ends.
  - eapply wp_mono; [by eapply terminate_svc_dead|]. intros ? s' ->. split; [by apply refused_quiescent|done].
Qed.

(** Setting a priority sets the base and the current priority of a live task
    and keeps every queue ordered; a dead task is answered [-ESRCH]. *)
Theorem scheduler_priority_svc_spec core frame fr s tk :
  quiescent s → frame_at s !! frame = Some fr → task_at s !! r0 fr = Some tk →
  wp (scheduler_priority_svc core frame) (λ _ s', quiescent s' ∧
    if bool_decide (r0 fr ∈ s_tasks s) then switch_pending core s' ∧
      ∃ b, holds s' (r0 fr) (tk <| t_base_priority := r1 fr |> <| t_current_priority := r1 fr |>) b
    else s' = answered frame (u32 (- ESRCH)) fr s) s.
Proof.
  intros Hq Hf Ht. case_bool_decide as Hin.
  - by eapply priority_svc_sets.
  - eapply wp_mono; [by eapply priority_svc_dead|]. intros ? s' ->. split; [by apply refused_quiescent|done].
Qed.

(** ** Interrupts *)

(** C35: From an interrupt handler [scheduler_futex_wake] refuses futexes with an
    owner or inheritance with [-EINVAL]; it records any other wake in the first
    free slot and asks for a switch, does nothing when that wake is already
    recorded, and answers [-ENOSPC] when every slot is taken. The given and
    taken counters keep counting the recorded wakes. *)
Theorem scheduler_futex_wake_deferred core f all s fx :
  quiescent s → isr_wake core f s fx →
  wp (scheduler_futex_wake core f all) (λ r s', quiescent s' ∧
    (if has (f_flags fx) PI_AND_OWNER then r = - EINVAL ∧ s' = s <| s_errno := EINVAL |>
     else deferred core (Z.lor f (Z.b2z all)) s r s') ∧
    (accounted (cls s core) → accounted (cls s' core))) s.
Proof.
  intros Hq Hw. eapply wp_mono; [by eapply isr_wake_ok|]. intros r s' [Hq' Hd]. split_and!; [done|done|].
  destruct (has (f_flags fx) PI_AND_OWNER); [by destruct Hd as [_ ->]|]. intros Ha.
  destruct (iw_address _ _ _ _ Hw) as (? & ? & ?). eapply deferred_accounted; [apply Hq| |exact Ha|exact Hd].
  by apply slot_futex.
Qed.

(** C24: No wake is lost: with the counters in step, the drain of the context
    switch serves every wake the core's slots record.  Each futex keeps exactly
    the waiters no recorded wake takes ([serve]: a wake of all takes every
    waiter, any other the first), in their order, a futex without a record all of
    them; the waiters taken are ready; every slot is empty and the counters are
    equal; tasks that were ready stay ready, and the task list is as it was. *)
Theorem deferred_wakes_drained core s :
  switching core s → accounted (cls s core) →
  wp (drain_deferred core SCHEDULER_MAX_DEFERED_WAKE 0)
     (λ _ s', switching core s' ∧ all_clear (cls s' core) ∧
        (∀ f l, queue s (waiters f) = Some l → let left := serve (deferred_wake (cls s core)) f l in
           queue s' (waiters f) = Some left ∧ ∀ t, t ∈ l → t ∉ left → readied s' t) ∧
        (∀ t, readied s t → readied s' t) ∧ s_tasks s' = s_tasks s) s.
Proof.
  intros Hs Ha. eapply wp_mono; [by apply (wp_drain_deferred core SCHEDULER_MAX_DEFERED_WAKE 0)|].
  intros [] s' (Hs' & Hd & Hc). destruct (Hc Ha) as [Hcl Hsv]; [constructor|]. split_and!; [done|done|exact Hsv|apply Hd|apply Hd].
Qed.

(** A context switch readies exactly the tasks whose timer has expired, a
    prefix of the timer list, and leaves the others armed. *)
Theorem expired_timers_readied core s :
  switching core s →
  wp (expire_timers (S (length (s_timers s)))) (λ _ s', switching core s' ∧ ∃ l1,
    s_timers s = l1 ++ s_timers s' ∧
    (∀ t, t ∈ l1 → expires_of s t <= scheduler_get_ticks s ∧ readied s' t) ∧
    (∀ t, t ∈ s_timers s' → scheduler_get_ticks s < expires_of s t)) s.
Proof. intros Hs. eapply wp_mono; [apply wp_expire_timers; [lia|done]|]. by intros ? s' [? _ ? _]. Qed.

(** While the scheduler runs, the tick advances the core's tick counter and
    asks for a switch when a timer is due or the time slice runs out. *)
Theorem scheduler_tick_requests core s :
  core ≠ UINT32_MAX → quiescent s →
  let now := scheduler_get_ticks (on_core core tick_count s) in
  wp (scheduler_tick core) (λ _ s', quiescent s' ∧
    (scheduler_is_running s = true → s_timer_expires s <= now ∨ slice_expires (cls s core) = 1 →
     pendsv (cls s' core) = true)) s.
Proof. intros Hc Hq. by apply scheduler_tick_ok. Qed.

(** ** The context switch *)

(** C2: The context switch returns the caller's own frame while the scheduler is
    locked.  Otherwise it puts the task that ran back with its frame and goes
    round: each round drains the deferred wakes, readies the tasks whose timers
    expired and looks for the first ready task allowed on the core ([round_post]).
    If that task's stack is intact, it now runs, with the frame returned, as
    urgent as any ready task that may run there, every other core that should
    reschedule is kicked, and no task has left the task list in that round.
    If there is no such task, or its stack is damaged and it alone is evicted,
    the round idles; unless no live task is left but those marked to be ignored
    and this core has called [scheduler_run], whose frame, with result 0, is then
    returned. *)
Theorem scheduler_switch_dispatches core fuel frame s :
  core ≠ UINT32_MAX → quiescent s → is_Some (frame_at s !! frame) →
  wlp (scheduler_switch core fuel frame) (λ a s', switched core frame s a s') s.
Proof. intros Hc Hq Hf. by apply scheduler_switch_ok. Qed.

(** C25: The context switch does not idle when there is a task to run: with the
    scheduler unlocked, some ready task, or the task that ran, allowed on the
    core, and the guard words of every checked stack intact and apart from the
    words of the futexes, one round of the selection loop dispatches. *)
Theorem scheduler_switch_terminates core frame s u :
  core ≠ UINT32_MAX → quiescent s → is_Some (frame_at s !! frame) → 0 <= s_locked s → stacks_intact s →
  (readied s u ∨ (u = current s core ∧ u ≠ 0)) → runs_on s core u = true →
  wp (scheduler_switch core 1 frame) (λ a s', ∃ t, dispatched core t a s') s.
Proof. intros Hc Hq Hf Hl Hu Hr Hro. by eapply scheduler_switch_returns. Qed.

(** ** Application calls *)

(** C23: Critical sections nest: [n] entries take the spin lock once, mask the
    core's interrupts and keep every other core spinning; they answer the mask
    as it was, at first, and then that it is set.  Leaving with these states, the
    last first, holds the section, masked, until the [n]-th exit, which brings
    back every core's state, the interrupt mask with it. *)
Theorem critical_section_nests core n fuel s :
  core ≠ UINT32_MAX → no_critical s → (0 < n)%nat → Z.of_nat n <= INT32_MAX → (0 < fuel)%nat →
  wp (enter_times core fuel n) (λ states s1,
    length states = n ∧ last states = Some (cpu_primask (cls s core)) ∧
    s_critical s1 = core ∧ s_critical_counter s1 = Z.of_nat n ∧ s_spin s1 = true ∧ cpu_primask (cls s1 core) = 1 ∧
    (∀ other fuel', other ≠ core → scheduler_enter_critical other fuel' s1 = Fault OutOfFuel) ∧
    (∀ k, (k < n)%nat → wp (leave_with core (take k states)) (λ _ s2, s_critical s2 = core ∧ s_spin s2 = true ∧
       s_critical_counter s2 = Z.of_nat (n - k) ∧ cpu_primask (cls s2 core) = 1) s1) ∧
    wp (leave_with core states) (λ _ s2, s2 = s <| cpu_at := cpu_at s2 |> ∧ ∀ c, cls s2 c = cls s c) s1) s.
Proof.
  intros Hc Hs Hn Hm Hf. eapply wp_mono; [by apply enter_times_ok|]. intros states s1 [-> ->].
  destruct n as [|n]; [lia|]. cbn [Nat.eqb]. set (n' := S n) in *.
  assert (length (answers core n' s) = n') as Hlen by (unfold n'; cbn; rewrite length_app, length_replicate; cbn; lia).
  split_and!; [done|unfold n'; cbn; by rewrite last_snoc|done|done|done|by apply inside_primask| | |].
  - intros other fuel' Ho. by apply critical_excluded.
  - intros k Hk. eapply wp_mono; [apply (leave_times_ok core n' k); [done|lia|lia|lia]|]. intros [] s2.
    rewrite decide_False by lia. intros ->. split_and!; [done|done|done|by apply inside_primask].
  - pose proof (leave_times_ok core n' n' s Hs Hm ltac:(lia) ltac:(lia)) as Hl. rewrite firstn_all2 in Hl by lia.
    eapply wp_mono; [exact Hl|]. intros [] s2. by rewrite decide_True by done.
Qed.

(** [scheduler_create] on a stack with room for the task, its TLS block and
    the guard words runs through the create service without a fault (its check
    of the guard words holds) and keeps the invariant; without a stack or a
    descriptor it answers a null task and [EINVAL]. *)
Theorem scheduler_create_spec core stack size d s :
  quiescent s → (∀ d', d = Some d' → stack ≠ 0 → create_args core stack size d' s) →
  wp (scheduler_create core stack size d) (λ r s', quiescent s' ∧
    (stack = 0 ∨ d = None → r = 0 ∧ s' = s <| s_errno := EINVAL |>)) s.
Proof.
  intros Hq Ha. destruct (decide (stack = 0)) as [Hz|Hz].
  { eapply wp_mono; [apply scheduler_create_refuses; auto|]. intros r s' [-> ->]. split; [by apply quiescent_errno|done]. }
  destruct d as [d|].
  - eapply wp_mono; [by apply scheduler_create_ok; auto|]. intros r s' Hq'. split; [done|]. by intros [?|?].
  - eapply wp_mono; [apply scheduler_create_refuses; auto|]. intros r s' [-> ->]. split; [by apply quiescent_errno|done].
Qed.
End claims.

(** ** The theorems on the sample system *)
#[local] Existing Instance sample_env.
#[local] Existing Instance sample_trap.
#[local] Existing Instance sample_env_laws.
#[local] Existing Instance sample_trap_laws.

(** The frame of a call with these arguments. *)
Definition call (a b c : Z) : Scheduler.frame := Frame a b c 0 0 0 0 0.

Lemma sample_current fr : current (sample fr) 0 = 100 ∧ ∀ c, current (sample fr) c ≠ 200.
Proof.
  split; [reflexivity|]. intros c. unfold current, cls, sample. cbn.
  destruct (decide (c = 0)) as [->|Hc]; [by vm_compute|]. by rewrite lookup_insert_ne.
Qed.

Lemma scheduler_reachable_safe_witness :
  quiescent (sample (call 200 0 0)) ∧
  match run_event (SysTick 0) (sample (call 200 0 0)) with
  | Done _ s' => quiescent s'
  | Fault f => f = OutOfFuel ∧ is_switch (SysTick 0) = true
  end.
Proof.
  pose proof (scheduler_reachable_safe _ _ (sample_quiescent (call 200 0 0)) (reachable_start _)) as [Hq He].
  split; [exact Hq|]. apply (He (SysTick 0)). discriminate.
Defined.

Definition fresh_memory : sched :=
  (sample no_regs) <| task_at := ∅ |> <| futex_at := ∅ |> <| cpu_at := ∅ |>.

Lemma scheduler_init_establishes_witness :
  wp (scheduler_init 64 16) (λ r s', r = 0 ∧ initialised 16 s') fresh_memory.
Proof. apply (scheduler_init_establishes 64 16); [split; try done; intros; discriminate|discriminate]. Defined.

Definition unqueued_sample : sched :=
  (sample no_regs) <| s_tasks ::= λ l, l ++ [800] |>
    <| task_at ::= <[800 := sample_task 1200 TASK_SUSPENDED UINT32_MAX 20 0 [] None]> |>.

Lemma sched_queue_push_fifo_witness :
  wp (sched_queue_push ready_queue 800) (λ _ s', struct_inv s' ∧ ∃ l1 l2, [200] = l1 ++ l2 ∧
    queue s' ready_queue = Some (l1 ++ 800 :: l2) ∧
    (∀ u, u ∈ l1 → priority_of unqueued_sample u <= 20) ∧
    (∀ u, u ∈ l2 → 20 < priority_of unqueued_sample u)) unqueued_sample.
Proof.
  apply (sched_queue_push_fifo ready_queue 800 (sample_task 1200 TASK_SUSPENDED UINT32_MAX 20 0 [] None) [200]);
    [apply check_struct_sound; vm_compute; reflexivity|reflexivity|reflexivity|by_eval|reflexivity].
Defined.

Lemma sched_queue_pop_first_witness :
  wp (sched_queue_pop ready_queue 1) (λ t s', struct_inv s' ∧
    match pick (sample no_regs) 1 [200] with
    | None => t = 0 ∧ s' = sample no_regs
    | Some u => t = u ∧ t ≠ 0 ∧ queue s' ready_queue = Some (without t [200]) ∧
        (∀ v, v ∈ [200] → 1 ≠ UINT32_MAX → runs_on (sample no_regs) 1 v = true →
           priority_of (sample no_regs) t <= priority_of (sample no_regs) v) ∧
        t_current_queue <$> task_at s' !! t = Some None
    end) (sample no_regs).
Proof. apply (sched_queue_pop_first ready_queue 1 [200]); [apply sample_quiescent|reflexivity]. Defined.

Lemma scheduler_suspend_svc_spec_witness :
  wp (scheduler_suspend_svc 0 2000) (λ _ s', quiescent s' ∧ current s' 0 = 0) (sample (call 100 25 0)).
Proof.
  eapply wp_mono; [apply (scheduler_suspend_svc_spec 0 2000 (call 100 25 0));
    [apply sample_quiescent|reflexivity|discriminate|reflexivity]|].
  intros a s' [Hq Hs]. split; [exact Hq|apply Hs].
Defined.

Lemma scheduler_resume_svc_spec_witness :
  wp (scheduler_resume_svc 0 2000) (λ _ s', quiescent s' ∧ readied s' 300 ∧
    r0 <$> frame_at s' !! 1300 = Some (u32 (- ECANCELED))) (sample (call 300 0 0)).
Proof.
  eapply wp_mono; [apply (scheduler_resume_svc_spec 0 2000 (call 300 0 0)); [apply sample_quiescent|reflexivity]|].
  intros a s' [Hq (_ & Hr & Hc & _)]. split; [exact Hq|]. split; [exact Hr|by apply Hc].
Defined.

Lemma scheduler_wait_svc_spec_witness :
  wp (scheduler_wait_svc 0 2000) (λ _ s', quiescent s' ∧
    blocked_on 0 2000 (call 700 1 30) (sample (call 700 1 30)) (Futex 704 [600] 0 SCHEDULER_FUTEX_MARKER) s')
    (sample (call 700 1 30)).
Proof.
  eapply wp_mono; [apply (scheduler_wait_svc_spec 0 2000 (call 700 1 30) _ (Futex 704 [600] 0 SCHEDULER_FUTEX_MARKER) 1);
    [apply sample_quiescent|reflexivity|split; [reflexivity|reflexivity|discriminate|discriminate]|discriminate|reflexivity]|].
  intros a s' (Hq & _ & _ & _ & Hb). split; [exact Hq|exact Hb].
Defined.


Lemma scheduler_terminate_svc_spec_witness :
  wp (scheduler_terminate_svc 0 2000) (λ _ s', quiescent s' ∧ s_tasks s' = [100; 300; 500; 600]) (sample (call 200 0 0)).
Proof.
  eapply wp_mono; [apply (scheduler_terminate_svc_spec 0 2000 (call 200 0 0)); [apply sample_quiescent|reflexivity|]|].
  - intros c Hc. destruct (proj2 (sample_current (call 200 0 0)) c Hc).
  - intros a s' [Hq Hs]. split; [exact Hq|apply Hs].
Defined.

Lemma scheduler_priority_svc_spec_witness :
  wp (scheduler_priority_svc 0 2000) (λ _ s', quiescent s' ∧ switch_pending 0 s') (sample (call 300 7 0)).
Proof.
  eapply wp_mono; [eapply (scheduler_priority_svc_spec 0 2000 (call 300 7 0)); [apply sample_quiescent|reflexivity|reflexivity]|].
  intros a s' [Hq Hs]. split; [exact Hq|apply Hs].
Defined.

(** The sample inside an interrupt handler of core 0. *)
Definition in_irq : sched :=
  (sample no_regs) <| cpu_at := {[0 := cpu_reset <| current_task := 100 |> <| ipsr := 20 |>]} |>.

Lemma scheduler_futex_wake_deferred_witness :
  wp (scheduler_futex_wake 0 700 true) (λ r s', quiescent s' ∧ deferred 0 701 in_irq r s' ∧ accounted (cls s' 0)) in_irq.
Proof.
  eapply wp_mono; [apply (scheduler_futex_wake_deferred 0 700 true in_irq (Futex 704 [600] 0 SCHEDULER_FUTEX_MARKER));
    [apply checked_quiescent; vm_compute; reflexivity|split; [reflexivity|reflexivity|split_and!; done|discriminate|discriminate]]|].
  intros r s' (Hq & Hd & Ha). split; [exact Hq|]. split; [exact Hd|apply Ha; split_and!; done].
Defined.

(** Core 1 in its context switch with a wake of the futex at 700 recorded. *)
Definition in_switch : sched :=
  (sample no_regs) <| s_spin := true |> <| s_timer_expires := 50 |>
    <| cpu_at ::= <[1 := cpu_reset <| deferred_wake ::= <[3%nat := 701]> |> <| given_wake_counter := 1 |>]> |>
    <| cpu_at ::= <[0 := cpu_reset <| current_task := 100 |> <| ticks := 60 |>]> |>.

Lemma in_switch_switching : switching 1 in_switch.
Proof.
  assert (quiescent (in_switch <| s_spin := false |>)) as [Hi _] by (apply checked_quiescent; vm_compute; reflexivity).
  split; [exact (inv_spin _ _ true Hi)|done..].
Qed.

(** The slot of the sample asks for every waiter of the futex at 700. *)
Lemma deferred_wakes_drained_witness :
  wp (drain_deferred 1 SCHEDULER_MAX_DEFERED_WAKE 0)
     (λ _ s', switching 1 s' ∧ all_clear (cls s' 1) ∧ queue s' (waiters 700) = Some [] ∧ readied s' 600 ∧
        queue s' (waiters 400) = Some [300]) in_switch.
Proof.
  eapply wp_mono; [apply (deferred_wakes_drained 1); [exact in_switch_switching|split_and!; vm_compute; done]|].
  intros a s' (Hs & Hc & Hq & _). destruct (Hq 700 [600] ltac:(reflexivity)) as [Hq1 Hr1].
  destruct (Hq 400 [300] ltac:(reflexivity)) as [Hq2 _].
  split_and!; [exact Hs|exact Hc|exact Hq1|apply Hr1; by_eval|exact Hq2].
Defined.

Lemma expired_timers_readied_witness :
  wp (expire_timers 2) (λ _ s', switching 1 s' ∧ ∃ l1,
    [300] = l1 ++ s_timers s' ∧
    (∀ t, t ∈ l1 → expires_of in_switch t <= scheduler_get_ticks in_switch ∧ readied s' t) ∧
    (∀ t, t ∈ s_timers s' → scheduler_get_ticks in_switch < expires_of in_switch t)) in_switch.
Proof. apply (expired_timers_readied 1 in_switch). exact in_switch_switching. Defined.

Lemma scheduler_tick_requests_witness :
  wp (scheduler_tick 0) (λ _ s', quiescent s' ∧
    (scheduler_is_running (sample no_regs) = true → s_timer_expires (sample no_regs) <= 1 ∨ INT32_MAX = 1 →
     pendsv (cls s' 0) = true)) (sample no_regs).
Proof. apply (scheduler_tick_requests 0 (sample no_regs)); [discriminate|apply sample_quiescent]. Defined.

Lemma scheduler_switch_dispatches_witness :
  wlp (scheduler_switch 1 3 2000) (λ a s', switched 1 2000 (sample no_regs) a s') (sample no_regs).
Proof. apply (scheduler_switch_dispatches 1 3 2000); [discriminate|apply sample_quiescent|by eexists]. Defined.

(** The sample with the task of core 0 checking its stack. *)
Definition checked_sample : sched :=
  (sample no_regs) <| task_at ::= <[100 := (sample_task 0 TASK_RUNNING 0 10 UINT32_MAX [400] None)
      <| t_flags := SCHEDULER_TASK_STACK_CHECK |> <| t_stack_marker := 1096 |>]> |>
    <| word_at ::= λ m, <[1096 := SCHEDULER_STACK_MARKER]> (<[1100 := SCHEDULER_STACK_MARKER]> m) |>.

Lemma checked_sample_intact : stacks_intact checked_sample.
Proof.
  assert (∀ a, a = 1096 ∨ a = 1100 → no_futex_word checked_sample a) as Hap.
  { intros a Ha f fx Hf. change (futex_at checked_sample) with (<[400 := Futex 404 [300] 7 SCHEDULER_FUTEX_MARKER]> (<[700 := Futex 704 [600] 0 SCHEDULER_FUTEX_MARKER]> (∅ : gmap Z futex))) in Hf.
    apply lookup_insert_Some in Hf as [[_ <-]|[_ Hf]]; [destruct Ha; subst; done|].
    apply lookup_insert_Some in Hf as [[_ <-]|[_ Hf]]; [destruct Ha; subst; done|done]. }
  assert (Forall (λ t, ∀ tk, task_at checked_sample !! t = Some tk → has (t_flags tk) SCHEDULER_TASK_STACK_CHECK = true →
    t_stack_marker tk = 1096) (s_tasks checked_sample)) as Hf.
  { repeat constructor; intros tk [= <-]; done. }
  rewrite Forall_forall in Hf. split.
  - intros t Ht tk Htk Hc. rewrite (Hf t Ht tk Htk Hc). done.
  - intros t tk Ht Htk Hc. rewrite (Hf t Ht tk Htk Hc). split; apply Hap; auto.
Qed.

Lemma scheduler_switch_terminates_witness :
  wp (scheduler_switch 0 1 2000) (λ a s', ∃ t, dispatched 0 t a s') checked_sample.
Proof.
  apply (scheduler_switch_terminates 0 2000 checked_sample 100);
    [discriminate|apply checked_quiescent; vm_compute; reflexivity|by eexists|discriminate|exact checked_sample_intact|
     right; split; [reflexivity|discriminate]|reflexivity].
Defined.

Lemma critical_section_nests_witness :
  wp (enter_times 1 1 3) (λ states s1,
    last states = Some 0 ∧ s_critical s1 = 1 ∧ s_critical_counter s1 = 3 ∧ s_spin s1 = true ∧ cpu_primask (cls s1 1) = 1 ∧
    wp (leave_with 1 states) (λ _ s2, cpu_primask (cls s2 1) = 0 ∧ s_spin s2 = false) s1) (sample no_regs).
Proof.
  eapply wp_mono; [apply (critical_section_nests 1 3 1 (sample no_regs));
    [discriminate|split_and!; reflexivity|repeat constructor|discriminate|repeat constructor]|].
  intros states s1 (_ & E1 & E2 & E3 & E4 & E5 & _ & _ & Hl). split_and!; [exact E1|exact E2|exact E3|exact E4|exact E5|].
  eapply wp_mono; [exact Hl|]. intros a s2 [Hs2 Hc]. split; [by rewrite Hc|by rewrite Hs2].
Defined.

Lemma scheduler_create_spec_witness :
  wp (scheduler_create 0 4096 1024 (Some (Descriptor 77 0 5 SCHEDULER_TASK_STACK_CHECK 9 0))) (λ r s', quiescent s' ∧
    (4096 = 0 ∨ Some (Descriptor 77 0 5 SCHEDULER_TASK_STACK_CHECK 9 0) = None →
     r = 0 ∧ s' = (sample no_regs) <| s_errno := EINVAL |>)) (sample no_regs).
Proof.
  apply (scheduler_create_spec 0 4096 1024 (Some (Descriptor 77 0 5 SCHEDULER_TASK_STACK_CHECK 9 0))); [apply sample_quiescent|].
  intros d' [= <-] _. split; try done.
  intros c. unfold current, cls, sample. cbn. destruct (decide (c = 0)) as [->|Hc]; [by vm_compute|]. by rewrite lookup_insert_ne.
Defined.
