(* ===== verification/MutexFrame.v ===== *)
(** * A mutex among the events of the scheduler

    The word and the futex of a mutex, and what an event that is not about them
    leaves of them: the word as it is, and nobody new in the queue. *)
From S2P Require Import Prelude Scheduler SchedulerSvc SchedulerApi SchedulerInv SchedulerSafe SchedulerWake SchedulerHandlers SchedulerSwitch SchedulerSystem.

Section frame.
Context (a f : Z).

(** No other futex compares the word; the futex keeps its three fields. *)
Record sole_futex (flags : Z) (s : sched) : Prop := {
  gd_futex : ∃ l, futex_at s !! f = Some (Futex a l flags SCHEDULER_FUTEX_MARKER);
  gd_only g fx : futex_at s !! g = Some fx → f_value fx = a → g = f
}.

(** The tasks that may be in the queue, and the word, when it is to stay; no slot
    defers a wake of the futex. *)
Record queued_in (flags : Z) (word : option Z) (l : list Z) (s : sched) : Prop := {
  qi_guarded : sole_futex flags s;
  qi_word v : word = Some v → word_at s !! a = Some v;
  qi_waiters l' : queue s (waiters f) = Some l' → l' ⊆ l;
  qi_tasks t tk : task_at s !! t = Some tk → t_current_queue tk = Some (waiters f) → t ∈ l;
  qi_slots c w : w ∈ deferred_wake (cls s c) → w = 0 ∨ Z.land w (not32 1) ≠ f
}.

Lemma futex_value flags g fx s : sole_futex flags s → futex_at s !! g = Some fx → g ≠ f → f_value fx ≠ a.
Proof. intros Hg Hfx Hne Ha. by apply Hne, (gd_only _ _ Hg _ fx). Qed.

(** ** The steps of the scheduler's code *)
Section steps.
Context (flags : Z) (word : option Z) (l : list Z).
Notation kept := (queued_in flags word l).

Lemma queued_mono s s' :
  futex_at s' = futex_at s → task_at s' = task_at s → cpu_at s' = cpu_at s →
  (∀ v, word = Some v → word_at s !! a = Some v → word_at s' !! a = Some v) → kept s → kept s'.
Proof.
  intros Ef Et Ec Ev [[Hf Ho] Hv Hw Ht Hs]. split.
  - split; rewrite Ef; [exact Hf|exact Ho].
  - intros v E. by apply Ev, Hv.
  - cbn [queue]. by rewrite Ef.
  - by rewrite Et.
  - intros c. unfold cls. rewrite Ec. apply Hs.
Qed.

Lemma kept_upd_task t g :
  (∀ tk, t_current_queue (g tk) = Some (waiters f) → t_current_queue tk = Some (waiters f) ∨ t ∈ l) →
  keeps kept (upd_task t g).
Proof.
  intros Hg s [] s' [Hgd Hv Hw Ht Hs]. unfold upd_task, get_task, bind, get_opt, upd.
  destruct (task_at s !! t) as [tk|] eqn:E; [|done]. intros [= <-]. split; [by destruct Hgd|done|done| |done].
  intros u uk. rsimp. rewrite lookup_insert. case_decide as Hu; [|by apply Ht]. subst u.
  intros [= <-] Hq. apply Hg in Hq as [Hq|?]; [by eapply Ht|done].
Qed.

Lemma kept_tasks g s : (∀ tk, t_current_queue (g tk) = t_current_queue tk) → kept s → kept (s <| task_at ::= fmap g |>).
Proof.
  intros Hg [Hgd Hv Hw Ht Hs]. split; [by destruct Hgd|done|done| |done].
  intros t tk. rsimp. rewrite lookup_fmap. destruct (task_at s !! t) as [tk0|] eqn:E; [|done].
  intros [= <-]. rewrite Hg. by apply Ht.
Qed.

Lemma kept_unlink t s : kept s → kept (unlink_queue_node t s).
Proof.
  intros [[[l0 Hf] Ho] Hv Hw Ht Hs]. split; [|unfold unlink_queue_node..].
  - split.
    + exists (without t l0). unfold unlink_queue_node. rsimp. by rewrite lookup_fmap, Hf.
    + intros g fx. unfold unlink_queue_node. rsimp. rewrite lookup_fmap.
      destruct (futex_at s !! g) as [fx0|] eqn:E; [|done]. intros [= <-]. by apply (Ho _ fx0).
  - exact Hv.
  - cbn [queue]. rsimp. rewrite lookup_fmap, Hf. intros l' [= <-]. cbn.
    intros x [_ Hx]%elem_of_without. apply (Hw l0); [cbn [queue]; by rewrite Hf|done].
  - exact Ht.
  - exact Hs.
Qed.

Lemma kept_set_queue q l' : (q = waiters f → l' ⊆ l) → keeps kept (set_queue q l').
Proof.
  intros Hl s [] s' [[[l0 Hf] Ho] Hv Hw Ht Hs]. destruct q as [|g]; cbn [set_queue].
  - intros [= <-]. split; try done. split; [by exists l0|done].
  - unfold upd_futex, get_futex, bind, get_opt, upd. destruct (futex_at s !! g) as [fx|] eqn:E; [|done]. intros [= <-].
    split; try done.
    + split.
      * destruct (decide (g = f)) as [->|Hne]; rsimp; [|exists l0; by rewrite lookup_insert_ne].
        exists l'. rewrite lookup_insert_eq. rewrite Hf in E. by injection E as <-.
      * intros h hx. rsimp. rewrite lookup_insert. case_decide as Hh; [subst h|by apply Ho].
        intros [= <-]. rsimp. by apply (Ho _ fx).
    + cbn [queue]. rsimp. intros l2. rewrite lookup_insert. case_decide as Hh; [|apply (Hw l2)].
      subst g. cbn. intros [= <-]. by apply Hl.
Qed.

Lemma kept_push q t : (q = waiters f → t ∈ l) → keeps kept (sched_queue_push q t).
Proof.
  intros Hq. unfold sched_queue_push. apply keeps_bind; [apply keeps_get_opt|intros tk].
  apply keeps_bind; [keeps_steps|intros _]. apply keeps_bind; [apply keeps_gets|intros b].
  apply keeps_bind; [keeps_steps|intros _]. apply keeps_bind; [apply keeps_get|intros s0].
  apply keeps_bind_val; [apply keeps_get_opt|]. intros s l0 s1 Hk Hl0. apply keeps_bind; [|intros _].
  - apply kept_set_queue. intros Eq. specialize (Hq Eq). subst q. intros x [->|Hx]%elem_of_place; [done|].
    unfold get_queue, get_opt in Hl0. destruct (queue s (waiters f)) as [l1|] eqn:E; [|done].
    injection Hl0 as <- <-. by apply (qi_waiters _ _ _ _ Hk l1).
  - apply kept_upd_task. intros tk0 [= E]. right. by apply Hq.
Qed.

Lemma kept_remove t : keeps kept (sched_queue_remove t).
Proof.
  unfold sched_queue_remove. apply keeps_bind; [apply keeps_get_opt|intros _].
  apply keeps_bind; [apply keeps_upd; intros s; apply kept_unlink|intros _]. by apply kept_upd_task.
Qed.

Lemma kept_reprioritize t p : keeps kept (sched_queue_reprioritize t p).
Proof.
  unfold sched_queue_reprioritize. apply keeps_bind; [by apply kept_upd_task; left|intros _].
  apply keeps_bind_val; [apply keeps_get_opt|]. intros s tk s1 Hk Htk. destruct (t_current_queue tk) as [q|] eqn:Eq; [|apply keeps_ret].
  apply keeps_bind; [apply kept_remove|intros _]. apply kept_push. intros ->.
  unfold get_task, get_opt in Htk. destruct (task_at s !! t) as [tk1|] eqn:E; [|done]. injection Htk as -> _.
  by apply (qi_tasks _ _ _ _ Hk _ tk).
Qed.

Lemma kept_upd_cls core g :
  (∀ c w, w ∈ deferred_wake (g c) → w ∈ deferred_wake c ∨ w = 0 ∨ Z.land w (not32 1) ≠ f) → keeps kept (upd_cls core g).
Proof.
  intros Hg. apply keeps_upd. intros s [Hgd Hv Hw Ht Hs]. split; [by destruct Hgd|done|done|done|].
  intros c w. unfold cls. rsimp. rewrite lookup_insert. case_decide as Hc; [subst c; cbn|apply Hs].
  intros [Hin|?]%Hg; [|done]. by apply (Hs core).
Qed.

Lemma kept_word b v : word = None ∨ b ≠ a → keeps kept (set_word b v).
Proof.
  intros Hb. apply keeps_bind; [apply keeps_get_opt|intros _]. apply keeps_upd. intros s.
  apply queued_mono; [done..|]. intros w Hw E. destruct Hb as [?|Hb]; [congruence|]. rsimp. by rewrite lookup_insert_ne.
Qed.

Lemma kept_bind_futex {B} g (k : futex → SM B) :
  g ≠ f → (∀ fx, f_value fx ≠ a → keeps kept (k fx)) → keeps kept (fx <- get_futex g ;; k fx).
Proof.
  intros Hg Hk. apply keeps_bind_val; [apply keeps_get_opt|]. intros s fx s1 Hs E. apply Hk.
  unfold get_futex, get_opt in E. destruct (futex_at s !! g) as [fx0|] eqn:Eg; [|done]. injection E as -> _.
  eapply futex_value; [apply Hs|done|done].
Qed.

Lemma kept_compare_exchange b e d : word = None ∨ b ≠ a → keeps kept (compare_exchange b e d).
Proof.
  intros Hb. unfold compare_exchange. apply keeps_bind; [apply keeps_get_opt|intros w]. apply keeps_if; [|apply keeps_ret].
  apply keeps_bind; [by apply kept_word|intros _; apply keeps_ret].
Qed.

Lemma kept_highest q : keeps kept (sched_queue_highest_priority q).
Proof.
  unfold sched_queue_highest_priority. apply keeps_bind; [apply keeps_get_opt|intros [|t ?]]; [apply keeps_ret|].
  apply keeps_bind; [apply keeps_get_opt|intros; apply keeps_ret].
Qed.
End steps.

(** One step of the proof that a piece of the scheduler leaves the mutex alone. *)
(** The walk over the tasks writes nothing. *)
Lemma keeps_viable (P : sched → Prop) : keeps P scheduler_is_viable.
Proof.
  apply keeps_bind; [apply keeps_gets|intros tasks]. induction tasks as [|t tasks IH]; cbn [viable_among]; [apply keeps_ret|].
  unfold marked_task, get_task. keeps_steps.
Qed.

Ltac kept_step :=
  first
  [ apply kept_push; [intros [=]; subst; done]
  | apply kept_push; done
  | apply kept_remove
  | apply kept_reprioritize
  | apply kept_highest
  | apply kept_word; (by left) || (by right)
  | apply kept_compare_exchange; (by left) || (by right)
  | apply kept_bind_futex; [done|intros ? ?]
  | apply kept_upd_task; (by left) || (by intros ? [=])
  | apply kept_upd_cls; (by left)
  | apply keeps_viable
  | apply keeps_upd; intros ? ?; first [by apply kept_unlink|by apply kept_tasks|by eapply queued_mono; [..|eassumption]]
  | keeps_step ].
Ltac kept_unfold :=
  unfold sched_queue_pop, sched_queue_empty, get_queue, scheduler_timer_push, scheduler_timer_pop, scheduler_timer_remove,
    sched_set_current, sched_get_current, scheduler_switch_hook, scheduler_request_switch, scheduler_spin_lock,
    scheduler_spin_unlock, marked_task, alive, scheduler_task_alive, add_owned, scheduler_check_stack,
    upd_frame, get_frame, get_word, get_task, set_errno.
Ltac kept_steps := kept_unfold; repeat first [kept_step | progress cbv zeta | done].

(** ** The handlers *)
Section handlers.
Context `{Environment} (core : Z).
Context (flags : Z) (word : option Z) (l : list Z).
Notation kept := (queued_in flags word l).
(** What lies outside leaves the mutex alone, too. *)
Hypothesis Hexit : ∀ h t, keeps kept (call_exit_handler h t).
Hypothesis Htick : ∀ n, keeps kept (tick_hook n).
Hypothesis Hwfi : keeps kept (wfi core).
Hypothesis Hf0 : f ≠ 0.

Lemma kept_create frame : keeps kept (scheduler_create_svc core frame).
Proof. unfold scheduler_create_svc. kept_steps. Qed.

Lemma kept_suspend frame : keeps kept (scheduler_suspend_svc core frame).
Proof. unfold scheduler_suspend_svc. kept_steps. Qed.

Lemma kept_resume frame : keeps kept (scheduler_resume_svc core frame).
Proof. unfold scheduler_resume_svc. kept_steps. Qed.

Lemma kept_tick : keeps kept (scheduler_tick core).
Proof. unfold scheduler_tick. kept_steps. Qed.

Lemma kept_terminate frame : keeps kept (scheduler_terminate_svc core frame).
Proof. unfold scheduler_terminate_svc, scheduler_terminated_hook. kept_steps. Qed.

Lemma kept_priority frame : keeps kept (scheduler_priority_svc core frame).
Proof. unfold scheduler_priority_svc. kept_steps. Qed.

(** The wake of another futex. *)
Lemma kept_highest_owned fs p : keeps kept (highest_owned fs p).
Proof. revert p. induction fs as [|g fs IH]; intros p; cbn [highest_owned]; kept_steps. Qed.

Lemma kept_wake_loop n g all woken : g ≠ f → keeps kept (wake_loop n g all woken).
Proof.
  intros Hg. revert woken. induction n as [|n IH]; intros woken; cbn [wake_loop]; [apply keeps_fail|].
  apply keeps_bind; [|intros r; apply keeps_if; [apply IH|apply keeps_ret]]. unfold wake_one. kept_steps.
Qed.

Lemma kept_wake_futex g all : g ≠ f → keeps kept (scheduler_wake_futex g all).
Proof.
  intros Hg. unfold scheduler_wake_futex. kept_steps; [apply kept_highest_owned|by apply kept_wake_loop].
Qed.

(** ** The context switch *)
Lemma slot_elsewhere c i s : kept s → deferred_wake (cls s c) !!! i = 0 ∨ Z.land (deferred_wake (cls s c) !!! i) (not32 1) ≠ f.
Proof.
  intros Hs. destruct (deferred_wake (cls s c) !! i) as [w|] eqn:E.
  - rewrite (list_lookup_total_correct _ _ _ E). eapply qi_slots; [exact Hs|by eapply list_elem_of_lookup_2].
  - right. rewrite list_lookup_total_alt, E. change (Z.land _ _) with 0. by apply not_eq_sym.
Qed.

Lemma kept_drain n i : keeps kept (drain_deferred core n i).
Proof.
  revert i. induction n as [|n IH]; intros i; cbn [drain_deferred]; [apply keeps_ret|].
  apply keeps_bind_val; [apply keeps_gets|]. intros s c s1 Hs [= <- <-]. apply keeps_if; [apply keeps_ret|]. cbv zeta.
  pose proof (slot_elsewhere core i s Hs) as Hw. set (w := deferred_wake (cls s core) !!! i) in *. clearbody w.
  apply keeps_bind; [|intros _; apply keeps_bind; [|intros _; apply IH]].
  - apply kept_upd_cls. intros c v. rsimp. intros [j Hj]%list_elem_of_lookup.
    apply list_lookup_insert_Some in Hj as [(_ & <- & _)|[_ Hj]]; [by right; left|left]. by eapply list_elem_of_lookup_2.
  - unfold when. destruct (Z.eqb_spec w 0) as [|Hz]; [apply keeps_ret|]. cbn [negb].
    apply keeps_bind; [|intros _; kept_steps]. apply kept_wake_futex. by destruct Hw.
Qed.

Lemma kept_expire n : keeps kept (expire_timers n).
Proof. induction n as [|n IH]; cbn [expire_timers]; [apply keeps_fail|]. unfold expire_one. kept_steps. Qed.

Lemma kept_next : keeps kept (next_task core).
Proof.
  unfold next_task, evict, scheduler_terminated_hook, scheduler_idle_hook.
  apply keeps_bind; [apply kept_drain|intros _]. apply keeps_bind; [apply keeps_gets|intros ts].
  apply keeps_bind; [apply kept_expire|intros _]. kept_steps.
Qed.

Lemma kept_kick cs : keeps kept (kick_cores core cs).
Proof. induction cs as [|c cs IH]; cbn [kick_cores]; [apply keeps_ret|]. unfold kick_core. kept_steps. Qed.

Lemma kept_select n : keeps kept (select_task core n).
Proof.
  induction n as [|n IH]; cbn [select_task]; [apply keeps_fail|]. apply keeps_bind; [apply kept_next|intros [| |]]; kept_steps.
Qed.

Lemma kept_switch n frame : keeps kept (scheduler_switch core n frame).
Proof.
  unfold scheduler_switch, dispatch. kept_steps; [apply kept_select|apply kept_kick].
Qed.

(** ** Futex calls *)
Lemma frame_known {A} frame fr (k : Scheduler.frame → SM A) s x s' :
  frame_at s !! frame = Some fr → (fr <- get_frame frame ;; k fr) s = Done x s' → k fr s = Done x s'.
Proof. intros Hfr. unfold bind, get_frame, get_opt. by rewrite Hfr. Qed.

Lemma kept_wait_elsewhere frame fr s x s' :
  frame_at s !! frame = Some fr → r0 fr ≠ f → kept s → scheduler_wait_svc core frame s = Done x s' → kept s'.
Proof.
  intros Hfr Hne Hs E. unfold scheduler_wait_svc in E. apply (frame_known _ fr) in E; [|done]. revert Hs E.
  apply (kept_bind_futex flags word l); [done|]. intros fx Hv. kept_steps.
Qed.

Lemma kept_wake_elsewhere frame fr s x s' :
  frame_at s !! frame = Some fr → r0 fr ≠ f → kept s → scheduler_wake_svc core frame s = Done x s' → kept s'.
Proof.
  intros Hfr Hne Hs E. unfold scheduler_wake_svc in E. apply (frame_known _ fr) in E; [|done]. revert Hs E.
  match goal with |- _ → ?m _ = _ → _ => enough (keeps kept m) as Hm by (intros ??; by eapply Hm) end.
  kept_unfold. repeat first [by apply kept_wake_futex|kept_step]; done.
Qed.

Lemma kept_defer n i w : Z.land w (not32 1) ≠ f → keeps kept (defer_wake core n i w).
Proof.
  intros Hw. revert i. induction n as [|n IH]; intros i; cbn [defer_wake]; [kept_steps|].
  apply keeps_bind; [apply keeps_gets|intros slot]. apply keeps_if; [|apply keeps_if; [apply keeps_ret|apply IH]].
  apply keeps_bind; [|intros _; kept_steps]. apply kept_upd_cls. intros c v. rsimp. intros [j Hj]%list_elem_of_lookup.
  apply list_lookup_insert_Some in Hj as [(_ & <- & _)|[_ Hj]]; [by right; right|left]. by eapply list_elem_of_lookup_2.
Qed.

Lemma kept_lock : keeps kept scheduler_lock.
Proof. unfold scheduler_lock, asserted_running. kept_steps. Qed.

Lemma kept_unlock : keeps kept scheduler_unlock.
Proof. unfold scheduler_unlock, asserted_running. kept_steps. Qed.
End handlers.

(** The wait for the mutex itself adds the caller to the queue. *)
Lemma bind_done {S A B} (m : M S A) (k : A → M S B) s b s' :
  bind m k s = Done b s' → ∃ x s1, m s = Done x s1 ∧ k x s1 = Done b s'.
Proof. unfold bind. destruct (m s) as [x s1|]; [|done]. intros E. by exists x, s1. Qed.

Lemma get_current_done core s t s1 : sched_get_current core s = Done t s1 → t = current s core ∧ s1 = s.
Proof.
  unfold sched_get_current, marked_task, bind, gets, when, get_task, get_opt, assert, ret, fail.
  destruct (negb _); [|by intros [= <- <-]]. destruct (task_at s !! _) as [tk|]; [|done].
  destruct (_ =? _); [|done]. by intros [= <- <-].
Qed.

Lemma kept_wait_here core flags l frame fr s x s' :
  frame_at s !! frame = Some fr → r0 fr = f → current s core ∈ l → queued_in flags None l s →
  scheduler_wait_svc core frame s = Done x s' → queued_in flags None l s'.
Proof.
  intros Hfr Hr Hc Hs E. unfold scheduler_wait_svc in E. apply (frame_known _ fr) in E; [|done].
  cbv zeta in E. rewrite Hr in E. apply bind_done in E as (fx & s1 & Efx & E).
  assert (s1 = s) as ->. { unfold get_futex, get_opt in Efx. destruct (futex_at s !! f); [|done]. by injection Efx. }
  apply bind_done in E as (t & s1 & Et & E). apply get_current_done in Et as [-> ->].
  set (t := current s core) in *. clearbody t. clear Efx. revert Hs E.
  match goal with |- _ → ?m _ = _ → _ => enough (keeps (queued_in flags None l) m) as Hm by (intros ??; by eapply Hm) end.
  kept_steps.
Qed.

(** A wake of the futex itself: the word may change, nobody joins the queue. *)
Lemma kept_wake_loop_here flags l n g all woken : keeps (queued_in flags None l) (wake_loop n g all woken).
Proof.
  revert woken. induction n as [|n IH]; intros woken; cbn [wake_loop]; [apply keeps_fail|].
  apply keeps_bind; [|intros r; apply keeps_if; [apply IH|apply keeps_ret]]. unfold wake_one, get_futex. kept_steps.
Qed.

Lemma kept_wake_here core flags l frame fr s x s' :
  frame_at s !! frame = Some fr → queued_in flags None l s → scheduler_wake_svc core frame s = Done x s' → queued_in flags None l s'.
Proof.
  intros Hfr Hs E. unfold scheduler_wake_svc in E. apply (frame_known _ fr) in E; [|done]. revert Hs E.
  match goal with |- _ → ?m _ = _ → _ => enough (keeps (queued_in flags None l) m) as Hm by (intros ??; by eapply Hm) end.
  assert (∀ g all, keeps (queued_in flags None l) (scheduler_wake_futex g all)) as Hw.
  { intros g all. unfold scheduler_wake_futex, get_futex. kept_steps; [apply kept_highest_owned|apply kept_wake_loop_here]. }
  unfold get_futex. kept_unfold. repeat first [apply Hw|kept_step]; done.
Qed.
End frame.

(** ** Events *)
Section events.
Context `{EnvironmentLaws} `{Trap} (a f flags : Z).

(** The hooks of the environment have nothing to do with the mutex. *)
Class Unaware : Prop := {
  unaware_exit h t word l : keeps (queued_in a f flags word l) (call_exit_handler h t);
  unaware_tick n word l : keeps (queued_in a f flags word l) (tick_hook n);
  unaware_wfi core word l : keeps (queued_in a f flags word l) (wfi core)
}.
Context {Hun : Unaware}.

(** An event that is not about the mutex. *)
Definition foreign (e : event) (s : sched) : Prop :=
  match e with
  | ServiceCall _ frame (SvcWait | SvcWake) => ∀ fr, frame_at s !! frame = Some fr → r0 fr ≠ f
  | Store b _ => b ≠ a
  | InitFutex g value _ => g ≠ f ∧ value ≠ a
  | DeferWake _ g _ => g ≠ f
  | _ => True
  end.

Lemma kept_init g value fl word l s :
  g ≠ f → value ≠ a → queued_in a f flags word l s → queued_in a f flags word l (with_futex s g value fl).
Proof.
  intros Hg Hv [[[l0 Hf] Ho] Hw Hq Ht Hs]. unfold with_futex. split; try done.
  - split; [exists l0; rsimp; by rewrite lookup_insert_ne|]. intros h hx. rsimp. rewrite lookup_insert. case_decide; [|apply Ho].
    by intros [= <-] ?.
  - cbn [queue]. rsimp. rewrite lookup_insert_ne by done. exact Hq.
Qed.

Lemma foreign_kept e word l s s' : f ≠ 0 → admissible s e → foreign e s → queued_in a f flags word l s →
  run_event e s = Done tt s' → queued_in a f flags word l s'.
Proof.
  intros Hf0 Ha Hf Hs E.
  pose proof (λ h t, unaware_exit h t word l) as Hx. pose proof (λ n, unaware_tick n word l) as Ht.
  pose proof (λ c, unaware_wfi c word l) as Hwf.
  destruct e as [core frame svc|core frame fuel|core|core g all|b fr|b v|g value fl| |]; cbn [run_event admissible foreign] in *.
  - destruct Ha as (fr & Hfr & Ha). destruct svc; cbn [run_service] in E.
    + by eapply kept_create.
    + revert Hs E. unfold scheduler_yield_svc, scheduler_request_switch. destruct (negb _); [|by intros ? [= <-]].
      apply kept_upd_cls. by left.
    + by eapply kept_suspend.
    + by eapply kept_resume.
    + eapply kept_wait_elsewhere; eauto.
    + eapply kept_wake_elsewhere; eauto.
    + by eapply kept_terminate.
    + by eapply kept_priority.
  - apply bind_done in E as (x & s1 & E & [= <-]). by eapply kept_switch.
  - by eapply kept_tick.
  - destruct Ha as [fx Hw]. apply bind_done in E as (x & s1 & E & [= <-]).
    destruct (iw_address _ _ _ _ Hw) as (Hr & He & Hz). destruct (slot_futex g all Hr He Hz) as [Hsl _].
    unfold scheduler_futex_wake in E. apply bind_done in E as (fx1 & s2 & E1 & E).
    assert (s2 = s) as ->.
    { unfold marked_futex, get_futex, bind, get_opt, assert in E1. destruct (futex_at s !! g) as [fx2|]; [|done].
      destruct (negb _ && _); [|done]. by injection E1. }
    apply bind_done in E as (irq & s2 & [= <- <-] & E). replace (ipsr (cls s core) =? 0) with false in E by (pose proof (iw_irq _ _ _ _ Hw); lia).
    cbn [negb] in E. destruct (has _ _).
    + revert Hs E. apply keeps_bind; [|intros _; apply keeps_ret]. apply keeps_upd. intros s0. by apply queued_mono.
    + revert Hs E. apply kept_defer. by rewrite Hsl.
  - injection E as <-. by apply (queued_mono a f flags word l s).
  - revert Hs E. apply kept_word. by right.
  - unfold scheduler_futex_init in E. apply bind_done in E as ([] & s1 & E1 & [= <-]).
    assert (s1 = s) as -> by (destruct (negb _); by inversion E1). destruct Hf. by apply kept_init.
  - apply bind_done in E as (x & s1 & E & [= <-]). by eapply kept_lock.
  - apply bind_done in E as (x & s1 & E & [= <-]). by eapply kept_unlock.
Qed.
End events.
