(* ===== verification/WordFrame.v ===== *)
(** * A counting word among the events of the scheduler

    The word of an object whose futex tracks neither owner nor contention: no
    event of the scheduler changes it, not even a wait or a wake of its futex. *)
From S2P Require Import Prelude Scheduler SchedulerSvc SchedulerApi SchedulerInv SchedulerSafe SchedulerWake SchedulerHandlers SchedulerSwitch SchedulerSystem MutexFrame.

(** The futex leaves its word alone. *)
Definition untracked (fx : futex) : Prop :=
  has (f_flags fx) SCHEDULER_FUTEX_OWNER_TRACKING = false ∧ has (f_flags fx) SCHEDULER_FUTEX_CONTENTION_TRACKING = false.

Section frame.
Context (a v : Z).

Record plain_word (s : sched) : Prop := {
  pw_word : word_at s !! a = Some v;
  pw_futex g fx : futex_at s !! g = Some fx → f_value fx = a → untracked fx
}.

(** ** The steps of the scheduler's code *)
Lemma plain_mono s s' :
  word_at s' !! a = word_at s !! a → (∀ g, futex_id <$> futex_at s' !! g = futex_id <$> futex_at s !! g) →
  plain_word s → plain_word s'.
Proof.
  intros Ew Ef [Hw Hf]. split; [by rewrite Ew|]. intros g fx' Hg Hv. specialize (Ef g). rewrite Hg in Ef.
  destruct (futex_at s !! g) as [fx|] eqn:E; [|done]. cbn in Ef. injection Ef as E1 E2 _.
  unfold untracked. rewrite E2. apply (Hf g fx); [done|congruence].
Qed.

Lemma plain_upd_futex g h : (∀ fx, futex_id (h fx) = futex_id fx) → keeps plain_word (upd_futex g h).
Proof.
  intros Hh s [] s' Hs. unfold upd_futex, get_futex, bind, get_opt, upd. destruct (futex_at s !! g) as [fx|] eqn:E; [|done].
  intros [= <-]. apply (plain_mono s); [done| |exact Hs]. intros i. rsimp. rewrite lookup_insert. case_decide; [subst|done].
  by rewrite E; cbn; rewrite Hh.
Qed.

Lemma plain_set_queue q l : keeps plain_word (set_queue q l).
Proof. destruct q; cbn [set_queue]; [apply keeps_upd; intros s; by apply plain_mono|by apply plain_upd_futex]. Qed.

Lemma plain_unlink t s : plain_word s → plain_word (unlink_queue_node t s).
Proof. apply plain_mono; [done|]. intros g. unfold unlink_queue_node. rsimp. rewrite lookup_fmap. by destruct (futex_at s !! g). Qed.

Lemma plain_set_word b w : b ≠ a → keeps plain_word (set_word b w).
Proof.
  intros Hb. apply keeps_bind; [apply keeps_get_opt|intros _]. apply keeps_upd. intros s. apply plain_mono; [|done].
  rsimp. by rewrite lookup_insert_ne.
Qed.

Lemma plain_exchange b e d : b ≠ a ∨ d = e → keeps plain_word (compare_exchange b e d).
Proof.
  intros Hb s [ok w] s' Hs. unfold compare_exchange, get_word, set_word, bind, get_opt, upd, ret.
  destruct (word_at s !! b) as [x|] eqn:E; [|done]. destruct (Z.eqb_spec x e) as [->|]; [|by intros [= <- <- <-]].
  unfold get_word, get_opt. rewrite E. intros [= <- <- <-]. apply (plain_mono s); [|done|exact Hs]. rsimp.
  rewrite lookup_insert. case_decide; [subst b|done]. destruct Hb as [?| ->]; [done|by rewrite E].
Qed.

Lemma plain_bind_futex {B} g (k : futex → SM B) :
  (∀ fx, f_value fx ≠ a ∨ untracked fx → keeps plain_word (k fx)) → keeps plain_word (fx <- get_futex g ;; k fx).
Proof.
  intros Hk. apply keeps_bind_val; [apply keeps_get_opt|]. intros s fx s1 Hs E. apply Hk.
  unfold get_futex, get_opt in E. destruct (futex_at s !! g) as [fx0|] eqn:Eg; [|done]. injection E as -> _.
  destruct (decide (f_value fx = a)); [right|by left]. by eapply pw_futex.
Qed.

(** The stores a wake makes when the futex tracks something. *)
Lemma plain_when_owner fx m : (f_value fx ≠ a ∨ untracked fx) → (f_value fx ≠ a → keeps plain_word m) →
  keeps plain_word (when (has (f_flags fx) SCHEDULER_FUTEX_OWNER_TRACKING) m).
Proof. intros [Hv|[-> _]] Hm; [|apply keeps_ret]. apply keeps_if; [by apply Hm|apply keeps_ret]. Qed.
Lemma plain_when_contended fx m : (f_value fx ≠ a ∨ untracked fx) → (f_value fx ≠ a → keeps plain_word m) →
  keeps plain_word (when (has (f_flags fx) SCHEDULER_FUTEX_CONTENTION_TRACKING) m).
Proof. intros [Hv|[_ ->]] Hm; [|apply keeps_ret]. apply keeps_if; [by apply Hm|apply keeps_ret]. Qed.

Lemma contended_untracked fx e : f_value fx ≠ a ∨ untracked fx → f_value fx ≠ a ∨ contended (f_flags fx) e = e.
Proof. intros [?|[_ E]]; [by left|right]. unfold contended. by rewrite E. Qed.

Ltac plain_step :=
  first
  [ apply plain_set_queue
  | apply plain_when_owner; [assumption|intros ?]
  | apply plain_when_contended; [assumption|intros ?]
  | apply plain_set_word; assumption
  | apply keeps_viable
  | apply plain_exchange; by apply contended_untracked
  | apply plain_bind_futex; intros ? ?
  | apply keeps_upd; intros ?; first [by apply plain_unlink|by apply plain_mono]
  | keeps_step ].
Ltac plain_unfold :=
  unfold sched_queue_pop, sched_queue_reprioritize, sched_queue_remove, sched_queue_push, sched_queue_empty,
    sched_queue_highest_priority, get_queue, scheduler_timer_push, scheduler_timer_pop, scheduler_timer_remove,
    sched_set_current, sched_get_current, scheduler_switch_hook, scheduler_request_switch, scheduler_spin_lock,
    scheduler_spin_unlock, marked_task, alive, scheduler_task_alive, add_owned, scheduler_check_stack,
    upd_cls, upd_task, upd_frame, get_frame, get_word, get_task, set_errno.
Ltac plain_steps := plain_unfold; repeat first [plain_step | progress cbv zeta | done].

(** ** The handlers *)
Section handlers.
Context `{Environment} (core : Z).
Hypothesis Hexit : ∀ h t, keeps plain_word (call_exit_handler h t).
Hypothesis Htick : ∀ n, keeps plain_word (tick_hook n).
Hypothesis Hwfi : keeps plain_word (wfi core).

Lemma plain_create frame : keeps plain_word (scheduler_create_svc core frame).
Proof. unfold scheduler_create_svc. plain_steps. Qed.
Lemma plain_suspend frame : keeps plain_word (scheduler_suspend_svc core frame).
Proof. unfold scheduler_suspend_svc. plain_steps. Qed.
Lemma plain_resume frame : keeps plain_word (scheduler_resume_svc core frame).
Proof. unfold scheduler_resume_svc. plain_steps. Qed.
Lemma plain_tick : keeps plain_word (scheduler_tick core).
Proof. unfold scheduler_tick. plain_steps. Qed.
Lemma plain_terminate frame : keeps plain_word (scheduler_terminate_svc core frame).
Proof. unfold scheduler_terminate_svc, scheduler_terminated_hook. plain_steps. Qed.
Lemma plain_priority frame : keeps plain_word (scheduler_priority_svc core frame).
Proof. unfold scheduler_priority_svc. plain_steps. Qed.
Lemma plain_wait frame : keeps plain_word (scheduler_wait_svc core frame).
Proof. unfold scheduler_wait_svc. plain_steps. Qed.

Lemma plain_highest_owned fs p : keeps plain_word (highest_owned fs p).
Proof. revert p. induction fs as [|g fs IH]; intros p; cbn [highest_owned]; plain_steps. Qed.
Lemma plain_wake_loop n g all woken : keeps plain_word (wake_loop n g all woken).
Proof.
  revert woken. induction n as [|n IH]; intros woken; cbn [wake_loop]; [apply keeps_fail|].
  apply keeps_bind; [|intros r; apply keeps_if; [apply IH|apply keeps_ret]]. unfold wake_one. plain_steps.
Qed.
Lemma plain_wake_futex g all : keeps plain_word (scheduler_wake_futex g all).
Proof.
  unfold scheduler_wake_futex. apply plain_bind_futex. intros fx Hfx. apply keeps_bind; [|intros _; apply keeps_bind; [apply plain_wake_loop|intros woken]].
  - apply keeps_if; [|apply keeps_ret]. plain_steps. apply plain_highest_owned.
  - plain_steps.
Qed.
Lemma plain_wake frame : keeps plain_word (scheduler_wake_svc core frame).
Proof.
  unfold scheduler_wake_svc. plain_unfold. repeat first [by apply plain_wake_futex|plain_step|progress cbv zeta|done].
Qed.

(** ** The context switch *)
Lemma plain_drain n i : keeps plain_word (drain_deferred core n i).
Proof.
  revert i. induction n as [|n IH]; intros i; cbn [drain_deferred]; [apply keeps_ret|]. plain_unfold.
  repeat first [by apply plain_wake_futex|by apply IH|plain_step|progress cbv zeta|done].
Qed.
Lemma plain_expire n : keeps plain_word (expire_timers n).
Proof. induction n as [|n IH]; cbn [expire_timers]; [apply keeps_fail|]. unfold expire_one. plain_steps. Qed.
Lemma plain_next : keeps plain_word (next_task core).
Proof.
  unfold next_task, evict, scheduler_terminated_hook, scheduler_idle_hook.
  apply keeps_bind; [apply plain_drain|intros _]. apply keeps_bind; [apply keeps_gets|intros ts].
  apply keeps_bind; [apply plain_expire|intros _]. plain_steps.
Qed.
Lemma plain_kick cs : keeps plain_word (kick_cores core cs).
Proof. induction cs as [|c cs IH]; cbn [kick_cores]; [apply keeps_ret|]. unfold kick_core. plain_steps. Qed.
Lemma plain_select n : keeps plain_word (select_task core n).
Proof. induction n as [|n IH]; cbn [select_task]; [apply keeps_fail|]. apply keeps_bind; [apply plain_next|intros [| |]]; plain_steps. Qed.
Lemma plain_switch n frame : keeps plain_word (scheduler_switch core n frame).
Proof. unfold scheduler_switch, dispatch. plain_steps; [apply plain_select|apply plain_kick]. Qed.

(** ** Calls *)
Lemma plain_defer n i w : keeps plain_word (defer_wake core n i w).
Proof. revert i. induction n as [|n IH]; intros i; cbn [defer_wake]; plain_steps. Qed.
Lemma plain_lock : keeps plain_word scheduler_lock.
Proof. unfold scheduler_lock, asserted_running. plain_steps. Qed.
Lemma plain_unlock : keeps plain_word scheduler_unlock.
Proof. unfold scheduler_unlock, asserted_running. plain_steps. Qed.
Lemma plain_init g value flags : value ≠ a ∨ untracked (Futex value [] flags SCHEDULER_FUTEX_MARKER) →
  keeps plain_word (scheduler_futex_init g value flags).
Proof.
  intros Hv. unfold scheduler_futex_init. apply keeps_bind; [keeps_steps|intros _]. apply keeps_upd. intros s [Hw Hf].
  split; [done|]. intros h fx. rsimp. rewrite lookup_insert. case_decide; [|by apply Hf]. intros [= <-] E. cbn in E. by destruct Hv.
Qed.
End handlers.
End frame.

(** ** Events *)
Section events.
Context `{Environment} `{Trap} (a : Z).

(** The hooks of the environment leave the word alone. *)
Class Heedless : Prop := {
  heedless_exit v h t : keeps (plain_word a v) (call_exit_handler h t);
  heedless_tick v n : keeps (plain_word a v) (tick_hook n);
  heedless_wfi v core : keeps (plain_word a v) (wfi core)
}.
Context {Hun : Heedless}.

(** An event that is not a store to the word. *)
Definition no_store (e : event) : Prop :=
  match e with
  | Store b _ => b ≠ a
  | InitFutex _ value flags => value ≠ a ∨ untracked (Futex value [] flags SCHEDULER_FUTEX_MARKER)
  | _ => True
  end.

Lemma event_plain e v s s' : admissible s e → no_store e → plain_word a v s → run_event e s = Done tt s' → plain_word a v s'.
Proof.
  intros Ha Hf Hs E. pose proof (λ h t, heedless_exit v h t) as Hx. pose proof (λ n, heedless_tick v n) as Ht.
  pose proof (λ c, heedless_wfi v c) as Hwf.
  destruct e as [core frame svc|core frame fuel|core|core g all|b fr|b w|g value fl| |]; cbn [run_event no_store] in *.
  - destruct svc; cbn [run_service] in E.
    + by eapply plain_create.
    + revert Hs E. unfold scheduler_yield_svc, scheduler_request_switch, upd_cls. destruct (negb _); [|by intros ? [= <-]].
      apply keeps_upd. intros s0. by apply plain_mono.
    + by eapply plain_suspend.
    + by eapply plain_resume.
    + by eapply plain_wait.
    + by eapply plain_wake.
    + by eapply plain_terminate.
    + by eapply plain_priority.
  - apply bind_done in E as (x & s1 & E & [= <-]). by eapply plain_switch.
  - by eapply plain_tick.
  - destruct Ha as [fx Hw]. apply bind_done in E as (x & s1 & E & [= <-]).
    unfold scheduler_futex_wake in E. apply bind_done in E as (fx1 & s2 & E1 & E).
    assert (plain_word a v s2) as Hs2.
    { revert Hs E1. unfold marked_futex, get_futex. apply keeps_bind; [apply keeps_get_opt|intros ?; keeps_steps]. }
    assert (s2 = s) as ->.
    { unfold marked_futex, get_futex, bind, get_opt, assert in E1. destruct (futex_at s !! g) as [fx2|]; [|done].
      destruct (negb _ && _); [|done]. by injection E1. }
    apply bind_done in E as (irq & s2 & [= <- <-] & E).
    replace (ipsr (cls s core) =? 0) with false in E by (pose proof (iw_irq _ _ _ _ Hw); lia). cbn [negb] in E. destruct (has _ _).
    + revert Hs E. apply keeps_bind; [|intros _; apply keeps_ret]. apply keeps_upd. intros s0. by apply plain_mono.
    + revert Hs E. apply plain_defer.
  - injection E as <-. by apply (plain_mono a v s).
  - revert Hs E. by apply plain_set_word.
  - revert Hs E. by apply plain_init.
  - apply bind_done in E as (x & s1 & E & [= <-]). by eapply plain_lock.
  - apply bind_done in E as (x & s1 & E & [= <-]). by eapply plain_unlock.
Qed.
End events.
