(* ===== verification/MutexSystem.v ===== *)
(** * Many tasks and one mutex

    Programs over one futex word as trees of single accesses, and the system
    that interleaves the programs of any number of tasks, access by access, with
    each other and with the events of the scheduler.  Whatever follows the
    protocol of the word ([safe]) excludes, and strands no waiter behind a word
    that does not say so. *)
From S2P Require Import Prelude Scheduler SchedulerSvc SchedulerApi SchedulerInv SchedulerSafe SchedulerWake SchedulerHandlers SchedulerSwitch SchedulerSystem WakeLaws MutexFrame.

(** ** Programs *)

(** [Local]: a step on memory of the caller's own. *)
Inductive prog (L R : Type) : Type :=
  | Ret (r : R)
  | Local (m : L) (k : Z → prog L R)
  | Read (k : Z → prog L R)
  | Cas (expected desired : Z) (k : bool → Z → prog L R)
  | Add (d : Z) (k : Z → prog L R)
  | Wait (expected ticks : Z) (k : Z → prog L R)
  | Wake (k : Z → prog L R).
Arguments Ret {L R}. Arguments Local {L R}. Arguments Read {L R}. Arguments Cas {L R}. Arguments Add {L R}. Arguments Wait {L R}. Arguments Wake {L R}.

(** What the accesses are in the state of a component. *)
Class Accesses (S : Type) := {
  acc_read : M S Z;
  acc_cas : Z → Z → M S (bool * Z);
  acc_add : Z → M S Z;
  acc_wait : Z → Z → M S Z;
  acc_wake : M S Z
}.

(** A program run alone, from one end to the other. *)
Fixpoint run {S R} `{Accesses S} (p : prog (M S Z) R) : M S R :=
  match p with
  | Ret r => ret r
  | Local m k => z <- m ;; run (k z)
  | Read k => w <- acc_read ;; run (k w)
  | Cas e d k => cx <- acc_cas e d ;; run (k cx.1 cx.2)
  | Add d k => w <- acc_add d ;; run (k w)
  | Wait e d k => z <- acc_wait e d ;; run (k z)
  | Wake k => z <- acc_wake ;; run (k z)
  end.

(** ** Runs compared *)
Section runs.
Context {S : Type}.

Lemma bind_ext {A B} (m : M S A) (k k' : A → M S B) s :
  (∀ x s', m s = Done x s' → k x s' = k' x s') → bind m k s = bind m k' s.
Proof. intros Hk. unfold bind. destruct (m s) as [x s'|] eqn:E; [by apply Hk|done]. Qed.

Lemma bind_assoc {A B C} (m : M S A) (k : A → M S B) (k' : B → M S C) s :
  bind (bind m k) k' s = bind m (λ x, bind (k x) k') s.
Proof. unfold bind. by destruct (m s). Qed.

Lemma bind_ret {A B} (x : A) (k : A → M S B) s : bind (ret x) k s = k x s.
Proof. done. Qed.

Lemma bind_at {A B} (m m' : M S A) (k : A → M S B) s : m s = m' s → bind m k s = bind m' k s.
Proof. unfold bind. by intros ->. Qed.

Lemma bind_done_eq {A B} (m : M S A) (k : A → M S B) x s s' : m s = Done x s' → bind m k s = k x s'.
Proof. unfold bind. by intros ->. Qed.
End runs.

(** A program run for one access; what is left of it. *)
Definition advance {S R} `{Accesses S} (p : prog (M S Z) R) : M S (prog (M S Z) R) :=
  match p with
  | Ret r => ret (Ret r)
  | Local m k => z <- m ;; ret (k z)
  | Read k => w <- acc_read ;; ret (k w)
  | Cas e d k => cx <- acc_cas e d ;; ret (k cx.1 cx.2)
  | Add d k => w <- acc_add d ;; ret (k w)
  | Wait e d k => z <- acc_wait e d ;; ret (k z)
  | Wake k => z <- acc_wake ;; ret (k z)
  end.

Lemma run_advance {S R} `{Accesses S} (p : prog (M S Z) R) s : run p s = (q <- advance p ;; run q) s.
Proof. destruct p; cbn [run advance]; [done|by rewrite bind_assoc..]. Qed.

Fixpoint advances {S R} `{Accesses S} (n : nat) (p : prog (M S Z) R) : M S (prog (M S Z) R) :=
  match n with
  | O => ret p
  | Datatypes.S n => q <- advance p ;; advances n q
  end.

(** ** The protocol *)
Definition valid (w : Z) : Prop := w = 0 ∨ owner_of w ≠ 0.
Definition client (t : Z) : Prop := t ≠ 0 ∧ owner_of t = t.

(** [p] keeps the protocol for [t], who knows that the word names him if [own];
    at its end [Q] holds of what he then knows and of the answer. *)
Fixpoint safe {L R} (t : Z) (Q : bool → R → Prop) (own : bool) (p : prog L R) : Prop :=
  match p with
  | Ret r => Q own r
  | Local _ k => ∀ z, safe t Q own (k z)
  | Read k => ∀ w, valid w → (own = true → owner_of w = t) → safe t Q (owner_of w =? t) (k w)
  | Cas e d k =>
      (e = 0 ∧ d = t ∧ safe t Q true (k true 0) ∧ ∀ w, w ≠ 0 → valid w → safe t Q false (k false w)) ∨
      (own = true ∧ e = t ∧ d = 0 ∧ safe t Q false (k true t) ∧ ∀ w, w ≠ t → owner_of w = t → safe t Q true (k false w))
  | Add _ _ => False
  | Wait e _ k => own = false ∧ e ≠ 0 ∧ valid e ∧ ∀ z, safe t Q false (k z)
  | Wake k => own = true ∧ ∀ z, safe t Q false (k z)
  end.

(** ** The system *)
Section system.
Context `{EnvironmentLaws} `{Trap} (a f flags : Z) {Hun : Unaware a f flags}.
Context {L R : Type} (won : R → bool) (locks unlocks : Z → prog L R → Prop).

(** Where a task is: outside, on its way in, in the critical section, on its way out. *)
Inductive phase := Outside | Locking (p : prog L R) | Inside | Unlocking (p : prog L R).

Record machine := Machine { mc_sched : sched; mc_phase : Z → phase }.

Definition set_phase (t : Z) (c : phase) (ph : Z → phase) : Z → phase := λ u, if decide (u = t) then c else ph u.

(** One access of the task that runs on [core]; what a call of the scheduler
    answers, and when, is left open, as is the answer of a local step. *)
Inductive access (core : Z) (s : sched) : prog L R → sched → prog L R → Prop :=
  | access_local m k z : access core s (Local m k) s (k z)
  | access_read k w : word_at s !! a = Some w → access core s (Read k) s (k w)
  | access_cas_done e d k : word_at s !! a = Some e →
      access core s (Cas e d k) (s <| word_at := <[a := d]> (word_at s) |>) (k true e)
  | access_cas_failed e d k w : word_at s !! a = Some w → w ≠ e → access core s (Cas e d k) s (k false w)
  | access_add d k w : word_at s !! a = Some w →
      access core s (Add d k) (s <| word_at := <[a := u32 (w + d)]> (word_at s) |>) (k w)
  | access_wait e d k z frame fr s' : frame_at s !! frame = Some fr → r0 fr = f → r1 fr = e → r2 fr = d →
      admissible s (ServiceCall core frame SvcWait) → run_event (ServiceCall core frame SvcWait) s = Done tt s' →
      access core s (Wait e d k) s' (k z)
  | access_wake k z frame fr s' : frame_at s !! frame = Some fr → r0 fr = f → r1 fr = 0 →
      admissible s (ServiceCall core frame SvcWake) → run_event (ServiceCall core frame SvcWake) s = Done tt s' →
      access core s (Wake k) s' (k z).

Inductive machine_step : machine → machine → Prop :=
  | scheduler_event e s s' ph : admissible s e → foreign a f e s → run_event e s = Done tt s' →
      machine_step (Machine s ph) (Machine s' ph)
  | starts_lock t p s ph : client t → ph t = Outside → locks t p →
      machine_step (Machine s ph) (Machine s (set_phase t (Locking p) ph))
  | locking core t p p' s s' ph : current s core = t → ph t = Locking p → access core s p s' p' →
      machine_step (Machine s ph) (Machine s' (set_phase t (Locking p') ph))
  | lock_ends t r s ph : ph t = Locking (Ret r) →
      machine_step (Machine s ph) (Machine s (set_phase t (if won r then Inside else Outside) ph))
  | starts_unlock t p s ph : ph t = Inside → unlocks t p →
      machine_step (Machine s ph) (Machine s (set_phase t (Unlocking p) ph))
  | unlocking core t p p' s s' ph : current s core = t → ph t = Unlocking p → access core s p s' p' →
      machine_step (Machine s ph) (Machine s' (set_phase t (Unlocking p') ph))
  | unlock_ends t r s ph : ph t = Unlocking (Ret r) →
      machine_step (Machine s ph) (Machine s (set_phase t Outside ph)).

Inductive machine_reaches (m0 : machine) : machine → Prop :=
  | reaches_start : machine_reaches m0 m0
  | reaches_step m m' : machine_reaches m0 m → machine_step m m' → machine_reaches m0 m'.

(** A free mutex nobody waits for. *)
Record machine_start (m : machine) : Prop := {
  st_quiescent : quiescent (mc_sched m);
  st_futex : futex_at (mc_sched m) !! f = Some (Futex a [] flags SCHEDULER_FUTEX_MARKER);
  st_only g fx : futex_at (mc_sched m) !! g = Some fx → f_value fx = a → g = f;
  st_word : word_at (mc_sched m) !! a = Some 0;
  st_phase t : mc_phase m t = Outside
}.

(** ** The invariant *)
Hypothesis Hf0 : f ≠ 0.
Hypothesis Howner : has flags SCHEDULER_FUTEX_OWNER_TRACKING = true.
Hypothesis Hcontention : has flags SCHEDULER_FUTEX_CONTENTION_TRACKING = true.
Hypothesis Hlocks : ∀ t p, client t → locks t p → safe t (λ own r, won r = true → own = true) false p.
Hypothesis Hunlocks : ∀ t p, client t → unlocks t p → safe t (λ _ _, True) true p.

(** What a task in phase [c] has proved of the word [v]. *)
Definition phase_ok (v t : Z) (c : phase) : Prop :=
  match c with
  | Outside => True
  | Inside => client t ∧ owner_of v = t
  | Locking p => client t ∧ ∃ own, (own = true → owner_of v = t) ∧ safe t (λ own r, won r = true → own = true) own p
  | Unlocking p => client t ∧ ∃ own, (own = true → owner_of v = t) ∧ safe t (λ _ _, True) own p
  end.

Record mutex_inv (v : Z) (l : list Z) (s : sched) : Prop := {
  mv_quiescent : quiescent s;
  mv_guarded : sole_futex a f flags s;
  mv_word : word_at s !! a = Some v;
  mv_queue : queue s (waiters f) = Some l;
  mv_valid : valid v;
  mv_contended : l ≠ [] → Z.testbit v 0 = true ∧ owner_of v ≠ 0;
  mv_clients t : t ∈ l → client t
}.

Definition machine_inv (m : machine) : Prop :=
  ∃ v l, mutex_inv v l (mc_sched m) ∧ ∀ t, phase_ok v t (mc_phase m t).

(** The word may change as long as nobody else loses it. *)
Lemma phase_ok_word v v' t c : (owner_of v = t → t ≠ 0 → owner_of v' = t) → phase_ok v t c → phase_ok v' t c.
Proof.
  intros Hv. destruct c as [|p| |p]; cbn; [done|..].
  - intros (Ht & own & Ho & Hs). split; [done|]. exists own. split; [|done]. intros E. apply Hv; [by apply Ho|apply Ht].
  - intros [Ht E]. split; [done|]. apply Hv; [done|apply Ht].
  - intros (Ht & own & Ho & Hs). split; [done|]. exists own. split; [|done]. intros E. apply Hv; [by apply Ho|apply Ht].
Qed.

Lemma set_phase_ok v v' t c ph :
  (∀ u, u ≠ t → owner_of v = u → u ≠ 0 → owner_of v' = u) → phase_ok v' t c → (∀ u, phase_ok v u (ph u)) →
  ∀ u, phase_ok v' u (set_phase t c ph u).
Proof.
  intros Hv Hc Hph u. unfold set_phase. case_decide as E; [by subst|]. eapply phase_ok_word; [|apply Hph]. intros ??. by apply Hv.
Qed.

Lemma owner_bit v : Z.testbit (owner_of v) 0 = false.
Proof. unfold owner_of. rewrite Z.land_spec. apply andb_false_r. Qed.

Lemma client_even t : client t → Z.testbit t 0 = false.
Proof. intros [_ <-]. apply owner_bit. Qed.

Lemma owner_of_lor v : owner_of (Z.lor v 1) = owner_of v.
Proof. unfold owner_of. rewrite Z.land_lor_distr_l. change (Z.land 1 _) with 0. apply Z.lor_0_r. Qed.

Lemma lor_bit v : Z.testbit (Z.lor v 1) 0 = true.
Proof. rewrite Z.lor_spec. apply orb_true_r. Qed.

Lemma contended_tracked e : contended flags e = Z.lor e 1.
Proof. unfold contended. by rewrite Hcontention. Qed.

Lemma owner_idem v : owner_of (owner_of v) = owner_of v.
Proof. unfold owner_of. by rewrite <-Z.land_assoc, Z.land_diag. Qed.

(** The queue may be taken for what the events see. *)
Lemma inv_queued v l s word : mutex_inv v l s → (∀ w, word = Some w → w = v) → queued_in a f flags word l s.
Proof.
  intros [Hq Hg Hw Hl _ _ _] Hword. pose proof (ix_struct _ _ (proj1 Hq)) as Hst. split.
  - done.
  - intros w ->%Hword. done.
  - intros l' E. by rewrite Hl in E; injection E as <-.
  - intros t tk Ht Htq. destruct (si_queued _ Hst t tk _ Ht Htq) as (l' & E & Hin). rewrite Hl in E. by injection E as <-.
  - intros c w Hin. destruct (decide (w = 0)) as [|Hz]; [by left|right]. intros Hwf.
    destruct (ix_deferred _ _ (proj1 Hq) c w Hin Hz) as (fx & Hfx & Hfl). rewrite Hwf in Hfx.
    destruct (gd_futex _ _ _ _ Hg) as [l0 E]. rewrite E in Hfx. injection Hfx as <-. cbn in Hfl.
    unfold has in Howner. apply negb_true_iff, Z.eqb_neq in Howner. apply Howner.
    change (Z.land flags (Z.lor SCHEDULER_FUTEX_PI SCHEDULER_FUTEX_OWNER_TRACKING) = 0) in Hfl.
    rewrite Z.land_lor_distr_r in Hfl. by apply Z.lor_eq_0_iff in Hfl as [_ ?].
Qed.

(** A sole_futex futex has a queue. *)
Lemma guarded_queue s : sole_futex a f flags s → ∃ l, queue s (waiters f) = Some l.
Proof. intros [[l E] _]. exists l. cbn [queue]. by rewrite E. Qed.

Lemma foreign_inv e v l s s' :
  mutex_inv v l s → admissible s e → foreign a f e s → run_event e s = Done tt s' → ∃ l', mutex_inv v l' s'.
Proof.
  intros Hi Ha Hf E. pose proof (foreign_kept a f flags e (Some v) l s s' Hf0 Ha Hf) as Hk.
  destruct Hk as [Hg Hw Hl _ _]; [apply (inv_queued v); [done|by intros ? [= ->]]|done|].
  destruct (guarded_queue _ Hg) as [l' Hl']. exists l'. specialize (Hl _ Hl'). destruct Hi as [Hq _ _ _ Hv Hc Hcl]. split.
  - by eapply event_kept.
  - done.
  - by apply Hw.
  - done.
  - done.
  - intros Hne. apply Hc. intros ->. destruct l' as [|u l']; [done|]. by specialize (Hl u (list_elem_of_here _ _)) as ?%elem_of_nil.
  - intros t Ht. by apply Hcl, Hl.
Qed.

(** ** The calls of the scheduler *)
Lemma wait_inv core frame fr v l s s' :
  mutex_inv v l s → frame_at s !! frame = Some fr → r0 fr = f → r1 fr ≠ 0 → valid (r1 fr) → client (current s core) →
  admissible s (ServiceCall core frame SvcWait) → run_event (ServiceCall core frame SvcWait) s = Done tt s' →
  ∃ v' l', mutex_inv v' l' s' ∧ owner_of v' = owner_of v.
Proof.
  intros Hi Hfr Hr Hz Hve Hcl Ha E. pose proof Hi as [Hq Hg Hw Hl Hv Hc Hcs].
  pose proof (event_kept _ _ _ Hq Ha E) as Hq'. cbn [run_event run_service] in E.
  assert (queued_in a f flags None (current s core :: l) s') as [Hg' _ Hin _ _].
  { eapply (kept_wait_here a f core flags _ frame fr s); [done|done|by left| |exact E].
    destruct (inv_queued v l s None Hi ltac:(done)) as [? ? Hw0 Ht0 ?]. split; try done.
    - intros l0 E0 x Hx. right. by apply (Hw0 l0).
    - intros t tk Ht Htq. right. by apply (Ht0 t tk). }
  destruct (guarded_queue _ Hg') as [l' Hl']. specialize (Hin _ Hl').
  cbn [admissible] in Ha. destruct Ha as (fr0 & Hfr0 & Hcur & fx & w & Hwa & Hw0).
  assert (fr0 = fr) as -> by congruence. pose proof (wa_futex _ _ _ Hwa) as Hfx. rewrite Hr in Hfx.
  assert (f_value fx = a ∧ f_flags fx = flags) as [Ea Eflags].
  { destruct (gd_futex _ _ _ _ Hg) as [l0 E0]. rewrite E0 in Hfx. by injection Hfx as <-. }
  rewrite Ea in Hw0. assert (w = v) as -> by congruence.
  pose proof (wait_svc_ok core frame fr s Hq Hfr fx v Hwa Hcur ltac:(by rewrite Ea)) as Hwp.
  apply wp_inv in Hwp as ([] & s1 & E1 & _ & _ & _ & _ & Hb). assert (s1 = s') as -> by congruence.
  rewrite Eflags, contended_tracked in Hb. destruct ((v =? r1 fr) || (v =? Z.lor (r1 fr) 1)) eqn:Em.
  - pose proof (bo_word _ _ _ _ _ _ Hb) as Hw'. rewrite Ea, Eflags, contended_tracked in Hw'.
    assert (owner_of v = owner_of (r1 fr)) as Ho.
    { apply orb_true_iff in Em as [->%Z.eqb_eq| ->%Z.eqb_eq]; [done|]. apply owner_of_lor. }
    assert (owner_of (r1 fr) ≠ 0) as Hne by by destruct Hve.
    exists (Z.lor (r1 fr) 1), l'. split; [|by rewrite owner_of_lor]. split; try done.
    + right. by rewrite owner_of_lor.
    + intros _. rewrite owner_of_lor. split; [apply lor_bit|done].
    + intros t [->|Ht]%Hin%elem_of_cons; [done|by apply Hcs].
  - destruct Hb as (Hws & ck & Hh & Hst & _ & Hcq). exists v, l'. split; [|done].
    assert (current s core ∉ l') as Hout.
    { intros Hx. destruct (proj2 (si_member _ (ix_struct _ _ (proj1 Hq')) _ _ _ Hl' Hx)) as (tk & Htk & Htq).
      destruct Hh as [[o Ho] _]. rewrite Ho in Htk. injection Htk as <-. rsimp. congruence. }
    assert (∀ x, x ∈ l' → x ∈ l) as Hsub.
    { intros x Hx. destruct (proj1 (elem_of_cons _ _ _) (Hin x Hx)) as [->|?]; [done|done]. }
    split; try done.
    + by rewrite Hws.
    + intros Hne. apply Hc. intros ->. destruct l' as [|x l']; [done|]. by specialize (Hsub x (list_elem_of_here _ _)) as ?%elem_of_nil.
    + intros t Ht. by apply Hcs, Hsub.
Qed.

Lemma wake_inv core frame fr v l s s' :
  mutex_inv v l s → frame_at s !! frame = Some fr → r0 fr = f → r1 fr = 0 → owner_of v ≠ 0 →
  admissible s (ServiceCall core frame SvcWake) → run_event (ServiceCall core frame SvcWake) s = Done tt s' →
  ∃ v' l', mutex_inv v' l' s'.
Proof.
  intros Hi Hfr Hr Hr1 Ho Ha E. pose proof Hi as [Hq Hg Hw Hl Hv Hc Hcs].
  pose proof (event_kept _ _ _ Hq Ha E) as Hq'. cbn [run_event run_service] in E.
  cbn [admissible] in Ha. destruct Ha as (fr0 & Hfr0 & fx & w & Hka). assert (fr0 = fr) as -> by congruence.
  pose proof (ka_futex _ _ _ _ Hka) as Hfx. rewrite Hr in Hfx.
  assert (fx = Futex a l flags SCHEDULER_FUTEX_MARKER) as ->.
  { destruct (gd_futex _ _ _ _ Hg) as [l0 E0]. cbn [queue] in Hl. rewrite E0 in Hl, Hfx. cbn in Hl. congruence. }
  assert (w = v) as -> by (pose proof (ka_word _ _ _ _ Hka) as Hw1; cbn in Hw1; congruence).
  pose proof (wake_svc_ok core frame fr s Hq Hfr _ v Hka) as Hwp. rewrite Hr1 in Hwp.
  apply wp_inv in Hwp as ([] & s1 & E1 & _ & _ & _ & _ & l1 & l2 & Hp & _ & Hsplit & Hl2 & _ & Hw' & Hwf).
  assert (s1 = s') as -> by congruence. cbn [Z.eqb negb f_value f_waiters] in *. rewrite Hr in Hl2.
  change (chosen _ false l1) with (take 1 l1) in Hsplit.
  assert (∀ x, x ∈ l1 → client x) as Hcl1 by (intros x Hx; apply Hcs; by rewrite <-Hp).
  assert (sole_futex a f flags s') as Hg'.
  { destruct Hg as [[l0 E0] Hon]. split.
    - pose proof (wf_futex _ _ _ _ Hwf f) as Hid. rewrite E0 in Hid. destruct (futex_at s' !! f) as [[? l3 ? ?]|]; [|done].
      cbn in Hid. injection Hid as -> -> ->. by exists l3.
    - intros g gx Hgx Hva. pose proof (wf_futex _ _ _ _ Hwf g) as Hid. rewrite Hgx in Hid.
      destruct (futex_at s !! g) as [gx0|] eqn:E2; [|done]. cbn in Hid. injection Hid as Hid _ _.
      apply (Hon g gx0 E2). congruence. }
  eexists _, l2. split; [done|done|exact Hw'|done| | |].
  - right. unfold final_word, chosen, owner_tracking. cbn [f_flags]. rewrite Howner, Hcontention. cbn [andb negb].
    destruct l1 as [|u l1]; [by rewrite bool_decide_eq_true_2, owner_idem by done|]. pose proof (Hcl1 u (list_elem_of_here _ _)) as [Hu Hou].
    case_bool_decide; [by rewrite owner_idem, Hou|]. change SCHEDULER_FUTEX_CONTENTION_TRACKING with 1. by rewrite owner_of_lor, Hou.
  - intros Hne. unfold final_word, chosen, owner_tracking. cbn [f_flags]. rewrite Howner, Hcontention. cbn [andb negb].
    destruct l1 as [|u [|u2 l1]]; [by destruct l2|by destruct l2|]. pose proof (Hcl1 u (list_elem_of_here _ _)) as [Hu Hou].
    rewrite bool_decide_eq_false_2 by (cbn; lia).
    change SCHEDULER_FUTEX_CONTENTION_TRACKING with 1. rewrite owner_of_lor, Hou. split; [apply lor_bit|done].
  - intros x Hx. apply Hcl1. rewrite Hsplit. apply elem_of_app. by right.
Qed.

(** ** The steps *)
Lemma store_inv v v' l s :
  mutex_inv v l s → valid v' → (l ≠ [] → Z.testbit v' 0 = true ∧ owner_of v' ≠ 0) →
  mutex_inv v' l (s <| word_at := <[a := v']> (word_at s) |>).
Proof.
  intros [Hq [Hg Ho] Hw Hl Hv Hc Hcs] Hv' Hc'. split; try done.
  - apply quiescent_words; [done|]. intros b Hb. rewrite lookup_insert. by case_decide.
  - rsimp. apply lookup_insert_eq.
Qed.

Lemma queue_empty v l s : mutex_inv v l s → Z.testbit v 0 = false → l = [].
Proof. intros Hi Hb. destruct l as [|t l]; [done|]. destruct (mv_contended _ _ _ Hi) as [? _]; [done|congruence]. Qed.

(** One access of a program that keeps the protocol. *)
Lemma access_safe core t Q p p' v l s s' own :
  mutex_inv v l s → current s core = t → client t → (own = true → owner_of v = t) → safe t Q own p → access core s p s' p' →
  ∃ v' l' own', mutex_inv v' l' s' ∧ (own' = true → owner_of v' = t) ∧ safe t Q own' p' ∧
    ∀ u, u ≠ t → owner_of v = u → u ≠ 0 → owner_of v' = u.
Proof.
  intros Hi Ht Hcl Hown Hs Hacc. pose proof (mv_word _ _ _ Hi) as Hw. pose proof (mv_valid _ _ _ Hi) as Hv.
  destruct Hacc as [m k z|k w Hw1|e d k Hw1|e d k w Hw1 Hne|d k w Hw1|e d k z frame fr s' Hfr Hr0 Hr1 Hr2 Ha E|k z frame fr s' Hfr Hr0 Hr1 Ha E];
    cbn [safe] in Hs.
  - exists v, l, own. split_and!; auto.
  - assert (w = v) as -> by congruence. exists v, l, (owner_of v =? t). split_and!; auto. by intros ?%Z.eqb_eq.
  - assert (e = v) as -> by congruence. destruct Hs as [(-> & -> & Hk & _)|(-> & -> & -> & Hk & _)].
    + exists t, l, true. split; [|split; [intros _; apply Hcl|split; [done|]]].
      * apply (store_inv 0); [done|by right; destruct Hcl as [? ->]|]. intros Hne. by rewrite (queue_empty _ _ _ Hi eq_refl) in Hne.
      * intros u _ <-. done.
    + exists 0, l, false. split; [|split; [done|split; [done|]]].
      * apply (store_inv t); [done|by left|]. intros Hne. by rewrite (queue_empty _ _ _ Hi (client_even _ Hcl)) in Hne.
      * intros u Hu <-. exfalso. apply Hu. apply Hcl.
  - assert (w = v) as -> by congruence. destruct Hs as [(-> & -> & _ & Hk)|(-> & -> & -> & _ & Hk)].
    + exists v, l, false. split_and!; [done|done|by apply Hk|done].
    + exists v, l, true. split_and!; [done|done|apply Hk; [done|by apply Hown]|done].
  - destruct Hs.
  - destruct Hs as (-> & He & Hve & Hk). subst e.
    destruct (wait_inv core frame fr v l s s') as (v' & l' & Hi' & Ho); [done..|by rewrite Ht|done|done|].
    exists v', l', false. split_and!; [done|done|done|]. intros u _ <- _. done.
  - destruct Hs as (-> & Hk). specialize (Hown eq_refl).
    destruct (wake_inv core frame fr v l s s') as (v' & l' & Hi'); [done..|rewrite Hown; apply Hcl|done|done|].
    exists v', l', false. split_and!; [done|done|done|]. intros u Hu <-. by rewrite Hown in Hu.
Qed.

Lemma machine_step_inv m m' : machine_inv m → machine_step m m' → machine_inv m'.
Proof.
  intros (v & l & Hi & Hph) Hst. destruct Hst as [e s s' ph Ha Hf E|t p s ph Hcl Ho Hlk|core t p p' s s' ph Hc Hp Hacc|t r s ph Hp
    |t p s ph Hp Hun'|core t p p' s s' ph Hc Hp Hacc|t r s ph Hp]; cbn [mc_sched mc_phase] in *.
  - destruct (foreign_inv e v l s s' Hi Ha Hf E) as [l' Hi']. by exists v, l'.
  - exists v, l. split; [done|]. eapply set_phase_ok; [done| |exact Hph]. split; [done|]. exists false. split; [done|by apply Hlocks].
  - pose proof (Hph t) as Ht. rewrite Hp in Ht. destruct Ht as (Hcl & own & Hown & Hs).
    destruct (access_safe core t _ p p' v l s s' own Hi Hc Hcl Hown Hs Hacc) as (v' & l' & own' & Hi' & Hown' & Hs' & Hu).
    exists v', l'. split; [done|]. eapply set_phase_ok; [exact Hu| |exact Hph]. split; [done|]. by exists own'.
  - pose proof (Hph t) as Ht. rewrite Hp in Ht. destruct Ht as (Hcl & own & Hown & Hs). exists v, l. split; [done|].
    eapply set_phase_ok; [done| |exact Hph]. cbn [safe] in Hs. destruct (won r); [|done]. split; [done|]. by apply Hown, Hs.
  - pose proof (Hph t) as Ht. rewrite Hp in Ht. destruct Ht as [Hcl Hown]. exists v, l. split; [done|].
    eapply set_phase_ok; [done| |exact Hph]. split; [done|]. exists true. split; [done|by apply Hunlocks].
  - pose proof (Hph t) as Ht. rewrite Hp in Ht. destruct Ht as (Hcl & own & Hown & Hs).
    destruct (access_safe core t _ p p' v l s s' own Hi Hc Hcl Hown Hs Hacc) as (v' & l' & own' & Hi' & Hown' & Hs' & Hu).
    exists v', l'. split; [done|]. eapply set_phase_ok; [exact Hu| |exact Hph]. split; [done|]. by exists own'.
  - exists v, l. split; [done|]. by eapply set_phase_ok.
Qed.

Lemma machine_start_inv m : machine_start m → machine_inv m.
Proof.
  intros [Hq Hf Ho Hw Hp]. exists 0, []. split; [|intros t; by rewrite Hp]. split; try done.
  - split; [by eexists|done].
  - cbn [queue]. by rewrite Hf.
  - by left.
  - intros t ?%elem_of_nil. done.
Qed.

(** Exclusion, and no waiter behind a word that does not say so. *)
Lemma machine_excludes m0 m : machine_start m0 → machine_reaches m0 m →
  (∀ t, mc_phase m t = Inside → ∃ v, word_at (mc_sched m) !! a = Some v ∧ owner_of v = t) ∧
  (∀ t u, mc_phase m t = Inside → mc_phase m u = Inside → t = u) ∧
  (∀ l, queue (mc_sched m) (waiters f) = Some l → l ≠ [] →
     ∃ v, word_at (mc_sched m) !! a = Some v ∧ Z.testbit v 0 = true ∧ owner_of v ≠ 0).
Proof.
  intros Hm Hr. assert (machine_inv m) as (v & l & Hi & Hph).
  { induction Hr as [|m1 m2 _ IH Hst]; [by apply machine_start_inv|]. by eapply machine_step_inv. }
  assert (∀ t, mc_phase m t = Inside → owner_of v = t) as Hin.
  { intros t E. specialize (Hph t). rewrite E in Hph. apply Hph. }
  split_and!.
  - intros t E. exists v. split; [apply Hi|by apply Hin].
  - intros t u Et Eu. by rewrite <-(Hin t Et), <-(Hin u Eu).
  - intros l' E Hne. exists v. split; [apply Hi|]. apply Hi. rewrite (mv_queue _ _ _ Hi) in E. by injection E as <-.
Qed.
End system.
