(* ===== verification/MutexSample.v ===== *)
(** * The mutex system: two cores that contend

    A state of two cores whose tasks both want one mutex, on which the theorems of
    [ThreadsSystem] and [MutexClaims] are run. *)
From S2P Require Import Prelude Scheduler SchedulerSvc SchedulerApi SchedulerInv SchedulerSafe SchedulerWake SchedulerHandlers SchedulerSwitch SchedulerSystem SchedulerCheck SchedulerSample MutexFrame MutexSystem.

#[local] Existing Instances sample_env sample_env_laws sample_trap.

(** The task at 0x5000 runs on core 0, the one at 0x5200 on core 1; the frame at
    2000 asks to wait at [f] while the word is 0x5000. *)
Definition contender (core : Z) : task :=
  Task 0 0 0 TASK_RUNNING core UINT32_MAX 16 16 UINT32_MAX [] None 0 0 0 SCHEDULER_TASK_MARKER.
Definition two_cores (a f flags : Z) : sched :=
  Sched true 16 INT32_MAX [] [0x5000; 0x5200] [] UINT32_MAX 1 0 UINT32_MAX 0 SCHEDULER_MARKER false 0
    (list_to_map [(0x5000, contender 0); (0x5200, contender 1)])
    {[f := Futex a [] flags SCHEDULER_FUTEX_MARKER]}
    {[2000 := Frame f 0x5000 SCHEDULER_WAIT_FOREVER 0 0 0 0 0]}
    {[a := 0]}
    (list_to_map [(0, cpu_reset <| current_task := 0x5000 |>); (1, cpu_reset <| current_task := 0x5200 |>)]).

Lemma sample_unaware a f flags : Unaware a f flags.
Proof.
  split.
  - intros. apply keeps_ret.
  - intros. apply keeps_ret.
  - intros core word l. cbn. unfold scheduler_request_switch. apply keeps_if; [|apply keeps_ret]. apply kept_upd_cls. by left.
Qed.

(** The word taken by the first task, and the second in the queue. *)
Definition taken (a f flags : Z) : sched := (two_cores a f flags) <| word_at := <[a := 0x5000]> {[a := 0]} |>.
Definition parked_behind (a f flags : Z) : sched :=
  match run_event (ServiceCall 1 2000 SvcWait) (taken a f flags) with Done _ s => s | Fault _ => taken a f flags end.

(** One more step of a run. *)
Ltac machine_goes R step :=
  let R' := fresh "R" in
  lazymatch type of R with
  | machine_reaches ?a ?f ?won ?locks ?unlocks ?m0 _ =>
      eassert (machine_reaches a f won locks unlocks m0 _) as R' by (eapply reaches_step; [exact R|step])
  end;
  clear R; rename R' into R.
Ltac task_goes n access := eapply locking with (core := n); [done|done|access].
