(* ===== verification/CondSystem.v ===== *)
(** * Many tasks and one condition variable

    The system that interleaves waiters and signallers of a futex that tracks
    nothing, access by access, with each other and with the events of the
    scheduler, and keeps the history of its sequence word.  Whatever compares the
    sequence it read ([waits]) and wakes after it moved the sequence ([signalling])
    loses no signal. *)
From S2P Require Import Prelude Scheduler SchedulerSvc SchedulerApi SchedulerInv SchedulerSafe SchedulerWake SchedulerHandlers SchedulerSwitch SchedulerSystem WakeLaws MutexFrame MutexSystem.

(** ** The history, newest first *)
Inductive entry := Reads (t : Z) | Signals (t : Z) (all : bool) | Parks (t : Z).

Fixpoint signals (log : list entry) : nat :=
  match log with
  | [] => O
  | Signals _ _ :: log => S (signals log)
  | _ :: log => signals log
  end.

(** The signals since [t] last read the sequence. *)
Fixpoint signals_since (t : Z) (log : list entry) : option nat :=
  match log with
  | [] => None
  | Reads u :: log => if decide (u = t) then Some O else signals_since t log
  | Signals _ _ :: log => S <$> signals_since t log
  | Parks _ :: log => signals_since t log
  end.

(** [t] read the sequence, and nobody broadcast since. *)
Fixpoint heard_all (t : Z) (log : list entry) : bool :=
  match log with
  | [] => false
  | Reads u :: log => bool_decide (u = t) || heard_all t log
  | Signals _ all :: log => negb all && heard_all t log
  | Parks _ :: log => heard_all t log
  end.

(** Whoever parked had missed no signal. *)
Fixpoint parked_fresh (log : list entry) : Prop :=
  match log with
  | [] => True
  | Parks t :: log => signals_since t log = Some O ∧ parked_fresh log
  | _ :: log => parked_fresh log
  end.

Lemma signals_since_le t log k : signals_since t log = Some k → (k <= signals log)%nat.
Proof.
  revert k. induction log as [|[u|u all|u] log IH]; intros k; cbn; [done|..].
  - case_decide; [intros [= <-]; lia|apply IH].
  - destruct (signals_since t log) as [k0|]; [|done]. intros [= <-]. specialize (IH k0 eq_refl). lia.
  - apply IH.
Qed.

Lemma heard_recent t log : signals_since t log = Some O → heard_all t log = true.
Proof.
  induction log as [|[u|u all|u] log IH]; cbn; [done|..].
  - case_decide; [by rewrite bool_decide_eq_true_2|]. intros ->%IH. apply orb_true_r.
  - by destruct (signals_since t log).
  - exact IH.
Qed.

Lemma parked_fresh_split log l1 t l2 : parked_fresh log → log = l1 ++ Parks t :: l2 → signals_since t l2 = Some O.
Proof.
  revert l1. induction log as [|e log IH]; intros [|x l1]; cbn; [done..| |].
  - intros Hp [= -> ->]. apply Hp.
  - intros Hp [= -> ->]. apply (IH l1); [|done]. destruct x; [done|done|apply Hp].
Qed.

Lemma u32_back v k : is_u32 v → u32 (v + Z.of_nat k) = v → Z.of_nat k < word → k = O.
Proof.
  unfold is_u32, u32. intros Hv E Hk. destruct (decide (v + Z.of_nat k < word)).
  - rewrite Z.mod_small in E by lia. lia.
  - replace (v + Z.of_nat k) with (v + Z.of_nat k - word + 1 * word) in E by lia.
    rewrite Z_mod_plus_full, Z.mod_small in E; lia.
Qed.

(** ** The protocols *)
Section protocol.
Context {L R : Type}.

(** A waiter waits for the sequence he read last, once. *)
Fixpoint waits (seen : option Z) (p : prog L R) : Prop :=
  match p with
  | Ret _ => True
  | Local _ k => ∀ z, waits seen (k z)
  | Read k => ∀ w, waits (Some w) (k w)
  | Wait e _ k => seen = Some e ∧ ∀ z, waits None (k z)
  | Cas _ _ _ | Add _ _ | Wake _ => False
  end.

(** A signaller wakes as soon as he has moved the sequence by one. *)
Fixpoint signalling (p : prog L R) : Prop :=
  match p with
  | Ret _ => True
  | Local _ k | Wake k => ∀ z, signalling (k z)
  | Add d k => d = 1 ∧ ∀ w, (∃ k', k w = Wake k') ∧ signalling (k w)
  | Cas _ _ _ | Read _ | Wait _ _ _ => False
  end.
End protocol.

(** ** The system *)
Inductive role := Waiter | Signaller (all : bool).

Section system.
Context `{EnvironmentLaws} `{Trap} (a f : Z) {Hun : Unaware a f 0}.
Context {L R : Type} (call : role → prog L R → Prop).

Inductive party := Resting | At (r : role) (p : prog L R).

Record cond := Cond { cm_sched : sched; cm_party : Z → party; cm_log : list entry }.

Definition set_party (t : Z) (x : party) (g : Z → party) : Z → party := λ u, if decide (u = t) then x else g u.

(** The history after a call that may have put [t] into the queue. *)
Definition parked (t : Z) (s' : sched) (log : list entry) : list entry :=
  match queue s' (waiters f) with
  | Some l => if decide (t ∈ l) then Parks t :: log else log
  | None => log
  end.

(** The answer of a local step, and of a call of the scheduler, is left open. *)
Inductive cond_step : cond → cond → Prop :=
  | cond_event e s s' g log : admissible s e → foreign a f e s → run_event e s = Done tt s' →
      cond_step (Cond s g log) (Cond s' g log)
  | cond_starts t r p s g log : g t = Resting → call r p →
      cond_step (Cond s g log) (Cond s (set_party t (At r p) g) log)
  | cond_local t r m k z s g log : g t = At r (Local m k) →
      cond_step (Cond s g log) (Cond s (set_party t (At r (k z)) g) log)
  | cond_reads t r k w s g log : g t = At r (Read k) → word_at s !! a = Some w →
      cond_step (Cond s g log) (Cond s (set_party t (At r (k w)) g) (Reads t :: log))
  | cond_adds t all d k w s g log : g t = At (Signaller all) (Add d k) → word_at s !! a = Some w →
      cond_step (Cond s g log)
        (Cond (s <| word_at := <[a := u32 (w + d)]> (word_at s) |>) (set_party t (At (Signaller all) (k w)) g) (Signals t all :: log))
  | cond_waits core t r e d k z frame fr s s' g log : current s core = t → g t = At r (Wait e d k) →
      frame_at s !! frame = Some fr → r0 fr = f → r1 fr = e → r2 fr = d →
      admissible s (ServiceCall core frame SvcWait) → run_event (ServiceCall core frame SvcWait) s = Done tt s' →
      cond_step (Cond s g log) (Cond s' (set_party t (At r (k z)) g) (parked t s' log))
  | cond_wakes core t all k z frame fr s s' g log : current s core = t → g t = At (Signaller all) (Wake k) →
      frame_at s !! frame = Some fr → r0 fr = f → r1 fr = Z.b2z all →
      admissible s (ServiceCall core frame SvcWake) → run_event (ServiceCall core frame SvcWake) s = Done tt s' →
      cond_step (Cond s g log) (Cond s' (set_party t (At (Signaller all) (k z)) g) log)
  | cond_ends t r x s g log : g t = At r (Ret x) →
      cond_step (Cond s g log) (Cond s (set_party t Resting g) log).

Inductive cond_reaches (m0 : cond) : cond → Prop :=
  | cond_here : cond_reaches m0 m0
  | cond_on m m' : cond_reaches m0 m → cond_step m m' → cond_reaches m0 m'.

(** A condition variable nobody uses yet, and no wake of it in a slot. *)
Record cond_start (m : cond) : Prop := {
  cs_quiescent : quiescent (cm_sched m);
  cs_futex : futex_at (cm_sched m) !! f = Some (Futex a [] 0 SCHEDULER_FUTEX_MARKER);
  cs_only g fx : futex_at (cm_sched m) !! g = Some fx → f_value fx = a → g = f;
  cs_slots c w : w ∈ deferred_wake (cls (cm_sched m) c) → w = 0 ∨ Z.land w (not32 1) ≠ f;
  cs_word : ∃ v, word_at (cm_sched m) !! a = Some v ∧ is_u32 v;
  cs_party t : cm_party m t = Resting;
  cs_log : cm_log m = []
}.

(** Somebody has moved the sequence and is about to wake everybody. *)
Definition broadcasting (g : Z → party) (u : Z) : Prop := ∃ k, g u = At (Signaller true) (Wake k).

(** ** The invariant *)
Hypothesis Hf0 : f ≠ 0.
Hypothesis Hwaiters : ∀ p, call Waiter p → waits None p.
Hypothesis Hsignallers : ∀ all p, call (Signaller all) p → signalling p.

Definition party_ok (w : Z) (log : list entry) (t : Z) (x : party) : Prop :=
  match x with
  | Resting => True
  | At Waiter p => ∃ seen, waits seen p ∧
      ∀ v, seen = Some v → is_u32 v ∧ ∃ k, signals_since t log = Some k ∧ w = u32 (v + Z.of_nat k)
  | At (Signaller _) p => signalling p
  end.

Definition no_wrap (log : list entry) : Prop := Z.of_nat (signals log) < word.

(** [l] bounds the queue. *)
Record cond_inv (w : Z) (l : list Z) (m : cond) : Prop := {
  ci_quiescent : quiescent (cm_sched m);
  ci_frame : queued_in a f 0 (Some w) l (cm_sched m);
  ci_word : is_u32 w;
  ci_party t : party_ok w (cm_log m) t (cm_party m t);
  ci_heard t : no_wrap (cm_log m) → t ∈ l → heard_all t (cm_log m) = true ∨ ∃ u, broadcasting (cm_party m) u;
  ci_parked : no_wrap (cm_log m) → parked_fresh (cm_log m)
}.

Lemma set_party_ok w w' log log' t x g :
  (∀ u y, u ≠ t → party_ok w log u y → party_ok w' log' u y) → party_ok w' log' t x →
  (∀ u, party_ok w log u (g u)) → ∀ u, party_ok w' log' u (set_party t x g u).
Proof. intros Hu Ht Hg u. unfold set_party. case_decide as E; [by subst|]. by apply Hu. Qed.

Lemma broadcasting_other t x g : (∀ k, g t ≠ At (Signaller true) (Wake k)) →
  (∃ u, broadcasting g u) → ∃ u, broadcasting (set_party t x g) u.
Proof.
  intros Ht [u [k Hu]]. exists u. exists k. unfold set_party. case_decide as E; [|done]. subst u. by destruct (Ht k).
Qed.

(** A step of [t] that leaves the scheduler and the history as they are. *)
Lemma cond_quiet w l s g log t x :
  (∀ k, g t ≠ At (Signaller true) (Wake k)) → party_ok w log t x → cond_inv w l (Cond s g log) → cond_inv w l (Cond s (set_party t x g) log).
Proof.
  intros Hb Hx [Hq Hf Hw Hp Hh Hk]. split; try done.
  - cbn. by eapply set_party_ok.
  - cbn. intros u Hn Hu. destruct (Hh u Hn Hu); [by left|right]. by apply broadcasting_other.
Qed.

(** ** The calls of the scheduler *)
Lemma queued_futex word l s : queued_in a f 0 word l s → ∃ l', queue s (waiters f) = Some l' ∧ l' ⊆ l ∧
  futex_at s !! f = Some (Futex a l' 0 SCHEDULER_FUTEX_MARKER).
Proof.
  intros [[[l' Hf] _] _ Hw _ _]. exists l'. assert (queue s (waiters f) = Some l') as E by (cbn [queue]; by rewrite Hf).
  split; [done|]. split; [by apply Hw|done].
Qed.

(** The bound may be the queue itself. *)
Lemma queued_tight word word' l s l' : quiescent s → queued_in a f 0 word l s → queue s (waiters f) = Some l' →
  (∀ v, word' = Some v → word_at s !! a = Some v) → queued_in a f 0 word' l' s.
Proof.
  intros Hq [Hg Hw Hl Ht Hs] E Hv. split; try done.
  - intros l0 E0. rewrite E in E0. by injection E0 as <-.
  - intros t tk Htk Htq. destruct (si_queued _ (ix_struct _ _ (proj1 Hq)) t tk _ Htk Htq) as (l0 & E0 & Hin).
    rewrite E in E0. by injection E0 as <-.
Qed.

Lemma wait_cond core frame fr w l s s' :
  quiescent s → queued_in a f 0 (Some w) l s → frame_at s !! frame = Some fr → r0 fr = f →
  admissible s (ServiceCall core frame SvcWait) → run_event (ServiceCall core frame SvcWait) s = Done tt s' →
  quiescent s' ∧ ∃ l', queue s' (waiters f) = Some l' ∧ queued_in a f 0 (Some w) l' s' ∧
    (∀ t, t ∈ l' → t ∈ l ∨ t = current s core) ∧ (current s core ∈ l' → w = r1 fr).
Proof.
  intros Hq Hk Hfr Hr Ha E. pose proof (event_kept _ _ _ Hq Ha E) as Hq'. split; [done|]. cbn [run_event run_service] in E.
  assert (queued_in a f 0 None (current s core :: l) s') as Hk'.
  { eapply (kept_wait_here a f core 0 _ frame fr s); [done|done|by left| |exact E].
    destruct Hk as [? ? Hw0 Ht0 ?]. split; try done.
    - intros l0 E0 x Hx. right. by apply (Hw0 l0).
    - intros t tk Ht Htq. right. by apply (Ht0 t tk). }
  destruct (queued_futex _ _ _ Hk') as (l' & Hl' & Hsub & _). destruct (queued_futex _ _ _ Hk) as (l0 & _ & _ & Hfx0).
  cbn [admissible] in Ha. destruct Ha as (fr0 & Hfr0 & Hcur & fx & w0 & Hwa & Hw0). assert (fr0 = fr) as -> by congruence.
  pose proof (wa_futex _ _ _ Hwa) as Hfx. rewrite Hr, Hfx0 in Hfx. injection Hfx as <-. cbn [f_value] in Hw0.
  assert (w0 = w) as -> by (pose proof (qi_word _ _ _ _ _ _ Hk _ eq_refl); congruence).
  pose proof (wait_svc_ok core frame fr s Hq Hfr _ w Hwa Hcur Hw0) as Hwp.
  apply wp_inv in Hwp as ([] & s1 & E1 & _ & _ & _ & _ & Hb). assert (s1 = s') as -> by congruence.
  cbn [f_flags] in Hb. change (contended 0 (r1 fr)) with (r1 fr) in Hb. rewrite orb_diag in Hb. exists l'. split; [done|].
  destruct (Z.eqb_spec w (r1 fr)) as [Ew|_].
  - pose proof (bo_word _ _ _ _ _ _ Hb) as Hw'. cbn [f_value f_flags] in Hw'. change (contended 0 (r1 fr)) with (r1 fr) in Hw'.
    split; [eapply queued_tight; [done|done|done|]; intros v [= <-]; by rewrite Ew|]. split; [|done].
    intros t [->|?]%Hsub%elem_of_cons; [by right|by left].
  - destruct Hb as (Hws & ck & Hh & Hst & _ & Hcq).
    split; [eapply queued_tight; [done|done|done|]; intros v [= <-]; rewrite Hws; by eapply qi_word|].
    split; [intros t [->|?]%Hsub%elem_of_cons; [by right|by left]|].
    intros Hx. destruct (proj2 (si_member _ (ix_struct _ _ (proj1 Hq')) _ _ _ Hl' Hx)) as (tk & Htk & Htq).
    destruct Hh as [[o Ho] _]. rewrite Ho in Htk. injection Htk as <-. rsimp. congruence.
Qed.

Lemma wake_cond core frame fr all w l s s' :
  quiescent s → queued_in a f 0 (Some w) l s → frame_at s !! frame = Some fr → r0 fr = f → r1 fr = Z.b2z all →
  admissible s (ServiceCall core frame SvcWake) → run_event (ServiceCall core frame SvcWake) s = Done tt s' →
  quiescent s' ∧ ∃ l', queue s' (waiters f) = Some l' ∧ queued_in a f 0 (Some w) l' s' ∧ l' ⊆ l ∧ (all = true → l' = []).
Proof.
  intros Hq Hk Hfr Hr Hr1 Ha E. pose proof (event_kept _ _ _ Hq Ha E) as Hq'. split; [done|]. cbn [run_event run_service] in E.
  assert (queued_in a f 0 None l s') as Hk'.
  { eapply (kept_wake_here a f core 0 l frame fr s); [done| |exact E]. by destruct Hk. }
  destruct (queued_futex _ _ _ Hk') as (l' & Hl' & Hsub & _). destruct (queued_futex _ _ _ Hk) as (l0 & _ & _ & Hfx0).
  cbn [admissible] in Ha. destruct Ha as (fr0 & Hfr0 & fx & w0 & Hka). assert (fr0 = fr) as -> by congruence.
  pose proof (ka_futex _ _ _ _ Hka) as Hfx. rewrite Hr, Hfx0 in Hfx. injection Hfx as <-.
  pose proof (ka_word _ _ _ _ Hka) as Hw0. cbn [f_value] in Hw0.
  assert (w0 = w) as -> by (pose proof (qi_word _ _ _ _ _ _ Hk _ eq_refl); congruence).
  pose proof (wake_svc_ok core frame fr s Hq Hfr _ w Hka) as Hwp. rewrite Hr1 in Hwp.
  apply wp_inv in Hwp as ([] & s1 & E1 & _ & _ & _ & _ & l1 & l2 & _ & Hsame & Hsplit & Hl2 & _ & Hw' & _).
  assert (s1 = s') as -> by congruence. rewrite Hr, Hl' in Hl2. injection Hl2 as <-. specialize (Hsame eq_refl). cbn [f_waiters] in Hsame. subst l1.
  rewrite final_word_plain in Hw'. cbn [f_value] in Hw'.
  exists l'. split; [done|]. split; [eapply queued_tight; [done|done|done|]; by intros v [= <-]|]. split; [done|].
  intros ->. change (chosen _ (negb (Z.b2z true =? 0)) l0) with l0 in Hsplit.
  apply (f_equal length) in Hsplit. rewrite length_app in Hsplit. destruct l'; [done|]. cbn in Hsplit. lia.
Qed.

(** ** The steps *)
Lemma add_framed w w' l s : queued_in a f 0 (Some w) l s → queued_in a f 0 (Some w') l (s <| word_at := <[a := w']> (word_at s) |>).
Proof.
  intros [[Hf Ho] Hw Hl Ht Hs]. split; try done. intros v [= <-]. rsimp. apply lookup_insert_eq.
Qed.

Lemma no_wrap_le log log' : (signals log <= signals log')%nat → no_wrap log' → no_wrap log.
Proof. unfold no_wrap. lia. Qed.

(** A read by [t]. *)
Lemma reads_inv w l s g log t k :
  g t = At Waiter (Read k) → cond_inv w l (Cond s g log) → cond_inv w l (Cond s (set_party t (At Waiter (k w)) g) (Reads t :: log)).
Proof.
  intros Hg [Hq Hf Hw Hp Hh Hk]. split; try done; cbn [cm_sched cm_party cm_log] in *.
  - eapply set_party_ok; [| |exact Hp].
    + intros u [|r p] Hu; [done|]. destruct r as [|all]; [|done]. intros (seen & Hs & Hv). exists seen. split; [done|].
      intros v E. cbn [signals_since]. rewrite decide_False by congruence. by apply Hv.
    + pose proof (Hp t) as Ht. rewrite Hg in Ht. destruct Ht as (seen & Hs & _). exists (Some w). split; [apply Hs|].
      intros v [= <-]. split; [done|]. exists O. cbn [signals_since]. rewrite decide_True by done. split; [done|].
      rewrite Z.add_0_r. symmetry. by apply u32_small.
  - intros u Hn Hu. cbn [heard_all]. destruct (Hh u Hn Hu) as [->|Hb]; [left; apply orb_true_r|right].
    apply broadcasting_other; [|done]. intros k' E. rewrite Hg in E. done.
Qed.

(** A signal by [t]. *)
Lemma adds_inv w l s g log t all k :
  g t = At (Signaller all) (Add 1 k) → cond_inv w l (Cond s g log) →
  cond_inv (u32 (w + 1)) l (Cond (s <| word_at := <[a := u32 (w + 1)]> (word_at s) |>)
    (set_party t (At (Signaller all) (k w)) g) (Signals t all :: log)).
Proof.
  intros Hg [Hq Hf Hw Hp Hh Hk]. pose proof (Hp t) as Ht. cbn [cm_sched cm_party cm_log] in *. rewrite Hg in Ht.
  destruct Ht as [_ Ht]. destruct (Ht w) as [[k' Ek] Hs]. split; cbn [cm_sched cm_party cm_log].
  - apply quiescent_words; [done|]. intros b Hb. rewrite lookup_insert. by case_decide.
  - by eapply add_framed.
  - apply u32_range.
  - eapply set_party_ok; [|exact Hs|exact Hp]. intros u [|r p] Hu; [done|]. destruct r as [|all']; [|done].
    intros (seen & Hse & Hv). exists seen. split; [done|]. intros v E. destruct (Hv v E) as (Hr & n & En & ->). split; [done|].
    exists (S n). cbn [signals_since]. rewrite En. split; [done|]. rewrite u32_add_idemp. f_equal. lia.
  - intros u Hn Hu. cbn [heard_all]. destruct all; cbn [negb andb].
    + right. exists t, k'. unfold set_party. by rewrite decide_True, Ek.
    + destruct (Hh u) as [->|Hb]; [eapply no_wrap_le; [|exact Hn]; cbn; lia|done|by left|right].
      apply broadcasting_other; [|done]. intros k0 E. by rewrite Hg in E.
  - intros Hn. apply Hk. eapply no_wrap_le; [|exact Hn]. cbn. lia.
Qed.

(** The history of [t] after a wait that found the word at [e]. *)
Lemma parked_log t s' log l' : queue s' (waiters f) = Some l' →
  parked t s' log = if decide (t ∈ l') then Parks t :: log else log.
Proof. intros E. unfold parked. by rewrite E. Qed.

Lemma party_ok_parks w log t u y : party_ok w log u y → party_ok w (Parks t :: log) u y.
Proof. destruct y as [|[|all] p]; [done| |done]. by intros (seen & Hs & Hv); exists seen. Qed.

Lemma waits_inv core w l s s' g log t d k z frame fr :
  current s core = t → g t = At Waiter (Wait (r1 fr) d k) → cond_inv w l (Cond s g log) →
  frame_at s !! frame = Some fr → r0 fr = f →
  admissible s (ServiceCall core frame SvcWait) → run_event (ServiceCall core frame SvcWait) s = Done tt s' →
  ∃ l', cond_inv w l' (Cond s' (set_party t (At Waiter (k z)) g) (parked t s' log)).
Proof.
  intros Hc Hg [Hq Hf Hw Hp Hh Hk] Hfr Hr Ha E. pose proof (Hp t) as Ht. cbn [cm_sched cm_party cm_log] in *. rewrite Hg in Ht.
  destruct Ht as (seen & [-> Hs] & Hv). destruct (Hv _ eq_refl) as (Hu & n & En & Ew).
  destruct (wait_cond core frame fr w l s s') as (Hq' & l' & Hl' & Hf' & Hsub & Hblock); [done..|]. rewrite Hc in Hsub, Hblock.
  exists l'. rewrite (parked_log _ _ _ l') by done.
  assert (t ∈ l' → no_wrap log → signals_since t log = Some O) as Hfresh.
  { intros Hin Hn. rewrite En. f_equal. rewrite (Hblock Hin) in Ew. symmetry in Ew.
    pose proof (signals_since_le _ _ _ En). apply (u32_back (r1 fr)); [done|done|]. unfold no_wrap in Hn. lia. }
  assert (∀ u, no_wrap log → u ∈ l' → heard_all u log = true ∨ ∃ u', broadcasting (set_party t (At Waiter (k z)) g) u') as Hh'.
  { intros u Hn Hin. destruct (Hsub u Hin) as [Hin'| ->].
    - destruct (Hh u Hn Hin'); [by left|right]. apply broadcasting_other; [|done]. intros k0 E0. by rewrite Hg in E0.
    - left. by apply heard_recent, Hfresh. }
  split; cbn [cm_sched cm_party cm_log]; [done|done|done|..].
  - eapply set_party_ok; [|by exists None|exact Hp]. intros u y _ Hy. case_decide; [by apply party_ok_parks|done].
  - intros u Hn Hin. assert (no_wrap log) as Hn' by (by case_decide). destruct (Hh' u Hn' Hin) as [Hx|?]; [left|by right].
    by case_decide.
  - intros Hn. assert (no_wrap log) as Hn' by (by case_decide). specialize (Hk Hn'). case_decide; [|done]. by split; [apply Hfresh|].
Qed.

Lemma wakes_inv core w l s s' g log t all k z frame fr :
  current s core = t → g t = At (Signaller all) (Wake k) → cond_inv w l (Cond s g log) →
  frame_at s !! frame = Some fr → r0 fr = f → r1 fr = Z.b2z all →
  admissible s (ServiceCall core frame SvcWake) → run_event (ServiceCall core frame SvcWake) s = Done tt s' →
  ∃ l', cond_inv w l' (Cond s' (set_party t (At (Signaller all) (k z)) g) log).
Proof.
  intros Hc Hg [Hq Hf Hw Hp Hh Hk] Hfr Hr Hr1 Ha E. pose proof (Hp t) as Ht. cbn [cm_sched cm_party cm_log] in *. rewrite Hg in Ht.
  destruct (wake_cond core frame fr all w l s s') as (Hq' & l' & Hl' & Hf' & Hsub & Hall); [done..|].
  exists l'. split; try done; cbn [cm_sched cm_party cm_log].
  - eapply set_party_ok; [done|apply Ht|exact Hp].
  - intros u Hn Hu. destruct all; [by rewrite (Hall eq_refl) in Hu; apply elem_of_nil in Hu|].
    destruct (Hh u Hn (Hsub u Hu)); [by left|right]. apply broadcasting_other; [|done]. intros k0 E0. by rewrite Hg in E0.
Qed.

Lemma cond_step_inv m m' : (∃ w l, cond_inv w l m) → cond_step m m' → ∃ w l, cond_inv w l m'.
Proof.
  intros (w & l & Hi) Hst. pose proof (ci_party _ _ _ Hi) as Hp. pose proof (qi_word _ _ _ _ _ _ (ci_frame _ _ _ Hi) _ eq_refl) as Hw.
  destruct Hst as [e s s' g log Ha Hf E|t r p s g log Hg Hc|t r m k z s g log Hg|t r k w0 s g log Hg Hw0|t all d k w0 s g log Hg Hw0
    |core t r e d k z frame fr s s' g log Hc Hg Hfr Hr Hr1 _ Ha E|core t all k z frame fr s s' g log Hc Hg Hfr Hr Hr1 Ha E|t r x s g log Hg];
    cbn [cm_sched cm_party cm_log] in *.
  - exists w, l. destruct Hi as [Hq Hk ? ? ? ?]. split; try done; cbn [cm_sched].
    + by eapply event_kept.
    + by eapply (foreign_kept a f 0 e).
  - exists w, l. apply cond_quiet; [by rewrite Hg| |done]. destruct r as [|all]; [exists None; split; [by apply Hwaiters|done]|by eapply Hsignallers].
  - exists w, l. pose proof (Hp t) as Ht. rewrite Hg in Ht. apply cond_quiet; [by rewrite Hg| |done].
    destruct r as [|all]; [|apply Ht]. destruct Ht as (seen & Hs & Hv). by exists seen; split; [apply Hs|].
  - assert (w0 = w) as -> by congruence. exists w, l. pose proof (Hp t) as Ht. rewrite Hg in Ht.
    destruct r as [|all]; [by apply reads_inv|done].
  - assert (w0 = w) as -> by congruence. pose proof (Hp t) as Ht. rewrite Hg in Ht. destruct Ht as [-> _].
    exists (u32 (w + 1)), l. by apply adds_inv.
  - pose proof (Hp t) as Ht. rewrite Hg in Ht. destruct r as [|all]; [|done]. subst e. exists w. by eapply waits_inv.
  - exists w. by eapply wakes_inv.
  - exists w, l. by apply cond_quiet; [by rewrite Hg|..].
Qed.

Lemma cond_start_inv m : cond_start m → ∃ w l, cond_inv w l m.
Proof.
  intros [Hq Hf Ho Hs (v & Hv & Hu) Hp Hl]. exists v, []. split; try done.
  - split; [split; [by eexists|done]|by intros ? [= <-]|by cbn [queue]; rewrite Hf; intros ? [= <-]| |done].
    intros t tk Ht Htq. destruct (si_queued _ (ix_struct _ _ (proj1 Hq)) t tk _ Ht Htq) as (l0 & E0 & Hin).
    cbn [queue] in E0. rewrite Hf in E0. by injection E0 as <-.
  - intros t. by rewrite Hp.
  - intros t _ ?%elem_of_nil. done.
  - by rewrite Hl.
Qed.

(** No signal is lost. *)
Lemma cond_loses_nothing m0 m : cond_start m0 → cond_reaches m0 m → no_wrap (cm_log m) →
  (∀ l1 t l2, cm_log m = l1 ++ Parks t :: l2 → signals_since t l2 = Some O) ∧
  (∀ l t, queue (cm_sched m) (waiters f) = Some l → t ∈ l → (∀ u, ¬ broadcasting (cm_party m) u) → heard_all t (cm_log m) = true).
Proof.
  intros Hm Hr Hn. assert (∃ w l, cond_inv w l m) as (w & l & Hi).
  { induction Hr as [|m1 m2 _ IH Hst]; [by apply cond_start_inv|]. eapply cond_step_inv; [|exact Hst]. apply IH.
    clear -Hst Hn. destruct Hst; cbn [cm_log] in *; try done; try (eapply no_wrap_le; [|exact Hn]; cbn; lia).
    unfold parked in Hn. repeat case_match; done. }
  split.
  - intros l1 t l2 E. eapply parked_fresh_split; [by eapply ci_parked|exact E].
  - intros l' t Hl Hin Hb. destruct (ci_heard _ _ _ Hi t Hn) as [?|[u Hu]]; [|done|by destruct (Hb u)].
    by apply (qi_waiters _ _ _ _ _ _ (ci_frame _ _ _ Hi) l').
Qed.
End system.
