(* ===== verification/Rtos.v ===== *)
(** * The RTOS layer: memory, context checks, resources and the kernel

    The parts of [pico-cmsis-rtos2] every object uses: the control blocks of
    [include/cmsis/cmsis-rtos2.h], the context and marker checks of that
    header, the resource lists and the kernel state of [cmsis-rtos2-kernel.c].
    The state holds the scheduler's state: the words futexes compare live in
    its [word_at], and the kernel calls the functions of [SchedulerApi].  Rings
    of control blocks are lists of node addresses, as in [Scheduler]. *)
From S2P Require Import Prelude Spinlock Scheduler SchedulerSvc SchedulerApi.

(** ** Constants *)
Definition osOK : Z := 0.
Definition osError : Z := -1.
Definition osErrorTimeout : Z := -2.
Definition osErrorResource : Z := -3.
Definition osErrorParameter : Z := -4.
Definition osErrorNoMemory : Z := -5.
Definition osErrorISR : Z := -6.
Definition osWaitForever : Z := 0xffffffff.
Definition osFlagsWaitAny : Z := 0.
Definition osFlagsWaitAll : Z := 1.
Definition osFlagsNoClear : Z := 2.
Definition osFlagsError : Z := 0x80000000.
Definition osFlagsErrorResource : Z := 0xfffffffd.
Definition osFlagsErrorParameter : Z := 0xfffffffc.
Definition osMutexRecursive : Z := 1.
Definition osMutexPrioInherit : Z := 2.
Definition osMutexRobust : Z := 8.
Definition osDynamicAlloc : Z := 0x80000000.
Definition RTOS_NAME_SIZE : nat := 32.
Definition RTOS_THREAD_MARKER : Z := 0x42011024.
Definition RTOS_MUTEX_MARKER : Z := 0x42022024.
Definition RTOS_MEMORY_POOL_MARKER : Z := 0x42033024.
Definition RTOS_SEMAPHORE_MARKER : Z := 0x42044024.
Definition RTOS_EVENTFLAGS_MARKER : Z := 0x42055024.
Definition RTOS_TIMER_MARKER : Z := 0x42066024.
Definition RTOS_MESSAGE_QUEUE_MARKER : Z := 0x42077024.
Definition RTOS_DEQUE_MARKER : Z := 0x42088024.
(** The build defines it; the header has 0 for builds that do not. *)
Definition SCHEDULER_REALTIME_IRQ_PRIORITY : Z := 0xff.
Definition SCHEDULER_TICK_FREQ : Z := 1000.
(** [errno.h] of toolkit-support; the C library's numbers. *)
Definition ENOMEM : Z := 12.
Definition ENOTSUP : Z := 134.
Definition ERTOS : Z := 2001.
Definition ERESOURCE : Z := ERTOS + 2.

Inductive kernel_state := osKernelInactive | osKernelReady | osKernelRunning | osKernelLocked | osKernelSuspended.
#[export] Instance kernel_state_eq_dec : EqDecision kernel_state.
Proof. solve_decision. Defined.

Inductive resource_id :=
  | osResourceThread | osResourceMutex | osResourceRobustMutex | osResourceMemoryPool
  | osResourceSemaphore | osResourceEventFlags | osResourceTimer | osResourceMessageQueue | osResourceDeque.
#[export] Instance resource_id_eq_dec : EqDecision resource_id.
Proof. solve_decision. Defined.

Definition all_resources : list resource_id :=
  [osResourceThread; osResourceMutex; osResourceRobustMutex; osResourceMemoryPool;
   osResourceSemaphore; osResourceEventFlags; osResourceTimer; osResourceMessageQueue; osResourceDeque].

(** ** Control blocks

    What each [struct rtos_*] holds after its marker, name and attribute bits.
    The futex and the atomic words of a block live in the scheduler's state, at
    the addresses [futex_of] and the [*_value] functions give. *)
Inductive body :=
  | Semaphore (max_count : Z)
  | EventFlags (waiters : Z)
  | Mutex (count : Z)
  | MemoryPool (block_size capacity pool_data free_list lock : Z)
  | MessageQueue (msg_size msg_count lock : Z) (messages : list Z)
  | Timer (type func argument ticks target : Z)
  | Deque (element_size element_count front back waiters lock : Z) (buffer : list (list Z))
  | Thread (stack stack_size func argument : Z).

Record object := Object { marker : Z; name : list Z; attr_bits : Z; contents : body }.
#[export] Instance eta_object : Eta object := λ o, Object (marker o) (name o) (attr_bits o) (contents o).

(** A queued message, by the address of its block. *)
Record message := Message { m_priority : Z; m_data : list Z }.

(** Offsets of the fields of the control blocks, and their sizes. *)
Definition futex_of (id : Z) : Z := id + 40.
Definition semaphore_value (id : Z) : Z := id + 72.
Definition eventflags_flags (id : Z) : Z := id + 72.
Definition mutex_value (id : Z) : Z := id + 68.
Definition pool_semaphore (id : Z) : Z := id + 52.
Definition data_available (id : Z) : Z := id + 48.
Definition message_pool (id : Z) : Z := id + 136.
Definition deque_events (id : Z) : Z := id + 48.
Definition SIZEOF_SEMAPHORE : Z := 84.
Definition SIZEOF_EVENTFLAGS : Z := 84.
Definition SIZEOF_MUTEX : Z := 84.
Definition SIZEOF_MEMORY_POOL : Z := 152.
Definition SIZEOF_MESSAGE_QUEUE : Z := 312.
Definition SIZEOF_MESSAGE : Z := 16.
Definition SIZEOF_TIMER : Z := 76.
Definition SIZEOF_DEQUE : Z := 160.
Definition SIZEOF_THREAD : Z := 232.
Definition thread_joiner (id : Z) : Z := id + 56.
Definition thread_flags (id : Z) : Z := id + 140.

(** The resource node of a block of each kind. *)
Definition resource_offset (r : resource_id) : Z :=
  match r with
  | osResourceThread => 224
  | osResourceMutex | osResourceRobustMutex | osResourceSemaphore | osResourceEventFlags => 76
  | osResourceMemoryPool => 144
  | osResourceTimer => 68
  | osResourceMessageQueue => 300
  | osResourceDeque => 152
  end.

Definition resource_marker (r : resource_id) : Z :=
  match r with
  | osResourceThread => RTOS_THREAD_MARKER
  | osResourceMutex | osResourceRobustMutex => RTOS_MUTEX_MARKER
  | osResourceMemoryPool => RTOS_MEMORY_POOL_MARKER
  | osResourceSemaphore => RTOS_SEMAPHORE_MARKER
  | osResourceEventFlags => RTOS_EVENTFLAGS_MARKER
  | osResourceTimer => RTOS_TIMER_MARKER
  | osResourceMessageQueue => RTOS_MESSAGE_QUEUE_MARKER
  | osResourceDeque => RTOS_DEQUE_MARKER
  end.

(** The attributes of a new object: [osSemaphoreAttr_t] and its likes, with the
    second memory area of pools and queues. *)
Record attributes := Attributes {
  a_name : option (list Z); a_bits : Z; a_cb_mem : Z; a_cb_size : Z; a_mem : Z; a_mem_size : Z
}.
Definition default_attributes (n : list Z) : attributes := Attributes (Some n) 0 0 0 0 0.

(** ** The state *)
Record resource := Resource { nodes : list Z; resource_lock : Z }.

Record rtos := Rtos {
  o_sched : sched;
  o_started : bool;                       (* [rtos2_kernel] is set *)
  k_state : kernel_state;
  k_locked : Z;
  k_lock : Z;
  k_resources : resource_id → resource;
  o_primask : Z;
  object_at : gmap Z object;
  message_at : gmap Z message;
  active_timers : list Z;
  active_timers_lock : Z;
  timer_queue : Z;
  timer_thread : Z;
  reaper_thread : Z
}.
#[export] Instance eta_rtos : Eta rtos :=
  λ o, Rtos (o_sched o) (o_started o) (k_state o) (k_locked o) (k_lock o) (k_resources o) (o_primask o)
    (object_at o) (message_at o) (active_timers o) (active_timers_lock o) (timer_queue o) (timer_thread o) (reaper_thread o).

Abbreviation OM := (M rtos).

(** A scheduler function run inside the RTOS state. *)
Definition on_sched {A} (m : SM A) : OM A := λ o,
  match m (o_sched o) with
  | Done a s => Done a (o <| o_sched := s |>)
  | Fault f => Fault f
  end.

Definition get_object (id : Z) : OM object := get_opt (λ o, object_at o !! id) BadPointer.
Definition upd_object (id : Z) (g : object → object) : OM unit :=
  ob <- get_object id ;; upd (λ o, o <| object_at := <[id := g ob]> (object_at o) |>).
Definition set_contents (id : Z) (b : body) : OM unit := upd_object id (λ ob, ob <| contents := b |>).
Definition load (a : Z) : OM Z := on_sched (get_word a).
Definition store (a v : Z) : OM unit := on_sched (set_word a v).

(** [atomic_fetch_add], [atomic_fetch_or] and [atomic_fetch_and]. *)
Definition fetch_map (a : Z) (g : Z → Z) : OM Z := v <- load a ;; store a (g v) ;;; ret v.

(** ** Locks with interrupts masked *)
Section locks.
Context (get_lock : rtos → Z) (set_lock : Z → rtos → rtos).

Definition spin_lock_irqsave : OM Z :=
  primask <- gets o_primask ;;
  upd (λ o, o <| o_primask := 1 |>) ;;;
  spin_lock get_lock set_lock ;;;
  ret primask.

Definition spin_unlock_irqrestore (primask : Z) : OM unit :=
  spin_unlock get_lock set_lock ;;;
  upd (λ o, o <| o_primask := primask |>).

(** [state = spin_lock_irqsave(...); body; spin_unlock_irqrestore(..., state)] *)
Definition locked {A} (body : OM A) : OM A :=
  state <- spin_lock_irqsave ;;
  r <- body ;;
  spin_unlock_irqrestore state ;;;
  ret r.
End locks.

(** What lies outside: interrupt priorities, the allocator behind
    [_rtos2_alloc] and [_rtos2_release] (the C library's [calloc] and [free] by
    default), and everything the rest of the system does to the RTOS state
    while a caller waits. *)
Class RtosEnv := {
  NVIC_GetPriority : Z → Z;
  rtos2_alloc : Z → OM Z;
  rtos2_release : Z → OM unit;
  others_ran : OM unit
}.

Section rtos.
Context `{Environment} `{Trap} `{RtosEnv} (core : Z).

Definition osKernelContextIsValid (allowed : bool) (timeout : Z) : OM Z :=
  irq <- gets (λ o, ipsr (cls (o_sched o) core)) ;;
  ret (if allowed then
         if irq =? 0 then osOK
         else if negb (timeout =? 0) then osErrorParameter
         else if NVIC_GetPriority (irq - 16) =? SCHEDULER_REALTIME_IRQ_PRIORITY then osErrorISR
         else osOK
       else if negb (irq =? 0) then osErrorISR else osOK).

(** Reads the first word of whatever lives at a non-null address. *)
Definition osIsResourceValid (id m : Z) : OM Z :=
  if id =? 0 then ret osErrorParameter
  else
    ob <- get_object id ;;
    ret (if (marker ob =? m) || (marker ob =? not32 m) then osOK else osErrorParameter).

(** [strncpy] into a field of 32 bytes and a terminator; the name it reads back. *)
Definition copy_name (s : list Z) : list Z := take (RTOS_NAME_SIZE - 1) s.
Definition name_or_null (s : list Z) : option (list Z) := if bool_decide (s = []) then None else Some s.

(** [memcpy] of [n] bytes out of a buffer. *)
Definition copy_bytes (n : Z) (buffer : list Z) : OM (list Z) :=
  if Z.of_nat (length buffer) <? n then fail BadPointer else ret (take (Z.to_nat n) buffer).

(** The memory of a control block without a second area: the caller's, when it
    is large enough, or allocated; 0 when there is none. *)
Definition block_memory (size : Z) (attr : attributes) : OM Z :=
  if a_cb_mem attr =? 0 then rtos2_alloc size
  else ret (if a_cb_size attr <? size then 0 else a_cb_mem attr).

(** Marker, name, attribute bits and contents of a new block. *)
Definition new_block (id m bits : Z) (attr : attributes) (default_name : list Z) (b : body) : OM unit :=
  upd (λ o, o <| object_at ::= <[id := Object m (copy_name (default default_name (a_name attr))) bits b]> |>).

(** The attribute bits, with the allocation flag of a block that was allocated. *)
Definition block_bits (id : Z) (attr : attributes) : Z :=
  Z.lor (a_bits attr) (if id =? a_cb_mem attr then 0 else osDynamicAlloc).

(** [if (attr_bits & osDynamicAlloc) release(block)] *)
Definition release_block (id : Z) : OM unit :=
  ob <- get_object id ;;
  when (has (attr_bits ob) osDynamicAlloc) (rtos2_release id).

(** [list_init(&resource_node)]: a node some ring still holds is torn out of it. *)
Definition init_node (node : Z) : OM unit :=
  linked <- gets (λ o, existsb (λ r, bool_decide (node ∈ nodes (k_resources o r))) all_resources) ;;
  when linked (fail RingCorrupted).

(** The validation most calls start with: the context, then the marker. *)
Definition validated {A} (allowed : bool) (timeout id m : Z) (error : Z → A) (k : OM A) : OM A :=
  status <- osKernelContextIsValid allowed timeout ;;
  if negb (status =? osOK) then ret (error status)
  else
    status <- osIsResourceValid id m ;;
    if negb (status =? osOK) then ret (error status) else k.

(** The [GetName] calls: null for anything invalid and for an empty name. *)
Definition get_name (id m : Z) : OM (option (list Z)) :=
  validated false 0 id m (λ _, None) (ob <- get_object id ;; ret (name_or_null (name ob))).

(** ** Resources *)
Definition the_kernel : OM unit :=
  started <- gets o_started ;; if (started : bool) then ret tt else fail BadPointer.

Definition get_resource_lock (r : resource_id) (o : rtos) : Z := resource_lock (k_resources o r).
Definition upd_resource (r : resource_id) (g : resource → resource) (o : rtos) : rtos :=
  o <| k_resources ::= λ f r', if decide (r' = r) then g (f r') else f r' |>.
Definition set_resource_lock (r : resource_id) (l : Z) : rtos → rtos :=
  upd_resource r (λ rs, Resource (nodes rs) l).

Definition node_listed (node : Z) (o : rtos) : bool :=
  existsb (λ r, bool_decide (node ∈ nodes (k_resources o r))) all_resources.
(** [list_remove]: out of whatever ring the node is in. *)
Definition unlist_node (node : Z) (o : rtos) : rtos :=
  o <| k_resources ::= λ f r, Resource (without node (nodes (f r))) (resource_lock (f r)) |>.

(** The source first re-initialises the node at one particular address, which
    is without effect on a node no ring holds. *)
Definition osKernelResourceAdd (r : resource_id) (node : Z) : OM Z :=
  status <- osKernelContextIsValid false 0 ;;
  if negb (status =? osOK) then ret status
  else if node =? 0 then ret osErrorParameter
  else
    the_kernel ;;;
    locked (get_resource_lock r) (set_resource_lock r)
      (linked <- gets (node_listed node) ;;
       when linked (fail RingCorrupted) ;;;
       upd (upd_resource r (λ rs, Resource (nodes rs ++ [node]) (resource_lock rs)))) ;;;
    ret osOK.

Definition osKernelResourceRemove (r : resource_id) (node : Z) : OM Z :=
  status <- osKernelContextIsValid false 0 ;;
  if negb (status =? osOK) then ret status
  else if node =? 0 then ret osErrorParameter
  else
    the_kernel ;;;
    locked (get_resource_lock r) (set_resource_lock r) (upd (unlist_node node)) ;;;
    ret osOK.

(** The walk: [func] until it returns something other than [osOK].  The context
    the callers pass is a variable of theirs; the walk hands it on. *)
Section foreach.
Context {C : Type}.

Fixpoint visit_nodes (func : Z → C → OM (Z * C)) (offset : Z) (l : list Z) (context : C) : OM (Z * C) :=
  match l with
  | [] => ret (osOK, context)
  | node :: l' =>
      r <- func (node - offset) context ;;
      if negb (r.1 =? osOK) then ret r else visit_nodes func offset l' r.2
  end.

Definition osKernelResourceForEach (r : resource_id) (func : option (Z → C → OM (Z * C))) (context : C)
    : OM (Z * C) :=
  status <- osKernelContextIsValid false 0 ;;
  if negb (status =? osOK) then ret (status, context)
  else match func with
  | None => ret (osErrorParameter, context)
  | Some func =>
      the_kernel ;;;
      locked (get_resource_lock r) (set_resource_lock r)
        (l <- gets (λ o, nodes (k_resources o r)) ;; visit_nodes func (resource_offset r) l context)
  end.
End foreach.

Definition osKernelResourceReqistered (resource context : Z) : OM (Z * Z) :=
  ret (if resource =? context then 1 else osOK, context).

Definition osKernelResourceIsRegistered (r : resource_id) (resource : Z) : OM Z :=
  result <- osKernelResourceForEach r (Some osKernelResourceReqistered) resource ;;
  ret (if 1 <=? result.1 then osOK else osErrorResource).
End rtos.
