(* ===== verification/Kernel.v ===== *)
(** * The RTOS kernel: state, lock, delays and one-time initialisation

    [cmsis-rtos2-kernel.c] and [cmsis-rtos2-generic-wait.c]: the kernel state
    machine, the kernel lock on top of the scheduler's, [osCallOnce], the error
    numbers and the delays. *)
From S2P Require Import Prelude Spinlock Scheduler SchedulerSvc SchedulerApi Rtos.

(** What [osKernelInitialize] reads from the loader. *)
Class RtosImage := {
  kernel_scheduler : Z;      (* the address of [kernel.scheduler] *)
  tls_size : Z;              (* the address of [__tls_size], taken as a size *)
  futex_slot : Z → OM Z;     (* where the frame of [osCallOnce] puts its local futex *)
  timer_thread_init : Z;     (* the addresses of the two once flags *)
  reaper_thread_init : Z;
  sys_tick_load : Z;
  sys_tick_val : rtos → Z;
  SystemCoreClock : Z
}.

Section kernel.
Context `{Environment} `{Trap} `{RtosEnv} `{RtosImage} (core : Z).

Definition set_state (st : kernel_state) : OM unit := upd (λ o, o <| k_state := st |>).
Definition state_is (st : kernel_state) (o : rtos) : bool := bool_decide (k_state o = st).

Definition osKernelInitialize : OM Z :=
  upd (λ o, o <| k_lock := 0 |>) ;;;
  status <- osKernelContextIsValid core false 0 ;;
  if negb (status =? osOK) then ret status
  else
    started <- gets o_started ;;
    if (started : bool) then ret osError
    else
      status <- on_sched (scheduler_init kernel_scheduler tls_size) ;;
      if status <? 0 then ret osError
      else
        upd (λ o, o <| k_resources := λ _, Resource [] 0 |>) ;;;
        set_state osKernelReady ;;;
        upd (λ o, o <| o_started := true |>) ;;;
        ret osOK.

Definition osKernelGetState : OM kernel_state :=
  started <- gets o_started ;;
  if negb started then ret osKernelInactive else gets k_state.

Definition osKernelStart : OM Z :=
  status <- osKernelContextIsValid core false 0 ;;
  if negb (status =? osOK) then ret status
  else
    ready <- gets (λ o, o_started o && state_is osKernelReady o) ;;
    if negb ready then ret osError
    else
      set_state osKernelRunning ;;;
      status <- on_sched (scheduler_run core) ;;
      others_ran ;;;
      ret (if status =? 0 then osOK else osError).

Definition get_kernel_lock (o : rtos) : Z := k_lock o.
Definition set_kernel_lock (l : Z) (o : rtos) : rtos := o <| k_lock := l |>.

(** The state checks [osKernelLock], [osKernelUnlock] and [osKernelRestoreLock]
    share, around their critical section. *)
Definition while_running (body : OM Z) : OM Z :=
  status <- osKernelContextIsValid core false 0 ;;
  if negb (status =? osOK) then ret status
  else
    the_kernel ;;;
    up <- gets (λ o, state_is osKernelRunning o || state_is osKernelLocked o) ;;
    if negb up then ret osError else body.

Definition osKernelLock : OM Z :=
  while_running (locked get_kernel_lock set_kernel_lock
    (prev <- gets k_locked ;;
     upd (λ o, o <| k_locked := 1 |>) ;;;
     set_state osKernelLocked ;;;
     when (prev =? 0) (_old <- on_sched scheduler_lock ;; ret tt) ;;;
     ret prev)).

Definition osKernelUnlock : OM Z :=
  while_running (locked get_kernel_lock set_kernel_lock
    (prev <- gets k_locked ;;
     upd (λ o, o <| k_locked := 0 |>) ;;;
     set_state osKernelRunning ;;;
     when (negb (prev =? 0)) (_old <- on_sched scheduler_unlock ;; ret tt) ;;;
     ret prev)).

Definition osKernelRestoreLock (lock : Z) : OM Z :=
  while_running
    (locked get_kernel_lock set_kernel_lock
       (upd (λ o, o <| k_locked := lock |>) ;;;
        if negb (lock =? 0) then
          _old <- on_sched scheduler_lock ;; set_state osKernelLocked
        else
          _old <- on_sched scheduler_unlock ;; set_state osKernelRunning) ;;;
     gets k_locked).

Definition osKernelSuspend : OM Z :=
  status <- osKernelContextIsValid core false 0 ;;
  if negb (status =? osOK) then ret (u32 status)
  else
    the_kernel ;;;
    suspended <- gets (state_is osKernelSuspended) ;;
    if (suspended : bool) then ret 0 else set_state osKernelSuspended ;;; ret osWaitForever.

Definition osKernelResume (sleep_ticks : Z) : OM unit :=
  status <- osKernelContextIsValid core false 0 ;;
  if negb (status =? osOK) then ret tt else the_kernel ;;; set_state osKernelRunning.

Definition osKernelGetTickCount : OM Z := gets (λ o, scheduler_get_ticks (o_sched o)).
Definition osKernelGetTickFreq : OM Z := ret SCHEDULER_TICK_FREQ.
Definition osKernelGetSysTimerCount : OM Z :=
  val <- gets sys_tick_val ;;
  ticks <- osKernelGetTickCount ;;
  ret (u32 (sys_tick_load - val + ticks * (sys_tick_load + 1))).
Definition osKernelGetSysTimerFreq : OM Z := ret SystemCoreClock.

(** ** One-time initialisation *)

(** [atomic_compare_exchange_strong(addr, &expected, desired)] *)
Definition cas (addr expected desired : Z) : OM (bool * Z) := on_sched (compare_exchange addr expected desired).

(** A futex call, and whatever the other tasks do before the caller runs on. *)
Definition futex_wait (f value n : Z) : OM Z :=
  status <- on_sched (scheduler_futex_wait core f value n) ;; others_ran ;;; ret status.
Definition futex_wake (f : Z) (all : bool) : OM Z :=
  status <- on_sched (scheduler_futex_wake core f all) ;; others_ran ;;; ret status.

Fixpoint await_once (fuel : nat) (once_flag futex expected : Z) : OM unit :=
  match fuel with
  | O => fail OutOfFuel
  | S fuel' =>
      cx <- cas once_flag expected 2 ;;
      if (cx.1 : bool) then ret tt
      else _status <- futex_wait futex cx.2 SCHEDULER_WAIT_FOREVER ;; await_once fuel' once_flag futex 2
  end.

Definition osCallOnce (fuel : nat) (once_flag : Z) (func : OM unit) : OM unit :=
  done <- load once_flag ;;
  if done =? 2 then ret tt
  else
    futex <- futex_slot once_flag ;;
    on_sched (scheduler_futex_init futex once_flag 0) ;;;
    cx <- cas once_flag 0 1 ;;
    if negb cx.1 then await_once fuel once_flag futex 2
    else
      func ;;;
      store once_flag 2 ;;;
      _status <- futex_wake futex true ;; ret tt.

Definition errno_from_rtos (code : Z) : Z :=
  if code =? osErrorTimeout then ETIMEDOUT
  else if code =? osErrorResource then ERESOURCE
  else if code =? osErrorParameter then EINVAL
  else if code =? osErrorNoMemory then ENOMEM
  else if code =? osErrorISR then ENOTSUP
  else ERTOS.

(** ** Delays *)

(** The checks [osDelay] and [osDelayUntil] share, and the sleep. *)
Definition delay (n : Z) (sleep : OM Z) : OM Z :=
  if n =? 0 then ret osErrorParameter
  else
    st <- osKernelGetState ;;
    if negb (bool_decide (st = osKernelRunning)) then ret osError
    else
      status <- osKernelContextIsValid core false n ;;
      if negb (status =? osOK) then ret status
      else
        ticks <- sleep ;;
        status <- on_sched (scheduler_sleep core ticks) ;;
        others_ran ;;;
        ret (if status <? 0 then osError else osOK).

Definition osDelay (n : Z) : OM Z := delay n (ret n).
Definition osDelayUntil (n : Z) : OM Z := delay n (now <- gets (λ o, scheduler_get_ticks (o_sched o)) ;; ret (u32 (n - now))).
End kernel.

(** ** Rules *)
Section rules.
Implicit Types (o : rtos) (s : sched).

Lemma wp_on_sched {A} (m : SM A) (Q : A → rtos → Prop) o :
  wp m (λ a s, Q a (o <| o_sched := s |>)) (o_sched o) → wp (on_sched m) Q o.
Proof. unfold wp, on_sched. destruct (m (o_sched o)); done. Qed.

(** Nobody holds the lock or waits for it. *)
Definition free_lock (w : Z) : Prop := ∃ n, w = lock_word n n.
Definition released_lock (w : Z) : Z := serve_next (take_ticket w).

Lemma free_released w : free_lock w → free_lock (released_lock w).
Proof. intros [n ->]. exists (n + 1). unfold released_lock. by rewrite take_ticket_word, serve_next_word. Qed.

Lemma free_take w : free_lock w → serving (take_ticket w) = next_ticket w.
Proof.
  intros [n ->]. rewrite take_ticket_word, (proj1 (lock_word_parts _ _)), (proj2 (lock_word_parts _ _)). done.
Qed.

(** A critical section on a free lock: the body runs with interrupts masked and
    the ticket taken, and the lock is free again afterwards. *)
Lemma wp_locked {A} (get_lock : rtos → Z) set_lock (body : OM A) (Q : A → rtos → Prop) o :
  let o1 := set_lock (take_ticket (get_lock o)) (o <| o_primask := 1 |>) in
  free_lock (get_lock o) → get_lock (o <| o_primask := 1 |>) = get_lock o →
  get_lock o1 = take_ticket (get_lock o) →
  wp body (λ a o2, Q a ((set_lock (serve_next (get_lock o2)) o2) <| o_primask := o_primask o |>)) o1 →
  wp (locked get_lock set_lock body) Q o.
Proof.
  intros o1 Hf Hg1 Hg2 Hb. unfold wp in *.
  unfold locked, spin_lock_irqsave, spin_unlock_irqrestore, spin_lock, spin_unlock, bind, gets, upd, ret.
  rewrite Hg1. fold o1. rewrite Hg2, (free_take _ Hf), Z.eqb_refl. cbn [negb]. by destruct (body o1).
Qed.
End rules.
