(* ===== verification/Semaphore.v ===== *)
(** * Counting semaphores

    [cmsis-rtos2-semaphore.c].  The count is the word the futex of the
    semaphore compares.  The compare exchange of the acquire loop is taken as
    strong: the target's does not fail spuriously. *)
From S2P Require Import Prelude Spinlock Scheduler SchedulerSvc SchedulerApi Rtos Kernel.

Section semaphore.
Context `{Environment} `{Trap} `{RtosEnv} (core : Z).

Definition semaphore_node (id : Z) : Z := id + resource_offset osResourceSemaphore.

Definition osSemaphoreNew (max_count initial_count : Z) (attr : option attributes) : OM Z :=
  status <- osKernelContextIsValid core false 0 ;;
  if negb (status =? osOK) then ret 0
  else
    let attr := default (default_attributes []) attr in
    id <- block_memory SIZEOF_SEMAPHORE attr ;;
    if id =? 0 then ret 0
    else
      new_block id RTOS_SEMAPHORE_MARKER (block_bits id attr) attr [] (Semaphore max_count) ;;;
      store (semaphore_value id) initial_count ;;;
      on_sched (scheduler_futex_init (futex_of id) (semaphore_value id) 0) ;;;
      init_node (semaphore_node id) ;;;
      status <- osKernelResourceAdd core osResourceSemaphore (semaphore_node id) ;;
      if negb (status =? osOK) then release_block id ;;; ret 0
      else ret id.

Definition osSemaphoreGetName (id : Z) : OM (option (list Z)) := get_name core id RTOS_SEMAPHORE_MARKER.

(** What a failed wait means for the caller. *)
Definition wait_error (status : Z) : Z :=
  if (status =? - ETIMEDOUT) || (status =? - ECANCELED) then osErrorTimeout else osError.

Fixpoint acquire_token (fuel : nat) (id timeout expected : Z) : OM Z :=
  match fuel with
  | O => fail OutOfFuel
  | S fuel' =>
      cx <- cas (semaphore_value id) expected (u32 (expected - 1)) ;;
      if (cx.1 : bool) then ret osOK
      else if cx.2 =? 0 then
        if timeout =? 0 then ret osErrorResource
        else
          status <- futex_wait core (futex_of id) 0 timeout ;;
          if status <? 0 then ret (wait_error status) else acquire_token fuel' id timeout 1
      else acquire_token fuel' id timeout cx.2
  end.

Definition osSemaphoreAcquire (fuel : nat) (id timeout : Z) : OM Z :=
  validated core true timeout id RTOS_SEMAPHORE_MARKER (λ e, e) (acquire_token fuel id timeout 1).

(** The [max_count] of a valid semaphore. *)
Definition max_count_of (id : Z) : OM Z :=
  get_opt (λ o, match object_at o !! id with
                | Some (Object _ _ _ (Semaphore n)) => Some n
                | _ => None
                end) BadPointer.

Definition osSemaphoreRelease (id : Z) : OM Z :=
  validated core true 0 id RTOS_SEMAPHORE_MARKER (λ e, e)
    (value <- load (semaphore_value id) ;;
     max_count <- max_count_of id ;;
     if max_count <=? value then ret osErrorResource
     else
       old <- fetch_map (semaphore_value id) (λ v, u32 (v + 1)) ;;
       when (old =? 0) (_status <- futex_wake core (futex_of id) false ;; ret tt) ;;;
       ret osOK).

(** The context error is returned as a count. *)
Definition osSemaphoreGetCount (id : Z) : OM Z :=
  status <- osKernelContextIsValid core true 0 ;;
  if negb (status =? osOK) then ret (u32 status)
  else
    status <- osIsResourceValid id RTOS_SEMAPHORE_MARKER ;;
    if negb (status =? osOK) then ret 0 else load (semaphore_value id).

Definition osSemaphoreDelete (id : Z) : OM Z :=
  validated core false 0 id RTOS_SEMAPHORE_MARKER (λ e, e)
    (upd_object id (λ ob, ob <| marker := 0 |>) ;;;
     status <- osKernelResourceRemove core osResourceSemaphore (semaphore_node id) ;;
     if negb (status =? osOK) then ret status else release_block id ;;; ret osOK).
End semaphore.
