(* ===== verification/MemoryPool.v ===== *)
(** * Memory pools

    [cmsis-rtos2-pool.c].  The free list is threaded through the first word of
    the free blocks, in the word memory; the pool's semaphore counts them. *)
From S2P Require Import Prelude Spinlock Scheduler SchedulerSvc SchedulerApi Rtos Kernel Semaphore.

Section pool.
Context `{Environment} `{Trap} `{RtosEnv} (core : Z).

Record pool := Pool { p_block_size : Z; p_capacity : Z; p_data : Z; p_free_list : Z; p_lock : Z }.

Definition pool_of (o : rtos) (id : Z) : option pool :=
  match object_at o !! id with
  | Some (Object _ _ _ (MemoryPool bs n d fl l)) => Some (Pool bs n d fl l)
  | _ => None
  end.
Definition get_pool (id : Z) : OM pool := get_opt (λ o, pool_of o id) BadPointer.
Definition set_free_list (id b : Z) : OM unit :=
  p <- get_pool id ;; set_contents id (MemoryPool (p_block_size p) (p_capacity p) (p_data p) b (p_lock p)).

(** The pool's lock as the lock of a critical section. *)
Definition get_pool_lock (id : Z) (o : rtos) : Z := from_option p_lock 0 (pool_of o id).
Definition set_pool_lock (id l : Z) (o : rtos) : rtos :=
  match object_at o !! id with
  | Some (Object m n a (MemoryPool bs k d fl _)) => o <| object_at ::= <[id := Object m n a (MemoryPool bs k d fl l)]> |>
  | _ => o
  end.

Definition pool_node (id : Z) : Z := id + resource_offset osResourceMemoryPool.

(** Thread the blocks [i .. i+n-1] onto the free list. *)
Fixpoint thread_blocks (n : nat) (i : Z) (id block_size : Z) : OM unit :=
  match n with
  | O => ret tt
  | S n' =>
      p <- get_pool id ;;
      let block := u32 (p_data p + u32 (i * block_size)) in
      store block (p_free_list p) ;;;
      set_free_list id block ;;;
      thread_blocks n' (i + 1) id block_size
  end.

Definition round4 (n : Z) : Z := Z.land (u32 (n + 3)) (not32 3).

(** The control block and the block memory of a new pool. *)
Definition pool_memory (size : Z) (attr : attributes) : OM (option (Z * Z * Z)) :=
  if (a_cb_mem attr =? 0) && (a_mem attr =? 0) then
    id <- rtos2_alloc (SIZEOF_MEMORY_POOL + size) ;;
    ret (if id =? 0 then None else Some (id, id + SIZEOF_MEMORY_POOL, Z.lor (a_bits attr) osDynamicAlloc))
  else if negb (a_cb_mem attr =? 0) && negb (a_mem attr =? 0) then
    if (a_cb_size attr <? SIZEOF_MEMORY_POOL) || (a_mem_size attr <? size) then ret None
    else
      (* the attribute bits keep what the caller's memory held *)
      bits <- gets (λ o, from_option attr_bits 0 (object_at o !! a_cb_mem attr)) ;;
      ret (Some (a_cb_mem attr, a_mem attr, bits))
  else ret None.

Definition osMemoryPoolNew (block_count block_size : Z) (attr : option attributes) : OM Z :=
  status <- osKernelContextIsValid core false 0 ;;
  if negb (status =? osOK) then ret 0
  else if negb (block_size =? round4 block_size) then ret 0
  else
    let attr := default (default_attributes []) attr in
    mem <- pool_memory (u32 (block_size * block_count)) attr ;;
    match mem with
    | None => ret 0
    | Some (id, data, bits) =>
        new_block id RTOS_MEMORY_POOL_MARKER bits attr [] (MemoryPool block_size block_count data 0 0) ;;;
        sem <- osSemaphoreNew core block_count block_count
                 (Some (Attributes (a_name attr) 0 (pool_semaphore id) SIZEOF_SEMAPHORE 0 0)) ;;
        if sem =? 0 then release_block id ;;; ret 0
        else
          thread_blocks (Z.to_nat block_count) 0 id block_size ;;;
          status <- osKernelResourceAdd core osResourceMemoryPool (pool_node id) ;;
          if negb (status =? osOK) then
            _status <- osSemaphoreDelete core (pool_semaphore id) ;; release_block id ;;; ret 0
          else ret id
    end.

Definition osMemoryPoolGetName (id : Z) : OM (option (list Z)) := get_name core id RTOS_MEMORY_POOL_MARKER.

(** Returns 0 where the C code returns a null pointer. *)
Definition osMemoryPoolAlloc (fuel : nat) (id timeout : Z) : OM Z :=
  validated core true timeout id RTOS_MEMORY_POOL_MARKER (λ _, 0)
    (status <- osSemaphoreAcquire core fuel (pool_semaphore id) timeout ;;
     if negb (status =? osOK) then ret 0
     else
       locked (get_pool_lock id) (set_pool_lock id)
         (p <- get_pool id ;;
          next <- load (p_free_list p) ;;
          set_free_list id next ;;;
          ret (p_free_list p))).

(** The range check of [osMemoryPoolFree] and [osMemoryPoolIsBlockValid]. *)
Definition in_pool (p : pool) (block : Z) : bool :=
  negb ((block <? p_data p) || (u32 (p_data p + u32 (p_block_size p * p_capacity p)) <? block)).

(** [list_remove] of a node at a raw address of the word memory. *)
Definition raw_list_remove (node : Z) : OM unit :=
  next <- load node ;;
  prev <- load (node + 4) ;;
  assert (negb (node =? 0) && negb (next =? 0) && negb (prev =? 0)) ;;;
  store (next + 4) prev ;;;
  store prev next ;;;
  store node node ;;;
  store (node + 4) node.

Definition osMemoryPoolFree (id block : Z) : OM Z :=
  validated core true 0 id RTOS_MEMORY_POOL_MARKER (λ e, e)
    (p <- get_pool id ;;
     if negb (in_pool p block) then ret osErrorParameter
     else
       locked (get_pool_lock id) (set_pool_lock id)
         (p <- get_pool id ;;
          store block (p_free_list p) ;;;
          set_free_list id block) ;;;
       status <- osSemaphoreRelease core (pool_semaphore id) ;;
       if negb (status =? osOK) then
         locked (get_pool_lock id) (set_pool_lock id) (raw_list_remove block) ;;;
         ret status
       else ret osOK).

Definition osMemoryPoolGetCapacity (id : Z) : OM Z :=
  validated core true 0 id RTOS_MEMORY_POOL_MARKER (λ _, 0) (p <- get_pool id ;; ret (p_capacity p)).

Definition osMemoryPoolGetBlockSize (id : Z) : OM Z :=
  validated core true 0 id RTOS_MEMORY_POOL_MARKER (λ _, 0) (p <- get_pool id ;; ret (p_block_size p)).

Definition osMemoryPoolGetCount (id : Z) : OM Z :=
  validated core true 0 id RTOS_MEMORY_POOL_MARKER (λ _, 0)
    (p <- get_pool id ;;
     free <- osSemaphoreGetCount core (pool_semaphore id) ;;
     ret (u32 (p_capacity p - free))).

Definition osMemoryPoolGetSpace (id : Z) : OM Z :=
  validated core true 0 id RTOS_MEMORY_POOL_MARKER (λ _, 0) (osSemaphoreGetCount core (pool_semaphore id)).

(** An invalid context or pool is answered 0, which is [osOK]. *)
Definition osMemoryPoolIsBlockValid (id block : Z) : OM Z :=
  validated core true 0 id RTOS_MEMORY_POOL_MARKER (λ _, 0)
    (p <- get_pool id ;; ret (if in_pool p block then osOK else osErrorParameter)).

Definition osMemoryPoolDelete (id : Z) : OM Z :=
  validated core false 0 id RTOS_MEMORY_POOL_MARKER (λ e, e)
    (upd_object id (λ ob, ob <| marker := 0 |>) ;;;
     status <- osKernelResourceRemove core osResourceMemoryPool (pool_node id) ;;
     if negb (status =? osOK) then ret status
     else
       status <- osSemaphoreDelete core (pool_semaphore id) ;;
       if negb (status =? osOK) then ret status else release_block id ;;; ret osOK).
End pool.
