(* ===== verification/MessageQueue.v ===== *)
(** * Message queues

    [cmsis-rtos2-message-queue.c].  A message is a block of the queue's pool;
    [MessageQueue]'s last field is the ring of queued messages, most urgent
    first, and [message_at] holds their priorities and data.  Buffers of the
    caller are lists of bytes; [None] is a null pointer. *)
From S2P Require Import Prelude Spinlock Scheduler SchedulerSvc SchedulerApi Rtos Kernel Semaphore MemoryPool.

Section queue.
Context `{Environment} `{Trap} `{RtosEnv} (core : Z).

Record mqueue := Queue { q_msg_size : Z; q_msg_count : Z; q_lock : Z; q_messages : list Z }.

Definition queue_of (o : rtos) (id : Z) : option mqueue :=
  match object_at o !! id with
  | Some (Object _ _ _ (MessageQueue sz n l ms)) => Some (Queue sz n l ms)
  | _ => None
  end.
Definition get_mqueue (id : Z) : OM mqueue := get_opt (λ o, queue_of o id) BadPointer.
Definition set_messages (id : Z) (ms : list Z) : OM unit :=
  q <- get_mqueue id ;; set_contents id (MessageQueue (q_msg_size q) (q_msg_count q) (q_lock q) ms).
Definition get_queue_lock (id : Z) (o : rtos) : Z := from_option q_lock 0 (queue_of o id).
Definition set_queue_lock (id l : Z) (o : rtos) : rtos :=
  match object_at o !! id with
  | Some (Object m n a (MessageQueue sz k _ ms)) => o <| object_at ::= <[id := Object m n a (MessageQueue sz k l ms)]> |>
  | _ => o
  end.

Definition queue_node (id : Z) : Z := id + resource_offset osResourceMessageQueue.

(** The control block and the message memory of a new queue. *)
Definition queue_memory (size : Z) (attr : attributes) : OM (option (Z * Z * Z * Z)) :=
  if (a_cb_mem attr =? 0) && (a_mem attr =? 0) then
    id <- rtos2_alloc (SIZEOF_MESSAGE_QUEUE + size) ;;
    ret (if id =? 0 then None else Some (id, id + SIZEOF_MESSAGE_QUEUE, size, Z.lor (a_bits attr) osDynamicAlloc))
  else if negb (a_cb_mem attr =? 0) && negb (a_mem attr =? 0) then
    if (a_cb_size attr <? SIZEOF_MESSAGE_QUEUE) || (a_mem_size attr <? size) then ret None
    else
      bits <- gets (λ o, from_option attr_bits 0 (object_at o !! a_cb_mem attr)) ;;
      ret (Some (a_cb_mem attr, a_mem attr, a_mem_size attr, bits))
  else ret None.

Definition delete_queue (id : Z) : OM Z := release_block id ;;; ret 0.

Definition osMessageQueueNew (msg_count msg_size : Z) (attr : option attributes) : OM Z :=
  status <- osKernelContextIsValid core false 0 ;;
  if negb (status =? osOK) then ret 0
  else
    let attr := default (default_attributes []) attr in
    let msg_size := round4 msg_size in
    mem <- queue_memory (u32 ((SIZEOF_MESSAGE + msg_size) * msg_count)) attr ;;
    match mem with
    | None => ret 0
    | Some (id, pool_data, pool_size, bits) =>
        new_block id RTOS_MESSAGE_QUEUE_MARKER bits attr [] (MessageQueue msg_size msg_count 0 []) ;;;
        ob <- get_object id ;;
        pool <- osMemoryPoolNew core msg_count (SIZEOF_MESSAGE + msg_size)
                  (Some (Attributes (Some (name ob)) 0 (message_pool id) SIZEOF_MEMORY_POOL pool_data pool_size)) ;;
        if pool =? 0 then delete_queue id
        else
          sem <- osSemaphoreNew core msg_count 0
                   (Some (Attributes (Some (name ob)) 0 (data_available id) SIZEOF_SEMAPHORE 0 0)) ;;
          if sem =? 0 then _status <- osMemoryPoolDelete core (message_pool id) ;; delete_queue id
          else
            status <- osKernelResourceAdd core osResourceMessageQueue (queue_node id) ;;
            if negb (status =? osOK) then
              _status <- osSemaphoreDelete core (data_available id) ;;
              _status <- osMemoryPoolDelete core (message_pool id) ;;
              delete_queue id
            else ret id
    end.

Definition osMessageQueueGetName (id : Z) : OM (option (list Z)) := get_name core id RTOS_MESSAGE_QUEUE_MARKER.

Definition message_priority (o : rtos) (m : Z) : Z := from_option m_priority 0 (message_at o !! m).

(** The failed allocation or acquisition of a put or a get. *)
Definition queue_busy (timeout : Z) : Z := if timeout =? 0 then osErrorResource else osErrorTimeout.

Definition osMessageQueuePut (fuel : nat) (id : Z) (msg : option (list Z)) (prio timeout : Z) : OM Z :=
  match msg with
  | None => ret osErrorParameter
  | Some buffer =>
    validated core true timeout id RTOS_MESSAGE_QUEUE_MARKER (λ e, e)
      (message <- osMemoryPoolAlloc core fuel (message_pool id) timeout ;;
       if message =? 0 then ret (queue_busy timeout)
       else
         q <- get_mqueue id ;;
         data <- copy_bytes (q_msg_size q) buffer ;;
         upd (λ o, o <| message_at ::= <[message := Message prio data]> |>) ;;;
         locked (get_queue_lock id) (set_queue_lock id)
           (q <- get_mqueue id ;;
            when (bool_decide (message ∈ q_messages q)) (fail RingCorrupted) ;;;
            o <- get ;;
            set_messages id (place (λ m, message_priority o m <? prio) message (q_messages q))) ;;;
         status <- osSemaphoreRelease core (data_available id) ;;
         when (negb (status =? osOK))
           (locked (get_queue_lock id) (set_queue_lock id)
              (q <- get_mqueue id ;; set_messages id (without message (q_messages q))) ;;;
            _status <- osMemoryPoolFree core (message_pool id) message ;; ret tt) ;;;
         ret status)
  end.

(** [list_pop_entry] on the ring of messages; 0 when it is empty. *)
Definition pop_message (id : Z) : OM Z :=
  locked (get_queue_lock id) (set_queue_lock id)
    (q <- get_mqueue id ;;
     match q_messages q with
     | [] => ret 0
     | m :: ms => set_messages id (without m ms) ;;; ret m
     end).

(** What a get hands back: the data and the priority, next to the status. *)
Definition osMessageQueueGet (fuel : nat) (id : Z) (room : bool) (timeout : Z) : OM (Z * option (list Z * Z)) :=
  if negb room then ret (osErrorParameter, None)
  else
    validated core true timeout id RTOS_MESSAGE_QUEUE_MARKER (λ e, (e, None))
      (status <- osSemaphoreAcquire core fuel (data_available id) timeout ;;
       if negb (status =? osOK) then ret (queue_busy timeout, None)
       else
         message <- pop_message id ;;
         if message =? 0 then ret (osError, None)
         else
           m <- get_opt (λ o, message_at o !! message) BadPointer ;;
           q <- get_mqueue id ;;
           data <- copy_bytes (q_msg_size q) (m_data m) ;;
           status <- osMemoryPoolFree core (message_pool id) message ;;
           ret (status, Some (data, Z.land (m_priority m) 0xff))).

Definition osMessageQueueGetCapacity (id : Z) : OM Z :=
  validated core true 0 id RTOS_MESSAGE_QUEUE_MARKER (λ _, 0) (q <- get_mqueue id ;; ret (q_msg_count q)).
Definition osMessageQueueGetMsgSize (id : Z) : OM Z :=
  validated core true 0 id RTOS_MESSAGE_QUEUE_MARKER (λ _, 0) (q <- get_mqueue id ;; ret (q_msg_size q)).

Definition osMessageQueueGetCount (id : Z) : OM Z :=
  status <- osIsResourceValid id RTOS_MESSAGE_QUEUE_MARKER ;;
  if negb (status =? osOK) then ret 0 else osSemaphoreGetCount core (data_available id).
Definition osMessageQueueGetSpace (id : Z) : OM Z :=
  status <- osIsResourceValid id RTOS_MESSAGE_QUEUE_MARKER ;;
  if negb (status =? osOK) then ret 0 else osMemoryPoolGetSpace core (message_pool id).

Fixpoint release_messages (fuel : nat) (id : Z) : OM Z :=
  match fuel with
  | O => fail OutOfFuel
  | S fuel' =>
      count <- osSemaphoreGetCount core (data_available id) ;;
      if count <=? 0 then ret osOK
      else
        status <- osSemaphoreAcquire core fuel (data_available id) osWaitForever ;;
        if negb (status =? osOK) then ret status
        else
          message <- pop_message id ;;
          if message =? 0 then ret osError
          else
            status <- osMemoryPoolFree core (message_pool id) message ;;
            if negb (status =? osOK) then ret status else release_messages fuel' id
  end.

Definition osMessageQueueReset (fuel : nat) (id : Z) : OM Z :=
  validated core false 0 id RTOS_MESSAGE_QUEUE_MARKER (λ e, e) (release_messages fuel id).

Definition osMessageQueueDelete (id : Z) : OM Z :=
  validated core false 0 id RTOS_MESSAGE_QUEUE_MARKER (λ e, e)
    (upd_object id (λ ob, ob <| marker := 0 |>) ;;;
     status <- osKernelResourceRemove core osResourceMessageQueue (queue_node id) ;;
     if negb (status =? osOK) then ret status
     else
       status <- osSemaphoreDelete core (data_available id) ;;
       if negb (status =? osOK) then ret status
       else
         status <- osMemoryPoolDelete core (message_pool id) ;;
         if negb (status =? osOK) then ret status else release_block id ;;; ret osOK).
End queue.
