(* ===== verification/EventFlags.v ===== *)
(** * Event flags

    [cmsis-rtos2-eventflags.c].  The flags are the word the futex compares. *)
From S2P Require Import Prelude Spinlock Scheduler SchedulerSvc SchedulerApi Rtos Kernel Semaphore.

(** What a wait needs of the threads: the end of the calling one. *)
Class Threads := { osThreadExit : OM unit }.

Section eventflags.
Context `{Environment} `{Trap} `{RtosEnv} (core : Z).

Definition eventflags_node (id : Z) : Z := id + resource_offset osResourceEventFlags.

Definition osEventFlagsNew (attr : option attributes) : OM Z :=
  status <- osKernelContextIsValid core false 0 ;;
  if negb (status =? osOK) then ret 0
  else
    let attr := default (default_attributes []) attr in
    id <- block_memory SIZEOF_EVENTFLAGS attr ;;
    if id =? 0 then ret 0
    else
      new_block id RTOS_EVENTFLAGS_MARKER (block_bits id attr) attr [] (EventFlags 0) ;;;
      store (eventflags_flags id) 0 ;;;
      on_sched (scheduler_futex_init (futex_of id) (eventflags_flags id) 0) ;;;
      init_node (eventflags_node id) ;;;
      status <- osKernelResourceAdd core osResourceEventFlags (eventflags_node id) ;;
      if negb (status =? osOK) then release_block id ;;; ret 0 else ret id.

Definition osEventFlagsGetName (id : Z) : OM (option (list Z)) := get_name core id RTOS_EVENTFLAGS_MARKER.

(** [waiters] of a valid block, and an update of it. *)
Definition waiters_of (id : Z) : OM Z :=
  get_opt (λ o, match object_at o !! id with
                | Some (Object _ _ _ (EventFlags n)) => Some n
                | _ => None
                end) BadPointer.
Definition add_waiters (id n : Z) : OM unit := w <- waiters_of id ;; set_contents id (EventFlags (s32 (w + n))).

Definition osEventFlagsSet (id flags : Z) : OM Z :=
  if has flags osFlagsError then ret osFlagsErrorParameter
  else
    status <- osIsResourceValid id RTOS_EVENTFLAGS_MARKER ;;
    if negb (status =? osOK) then ret osFlagsErrorParameter
    else
      prev <- fetch_map (eventflags_flags id) (λ v, Z.lor v flags) ;;
      if negb (Z.land prev flags =? flags) then
        status <- futex_wake core (futex_of id) true ;;
        ret (if status <? 0 then osFlagsError else Z.lor prev flags)
      else ret prev.

Definition osEventFlagsClear (id flags : Z) : OM Z :=
  if has flags osFlagsError then ret osFlagsErrorParameter
  else
    status <- osIsResourceValid id RTOS_EVENTFLAGS_MARKER ;;
    if negb (status =? osOK) then ret osFlagsErrorParameter
    else fetch_map (eventflags_flags id) (λ v, Z.land v (not32 flags)).

Definition osEventFlagsGet (id : Z) : OM Z :=
  status <- osIsResourceValid id RTOS_EVENTFLAGS_MARKER ;;
  if negb (status =? osOK) then ret 0 else load (eventflags_flags id).

(** Does the wait for [flags] end with these flags set? *)
Definition flags_met (options flags prev : Z) : bool :=
  if has options osFlagsWaitAll then Z.land prev flags =? flags else negb (Z.land prev flags =? 0).

Section wait.
Context `{Threads}.

Fixpoint await_flags (fuel : nat) (id flags options timeout clear : Z) : OM Z :=
  match fuel with
  | O => fail OutOfFuel
  | S fuel' =>
      prev <- load (eventflags_flags id) ;;
      if flags_met options flags prev then
        add_waiters id (-1) ;;;
        fetch_map (eventflags_flags id) (λ v, Z.land v clear)
      else if timeout =? 0 then add_waiters id (-1) ;;; ret osFlagsErrorResource
      else
        when (has prev osFlagsError) (add_waiters id (-1) ;;; osThreadExit) ;;;
        status <- futex_wait core (futex_of id) prev timeout ;;
        if status <? 0 then add_waiters id (-1) ;;; ret (u32 (wait_error status))
        else await_flags fuel' id flags options timeout clear
  end.

(** The errors of the validation are statuses, returned as flags. *)
Definition osEventFlagsWait (fuel : nat) (id flags options timeout : Z) : OM Z :=
  if has flags osFlagsError then ret osFlagsErrorParameter
  else
    validated core true timeout id RTOS_EVENTFLAGS_MARKER u32
      (add_waiters id 1 ;;;
       await_flags fuel id flags options timeout
         (if has options osFlagsNoClear then UINT32_MAX else not32 flags)).

End wait.

Definition osEventFlagsDelete (id : Z) : OM Z :=
  validated core false 0 id RTOS_EVENTFLAGS_MARKER (λ e, e)
    (w <- waiters_of id ;;
     if 0 <? w then ret osErrorResource
     else
       status <- osKernelResourceRemove core osResourceEventFlags (eventflags_node id) ;;
       if negb (status =? osOK) then ret status else release_block id ;;; ret osOK).
End eventflags.
