(* ===== verification/Thread.v ===== *)
(** * Threads

    [cmsis-rtos2-thread.c] without the reaper: creation, the state and
    priority calls, suspension, termination, the exit handler and the thread
    flags.  A thread is a control block over a task of the scheduler, whose
    stack it names; its two event flags live inside the block. *)
From S2P Require Import Prelude Spinlock Scheduler SchedulerSvc SchedulerApi Rtos Kernel EventFlags.

Definition osThreadJoinable : Z := 1.
Definition osReapThread : Z := 0x40000000.
Definition osThreadCreateSuspended : Z := 0x20000000.
Definition RTOS_DEFAULT_STACK_SIZE : Z := 1024.
Definition RTOS_REAPER_CLEAN : Z := 2.
Definition RTOS_THREAD_JOINED : Z := 0x40000000.
Definition osPriorityError : Z := -1.
Definition osPriorityNone : Z := 0.
Definition osPriorityIdle : Z := 1.
Definition osPriorityNormal : Z := 24.
Definition osPriorityAboveNormal : Z := 32.
Definition osPriorityISR : Z := 56.
Definition osFlagsErrorUnknown : Z := 0xffffffff.

Inductive thread_state :=
  | osThreadInactive | osThreadReady | osThreadRunning | osThreadBlocked | osThreadTerminated | osThreadError.
#[export] Instance thread_state_eq_dec : EqDecision thread_state.
Proof. solve_decision. Defined.

Definition osSchedulerPriority (rtos2_priority : Z) : Z := u32 (osPriorityISR - rtos2_priority).
Definition osKernelPriority (scheduler_priority : Z) : Z := s32 (osPriorityISR - scheduler_priority).

(** The attributes of a thread: those of any object, with the stack as the
    second memory area, and the priority. *)
Record thread_attributes := ThreadAttributes { th_attr : attributes; th_priority : Z }.

(** The functions the kernel starts, by address. *)
Class ThreadImage := {
  osSchedulerTaskEntryPoint_at : Z;
  osSchedulerTaskExitHandler_at : Z;
  osThreadReaper_at : Z;
  run_function : Z → Z → OM unit;     (* the function at an address, on an argument *)
  rtos2_thread_stack_overflow : Z → OM unit
}.

Section thread.
Context `{Environment} `{Trap} `{RtosEnv} `{RtosImage} `{ThreadImage} (core : Z).

Definition thread_node (id : Z) : Z := id + resource_offset osResourceThread.

Definition osThreadMinimumStackSize : Z := SIZEOF_TASK + tls_size + SIZEOF_SCHEDULER_FRAME + 8.

(** The fields of a thread's block. *)
Record thread := ThreadFields { th_stack : Z; th_stack_size : Z; th_func : Z; th_argument : Z }.
Definition get_thread (id : Z) : OM thread :=
  get_opt (λ o, match object_at o !! id with
                | Some (Object _ _ _ (Thread s n f a)) => Some (ThreadFields s n f a)
                | _ => None
                end) BadPointer.
Definition thread_bits (id : Z) : OM Z := ob <- get_object id ;; ret (attr_bits ob).

(** The block of a new thread, its stack, the size of the memory the scheduler
    gets, the size the block records, and the attribute bits. *)
Definition thread_memory (attr : attributes) : OM (option (Z * Z * Z * Z * Z)) :=
  if (a_cb_mem attr =? 0) && (a_mem attr =? 0) then
    let requested := if a_mem_size attr =? 0 then RTOS_DEFAULT_STACK_SIZE else a_mem_size attr in
    let stack_size := u32 (osThreadMinimumStackSize + requested) in
    id <- rtos2_alloc (u32 (SIZEOF_THREAD + stack_size)) ;;
    ret (if id =? 0 then None
         else Some (id, id + SIZEOF_THREAD, stack_size, requested, Z.lor (a_bits attr) osDynamicAlloc))
  else if negb (a_cb_mem attr =? 0) && negb (a_mem attr =? 0) then
    ret (if (a_cb_size attr <? SIZEOF_THREAD) || (a_mem_size attr <? osThreadMinimumStackSize) then None
         else Some (a_cb_mem attr, a_mem attr, a_mem_size attr, a_mem_size attr, a_bits attr))
  else ret None.

(** What [osThreadNew] tells the scheduler of the thread. *)
Definition thread_descriptor (id : Z) (attr : thread_attributes) : task_descriptor :=
  Descriptor osSchedulerTaskEntryPoint_at osSchedulerTaskExitHandler_at id
    (Z.lor SCHEDULER_TASK_STACK_CHECK
       (if has (a_bits (th_attr attr)) osThreadCreateSuspended then SCHEDULER_CREATE_SUSPENDED else 0))
    (osSchedulerPriority (if th_priority attr =? osPriorityNone then osPriorityNormal else th_priority attr)) 0.

Definition new_thread_flags (attr : attributes) (at_ : Z) : OM Z :=
  osEventFlagsNew core (Some (Attributes (a_name attr) 0 at_ SIZEOF_EVENTFLAGS 0 0)).

(** A scheduler call that may switch, and what runs before the caller does again. *)
Definition switching {A} (m : SM A) : OM A := a <- on_sched m ;; others_ran ;;; ret a.

Definition default_thread_attributes : thread_attributes :=
  ThreadAttributes (Attributes None 0 0 0 0 RTOS_DEFAULT_STACK_SIZE) osPriorityNormal.

Definition osThreadNew (func argument : Z) (attr : option thread_attributes) : OM Z :=
  if func =? 0 then ret 0
  else
    status <- osKernelContextIsValid core false 0 ;;
    if negb (status =? osOK) then ret 0
    else
      let desc := default default_thread_attributes attr in
      let attr := th_attr desc in
      if (th_priority desc <? osPriorityNone) || (osPriorityISR <? th_priority desc) then ret 0
      else
        mem <- thread_memory attr ;;
        match mem with
        | None => ret 0
        | Some (id, stack, stack_size, recorded, bits) =>
            new_block id RTOS_THREAD_MARKER bits attr [] (Thread stack recorded func argument) ;;;
            init_node (thread_node id) ;;;
            flags <- new_thread_flags attr (thread_flags id) ;;
            if flags =? 0 then release_block id ;;; ret 0
            else
              joiner <- new_thread_flags attr (thread_joiner id) ;;
              let delete_flags := _status <- osEventFlagsDelete core (thread_flags id) ;; release_block id ;;; ret 0 in
              let delete_joiner := _status <- osEventFlagsDelete core (thread_joiner id) ;; delete_flags in
              if joiner =? 0 then delete_flags
              else
                status <- osKernelResourceAdd core osResourceThread (thread_node id) ;;
                if negb (status =? osOK) then delete_joiner
                else
                  t <- switching (scheduler_create core stack stack_size (Some (thread_descriptor id desc))) ;;
                  if t =? 0 then
                    _status <- osKernelResourceRemove core osResourceThread (thread_node id) ;; delete_joiner
                  else ret id
        end.

Definition osThreadGetName (id : Z) : OM (option (list Z)) :=
  if id =? 0 then ret None else get_name core id RTOS_THREAD_MARKER.

(** [scheduler_task()->context], without a check of the context. *)
Definition osThreadGetId : OM Z :=
  t <- on_sched (scheduler_task core) ;;
  tk <- on_sched (get_task t) ;;
  let id := t_context tk in
  status <- osIsResourceValid id RTOS_THREAD_MARKER ;;
  ret (if negb (status =? osOK) then 0 else id).

Definition mapped_state (st : task_state) : thread_state :=
  match st with
  | TASK_TERMINATED => osThreadTerminated
  | TASK_RUNNING => osThreadRunning
  | TASK_READY => osThreadReady
  | TASK_BLOCKED | TASK_SUSPENDED => osThreadBlocked
  end.

Definition osThreadGetState (id : Z) : OM thread_state :=
  validated core false 0 id RTOS_THREAD_MARKER (λ _, osThreadError)
    (bits <- thread_bits id ;;
     if has bits osReapThread then ret osThreadError
     else th <- get_thread id ;; st <- on_sched (scheduler_get_state core (th_stack th)) ;; ret (mapped_state st)).

Definition osThreadGetStackSize (id : Z) : OM Z :=
  validated core false 0 id RTOS_THREAD_MARKER (λ _, 0) (th <- get_thread id ;; ret (th_stack_size th)).

(** How many of the [n] words from [a] on still hold the stack marker. *)
Fixpoint unused_words (n : nat) (a : Z) : OM Z :=
  match n with
  | O => ret 0
  | S n' =>
      w <- load a ;;
      if negb (w =? SCHEDULER_STACK_MARKER) then ret 0
      else k <- unused_words n' (a + 4) ;; ret (k + 1)
  end.

Definition osThreadGetStackSpace (id : Z) : OM Z :=
  validated core false 0 id RTOS_THREAD_MARKER (λ _, 0)
    (th <- get_thread id ;;
     _prev <- osKernelLock core ;;
     tk <- on_sched (get_task (th_stack th)) ;;
     unused <- unused_words (Z.to_nat (th_stack_size th / 4)) (t_stack_marker tk) ;;
     _prev <- osKernelUnlock core ;;
     ret (u32 (unused * 4))).

Definition osThreadSetPriority (id priority : Z) : OM Z :=
  if (priority <? osPriorityIdle) || (osPriorityISR <? priority) then ret osErrorParameter
  else
    validated core false 0 id RTOS_THREAD_MARKER (λ e, e)
      (th <- get_thread id ;;
       status <- switching (scheduler_set_priority core (th_stack th) (osSchedulerPriority priority)) ;;
       ret (if status <? 0 then osError else osOK)).

Definition osThreadGetPriority (id : Z) : OM Z :=
  validated core false 0 id RTOS_THREAD_MARKER (λ _, osPriorityError)
    (th <- get_thread id ;;
     p <- on_sched (scheduler_get_priority core (th_stack th)) ;;
     ret (osKernelPriority p)).

Definition osThreadYield : OM Z :=
  status <- osKernelContextIsValid core false 0 ;;
  if negb (status =? osOK) then ret status
  else
    id <- osThreadGetId ;;
    status <- osIsResourceValid id RTOS_THREAD_MARKER ;;
    if negb (status =? osOK) then ret status
    else switching (scheduler_yield core) ;;; ret osOK.

Definition osThreadSuspend (id : Z) : OM Z :=
  validated core false 0 id RTOS_THREAD_MARKER (λ e, e)
    (st <- osThreadGetState id ;;
     match st with
     | osThreadReady | osThreadRunning | osThreadBlocked =>
         self <- osThreadGetId ;;
         locked <- (if id =? self then the_kernel ;;; gets k_locked else ret 0) ;;
         if (id =? self) && negb (locked =? 0) then ret osError
         else
           th <- get_thread id ;;
           status <- switching (scheduler_suspend core (th_stack th)) ;;
           ret (if status <? 0 then osError else osOK)
     | _ => ret osErrorResource
     end).

Definition osThreadResume (id : Z) : OM Z :=
  validated core false 0 id RTOS_THREAD_MARKER (λ e, e)
    (st <- osThreadGetState id ;;
     if negb (bool_decide (st = osThreadBlocked)) then ret osErrorResource
     else
       th <- get_thread id ;;
       status <- switching (scheduler_resume core (th_stack th)) ;;
       ret (if status <? 0 then osError else osOK)).

(** ** Thread flags *)
Definition osThreadFlagsSet (id flags : Z) : OM Z :=
  if has flags osFlagsError then ret (u32 osErrorParameter)
  else
    status <- osIsResourceValid id RTOS_THREAD_MARKER ;;
    if negb (status =? osOK) then ret (u32 status) else osEventFlagsSet core (thread_flags id) flags.

Definition osThreadFlagsClear (flags : Z) : OM Z :=
  status <- osKernelContextIsValid core false 0 ;;
  if negb (status =? osOK) then ret (u32 status)
  else
    id <- osThreadGetId ;;
    if id =? 0 then ret osFlagsErrorUnknown else osEventFlagsClear (thread_flags id) flags.

Definition osThreadFlagsGet : OM Z :=
  id <- osThreadGetId ;;
  if id =? 0 then ret osFlagsErrorUnknown else osEventFlagsGet (thread_flags id).

(** ** The end of a thread *)
Definition osThreadReaperInit : OM unit :=
  id <- osThreadNew osThreadReaper_at 0
          (Some (ThreadAttributes (Attributes (Some []) 0 0 0 0 RTOS_DEFAULT_STACK_SIZE) osPriorityNormal)) ;;
  upd (λ o, o <| reaper_thread := id |>) ;;;
  when (id =? 0) (fail Aborted).

(** Start the reaper, once, for a thread nobody joins. *)
Definition ensure_reaper (fuel : nat) : OM unit := osCallOnce core fuel reaper_thread_init osThreadReaperInit.
Definition ensure_reaper_for (fuel : nat) (id : Z) : OM unit :=
  bits <- thread_bits id ;; when (negb (has bits osThreadJoinable)) (ensure_reaper fuel).

Definition osThreadExit_body (fuel : nat) : OM unit :=
  status <- osKernelContextIsValid core false 0 ;;
  when (negb (status =? osOK)) (fail Aborted) ;;;
  id <- osThreadGetId ;;
  status <- osIsResourceValid id RTOS_THREAD_MARKER ;;
  when (negb (status =? osOK)) (fail Aborted) ;;;
  ensure_reaper_for fuel id ;;;
  th <- get_thread id ;;
  _status <- switching (scheduler_terminate core (th_stack th)) ;;
  fail Aborted.

Definition osThreadTerminate (fuel : nat) (id : Z) : OM Z :=
  validated core false 0 id RTOS_THREAD_MARKER (λ e, e)
    (ensure_reaper_for fuel id ;;;
     th <- get_thread id ;;
     status <- switching (scheduler_terminate core (th_stack th)) ;;
     if 0 <=? status then ret osOK
     else if negb (status =? - ESRCH) then ret osError
     else
       st <- osThreadGetState id ;;
       ret (match st with osThreadTerminated | osThreadError => osOK | _ => osErrorResource end)).

Definition set_thread_bits (id : Z) (g : Z → Z) : OM unit := upd_object id (λ ob, ob <| attr_bits ::= g |>).

Definition osThreadDetach (fuel : nat) (id : Z) : OM Z :=
  validated core false 0 id RTOS_THREAD_MARKER (λ e, e)
    (bits <- thread_bits id ;;
     if negb (has bits osThreadJoinable) then ret osErrorResource
     else
       ensure_reaper fuel ;;;
       set_thread_bits id (λ b, Z.land b (not32 osThreadJoinable)) ;;;
       st <- osThreadGetState id ;;
       if negb (bool_decide (st = osThreadTerminated)) then ret osOK
       else
         set_thread_bits id (λ b, Z.lor b osReapThread) ;;;
         reaper <- gets reaper_thread ;;
         flags <- osThreadFlagsSet reaper RTOS_REAPER_CLEAN ;;
         ret (if has flags osFlagsError then s32 flags else osOK)).

Definition osSchedulerTaskEntryPoint (exit : OM unit) (context : Z) : OM unit :=
  status <- osIsResourceValid context RTOS_THREAD_MARKER ;;
  assert (status =? osOK) ;;;
  th <- get_thread context ;;
  run_function (th_func th) (th_argument th) ;;;
  exit.

Definition osSchedulerTaskExitHandler (task : Z) : OM unit :=
  assert (negb (task =? 0)) ;;;
  tk <- on_sched (get_task task) ;;
  let id := t_context tk in
  status <- osIsResourceValid id RTOS_THREAD_MARKER ;;
  assert (status =? osOK) ;;;
  fr <- on_sched (get_frame (t_psp tk)) ;;
  when (r0 fr =? u32 (- EFAULT)) (rtos2_thread_stack_overflow id) ;;;
  bits <- thread_bits id ;;
  if has bits osThreadJoinable then
    flags <- osEventFlagsSet core (thread_joiner id) RTOS_THREAD_JOINED ;;
    when (has flags osFlagsError) (fail Aborted)
  else
    set_thread_bits id (λ b, Z.lor b osReapThread) ;;;
    reaper <- gets reaper_thread ;;
    flags <- osThreadFlagsSet reaper RTOS_REAPER_CLEAN ;;
    when (has flags osFlagsError) (fail Aborted).

(** ** Enumeration *)
Definition osCountThreads (id count : Z) : OM (Z * Z) :=
  st <- osThreadGetState id ;;
  ret (osOK, if bool_decide (st = osThreadError) then count else s32 (count + 1)).

Definition osThreadGetCount : OM Z :=
  status <- osKernelContextIsValid core false 0 ;;
  if negb (status =? osOK) then ret 0
  else
    r <- osKernelResourceForEach core osResourceThread (Some osCountThreads) 0 ;;
    ret (if negb (r.1 =? osOK) then 0 else u32 r.2).

(** The array of the caller, filled from the front: the thread ids so far. *)
Definition osCaptureThreads (size : Z) (id : Z) (threads : list Z) : OM (Z * list Z) :=
  if Z.of_nat (length threads) <? size then
    st <- osThreadGetState id ;;
    ret (osOK, if bool_decide (st = osThreadError) then threads else threads ++ [id])
  else ret (osOK, threads).

Definition osThreadEnumerate (array_items : Z) : OM (Z * list Z) :=
  status <- osKernelContextIsValid core false 0 ;;
  if negb (status =? osOK) then ret (0, [])
  else
    r <- osKernelResourceForEach core osResourceThread (Some (osCaptureThreads array_items)) [] ;;
    ret (if negb (r.1 =? osOK) then u32 r.1 else u32 (Z.of_nat (length r.2)), r.2).

(** ** The interface of the waits, and the waits on thread flags *)
Section exits.
Context (fuel : nat).

#[local] Instance threads_exit : Threads := {| osThreadExit := osThreadExit_body fuel |}.

Definition osThreadFlagsWait (flags options timeout : Z) : OM Z :=
  if has flags osFlagsError then ret (u32 osErrorParameter)
  else
    status <- osKernelContextIsValid core false 0 ;;
    if negb (status =? osOK) then ret (u32 status)
    else
      id <- osThreadGetId ;;
      if id =? 0 then ret osFlagsErrorUnknown
      else osEventFlagsWait core fuel (thread_flags id) flags options timeout.
End exits.
End thread.
