(* ===== verification/Mutex.v ===== *)
(** * Mutexes

    [cmsis-rtos2-mutex.c].  The word the futex compares holds the task that
    owns the mutex, with the contention bit; the scheduler hands it over. *)
From S2P Require Import Prelude Spinlock Scheduler SchedulerSvc SchedulerApi Rtos Kernel Semaphore EventFlags Thread.

Section mutex.
Context `{Environment} `{Trap} `{RtosEnv} (core : Z).

(** The list a mutex is registered in. *)
Definition mutex_resource (bits : Z) : resource_id :=
  if has bits osMutexRobust then osResourceRobustMutex else osResourceMutex.
Definition mutex_node (id : Z) : Z := id + resource_offset osResourceMutex.

Definition mutex_futex_flags (bits : Z) : Z :=
  if has bits osMutexPrioInherit
  then Z.lor SCHEDULER_FUTEX_PI (Z.lor SCHEDULER_FUTEX_OWNER_TRACKING SCHEDULER_FUTEX_CONTENTION_TRACKING)
  else Z.lor SCHEDULER_FUTEX_OWNER_TRACKING SCHEDULER_FUTEX_CONTENTION_TRACKING.

(** The value word keeps what the memory held. *)
Definition osMutexNew (attr : option attributes) : OM Z :=
  status <- osKernelContextIsValid core false 0 ;;
  if negb (status =? osOK) then ret 0
  else
    let attr := default (default_attributes []) attr in
    id <- block_memory SIZEOF_MUTEX attr ;;
    if id =? 0 then ret 0
    else
      let bits := block_bits id attr in
      new_block id RTOS_MUTEX_MARKER bits attr [] (Mutex 0) ;;;
      on_sched (scheduler_futex_init (futex_of id) (mutex_value id) (mutex_futex_flags bits)) ;;;
      init_node (mutex_node id) ;;;
      status <- osKernelResourceAdd core (mutex_resource bits) (mutex_node id) ;;
      if negb (status =? osOK) then release_block id ;;; ret 0 else ret id.

Definition osMutexGetName (id : Z) : OM (option (list Z)) := get_name core id RTOS_MUTEX_MARKER.

Definition count_of (id : Z) : OM Z :=
  get_opt (λ o, match object_at o !! id with
                | Some (Object _ _ _ (Mutex n)) => Some n
                | _ => None
                end) BadPointer.
Definition set_count (id n : Z) : OM unit := _c <- count_of id ;; set_contents id (Mutex (s32 n)).
Definition bits_of (id : Z) : OM Z := ob <- get_object id ;; ret (attr_bits ob).

(** [osOK] once the mutex is owned. *)
Fixpoint lock_mutex (fuel : nat) (id value timeout expected : Z) : OM Z :=
  match fuel with
  | O => fail OutOfFuel
  | S fuel' =>
      cx <- cas (mutex_value id) expected value ;;
      if (cx.1 : bool) then ret osOK
      else if timeout =? 0 then ret osErrorResource
      else
        status <- futex_wait core (futex_of id) cx.2 timeout ;;
        if status <? 0 then ret (wait_error status)
        else
          v <- load (mutex_value id) ;;
          if value =? owner_of v then ret osOK else lock_mutex fuel' id value timeout 0
  end.

Definition osMutexAcquire (fuel : nat) (id timeout : Z) : OM Z :=
  validated core false 0 id RTOS_MUTEX_MARKER (λ e, e)
    (value <- on_sched (scheduler_task core) ;;
     v <- load (mutex_value id) ;;
     bits <- bits_of id ;;
     if value =? owner_of v then
       if negb (has bits osMutexRecursive) then ret osErrorParameter
       else c <- count_of id ;; set_count id (c + 1) ;;; ret osOK
     else
       status <- lock_mutex fuel id value timeout 0 ;;
       if negb (status =? osOK) then ret status
       else when (has bits osMutexRecursive) (set_count id 1) ;;; ret osOK).

(** Returns 0 where the C code returns a null pointer. *)
Definition osMutexGetOwner (id : Z) : OM Z :=
  validated core false 0 id RTOS_MUTEX_MARKER (λ _, 0)
    (v <- load (mutex_value id) ;;
     if v =? 0 then ret 0
     else
       tk <- on_sched (get_task (owner_of v)) ;;
       when (negb (t_marker tk =? SCHEDULER_TASK_MARKER)) (fail Aborted) ;;;
       ret (t_context tk)).

(** The unlock both releases end with. *)
Definition unlock_mutex (id owner : Z) : OM Z :=
  v <- load (mutex_value id) ;;
  cx <- (if v =? owner then cas (mutex_value id) owner 0 else ret (false, v)) ;;
  if (cx.1 : bool) then ret osOK
  else status <- futex_wake core (futex_of id) false ;; ret (if status <? 0 then osError else osOK).

Definition osMutexRelease (id : Z) : OM Z :=
  validated core false 0 id RTOS_MUTEX_MARKER (λ e, e)
    (owner <- osMutexGetOwner id ;;
     self <- osThreadGetId core ;;
     if negb (owner =? self) then ret osErrorResource
     else
       bits <- bits_of id ;;
       c <- count_of id ;;
       when (has bits osMutexRecursive) (set_count id (c - 1)) ;;;
       if has bits osMutexRecursive && (0 <? s32 (c - 1)) then ret osOK
       else task <- on_sched (scheduler_task core) ;; unlock_mutex id task).

Definition osMutexRobustRelease (id owner : Z) : OM Z :=
  validated core false 0 id RTOS_MUTEX_MARKER (λ e, e)
    (status <- osIsResourceValid owner RTOS_THREAD_MARKER ;;
     if negb (status =? osOK) then ret status
     else
       holder <- osMutexGetOwner id ;;
       if negb (holder =? owner) then ret osErrorResource
       else
         bits <- bits_of id ;;
         when (has bits osMutexRecursive) (set_count id 0) ;;;
         th <- get_thread owner ;;
         unlock_mutex id (th_stack th)).

Definition osMutexDelete (id : Z) : OM Z :=
  validated core false 0 id RTOS_MUTEX_MARKER (λ e, e)
    (upd_object id (λ ob, ob <| marker := 0 |>) ;;;
     bits <- bits_of id ;;
     status <- osKernelResourceRemove core (mutex_resource bits) (mutex_node id) ;;
     if negb (status =? osOK) then ret status else release_block id ;;; ret osOK).
End mutex.
