(* ===== verification/Reaper.v ===== *)
(** * The end of threads: robust mutexes, joining and the reaper

    The rest of [cmsis-rtos2-thread.c]: what is left of a terminated thread is
    freed by the thread that joins it or by the reaper, which also release the
    robust mutexes the thread still owns. *)
From S2P Require Import Prelude Spinlock Scheduler SchedulerSvc SchedulerApi Rtos Kernel Semaphore EventFlags Thread Mutex.

Definition RTOS_REAPER_EXIT : Z := 1.
Definition ROBUST_CAPTURE_SIZE : Z := 5.

Section reaper.
Context `{Environment} `{Trap} `{RtosEnv} `{RtosImage} `{ThreadImage} (core : Z).

(** ** Robust mutexes *)

(** The mutexes captured so far; a full capture answers [true], as a status. *)
Definition osCaptureOwnedRobustMutexes (thread resource : Z) (mutexes : list Z) : OM (Z * list Z) :=
  if Z.of_nat (length mutexes) <? ROBUST_CAPTURE_SIZE then
    owner <- osMutexGetOwner core resource ;;
    ret (osOK, if owner =? thread then mutexes ++ [resource] else mutexes)
  else ret (1, mutexes).

Fixpoint release_while_owned (fuel : nat) (mutex thread : Z) : OM Z :=
  match fuel with
  | O => fail OutOfFuel
  | S fuel' =>
      owner <- osMutexGetOwner core mutex ;;
      if negb (owner =? thread) then ret osOK
      else
        status <- osMutexRobustRelease core mutex thread ;;
        if negb (status =? osOK) then ret status else release_while_owned fuel' mutex thread
  end.

Fixpoint release_captured (fuel : nat) (mutexes : list Z) (thread : Z) : OM Z :=
  match mutexes with
  | [] => ret osOK
  | mutex :: mutexes' =>
      status <- release_while_owned fuel mutex thread ;;
      if negb (status =? osOK) then ret status else release_captured fuel mutexes' thread
  end.

Fixpoint osReleaseRobustMutex (fuel : nat) (thread : Z) : OM Z :=
  match fuel with
  | O => fail OutOfFuel
  | S fuel' =>
      r <- osKernelResourceForEach core osResourceRobustMutex (Some (osCaptureOwnedRobustMutexes thread)) [] ;;
      when (negb (r.1 =? osOK)) (fail Aborted) ;;;
      status <- release_captured fuel' r.2 thread ;;
      if negb (status =? osOK) then ret status
      else if Z.of_nat (length r.2) =? ROBUST_CAPTURE_SIZE then osReleaseRobustMutex fuel' thread
      else ret osOK
  end.

(** What the joiner and the reaper do with a thread that has left its list. *)
Definition dispose_thread (fuel : nat) (id : Z) : OM Z :=
  status <- osReleaseRobustMutex fuel id ;;
  if negb (status =? osOK) then ret status
  else
    status <- osEventFlagsDelete core (thread_joiner id) ;;
    if negb (status =? osOK) then ret status
    else
      status <- osEventFlagsDelete core (thread_flags id) ;;
      if negb (status =? osOK) then ret status
      else
        upd_object id (λ ob, ob <| marker := 0 |>) ;;;
        release_block id ;;;
        ret osOK.

(** ** Joining *)
Definition osThreadJoin (fuel : nat) (id : Z) : OM Z :=
  status <- osKernelContextIsValid core false 0 ;;
  if negb (status =? osOK) then ret status
  else
    status <- osKernelResourceIsRegistered core osResourceThread id ;;
    if status =? osErrorResource then ret osErrorParameter
    else
      status <- osIsResourceValid id RTOS_THREAD_MARKER ;;
      if negb (status =? osOK) then ret status
      else
        st <- osThreadGetState core id ;;
        if bool_decide (st = osThreadError) then ret osErrorParameter
        else
          bits <- thread_bits id ;;
          if negb (has bits osThreadJoinable) then ret osErrorResource
          else
            self <- osThreadGetId core ;;
            if id =? self then ret osErrorResource
            else
              flags <- osEventFlagsWait (H2 := threads_exit core fuel) core fuel (thread_joiner id) RTOS_THREAD_JOINED
                         osFlagsWaitAny osWaitForever ;;
              if has flags osFlagsError then ret (s32 flags)
              else
                status <- osKernelResourceRemove core osResourceThread (thread_node id) ;;
                if negb (status =? osOK) then ret status else dispose_thread fuel id.

(** ** The reaper *)

(** Takes a thread to reap off the list of threads; the reap list grows. *)
Definition osThreadReap (resource : Z) (reap_list : list Z) : OM (Z * list Z) :=
  status <- osIsResourceValid resource RTOS_THREAD_MARKER ;;
  if negb (status =? osOK) then ret (status, reap_list)
  else
    bits <- thread_bits resource ;;
    if has bits osReapThread then
      upd (unlist_node (thread_node resource)) ;;; ret (osOK, reap_list ++ [resource])
    else ret (osOK, reap_list).

Fixpoint dispose_all (fuel : nat) (reap_list : list Z) : OM unit :=
  match reap_list with
  | [] => ret tt
  | thread :: reap_list' =>
      status <- dispose_thread fuel thread ;;
      when (negb (status =? osOK)) (fail Aborted) ;;;
      dispose_all fuel reap_list'
  end.

(** Clean until a walk finds no thread. *)
Fixpoint clean_threads (fuel : nat) : OM unit :=
  match fuel with
  | O => fail OutOfFuel
  | S fuel' =>
      r <- osKernelResourceForEach core osResourceThread (Some osThreadReap) [] ;;
      when (negb (r.1 =? osOK)) (fail Aborted) ;;;
      match r.2 with
      | [] => ret tt
      | reap_list => dispose_all fuel' reap_list ;;; clean_threads fuel'
      end
  end.

Fixpoint serve_reaper (fuel : nat) : OM unit :=
  match fuel with
  | O => fail OutOfFuel
  | S fuel' =>
      flags <- osThreadFlagsWait core fuel' (Z.lor RTOS_REAPER_EXIT RTOS_REAPER_CLEAN) osFlagsWaitAny osWaitForever ;;
      when (has flags osFlagsError) (fail Aborted) ;;;
      when (has flags RTOS_REAPER_CLEAN) (clean_threads fuel') ;;;
      if has flags RTOS_REAPER_EXIT then fail Aborted else serve_reaper fuel'
  end.

Definition osThreadReaper (fuel : nat) : OM unit :=
  on_sched (scheduler_set_flags core 0 SCHEDULER_IGNORE_VIABLE) ;;; serve_reaper fuel.
End reaper.
