(* ===== verification/Timer.v ===== *)
(** * Timers

    [cmsis-rtos2-timer.c].  Running timers wait in a ring ordered by target
    tick; the tick hook posts the expired ones, by address, to a message queue
    a thread of its own serves. *)
From S2P Require Import Prelude Spinlock Scheduler SchedulerSvc SchedulerApi Rtos Kernel Semaphore MemoryPool MessageQueue EventFlags Thread.

Definition osTimerOnce : Z := 0.
Definition osTimerPeriodic : Z := 1.
Definition RTOS_TIMER_QUEUE_SIZE : Z := 5.

(** A pointer as the four bytes a message carries. *)
Definition pointer_bytes (p : Z) : list Z := map (λ i, Z.shiftr p (8 * i) mod 256) [0; 1; 2; 3].
Definition bytes_pointer (l : list Z) : Z := foldr (λ b n, b + 256 * n) 0 l.

(** The functions of the timer thread, by address. *)
Class TimerImage := { osTimerThread_at : Z; osTimerQueue_name : list Z; osTimerThread_name : list Z }.

Section timer.
Context `{Environment} `{Trap} `{RtosEnv} `{RtosImage} `{ThreadImage} `{TimerImage} (core : Z).

Definition timer_resource_node (id : Z) : Z := id + resource_offset osResourceTimer.

Record timer := TimerFields { tm_type : Z; tm_func : Z; tm_argument : Z; tm_ticks : Z; tm_target : Z }.
Definition timer_of (o : rtos) (id : Z) : option timer :=
  match object_at o !! id with
  | Some (Object _ _ _ (Timer ty f a n t)) => Some (TimerFields ty f a n t)
  | _ => None
  end.
Definition get_timer (id : Z) : OM timer := get_opt (λ o, timer_of o id) BadPointer.
Definition set_timing (id ticks target : Z) : OM unit :=
  tm <- get_timer id ;; set_contents id (Timer (tm_type tm) (tm_func tm) (tm_argument tm) ticks target).
Definition target_of (o : rtos) (id : Z) : Z := from_option tm_target 0 (timer_of o id).

Definition get_timers_lock (o : rtos) : Z := active_timers_lock o.
Definition set_timers_lock (l : Z) (o : rtos) : rtos := o <| active_timers_lock := l |>.
Definition timer_linked (id : Z) (o : rtos) : bool := bool_decide (id ∈ active_timers o).
Definition unlink_timer (id : Z) : OM unit := upd (λ o, o <| active_timers ::= without id |>).

(** The walk to the first later target, and the insertion in front of it. *)
Definition insert_timer (id : Z) : OM unit :=
  linked <- gets (timer_linked id) ;;
  when linked (fail RingCorrupted) ;;;
  upd (λ o, o <| active_timers ::= place (λ t, target_of o id <? target_of o t) id |>).

(** The loop of the hook; one turn per unit of fuel. *)
Fixpoint expire_active (fuel : nat) (now : Z) : OM unit :=
  match fuel with
  | O => fail OutOfFuel
  | S fuel' =>
      l <- gets active_timers ;;
      match l with
      | [] => ret tt
      | expired :: _ =>
          tm <- get_timer expired ;;
          if now <? tm_target tm then ret tt
          else
            unlink_timer expired ;;;
            queue <- gets timer_queue ;;
            status <- osMessageQueuePut core fuel queue (Some (pointer_bytes expired)) 0 0 ;;
            let busy := status =? osErrorResource in
            when (negb busy && negb (status =? osOK)) (fail Aborted) ;;;
            tm <- get_timer expired ;;
            when (busy || (tm_type tm =? osTimerPeriodic))
              (set_timing expired (tm_ticks tm) (u32 (now + (if busy then 0 else tm_ticks tm))) ;;;
               insert_timer expired) ;;;
            if busy then ret tt else expire_active fuel' now
      end
  end.

Definition scheduler_tick_hook (fuel : nat) (now : Z) : OM unit :=
  if negb (core =? 0) then ret tt else expire_active fuel now.

(** The thread: a null timer ends it. *)
Fixpoint serve_timers (fuel : nat) : OM unit :=
  match fuel with
  | O => fail OutOfFuel
  | S fuel' =>
      queue <- gets timer_queue ;;
      r <- osMessageQueueGet core fuel queue true osWaitForever ;;
      match r with
      | (status, Some (data, _)) =>
          when (negb (status =? osOK)) (fail Aborted) ;;;
          let id := bytes_pointer data in
          if id =? 0 then ret tt
          else tm <- get_timer id ;; run_function (tm_func tm) (tm_argument tm) ;;; serve_timers fuel'
      | (_, None) => fail Aborted
      end
  end.

Definition osTimerThread (fuel : nat) : OM unit :=
  on_sched (scheduler_set_flags core 0 SCHEDULER_IGNORE_VIABLE) ;;; serve_timers fuel.

Definition osTimerThreadInit : OM unit :=
  queue <- osMessageQueueNew core RTOS_TIMER_QUEUE_SIZE 4 (Some (default_attributes osTimerQueue_name)) ;;
  upd (λ o, o <| timer_queue := queue |>) ;;;
  when (queue =? 0) (fail Aborted) ;;;
  thread <- osThreadNew core osTimerThread_at 0
              (Some (ThreadAttributes (Attributes (Some osTimerThread_name) 0 0 0 0 RTOS_DEFAULT_STACK_SIZE)
                       osPriorityAboveNormal)) ;;
  upd (λ o, o <| timer_thread := thread |>) ;;;
  when (thread =? 0) (fail Aborted).

(** [list_init] of the timer's own node. *)
Definition init_timer_node (id : Z) : OM unit :=
  linked <- gets (timer_linked id) ;; when linked (fail RingCorrupted).

Definition osTimerNew (func type argument : Z) (attr : option attributes) : OM Z :=
  if func =? 0 then ret 0
  else
    status <- osKernelContextIsValid core false 0 ;;
    if negb (status =? osOK) then ret 0
    else
      let attr := default (default_attributes []) attr in
      id <- block_memory SIZEOF_TIMER attr ;;
      if id =? 0 then ret 0
      else
        (* the two times keep what the memory held *)
        old <- gets (λ o, timer_of o id) ;;
        new_block id RTOS_TIMER_MARKER (block_bits id attr) attr []
          (Timer type func argument (from_option tm_ticks 0 old) (from_option tm_target 0 old)) ;;;
        init_node (timer_resource_node id) ;;;
        init_timer_node id ;;;
        status <- osKernelResourceAdd core osResourceTimer (timer_resource_node id) ;;
        if negb (status =? osOK) then release_block id ;;; ret 0 else ret id.

Definition osTimerGetName (id : Z) : OM (option (list Z)) := get_name core id RTOS_TIMER_MARKER.

Definition osTimerStart (fuel : nat) (id n : Z) : OM Z :=
  if (n =? 0) || (n =? osWaitForever) then ret osErrorParameter
  else
    validated core false 0 id RTOS_TIMER_MARKER (λ e, e)
      (osCallOnce core fuel timer_thread_init osTimerThreadInit ;;;
       now <- osKernelGetTickCount ;;
       set_timing id n (u32 (now + n)) ;;;
       locked get_timers_lock set_timers_lock (insert_timer id) ;;;
       ret osOK).

Definition osTimerStop (id : Z) : OM Z :=
  validated core false 0 id RTOS_TIMER_MARKER (λ e, e)
    (linked <- gets (timer_linked id) ;;
     if negb linked then ret osErrorResource
     else locked get_timers_lock set_timers_lock (unlink_timer id) ;;; ret osOK).

Definition osTimerIsRunning (id : Z) : OM Z :=
  validated core false 0 id RTOS_TIMER_MARKER (λ _, 0) (gets (λ o, Z.b2z (timer_linked id o))).

(** The node is taken out of the ring it is in, whichever list is named. *)
Definition osTimerDelete (id : Z) : OM Z :=
  validated core false 0 id RTOS_TIMER_MARKER (λ e, e)
    (locked get_timers_lock set_timers_lock
       (linked <- gets (timer_linked id) ;; when linked (unlink_timer id)) ;;;
     upd_object id (λ ob, ob <| marker := 0 |>) ;;;
     status <- osKernelResourceRemove core osResourceEventFlags (timer_resource_node id) ;;
     if negb (status =? osOK) then ret status else release_block id ;;; ret osOK).
End timer.
