(* ===== verification/Deque.v ===== *)
(** * Double-ended queues

    [cmsis-rtos2-deque.c]: a ring buffer of [element_count] slots between
    [front] and [back], with event flags for the waiting.  The buffer is a list
    of slots, each the bytes of one element. *)
From S2P Require Import Prelude Spinlock Scheduler SchedulerSvc SchedulerApi Rtos Kernel EventFlags Thread.

Definition RTOS_DEQUE_SPACE_AVAILABLE : Z := 1.
Definition RTOS_DEQUE_DATA_AVAILABLE : Z := 2.
Definition RTOS_DEQUE_RESET : Z := 4.
Definition deque_name : list Z := [100; 101; 113; 117; 101].

Record deque := DequeFields {
  dq_size : Z; dq_count : Z; dq_front : Z; dq_back : Z; dq_waiters : Z; dq_lock : Z; dq_buffer : list (list Z)
}.
#[export] Instance eta_deque : Eta deque := λ d,
  DequeFields (dq_size d) (dq_count d) (dq_front d) (dq_back d) (dq_waiters d) (dq_lock d) (dq_buffer d).

(** ** Indices *)
Definition modulo (x y : Z) : Z := Z.land (u32 x) (u32 (y - 1)).
Definition deque_inc (d : deque) (value : Z) : Z := modulo (value + 1) (dq_count d).
Definition deque_dec (d : deque) (value : Z) : Z := modulo (value + 1) (dq_count d).
Definition deque_is_empty (d : deque) : bool := dq_front d =? dq_back d.
Definition deque_is_full (d : deque) : bool := modulo (dq_back d + 1) (dq_count d) =? dq_front d.

Section deque.
Context `{Environment} `{Trap} `{RtosEnv} `{RtosImage} `{ThreadImage} (core : Z).

Definition deque_node (id : Z) : Z := id + resource_offset osResourceDeque.

Definition deque_of (o : rtos) (id : Z) : option deque :=
  match object_at o !! id with
  | Some (Object _ _ _ (Deque es n f b w l buf)) => Some (DequeFields es n f b w l buf)
  | _ => None
  end.
Definition get_deque (id : Z) : OM deque := get_opt (λ o, deque_of o id) BadPointer.
Definition deque_body (d : deque) : body :=
  Deque (dq_size d) (dq_count d) (dq_front d) (dq_back d) (dq_waiters d) (dq_lock d) (dq_buffer d).
Definition upd_deque (id : Z) (g : deque → deque) : OM unit :=
  d <- get_deque id ;; set_contents id (deque_body (g d)).

Definition get_deque_lock (id : Z) (o : rtos) : Z := from_option dq_lock 0 (deque_of o id).
Definition set_deque_lock (id l : Z) (o : rtos) : rtos :=
  match object_at o !! id with
  | Some (Object m n a (Deque es k f b w _ buf)) => o <| object_at ::= <[id := Object m n a (Deque es k f b w l buf)]> |>
  | _ => o
  end.

(** [deque_get] and [deque_put]: the bytes of a slot of the buffer. *)
Definition deque_get (id pos : Z) : OM (list Z) :=
  get_opt (λ o, d ← deque_of o id; dq_buffer d !! Z.to_nat pos) BadPointer.
Definition deque_put (id : Z) (element : list Z) (pos : Z) : OM unit :=
  d <- get_deque id ;;
  data <- copy_bytes (dq_size d) element ;;
  if negb (Z.to_nat pos <? length (dq_buffer d))%nat then fail BadPointer
  else upd_deque id (λ d, d <| dq_buffer ::= <[Z.to_nat pos := data]> |>).

(** The control block and the attribute bits of a new deque; 0 without one. *)
Definition deque_memory (size : Z) (attr : attributes) : OM (Z * Z) :=
  if (a_cb_mem attr =? 0) && (a_mem attr =? 0) then
    id <- rtos2_alloc (u32 (SIZEOF_DEQUE + u32 (SIZEOF_DEQUE + size))) ;;
    ret (id, Z.lor (a_bits attr) osDynamicAlloc)
  else if negb (a_cb_mem attr =? 0) && negb (a_mem attr =? 0) then
    if (a_cb_size attr <? SIZEOF_DEQUE) || (a_mem_size attr <? u32 (SIZEOF_MESSAGE + size)) then ret (0, 0)
    else
      (* the attribute bits keep what the caller's memory held *)
      bits <- gets (λ o, from_option attr_bits 0 (object_at o !! a_cb_mem attr)) ;;
      ret (a_cb_mem attr, bits)
  else ret (0, 0).

Definition osDequeNew (element_count element_size : Z) (attr : option attributes) : OM Z :=
  status <- osKernelContextIsValid core false 0 ;;
  if negb (status =? osOK) then ret 0
  else
    let attr := default (default_attributes deque_name) attr in
    if negb (modulo element_size element_size =? 0) then ret 0
    else
      mem <- deque_memory (u32 (element_size * element_count)) attr ;;
      let id := mem.1 in
      if id =? 0 then ret 0
      else
        (* the waiters and the bytes of the slots keep what the memory held *)
        old <- gets (λ o, deque_of o id) ;;
        let slots := replicate (Z.to_nat element_count) (replicate (Z.to_nat element_size) 0) in
        new_block id RTOS_DEQUE_MARKER mem.2 attr deque_name
          (Deque element_size element_count 0 0 (from_option dq_waiters 0 old) 0 slots) ;;;
        events <- osEventFlagsNew core (Some (Attributes (a_name attr) 0 (deque_events id) SIZEOF_EVENTFLAGS 0 0)) ;;
        if events =? 0 then release_block id ;;; ret 0
        else
          status <- osKernelResourceAdd core osResourceDeque (deque_node id) ;;
          if negb (status =? osOK) then
            _status <- osEventFlagsDelete core (deque_events id) ;; release_block id ;;; ret 0
          else ret id.

(** The name, an empty one included. *)
Definition osDequeGetName (id : Z) : OM (option (list Z)) :=
  validated core false 0 id RTOS_DEQUE_MARKER (λ _, None) (ob <- get_object id ;; ret (Some (name ob))).

Definition add_deque_waiters (id n : Z) : OM unit := upd_deque id (λ d, d <| dq_waiters ::= λ w, u32 (w + n) |>).

(** ** The four transfers

    They share the wait: check for a reset, count the caller among the waiters,
    and wait outside the lock while the deque is [blocked]. *)
Section waiting.
Context `{Threads} (blocked : deque → bool) (wanted : Z).

Definition lock_deque (id : Z) : OM Z := spin_lock_irqsave (get_deque_lock id) (set_deque_lock id).
Definition unlock_deque (id state : Z) : OM unit :=
  spin_unlock_irqrestore (get_deque_lock id) (set_deque_lock id) state.

(** The interrupt mask to restore once the lock is held for the transfer, or the
    status of a failed wait. *)
Fixpoint await_deque (fuel : nat) (id timeout state : Z) : OM (Z + Z) :=
  match fuel with
  | O => fail OutOfFuel
  | S fuel' =>
      d <- get_deque id ;;
      if negb (blocked d) then ret (inr state)
      else
        unlock_deque id state ;;;
        flags <- osEventFlagsWait core fuel (deque_events id) (Z.lor wanted RTOS_DEQUE_RESET)
                   (Z.lor osFlagsWaitAny osFlagsNoClear) timeout ;;
        if has flags osFlagsError then add_deque_waiters id (-1) ;;; ret (inl (s32 flags))
        else
          flags <- osEventFlagsClear (deque_events id) wanted ;;
          if has flags osFlagsError then add_deque_waiters id (-1) ;;; ret (inl (s32 flags))
          else if has flags RTOS_DEQUE_RESET then add_deque_waiters id (-1) ;;; ret (inl osErrorResource)
          else state <- lock_deque id ;; await_deque fuel' id timeout state
  end.

Definition transfer {A} (fuel : nat) (id timeout announced : Z) (none : A) (body : OM A) : OM (Z * A) :=
  validated core true timeout id RTOS_DEQUE_MARKER (λ e, (e, none))
    (flags <- osEventFlagsGet (deque_events id) ;;
     if has flags (Z.lor RTOS_DEQUE_RESET osFlagsError) then
       ret (if has flags RTOS_DEQUE_RESET then osErrorResource else s32 flags, none)
     else
       add_deque_waiters id 1 ;;;
       state <- lock_deque id ;;
       r <- await_deque fuel id timeout state ;;
       match r with
       | inl status => ret (status, none)
       | inr state =>
           a <- body ;;
           unlock_deque id state ;;;
           add_deque_waiters id (-1) ;;;
           flags <- osEventFlagsSet core (deque_events id) announced ;;
           ret (if has flags osFlagsError then s32 flags else osOK, a)
       end).
End waiting.

Section transfers.
Context `{Threads}.

(** A put, for the position [body] stores the element at. *)
Definition put_element (fuel : nat) (id : Z) (element : option (list Z)) (timeout : Z)
    (body : list Z → OM unit) : OM Z :=
  match element with
  | None => ret osErrorParameter
  | Some e =>
      r <- transfer deque_is_full RTOS_DEQUE_SPACE_AVAILABLE fuel id timeout RTOS_DEQUE_DATA_AVAILABLE tt (body e) ;;
      ret r.1
  end.

Definition osDequePutFront (fuel : nat) (id : Z) (element : option (list Z)) (timeout : Z) : OM Z :=
  put_element fuel id element timeout (λ e,
    upd_deque id (λ d, d <| dq_front := deque_dec d (dq_front d - 1) |>) ;;;
    d <- get_deque id ;;
    deque_put id e (dq_front d)).

Definition osDequePutBack (fuel : nat) (id : Z) (element : option (list Z)) (timeout : Z) : OM Z :=
  put_element fuel id element timeout (λ e,
    d <- get_deque id ;;
    deque_put id e (dq_back d) ;;;
    upd_deque id (λ d, d <| dq_back := deque_inc d (dq_back d) |>)).

(** The status, and the bytes stored through the caller's pointer. *)
Definition get_element (fuel : nat) (id : Z) (room : bool) (timeout : Z) (body : OM (list Z))
    : OM (Z * option (list Z)) :=
  if negb room then ret (osErrorParameter, None)
  else
    transfer deque_is_empty RTOS_DEQUE_DATA_AVAILABLE fuel id timeout RTOS_DEQUE_SPACE_AVAILABLE None
      (e <- body ;; ret (Some e)).

Definition osDequeGetFront (fuel : nat) (id : Z) (room : bool) (timeout : Z) : OM (Z * option (list Z)) :=
  get_element fuel id room timeout
    (d <- get_deque id ;;
     e <- deque_get id (dq_front d) ;;
     upd_deque id (λ d, d <| dq_front := deque_inc d (dq_front d) |>) ;;;
     ret e).

(** The first copy, from the slot behind the last element, is overwritten. *)
Definition osDequeGetBack (fuel : nat) (id : Z) (room : bool) (timeout : Z) : OM (Z * option (list Z)) :=
  get_element fuel id room timeout
    (d <- get_deque id ;;
     _first <- deque_get id (dq_back d) ;;
     upd_deque id (λ d, d <| dq_back := deque_dec d (dq_back d) |>) ;;;
     d <- get_deque id ;;
     deque_get id (dq_back d)).
End transfers.

Definition osDequeGetCapacity (id : Z) : OM Z :=
  validated core true 0 id RTOS_DEQUE_MARKER (λ _, 0) (d <- get_deque id ;; ret (dq_count d)).
Definition osDequeGetElementSize (id : Z) : OM Z :=
  validated core true 0 id RTOS_DEQUE_MARKER (λ _, 0) (d <- get_deque id ;; ret (dq_size d)).

Definition osDequeGetCount (id : Z) : OM Z :=
  status <- osIsResourceValid id RTOS_DEQUE_MARKER ;;
  if negb (status =? osOK) then ret 0
  else d <- get_deque id ;; ret (modulo (dq_back d - dq_front d) (dq_count d)).
Definition osDequeGetSpace (id : Z) : OM Z :=
  status <- osIsResourceValid id RTOS_DEQUE_MARKER ;;
  if negb (status =? osOK) then ret 0
  else d <- get_deque id ;; ret (modulo (dq_front d - (dq_back d + 1)) (dq_count d)).

(** Yield until nobody waits. *)
Fixpoint drain_waiters (fuel : nat) (id : Z) : OM unit :=
  match fuel with
  | O => fail OutOfFuel
  | S fuel' =>
      d <- get_deque id ;;
      if dq_waiters d =? 0 then ret tt else _status <- osThreadYield core ;; drain_waiters fuel' id
  end.

Definition osDequeReset (fuel : nat) (id : Z) : OM Z :=
  validated core false 0 id RTOS_DEQUE_MARKER (λ e, e)
    (flags <- osEventFlagsSet core (deque_events id) RTOS_DEQUE_RESET ;;
     if has flags osFlagsError then ret (s32 flags)
     else
       self <- osThreadGetId core ;;
       old_priority <- osThreadGetPriority core self ;;
       self <- osThreadGetId core ;;
       _status <- osThreadSetPriority core self osPriorityIdle ;;
       drain_waiters fuel id ;;;
       self <- osThreadGetId core ;;
       _status <- osThreadSetPriority core self old_priority ;;
       locked (get_deque_lock id) (set_deque_lock id)
         (upd_deque id (λ d, d <| dq_front := 0 |> <| dq_back := 0 |>)) ;;;
       flags <- osEventFlagsClear (deque_events id)
                  (Z.lor RTOS_DEQUE_RESET (Z.lor RTOS_DEQUE_DATA_AVAILABLE RTOS_DEQUE_SPACE_AVAILABLE)) ;;
       ret (if has flags osFlagsError then s32 flags else osOK)).

Definition osDequeDelete (id : Z) : OM Z :=
  validated core false 0 id RTOS_DEQUE_MARKER (λ e, e)
    (upd_object id (λ ob, ob <| marker := 0 |>) ;;;
     status <- osKernelResourceRemove core osResourceDeque (deque_node id) ;;
     if negb (status =? osOK) then ret status
     else
       status <- osEventFlagsDelete core (deque_events id) ;;
       if negb (status =? osOK) then ret status else release_block id ;;; ret osOK).
End deque.
