(* ===== verification/RtosLaws.v ===== *)
(** * The RTOS layer: rules for undisturbed calls

    What a call of the RTOS layer does while no other task or core interferes:
    rules for words, validation and critical sections, and the contract of a
    wake, derived from the scheduler's own theorems. *)
From S2P Require Import Prelude Spinlock Scheduler SchedulerSvc SchedulerApi SchedulerInv SchedulerSafe SchedulerWake SchedulerHandlers SchedulerSystem SchedulerCalls WakeLaws Rtos Kernel.

(** The trap returns to its caller, and nothing else runs while it does. *)
Class Undisturbed `{Trap} `{RtosEnv} : Prop := {
  undisturbed_resumes :: Resumes;
  nothing_ran o : others_ran o = Done tt o
}.

(** ** Words *)
Definition word_of (o : rtos) (a : Z) : option Z := word_at (o_sched o) !! a.
Definition stored (a v : Z) (o : rtos) : rtos :=
  o <| o_sched := (o_sched o) <| word_at := <[a := v]> (word_at (o_sched o)) |> |>.

Lemma word_stored a v b o : word_of (stored a v o) b = if decide (a = b) then Some v else word_of o b.
Proof. unfold word_of, stored. rsimp. by rewrite lookup_insert. Qed.

Lemma word_stored_eq a v o : word_of (stored a v o) a = Some v.
Proof. by rewrite word_stored, decide_True. Qed.

Lemma word_stored_ne a v b o : a ≠ b → word_of (stored a v o) b = word_of o b.
Proof. intros Hab. by rewrite word_stored, decide_False. Qed.

Section words.
Context (a : Z) (o : rtos).

Lemma wp_load v (Q : Z → rtos → Prop) : word_of o a = Some v → Q v o → wp (load a) Q o.
Proof.
  intros Hv HQ. unfold load. apply wp_on_sched. unfold get_word. eapply wp_get_opt; [exact Hv|]. by destruct o.
Qed.

Lemma wp_store v w (Q : unit → rtos → Prop) : word_of o a = Some w → Q tt (stored a v o) → wp (store a v) Q o.
Proof.
  intros Hw HQ. unfold store. apply wp_on_sched. unfold set_word. wp_step.
  unfold get_word. eapply wp_get_opt; [exact Hw|]. by apply wp_upd.
Qed.

Lemma wp_cas expected desired w (Q : bool * Z → rtos → Prop) :
  word_of o a = Some w →
  (w = expected → Q (true, expected) (stored a desired o)) → (w ≠ expected → Q (false, w) o) →
  wp (cas a expected desired) Q o.
Proof.
  intros Hw Ht Hf. unfold cas. apply wp_on_sched. unfold compare_exchange. wp_step.
  unfold get_word. eapply wp_get_opt; [exact Hw|]. cbn beta. destruct (Z.eqb_spec w expected) as [->|Hne].
  - wp_step. unfold set_word. wp_step. unfold get_word. eapply wp_get_opt; [exact Hw|]. cbn beta.
    do 2 wp_step. by apply Ht.
  - wp_step. specialize (Hf Hne). by destruct o.
Qed.

Lemma wp_fetch_map g v (Q : Z → rtos → Prop) :
  word_of o a = Some v → Q v (stored a (g v) o) → wp (fetch_map a g) Q o.
Proof.
  intros Hv HQ. unfold fetch_map. wp_step. eapply wp_load; [exact Hv|]. wp_step.
  eapply wp_store; [exact Hv|]. by wp_step.
Qed.
End words.

Lemma has_zero_l m : has 0 m = false. Proof. done. Qed.

(** ** The calling thread *)
Section calls.
Context `{EnvironmentLaws} `{Trap} `{RtosEnv} {Hun : Undisturbed} (core : Z).

Definition calling (o : rtos) : Prop := in_thread core (o_sched o).

Lemma calling_stored a v o : calling o → calling (stored a v o).
Proof.
  intros Hc. apply in_thread_words; [done|]. intros b Hb. rewrite lookup_insert. case_decide; [eauto|done].
Qed.

Lemma wp_context allowed timeout (Q : Z → rtos → Prop) o :
  calling o → Q osOK o → wp (osKernelContextIsValid core allowed timeout) Q o.
Proof.
  intros Hc HQ. unfold osKernelContextIsValid. do 2 wp_step. wp_step. rewrite (it_mode _ _ Hc), Z.eqb_refl.
  cbn [negb]. by destruct allowed.
Qed.

(** A live block: its address, and a marker. *)
Definition block_at (id m : Z) (o : rtos) : Prop :=
  id ≠ 0 ∧ ∃ n bits c, object_at o !! id = Some (Object m n bits c).

Lemma wp_resource id m (Q : Z → rtos → Prop) o :
  block_at id m o → Q osOK o → wp (osIsResourceValid id m) Q o.
Proof.
  intros (Hid & n & bits & c & Ho) HQ. unfold osIsResourceValid. rewrite (proj2 (Z.eqb_neq _ _) Hid).
  wp_step. unfold get_object. wp_step; [exact Ho|]. wp_step. cbn [marker]. by rewrite Z.eqb_refl.
Qed.

Lemma wp_validated {A} allowed timeout id m error (k : OM A) (Q : A → rtos → Prop) o :
  calling o → block_at id m o → wp k Q o → wp (validated core allowed timeout id m error k) Q o.
Proof.
  intros Hc Hb Hk. unfold validated. wp_step. apply wp_context; [done|]. cbn [negb Z.eqb osOK].
  wp_step. by apply wp_resource.
Qed.

(** In an exception handler nothing but a call that does not wait is valid. *)
Definition in_interrupt (o : rtos) : Prop := ipsr (cls (o_sched o) core) ≠ 0.

Lemma context_interrupt allowed timeout o :
  in_interrupt o → (allowed = true → timeout ≠ 0) →
  osKernelContextIsValid core allowed timeout o = Done (if allowed then osErrorParameter else osErrorISR) o.
Proof.
  intros Hi Ht. unfold osKernelContextIsValid, bind, gets, ret. rewrite (proj2 (Z.eqb_neq _ 0)) by exact Hi.
  destruct allowed; [|done]. by rewrite (proj2 (Z.eqb_neq timeout 0)) by auto.
Qed.

Lemma validated_interrupt {A} allowed timeout id m error (k : OM A) o :
  in_interrupt o → (allowed = true → timeout ≠ 0) →
  validated core allowed timeout id m error k o = Done (error (if allowed then osErrorParameter else osErrorISR)) o.
Proof. intros Hi Ht. unfold validated, bind. rewrite context_interrupt by done. by destruct allowed. Qed.

(** A null id is refused. *)
Lemma wp_validated_null {A} allowed timeout m error (k : OM A) (Q : A → rtos → Prop) o :
  calling o → Q (error osErrorParameter) o → wp (validated core allowed timeout 0 m error k) Q o.
Proof. intros Hc HQ. unfold validated. wp_step. by apply wp_context. Qed.

(** ** Wakes *)
Lemma wp_futex_wake_any f fx all v (Q : Z → rtos → Prop) o :
  calling o → f ≠ 0 → futex_at (o_sched o) !! f = Some fx → f_marker fx = SCHEDULER_FUTEX_MARKER →
  word_of o (f_value fx) = Some v → (inherits fx = true → owner_of v ∈ s_tasks (o_sched o)) →
  (∀ l1 l2 s, woken_by core f fx all v l1 l2 (o_sched o) s →
     Q (Z.of_nat (length (chosen fx all (f_waiters fx)))) (o <| o_sched := s |>)) →
  wp (futex_wake core f all) Q o.
Proof.
  intros Hc Hf Hfx Hmk Hv Hown HQ. unfold futex_wake. wp_step. apply wp_on_sched.
  eapply wp_mono; [by eapply (futex_wake_any core)|]. intros r s (-> & l1 & l2 & Hw).
  wp_step. eapply wp_done; [apply nothing_ran|]. wp_step. by eapply HQ.
Qed.

Lemma wp_futex_wake f a l all v (Q : Z → rtos → Prop) o :
  calling o → plain_futex f a l (o_sched o) → word_of o a = Some v →
  (∀ s, woken core f a l (left_waiting all l) (first_or_all all l) (o_sched o) s →
     Q (Z.of_nat (length (first_or_all all l))) (o <| o_sched := s |>)) →
  wp (futex_wake core f all) Q o.
Proof.
  intros Hc Hf Hv HQ. eapply (wp_futex_wake_any f (Futex a l 0 SCHEDULER_FUTEX_MARKER)); [done|apply Hf|apply Hf|done..|].
  intros l1 l2 s Hw. cbn [f_waiters]. rewrite chosen_plain. apply HQ. by eapply woken_plain.
Qed.

(** ** What a call may do to the rest of the state

    From [o] to [o'] only the scheduler and the objects of [I] changed, and the
    words, to [m]; every futex still compares the same word, the same tasks
    live, and a task still calls. *)
Record moved (I : list Z) (m : gmap Z Z) (o o' : rtos) : Prop := {
  mv_rest : o' = o <| o_sched := o_sched o' |> <| object_at := object_at o' |>;
  mv_objects id : id ∉ I → object_at o' !! id = object_at o !! id;
  mv_calling : calling o';
  mv_words : word_at (o_sched o') = m;
  mv_futex g : futex_id <$> futex_at (o_sched o') !! g = futex_id <$> futex_at (o_sched o) !! g;
  mv_tasks : s_tasks (o_sched o') = s_tasks (o_sched o);
  mv_locked : s_locked (o_sched o') = s_locked (o_sched o)
}.

Lemma moved_refl I o : calling o → moved I (word_at (o_sched o)) o o.
Proof. intros Hc. split; try done. by destruct o. Qed.

Lemma moved_stored I a v o : calling o → moved I (<[a := v]> (word_at (o_sched o))) o (stored a v o).
Proof. intros Hc. split; try done. by apply calling_stored. Qed.

Lemma moved_weaken I J m o o' : moved I m o o' → I ⊆ J → moved J m o o'.
Proof. intros [] HI. split; auto. Qed.

Lemma moved_trans I m m' o o1 o2 : moved I m o o1 → moved I m' o1 o2 → moved I m' o o2.
Proof.
  intros [E1 O1 ? ? F1 T1 L1] [E2 O2 ? ? F2 T2 L2]. split; try done; try congruence.
  - rewrite E2. rewrite E1 at 1. done.
  - intros id Hid. by rewrite O2, O1.
Qed.

(** A change of one object. *)
Definition with_object (id : Z) (ob : object) (o : rtos) : rtos := o <| object_at := <[id := ob]> (object_at o) |>.

Lemma with_object_twice id a b o : with_object id a (with_object id b o) = with_object id a o.
Proof. unfold with_object. destruct o. cbn. unfold over. cbn. by rewrite insert_insert_eq. Qed.

Lemma with_object_same id ob o : object_at o !! id = Some ob → with_object id ob o = o.
Proof. intros Ho. unfold with_object. destruct o. cbn in *. unfold over. cbn. by rewrite insert_id. Qed.

(** The same with interrupts masked. *)
Definition masked (o : rtos) : rtos := o <| o_primask := 1 |>.

Lemma with_object_masked id a b o : with_object id a (masked (with_object id b o)) = masked (with_object id a o).
Proof. rewrite <-(with_object_twice id a b o). done. Qed.

Lemma unmask_object id a o o0 : o_primask o = o_primask o0 → (masked (with_object id a o)) <| o_primask := o_primask o0 |> = with_object id a o.
Proof. intros <-. by destruct o. Qed.

(** A critical section on an object: [mk] makes the object of its data and the
    word of its lock. *)
Section object_lock.
Context {X : Type} (id : Z) (mk : X → Z → object) (get_lock : rtos → Z) (set_lock : Z → rtos → rtos).
Hypothesis Hg : ∀ o x l, object_at o !! id = Some (mk x l) → get_lock o = l.
Hypothesis Hs : ∀ o x l n, object_at o !! id = Some (mk x l) → set_lock n o = with_object id (mk x n) o.

Lemma wp_object_lock x l (Q : Z → rtos → Prop) o :
  object_at o !! id = Some (mk x l) → free_lock l →
  Q (o_primask o) (masked (with_object id (mk x (take_ticket l)) o)) → wp (spin_lock_irqsave get_lock set_lock) Q o.
Proof.
  intros Ho Hf HQ. assert (object_at (masked o) !! id = Some (mk x l)) as Hm by done.
  unfold wp, spin_lock_irqsave, spin_lock, bind, gets, upd, ret. fold (masked o).
  rewrite (Hg _ _ _ Hm), (Hs _ _ _ _ Hm). erewrite Hg; [|apply lookup_insert_eq].
  rewrite (free_take _ Hf), Z.eqb_refl. exact HQ.
Qed.

Lemma wp_object_unlock x l primask (Q : unit → rtos → Prop) o :
  object_at o !! id = Some (mk x (take_ticket l)) →
  Q tt ((with_object id (mk x (released_lock l)) o) <| o_primask := primask |>) →
  wp (spin_unlock_irqrestore get_lock set_lock primask) Q o.
Proof.
  intros Ho HQ. unfold wp, spin_unlock_irqrestore, spin_unlock, bind, gets, upd, ret.
  by rewrite (Hg _ _ _ Ho), (Hs _ _ _ _ Ho).
Qed.

(** The body runs on the object with the lock taken, and what it leaves gets the
    lock released. *)
Lemma wp_object_locked {A} x l (body : OM A) (Q : A → rtos → Prop) o :
  object_at o !! id = Some (mk x l) → free_lock l →
  wp body (λ a o2, ∃ x' o3, o2 = masked (with_object id (mk x' (take_ticket l)) o3) ∧ o_primask o3 = o_primask o ∧
      Q a (with_object id (mk x' (released_lock l)) o3))
    (masked (with_object id (mk x (take_ticket l)) o)) →
  wp (locked get_lock set_lock body) Q o.
Proof.
  intros Ho Hf Hb. unfold locked. wp_step. eapply wp_object_lock; [exact Ho|done|]. wp_step.
  eapply wp_mono; [exact Hb|]. intros a o2 (x' & o3 & -> & Hpm & HQ).
  wp_step. eapply wp_object_unlock; [apply lookup_insert_eq|]. rewrite with_object_masked, unmask_object by done. by wp_step.
Qed.
End object_lock.

Lemma moved_object I m id ob o :
  calling o → word_at (o_sched o) = m → id ∈ I → moved I m o (with_object id ob o).
Proof. intros Hc Hm Hid. split; try done. intros i Hi. apply lookup_insert_ne. by intros <-. Qed.

(** A futex survives, whoever waits for it now. *)
Lemma moved_futex I m o o' f a l :
  moved I m o o' → plain_futex f a l (o_sched o) → ∃ l', plain_futex f a l' (o_sched o').
Proof.
  intros Hm [Hf Hfx]. pose proof (mv_futex _ _ _ _ Hm f) as E. rewrite Hfx in E.
  destruct (futex_at (o_sched o') !! f) as [[a' l' g' k']|] eqn:Hf'; [|done].
  unfold futex_id in E. cbn in E. exists l'. split; [done|]. rewrite Hf'. congruence.
Qed.

Lemma woken_moved I f a l l' woke o s :
  woken core f a l l' woke (o_sched o) s → moved I (word_at (o_sched o)) o (o <| o_sched := s |>).
Proof. intros []. by split. Qed.
End calls.
