(* ===== verification/KernelLaws.v ===== *)
(** * The RTOS kernel: laws

    The kernel lock takes the scheduler's lock once, whatever the number of
    lock calls; a resource list holds what was added and not removed; the
    initialisation function of [osCallOnce] runs once. *)
From S2P Require Import Prelude Spinlock Scheduler SchedulerSvc SchedulerApi SchedulerInv SchedulerSafe SchedulerWake SchedulerHandlers SchedulerSystem SchedulerCalls WakeLaws Rtos Kernel RtosLaws.

Section laws.
Context `{EnvironmentLaws} `{Trap} `{RtosEnv} {Hun : Undisturbed} `{RtosImage} (core : Z).
Notation calling := (calling core).

(** ** Initialisation *)
Definition thread_mode (o : rtos) : Prop := ipsr (cls (o_sched o) core) = 0.

Lemma wp_thread_mode (Q : Z → rtos → Prop) o :
  thread_mode o → Q osOK o → wp (osKernelContextIsValid core false 0) Q o.
Proof. intros Hm HQ. unfold osKernelContextIsValid. do 3 wp_step. by rewrite Hm. Qed.

Lemma osKernelInitialize_readies o :
  thread_mode o → o_started o = false → idle_memory (o_sched o) → kernel_scheduler ≠ 0 →
  wp (osKernelInitialize core) (λ r o', r = osOK ∧ initialised tls_size (o_sched o') ∧ k_state o' = osKernelReady ∧
    o_started o' = true ∧ free_lock (k_lock o') ∧
    ∀ x, nodes (k_resources o' x) = [] ∧ free_lock (resource_lock (k_resources o' x))) o.
Proof.
  intros Hm Hs Hi Hk. unfold osKernelInitialize. do 2 wp_step. wp_step. apply wp_thread_mode; [done|].
  change (osOK =? osOK) with true. cbn [negb]. wp_step. wp_step. rsimp. rewrite Hs. wp_step. apply wp_on_sched.
  eapply wp_mono; [by apply scheduler_init_ok|]. intros r s [-> Hin]. cbn [Z.ltb Z.compare]. unfold set_state.
  do 6 wp_step. wp_step. split; [done|]. split; [done|]. split; [done|]. split; [done|].
  assert (free_lock 0) by (by exists 0). done.
Qed.

Lemma osKernelInitialize_again o :
  thread_mode o → o_started o = true → wp (osKernelInitialize core) (λ r o', r = osError ∧ o' = o <| k_lock := 0 |>) o.
Proof.
  intros Hm Hs. unfold osKernelInitialize. do 2 wp_step. wp_step. apply wp_thread_mode; [done|].
  change (osOK =? osOK) with true. cbn [negb]. wp_step. wp_step. rsimp. rewrite Hs. by wp_step.
Qed.

(** ** The kernel lock *)

(** The kernel runs, or is locked, and holds the scheduler's lock, whose depth
    was [base], exactly while it is locked. *)
Record kernel_balanced (base : Z) (is_locked : bool) (o : rtos) : Prop := {
  kb_mode : thread_mode o;
  kb_started : o_started o = true;
  kb_running : scheduler_is_running (o_sched o) = true;
  kb_lock : free_lock (k_lock o);
  kb_locked : k_locked o = Z.b2z is_locked;
  kb_state : k_state o = if is_locked then osKernelLocked else osKernelRunning;
  kb_depth : s_locked (o_sched o) = base - Z.b2z is_locked;
  kb_bounds : - 2 ^ 30 < base < 2 ^ 30
}.

Lemma wp_while_running body (Q : Z → rtos → Prop) base b o :
  kernel_balanced base b o → wp body Q o → wp (while_running core body) Q o.
Proof.
  intros Hb Hbody. unfold while_running. wp_step. apply wp_thread_mode; [apply Hb|].
  change (osOK =? osOK) with true. cbn [negb]. unfold the_kernel. wp_step. do 2 wp_step. rewrite (kb_started _ _ _ Hb). wp_step.
  wp_step. wp_step. unfold state_is. rewrite (kb_state _ _ _ Hb). by destruct b.
Qed.

Lemma wp_kernel_locked {A} (body : OM A) (Q : A → rtos → Prop) o :
  free_lock (k_lock o) →
  wp body (λ r o2, ∃ o3, o2 = masked (o3 <| k_lock := take_ticket (k_lock o) |>) ∧ o_primask o3 = o_primask o ∧
     Q r (o3 <| k_lock := released_lock (k_lock o) |>)) (masked (o <| k_lock := take_ticket (k_lock o) |>)) →
  wp (locked get_kernel_lock set_kernel_lock body) Q o.
Proof.
  intros Hf Hb. apply wp_locked; [done..|]. eapply wp_mono; [exact Hb|]. intros r o2 (o3 & -> & Hp & HQ).
  unfold set_kernel_lock, get_kernel_lock, masked. rsimp.
  match goal with |- Q r ?o' => replace o' with (o3 <| k_lock := released_lock (k_lock o) |>); [done|] end.
  unfold released_lock. rewrite <-Hp. by destruct o3.
Qed.

Lemma wp_lock_depth g (Q : Z → rtos → Prop) o :
  scheduler_is_running (o_sched o) = true →
  Q (s_locked (o_sched o)) (o <| o_sched := (o_sched o) <| s_locked := g (s_locked (o_sched o)) |> |>) →
  wp (on_sched (asserted_running ;;; old <- gets s_locked ;; upd (λ s, s <| s_locked := g old |>) ;;; ret old)) Q o.
Proof. intros Hr HQ. by apply wp_on_sched, wp_get_locked. Qed.

Inductive lock_op := LockKernel | UnlockKernel.
Definition lock_step (op : lock_op) : OM Z :=
  match op with LockKernel => osKernelLock core | UnlockKernel => osKernelUnlock core end.
Definition locks (op : lock_op) : bool := match op with LockKernel => true | UnlockKernel => false end.

Lemma lock_step_ok base b op o :
  kernel_balanced base b o →
  wp (lock_step op) (λ r o', r = Z.b2z b ∧ kernel_balanced base (locks op) o') o.
Proof.
  intros Hb. pose proof Hb as [Hm Hs Hr Hl Hlk Hst Hd Hbd].
  assert (s32 (s_locked (o_sched o) - 1) = s_locked (o_sched o) - 1 ∧ s32 (s_locked (o_sched o) + 1) = s_locked (o_sched o) + 1) as [Hm1 Hp1].
  { rewrite Hd. destruct b; cbn; rewrite !s32_small by lia; done. }
  destruct op; unfold lock_step, osKernelLock, osKernelUnlock;
    (eapply wp_while_running; [exact Hb|]); apply wp_kernel_locked; try done; unfold set_state; do 5 wp_step; wp_step; wp_step;
    change (k_locked (masked (o <| k_lock := take_ticket (k_lock o) |>))) with (k_locked o); rewrite Hlk.
  - apply wp_when; intros Hz.
    + destruct b; [done|]. wp_step. unfold scheduler_lock. apply (wp_lock_depth (λ n, s32 (n - 1))); [done|]. do 2 wp_step.
      eexists (((o <| k_locked := 1 |>) <| k_state := osKernelLocked |>)
        <| o_sched := (o_sched o) <| s_locked := s32 (s_locked (o_sched o) - 1) |> |>).
      split; [done|]. split; [done|]. split; [done|]. split; try done; [by apply free_released|]. rsimp. rewrite Hm1, Hd. cbn. lia.
    + destruct b; [|done]. wp_step. exists ((o <| k_locked := 1 |>) <| k_state := osKernelLocked |>).
      split; [done|]. split; [done|]. split; [done|]. split; try done. by apply free_released.
  - apply wp_when; intros Hz.
    + destruct b; [|done]. wp_step. unfold scheduler_unlock. apply (wp_lock_depth (λ n, s32 (n + 1))); [done|]. do 2 wp_step.
      eexists (((o <| k_locked := 0 |>) <| k_state := osKernelRunning |>)
        <| o_sched := (o_sched o) <| s_locked := s32 (s_locked (o_sched o) + 1) |> |>).
      split; [done|]. split; [done|]. split; [done|]. split; try done; [by apply free_released|]. rsimp. rewrite Hp1, Hd. cbn. lia.
    + destruct b; [done|]. wp_step. exists ((o <| k_locked := 0 |>) <| k_state := osKernelRunning |>).
      split; [done|]. split; [done|]. split; [done|]. split; try done. by apply free_released.
Qed.

Fixpoint lock_run (ops : list lock_op) : OM (list Z) :=
  match ops with [] => ret [] | op :: ops' => r <- lock_step op ;; rs <- lock_run ops' ;; ret (r :: rs) end.

Lemma lock_run_ok base ops : ∀ b o,
  kernel_balanced base b o →
  wp (lock_run ops) (λ rs o', rs = Z.b2z <$> removelast (b :: (locks <$> ops)) ∧
    kernel_balanced base (List.last (locks <$> ops) b) o') o.
Proof.
  induction ops as [|op ops IH]; intros b o Hb; cbn [lock_run]; [by wp_step|].
  wp_step. eapply wp_mono; [by apply (lock_step_ok base b)|]. intros r o1 [-> Hb1]. wp_step.
  eapply wp_mono; [by apply IH|]. intros rs o2 [-> Hb2]. wp_step. split; [done|].
  replace (List.last (locks <$> op :: ops) b) with (List.last (locks <$> ops) (locks op)); [done|].
  cbn [fmap list_fmap List.last]. clear. revert op. induction ops as [|x ops IH]; intros op; [done|].
  cbn [fmap list_fmap List.last] in *. destruct ops; [done|]. apply (IH op).
Qed.

(** Restoring the lock to the state it is in takes the scheduler's lock again:
    the kernel is no longer balanced. *)
Lemma osKernelRestoreLock_again base o :
  kernel_balanced base true o → - 2 ^ 30 + 1 < base →
  wp (_lock <- osKernelRestoreLock core 1 ;; osKernelUnlock core) (λ r o', r = 1 ∧ k_state o' = osKernelRunning ∧
    k_locked o' = 0 ∧ s_locked (o_sched o') = base - 1) o.
Proof.
  intros Hb Hbase. pose proof Hb as [Hm Hs Hr Hl Hlk Hst Hd Hbd]. wp_step. unfold osKernelRestoreLock.
  eapply wp_while_running; [exact Hb|]. wp_step. apply wp_kernel_locked; [done|].
  assert (s32 (s_locked (o_sched o) - 1) = base - 1 - 1) as E by (rewrite Hd; cbn; rewrite s32_small by lia; lia).
  change (1 =? 0) with false. cbn [negb]. do 3 wp_step. unfold scheduler_lock.
  apply (wp_lock_depth (λ n, s32 (n - 1))); [done|]. unfold set_state. wp_step.
  exists (((o <| k_locked := 1 |>) <| k_state := osKernelLocked |>) <| o_sched := (o_sched o) <| s_locked := s32 (s_locked (o_sched o) - 1) |> |>).
  split; [done|]. split; [done|]. wp_step.
  assert (kernel_balanced (base - 1) true (((o <| k_locked := 1 |>) <| k_state := osKernelLocked |>)
    <| o_sched := (o_sched o) <| s_locked := s32 (s_locked (o_sched o) - 1) |> |> <| k_lock := released_lock (k_lock o) |>)) as Hb1.
  { split; try done; [by apply free_released|lia]. }
  eapply wp_mono; [apply (lock_step_ok (base - 1) true UnlockKernel); exact Hb1|].
  intros r o2 [-> Hb2]. split; [done|]. split; [apply Hb2|]. split; [apply Hb2|]. rewrite (kb_depth _ _ _ Hb2). cbn. lia.
Qed.

(** ** Resources *)
Record resources_at (r : resource_id) (l : list Z) (o : rtos) : Prop := {
  ra_calling : calling o;
  ra_started : o_started o = true;
  ra_lock : free_lock (resource_lock (k_resources o r));
  ra_nodes : nodes (k_resources o r) = l
}.

Lemma wp_the_kernel (Q : unit → rtos → Prop) o : o_started o = true → Q tt o → wp the_kernel Q o.
Proof. intros Hs HQ. unfold the_kernel. do 2 wp_step. rewrite Hs. by wp_step. Qed.

(** A critical section on a resource list. *)
Lemma wp_resource_locked {A} r (body : OM A) (Q : A → rtos → Prop) o :
  free_lock (resource_lock (k_resources o r)) →
  wp body (λ a o2, resource_lock (k_resources o2 r) = take_ticket (resource_lock (k_resources o r)) ∧
     Q a ((set_resource_lock r (released_lock (resource_lock (k_resources o r))) o2) <| o_primask := o_primask o |>))
    (masked (set_resource_lock r (take_ticket (resource_lock (k_resources o r))) o)) →
  wp (locked (get_resource_lock r) (set_resource_lock r) body) Q o.
Proof.
  intros Hf Hb. apply wp_locked; [done|done| |].
  - unfold get_resource_lock, set_resource_lock, upd_resource. rsimp. by rewrite decide_True.
  - eapply wp_mono; [exact Hb|]. intros a o2 [Hl HQ]. unfold get_resource_lock. by rewrite Hl.
Qed.

Lemma resource_set r l o r' :
  k_resources (set_resource_lock r l o) r' =
  if decide (r' = r) then Resource (nodes (k_resources o r)) l else k_resources o r'.
Proof. unfold set_resource_lock, upd_resource. rsimp. case_decide; by subst. Qed.

Lemma osKernelResourceAdd_adds r node l o :
  resources_at r l o → node ≠ 0 → (∀ x, node ∉ nodes (k_resources o x)) →
  wp (osKernelResourceAdd core r node) (λ st o', st = osOK ∧ resources_at r (l ++ [node]) o' ∧
    ∀ x, x ≠ r → k_resources o' x = k_resources o x) o.
Proof.
  intros [Hc Hs Hl Hn] Hz Hun'. unfold osKernelResourceAdd. wp_step. apply wp_context; [done|].
  change (osOK =? osOK) with true. cbn [negb]. rewrite (proj2 (Z.eqb_neq node 0)) by done.
  wp_step. apply wp_the_kernel; [done|]. wp_step. apply wp_resource_locked; [done|].
  set (o1 := masked _). assert (node_listed node o1 = false) as Hno.
  { apply not_true_is_false. unfold node_listed. rewrite existsb_exists. intros (x & _ & Hx%bool_decide_eq_true).
    unfold o1, masked in Hx. rsimp. rewrite resource_set in Hx. case_decide; subst; by apply (Hun' _ Hx). }
  do 2 wp_step. rewrite Hno. cbn [when]. do 3 wp_step.
  unfold upd_resource at 1. rsimp. rewrite decide_True by done. cbn [resource_lock]. unfold o1 at 1, masked. rsimp.
  rewrite resource_set, decide_True by done. split; [done|]. wp_step. split; [done|]. split.
  - split; [done|done|..].
    + rsimp. rewrite resource_set, decide_True by done. by apply free_released.
    + rsimp. rewrite resource_set, decide_True by done. cbn [nodes]. unfold upd_resource. rsimp. rewrite decide_True by done.
      cbn [nodes]. unfold o1, masked. rsimp. rewrite resource_set, decide_True by done. cbn [nodes]. by rewrite Hn.
  - intros x Hx. rsimp. rewrite resource_set, decide_False by done. unfold upd_resource. rsimp. rewrite decide_False by done.
    unfold o1, masked. rsimp. by rewrite resource_set, decide_False.
Qed.

Lemma osKernelResourceRemove_removes r node l o :
  resources_at r l o → node ≠ 0 →
  wp (osKernelResourceRemove core r node) (λ st o', st = osOK ∧ resources_at r (without node l) o') o.
Proof.
  intros [Hc Hs Hl Hn] Hz. unfold osKernelResourceRemove. wp_step. apply wp_context; [done|].
  change (osOK =? osOK) with true. cbn [negb]. rewrite (proj2 (Z.eqb_neq node 0)) by done.
  wp_step. apply wp_the_kernel; [done|]. wp_step. apply wp_resource_locked; [done|]. wp_step.
  unfold unlist_node at 1, masked at 1. rsimp. rewrite resource_set, decide_True by done. split; [done|]. wp_step. split; [done|].
  split; [done|done|..]; rsimp; rewrite resource_set, decide_True by done; [by apply free_released|].
  cbn [nodes]. unfold unlist_node, masked. rsimp. rewrite resource_set, decide_True by done. cbn [nodes]. by rewrite Hn.
Qed.

(** The walk stops at the first node whose visit is not [osOK]. *)
Lemma visit_registered offset resource l (Q : Z * Z → rtos → Prop) o :
  Q (Z.b2z (bool_decide (resource + offset ∈ l)), resource) o →
  wp (visit_nodes osKernelResourceReqistered offset l resource) Q o.
Proof.
  induction l as [|node l IH]; cbn [visit_nodes]; intros HQ; [by apply wp_ret|].
  unfold osKernelResourceReqistered at 1. wp_step. wp_step. cbn [fst snd].
  destruct (Z.eqb_spec (node - offset) resource) as [E|E].
  - change (1 =? osOK) with false. cbn [negb]. wp_step. rewrite bool_decide_eq_true_2 in HQ; [done|]. apply elem_of_cons. left. lia.
  - change (osOK =? osOK) with true. cbn [negb]. apply IH.
    rewrite (bool_decide_ext _ (resource + offset ∈ node :: l)); [done|]. rewrite elem_of_cons. split; [auto|]. intros [?|?]; [lia|done].
Qed.

Lemma osKernelResourceIsRegistered_spec r resource l o :
  resources_at r l o →
  wp (osKernelResourceIsRegistered core r resource) (λ st o',
    st = (if bool_decide (resource + resource_offset r ∈ l) then osOK else osErrorResource) ∧ resources_at r l o') o.
Proof.
  intros [Hc Hs Hl Hn]. unfold osKernelResourceIsRegistered, osKernelResourceForEach. do 2 wp_step. apply wp_context; [done|].
  change (osOK =? osOK) with true. cbn [negb].
  wp_step. apply wp_the_kernel; [done|]. apply wp_resource_locked; [done|]. do 2 wp_step.
  assert (nodes (k_resources (masked (set_resource_lock r (take_ticket (resource_lock (k_resources o r))) o)) r) = l) as ->.
  { unfold masked. rsimp. by rewrite resource_set, decide_True. }
  apply visit_registered. unfold masked. rsimp. rewrite resource_set, decide_True by done. split; [done|]. wp_step. cbn [fst].
  split; [by case_bool_decide|]. split; [done|done|..]; rsimp; rewrite resource_set, decide_True by done; [by apply free_released|].
  cbn [nodes]. rsimp. by rewrite resource_set, decide_True.
Qed.

(** A resource added and removed again: registered in between, and only there. *)
Lemma osKernelResource_round_trip r resource l o :
  let node := resource + resource_offset r in
  resources_at r l o → node ≠ 0 → (∀ x, node ∉ nodes (k_resources o x)) →
  wp (_added <- osKernelResourceAdd core r node ;;
      inside <- osKernelResourceIsRegistered core r resource ;;
      _removed <- osKernelResourceRemove core r node ;;
      after <- osKernelResourceIsRegistered core r resource ;;
      ret (inside, after)) (λ st o', st = (osOK, osErrorResource) ∧ resources_at r l o') o.
Proof.
  intros node Hr Hz Hout. assert (node ∉ l) as Hl by (rewrite <-(ra_nodes _ _ _ Hr); apply Hout).
  wp_step. eapply wp_mono; [by eapply osKernelResourceAdd_adds|]. intros st o1 (_ & Hr1 & _).
  wp_step. eapply wp_mono; [by eapply osKernelResourceIsRegistered_spec|]. intros st1 o2 [-> Hr2].
  rewrite bool_decide_eq_true_2 by set_solver.
  wp_step. eapply wp_mono; [by eapply osKernelResourceRemove_removes|]. intros st2 o3 [_ Hr3].
  assert (without node (l ++ [node]) = l) as E.
  { unfold without. rewrite filter_app. fold (without node l). rewrite without_id by done.
    rewrite filter_cons_False by tauto. by rewrite app_nil_r. }
  rewrite E in Hr3. wp_step. eapply wp_mono; [by eapply osKernelResourceIsRegistered_spec|]. intros st3 o4 [-> Hr4].
  rewrite bool_decide_eq_false_2 by done. wp_step. done.
Qed.

(** ** Once *)
Lemma osCallOnce_done fuel once_flag func o :
  word_of o once_flag = Some 2 → wp (osCallOnce core fuel once_flag func) (λ _ o', o' = o) o.
Proof. intros Hw. unfold osCallOnce. wp_step. eapply wp_load; [exact Hw|]. by wp_step. Qed.

(** The state in which the function of the first call runs: its futex made, the
    flag set to 1. *)
Definition once_begun (f once_flag : Z) (o : rtos) : rtos :=
  stored once_flag 1 (o <| o_sched := with_futex (o_sched o) f once_flag 0 |>).

Lemma osCallOnce_first fuel f once_flag func o (P : rtos → Prop) :
  calling o → word_of o once_flag = Some 0 → futex_slot once_flag o = Done f o → futex_memory f once_flag 0 (o_sched o) →
  wp func (λ _ o2, P o2 ∧ calling o2 ∧ is_Some (word_of o2 once_flag) ∧ ∃ l, plain_futex f once_flag l (o_sched o2))
    (once_begun f once_flag o) →
  wp (osCallOnce core fuel once_flag func) (λ _ o', word_of o' once_flag = Some 2 ∧
    ∃ o2, P o2 ∧ moved core [] (<[once_flag := 2]> (word_at (o_sched o2))) o2 o') o.
Proof.
  intros Hc Hw Hslot Hm Hfunc. unfold osCallOnce. wp_step. eapply wp_load; [exact Hw|]. change (0 =? 2) with false. cbn iota.
  wp_step. eapply wp_done; [exact Hslot|]. wp_step. apply wp_on_sched. unfold scheduler_futex_init. wp_step.
  wp_step; [destruct Hm; by rewrite (proj2 (Z.eqb_neq f 0))|]. wp_step. wp_step.
  eapply wp_cas; [exact Hw|intros _|done]. cbn [fst negb]. wp_step.
  change (stored once_flag 1 _) with (once_begun f once_flag o).
  eapply wp_mono; [exact Hfunc|]. intros [] o2 (HP & Hc2 & [w Hw2] & l & Hl). wp_step. eapply wp_store; [exact Hw2|].
  wp_step. pose proof (moved_stored core [] once_flag 2 o2 Hc2) as Hm1.
  eapply (wp_futex_wake core f once_flag l true 2); [by apply calling_stored|destruct Hl; by split|apply word_stored_eq|].
  intros s Hwk. wp_step. pose proof (woken_moved _ [] _ _ _ _ _ _ _ Hwk) as Hm2. pose proof (moved_trans _ _ _ _ _ _ _ Hm1 Hm2) as Hm3.
  split; [|by exists o2]. unfold word_of. rewrite (mv_words _ _ _ _ _ Hm3). apply lookup_insert_eq.
Qed.

Lemma once_begun_calling f once_flag o :
  calling o → futex_memory f once_flag 0 (o_sched o) → calling (once_begun f once_flag o).
Proof.
  intros [] Hm. apply calling_stored. split; try done. by apply (init_futex_quiescent (o_sched o) f once_flag 0).
Qed.

Lemma once_begun_futex f once_flag o :
  f ≠ 0 → plain_futex f once_flag [] (o_sched (once_begun f once_flag o)).
Proof. intros Hf. split; [done|]. unfold once_begun, with_futex. rsimp. apply lookup_insert_eq. Qed.
End laws.
