(* ===== verification/SemaphoreLaws.v ===== *)
(** * Counting semaphores: laws

    What an acquire and a release do to the count and to the waiters, on every
    branch that does not block. *)
From S2P Require Import Prelude Spinlock Scheduler SchedulerSvc SchedulerApi SchedulerInv SchedulerSafe SchedulerWake SchedulerHandlers SchedulerSystem SchedulerCalls WakeLaws Rtos Kernel RtosLaws Semaphore.

Section laws.
Context `{EnvironmentLaws} `{Trap} `{RtosEnv} {Hun : Undisturbed} (core : Z).
Notation calling := (calling core).
Notation moved := (moved core).

(** A semaphore with [v] of [max] tokens, for which the tasks of [l] wait. *)
Record semaphore_at (id max v : Z) (l : list Z) (o : rtos) : Prop := {
  sa_id : id ≠ 0;
  sa_object : ∃ n bits, object_at o !! id = Some (Object RTOS_SEMAPHORE_MARKER n bits (Semaphore max));
  sa_futex : plain_futex (futex_of id) (semaphore_value id) l (o_sched o);
  sa_value : word_of o (semaphore_value id) = Some v;
  sa_bounds : 0 <= v <= max ∧ max < word
}.

Lemma sa_block id max v l o : semaphore_at id max v l o → block_at id RTOS_SEMAPHORE_MARKER o.
Proof. intros [Hid (n & b & Ho) _ _ _]. split; [done|]. by exists n, b, (Semaphore max). Qed.

(** A semaphore after a step that leaves its object and sets its word. *)
Lemma semaphore_moved I m o o' id max v v' l :
  moved I m o o' → id ∉ I → semaphore_at id max v l o → m !! semaphore_value id = Some v' → 0 <= v' <= max →
  ∃ l', semaphore_at id max v' l' o'.
Proof.
  intros Hm Hi [Hid Ho Hf Hv Hb] Hw Hv'. destruct (moved_futex _ _ _ _ _ _ _ _ Hm Hf) as [l' Hf'].
  exists l'. split; [done| |done| |lia].
  - by rewrite (mv_objects _ _ _ _ _ Hm).
  - unfold word_of. by rewrite (mv_words _ _ _ _ _ Hm).
Qed.

Lemma semaphore_stored id max v v' l o :
  semaphore_at id max v l o → 0 <= v' <= max → semaphore_at id max v' l (stored (semaphore_value id) v' o).
Proof. intros [Hid Ho [] Hv Hb] Hv'. split; try done; [apply word_stored_eq|lia]. Qed.

Lemma semaphore_object id max v l id' ob o :
  semaphore_at id max v l o → id' ≠ id → semaphore_at id max v l (with_object id' ob o).
Proof. intros [Hid Ho [] Hv Hb] Hne. split; try done. unfold with_object. rsimp. by rewrite lookup_insert_ne. Qed.

(** ** Acquire *)
Lemma acquire_token_takes fuel id timeout max v l o :
  semaphore_at id max v l o → 0 < v →
  wp (acquire_token core (S (S fuel)) id timeout 1)
    (λ r o', r = osOK ∧ o' = stored (semaphore_value id) (v - 1) o) o.
Proof.
  intros Hs Hv. destruct (sa_bounds _ _ _ _ _ Hs) as [[_ ?] ?]. pose proof (sa_value _ _ _ _ _ Hs) as Hw.
  assert (u32 (v - 1) = v - 1) as Hd by (apply u32_small; unfold is_u32; lia).
  cbn [acquire_token]. wp_step. eapply wp_cas; [exact Hw|intros ->; by wp_step|]. intros Hne. cbn [fst snd].
  rewrite (proj2 (Z.eqb_neq v 0)) by lia. wp_step.
  eapply wp_cas; [exact Hw|intros _; rewrite Hd; by wp_step|done].
Qed.

Lemma osSemaphoreAcquire_takes fuel id timeout max v l o :
  calling o → semaphore_at id max v l o → 0 < v → (2 <= fuel)%nat →
  wp (osSemaphoreAcquire core fuel id timeout) (λ r o', r = osOK ∧ o' = stored (semaphore_value id) (v - 1) o) o.
Proof.
  intros Hc Hs Hv Hf. unfold osSemaphoreAcquire. apply wp_validated; [done|by eapply sa_block|].
  destruct fuel as [|[|fuel]]; [lia..|]. by eapply acquire_token_takes.
Qed.

Lemma osSemaphoreAcquire_empty fuel id max l o :
  calling o → semaphore_at id max 0 l o → (1 <= fuel)%nat →
  wp (osSemaphoreAcquire core fuel id 0) (λ r o', r = osErrorResource ∧ o' = o) o.
Proof.
  intros Hc Hs Hf. unfold osSemaphoreAcquire. apply wp_validated; [done|by eapply sa_block|].
  destruct fuel as [|fuel]; [lia|]. cbn [acquire_token]. wp_step.
  eapply wp_cas; [apply Hs|done|]. intros _. cbn [fst snd]. by wp_step.
Qed.

(** ** Release *)
Lemma wp_max_count id max v l (Q : Z → rtos → Prop) o :
  semaphore_at id max v l o → Q max o → wp (max_count_of id) Q o.
Proof.
  intros [Hid (n & b & Ho) _ _ _] HQ. unfold max_count_of. eapply wp_get_opt; [by rewrite Ho|done].
Qed.

Lemma osSemaphoreRelease_full id max l o :
  calling o → semaphore_at id max max l o →
  wp (osSemaphoreRelease core id) (λ r o', r = osErrorResource ∧ o' = o) o.
Proof.
  intros Hc Hs. unfold osSemaphoreRelease. apply wp_validated; [done|by eapply sa_block|].
  wp_step. eapply wp_load; [apply Hs|]. wp_step. eapply wp_max_count; [done|].
  rewrite (proj2 (Z.leb_le max max)) by lia. by wp_step.
Qed.

(** One more token; the first waiter is ready when there was none before. *)
Lemma osSemaphoreRelease_gives id max v l o :
  calling o → semaphore_at id max v l o → v < max →
  wp (osSemaphoreRelease core id) (λ r o', r = osOK ∧
    moved [] (<[semaphore_value id := v + 1]> (word_at (o_sched o))) o o' ∧
    semaphore_at id max (v + 1) (if v =? 0 then drop 1 l else l) o' ∧
    (v = 0 → ∀ t, t ∈ take 1 l → readied (o_sched o') t)) o.
Proof.
  intros Hc Hs Hv. pose proof (sa_bounds _ _ _ _ _ Hs) as [??]. pose proof (sa_value _ _ _ _ _ Hs) as Hw.
  unfold osSemaphoreRelease. apply wp_validated; [done|by eapply sa_block|].
  wp_step. eapply wp_load; [exact Hw|]. wp_step. eapply wp_max_count; [done|].
  rewrite (proj2 (Z.leb_gt max v)) by lia. wp_step. eapply wp_fetch_map; [exact Hw|].
  assert (u32 (v + 1) = v + 1) as -> by (apply u32_small; unfold is_u32; lia).
  pose proof (semaphore_stored _ _ _ (v + 1) _ _ Hs ltac:(lia)) as Hs1.
  pose proof (moved_stored core [] (semaphore_value id) (v + 1) o Hc) as Hm1.
  pose proof (calling_stored core (semaphore_value id) (v + 1) o Hc) as Hc1. wp_step. wp_step.
  - assert (v = 0) as -> by lia. cbn [Z.eqb]. wp_step.
    eapply wp_futex_wake; [exact Hc1|apply Hs1|apply Hs1|]. intros s Hw2. pose proof (woken_moved _ [] _ _ _ _ _ _ _ Hw2) as Hm2.
    do 2 wp_step. split; [done|]. split; [exact (moved_trans _ _ _ _ _ _ _ Hm1 Hm2)|]. split.
    + split; [apply Hs1|apply Hs1|apply (wn_futex _ _ _ _ _ _ _ _ Hw2)| |apply Hs1].
      unfold word_of. rewrite (mv_words _ _ _ _ _ Hm2). apply word_stored_eq.
    + intros _ t Ht. by apply (wn_readied _ _ _ _ _ _ _ _ Hw2).
  - rewrite (proj2 (Z.eqb_neq v 0)) by lia. wp_step. by split_and!; [done..|lia].
Qed.

(** Two releases of a semaphore without tokens wake one task, whoever waits. *)
Lemma osSemaphoreRelease_twice id max l o :
  calling o → semaphore_at id max 0 l o → 2 <= max →
  wp (_first <- osSemaphoreRelease core id ;; osSemaphoreRelease core id)
    (λ r o', r = osOK ∧ semaphore_at id max 2 (drop 1 l) o') o.
Proof.
  intros Hc Hs Hm. wp_step. eapply wp_mono; [apply osSemaphoreRelease_gives; [done|exact Hs|lia]|].
  intros r o1 (_ & Hm1 & Hs1 & _). eapply wp_mono; [apply osSemaphoreRelease_gives; [apply Hm1|exact Hs1|lia]|].
  by intros r' o2 (-> & _ & Hs2 & _).
Qed.

Lemma osSemaphoreGetCount_reads id max v l o :
  calling o → semaphore_at id max v l o → wp (osSemaphoreGetCount core id) (λ r o', r = v ∧ o' = o) o.
Proof.
  intros Hc Hs. unfold osSemaphoreGetCount. wp_step. apply wp_context; [done|]. cbn [negb Z.eqb osOK].
  wp_step. apply wp_resource; [by eapply sa_block|]. cbn [negb Z.eqb osOK]. by eapply wp_load; [apply Hs|].
Qed.

(** ** Sequences of calls

    The abstract semaphore is a counter between 0 and [max]. *)
Inductive token_op := TakeToken | GiveToken.
Definition token_step (id : Z) (op : token_op) : OM Z :=
  match op with TakeToken => osSemaphoreAcquire core 2 id 0 | GiveToken => osSemaphoreRelease core id end.
Fixpoint token_run (id : Z) (ops : list token_op) : OM (list Z) :=
  match ops with [] => ret [] | op :: ops' => r <- token_step id op ;; rs <- token_run id ops' ;; ret (r :: rs) end.

Definition counter_step (max : Z) (op : token_op) (v : Z) : Z * Z :=
  match op with
  | TakeToken => if 0 <? v then (osOK, v - 1) else (osErrorResource, v)
  | GiveToken => if v <? max then (osOK, v + 1) else (osErrorResource, v)
  end.
Fixpoint counter_run (max : Z) (ops : list token_op) (v : Z) : list Z * Z :=
  match ops with
  | [] => ([], v)
  | op :: ops' => let r := counter_step max op v in let rs := counter_run max ops' r.2 in (r.1 :: rs.1, rs.2)
  end.

Lemma token_step_counts id max op v l o :
  calling o → semaphore_at id max v l o →
  wp (token_step id op) (λ r o', r = (counter_step max op v).1 ∧ calling o' ∧
    ∃ k, semaphore_at id max (counter_step max op v).2 (drop k l) o') o.
Proof.
  intros Hc Hs. destruct (sa_bounds _ _ _ _ _ Hs) as [[??] _]. destruct op; cbn [token_step counter_step].
  - destruct (Z.ltb_spec 0 v) as [Hv|Hv].
    + eapply wp_mono; [by eapply osSemaphoreAcquire_takes|]. intros r o1 [-> ->]. split; [done|].
      split; [by apply calling_stored|]. exists O. apply (semaphore_stored _ _ v); [done|cbn; lia].
    + assert (v = 0) as -> by lia. eapply wp_mono; [eapply osSemaphoreAcquire_empty; [done|exact Hs|lia]|].
      intros r o1 [-> ->]. split; [done|]. split; [done|]. by exists O.
  - destruct (Z.ltb_spec v max) as [Hv|Hv].
    + eapply wp_mono; [by eapply osSemaphoreRelease_gives|]. intros r o1 (-> & Hm & Hs1 & _). split; [done|].
      split; [apply Hm|]. exists (if v =? 0 then 1%nat else O). by destruct (v =? 0).
    + assert (v = max) as -> by lia. eapply wp_mono; [eapply osSemaphoreRelease_full; [done|exact Hs]|].
      intros r o1 [-> ->]. split; [done|]. split; [done|]. by exists O.
Qed.

Lemma token_run_counts id max ops : ∀ v l o,
  calling o → semaphore_at id max v l o →
  wp (token_run id ops) (λ rs o', rs = (counter_run max ops v).1 ∧
    ∃ k, semaphore_at id max (counter_run max ops v).2 (drop k l) o') o.
Proof.
  induction ops as [|op ops IH]; intros v l o Hc Hs; cbn [token_run counter_run fst snd].
  { wp_step. split; [done|]. by exists O. }
  wp_step. eapply wp_mono; [by eapply token_step_counts|]. intros r o1 (-> & Hc1 & k & Hs1). wp_step.
  eapply wp_mono; [by eapply IH|]. intros rs o2 (-> & k' & Hs2). wp_step. split; [done|].
  exists (k + k')%nat. by rewrite <-drop_drop.
Qed.
End laws.
