(* ===== verification/MemoryPoolLaws.v ===== *)
(** * Memory pools: laws

    The free list and the blocks handed out are, at any time, a permutation of
    the pool's blocks; an allocation moves the first free block over, a free
    moves it back. *)
From S2P Require Import Prelude Spinlock Scheduler SchedulerSvc SchedulerApi SchedulerInv SchedulerSafe SchedulerWake SchedulerHandlers SchedulerSystem SchedulerCalls WakeLaws Rtos Kernel RtosLaws Semaphore SemaphoreLaws MemoryPool.

(** The list threaded through the first words of its blocks. *)
Definition first (l : list Z) : Z := default 0 (head l).
Fixpoint chained (m : gmap Z Z) (l : list Z) : Prop :=
  match l with [] => True | b :: l' => m !! b = Some (first l') ∧ chained m l' end.

Lemma chained_other m l a v : a ∉ l → chained m l → chained (<[a := v]> m) l.
Proof.
  induction l as [|b l IH]; cbn; [done|]. intros [Hb Hl]%not_elem_of_cons [Hv Hc].
  rewrite lookup_insert_ne by done. auto.
Qed.

(** The blocks of a pool, in address order. *)
Definition pool_blocks (data size count : Z) : list Z := (λ i, data + Z.of_nat i * size) <$> seq 0 (Z.to_nat count).

Lemma elem_of_pool_blocks data size count b : 0 <= count →
  b ∈ pool_blocks data size count ↔ ∃ i, 0 <= i < count ∧ b = data + i * size.
Proof.
  intros Hn. unfold pool_blocks. rewrite list_elem_of_fmap. split.
  - intros (i & -> & Hi%elem_of_seq). exists (Z.of_nat i). lia.
  - intros (i & Hi & ->). exists (Z.to_nat i). rewrite elem_of_seq, Z2Nat.id by lia. split; [done|lia].
Qed.

Lemma NoDup_pool_blocks data size count : 0 < size → NoDup (pool_blocks data size count).
Proof.
  intros Hs. apply NoDup_fmap_2_strong; [|apply NoDup_seq]. intros i j _ _ E.
  assert (Z.of_nat i * size = Z.of_nat j * size) as E' by lia. apply Z.mul_reg_r in E'; lia.
Qed.

Section laws.
Context `{EnvironmentLaws} `{Trap} `{RtosEnv} {Hun : Undisturbed} (core : Z).
Notation calling := (calling core).
Notation moved := (moved core).

Definition pool_object (n : list Z) (bits : Z) (p : pool) : object :=
  Object RTOS_MEMORY_POOL_MARKER n bits (MemoryPool (p_block_size p) (p_capacity p) (p_data p) (p_free_list p) (p_lock p)).
Definition pool_with (p : pool) (b l : Z) : pool := Pool (p_block_size p) (p_capacity p) (p_data p) b l.

(** Where the blocks of a pool lie: nonempty blocks that do not wrap around the
    address space, off the word that counts the free ones. *)
Record pool_shape (id : Z) (p : pool) : Prop := {
  ps_data : 0 < p_data p;
  ps_size : 0 < p_block_size p;
  ps_count : 0 <= p_capacity p;
  ps_end : p_data p + p_block_size p * p_capacity p < word;
  ps_apart : semaphore_value (pool_semaphore id) ∉ pool_blocks (p_data p) (p_block_size p) (p_capacity p)
}.

(** A pool with the blocks [frees] on its free list and [out] handed out. *)
Record pool_at (id : Z) (p : pool) (frees out : list Z) (o : rtos) : Prop := {
  pa_id : id ≠ 0;
  pa_object : ∃ n bits, object_at o !! id = Some (pool_object n bits p);
  pa_head : p_free_list p = first frees;
  pa_lock : free_lock (p_lock p);
  pa_shape : pool_shape id p;
  pa_semaphore : ∃ l, semaphore_at (pool_semaphore id) (p_capacity p) (Z.of_nat (length frees)) l o;
  pa_chain : chained (word_at (o_sched o)) frees;
  pa_blocks : frees ++ out ≡ₚ pool_blocks (p_data p) (p_block_size p) (p_capacity p);
  pa_words b : b ∈ frees ++ out → is_Some (word_of o b)
}.

Lemma pa_block id p frees out o : pool_at id p frees out o → block_at id RTOS_MEMORY_POOL_MARKER o.
Proof. intros [Hid (n & b & Ho) _ _ _ _ _ _ _]. split; [done|]. by eexists n, b, _. Qed.

Lemma pa_nodup id p frees out o : pool_at id p frees out o → NoDup (frees ++ out).
Proof. intros Hp. rewrite (pa_blocks _ _ _ _ _ Hp). apply NoDup_pool_blocks, (pa_shape _ _ _ _ _ Hp). Qed.

Lemma pa_positive id p frees out o b : pool_at id p frees out o → b ∈ frees ++ out → 0 < b < word ∧ in_pool p b = true.
Proof.
  intros Hp Hb. destruct (pa_shape _ _ _ _ _ Hp) as [? ? ? ? _]. rewrite (pa_blocks _ _ _ _ _ Hp) in Hb.
  apply elem_of_pool_blocks in Hb as (i & Hi & ->); [|done]. split; [nia|].
  unfold in_pool. rewrite (u32_small (p_block_size p * p_capacity p)) by (unfold is_u32; nia).
  rewrite u32_small by (unfold is_u32; nia). apply negb_true_iff, orb_false_iff. split; apply Z.ltb_ge; nia.
Qed.

Lemma pa_apart id p frees out o b : pool_at id p frees out o → b ∈ frees ++ out → semaphore_value (pool_semaphore id) ≠ b.
Proof. intros Hp Hb <-. apply (ps_apart _ _ (pa_shape _ _ _ _ _ Hp)). by rewrite <-(pa_blocks _ _ _ _ _ Hp). Qed.

Lemma semaphore_apart id : pool_semaphore id ≠ id.
Proof. unfold pool_semaphore. lia. Qed.

(** ** The pool's lock and fields *)
Lemma wp_get_pool id n bits p (Q : pool → rtos → Prop) o :
  object_at o !! id = Some (pool_object n bits p) → Q p o → wp (get_pool id) Q o.
Proof. intros Ho HQ. unfold get_pool, pool_of. eapply wp_get_opt; [by rewrite Ho|]. by destruct p. Qed.

Lemma wp_set_free_list id n bits p b (Q : unit → rtos → Prop) o :
  object_at o !! id = Some (pool_object n bits p) →
  Q tt (with_object id (pool_object n bits (pool_with p b (p_lock p))) o) → wp (set_free_list id b) Q o.
Proof.
  intros Ho HQ. unfold set_free_list. wp_step. eapply wp_get_pool; [exact Ho|].
  unfold set_contents, upd_object, get_object. wp_step. wp_step; [exact Ho|]. by apply wp_upd.
Qed.

(** A critical section on the pool: the body runs on the pool with the lock
    taken, and its last pool gets the lock released. *)
Lemma wp_pool_locked {A} id n bits p (body : OM A) (Q : A → rtos → Prop) o :
  object_at o !! id = Some (pool_object n bits p) → free_lock (p_lock p) →
  wp body (λ a o2, ∃ b o3, o2 = masked (with_object id (pool_object n bits (pool_with p b (take_ticket (p_lock p)))) o3) ∧
      o_primask o3 = o_primask o ∧
      Q a (with_object id (pool_object n bits (pool_with p b (released_lock (p_lock p)))) o3))
    (masked (with_object id (pool_object n bits (pool_with p (p_free_list p) (take_ticket (p_lock p)))) o)) →
  wp (locked (get_pool_lock id) (set_pool_lock id) body) Q o.
Proof.
  intros Ho Hf Hb. eapply (wp_object_locked id (λ b l, pool_object n bits (pool_with p b l))); [| |exact Ho|done|exact Hb].
  - intros o' x l Ho'. unfold get_pool_lock, pool_of. by rewrite Ho'.
  - intros o' x l k Ho'. unfold set_pool_lock. by rewrite Ho'.
Qed.

(** The pool after a step of its owner. *)
Lemma pool_step id n bits p p' frees out o o' m :
  moved [id] m o o' → object_at o' !! id = Some (pool_object n bits p') →
  p' = pool_with p (first frees) (released_lock (p_lock p)) → free_lock (p_lock p) → id ≠ 0 → pool_shape id p →
  (∃ l, semaphore_at (pool_semaphore id) (p_capacity p) (Z.of_nat (length frees)) l o') → chained m frees →
  frees ++ out ≡ₚ pool_blocks (p_data p) (p_block_size p) (p_capacity p) →
  (∀ b, b ∈ frees ++ out → is_Some (m !! b)) → pool_at id p' frees out o'.
Proof.
  intros Hm Ho -> Hl Hid Hs Hsem Hch Hb Hw. split; try done.
  - by exists n, bits.
  - by apply free_released.
  - by destruct Hs.
  - by rewrite (mv_words _ _ _ _ _ Hm).
  - intros x Hx. unfold word_of. rewrite (mv_words _ _ _ _ _ Hm). auto.
Qed.

Lemma insert_is_some (m : gmap Z Z) a v b : is_Some (m !! b) → is_Some (<[a := v]> m !! b).
Proof. intros Hb. rewrite lookup_insert. case_decide; [eauto|done]. Qed.

(** ** Allocation *)
Lemma osMemoryPoolAlloc_takes fuel id timeout p b frees out o :
  calling o → pool_at id p (b :: frees) out o → (2 <= fuel)%nat →
  wp (osMemoryPoolAlloc core fuel id timeout) (λ r o', r = b ∧
    moved [id] (<[semaphore_value (pool_semaphore id) := Z.of_nat (length frees)]> (word_at (o_sched o))) o o' ∧
    pool_at id (pool_with p (first frees) (released_lock (p_lock p))) frees (b :: out) o') o.
Proof.
  intros Hc Hp Hf. destruct (pa_semaphore _ _ _ _ _ Hp) as [l Hs]. destruct (pa_object _ _ _ _ _ Hp) as (n & bits & Ho).
  destruct (pa_chain _ _ _ _ _ Hp) as [Hb Hch].
  assert (∀ x, x ∈ b :: frees → semaphore_value (pool_semaphore id) ≠ x) as Hne.
  { intros x Hx. eapply pa_apart; [done|set_solver]. }
  unfold osMemoryPoolAlloc. apply wp_validated; [done|by eapply pa_block|].
  wp_step. eapply wp_mono; [eapply osSemaphoreAcquire_takes; [done|exact Hs|cbn; lia|done]|].
  intros r o1 [-> ->]. change (osOK =? osOK) with true. cbn [negb].
  assert (Z.of_nat (length (b :: frees)) - 1 = Z.of_nat (length frees)) as -> by (cbn [length]; lia).
  set (o1 := stored _ _ o).
  assert (object_at o1 !! id = Some (pool_object n bits p)) as Ho1 by exact Ho.
  eapply wp_pool_locked; [exact Ho1|apply Hp|]. wp_step. eapply wp_get_pool; [apply lookup_insert_eq|].
  cbn [p_free_list pool_with]. rewrite (pa_head _ _ _ _ _ Hp). change (first (b :: frees)) with b. wp_step. apply (wp_load b _ (first frees)).
  { change (word_of o1 b = Some (first frees)). unfold o1. rewrite word_stored_ne; [done|]. apply Hne. set_solver. }
  wp_step. eapply wp_set_free_list; [apply lookup_insert_eq|]. wp_step.
  rewrite with_object_masked. eexists _, o1. split; [done|]. split; [done|]. split; [done|].
  assert (calling o1) as Hc1 by by apply calling_stored.
  assert (moved [id] (<[semaphore_value (pool_semaphore id) := Z.of_nat (length frees)]> (word_at (o_sched o))) o
    (with_object id (pool_object n bits (pool_with p (first frees) (released_lock (p_lock p)))) o1)) as Hm.
  { eapply (moved_trans _ _ _ _ _ o1); [by apply moved_stored|]. apply moved_object; [done|done|set_solver]. }
  split; [exact Hm|]. eapply (pool_step _ _ _ p); [exact Hm|apply lookup_insert_eq|done|apply Hp|apply Hp|apply Hp| | | |].
  - exists l. apply semaphore_object; [|apply not_eq_sym, semaphore_apart]. eapply semaphore_stored; [exact Hs|].
    destruct (sa_bounds _ _ _ _ _ Hs). cbn [length] in *. lia.
  - apply chained_other; [|done]. intros Hx. by apply (Hne (semaphore_value (pool_semaphore id))); [set_solver|].
  - rewrite <-(pa_blocks _ _ _ _ _ Hp). cbn. by rewrite Permutation_middle.
  - intros x Hx. apply insert_is_some, (pa_words _ _ _ _ _ Hp). set_solver.
Qed.

Lemma osMemoryPoolAlloc_empty fuel id p out o :
  calling o → pool_at id p [] out o → (1 <= fuel)%nat →
  wp (osMemoryPoolAlloc core fuel id 0) (λ r o', r = 0 ∧ o' = o) o.
Proof.
  intros Hc Hp Hf. destruct (pa_semaphore _ _ _ _ _ Hp) as [l Hs].
  unfold osMemoryPoolAlloc. apply wp_validated; [done|by eapply pa_block|].
  wp_step. eapply wp_mono; [by eapply osSemaphoreAcquire_empty|]. intros r o1 [-> ->]. by wp_step.
Qed.

(** ** Giving a block back *)

(** The block's first word is overwritten with the link, whatever it held. *)
Lemma osMemoryPoolFree_returns id p b frees out o :
  calling o → pool_at id p frees (b :: out) o →
  wp (osMemoryPoolFree core id b) (λ r o', r = osOK ∧
    moved [id] (<[semaphore_value (pool_semaphore id) := Z.of_nat (length (b :: frees))]>
      (<[b := first frees]> (word_at (o_sched o)))) o o' ∧
    pool_at id (pool_with p b (released_lock (p_lock p))) (b :: frees) out o') o.
Proof.
  intros Hc Hp. destruct (pa_words _ _ _ _ _ Hp b ltac:(set_solver)) as [w Hw]. destruct (pa_semaphore _ _ _ _ _ Hp) as [l Hs]. destruct (pa_object _ _ _ _ _ Hp) as (n & bits & Ho).
  assert (b ∈ frees ++ b :: out) as Hin by set_solver.
  destruct (pa_positive _ _ _ _ _ _ Hp Hin) as [_ Hip]. pose proof (pa_apart _ _ _ _ _ _ Hp Hin) as Hne.
  pose proof (pa_nodup _ _ _ _ _ Hp) as Hnd. apply NoDup_app in Hnd as (_ & Hdis & Hnd2).
  unfold osMemoryPoolFree. apply wp_validated; [done|by eapply pa_block|].
  wp_step. eapply wp_get_pool; [exact Ho|]. rewrite Hip. cbn [negb]. wp_step.
  eapply wp_pool_locked; [exact Ho|apply Hp|]. wp_step. eapply wp_get_pool; [apply lookup_insert_eq|].
  cbn [p_free_list pool_with]. rewrite (pa_head _ _ _ _ _ Hp). wp_step. eapply (wp_store b _ _ w); [exact Hw|].
  set (o1 := stored b (first frees) o).
  eapply wp_set_free_list; [apply lookup_insert_eq|].
  change (stored b (first frees) (masked (with_object id ?ob o))) with (masked (with_object id ob o1)).
  rewrite with_object_masked. eexists _, o1. split; [done|]. split; [done|].
  set (o2 := with_object id _ o1).
  assert (moved [id] (<[b := first frees]> (word_at (o_sched o))) o o2) as Hm2.
  { eapply (moved_trans _ _ _ _ _ o1); [by apply moved_stored|].
    apply moved_object; [by apply calling_stored|done|set_solver]. }
  assert (Z.of_nat (length frees) < p_capacity p) as Hlt.
  { pose proof (Permutation_length (pa_blocks _ _ _ _ _ Hp)) as E. unfold pool_blocks in E.
    rewrite length_app, length_fmap, length_seq in E. cbn [length] in E. pose proof (ps_count _ _ (pa_shape _ _ _ _ _ Hp)). lia. }
  assert (semaphore_at (pool_semaphore id) (p_capacity p) (Z.of_nat (length frees)) l o2) as Hs2.
  { apply semaphore_object; [|apply not_eq_sym, semaphore_apart]. destruct Hs as [? ? [] Hv ?]. split; try done.
    unfold o1. by rewrite word_stored_ne by done. }
  wp_step. eapply wp_mono; [apply osSemaphoreRelease_gives; [apply Hm2|exact Hs2|done]|].
  intros r o3 (-> & Hm3 & Hs3 & _). change (osOK =? osOK) with true. cbn [negb]. wp_step. split; [done|].
  assert (Z.of_nat (length frees) + 1 = Z.of_nat (length (b :: frees))) as E by (cbn [length]; lia). rewrite E in *.
  assert (moved [id] (<[semaphore_value (pool_semaphore id) := Z.of_nat (length (b :: frees))]>
    (<[b := first frees]> (word_at (o_sched o)))) o o3) as Hm.
  { eapply moved_trans; [exact Hm2|]. eapply moved_weaken; [|apply list_subseteq_nil]. exact Hm3. }
  split; [exact Hm|]. eapply (pool_step _ _ _ p); [exact Hm| |done|apply Hp|apply Hp|apply Hp|by eexists| | |].
  - rewrite (mv_objects _ _ _ _ _ Hm3) by set_solver. apply lookup_insert_eq.
  - assert (∀ x, x ∈ b :: frees → semaphore_value (pool_semaphore id) ≠ x) as Hap.
    { intros x Hx. eapply pa_apart; [done|set_solver]. }
    apply chained_other; [intros Hx; by apply (Hap _ Hx)|]. cbn [chained]. split; [apply lookup_insert_eq|].
    apply chained_other; [|apply Hp]. intros Hx. by apply (Hdis _ Hx); left.
  - rewrite <-(pa_blocks _ _ _ _ _ Hp). cbn. by rewrite Permutation_middle.
  - intros x Hx. apply insert_is_some, insert_is_some, (pa_words _ _ _ _ _ Hp). set_solver.
Qed.

(** A block outside the pool is refused. *)
Lemma osMemoryPoolFree_refuses id p b frees out o :
  calling o → pool_at id p frees out o → in_pool p b = false →
  wp (osMemoryPoolFree core id b) (λ r o', r = osErrorParameter ∧ o' = o) o.
Proof.
  intros Hc Hp Hb. destruct (pa_object _ _ _ _ _ Hp) as (n & bits & Ho).
  unfold osMemoryPoolFree. apply wp_validated; [done|by eapply pa_block|].
  wp_step. eapply wp_get_pool; [exact Ho|]. rewrite Hb. by wp_step.
Qed.

(** ** Clients

    A client takes blocks, gives back blocks it holds, and writes in them. *)
Inductive pool_op := TakeBlock | GiveBlock (i : nat) | WriteBlock (i : nat) (v : Z).

Definition client_step (id : Z) (op : pool_op) (held : list Z) : OM (list Z) :=
  match op with
  | TakeBlock => b <- osMemoryPoolAlloc core 2 id 0 ;; ret (if b =? 0 then held else b :: held)
  | GiveBlock i =>
      match held !! i with
      | Some b => status <- osMemoryPoolFree core id b ;; assert (status =? osOK) ;;; ret (delete i held)
      | None => ret held
      end
  | WriteBlock i v => match held !! i with Some b => store b v ;;; ret held | None => ret held end
  end.
Fixpoint client_run (id : Z) (ops : list pool_op) (held : list Z) : OM (list Z) :=
  match ops with [] => ret held | op :: ops' => held' <- client_step id op held ;; client_run id ops' held' end.

Lemma pool_written id p frees out b v o :
  pool_at id p frees out o → b ∈ out → pool_at id p frees out (stored b v o).
Proof.
  intros Hp Hb. pose proof (pa_nodup _ _ _ _ _ Hp) as Hnd. apply NoDup_app in Hnd as (_ & Hdis & _).
  assert (semaphore_value (pool_semaphore id) ≠ b) as Hne by (eapply pa_apart; [done|set_solver]).
  destruct Hp as [? ? ? ? ? [l [? ? [] Hv ?]] Hch ? Hw]. split; try done.
  - exists l. split; try done. by rewrite word_stored_ne.
  - apply chained_other; [|done]. intros Hx. by apply (Hdis b).
  - intros x Hx. apply insert_is_some, (Hw x Hx).
Qed.

Lemma pool_permuted id p frees out out' o : out ≡ₚ out' → pool_at id p frees out o → pool_at id p frees out' o.
Proof. intros E []. split; try done; [by rewrite <-E|]. intros b. rewrite <-E. auto. Qed.

Lemma client_step_ok id op p frees held o :
  calling o → pool_at id p frees held o →
  wp (client_step id op held) (λ held' o', calling o' ∧ ∃ p' frees', pool_at id p' frees' held' o') o.
Proof.
  intros Hc Hp. destruct op as [|i|i v]; cbn [client_step].
  - wp_step. destruct frees as [|b frees].
    + eapply wp_mono; [eapply osMemoryPoolAlloc_empty; [done|exact Hp|lia]|]. intros r o' [-> ->]. wp_step. split; [done|by eexists _, _].
    + destruct (pa_positive _ _ _ _ _ b Hp ltac:(set_solver)) as [Hb _].
      eapply wp_mono; [eapply osMemoryPoolAlloc_takes; [done|exact Hp|lia]|]. intros r o' (-> & Hm & Hp').
      rewrite (proj2 (Z.eqb_neq b 0)) by lia. wp_step. split; [apply Hm|by eexists _, _].
  - destruct (held !! i) as [b|] eqn:Hi; [|wp_step; split; [done|by eexists _, _]]. wp_step.
    pose proof (delete_Permutation _ _ _ Hi) as E.
    eapply wp_mono; [eapply osMemoryPoolFree_returns; [done|by eapply pool_permuted]|].
    intros r o' (-> & Hm & Hp'). do 2 wp_step; [done|]. wp_step. split; [apply Hm|by eexists _, _].
  - destruct (held !! i) as [b|] eqn:Hi; [|wp_step; split; [done|by eexists _, _]].
    apply list_elem_of_lookup_2 in Hi. destruct (pa_words _ _ _ _ _ Hp b ltac:(set_solver)) as [w Hw].
    wp_step. eapply wp_store; [exact Hw|]. wp_step. split; [by apply calling_stored|].
    eexists _, _. by apply pool_written.
Qed.

Lemma client_run_ok id ops : ∀ p frees held o,
  calling o → pool_at id p frees held o →
  wp (client_run id ops held) (λ held' o', calling o' ∧ ∃ p' frees', pool_at id p' frees' held' o') o.
Proof.
  induction ops as [|op ops IH]; intros p frees held o Hc Hp; cbn [client_run]; [wp_step; split; [done|by eexists _, _]|].
  wp_step. eapply wp_mono; [by eapply client_step_ok|]. intros held' o' (Hc' & p' & frees' & Hp'). by eapply IH.
Qed.
End laws.
