(* ===== verification/MessageQueueLaws.v ===== *)
(** * Message queues: laws

    The queued messages are the blocks the queue's pool has handed out, ordered
    by priority and, within a priority, by arrival; one semaphore counts them,
    the other the free blocks. *)
From S2P Require Import Prelude Spinlock Scheduler SchedulerSvc SchedulerApi SchedulerInv SchedulerSafe SchedulerWake SchedulerHandlers SchedulerSystem SchedulerCalls WakeLaws Rtos Kernel RtosLaws Semaphore SemaphoreLaws MemoryPool MemoryPoolLaws MessageQueue.

Section laws.
Context `{EnvironmentLaws} `{Trap} `{RtosEnv} {Hun : Undisturbed} (core : Z).
Notation calling := (calling core).
Notation moved := (moved core).

Definition queue_object (n : list Z) (bits sz count : Z) (ms : list Z) (l : Z) : object :=
  Object RTOS_MESSAGE_QUEUE_MARKER n bits (MessageQueue sz count l ms).

(** The more urgent a message, the smaller its key. *)
Definition urgency (o : rtos) (m : Z) : Z := - message_priority o m.

(** A queue of at most [count] messages of [sz] bytes, with [ms] queued. *)
Record queue_at (id sz count : Z) (ms : list Z) (o : rtos) : Prop := {
  qa_id : id ≠ 0;
  qa_object : ∃ n bits l, object_at o !! id = Some (queue_object n bits sz count ms l) ∧ free_lock l;
  qa_size : 0 <= sz;
  qa_pool : ∃ p frees, pool_at (message_pool id) p frees ms o ∧ p_capacity p = count ∧
    semaphore_value (data_available id) ∉ pool_blocks (p_data p) (p_block_size p) count;
  qa_data : ∃ l, semaphore_at (data_available id) count (Z.of_nat (length ms)) l o;
  qa_messages m : m ∈ ms → ∃ prio data, message_at o !! m = Some (Message prio data) ∧ length data = Z.to_nat sz;
  qa_sorted : sorted_by (urgency o) ms
}.

Lemma qa_block id sz count ms o : queue_at id sz count ms o → block_at id RTOS_MESSAGE_QUEUE_MARKER o.
Proof. intros [Hid (n & b & l & Ho & _) _ _ _ _ _]. split; [done|]. by eexists n, b, _. Qed.

(** The parts of a queue's block are apart. *)
Lemma queue_apart id :
  message_pool id ≠ id ∧ data_available id ≠ id ∧ data_available id ≠ message_pool id ∧
  data_available id ≠ pool_semaphore (message_pool id) ∧ pool_semaphore (message_pool id) ≠ id ∧
  semaphore_value (data_available id) ≠ semaphore_value (pool_semaphore (message_pool id)).
Proof. unfold semaphore_value, pool_semaphore, message_pool, data_available. lia. Qed.

(** ** Steps outside a pool or a semaphore *)
Lemma pool_object_other id p frees out id' ob o :
  pool_at id p frees out o → id' ≠ id → id' ≠ pool_semaphore id → pool_at id p frees out (with_object id' ob o).
Proof.
  intros [? (n & b & Ho) ? ? ? [l Hs] ? ? ?] H1' H2'. split; try done.
  - exists n, b. unfold with_object. rsimp. by rewrite lookup_insert_ne.
  - exists l. by apply semaphore_object.
Qed.

Lemma pool_moved id p frees out I m o o' :
  pool_at id p frees out o → moved I m o o' → id ∉ I → pool_semaphore id ∉ I →
  (∀ a, a ∈ frees ++ out ∨ a = semaphore_value (pool_semaphore id) → m !! a = word_of o a) → pool_at id p frees out o'.
Proof.
  intros Hp Hm Hi1 Hi2 Hw. pose proof Hp as [? (n & b & Ho) ? ? ? [l Hs] Hch ? Hws]. split; try done.
  - exists n, b. by rewrite (mv_objects _ _ _ _ _ Hm).
  - eapply semaphore_moved; [exact Hm|done|exact Hs|rewrite Hw by (by right); apply Hs|apply (sa_bounds _ _ _ _ _ Hs)].
  - rewrite (mv_words _ _ _ _ _ Hm). clear - Hw Hch.
    assert (∀ a, a ∈ frees → m !! a = word_at (o_sched o) !! a) as Hw' by (intros; apply Hw; set_solver). clear Hw.
    induction frees as [|a frees IH]; cbn in *; [done|]. destruct Hch as [Ha Hch]. split; [by rewrite Hw' by set_solver|].
    apply IH; [done|]. intros; apply Hw'; set_solver.
  - intros a Ha. unfold word_of. rewrite (mv_words _ _ _ _ _ Hm), Hw by (by left). by apply Hws.
Qed.

(** Contents of messages are outside both. *)
Lemma semaphore_messages id max v l m o :
  semaphore_at id max v l o → semaphore_at id max v l (o <| message_at := m |>).
Proof. intros [? ? [] ? ?]. by split. Qed.

Lemma pool_messages id p frees out m o : pool_at id p frees out o → pool_at id p frees out (o <| message_at := m |>).
Proof. intros [? ? ? ? ? [l Hs] ? ? ?]. split; try done. exists l. by apply semaphore_messages. Qed.

(** ** The queue's lock *)
Lemma wp_get_mqueue id n bits sz count ms l (Q : mqueue → rtos → Prop) o :
  object_at o !! id = Some (queue_object n bits sz count ms l) → Q (Queue sz count l ms) o → wp (get_mqueue id) Q o.
Proof. intros Ho HQ. unfold get_mqueue, queue_of. eapply wp_get_opt; [by rewrite Ho|]. done. Qed.

Lemma wp_set_messages id n bits sz count ms l ms' (Q : unit → rtos → Prop) o :
  object_at o !! id = Some (queue_object n bits sz count ms l) →
  Q tt (with_object id (queue_object n bits sz count ms' l) o) → wp (set_messages id ms') Q o.
Proof.
  intros Ho HQ. unfold set_messages. wp_step. eapply wp_get_mqueue; [exact Ho|].
  unfold set_contents, upd_object, get_object. wp_step. wp_step; [exact Ho|]. by apply wp_upd.
Qed.

Lemma wp_queue_locked {A} id n bits sz count ms l (body : OM A) (Q : A → rtos → Prop) o :
  object_at o !! id = Some (queue_object n bits sz count ms l) → free_lock l →
  wp body (λ a o2, ∃ ms' o3, o2 = masked (with_object id (queue_object n bits sz count ms' (take_ticket l)) o3) ∧
      o_primask o3 = o_primask o ∧ Q a (with_object id (queue_object n bits sz count ms' (released_lock l)) o3))
    (masked (with_object id (queue_object n bits sz count ms (take_ticket l)) o)) →
  wp (locked (get_queue_lock id) (set_queue_lock id) body) Q o.
Proof.
  intros Ho Hf Hb. eapply (wp_object_locked id (λ ms l, queue_object n bits sz count ms l)); [| |exact Ho|done|exact Hb].
  - intros o' x k Ho'. unfold get_queue_lock, queue_of. by rewrite Ho'.
  - intros o' x k k' Ho'. unfold set_queue_lock. by rewrite Ho'.
Qed.

Lemma wp_copy_bytes n buffer (Q : list Z → rtos → Prop) o :
  0 <= n <= Z.of_nat (length buffer) → Q (take (Z.to_nat n) buffer) o → wp (copy_bytes n buffer) Q o.
Proof. intros Hn HQ. unfold copy_bytes. rewrite (proj2 (Z.ltb_ge _ _)) by lia. by apply wp_ret. Qed.

(** ** Put *)

(** Where a message of priority [prio] goes: behind the more urgent and the
    equally urgent, in front of the less urgent. *)
Definition enqueued (o : rtos) (prio m : Z) (ms : list Z) : list Z := place (λ k, message_priority o k <? prio) m ms.

Lemma enqueued_sorted o m ms msg :
  sorted_by (urgency o) ms → m ∉ ms →
  let o' := o <| message_at := <[m := msg]> (message_at o) |> in
  sorted_by (urgency o') (enqueued o (m_priority msg) m ms).
Proof.
  intros Hs Hm o'.
  assert (∀ k, k ∈ ms → message_priority o' k = message_priority o k) as Hk.
  { intros k Hk. unfold message_priority, o'. rsimp. rewrite lookup_insert_ne; [done|]. by intros ->. }
  assert (message_priority o' m = m_priority msg) as Hp.
  { unfold message_priority, o'. rsimp. by rewrite lookup_insert_eq. }
  unfold enqueued. rewrite (place_key _ (λ y, urgency o' m <? urgency o' y)).
  - apply place_sorted. eapply sorted_by_ext; [|exact Hs]. intros k Hin. unfold urgency. by rewrite Hk.
  - intros k Hin. unfold urgency. rewrite Hp, (Hk k Hin). destruct (Z.ltb_spec (message_priority o k) (m_priority msg)), (Z.ltb_spec (- m_priority msg) (- message_priority o k)); lia || done.
Qed.

Lemma queue_length id sz count ms o p frees :
  queue_at id sz count ms o → pool_at (message_pool id) p frees ms o → p_capacity p = count →
  Z.of_nat (length frees) + Z.of_nat (length ms) = count.
Proof.
  intros Hq Hp Hn. pose proof (Permutation_length (pa_blocks _ _ _ _ _ Hp)) as E. unfold pool_blocks in E.
  rewrite length_app, length_fmap, length_seq in E. pose proof (ps_count _ _ (pa_shape _ _ _ _ _ Hp)). lia.
Qed.

(** The queue once a message is linked, before its arrival is counted. *)
Record linked_in (id sz count : Z) (ms : list Z) (counted : Z) (p : pool) (frees : list Z) (o : rtos) : Prop := {
  li_calling : calling o;
  li_object : ∃ n bits l, object_at o !! id = Some (queue_object n bits sz count ms l) ∧ free_lock l;
  li_pool : pool_at (message_pool id) p frees ms o;
  li_data : ∃ l, semaphore_at (data_available id) count counted l o;
  li_messages m : m ∈ ms → ∃ prio data, message_at o !! m = Some (Message prio data) ∧ length data = Z.to_nat sz;
  li_sorted : sorted_by (urgency o) ms
}.

Lemma osMessageQueuePut_links fuel id sz count ms b frees p buffer prio timeout o (Q : Z → rtos → Prop) :
  calling o → queue_at id sz count ms o → pool_at (message_pool id) p (b :: frees) ms o → p_capacity p = count →
  semaphore_value (data_available id) ∉ pool_blocks (p_data p) (p_block_size p) count →
  sz <= Z.of_nat (length buffer) → (2 <= fuel)%nat →
  (∀ o' p', p_capacity p' = count → p_data p' = p_data p → p_block_size p' = p_block_size p →
     message_at o' = <[b := Message prio (take (Z.to_nat sz) buffer)]> (message_at o) →
     linked_in id sz count (enqueued o prio b ms) (Z.of_nat (length ms)) p' frees o' →
     wp (status <- osSemaphoreRelease core (data_available id) ;;
         when (negb (status =? osOK))
           (locked (get_queue_lock id) (set_queue_lock id)
              (q <- get_mqueue id ;; set_messages id (without b (q_messages q))) ;;;
            _status <- osMemoryPoolFree core (message_pool id) b ;; ret tt) ;;;
         ret status) Q o') →
  wp (osMessageQueuePut core fuel id (Some buffer) prio timeout) Q o.
Proof.
  intros Hc Hq Hp Hn Hout Hbuf Hf HQ. destruct (qa_object _ _ _ _ _ Hq) as (n & bits & l & Ho & Hl).
  destruct (queue_apart id) as (A1 & A2 & A3 & A4 & A5 & A6). destruct (qa_data _ _ _ _ _ Hq) as [ld Hd].
  destruct (pa_positive _ _ _ _ _ b Hp ltac:(set_solver)) as [Hb _]. pose proof (pa_nodup _ _ _ _ _ Hp) as Hnd.
  unfold osMessageQueuePut. apply wp_validated; [done|by eapply qa_block|].
  wp_step. eapply wp_mono; [eapply osMemoryPoolAlloc_takes; [done|exact Hp|done]|].
  intros r o1 (-> & Hm1 & Hp1). rewrite (proj2 (Z.eqb_neq b 0)) by lia.
  assert (object_at o1 !! id = Some (queue_object n bits sz count ms l)) as Ho1.
  { rewrite (mv_objects _ _ _ _ _ Hm1); [done|]. set_solver. }
  wp_step. eapply wp_get_mqueue; [exact Ho1|]. cbn [q_msg_size]. wp_step. apply wp_copy_bytes; [pose proof (qa_size _ _ _ _ _ Hq); lia|].
  do 2 wp_step. set (msg := Message prio (take (Z.to_nat sz) buffer)). set (o2 := over message_at _ o1).
  assert (b ∉ ms) as Hbm by (apply NoDup_app in Hnd as (_ & Hdis & _); apply Hdis; set_solver).
  wp_step. eapply wp_queue_locked; [exact Ho1|done|]. wp_step. eapply wp_get_mqueue; [apply lookup_insert_eq|].
  cbn [q_messages]. wp_step. wp_step; [by destruct (bool_decide_reflect (b ∈ ms))|]. do 2 wp_step.
  eapply wp_set_messages; [apply lookup_insert_eq|]. rewrite with_object_masked.
  eexists _, o2. split; [done|]. split; [done|].
  assert (∀ k, k ∈ ms → message_priority o2 k = message_priority o k) as Hk.
  { intros k Hk. unfold message_priority, o2. rsimp. rewrite lookup_insert_ne by (by intros ->).
    by rewrite (mv_rest _ _ _ _ _ Hm1). }
  assert (place (λ m, message_priority o2 m <? prio) b ms = enqueued o prio b ms) as Hpl.
  { apply place_key. intros y Hy. by rewrite Hk. }
  match goal with |- context [place ?f b ms] => change (place f b ms) with (place (λ m, message_priority o2 m <? prio) b ms) end.
  rewrite Hpl. set (o3 := with_object id _ o2).
  eapply (HQ o3 (pool_with p (first frees) (released_lock (p_lock p)))); [done..| |].
  { change (message_at o3) with (<[b := msg]> (message_at o1)). by rewrite (mv_rest _ _ _ _ _ Hm1). }
  assert (semaphore_value (data_available id) ≠ semaphore_value (pool_semaphore (message_pool id))) as Hne by done.
  assert (∃ l', semaphore_at (data_available id) count (Z.of_nat (length ms)) l' o1) as [ld1 Hd1].
  { eapply semaphore_moved; [exact Hm1|set_solver|exact Hd| |apply (sa_bounds _ _ _ _ _ Hd)].
    rewrite lookup_insert_ne by done. apply Hd. }
  split.
  - apply Hm1.
  - eexists n, bits, _. split; [apply lookup_insert_eq|by apply free_released].
  - apply pool_object_other; [|done|done]. apply pool_messages.
    eapply pool_permuted; [|exact Hp1]. symmetry. apply place_perm.
  - exists ld1. apply semaphore_object; [|done]. by apply semaphore_messages.
  - intros m [->|Hm]%elem_of_place.
    + exists prio, (take (Z.to_nat sz) buffer). split; [apply lookup_insert_eq|]. rewrite length_take. lia.
    + destruct (qa_messages _ _ _ _ _ Hq m Hm) as (q & d & Hqd & Hl'). exists q, d. split; [|done].
      change (message_at o3) with (<[b := msg]> (message_at o1)). rewrite lookup_insert_ne by (by intros ->).
      by rewrite (mv_rest _ _ _ _ _ Hm1).
  - pose proof (enqueued_sorted o b ms msg (qa_sorted _ _ _ _ _ Hq) Hbm) as Hsort. cbn in Hsort.
    eapply sorted_by_ext; [|exact Hsort]. intros k _. unfold urgency, message_priority.
    change (message_at o3) with (<[b := msg]> (message_at o1)). by rewrite (mv_rest _ _ _ _ _ Hm1).
Qed.

(** A put into a queue with room: the message is queued by its priority. *)
Lemma osMessageQueuePut_queues fuel id sz count ms buffer prio timeout o :
  calling o → queue_at id sz count ms o → Z.of_nat (length ms) < count → sz <= Z.of_nat (length buffer) → (2 <= fuel)%nat →
  wp (osMessageQueuePut core fuel id (Some buffer) prio timeout) (λ r o', r = osOK ∧ calling o' ∧ ∃ b, b ∉ ms ∧
    queue_at id sz count (enqueued o prio b ms) o' ∧
    message_at o' = <[b := Message prio (take (Z.to_nat sz) buffer)]> (message_at o)) o.
Proof.
  intros Hc Hq Hroom Hbuf Hf. destruct (qa_pool _ _ _ _ _ Hq) as (p & frees & Hp & Hn & Hout).
  pose proof (queue_length _ _ _ _ _ _ _ Hq Hp Hn) as Hlen. destruct frees as [|b frees]; [cbn in Hlen; lia|].
  pose proof (pa_nodup _ _ _ _ _ Hp) as Hnd. destruct (queue_apart id) as (A1 & A2 & A3 & A4 & A5 & A6).
  eapply osMessageQueuePut_links; [done..|]. intros o1 p1 Hn1 Hd1 Hs1 Hmsg [Hc1 (n & bits & l & Ho1 & Hl1) Hp1 [ld Hd] Hm1 Hso1].
  wp_step. eapply wp_mono; [eapply osSemaphoreRelease_gives; [done|exact Hd|done]|].
  intros r o2 (-> & Hm2 & Hd2 & _). change (osOK =? osOK) with true. cbn [negb when]. do 3 wp_step.
  split; [done|]. split; [apply Hm2|]. exists b.
  split. { apply NoDup_app in Hnd as (_ & Hdis & _). apply Hdis. set_solver. }
  split; [|by rewrite (mv_rest _ _ _ _ _ Hm2)]. split.
  - apply Hq.
  - exists n, bits, l. split; [|done]. by rewrite (mv_objects _ _ _ _ _ Hm2) by set_solver.
  - apply Hq.
  - exists p1, frees. rewrite Hd1, Hs1. split_and!; [|done|done].
    eapply pool_moved; [exact Hp1|exact Hm2|set_solver|set_solver|]. intros a Ha. rewrite lookup_insert_ne; [done|].
    destruct Ha as [Ha| ->]; [|done]. intros <-. apply Hout. rewrite <-Hd1, <-Hs1, <-Hn1. by rewrite <-(pa_blocks _ _ _ _ _ Hp1).
  - eexists. unfold enqueued. rewrite length_place, Nat2Z.inj_succ. exact Hd2.
  - intros m Hm. rewrite (mv_rest _ _ _ _ _ Hm2). by apply Hm1.
  - eapply sorted_by_ext; [|exact Hso1]. intros k _. unfold urgency, message_priority. by rewrite (mv_rest _ _ _ _ _ Hm2).
Qed.

Lemma osMessageQueuePut_full fuel id sz count ms buffer prio o :
  calling o → queue_at id sz count ms o → Z.of_nat (length ms) = count → (1 <= fuel)%nat →
  wp (osMessageQueuePut core fuel id (Some buffer) prio 0) (λ r o', r = osErrorResource ∧ o' = o) o.
Proof.
  intros Hc Hq Hfull Hf. destruct (qa_pool _ _ _ _ _ Hq) as (p & frees & Hp & Hn & Hout).
  pose proof (queue_length _ _ _ _ _ _ _ Hq Hp Hn) as Hlen. destruct frees as [|b frees]; [|cbn in Hlen; lia].
  unfold osMessageQueuePut. apply wp_validated; [done|by eapply qa_block|].
  wp_step. eapply wp_mono; [by eapply osMemoryPoolAlloc_empty|]. intros r o' [-> ->]. by wp_step.
Qed.

(** ** Get *)
Lemma wp_pop_message id n bits sz count m ms l (Q : Z → rtos → Prop) o :
  object_at o !! id = Some (queue_object n bits sz count (m :: ms) l) → free_lock l →
  Q m (with_object id (queue_object n bits sz count (without m ms) (released_lock l)) o) → wp (pop_message id) Q o.
Proof.
  intros Ho Hl HQ. unfold pop_message. eapply wp_queue_locked; [exact Ho|done|].
  wp_step. eapply wp_get_mqueue; [apply lookup_insert_eq|]. cbn [q_messages]. wp_step.
  eapply wp_set_messages; [apply lookup_insert_eq|]. wp_step. rewrite with_object_masked.
  by eexists _, o.
Qed.

Lemma osMessageQueueGet_takes fuel id sz count m ms timeout o prio data :
  calling o → queue_at id sz count (m :: ms) o → message_at o !! m = Some (Message prio data) → (2 <= fuel)%nat →
  wp (osMessageQueueGet core fuel id true timeout) (λ r o', r = (osOK, Some (data, Z.land prio 0xff)) ∧
    calling o' ∧ queue_at id sz count ms o' ∧ message_at o' = message_at o) o.
Proof.
  intros Hc Hq Hmsg Hf. destruct (qa_pool _ _ _ _ _ Hq) as (p & frees & Hp & Hn & Hout).
  destruct (qa_object _ _ _ _ _ Hq) as (n & bits & l & Ho & Hl).
  destruct (queue_apart id) as (A1 & A2 & A3 & A4 & A5 & A6). destruct (qa_data _ _ _ _ _ Hq) as [ld Hd].
  destruct (pa_positive _ _ _ _ _ m Hp ltac:(set_solver)) as [Hb _]. pose proof (pa_nodup _ _ _ _ _ Hp) as Hnd.
  apply NoDup_app in Hnd as (_ & _ & Hnd). apply NoDup_cons in Hnd as [Hni _].
  destruct (qa_messages _ _ _ _ _ Hq m ltac:(set_solver)) as (prio' & data' & E & Hlen). rewrite Hmsg in E. injection E as <- <-.
  unfold osMessageQueueGet. cbn [negb]. apply wp_validated; [done|by eapply qa_block|].
  wp_step. eapply wp_mono; [eapply osSemaphoreAcquire_takes; [done|exact Hd|cbn [length]; lia|done]|].
  intros r o1 [-> ->]. change (osOK =? osOK) with true. cbn [negb].
  assert (Z.of_nat (length (m :: ms)) - 1 = Z.of_nat (length ms)) as -> by (cbn [length]; lia).
  set (o1 := stored _ _ o). wp_step. eapply wp_pop_message; [exact Ho|done|]. rewrite without_id by done.
  rewrite (proj2 (Z.eqb_neq m 0)) by lia. set (o2 := with_object id _ o1).
  wp_step. eapply wp_get_opt; [exact Hmsg|]. wp_step. eapply wp_get_mqueue; [apply lookup_insert_eq|].
  cbn [q_msg_size m_data m_priority]. wp_step. apply wp_copy_bytes; [pose proof (qa_size _ _ _ _ _ Hq); lia|].
  rewrite take_ge by lia.
  assert (moved [id] (<[semaphore_value (data_available id) := Z.of_nat (length ms)]> (word_at (o_sched o))) o o2) as Hm2.
  { eapply (moved_trans _ _ _ _ _ o1); [by apply moved_stored|].
    apply moved_object; [by apply calling_stored|done|set_solver]. }
  assert (pool_at (message_pool id) p frees (m :: ms) o2) as Hp2.
  { eapply pool_moved; [exact Hp|exact Hm2|set_solver|set_solver|]. intros a Ha. rewrite lookup_insert_ne; [done|].
    destruct Ha as [Ha| ->]; [|done]. intros <-. apply Hout. rewrite <-Hn. by rewrite <-(pa_blocks _ _ _ _ _ Hp). }
  assert (semaphore_at (data_available id) count (Z.of_nat (length ms)) ld o2) as Hd2.
  { apply semaphore_object; [|done]. eapply semaphore_stored; [exact Hd|]. destruct (sa_bounds _ _ _ _ _ Hd). cbn [length] in *. lia. }
  wp_step. eapply wp_mono; [eapply osMemoryPoolFree_returns; [apply Hm2|exact Hp2]|].
  intros r o3 (-> & Hm3 & Hp3). wp_step. split; [done|]. split; [apply Hm3|].
  split; [|by rewrite (mv_rest _ _ _ _ _ Hm3)].
  split.
  - apply Hq.
  - eexists n, bits, _. split; [|by apply free_released]. rewrite (mv_objects _ _ _ _ _ Hm3) by set_solver. apply lookup_insert_eq.
  - apply Hq.
  - by eexists _, _.
  - eapply semaphore_moved; [exact Hm3|set_solver|exact Hd2| |apply (sa_bounds _ _ _ _ _ Hd2)].
    rewrite lookup_insert_ne by done. rewrite lookup_insert_ne; [apply Hd2|]. intros ->. apply Hout. rewrite <-Hn.
    rewrite <-(pa_blocks _ _ _ _ _ Hp). set_solver.
  - intros k Hk. rewrite (mv_rest _ _ _ _ _ Hm3). apply (qa_messages _ _ _ _ _ Hq). set_solver.
  - pose proof (qa_sorted _ _ _ _ _ Hq) as Hs. apply sorted_by_cons in Hs as [Hs _].
    eapply sorted_by_ext; [|exact Hs]. intros k _. unfold urgency, message_priority. by rewrite (mv_rest _ _ _ _ _ Hm3).
Qed.

Lemma osMessageQueueGet_empty fuel id sz count o :
  calling o → queue_at id sz count [] o → (1 <= fuel)%nat →
  wp (osMessageQueueGet core fuel id true 0) (λ r o', r = (osErrorResource, None) ∧ o' = o) o.
Proof.
  intros Hc Hq Hf. destruct (qa_data _ _ _ _ _ Hq) as [ld Hd].
  unfold osMessageQueueGet. cbn [negb]. apply wp_validated; [done|by eapply qa_block|].
  wp_step. eapply wp_mono; [by eapply osSemaphoreAcquire_empty|]. intros r o' [-> ->]. by wp_step.
Qed.

(** ** Refinement

    What a queue of [count] messages of [sz] bytes is to its users: a list of
    priorities and data, inserted by priority, taken from the front. *)
Definition entry : Type := Z * list Z.
Inductive queue_op := QPut (prio : Z) (buffer : list Z) | QGet.

Definition spec_step (sz count : Z) (op : queue_op) (q : list entry) : (Z * option entry) * list entry :=
  match op with
  | QPut prio buffer =>
      if Z.of_nat (length q) <? count
      then ((osOK, None), place (λ e, e.1 <? prio) (prio, take (Z.to_nat sz) buffer) q)
      else ((osErrorResource, None), q)
  | QGet => match q with
            | [] => ((osErrorResource, None), [])
            | e :: q' => ((osOK, Some (Z.land e.1 0xff, e.2)), q')
            end
  end.
Fixpoint spec_run (sz count : Z) (ops : list queue_op) (q : list entry) : list (Z * option entry) * list entry :=
  match ops with
  | [] => ([], q)
  | op :: ops' => let r := spec_step sz count op q in let rs := spec_run sz count ops' r.2 in (r.1 :: rs.1, rs.2)
  end.

(** The same operations on the queue itself, without waiting. *)
Definition queue_step (id : Z) (op : queue_op) : OM (Z * option entry) :=
  match op with
  | QPut prio buffer => status <- osMessageQueuePut core 2 id (Some buffer) prio 0 ;; ret (status, None)
  | QGet =>
      r <- osMessageQueueGet core 2 id true 0 ;;
      ret (r.1, match r.2 with Some (data, prio) => Some (prio, data) | None => None end)
  end.
Fixpoint queue_run (id : Z) (ops : list queue_op) : OM (list (Z * option entry)) :=
  match ops with
  | [] => ret []
  | op :: ops' => r <- queue_step id op ;; rs <- queue_run id ops' ;; ret (r :: rs)
  end.

(** The entries behind the queued addresses. *)
Definition entry_of (o : rtos) (m : Z) : entry :=
  match message_at o !! m with Some (Message prio data) => (prio, data) | None => (0, []) end.
Definition represents (id sz count : Z) (q : list entry) (o : rtos) : Prop :=
  ∃ ms, queue_at id sz count ms o ∧ entry_of o <$> ms = q.

Lemma entry_priority o m : (entry_of o m).1 = message_priority o m.
Proof. unfold entry_of, message_priority. by destruct (message_at o !! m) as [[]|]. Qed.

Lemma entries_enqueued o o' b ms prio data :
  b ∉ ms → message_at o' = <[b := Message prio data]> (message_at o) →
  entry_of o' <$> enqueued o prio b ms = place (λ e, e.1 <? prio) (prio, data) (entry_of o <$> ms).
Proof.
  intros Hb Hm. unfold enqueued.
  assert (entry_of o' b = (prio, data)) as <- by (unfold entry_of; by rewrite Hm, lookup_insert_eq).
  assert (∀ y, y ∈ ms → entry_of o' y = entry_of o y) as Hy.
  { intros y Hy. unfold entry_of. rewrite Hm, lookup_insert_ne; [done|]. by intros ->. }
  assert (entry_of o <$> ms = entry_of o' <$> ms) as ->.
  { apply list_fmap_ext. intros i y Hi. symmetry. apply Hy. by eapply list_elem_of_lookup_2. }
  apply fmap_place. intros y Hin. by rewrite (Hy y Hin), entry_priority.
Qed.

Definition buffers_fit (sz : Z) (op : queue_op) : Prop :=
  match op with QPut _ buffer => sz <= Z.of_nat (length buffer) | QGet => True end.

Lemma queue_step_refines id sz count op q o :
  calling o → represents id sz count q o → buffers_fit sz op →
  wp (queue_step id op) (λ r o', r = (spec_step sz count op q).1 ∧ calling o' ∧
    represents id sz count (spec_step sz count op q).2 o') o.
Proof.
  intros Hc (ms & Hq & <-) Hb. destruct (qa_pool _ _ _ _ _ Hq) as (p & frees & Hp & Hn & _).
  pose proof (queue_length _ _ _ _ _ _ _ Hq Hp Hn) as Hlen.
  destruct op as [prio buffer|]; cbn [queue_step spec_step].
  - rewrite length_fmap. wp_step. destruct (Z.ltb_spec (Z.of_nat (length ms)) count).
    + eapply wp_mono; [eapply osMessageQueuePut_queues; [done|exact Hq|done|done|lia]|].
      intros r o' (-> & Hc' & b & Hbm & Hq' & Hm). wp_step. split; [done|]. split; [done|].
      eexists. split; [exact Hq'|]. by apply entries_enqueued.
    + eapply wp_mono; [eapply osMessageQueuePut_full; [done|exact Hq|lia|lia]|].
      intros r o' [-> ->]. wp_step. split; [done|]. split; [done|]. by exists ms.
  - wp_step. destruct ms as [|m ms].
    + eapply wp_mono; [eapply osMessageQueueGet_empty; [done|exact Hq|lia]|].
      intros r o' [-> ->]. wp_step. split; [done|]. split; [done|]. by exists [].
    + destruct (qa_messages _ _ _ _ _ Hq m ltac:(set_solver)) as (prio & data & Hm & _).
      eapply wp_mono; [eapply osMessageQueueGet_takes; [done|exact Hq|exact Hm|lia]|].
      intros r o' (-> & Hc' & Hq' & Hm'). wp_step. cbn [fmap list_fmap fst snd].
      replace (entry_of o m) with (prio, data) by (unfold entry_of; by rewrite Hm).
      split; [done|]. split; [done|]. exists ms. split; [done|]. unfold entry_of. by rewrite Hm'.
Qed.

Lemma queue_run_refines id sz count ops : ∀ q o,
  calling o → represents id sz count q o → Forall (buffers_fit sz) ops →
  wp (queue_run id ops) (λ rs o', rs = (spec_run sz count ops q).1 ∧
    represents id sz count (spec_run sz count ops q).2 o') o.
Proof.
  induction ops as [|op ops IH]; intros q o Hc Hr Hb; cbn [queue_run spec_run]; [by wp_step|].
  apply Forall_cons in Hb as [Hb Hbs]. wp_step.
  eapply wp_mono; [by apply queue_step_refines|]. intros r o' (-> & Hc' & Hr'). wp_step.
  eapply wp_mono; [by apply IH|]. intros rs o2 [-> Hr2]. by wp_step.
Qed.
End laws.
