(* ===== verification/EventFlagsLaws.v ===== *)
(** * Event flags: laws

    Setting flags wakes every waiter when a flag is new; a wait whose flags are
    there takes them at once. *)
From S2P Require Import Prelude Spinlock Scheduler SchedulerSvc SchedulerApi SchedulerInv SchedulerSafe SchedulerWake SchedulerHandlers SchedulerSystem SchedulerCalls WakeLaws Rtos Kernel RtosLaws EventFlags.

Section laws.
Context `{EnvironmentLaws} `{Trap} `{RtosEnv} {Hun : Undisturbed} `{Threads} (core : Z).
Notation calling := (calling core).
Notation moved := (moved core).

(** Event flags [v], waited for by [n] callers, of which the tasks of [l] block. *)
Record eventflags_at (id n v : Z) (l : list Z) (o : rtos) : Prop := {
  ea_id : id ≠ 0;
  ea_object : ∃ nm bits, object_at o !! id = Some (Object RTOS_EVENTFLAGS_MARKER nm bits (EventFlags n));
  ea_count : - 2 ^ 31 <= n < 2 ^ 31 - 1;
  ea_futex : plain_futex (futex_of id) (eventflags_flags id) l (o_sched o);
  ea_flags : word_of o (eventflags_flags id) = Some v
}.

Lemma ea_block id n v l o : eventflags_at id n v l o → block_at id RTOS_EVENTFLAGS_MARKER o.
Proof. intros [Hid (nm & b & Ho) _ _ _]. split; [done|]. by eexists nm, b, _. Qed.

Lemma eventflags_stored id n v v' l o :
  eventflags_at id n v l o → eventflags_at id n v' l (stored (eventflags_flags id) v' o).
Proof. intros [? ? ? [] ?]. split; try done. apply word_stored_eq. Qed.

(** ** Set and clear *)
Lemma osEventFlagsSet_sets id flags n v l o :
  calling o → eventflags_at id n v l o → has flags osFlagsError = false →
  let fresh := negb (Z.land v flags =? flags) in
  wp (osEventFlagsSet core id flags) (λ r o', r = (if fresh then Z.lor v flags else v) ∧
    moved [] (<[eventflags_flags id := Z.lor v flags]> (word_at (o_sched o))) o o' ∧
    eventflags_at id n (Z.lor v flags) (if fresh then [] else l) o' ∧
    (fresh = true → ∀ t, t ∈ l → readied (o_sched o') t)) o.
Proof.
  intros Hc He Hfl fresh. unfold osEventFlagsSet. rewrite Hfl.
  wp_step. apply wp_resource; [by eapply ea_block|]. change (osOK =? osOK) with true. cbn [negb].
  wp_step. eapply wp_fetch_map; [apply He|]. pose proof (eventflags_stored _ _ _ (Z.lor v flags) _ _ He) as He1.
  set (o1 := stored _ _ o) in *. assert (calling o1) as Hc1 by by apply calling_stored.
  pose proof (moved_stored core [] (eventflags_flags id) (Z.lor v flags) o Hc) as Hm1. fold o1 in Hm1.
  fold fresh. destruct fresh eqn:Hfr.
  - wp_step. eapply wp_futex_wake; [done|apply He1|apply He1|]. intros s Hw. cbn [first_or_all left_waiting] in *.
    rewrite (proj2 (Z.ltb_ge _ 0)) by lia. pose proof (woken_moved _ [] _ _ _ _ _ _ _ Hw) as Hm2.
    wp_step. split; [done|]. split; [exact (moved_trans _ _ _ _ _ _ _ Hm1 Hm2)|]. split.
    + destruct He1 as [? ? ? ? Hv]. split; [done|done|done|apply (wn_futex _ _ _ _ _ _ _ _ Hw)|].
      unfold word_of. rewrite (mv_words _ _ _ _ _ Hm2). exact Hv.
    + intros _ t Ht. by apply (wn_readied _ _ _ _ _ _ _ _ Hw).
  - wp_step. by split_and!.
Qed.

Lemma osEventFlagsClear_clears id flags n v l o :
  eventflags_at id n v l o → has flags osFlagsError = false →
  wp (osEventFlagsClear id flags) (λ r o', r = v ∧
    o' = stored (eventflags_flags id) (Z.land v (not32 flags)) o) o.
Proof.
  intros He Hfl. unfold osEventFlagsClear. rewrite Hfl.
  wp_step. apply wp_resource; [by eapply ea_block|]. change (osOK =? osOK) with true. cbn [negb].
  by eapply wp_fetch_map; [apply He|].
Qed.

Lemma osEventFlagsGet_reads id n v l o :
  eventflags_at id n v l o → wp (osEventFlagsGet id) (λ r o', r = v ∧ o' = o) o.
Proof.
  intros He. unfold osEventFlagsGet. wp_step. apply wp_resource; [by eapply ea_block|].
  change (osOK =? osOK) with true. cbn [negb]. by eapply wp_load; [apply He|].
Qed.

(** ** Wait *)
Lemma wp_add_waiters id nm bits n k (Q : unit → rtos → Prop) o :
  object_at o !! id = Some (Object RTOS_EVENTFLAGS_MARKER nm bits (EventFlags n)) → - 2 ^ 31 <= n + k < 2 ^ 31 →
  Q tt (with_object id (Object RTOS_EVENTFLAGS_MARKER nm bits (EventFlags (n + k))) o) → wp (add_waiters id k) Q o.
Proof.
  intros Ho Hk HQ. unfold add_waiters. wp_step. unfold waiters_of. eapply wp_get_opt; [by rewrite Ho|].
  rewrite s32_small by done. unfold set_contents, upd_object, get_object. wp_step. wp_step; [exact Ho|]. by apply wp_upd.
Qed.

Definition taken_flags (options flags v : Z) : Z :=
  Z.land v (if has options osFlagsNoClear then UINT32_MAX else not32 flags).

(** A wait that need not block: the flags are there, or none may be awaited. *)
Lemma osEventFlagsWait_ends fuel id flags options timeout n v l o :
  calling o → eventflags_at id n v l o → has flags osFlagsError = false → (1 <= fuel)%nat →
  flags_met options flags v = true ∨ timeout = 0 →
  wp (osEventFlagsWait core fuel id flags options timeout) (λ r o',
    if flags_met options flags v
    then r = v ∧ o' = stored (eventflags_flags id) (taken_flags options flags v) o
    else r = osFlagsErrorResource ∧ o' = o) o.
Proof.
  intros Hc He Hfl Hf Hgo. destruct (ea_object _ _ _ _ _ He) as (nm & bits & Ho). pose proof (ea_count _ _ _ _ _ He).
  unfold osEventFlagsWait. rewrite Hfl. apply wp_validated; [done|by eapply ea_block|].
  wp_step. eapply (wp_add_waiters _ nm bits n 1); [exact Ho|lia|]. set (o1 := with_object id _ o).
  destruct fuel as [|fuel]; [lia|]. cbn [await_flags]. wp_step. apply (wp_load _ _ v); [apply He|].
  assert (object_at o1 !! id = Some (Object RTOS_EVENTFLAGS_MARKER nm bits (EventFlags (n + 1)))) as Ho1
    by apply lookup_insert_eq.
  assert (∀ (Q : unit → rtos → Prop), Q tt o → wp (add_waiters id (-1)) Q o1) as Hback.
  { intros Q HQ. eapply wp_add_waiters; [exact Ho1|lia|]. unfold o1. rewrite with_object_twice, with_object_same; [done|].
    rewrite Ho. do 3 f_equal. lia. }
  destruct (flags_met options flags v).
  - wp_step. apply Hback. eapply wp_fetch_map; [apply He|]. done.
  - destruct Hgo as [| ->]; [done|]. cbn [Z.eqb]. wp_step. apply Hback. by wp_step.
Qed.
End laws.
