(* ===== verification/MutexLaws.v ===== *)
(** * Mutexes: laws

    A mutex belongs to the task its word names.  Acquiring takes a free one,
    counts a recursive one, and fails without waiting on anybody else's;
    releasing clears the word or hands it to the first waiter. *)
From S2P Require Import Prelude Spinlock Scheduler SchedulerSvc SchedulerApi SchedulerInv SchedulerSafe SchedulerWake SchedulerHandlers SchedulerSystem SchedulerCalls WakeLaws Rtos Kernel RtosLaws Semaphore EventFlags Thread Mutex.

Section laws.
Context `{EnvironmentLaws} `{Trap} `{RtosEnv} {Hun : Undisturbed} (core : Z).
Notation calling := (calling core).

(** The task [t] on the core is that of the thread [th]; its address is even. *)
Record runs_thread (t th : Z) (o : rtos) : Prop := {
  rt_calling : calling o;
  rt_task : current (o_sched o) core = t;
  rt_entry : ∃ tk, task_at (o_sched o) !! t = Some tk ∧ t_marker tk = SCHEDULER_TASK_MARKER ∧ t_context tk = th;
  rt_block : block_at th RTOS_THREAD_MARKER o;
  rt_even : owner_of t = t
}.

Definition mutex_object (n : list Z) (bits count : Z) : object := Object RTOS_MUTEX_MARKER n bits (Mutex count).

(** A mutex with the attribute bits [bits], held [count] times, whose word is
    [w]; the tasks of [l] wait for it. *)
Record mutex_at (id bits count w : Z) (l : list Z) (o : rtos) : Prop := {
  ma_id : id ≠ 0;
  ma_object : ∃ n, object_at o !! id = Some (mutex_object n bits count);
  ma_futex : futex_of id ≠ 0 ∧
    futex_at (o_sched o) !! futex_of id = Some (Futex (mutex_value id) l (mutex_futex_flags bits) SCHEDULER_FUTEX_MARKER);
  ma_word : word_of o (mutex_value id) = Some w;
  ma_count : - 2 ^ 31 < count < 2 ^ 31 - 1
}.

Lemma ma_block id bits count w l o : mutex_at id bits count w l o → block_at id RTOS_MUTEX_MARKER o.
Proof. intros [Hid (n & Ho) _ _ _]. split; [done|]. by eexists n, _, _. Qed.

Lemma current_nonzero t th o : runs_thread t th o → t ≠ 0.
Proof. intros [Hc <- _ _ _]. apply Hc. Qed.

(** ** Who calls, who owns *)
Lemma wp_task t th (Q : Z → rtos → Prop) o :
  runs_thread t th o → Q t o → wp (on_sched (scheduler_task core)) Q o.
Proof.
  intros Hr HQ. pose proof (current_nonzero _ _ _ Hr). destruct Hr as [[Hq Hcur _ _] Ht (tk & Htk & Hmk & _) _ _].
  apply wp_on_sched. unfold scheduler_task. do 2 wp_step. destruct Hq as (_ & _ & ->).
  unfold sched_get_current. do 2 wp_step. fold (current (o_sched o) core). rewrite Ht.
  rewrite (proj2 (Z.eqb_neq t 0)) by done. cbn [negb when]. wp_step. unfold marked_task. wp_step.
  apply (wp_get_task _ tk); [done|]. wp_step; [by rewrite Hmk, Z.eqb_refl|]. wp_step. by destruct o.
Qed.

Lemma wp_entry t tk (Q : task → rtos → Prop) o :
  task_at (o_sched o) !! t = Some tk → Q tk o → wp (on_sched (get_task t)) Q o.
Proof. intros Ht HQ. apply wp_on_sched. apply (wp_get_task _ tk); [done|]. by destruct o. Qed.

Lemma osThreadGetId_self t th (Q : Z → rtos → Prop) o :
  runs_thread t th o → Q th o → wp (osThreadGetId core) Q o.
Proof.
  intros Hr HQ. unfold osThreadGetId. wp_step. eapply wp_task; [exact Hr|].
  destruct (rt_entry _ _ _ Hr) as (tk & Htk & _ & <-). wp_step. eapply wp_entry; [exact Htk|].
  wp_step. apply wp_resource; [apply Hr|]. by wp_step.
Qed.

(** The owner of a mutex the caller holds. *)
Lemma osMutexGetOwner_self t th id bits count w l (Q : Z → rtos → Prop) o :
  runs_thread t th o → mutex_at id bits count w l o → owner_of w = t → w ≠ 0 → Q th o →
  wp (osMutexGetOwner core id) Q o.
Proof.
  intros Hr Hm Hw Hz HQ. unfold osMutexGetOwner. apply wp_validated; [apply Hr|by eapply ma_block|].
  wp_step. eapply wp_load; [apply Hm|]. rewrite (proj2 (Z.eqb_neq w 0)) by done.
  destruct (rt_entry _ _ _ Hr) as (tk & Htk & Hmk & <-). rewrite Hw. wp_step. eapply wp_entry; [exact Htk|].
  rewrite Hmk, Z.eqb_refl. cbn [negb when]. do 2 wp_step. by wp_step.
Qed.

Lemma wp_bits_of id n bits c (Q : Z → rtos → Prop) o :
  object_at o !! id = Some (mutex_object n bits c) → Q bits o → wp (bits_of id) Q o.
Proof. intros Ho HQ. unfold bits_of, get_object. wp_step. wp_step; [exact Ho|]. by wp_step. Qed.

Lemma wp_count_of id n bits c (Q : Z → rtos → Prop) o :
  object_at o !! id = Some (mutex_object n bits c) → Q c o → wp (count_of id) Q o.
Proof. intros Ho HQ. unfold count_of. eapply wp_get_opt; [by rewrite Ho|done]. Qed.

Lemma wp_set_count id n bits c k (Q : unit → rtos → Prop) o :
  object_at o !! id = Some (mutex_object n bits c) → - 2 ^ 31 <= k < 2 ^ 31 →
  Q tt (with_object id (mutex_object n bits k) o) → wp (set_count id k) Q o.
Proof.
  intros Ho Hk HQ. unfold set_count. wp_step. eapply wp_count_of; [exact Ho|]. rewrite s32_small by done.
  unfold set_contents, upd_object, get_object. wp_step. wp_step; [exact Ho|]. by apply wp_upd.
Qed.

Lemma runs_thread_object id n bits c ob t th o :
  runs_thread t th o → object_at o !! id = Some (mutex_object n bits c) → runs_thread t th (with_object id ob o).
Proof.
  intros [? ? ? (Hth & n' & b' & c' & Ho') ?] Ho. split; try done. split; [done|]. exists n', b', c'.
  unfold with_object. rsimp. rewrite lookup_insert_ne; [done|]. intros ->.
  rewrite Ho' in Ho. by injection Ho.
Qed.

Lemma runs_thread_stored a v t th o : runs_thread t th o → runs_thread t th (stored a v o).
Proof. intros []. split; try done. by apply calling_stored. Qed.

(** ** Acquire *)

(** What an acquire that does not wait leaves. *)
Definition acquired (id t th bits count w : Z) (l : list Z) (timeout r : Z) (o o' : rtos) : Prop :=
  if owner_of w =? t then
    if has bits osMutexRecursive then r = osOK ∧ mutex_at id bits (count + 1) w l o' ∧ runs_thread t th o'
    else r = osErrorParameter ∧ o' = o
  else if w =? 0 then
    r = osOK ∧ mutex_at id bits (if has bits osMutexRecursive then 1 else count) t l o' ∧ runs_thread t th o'
  else timeout = 0 → r = osErrorResource ∧ o' = o.

Lemma mutex_counted id n bits c k w l o :
  mutex_at id bits c w l o → - 2 ^ 31 < k < 2 ^ 31 - 1 → mutex_at id bits k w l (with_object id (mutex_object n bits k) o).
Proof. intros [? ? ? ? ?] Hk. split; try done. exists n. apply lookup_insert_eq. Qed.

Lemma osMutexAcquire_acquires fuel id t th bits count w l timeout o :
  runs_thread t th o → mutex_at id bits count w l o → (1 <= fuel)%nat →
  (owner_of w = t ∨ w = 0 ∨ timeout = 0) →
  (owner_of w = t → has bits osMutexRecursive = true → count + 1 < 2 ^ 31 - 1) →
  wp (osMutexAcquire core fuel id timeout) (λ r o', acquired id t th bits count w l timeout r o o') o.
Proof.
  intros Hr Hm Hf Hgo Hcnt. pose proof (current_nonzero _ _ _ Hr) as Hz. destruct (ma_object _ _ _ _ _ _ Hm) as [n Ho].
  unfold osMutexAcquire. apply wp_validated; [apply Hr|by eapply ma_block|].
  wp_step. eapply wp_task; [exact Hr|]. wp_step. eapply wp_load; [apply Hm|]. wp_step. eapply wp_bits_of; [exact Ho|].
  rewrite (Z.eqb_sym t). unfold acquired. destruct (Z.eqb_spec (owner_of w) t) as [E|E].
  - destruct (has bits osMutexRecursive) eqn:Erec; cbn [negb]; [|by wp_step]. specialize (Hcnt E eq_refl).
    wp_step. eapply wp_count_of; [exact Ho|]. pose proof (ma_count _ _ _ _ _ _ Hm).
    wp_step. eapply wp_set_count; [exact Ho|lia|]. wp_step. split; [done|].
    split; [eapply mutex_counted; [exact Hm|lia]|by eapply runs_thread_object].
  - destruct fuel as [|fuel]; [lia|]. cbn [lock_mutex]. do 2 wp_step.
    eapply wp_cas; [apply Hm| |]; cbn [fst snd].
    + intros ->. wp_step. change (osOK =? osOK) with true. cbn [negb]. rewrite Z.eqb_refl.
      set (o1 := stored _ t o).
      assert (mutex_at id bits count t l o1) as Hm1 by (destruct Hm; split; try done; apply word_stored_eq).
      assert (runs_thread t th o1) as Hr1 by by apply runs_thread_stored. pose proof (ma_count _ _ _ _ _ _ Hm).
      wp_step. wp_step.
      * replace (has bits osMutexRecursive) with true. eapply wp_set_count; [exact Ho|lia|]. wp_step.
        split; [done|]. split; [eapply mutex_counted; [exact Hm1|lia]|by eapply runs_thread_object].
      * replace (has bits osMutexRecursive) with false. wp_step. done.
    + intros Hne. rewrite (proj2 (Z.eqb_neq w 0)) by done. destruct Hgo as [?|[?| ->]]; [done|done|]. cbn [Z.eqb]. wp_step.
      change (osErrorResource =? osOK) with false. cbn [negb]. by wp_step.
Qed.

Lemma final_word_mutex a bits l t : owner_of t = t →
  final_word (Futex a l (mutex_futex_flags bits) SCHEDULER_FUTEX_MARKER) false l (contended_word t) = handed_word t l.
Proof. apply final_word_tracked; unfold mutex_futex_flags; by destruct (has bits osMutexPrioInherit). Qed.

(** A recursive mutex held more than once stays held. *)
Definition keeps_holding (bits count : Z) : bool := has bits osMutexRecursive && (0 <? count - 1).

(** The calls before the unlock: the caller is the owner, and the count goes down. *)
Lemma osMutexRelease_enters id t th bits count w l o (Q : Z → rtos → Prop) :
  runs_thread t th o → mutex_at id bits count w l o → 0 <= count → owner_of w = t → w ≠ 0 →
  (∀ o', runs_thread t th o' →
     mutex_at id bits (if has bits osMutexRecursive then count - 1 else count) w l o' → o_sched o' = o_sched o →
     if keeps_holding bits count then Q osOK o' else wp (unlock_mutex core id t) Q o') →
  wp (osMutexRelease core id) Q o.
Proof.
  intros Hr Hm Hnn Hw Hz HQ. destruct (ma_object _ _ _ _ _ _ Hm) as [n Ho]. pose proof (ma_count _ _ _ _ _ _ Hm).
  unfold osMutexRelease. apply wp_validated; [apply Hr|by eapply ma_block|].
  wp_step. eapply osMutexGetOwner_self; [exact Hr|exact Hm|done|done|].
  wp_step. eapply osThreadGetId_self; [exact Hr|]. rewrite Z.eqb_refl. cbn [negb].
  wp_step. eapply wp_bits_of; [exact Ho|]. wp_step. eapply wp_count_of; [exact Ho|].
  set (k := if has bits osMutexRecursive then count - 1 else count) in *.
  wp_step. apply (wp_mono _ (λ _ o1, o1 = with_object id (mutex_object n bits k) o)).
  { unfold k. apply wp_when; intros ->; [eapply wp_set_count; [exact Ho|lia|done]|by rewrite with_object_same]. }
  intros [] o1 ->. specialize (HQ (with_object id (mutex_object n bits k) o)).
  rewrite s32_small by lia. fold (keeps_holding bits count).
  assert (runs_thread t th (with_object id (mutex_object n bits k) o)) as Hr1 by by eapply runs_thread_object.
  assert (mutex_at id bits k w l (with_object id (mutex_object n bits k) o)) as Hm1.
  { eapply mutex_counted; [exact Hm|]. unfold k. destruct (has _ _); lia. }
  specialize (HQ Hr1 Hm1 eq_refl).
  destruct (keeps_holding bits count); [by wp_step|]. wp_step. by eapply wp_task.
Qed.

Lemma osMutexRelease_uncontended id t th bits count l o :
  runs_thread t th o → mutex_at id bits count t l o → 0 <= count →
  wp (osMutexRelease core id) (λ r o', r = osOK ∧ runs_thread t th o' ∧
    mutex_at id bits (if has bits osMutexRecursive then count - 1 else count)
      (if keeps_holding bits count then t else 0) l o') o.
Proof.
  intros Hr Hm Hnn. pose proof (current_nonzero _ _ _ Hr) as Hz.
  eapply osMutexRelease_enters; [exact Hr|exact Hm|done|apply Hr|done|]. intros o1 Hr1 Hm1 _.
  destruct (keeps_holding bits count); [split; [done|by split]|].
  unfold unlock_mutex. wp_step. eapply wp_load; [apply Hm1|]. rewrite Z.eqb_refl. wp_step.
  eapply wp_cas; [apply Hm1|intros _|done]. cbn [fst]. wp_step. split; [done|].
  split; [by apply runs_thread_stored|]. destruct Hm1. split; try done. apply word_stored_eq.
Qed.

(** The owner of a contended mutex lets go: the first waiter, the scheduler's
    choice, is ready and owns the mutex.  With no waiter left the word is the
    owner's again. *)
Lemma osMutexRelease_contended id t th bits count l o :
  runs_thread t th o → mutex_at id bits count (contended_word t) l o → 0 <= count → keeps_holding bits count = false →
  wp (osMutexRelease core id) (λ r o', r = osOK ∧ calling o' ∧ ∃ l1, l1 ≡ₚ l ∧
    mutex_at id bits (if has bits osMutexRecursive then count - 1 else count) (handed_word t l1) (drop 1 l1) o' ∧
    ∀ u, u ∈ take 1 l1 → readied (o_sched o') u) o.
Proof.
  intros Hr Hm Hnn Hk. pose proof (current_nonzero _ _ _ Hr) as Hz. pose proof (rt_even _ _ _ Hr) as Hev.
  pose proof (owner_of_contended _ Hev) as Hoc. pose proof (contended_differs _ Hev) as Hne.
  eapply osMutexRelease_enters; [exact Hr|exact Hm|done|done|intros E; rewrite E in Hoc; by apply Hz|].
  intros o1 Hr1 Hm1 Hs1. rewrite Hk.
  unfold unlock_mutex. wp_step. eapply wp_load; [apply Hm1|]. rewrite (proj2 (Z.eqb_neq _ _)) by done. do 2 wp_step.
  cbn [fst]. destruct (ma_futex _ _ _ _ _ _ Hm1) as [Hf Hfx]. wp_step.
  eapply wp_futex_wake_any; [apply Hr1|done|exact Hfx|done|apply Hm1| |].
  { intros _. rewrite Hoc, <-(rt_task _ _ _ Hr1). pose proof (rt_calling _ _ _ Hr1) as Hc1.
    destruct (ix_current _ _ (proj1 (it_quiescent _ _ Hc1)) core (it_task _ _ Hc1)); set_solver. }
  intros l1 l2 s Hw. rewrite (proj2 (Z.ltb_ge _ 0)) by lia. wp_step. split; [done|]. split; [apply Hw|].
  exists l1. split; [apply (wb_order _ _ _ _ _ _ _ _ _ Hw)|].
  set (fx := Futex _ l _ _) in *.
  assert (chosen fx false l1 = take 1 l1) as Hch by done.
  assert (l2 = drop 1 l1) as ->.
  { pose proof (wb_split _ _ _ _ _ _ _ _ _ Hw) as E. rewrite Hch in E. rewrite <-(take_drop 1 l1) in E at 1.
    by apply app_inv_head in E. }
  split; [|intros u Hu; eapply wb_readied; [exact Hw|by rewrite Hch]].
  destruct Hm1 as [? [n Ho] _ _ ?]. split; [done|by exists n| | |done].
  - split; [done|]. pose proof (wb_others _ _ _ _ _ _ _ _ _ Hw (futex_of id)) as Hid.
    pose proof (wb_queue _ _ _ _ _ _ _ _ _ Hw) as Hq. cbn [queue] in Hq.
    destruct (futex_at s !! futex_of id) as [[a' l' g' k']|] eqn:E; [|done]. rewrite Hfx in Hid. unfold futex_id in Hid. cbn in *.
    change (futex_at s !! futex_of id = Some (Futex (mutex_value id) (drop 1 l1) (mutex_futex_flags bits) SCHEDULER_FUTEX_MARKER)).
    rewrite E. congruence.
  - change (word_at s !! mutex_value id = Some (handed_word t l1)). rewrite <-(final_word_mutex (mutex_value id) bits l1 t Hev).
    pose proof (wb_word _ _ _ _ _ _ _ _ _ Hw) as Hv. exact Hv.
Qed.

(** Anybody else is refused. *)
Lemma osMutexRelease_refuses id t th bits count w l o u uk :
  runs_thread t th o → mutex_at id bits count w l o →
  w = 0 ∨ (owner_of w = u ∧ task_at (o_sched o) !! u = Some uk ∧ t_marker uk = SCHEDULER_TASK_MARKER ∧ t_context uk ≠ th) →
  wp (osMutexRelease core id) (λ r o', r = osErrorResource ∧ o' = o) o.
Proof.
  intros Hr Hm Hw. pose proof (rt_block _ _ _ Hr) as [Hth _].
  unfold osMutexRelease. apply wp_validated; [apply Hr|by eapply ma_block|].
  wp_step. apply (wp_mono _ (λ owner o1, owner ≠ th ∧ o1 = o)).
  - unfold osMutexGetOwner. apply wp_validated; [apply Hr|by eapply ma_block|].
    wp_step. eapply wp_load; [apply Hm|]. destruct (Z.eqb_spec w 0) as [|Hz]; [by wp_step|].
    destruct Hw as [?|(-> & Hu & Hmk & Hcx)]; [done|]. wp_step. eapply wp_entry; [exact Hu|].
    rewrite Hmk, Z.eqb_refl. cbn [negb when]. do 2 wp_step. by wp_step.
  - intros owner o1 [Hne ->]. wp_step. eapply osThreadGetId_self; [exact Hr|].
    rewrite (proj2 (Z.eqb_neq _ _)) by done. by wp_step.
Qed.

(** ** Sequences of calls by one thread

    The abstract mutex is the number of times the thread holds it. *)
Inductive mutex_op := TryLock | Unlock.
Definition mutex_step (fuel : nat) (id : Z) (op : mutex_op) : OM Z :=
  match op with TryLock => osMutexAcquire core fuel id 0 | Unlock => osMutexRelease core id end.
Fixpoint mutex_run (fuel : nat) (id : Z) (ops : list mutex_op) : OM (list Z) :=
  match ops with [] => ret [] | op :: ops' => r <- mutex_step fuel id op ;; rs <- mutex_run fuel id ops' ;; ret (r :: rs) end.

Definition hold_step (recursive : bool) (op : mutex_op) (n : nat) : Z * nat :=
  match op, n with
  | TryLock, O => (osOK, 1%nat)
  | TryLock, S _ => if recursive then (osOK, S n) else (osErrorParameter, n)
  | Unlock, O => (osErrorResource, O)
  | Unlock, S n' => (osOK, n')
  end.
Fixpoint hold_run (recursive : bool) (ops : list mutex_op) (n : nat) : list Z * nat :=
  match ops with
  | [] => ([], n)
  | op :: ops' => let r := hold_step recursive op n in let rs := hold_run recursive ops' r.2 in (r.1 :: rs.1, rs.2)
  end.

(** The thread holds the mutex [n] times, and nobody contends for it. *)
Definition holds_times (id bits t th : Z) (n : nat) (o : rtos) : Prop :=
  runs_thread t th o ∧ ∃ count, mutex_at id bits count (if decide (n = O) then 0 else t) [] o ∧ 0 <= count ∧
    (n ≠ O → if has bits osMutexRecursive then count = Z.of_nat n else n = 1%nat).

Lemma mutex_step_holds fuel id bits t th op n o :
  holds_times id bits t th n o → Z.of_nat n < 2 ^ 31 - 2 → (1 <= fuel)%nat →
  wp (mutex_step fuel id op) (λ r o', r = (hold_step (has bits osMutexRecursive) op n).1 ∧
    holds_times id bits t th (hold_step (has bits osMutexRecursive) op n).2 o') o.
Proof.
  intros (Hr & count & Hm & Hnn & Hn) Hb Hf. pose proof (current_nonzero _ _ _ Hr) as Hz. pose proof (rt_even _ _ _ Hr) as Hev.
  destruct (rt_entry _ _ _ Hr) as [tk _]. assert ((0 =? t) = false) as Hzt by (apply Z.eqb_neq; congruence).
  destruct op, n as [|n]; cbn [mutex_step hold_step]; cbn [decide] in Hm.
  - eapply wp_mono; [eapply osMutexAcquire_acquires; [exact Hr|exact Hm|done|auto|intros ?; by destruct Hz]|].
    intros r o1 Ha. unfold acquired in Ha. change (owner_of 0) with 0 in Ha. rewrite Hzt in Ha.
    destruct Ha as (-> & Hm1 & Hr1). split; [done|]. split; [done|]. eexists. split; [exact Hm1|].
    destruct (has bits osMutexRecursive); [split; [lia|done]|done].
  - specialize (Hn ltac:(done)). eapply wp_mono; [eapply osMutexAcquire_acquires; [exact Hr|exact Hm|done|auto|]|].
    { intros _ Hrec. rewrite Hrec in Hn. lia. }
    intros r o1 Ha. unfold acquired in Ha. rewrite Hev, Z.eqb_refl in Ha. destruct (has bits osMutexRecursive) eqn:E.
    + destruct Ha as (-> & Hm1 & Hr1). split; [done|]. split; [done|]. eexists. split; [exact Hm1|].
      split; [lia|]. cbn [snd]. rewrite E. lia.
    + destruct Ha as [-> ->]. split; [done|]. split; [done|]. exists count. rewrite E. by split_and!.
  - eapply wp_mono; [eapply osMutexRelease_refuses with (u := 0) (uk := tk); [exact Hr|exact Hm|by left]|]. intros r o1 [-> ->].
    split; [done|]. split; [done|]. by exists count.
  - specialize (Hn ltac:(done)). eapply wp_mono; [by eapply osMutexRelease_uncontended|]. intros r o1 (-> & Hr1 & Hm1).
    split; [done|]. split; [done|]. cbn [snd]. unfold keeps_holding in Hm1. destruct (has bits osMutexRecursive) eqn:E.
    + exists (count - 1). destruct (Z.ltb_spec 0 (count - 1)); cbn [andb] in Hm1.
      * rewrite decide_False by lia. split; [exact Hm1|]. lia.
      * rewrite decide_True by lia. split; [exact Hm1|]. lia.
    + exists count. assert (n = O) as -> by lia. by rewrite decide_True.
Qed.

Lemma mutex_run_holds fuel id bits t th ops : ∀ n o,
  holds_times id bits t th n o → Z.of_nat (n + length ops) < 2 ^ 31 - 2 → (1 <= fuel)%nat →
  wp (mutex_run fuel id ops) (λ rs o', rs = (hold_run (has bits osMutexRecursive) ops n).1 ∧
    holds_times id bits t th (hold_run (has bits osMutexRecursive) ops n).2 o') o.
Proof.
  induction ops as [|op ops IH]; intros n o Hh Hb Hf; cbn [mutex_run hold_run fst snd length] in *; [by wp_step|].
  wp_step. eapply wp_mono; [apply mutex_step_holds; [done|lia|done]|]. intros r o1 [-> H1']. wp_step.
  eapply wp_mono; [apply IH; [exact H1'| |done]|]; [|intros rs o2 [-> H2']; by wp_step].
  assert ((hold_step (has bits osMutexRecursive) op n).2 <= S n)%nat; [|lia].
  destruct op, n; cbn; [|destruct (has _ _)| |]; cbn; lia.
Qed.
End laws.
