(* ===== verification/ReaperLaws.v ===== *)
(** * The end of threads: laws

    A walk of the reaper splits the list of threads into those to reap and
    those that stay.  The capture of robust mutexes finds the owned ones, and
    aborts when a fifth owned one is not the last of the list. *)
From S2P Require Import Prelude Spinlock Scheduler SchedulerSvc SchedulerApi SchedulerInv SchedulerSafe SchedulerWake SchedulerHandlers SchedulerSystem SchedulerCalls WakeLaws Rtos Kernel RtosLaws KernelLaws Semaphore EventFlags Thread Mutex Reaper.

Lemma filter_iff_in {A} (P1 P2 : A → Prop) `{∀ x, Decision (P1 x), ∀ x, Decision (P2 x)} (l : list A) :
  (∀ x, x ∈ l → P1 x ↔ P2 x) → filter P1 l = filter P2 l.
Proof.
  induction l as [|x l IH]; intros HP; [done|]. rewrite !filter_cons, IH by (intros; apply HP; by right).
  pose proof (HP x (list_elem_of_here _ _)). case_decide; case_decide; tauto || done.
Qed.

Lemma filter_all {A} (P : A → Prop) `{∀ x, Decision (P x)} (l : list A) : (∀ x, x ∈ l → P x) → filter P l = l.
Proof.
  induction l as [|x l IH]; intros HP; [done|].
  rewrite filter_cons_True by (apply HP; left). f_equal. apply IH. intros; apply HP; by right.
Qed.

Section laws.
Context `{EnvironmentLaws} `{Trap} `{RtosEnv} {Hun : Undisturbed} `{RtosImage} `{ThreadImage} (core : Z).
Notation calling := (calling core).
Notation resources_at := (resources_at core).

(** A walk over a resource list that leaves the lock of the list alone. *)
Lemma wp_for_each {C} r (func : Z → C → OM (Z * C)) (c : C) l (Q : Z * C → rtos → Prop) o :
  resources_at r l o →
  wp (visit_nodes func (resource_offset r) l c) (λ a o2, resource_lock (k_resources o2 r) = take_ticket (resource_lock (k_resources o r)) ∧
     Q a ((set_resource_lock r (released_lock (resource_lock (k_resources o r))) o2) <| o_primask := o_primask o |>))
    (masked (set_resource_lock r (take_ticket (resource_lock (k_resources o r))) o)) →
  wp (osKernelResourceForEach core r (Some func) c) Q o.
Proof.
  intros [Hc Hs Hl Hn] Hw. unfold osKernelResourceForEach. wp_step. apply wp_context; [done|].
  change (osOK =? osOK) with true. cbn [negb]. wp_step. apply wp_the_kernel; [done|].
  apply wp_resource_locked; [done|]. do 2 wp_step.
  assert (nodes (k_resources (masked (set_resource_lock r (take_ticket (resource_lock (k_resources o r))) o)) r) = l) as ->.
  { unfold masked. rsimp. by rewrite resource_set, decide_True. }
  exact Hw.
Qed.

(** ** Reaping *)
Definition to_reap (o : rtos) (node : Z) : Prop :=
  ∃ ob, object_at o !! (node - resource_offset osResourceThread) = Some ob ∧ has (attr_bits ob) osReapThread = true.
#[global] Instance to_reap_dec o node : Decision (to_reap o node).
Proof.
  unfold to_reap. destruct (object_at o !! _) as [ob|]; [|right; intros (? & ? & ?); done].
  destruct (has (attr_bits ob) osReapThread) eqn:E; [left; by exists ob|right; intros (? & [= ->] & ?); congruence].
Defined.

Definition thread_of (node : Z) : Z := node - resource_offset osResourceThread.

(** The lists without the nodes of [l] that are to be reaped. *)
Record reaped_from (l : list Z) (o o' : rtos) : Prop := {
  rf_rest : ∃ g, o' = o <| k_resources := g |>;
  rf_locks x : resource_lock (k_resources o' x) = resource_lock (k_resources o x);
  rf_nodes x : nodes (k_resources o' x) = filter (λ n, ¬ (n ∈ l ∧ to_reap o n)) (nodes (k_resources o x))
}.

Lemma reaped_nil o : reaped_from [] o o.
Proof.
  split; [by exists (k_resources o); destruct o|done|].
  intros x. symmetry. apply filter_all. intros n _ [?%elem_of_nil _]. done.
Qed.

Lemma reaped_skip node l o o' : ¬ to_reap o node → reaped_from l o o' → reaped_from (node :: l) o o'.
Proof.
  intros Hn []. split; [done..|]. intros x. rewrite rf_nodes0. apply list_filter_iff. intros n.
  rewrite elem_of_cons. split; intros Hr [Hin Ht]; apply Hr; (split; [|done]); [by destruct Hin as [->|]|auto].
Qed.

Lemma reaped_take node l o o' :
  to_reap o node → reaped_from l (unlist_node node o) o' → reaped_from (node :: l) o o'.
Proof.
  intros Hn [[g Hg] Hl Hns]. split.
  - exists g. rewrite Hg. by destruct o.
  - intros x. by rewrite Hl.
  - intros x. rewrite Hns. change (nodes (k_resources (unlist_node node o) x)) with (without node (nodes (k_resources o x))).
    unfold without. rewrite list_filter_filter. apply list_filter_iff. intros n. change (to_reap (unlist_node node o) n) with (to_reap o n).
    rewrite elem_of_cons. split.
    + intros [Hr Hne] [[?|Hin] Ht]; [done|]. by apply Hr.
    + intros Hr. split; [intros [Hin Ht]; apply Hr; auto|intros ->; apply Hr; auto].
Qed.

Lemma visit_reaps l reap_list : ∀ o (Q : Z * list Z → rtos → Prop),
  (∀ node, node ∈ l → block_at (thread_of node) RTOS_THREAD_MARKER o) →
  (∀ o', reaped_from l o o' → Q (osOK, reap_list ++ (thread_of <$> filter (to_reap o) l)) o') →
  wp (visit_nodes osThreadReap (resource_offset osResourceThread) l reap_list) Q o.
Proof.
  revert reap_list. induction l as [|node l IH]; intros reap_list o Q Hb HQ; cbn [visit_nodes].
  { wp_step. cbn in HQ. rewrite app_nil_r in HQ. apply HQ, reaped_nil. }
  pose proof (Hb node ltac:(set_solver)) as Hbn. pose proof Hbn as (_ & n & bits & b & Ho).
  wp_step. unfold osThreadReap. wp_step. apply wp_resource; [exact Hbn|].
  change (osOK =? osOK) with true. cbn [negb]. wp_step. unfold thread_bits. wp_step. unfold get_object. wp_step; [exact Ho|].
  wp_step. cbn [attr_bits]. destruct (has bits osReapThread) eqn:E.
  - assert (to_reap o node) as Ht by (eexists; split; [exact Ho|done]).
    do 2 wp_step. wp_step. cbn [fst snd]. change (osOK =? osOK) with true. cbn [negb].
    assert (thread_node (node - resource_offset osResourceThread) = node) as -> by (unfold thread_node; lia).
    apply IH; [intros x Hx; apply Hb; set_solver|]. intros o' Hr. rewrite filter_cons_True in HQ by done.
    cbn [fmap list_fmap] in HQ. rewrite <-(assoc (++)). apply HQ. by apply reaped_take.
  - assert (¬ to_reap o node) as Ht by (intros (ob & Hob & ?); unfold thread_of in Ho; rewrite Ho in Hob; simplify_eq; cbn in *; congruence).
    wp_step. cbn [fst snd]. change (osOK =? osOK) with true. cbn [negb].
    apply IH; [intros x Hx; apply Hb; set_solver|]. intros o' Hr. rewrite filter_cons_False in HQ by done.
    apply HQ. by apply reaped_skip.
Qed.

(** The walk of the reaper: the threads to reap, in order; the others stay. *)
Lemma osThreadReap_splits l o :
  resources_at osResourceThread l o → (∀ node, node ∈ l → block_at (thread_of node) RTOS_THREAD_MARKER o) →
  wp (osKernelResourceForEach core osResourceThread (Some osThreadReap) []) (λ r o',
    r = (osOK, thread_of <$> filter (to_reap o) l) ∧
    resources_at osResourceThread (filter (λ n, ¬ to_reap o n) l) o' ∧ object_at o' = object_at o) o.
Proof.
  intros Hr Hb. eapply wp_for_each; [exact Hr|]. destruct Hr as [Hc Hs Hl Hn].
  set (o1 := masked _). apply visit_reaps; [exact Hb|]. intros o2 [[g Hg] Hlk Hns].
  assert (resource_lock (k_resources o1 osResourceThread) = take_ticket (resource_lock (k_resources o osResourceThread))) as Hl1.
  { unfold o1, masked. rsimp. by rewrite resource_set, decide_True. }
  assert (nodes (k_resources o1 osResourceThread) = l) as Hn1.
  { unfold o1, masked. rsimp. by rewrite resource_set, decide_True. }
  split; [by rewrite Hlk|]. split; [done|]. split; [|by rewrite Hg]. split.
  - change (calling o2). by rewrite Hg.
  - change (o_started o2 = true). by rewrite Hg.
  - rsimp. rewrite resource_set, decide_True by done. by apply free_released.
  - rsimp. rewrite resource_set, decide_True by done. cbn [nodes]. rewrite Hns, Hn1.
    apply filter_iff_in. intros x Hx. change (to_reap o1 x) with (to_reap o x).
    split; [intros Hnr Ht; by apply Hnr|intros Hnr [_ Ht]; done].
Qed.

(** ** Robust mutexes *)

(** The thread that owns the mutex at [id], 0 for none; nothing for a word that
    names no task. *)
Definition owner_in (o : rtos) (id : Z) : option Z :=
  match word_of o (mutex_value id) with
  | Some w =>
      if w =? 0 then Some 0
      else match task_at (o_sched o) !! owner_of w with
           | Some tk => if t_marker tk =? SCHEDULER_TASK_MARKER then Some (t_context tk) else None
           | None => None
           end
  | None => None
  end.

Lemma osMutexGetOwner_owner id u o :
  calling o → block_at id RTOS_MUTEX_MARKER o → owner_in o id = Some u →
  wp (osMutexGetOwner core id) (λ r o', r = u ∧ o' = o) o.
Proof.
  intros Hc Hb Hu. unfold osMutexGetOwner. apply wp_validated; [done|done|]. unfold owner_in in Hu.
  destruct (word_of o (mutex_value id)) as [w|] eqn:Hw; [|done]. wp_step. eapply wp_load; [exact Hw|].
  destruct (w =? 0); [wp_step; by simplify_eq|]. destruct (task_at (o_sched o) !! owner_of w) as [tk|] eqn:Ht; [|done].
  wp_step. apply wp_on_sched. apply (wp_get_task _ tk); [done|]. destruct (t_marker tk =? SCHEDULER_TASK_MARKER) eqn:Hmk; [|done].
  wp_step. simplify_eq. wp_step; [cbn [negb] in *; congruence|]. wp_step. split; [done|]. by destruct o.
Qed.

Definition robust_of (node : Z) : Z := node - resource_offset osResourceRobustMutex.
Definition robust_ok (o : rtos) (node : Z) : Prop :=
  block_at (robust_of node) RTOS_MUTEX_MARKER o ∧ is_Some (owner_in o (robust_of node)).
Definition owned_nodes (o : rtos) (thread : Z) (l : list Z) : list Z :=
  filter (λ node, owner_in o (robust_of node) = Some thread) l.

(** One visit with room left in the capture. *)
Lemma visit_capture thread node l mutexes (Q : Z * list Z → rtos → Prop) o :
  calling o → robust_ok o node → (length mutexes < 5)%nat →
  wp (visit_nodes (osCaptureOwnedRobustMutexes core thread) (resource_offset osResourceRobustMutex) l
        (mutexes ++ (robust_of <$> owned_nodes o thread [node]))) Q o →
  wp (visit_nodes (osCaptureOwnedRobustMutexes core thread) (resource_offset osResourceRobustMutex) (node :: l) mutexes) Q o.
Proof.
  intros Hc [Hb [u Hu]] Hroom Hw. cbn [visit_nodes]. fold (robust_of node). wp_step. unfold osCaptureOwnedRobustMutexes at 1.
  rewrite (proj2 (Z.ltb_lt _ _)) by (unfold ROBUST_CAPTURE_SIZE; lia). wp_step.
  eapply wp_mono; [by eapply osMutexGetOwner_owner|]. intros r o1 [-> ->]. wp_step. cbn [fst snd].
  change (osOK =? osOK) with true. cbn [negb]. unfold owned_nodes in Hw. rewrite filter_cons in Hw.
  destruct (Z.eqb_spec u thread) as [->|Hne]; [rewrite decide_True in Hw by done|rewrite decide_False in Hw by congruence].
  - exact Hw.
  - cbn in Hw. by rewrite app_nil_r in Hw.
Qed.

Lemma owned_app o thread l1 l2 : owned_nodes o thread (l1 ++ l2) = owned_nodes o thread l1 ++ owned_nodes o thread l2.
Proof. apply filter_app. Qed.

Lemma visit_captures thread l1 l2 : ∀ mutexes (Q : Z * list Z → rtos → Prop) o,
  calling o → (∀ node, node ∈ l1 → robust_ok o node) → (length mutexes + length (owned_nodes o thread l1) < 5)%nat →
  wp (visit_nodes (osCaptureOwnedRobustMutexes core thread) (resource_offset osResourceRobustMutex) l2
        (mutexes ++ (robust_of <$> owned_nodes o thread l1))) Q o →
  wp (visit_nodes (osCaptureOwnedRobustMutexes core thread) (resource_offset osResourceRobustMutex) (l1 ++ l2) mutexes) Q o.
Proof.
  induction l1 as [|node l1 IH]; intros mutexes Q o Hc Hok Hroom Hw; cbn [app].
  { by rewrite app_nil_r in Hw. }
  change (node :: l1) with ([node] ++ l1) in Hroom, Hw. rewrite owned_app in Hroom, Hw. rewrite length_app in Hroom.
  apply visit_capture; [done|apply Hok; set_solver|lia|].
  apply IH; [done|intros x Hx; apply Hok; set_solver|rewrite length_app, length_fmap; lia|].
  rewrite fmap_app in Hw. by rewrite <-(assoc (++)).
Qed.

(** With fewer than five, the capture holds exactly the owned ones. *)
Lemma capture_owned thread l o :
  resources_at osResourceRobustMutex l o → (∀ node, node ∈ l → robust_ok o node) →
  (length (owned_nodes o thread l) < 5)%nat →
  wp (osKernelResourceForEach core osResourceRobustMutex (Some (osCaptureOwnedRobustMutexes core thread)) [])
    (λ r _, r = (osOK, robust_of <$> owned_nodes o thread l)) o.
Proof.
  intros Hr Hok Hroom. eapply wp_for_each; [exact Hr|]. set (o1 := masked _). rewrite <-(app_nil_r l) at 1.
  apply visit_captures; [apply Hr|exact Hok|done|]. cbn [visit_nodes app]. wp_step.
  split; [|done]. unfold o1, masked. rsimp. by rewrite resource_set, decide_True.
Qed.

(** A fifth owned mutex that is not the last of the list: the walk answers
    [true], which the caller takes for an error. *)
Lemma osReleaseRobustMutex_aborts fuel thread l1 fifth node l2 o :
  resources_at osResourceRobustMutex (l1 ++ fifth :: node :: l2) o → (∀ x, x ∈ l1 ++ [fifth] → robust_ok o x) →
  length (owned_nodes o thread l1) = 4%nat → owner_in o (robust_of fifth) = Some thread →
  osReleaseRobustMutex core (S fuel) thread o = Fault Aborted.
Proof.
  intros Hr Hok Hl Hf. cbn [osReleaseRobustMutex]. apply bind_fault. eapply wp_for_each; [exact Hr|]. set (o1 := masked _).
  apply visit_captures; [apply Hr|intros x Hx; apply Hok; set_solver|change (owned_nodes o1) with (owned_nodes o); cbn; lia|].
  change (owned_nodes o1) with (owned_nodes o). cbn [app].
  apply visit_capture; [apply Hr|apply Hok; set_solver|rewrite length_fmap; lia|].
  change (owned_nodes o1) with (owned_nodes o). unfold owned_nodes at 2. rewrite filter_cons_True by done.
  cbn [visit_nodes]. wp_step. unfold osCaptureOwnedRobustMutexes at 1.
  rewrite (proj2 (Z.ltb_ge _ _)) by (rewrite length_app, length_fmap, Hl; unfold ROBUST_CAPTURE_SIZE; cbn; lia).
  wp_step. cbn [fst snd].
  change (1 =? osOK) with false. cbn [negb]. wp_step. split; [|done].
  unfold o1, masked. rsimp. by rewrite resource_set, decide_True.
Qed.
End laws.
