(* ===== verification/DequeLaws.v ===== *)
(** * Double-ended queues: laws

    Appending at the back and taking from the front is a bounded queue of one
    element less than there are slots.  The two operations at the other ends do
    not behave so: what they do is stated as it is. *)
From S2P Require Import Prelude Spinlock Scheduler SchedulerSvc SchedulerApi SchedulerInv SchedulerSafe SchedulerWake SchedulerHandlers SchedulerSystem SchedulerCalls WakeLaws Rtos Kernel RtosLaws EventFlags EventFlagsLaws Thread Deque.

(** ** Indices of a ring of [2 ^ k] slots *)
Lemma modulo_pow2 x k : 0 <= k <= 31 → modulo x (2 ^ k) = x mod 2 ^ k.
Proof.
  intros Hk. assert (0 < 2 ^ k <= 2 ^ 31) by (split; [apply Z.pow_pos_nonneg; lia|apply Z.pow_le_mono_r; lia]).
  unfold modulo. rewrite (u32_small (2 ^ k - 1)) by (unfold is_u32, word; lia).
  replace (2 ^ k - 1) with (Z.ones k) by (rewrite Z.ones_equiv; lia). rewrite Z.land_ones by lia. unfold u32, word.
  replace (2 ^ 32) with (2 ^ k * 2 ^ (32 - k)) by (rewrite <-Z.pow_add_r by lia; f_equal; lia).
  pose proof (Z.pow_pos_nonneg 2 (32 - k)). rewrite Z.rem_mul_r by lia.
  rewrite <-Zplus_mod_idemp_r, Z.mul_comm, Z_mod_mult, Z.add_0_r. by apply Z.mod_mod; lia.
Qed.

Section ring.
Context (k : Z) (Hk : 0 <= k <= 31).
Notation count := (2 ^ k).

Lemma count_bounds : 0 < count <= 2 ^ 31.
Proof. split; [apply Z.pow_pos_nonneg; lia|apply Z.pow_le_mono_r; lia]. Qed.

(** [q] lies in the slots from [front] on. *)
Definition lies (buffer : list (list Z)) (front : Z) (q : list (list Z)) : Prop :=
  ∀ i e, q !! i = Some e → buffer !! Z.to_nat ((front + Z.of_nat i) mod count) = Some e.

Lemma slot_range x : 0 <= x mod count < count.
Proof. apply Z.mod_pos_bound, count_bounds. Qed.

Lemma slots_differ front i j : 0 <= i < j → j < count → (front + i) mod count ≠ (front + j) mod count.
Proof.
  intros Hi Hj E. pose proof count_bounds. pose proof (Z.div_mod (front + i) count ltac:(lia)) as E1.
  pose proof (Z.div_mod (front + j) count ltac:(lia)) as E2. rewrite E in E1.
  assert (j - i = count * ((front + j) / count - (front + i) / count)) by lia.
  set (d := (front + j) / count - (front + i) / count) in *. destruct (Z.le_gt_cases d 0); nia.
Qed.

Lemma lies_pushed buffer front q e :
  length buffer = Z.to_nat count → Z.of_nat (length q) < count → lies buffer front q →
  lies (<[Z.to_nat ((front + Z.of_nat (length q)) mod count) := e]> buffer) front (q ++ [e]).
Proof.
  intros Hb Hq Hl i x Hi. pose proof (slot_range (front + Z.of_nat (length q))).
  destruct (decide (i = length q)) as [->|Hne].
  - rewrite list_lookup_middle in Hi by done. injection Hi as ->. apply list_lookup_insert_eq. lia.
  - assert (i < length q)%nat by (apply lookup_lt_Some in Hi; rewrite length_app in Hi; cbn in Hi; lia).
    rewrite lookup_app_l in Hi by done. rewrite list_lookup_insert_ne; [by apply Hl|].
    pose proof (slot_range (front + Z.of_nat i)).
    pose proof (slots_differ front (Z.of_nat i) (Z.of_nat (length q))). lia.
Qed.

Lemma lies_popped buffer front e q : lies buffer front (e :: q) → lies buffer ((front + 1) mod count) q.
Proof.
  intros Hl i x Hi. specialize (Hl (S i) x Hi). rewrite Zplus_mod_idemp_l.
  by replace (front + 1 + Z.of_nat i) with (front + Z.of_nat (S i)) by lia.
Qed.
End ring.

(** ** Flags *)
Lemma has_lor a b m : has (Z.lor a b) m = has a m || has b m.
Proof.
  unfold has. rewrite Z.land_lor_distr_l. destruct (Z.eqb_spec (Z.land a m) 0) as [->|Ha].
  - by rewrite Z.lor_0_l.
  - destruct (Z.eqb_spec (Z.lor (Z.land a m) (Z.land b m)) 0) as [E|]; [|done].
    apply Z.lor_eq_0_iff in E. tauto.
Qed.

Lemma has_land_false a b m : has a m = false → has (Z.land a b) m = false.
Proof.
  unfold has. rewrite !negb_false_iff, !Z.eqb_eq. intros Ha.
  by rewrite <-Z.land_assoc, (Z.land_comm b), Z.land_assoc, Ha, Z.land_0_l.
Qed.

Section laws.
Context `{EnvironmentLaws} `{Trap} `{RtosEnv} {Hun : Undisturbed} `{Threads} (core : Z).
Notation calling := (calling core).

Definition deque_object (n : list Z) (bits : Z) (d : deque) (l : Z) : object :=
  Object RTOS_DEQUE_MARKER n bits
    (Deque (dq_size d) (dq_count d) (dq_front d) (dq_back d) (dq_waiters d) l (dq_buffer d)).

(** No reset is under way, and no error was ever set. *)
Definition serving_flags (v : Z) : Prop := has v (Z.lor RTOS_DEQUE_RESET osFlagsError) = false.

Record deque_at (id : Z) (d : deque) (v : Z) (o : rtos) : Prop := {
  da_id : id ≠ 0;
  da_object : ∃ n bits, object_at o !! id = Some (deque_object n bits d (dq_lock d));
  da_lock : free_lock (dq_lock d);
  da_waiters : is_u32 (dq_waiters d);
  da_size : 0 <= dq_size d;
  da_events : ∃ n l, eventflags_at (deque_events id) n v l o;
  da_serving : serving_flags v
}.

Lemma da_block id d v o : deque_at id d v o → block_at id RTOS_DEQUE_MARKER o.
Proof. intros [Hid (n & b & Ho) _ _ _ _ _]. split; [done|]. by eexists n, b, _. Qed.

Lemma events_apart id : deque_events id ≠ id.
Proof. unfold deque_events. lia. Qed.

Lemma eventflags_object id n v l id' ob o :
  eventflags_at id n v l o → id' ≠ id → eventflags_at id n v l (with_object id' ob o).
Proof.
  intros [? (nm & b & Ho) ? [] ?] Hne. split; try done. exists nm, b. unfold with_object. rsimp. by rewrite lookup_insert_ne.
Qed.

Lemma wp_get_deque id n bits d l (Q : deque → rtos → Prop) o :
  object_at o !! id = Some (deque_object n bits d l) → Q (d <| dq_lock := l |>) o → wp (get_deque id) Q o.
Proof. intros Ho HQ. unfold get_deque, deque_of. eapply wp_get_opt; [by rewrite Ho|]. done. Qed.

Lemma wp_upd_deque id n bits d l g (Q : unit → rtos → Prop) o :
  object_at o !! id = Some (deque_object n bits d l) →
  Q tt (with_object id (Object RTOS_DEQUE_MARKER n bits (deque_body (g (d <| dq_lock := l |>)))) o) → wp (upd_deque id g) Q o.
Proof.
  intros Ho HQ. unfold upd_deque. wp_step. eapply wp_get_deque; [exact Ho|].
  unfold set_contents, upd_object, get_object. wp_step. wp_step; [exact Ho|]. by apply wp_upd.
Qed.

Lemma deque_lock_get id n bits : ∀ o d l, object_at o !! id = Some (deque_object n bits d l) → get_deque_lock id o = l.
Proof. intros o d l Ho. unfold get_deque_lock, deque_of. by rewrite Ho. Qed.

Lemma deque_lock_set id n bits : ∀ o d l k,
  object_at o !! id = Some (deque_object n bits d l) → set_deque_lock id k o = with_object id (deque_object n bits d k) o.
Proof. intros o d l k Ho. unfold set_deque_lock. by rewrite Ho. Qed.

Lemma wp_lock_deque id n bits d l (Q : Z → rtos → Prop) o :
  object_at o !! id = Some (deque_object n bits d l) → free_lock l →
  Q (o_primask o) (masked (with_object id (deque_object n bits d (take_ticket l)) o)) → wp (lock_deque id) Q o.
Proof. intros Ho Hf HQ. unfold lock_deque. eapply (wp_object_lock id (deque_object n bits)); [apply deque_lock_get|apply deque_lock_set|exact Ho|exact Hf|exact HQ]. Qed.

Lemma wp_unlock_deque id n bits d l primask (Q : unit → rtos → Prop) o :
  object_at o !! id = Some (deque_object n bits d (take_ticket l)) →
  Q tt ((with_object id (deque_object n bits d (released_lock l)) o) <| o_primask := primask |>) → wp (unlock_deque id primask) Q o.
Proof. intros Ho HQ. unfold unlock_deque. eapply (wp_object_unlock id (deque_object n bits)); [apply deque_lock_get|apply deque_lock_set|exact Ho|exact HQ]. Qed.

(** ** A transfer that need not wait *)
Definition resting (d : deque) : deque := d <| dq_lock := released_lock (dq_lock d) |>.

Lemma waiters_back w : is_u32 w → u32 (u32 (w + 1) + -1) = w.
Proof. intros Hw. rewrite u32_add_idemp. replace (w + 1 + -1) with w by lia. by apply u32_small. Qed.

(** The transfer stores [f], [b] and [buf]; the word of the events gets the
    announced flag. *)
Lemma transfer_runs {A} blocked wanted announced fuel id timeout (none a : A) (body : OM A) d v f b buf o :
  calling o → deque_at id d v o → blocked d = false → (∀ w l, blocked (d <| dq_waiters := w |> <| dq_lock := l |>) = blocked d) →
  has announced (Z.lor RTOS_DEQUE_RESET osFlagsError) = false → has announced osFlagsError = false → (1 <= fuel)%nat →
  (∀ w l o1 n bits, object_at o1 !! id = Some (deque_object n bits (d <| dq_waiters := w |>) l) →
     wp body (λ r o2, r = a ∧
       o2 = with_object id (deque_object n bits (d <| dq_waiters := w |> <| dq_front := f |> <| dq_back := b |> <| dq_buffer := buf |>) l) o1) o1) →
  wp (transfer core blocked wanted fuel id timeout announced none body) (λ r o', r = (osOK, a) ∧ calling o' ∧
    deque_at id ((resting d) <| dq_front := f |> <| dq_back := b |> <| dq_buffer := buf |>) (Z.lor v announced) o') o.
Proof.
  intros Hc Hd Hb Hbl Ha Hae Hf Hbody. destruct (da_object _ _ _ _ Hd) as (n & bits & Ho). destruct (da_events _ _ _ _ Hd) as (ne & le & He).
  unfold transfer. apply wp_validated; [done|by eapply da_block|].
  wp_step. eapply wp_mono; [by eapply osEventFlagsGet_reads|]. intros r o1 [-> ->].
  rewrite (da_serving _ _ _ _ Hd). wp_step. unfold add_deque_waiters. eapply wp_upd_deque; [exact Ho|].
  set (w := u32 (dq_waiters d + 1)). set (l := dq_lock d).
  match goal with |- context [with_object id ?ob o] => change ob with (deque_object n bits (d <| dq_waiters := w |>) l) end.
  wp_step. eapply wp_lock_deque; [apply lookup_insert_eq|apply Hd|]. rewrite with_object_twice.
  destruct fuel as [|fuel]; [lia|]. cbn [await_deque]. do 2 wp_step.
  eapply wp_get_deque; [apply lookup_insert_eq|]. rewrite Hbl, Hb. cbn [negb]. wp_step.
  wp_step. eapply wp_mono; [apply (Hbody w (take_ticket l) _ n bits); apply lookup_insert_eq|]. intros r o2 [-> ->].
  wp_step. eapply wp_unlock_deque; [apply lookup_insert_eq|]. rewrite with_object_twice, with_object_masked.
  change (o_primask (with_object id (deque_object n bits (d <| dq_waiters := w |>) l) o)) with (o_primask o).
  rewrite unmask_object by done. wp_step. eapply wp_upd_deque; [apply lookup_insert_eq|]. rewrite with_object_twice.
  match goal with |- context [with_object id ?ob o] =>
    replace ob with (deque_object n bits ((resting d) <| dq_front := f |> <| dq_back := b |> <| dq_buffer := buf |>) (released_lock l)) end.
  2:{ unfold deque_object, deque_body. cbn. unfold over. cbn. do 2 f_equal. symmetry. apply waiters_back, Hd. }
  set (o3 := with_object id _ o). assert (calling o3) as Hc3 by done.
  assert (eventflags_at (deque_events id) ne v le o3) as He3 by (apply eventflags_object; [done|apply not_eq_sym, events_apart]).
  wp_step. eapply wp_mono; [eapply (osEventFlagsSet_sets core _ announced); [done|exact He3|done]|].
  intros r o4 (-> & Hm4 & He4 & _). wp_step.
  assert (has (if negb (Z.land v announced =? announced) then Z.lor v announced else v) osFlagsError = false) as ->.
  { pose proof (da_serving _ _ _ _ Hd) as Hv. assert (has v osFlagsError = false) as Hve.
    { unfold serving_flags, has in Hv. apply negb_false_iff in Hv. apply Z.eqb_eq in Hv.
      rewrite Z.land_lor_distr_r in Hv. apply Z.lor_eq_0_iff in Hv as [_ Hv]. unfold has. by rewrite Hv. }
    destruct (negb _); [|done]. by rewrite has_lor, Hve. }
  split; [done|]. split; [apply Hm4|]. split.
  - apply Hd.
  - exists n, bits. rewrite (mv_objects _ _ _ _ _ Hm4) by set_solver. apply lookup_insert_eq.
  - apply free_released, Hd.
  - apply Hd.
  - apply Hd.
  - by eexists _, _.
  - unfold serving_flags. rewrite has_lor, Ha. rewrite orb_false_r. apply Hd.
Qed.

(** ** A transfer that would have to wait, and may not *)
Definition awaited (wanted : Z) : Z := Z.lor wanted RTOS_DEQUE_RESET.

Lemma serving_error v : serving_flags v → has v osFlagsError = false ∧ has v RTOS_DEQUE_RESET = false.
Proof.
  unfold serving_flags, has. rewrite !negb_false_iff, !Z.eqb_eq, Z.land_lor_distr_r. intros [? ?]%Z.lor_eq_0_iff. done.
Qed.

Lemma serving_land v m : serving_flags v → serving_flags (Z.land v m).
Proof. apply has_land_false. Qed.

(** The deque after a failed wait: the lock is free, the caller off the count,
    the wanted flag possibly cleared. *)
Definition gave_up (id : Z) (n : list Z) (bits : Z) (d : deque) (o' : rtos) : Prop :=
  calling o' ∧ (∃ l, free_lock l ∧ object_at o' !! id = Some (deque_object n bits (d <| dq_waiters := u32 (dq_waiters d + -1) |>) l)) ∧
  ∃ v ne le, eventflags_at (deque_events id) ne v le o' ∧ serving_flags v.

Section blocked.
Context (blocked : deque → bool) (wanted id : Z) (n : list Z) (bits : Z) (d : deque).
Hypothesis Hblocked : ∀ w l, blocked (d <| dq_waiters := w |> <| dq_lock := l |>) = true.
Hypothesis Hwanted : has (awaited wanted) osFlagsError = false ∧ has wanted osFlagsError = false ∧
  has (not32 wanted) wanted = false.

Lemma blocked_lock l : blocked (d <| dq_lock := l |>) = true.
Proof. rewrite <-(Hblocked (dq_waiters d) l). by destruct d. Qed.

(** The locked deque of one turn of the loop. *)
Definition turn (l : Z) (o : rtos) : rtos := masked (with_object id (deque_object n bits d (take_ticket l)) o).

Lemma await_unlocks fuel l (Q : Z + Z → rtos → Prop) o v ne le :
  calling o → eventflags_at (deque_events id) ne v le o → serving_flags v →
  let o1 := with_object id (deque_object n bits d (released_lock l)) o in
  (has v (awaited wanted) = false → gave_up id n bits d
     (with_object id (deque_object n bits (d <| dq_waiters := u32 (dq_waiters d + -1) |>) (released_lock l)) o) →
   Q (inl osErrorResource) (with_object id (deque_object n bits (d <| dq_waiters := u32 (dq_waiters d + -1) |>) (released_lock l)) o)) →
  (has v (awaited wanted) = true → ∀ v', v' = Z.land (Z.land v UINT32_MAX) (not32 wanted) →
     let o2 := stored (eventflags_flags (deque_events id)) v' (stored (eventflags_flags (deque_events id)) (Z.land v UINT32_MAX) o1) in
     wp (state <- lock_deque id ;; await_deque core blocked wanted fuel id 0 state) Q o2) →
  free_lock l →
  wp (await_deque core blocked wanted (S fuel) id 0 (o_primask o)) Q (turn l o).
Proof.
  intros Hc He Hsv o1 Hq1 Hq2 Hl. destruct (serving_error _ Hsv) as [Hve Hvr]. destruct Hwanted as (Hw1 & Hw2 & Hw3).
  cbn [await_deque]. unfold turn. wp_step. eapply wp_get_deque; [apply lookup_insert_eq|]. rewrite blocked_lock. cbn [negb].
  wp_step. eapply wp_unlock_deque; [apply lookup_insert_eq|]. rewrite with_object_masked, unmask_object by done. fold o1.
  assert (eventflags_at (deque_events id) ne v le o1) as He1 by (apply eventflags_object; [done|apply not_eq_sym, events_apart]).
  wp_step. eapply wp_mono; [eapply (osEventFlagsWait_ends core (S fuel)); [done|exact He1|exact Hw1|lia|by right]|].
  change (flags_met _ _ v) with (has v (awaited wanted)). intros r o2 Hr. destruct (has v (awaited wanted)) eqn:Hmet.
  - destruct Hr as [-> ->]. rewrite Hve. unfold taken_flags.
    change (has (Z.lor osFlagsWaitAny osFlagsNoClear) osFlagsNoClear) with true. cbn iota.
    pose proof (eventflags_stored _ _ _ (Z.land v UINT32_MAX) _ _ He1) as He2.
    wp_step. eapply wp_mono; [eapply osEventFlagsClear_clears; [exact He2|exact Hw2]|]. intros r o3 [-> ->].
    assert (has (Z.land v UINT32_MAX) osFlagsError = false ∧ has (Z.land v UINT32_MAX) RTOS_DEQUE_RESET = false) as [-> ->]
      by (split; by apply has_land_false).
    by apply Hq2.
  - destruct Hr as [-> ->]. change (has osFlagsErrorResource osFlagsError) with true. cbn iota.
    wp_step. unfold add_deque_waiters. eapply wp_upd_deque; [apply lookup_insert_eq|]. unfold o1. rewrite with_object_twice.
    wp_step. apply Hq1; [done|]. split; [done|]. split; [eexists; split; [by apply free_released|apply lookup_insert_eq]|].
    eexists _, _, _. split; [apply eventflags_object; [exact He|apply not_eq_sym, events_apart]|done].
Qed.

Lemma await_gives_up fuel l v ne le o :
  calling o → eventflags_at (deque_events id) ne v le o → serving_flags v → free_lock l → (2 <= fuel)%nat →
  wp (await_deque core blocked wanted fuel id 0 (o_primask o)) (λ r o', r = inl osErrorResource ∧ gave_up id n bits d o') (turn l o).
Proof.
  intros Hc He Hsv Hl Hf. destruct fuel as [|[|fuel]]; [lia..|].
  eapply await_unlocks; [exact Hc|exact He|exact Hsv|intros _ ?; done| |exact Hl].
  intros _ v' Hv' o2. set (ef := deque_events id) in *. set (o1 := with_object id _ o) in *.
  assert (eventflags_at ef ne v' le o2) as He2.
  { apply (eventflags_stored _ _ (Z.land v UINT32_MAX)), (eventflags_stored _ _ v).
    apply eventflags_object; [exact He|apply not_eq_sym, events_apart]. }
  assert (calling o2) as Hc2 by (by do 2 apply calling_stored).
  assert (serving_flags v') as Hsv2 by (subst v'; by do 2 apply serving_land).
  wp_step. eapply (wp_lock_deque id n bits d (released_lock l)); [apply lookup_insert_eq|by apply free_released|].
  fold (turn (released_lock l) o2).
  eapply await_unlocks; [exact Hc2|exact He2|exact Hsv2|intros _ ?; done| |by apply free_released].
  intros Hmet. exfalso. subst v'. unfold awaited, has in Hmet. rewrite Z.land_lor_distr_r in Hmet.
  destruct (serving_error _ Hsv2) as [_ Hr2]. destruct Hwanted as (_ & _ & Hw3). unfold has in Hr2, Hw3.
  apply negb_false_iff, Z.eqb_eq in Hr2, Hw3. rewrite Hr2, Z.lor_0_r, <-Z.land_assoc, Hw3, Z.land_0_r in Hmet. done.
Qed.
End blocked.

(** A transfer that may not wait and cannot go on changes nothing that counts. *)
Lemma transfer_refuses {A} blocked wanted announced fuel id (none : A) (body : OM A) d v o :
  calling o → deque_at id d v o → (∀ w l, blocked (d <| dq_waiters := w |> <| dq_lock := l |>) = true) →
  has (awaited wanted) osFlagsError = false → has wanted osFlagsError = false → has (not32 wanted) wanted = false → (2 <= fuel)%nat →
  wp (transfer core blocked wanted fuel id 0 announced none body) (λ r o', r = (osErrorResource, none) ∧ calling o' ∧
    ∃ l v', deque_at id (d <| dq_lock := l |>) v' o') o.
Proof.
  intros Hc Hd Hb W1 W2 W3 Hf. destruct (da_object _ _ _ _ Hd) as (n & bits & Ho). destruct (da_events _ _ _ _ Hd) as (ne & le & He).
  unfold transfer. apply wp_validated; [done|by eapply da_block|].
  wp_step. eapply wp_mono; [by eapply osEventFlagsGet_reads|]. intros r o1 [-> ->].
  rewrite (da_serving _ _ _ _ Hd). wp_step. unfold add_deque_waiters. eapply wp_upd_deque; [exact Ho|].
  set (d1 := d <| dq_waiters := u32 (dq_waiters d + 1) |>).
  match goal with |- context [with_object id ?ob o] => change ob with (deque_object n bits d1 (dq_lock d)) end.
  wp_step. eapply wp_lock_deque; [apply lookup_insert_eq|apply Hd|]. rewrite with_object_twice.
  change (o_primask (with_object id (deque_object n bits d1 (dq_lock d)) o)) with (o_primask o). fold (turn id n bits d1 (dq_lock d) o).
  wp_step. eapply wp_mono; [eapply (await_gives_up blocked wanted id n bits d1); [|done|exact Hc|exact He|apply Hd|apply Hd|done]|].
  { intros w l. by rewrite <-(Hb w l). }
  intros r o2 [-> (Hc2 & (l & Hl & Ho2) & v' & ne' & le' & He2 & Hsv2)]. wp_step. split; [done|]. split; [done|].
  assert (u32 (dq_waiters d1 + -1) = dq_waiters d) as E by apply waiters_back, Hd. rewrite E in Ho2.
  exists l, v'. split; [apply Hd|by eexists n, bits|done|apply Hd|apply Hd|by eexists _, _|done].
Qed.

(** ** The bounded queue between the back and the front *)

(** The deque has [2 ^ k] slots and holds [q], the front first. *)
Record contents_are (k : Z) (q : list (list Z)) (d : deque) : Prop := {
  ca_power : 0 <= k <= 31 ∧ dq_count d = 2 ^ k;
  ca_slots : length (dq_buffer d) = Z.to_nat (2 ^ k);
  ca_front : 0 <= dq_front d < 2 ^ k;
  ca_back : dq_back d = (dq_front d + Z.of_nat (length q)) mod 2 ^ k;
  ca_room : Z.of_nat (length q) < 2 ^ k;
  ca_lies : lies k (dq_buffer d) (dq_front d) q
}.

Lemma full_iff k q d : contents_are k q d → deque_is_full d = (Z.of_nat (length q) =? 2 ^ k - 1).
Proof.
  intros [[Hk Hn] _ Hf Hb Hq _]. pose proof (count_bounds k Hk). unfold deque_is_full.
  rewrite Hn, modulo_pow2, Hb, Zplus_mod_idemp_l by done. destruct (Z.eqb_spec (Z.of_nat (length q)) (2 ^ k - 1)) as [->|Hne].
  - replace (dq_front d + (2 ^ k - 1) + 1) with (dq_front d + 1 * 2 ^ k) by lia.
    rewrite Z_mod_plus_full, Z.mod_small by lia. by rewrite Z.eqb_refl.
  - apply Z.eqb_neq. rewrite <-Z.add_assoc. rewrite <-(Z.mod_small (dq_front d) (2 ^ k)) at 2 by lia.
    rewrite <-(Z.add_0_r (dq_front d)) at 2. apply not_eq_sym, slots_differ; lia.
Qed.

Lemma empty_iff k q d : contents_are k q d → deque_is_empty d = bool_decide (q = []).
Proof.
  intros [[Hk Hn] _ Hf Hb Hq _]. pose proof (count_bounds k Hk). unfold deque_is_empty. rewrite Hb. destruct q as [|e q].
  - rewrite Z.add_0_r, Z.mod_small by lia. apply Z.eqb_refl.
  - cbn [bool_decide decide]. rewrite bool_decide_eq_false_2 by done. apply Z.eqb_neq.
    rewrite <-(Z.mod_small (dq_front d) (2 ^ k)) at 1 by lia. rewrite <-(Z.add_0_r (dq_front d)) at 1.
    apply slots_differ; cbn [length] in *; lia.
Qed.

Lemma contents_lock k q d w l : contents_are k q d → contents_are k q (d <| dq_waiters := w |> <| dq_lock := l |>).
Proof. intros []. by split. Qed.

(** A deque of elements of [sz] bytes that holds [q]. *)
Definition deque_holds (id k sz : Z) (q : list (list Z)) (o : rtos) : Prop :=
  ∃ d v, deque_at id d v o ∧ dq_size d = sz ∧ contents_are k q d ∧ Forall (λ e, length e = Z.to_nat sz) (dq_buffer d).

Lemma wp_deque_put id n bits d l e pos (Q : unit → rtos → Prop) o :
  object_at o !! id = Some (deque_object n bits d l) → 0 <= dq_size d <= Z.of_nat (length e) →
  (Z.to_nat pos < length (dq_buffer d))%nat →
  Q tt (with_object id (deque_object n bits (d <| dq_buffer := <[Z.to_nat pos := take (Z.to_nat (dq_size d)) e]> (dq_buffer d) |>) l) o) →
  wp (deque_put id e pos) Q o.
Proof.
  intros Ho He Hp HQ. unfold deque_put, copy_bytes. wp_step. eapply wp_get_deque; [exact Ho|]. wp_step. cbn [dq_size over].
  change (dq_size (d <| dq_lock := l |>)) with (dq_size d). rewrite (proj2 (Z.ltb_ge _ _)) by lia. wp_step.
  change (dq_buffer (d <| dq_lock := l |>)) with (dq_buffer d). rewrite (proj2 (Nat.ltb_lt _ _)) by done. cbn [negb].
  eapply wp_upd_deque; [exact Ho|]. exact HQ.
Qed.

Lemma wp_deque_get id n bits d l pos e (Q : list Z → rtos → Prop) o :
  object_at o !! id = Some (deque_object n bits d l) → dq_buffer d !! Z.to_nat pos = Some e → Q e o → wp (deque_get id pos) Q o.
Proof. intros Ho He HQ. unfold deque_get. eapply wp_get_opt; [|exact HQ]. unfold deque_of. rewrite Ho. exact He. Qed.

Lemma back_slot k q d : contents_are k q d → (Z.to_nat (dq_back d) < length (dq_buffer d))%nat.
Proof. intros [[Hk _] Hs _ Hb _ _]. pose proof (slot_range k Hk (dq_front d + Z.of_nat (length q))). rewrite Hs, Hb. lia. Qed.

Lemma osDequePutBack_appends fuel id k sz q e timeout o :
  calling o → deque_holds id k sz q o → Z.of_nat (length q) < 2 ^ k - 1 → sz <= Z.of_nat (length e) → (1 <= fuel)%nat →
  wp (osDequePutBack core fuel id (Some e) timeout) (λ r o', r = osOK ∧ calling o' ∧
    deque_holds id k sz (q ++ [take (Z.to_nat sz) e]) o') o.
Proof.
  intros Hc (d & v & Hd & Hsz & Hh & Hbuf) Hq He Hf. pose proof Hh as [[Hk Hn] Hs Hfr Hb Hr Hl].
  pose proof (count_bounds k Hk). pose proof (back_slot _ _ _ Hh) as Hbs. pose proof (da_size _ _ _ _ Hd).
  set (x := take (Z.to_nat sz) e). assert (length x = Z.to_nat sz) as Hx by (unfold x; rewrite length_take; lia).
  unfold osDequePutBack, put_element. wp_step.
  eapply wp_mono; [eapply (transfer_runs _ _ RTOS_DEQUE_DATA_AVAILABLE _ _ _ _ tt _ d v (dq_front d)
    ((dq_back d + 1) mod 2 ^ k) (<[Z.to_nat (dq_back d) := x]> (dq_buffer d)));
    [done|done| |done|done|done|done|]|].
  - rewrite (full_iff _ _ _ Hh). lia.
  - intros w l o1 n bits Ho1. wp_step. eapply wp_get_deque; [exact Ho1|]. wp_step.
    eapply wp_deque_put; [exact Ho1|change (0 <= dq_size d <= Z.of_nat (length e)); lia|exact Hbs|].
    eapply wp_upd_deque; [apply lookup_insert_eq|]. rewrite with_object_twice. split; [done|].
    unfold deque_inc, deque_object, deque_body. cbn. unfold over. cbn. rewrite Hn, modulo_pow2 by done. unfold x. by rewrite <-Hsz.
  - intros r o' (-> & Hc' & Hd'). wp_step. split; [done|]. split; [done|]. eexists _, _. split; [exact Hd'|].
    split; [done|]. split; [|by apply Forall_insert].
    split; try done.
    + change (length (<[Z.to_nat (dq_back d) := x]> (dq_buffer d)) = Z.to_nat (2 ^ k)). by rewrite length_insert.
    + change ((dq_back d + 1) mod 2 ^ k = (dq_front d + Z.of_nat (length (q ++ [x]))) mod 2 ^ k).
      rewrite Hb, Zplus_mod_idemp_l, length_app. cbn [length]. f_equal. lia.
    + rewrite length_app. cbn [length]. lia.
    + change (lies k (<[Z.to_nat (dq_back d) := x]> (dq_buffer d)) (dq_front d) (q ++ [x])). rewrite Hb. by apply lies_pushed.
Qed.

Lemma osDequeGetFront_takes fuel id k sz e q timeout o :
  calling o → deque_holds id k sz (e :: q) o → (1 <= fuel)%nat →
  wp (osDequeGetFront core fuel id true timeout) (λ r o', r = (osOK, Some e) ∧ calling o' ∧ deque_holds id k sz q o') o.
Proof.
  intros Hc (d & v & Hd & Hsz & Hh & Hbuf) Hf. pose proof Hh as [[Hk Hn] Hs Hfr Hb Hr Hl]. pose proof (count_bounds k Hk).
  assert (dq_buffer d !! Z.to_nat (dq_front d) = Some e) as He.
  { pose proof (Hl 0%nat e eq_refl) as He. by rewrite Z.add_0_r, Z.mod_small in He by lia. }
  unfold osDequeGetFront, get_element. cbn [negb].
  eapply wp_mono; [eapply (transfer_runs _ _ RTOS_DEQUE_SPACE_AVAILABLE _ _ _ _ (Some e) _ d v ((dq_front d + 1) mod 2 ^ k)
    (dq_back d) (dq_buffer d)); [done|done| |done|done|done|done|]|].
  - by rewrite (empty_iff _ _ _ Hh).
  - intros w l o1 n bits Ho1. do 2 wp_step. eapply wp_get_deque; [exact Ho1|]. wp_step.
    eapply wp_deque_get; [exact Ho1|exact He|]. wp_step. eapply wp_upd_deque; [exact Ho1|]. do 2 wp_step. split; [done|].
    unfold deque_inc, deque_object, deque_body. cbn. unfold over. cbn. by rewrite Hn, modulo_pow2.
  - intros r o' (-> & Hc' & Hd'). split; [done|]. split; [done|]. eexists _, _. split; [exact Hd'|]. split; [done|].
    split; [|done]. split; try done.
    + apply (slot_range k Hk).
    + change (dq_back d = ((dq_front d + 1) mod 2 ^ k + Z.of_nat (length q)) mod 2 ^ k).
      rewrite Hb, Zplus_mod_idemp_l. f_equal. cbn [length]. lia.
    + cbn [length] in Hr. lia.
    + by apply (lies_popped k _ _ e).
Qed.

Lemma deque_holds_lock id k sz q d v l o :
  deque_at id (d <| dq_lock := l |>) v o → dq_size d = sz → contents_are k q d →
  Forall (λ e, length e = Z.to_nat sz) (dq_buffer d) → deque_holds id k sz q o.
Proof. intros Hd Hsz Hh Hb. eexists _, v. split; [exact Hd|]. split; [done|]. split; [|done]. by destruct Hh. Qed.

Lemma osDequePutBack_full fuel id k sz q e o :
  calling o → deque_holds id k sz q o → Z.of_nat (length q) = 2 ^ k - 1 → (2 <= fuel)%nat →
  wp (osDequePutBack core fuel id (Some e) 0) (λ r o', r = osErrorResource ∧ calling o' ∧ deque_holds id k sz q o') o.
Proof.
  intros Hc (d & v & Hd & Hsz & Hh & Hbuf) Hq Hf. unfold osDequePutBack, put_element. wp_step.
  eapply wp_mono; [eapply transfer_refuses; [done|exact Hd| |done|done|done|done]|].
  - intros w l. rewrite (full_iff k q); [lia|by apply contents_lock].
  - intros r o' (-> & Hc' & l & v' & Hd'). wp_step. split; [done|]. split; [done|]. by eapply deque_holds_lock.
Qed.

Lemma osDequeGetFront_empty fuel id k sz o :
  calling o → deque_holds id k sz [] o → (2 <= fuel)%nat →
  wp (osDequeGetFront core fuel id true 0) (λ r o', r = (osErrorResource, None) ∧ calling o' ∧ deque_holds id k sz [] o') o.
Proof.
  intros Hc (d & v & Hd & Hsz & Hh & Hbuf) Hf. unfold osDequeGetFront, get_element. cbn [negb].
  eapply wp_mono; [eapply transfer_refuses; [done|exact Hd| |done|done|done|done]|].
  - intros w l. rewrite (empty_iff k []); [done|by apply contents_lock].
  - intros r o' (-> & Hc' & l & v' & Hd'). split; [done|]. split; [done|]. by eapply deque_holds_lock.
Qed.

(** ** The other two ends *)

(** A put at the front does not move the front: it overwrites the first element,
    and an element put into an empty deque is not there afterwards. *)
Lemma osDequePutFront_overwrites fuel id k sz q e timeout o :
  calling o → deque_holds id k sz q o → Z.of_nat (length q) < 2 ^ k - 1 → sz <= Z.of_nat (length e) → (1 <= fuel)%nat →
  wp (osDequePutFront core fuel id (Some e) timeout) (λ r o', r = osOK ∧ calling o' ∧
    deque_holds id k sz (<[0%nat := take (Z.to_nat sz) e]> q) o') o.
Proof.
  intros Hc (d & v & Hd & Hsz & Hh & Hbuf) Hq He Hf. pose proof Hh as [[Hk Hn] Hs Hfr Hb Hr Hl].
  pose proof (count_bounds k Hk). pose proof (da_size _ _ _ _ Hd).
  set (x := take (Z.to_nat sz) e). assert (length x = Z.to_nat sz) as Hx by (unfold x; rewrite length_take; lia).
  unfold osDequePutFront, put_element. wp_step.
  eapply wp_mono; [eapply (transfer_runs _ _ RTOS_DEQUE_DATA_AVAILABLE _ _ _ _ tt _ d v (dq_front d)
    (dq_back d) (<[Z.to_nat (dq_front d) := x]> (dq_buffer d)));
    [done|done| |done|done|done|done|]|].
  - rewrite (full_iff _ _ _ Hh). lia.
  - intros w l o1 n bits Ho1. wp_step. eapply wp_upd_deque; [exact Ho1|].
    assert ((dq_front d - 1 + 1) mod 2 ^ k = dq_front d) as E by (replace (dq_front d - 1 + 1) with (dq_front d) by lia; by apply Z.mod_small).
    match goal with |- context [with_object id ?ob o1] =>
      replace ob with (deque_object n bits (d <| dq_waiters := w |>) l)
        by (unfold deque_object, deque_body, deque_dec; cbn; unfold over; cbn; by rewrite Hn, modulo_pow2, E) end.
    wp_step. eapply wp_get_deque; [apply lookup_insert_eq|].
    eapply wp_deque_put; [apply lookup_insert_eq|change (0 <= dq_size d <= Z.of_nat (length e)); lia| |].
    { change (Z.to_nat (dq_front d) < length (dq_buffer d))%nat. lia. }
    rewrite with_object_twice. split; [done|]. unfold x. rewrite <-Hsz. done.
  - intros r o' (-> & Hc' & Hd'). wp_step. split; [done|]. split; [done|]. eexists _, _. split; [exact Hd'|].
    split; [done|]. split; [|by apply Forall_insert].
    split; try done; try (by rewrite length_insert).
    + change (length (<[Z.to_nat (dq_front d) := x]> (dq_buffer d)) = Z.to_nat (2 ^ k)). by rewrite length_insert.
    + intros i y Hi. change (<[Z.to_nat (dq_front d) := x]> (dq_buffer d) !! Z.to_nat ((dq_front d + Z.of_nat i) mod 2 ^ k) = Some y).
      destruct (decide (i = 0%nat)) as [->|Hne].
      * rewrite Z.add_0_r, Z.mod_small by lia. rewrite list_lookup_insert_eq by lia.
        destruct q; [done|]. by injection Hi as ->.
      * rewrite list_lookup_insert_ne in Hi by done. pose proof (lookup_lt_Some _ _ _ Hi).
        rewrite list_lookup_insert_ne; [by apply Hl|]. pose proof (slot_range k Hk (dq_front d + Z.of_nat i)).
        pose proof (slots_differ k Hk (dq_front d) 0 (Z.of_nat i)) as Hdif. rewrite Z.add_0_r, (Z.mod_small (dq_front d)) in Hdif by lia. lia.
Qed.

(** A take at the back moves the back the wrong way: the element answered is
    from the slot after the next, and the deque holds one more, the slot behind
    its last element. *)
Lemma osDequeGetBack_grows fuel id k sz q timeout o :
  calling o → deque_holds id k sz q o → q ≠ [] → Z.of_nat (length q) < 2 ^ k - 1 → (1 <= fuel)%nat →
  wp (osDequeGetBack core fuel id true timeout) (λ r o', ∃ e next, r = (osOK, Some e) ∧ calling o' ∧
    deque_holds id k sz (q ++ [next]) o') o.
Proof.
  intros Hc (d & v & Hd & Hsz & Hh & Hbuf) Hne Hq Hf. pose proof Hh as [[Hk Hn] Hs Hfr Hb Hr Hl].
  pose proof (count_bounds k Hk). pose proof (back_slot _ _ _ Hh) as Hbs. pose proof (slot_range k Hk (dq_back d + 1)).
  destruct (lookup_lt_is_Some_2 (dq_buffer d) (Z.to_nat (dq_back d)) Hbs) as [next Hnext].
  destruct (lookup_lt_is_Some_2 (dq_buffer d) (Z.to_nat ((dq_back d + 1) mod 2 ^ k)) ltac:(lia)) as [e He].
  unfold osDequeGetBack, get_element. cbn [negb].
  eapply wp_mono; [eapply (transfer_runs _ _ RTOS_DEQUE_SPACE_AVAILABLE _ _ _ _ (Some e) _ d v (dq_front d)
    ((dq_back d + 1) mod 2 ^ k) (dq_buffer d)); [done|done| |done|done|done|done|]|].
  - rewrite (empty_iff _ _ _ Hh). by apply bool_decide_eq_false_2.
  - intros w l o1 n bits Ho1. do 2 wp_step. eapply wp_get_deque; [exact Ho1|]. wp_step.
    eapply wp_deque_get; [exact Ho1|exact Hnext|]. wp_step. eapply wp_upd_deque; [exact Ho1|].
    match goal with |- context [with_object id ?ob o1] =>
      replace ob with (deque_object n bits (d <| dq_waiters := w |> <| dq_back := (dq_back d + 1) mod 2 ^ k |>) l)
        by (unfold deque_object, deque_body, deque_dec; cbn; unfold over; cbn; by rewrite Hn, modulo_pow2) end.
    wp_step. eapply wp_get_deque; [apply lookup_insert_eq|]. eapply wp_deque_get; [apply lookup_insert_eq|exact He|].
    wp_step. done.
  - intros r o' (-> & Hc' & Hd'). exists e, next. split; [done|]. split; [done|]. eexists _, _. split; [exact Hd'|].
    split; [done|]. split; [|done].
    split; try done.
    + change ((dq_back d + 1) mod 2 ^ k = (dq_front d + Z.of_nat (length (q ++ [next]))) mod 2 ^ k).
      rewrite Hb, Zplus_mod_idemp_l, length_app. cbn [length]. f_equal. lia.
    + rewrite length_app. cbn [length]. lia.
    + intros i y Hi. change (dq_buffer d !! Z.to_nat ((dq_front d + Z.of_nat i) mod 2 ^ k) = Some y).
      destruct (decide (i = length q)) as [->|Hni].
      * rewrite list_lookup_middle in Hi by done. injection Hi as <-. by rewrite <-Hb.
      * assert (i < length q)%nat by (apply lookup_lt_Some in Hi; rewrite length_app in Hi; cbn in Hi; lia).
        rewrite lookup_app_l in Hi by done. by apply Hl.
Qed.

(** ** Refinement *)
Inductive deque_op := DPut (e : list Z) | DGet.

Definition bounded_step (k sz : Z) (op : deque_op) (q : list (list Z)) : (Z * option (list Z)) * list (list Z) :=
  match op with
  | DPut e => if Z.of_nat (length q) <? 2 ^ k - 1 then ((osOK, None), q ++ [take (Z.to_nat sz) e]) else ((osErrorResource, None), q)
  | DGet => match q with [] => ((osErrorResource, None), []) | e :: q' => ((osOK, Some e), q') end
  end.
Fixpoint bounded_run (k sz : Z) (ops : list deque_op) (q : list (list Z)) : list (Z * option (list Z)) * list (list Z) :=
  match ops with
  | [] => ([], q)
  | op :: ops' => let r := bounded_step k sz op q in let rs := bounded_run k sz ops' r.2 in (r.1 :: rs.1, rs.2)
  end.

Definition deque_step (id : Z) (op : deque_op) : OM (Z * option (list Z)) :=
  match op with
  | DPut e => status <- osDequePutBack core 2 id (Some e) 0 ;; ret (status, None)
  | DGet => osDequeGetFront core 2 id true 0
  end.
Fixpoint deque_run (id : Z) (ops : list deque_op) : OM (list (Z * option (list Z))) :=
  match ops with [] => ret [] | op :: ops' => r <- deque_step id op ;; rs <- deque_run id ops' ;; ret (r :: rs) end.

Definition elements_fit (sz : Z) (op : deque_op) : Prop :=
  match op with DPut e => sz <= Z.of_nat (length e) | DGet => True end.

Lemma deque_step_refines id k sz op q o :
  calling o → deque_holds id k sz q o → elements_fit sz op →
  wp (deque_step id op) (λ r o', r = (bounded_step k sz op q).1 ∧ calling o' ∧ deque_holds id k sz (bounded_step k sz op q).2 o') o.
Proof.
  intros Hc Hd He. assert (Z.of_nat (length q) < 2 ^ k) as Hr by (destruct Hd as (d & v & _ & _ & Hh & _); apply Hh).
  destruct op as [e|]; cbn [deque_step bounded_step].
  - wp_step. destruct (Z.ltb_spec (Z.of_nat (length q)) (2 ^ k - 1)).
    + eapply wp_mono; [eapply osDequePutBack_appends; [done|exact Hd|done|done|lia]|]. intros r o' (-> & ? & ?). by wp_step.
    + eapply wp_mono; [eapply osDequePutBack_full; [done|exact Hd|lia|lia]|]. intros r o' (-> & ? & ?). by wp_step.
  - destruct q as [|e q].
    + eapply wp_mono; [eapply osDequeGetFront_empty; [done|exact Hd|lia]|]. intros r o' (-> & ? & ?). done.
    + eapply wp_mono; [eapply osDequeGetFront_takes; [done|exact Hd|lia]|]. intros r o' (-> & ? & ?). done.
Qed.

Lemma deque_run_refines id k sz ops : ∀ q o,
  calling o → deque_holds id k sz q o → Forall (elements_fit sz) ops →
  wp (deque_run id ops) (λ rs o', rs = (bounded_run k sz ops q).1 ∧ deque_holds id k sz (bounded_run k sz ops q).2 o') o.
Proof.
  induction ops as [|op ops IH]; intros q o Hc Hd Hf; cbn [deque_run bounded_run]; [by wp_step|].
  apply Forall_cons in Hf as [Hf Hfs]. wp_step. eapply wp_mono; [by apply deque_step_refines|].
  intros r o' (-> & Hc' & Hd'). wp_step. eapply wp_mono; [by apply IH|]. intros rs o2 [-> Hd2]. by wp_step.
Qed.
End laws.
