(* ===== verification/TimerLaws.v ===== *)
(** * Timers: laws

    The running timers are kept in the order of their targets.  Starting a
    timer that runs already links its node a second time. *)
From S2P Require Import Prelude Spinlock Scheduler SchedulerSvc SchedulerApi SchedulerInv SchedulerSafe SchedulerWake SchedulerHandlers SchedulerSystem SchedulerCalls WakeLaws Rtos Kernel RtosLaws KernelLaws Semaphore MemoryPool MessageQueue EventFlags Thread Timer.

Section laws.
Context `{EnvironmentLaws} `{Trap} `{RtosEnv} {Hun : Undisturbed} `{RtosImage} `{ThreadImage} `{TimerImage} (core : Z).
Notation calling := (calling core).

Definition timer_object (n : list Z) (bits : Z) (tm : timer) : object :=
  Object RTOS_TIMER_MARKER n bits (Timer (tm_type tm) (tm_func tm) (tm_argument tm) (tm_ticks tm) (tm_target tm)).

(** The timers of [l] run, the next to expire first. *)
Record timers_at (l : list Z) (o : rtos) : Prop := {
  ta_calling : calling o;
  ta_active : active_timers o = l;
  ta_sorted : NoDup l ∧ sorted_by (target_of o) l;
  ta_lock : free_lock (active_timers_lock o)
}.

Record timer_at (id : Z) (tm : timer) (o : rtos) : Prop := {
  tr_id : id ≠ 0;
  tr_object : ∃ n bits, object_at o !! id = Some (timer_object n bits tm)
}.

Lemma tr_block id tm o : timer_at id tm o → block_at id RTOS_TIMER_MARKER o.
Proof. intros [Hid (n & b & Ho)]. split; [done|]. by eexists n, b, _. Qed.

Lemma wp_timers_locked {A} (body : OM A) (Q : A → rtos → Prop) o :
  free_lock (active_timers_lock o) →
  wp body (λ r o2, ∃ o3, o2 = masked (o3 <| active_timers_lock := take_ticket (active_timers_lock o) |>) ∧ o_primask o3 = o_primask o ∧
     Q r (o3 <| active_timers_lock := released_lock (active_timers_lock o) |>))
    (masked (o <| active_timers_lock := take_ticket (active_timers_lock o) |>)) →
  wp (locked get_timers_lock set_timers_lock body) Q o.
Proof.
  intros Hf Hb. apply wp_locked; [done..|]. eapply wp_mono; [exact Hb|]. intros r o2 (o3 & -> & Hp & HQ).
  unfold set_timers_lock, get_timers_lock, masked. rsimp.
  match goal with |- Q r ?o' => replace o' with (o3 <| active_timers_lock := released_lock (active_timers_lock o) |>); [done|] end.
  unfold released_lock. rewrite <-Hp. by destruct o3.
Qed.

Lemma locked_fault {A} (body : OM A) e o :
  free_lock (get_timers_lock o) → body (masked (set_timers_lock (take_ticket (get_timers_lock o)) o)) = Fault e →
  locked get_timers_lock set_timers_lock body o = Fault e.
Proof.
  intros Hf Hb. unfold locked, spin_lock_irqsave, spin_lock, bind, gets, upd, ret.
  set (o1 := masked _) in Hb. change (set_timers_lock _ _) with o1.
  change (get_timers_lock o1) with (take_ticket (get_timers_lock o)).
  change (next_ticket (get_timers_lock (o <| o_primask := 1 |>))) with (next_ticket (get_timers_lock o)).
  rewrite (free_take _ Hf), Z.eqb_refl. cbn [negb]. by rewrite Hb.
Qed.

Lemma wp_set_timing id n bits tm k t (Q : unit → rtos → Prop) o :
  object_at o !! id = Some (timer_object n bits tm) →
  Q tt (with_object id (timer_object n bits (TimerFields (tm_type tm) (tm_func tm) (tm_argument tm) k t)) o) →
  wp (set_timing id k t) Q o.
Proof.
  intros Ho HQ. unfold set_timing. wp_step. unfold get_timer. eapply wp_get_opt.
  { unfold timer_of. rewrite Ho. cbn. reflexivity. }
  unfold set_contents, upd_object, get_object. wp_step. wp_step; [exact Ho|]. by apply wp_upd.
Qed.

Lemma target_with id n bits tm o x :
  target_of (with_object id (timer_object n bits tm) o) x = if decide (x = id) then tm_target tm else target_of o x.
Proof.
  unfold target_of, timer_of, with_object. rsimp. case_decide as E.
  - subst. by rewrite lookup_insert_eq.
  - by rewrite lookup_insert_ne.
Qed.

Lemma osTimerStart_starts fuel id tm n l o :
  timers_at l o → timer_at id tm o → word_of o timer_thread_init = Some 2 → 0 < n < osWaitForever → id ∉ l →
  wp (osTimerStart core fuel id n) (λ r o', r = osOK ∧ timers_at (active_timers o') o' ∧
    target_of o' id = u32 (scheduler_get_ticks (o_sched o) + n) ∧
    ∃ l1 l2, l = l1 ++ l2 ∧ active_timers o' = l1 ++ id :: l2 ∧
      (∀ x, x ∈ l1 → target_of o x <= target_of o' id) ∧ (∀ x, x ∈ l2 → target_of o' id < target_of o x)) o.
Proof.
  intros [Hc Ha [Hnd Hso] Hl] Ht Hw Hn Hid. destruct (tr_object _ _ _ Ht) as (nm & bits & Ho).
  unfold osTimerStart. rewrite (proj2 (Z.eqb_neq n 0)), (proj2 (Z.eqb_neq n osWaitForever)) by lia. cbn [orb].
  apply wp_validated; [done|by eapply tr_block|]. wp_step. eapply wp_mono; [by apply osCallOnce_done|]. intros [] o1 ->.
  unfold osKernelGetTickCount. wp_step. wp_step. set (target := u32 (scheduler_get_ticks (o_sched o) + n)).
  wp_step. eapply wp_set_timing; [exact Ho|]. set (tm' := TimerFields _ _ _ n target). set (o1 := with_object id _ o).
  assert (∀ x, target_of o1 x = if decide (x = id) then target else target_of o x) as Ht1 by apply target_with.
  wp_step. apply wp_timers_locked; [exact Hl|]. unfold insert_timer. do 2 wp_step.
  set (o2 := masked _). assert (timer_linked id o2 = false) as ->.
  { apply bool_decide_eq_false_2. change (active_timers o2) with (active_timers o). by rewrite Ha. }
  cbn [when]. do 2 wp_step. wp_step.
  set (o3 := o1 <| active_timers := place (λ t, target <? target_of o t) id l |>).
  exists o3. split.
  { assert (place (λ t, target_of o2 id <? target_of o2 t) id (active_timers o) = place (λ t, target <? target_of o t) id l) as E.
    { rewrite Ha. apply place_key. intros t Hin. change (target_of o2) with (target_of o1).
      rewrite !Ht1, decide_True, decide_False by (done || by intros ->). done. }
    unfold o3. rewrite <-E. done. }
  split; [done|]. wp_step. split; [done|].
  assert (∀ x, x ∈ l → target_of o1 x = target_of o x) as Hto by (intros x Hx; rewrite Ht1, decide_False by (by intros ->); done).
  assert (target_of o1 id = target) as Hti by (by rewrite Ht1, decide_True).
  set (key := λ x, if decide (x = id) then target else target_of o x).
  assert (sorted_by key l) as Hsk by (eapply sorted_by_ext; [|exact Hso]; intros x Hx; unfold key; rewrite decide_False by (by intros ->); done).
  assert (place (λ t, target <? target_of o t) id l = place (λ t, key id <? key t) id l) as Hpl.
  { apply place_key. intros t Hin. unfold key. rewrite decide_True, decide_False by (done || by intros ->). done. }
  split; [|split; [exact Hti|]].
  - split; [apply Hc|done| |by apply free_released]. unfold o3. rsimp. rewrite Hpl. split; [by apply NoDup_place|].
    eapply sorted_by_ext; [|by apply place_sorted]. intros x _. symmetry. apply Ht1.
  - destruct (place_sorted_split key id l Hsk) as (l1 & l2 & E & Hp & H1' & H2'). exists l1, l2.
    change (target_of _ id) with (target_of o1 id). rewrite Hti.
    assert (∀ x, x ∈ l → key x = target_of o x) as Hkx by (intros x Hx; unfold key; by rewrite decide_False by (by intros ->)).
    assert (key id = target) as Hki by (unfold key; by rewrite decide_True).
    split; [done|]. split; [unfold o3; rsimp; by rewrite Hpl|]. rewrite <-Hki.
    split; intros x Hx; (rewrite <-Hkx by (rewrite E; apply elem_of_app; auto)); auto.
Qed.

(** A timer that runs is linked in the ring: linking it again tears the ring. *)
Lemma osTimerStart_running fuel id tm n l o :
  timers_at l o → timer_at id tm o → word_of o timer_thread_init = Some 2 → 0 < n < osWaitForever → id ∈ l →
  osTimerStart core fuel id n o = Fault RingCorrupted.
Proof.
  intros [Hc Ha _ Hl] Ht Hw Hn Hid. destruct (tr_object _ _ _ Ht) as (nm & bits & Ho).
  unfold osTimerStart. rewrite (proj2 (Z.eqb_neq n 0)), (proj2 (Z.eqb_neq n osWaitForever)) by lia. cbn [orb].
  unfold validated. apply bind_fault, wp_context; [done|]. change (osOK =? osOK) with true. cbn [negb].
  apply bind_fault, wp_resource; [by eapply tr_block|]. change (osOK =? osOK) with true. cbn [negb].
  apply bind_fault. eapply wp_mono; [by apply osCallOnce_done|]. intros [] o1 ->.
  unfold osKernelGetTickCount. apply bind_fault, wp_gets. apply bind_fault. eapply wp_set_timing; [exact Ho|].
  set (o1 := with_object id _ o). unfold bind at 1. erewrite locked_fault; [done|exact Hl|].
  unfold insert_timer. apply bind_fault, wp_gets. assert (timer_linked id (masked (set_timers_lock (take_ticket (get_timers_lock o1)) o1)) = true) as ->.
  { apply bool_decide_eq_true_2. change (active_timers _) with (active_timers o). by rewrite Ha. }
  done.
Qed.

Lemma osTimerStop_stops id tm l o :
  timers_at l o → timer_at id tm o →
  wp (osTimerStop core id) (λ r o', r = (if bool_decide (id ∈ l) then osOK else osErrorResource) ∧
    timers_at (without id l) o' ∧ ∀ x, target_of o' x = target_of o x) o.
Proof.
  intros [Hc Ha [Hnd Hso] Hl] Ht. unfold osTimerStop. apply wp_validated; [done|by eapply tr_block|].
  do 2 wp_step. unfold timer_linked. rewrite Ha. case_bool_decide as Hin; cbn [negb].
  - wp_step. apply wp_timers_locked; [exact Hl|]. unfold unlink_timer. wp_step. exists (o <| active_timers ::= without id |>).
    split; [done|]. split; [done|]. wp_step. split; [done|]. split; [|done]. split; [done|rsimp; by rewrite Ha| |by apply free_released].
    split; [by apply NoDup_without|]. eapply sorted_by_sublist; [apply without_sublist|done].
  - wp_step. split; [done|]. split; [|done]. rewrite without_id by done. by split.
Qed.

(** The hook leaves timers alone that are not due, and all of them on the
    second core. *)
Lemma scheduler_tick_hook_idle fuel now l o :
  timers_at l o → (∀ x, x ∈ l → ∃ tm, timer_of o x = Some tm) → (core ≠ 0 ∨ (∀ x, x ∈ l → now < target_of o x)) → (1 <= fuel)%nat →
  wp (scheduler_tick_hook core fuel now) (λ _ o', o' = o) o.
Proof.
  intros [Hc Ha _ _] Htm Hn Hf. unfold scheduler_tick_hook. destruct (Z.eqb_spec core 0) as [->|Hcore]; cbn [negb]; [|by wp_step].
  destruct Hn as [?|Hn]; [done|]. destruct fuel as [|fuel]; [lia|]. cbn [expire_active]. do 2 wp_step. rewrite Ha.
  destruct l as [|x l]; [by wp_step|]. destruct (Htm x ltac:(set_solver)) as [tm Hx].
  wp_step. unfold get_timer. eapply wp_get_opt; [exact Hx|]. specialize (Hn x ltac:(set_solver)). unfold target_of in Hn. rewrite Hx in Hn.
  cbn in Hn. rewrite (proj2 (Z.ltb_lt _ _)) by done. by wp_step.
Qed.
End laws.
