(* ===== verification/RtosSample.v ===== *)
(** * The RTOS layer: a sample system

    Instances of the classes the RTOS layer leaves open, and a running kernel
    with an object of every kind, on which the theorems of [RtosClaims] are
    run. *)
From S2P Require Import Prelude Spinlock Scheduler SchedulerSvc SchedulerApi SchedulerInv SchedulerSafe SchedulerCheck SchedulerHandlers SchedulerSwitch SchedulerSystem SchedulerCalls WakeLaws SchedulerSample Rtos Kernel Semaphore MemoryPool MessageQueue EventFlags Thread Mutex Reaper Timer Deque RtosLaws KernelLaws SemaphoreLaws MemoryPoolLaws MessageQueueLaws EventFlagsLaws MutexLaws ReaperLaws DequeLaws TimerLaws.

(** An allocator without memory; no other task runs. *)
#[export] Instance sample_rtos_env : RtosEnv := {|
  NVIC_GetPriority _ := 64;
  rtos2_alloc _ := ret 0;
  rtos2_release _ := ret tt;
  others_ran := ret tt
|}.

#[export] Instance sample_image : RtosImage := {|
  kernel_scheduler := 50;
  tls_size := 16;
  futex_slot _ := ret 9500;
  timer_thread_init := 90;
  reaper_thread_init := 94;
  sys_tick_load := 124999;
  sys_tick_val _ := 0;
  SystemCoreClock := 125000000
|}.

#[export] Instance sample_thread_image : ThreadImage := {|
  osSchedulerTaskEntryPoint_at := 60;
  osSchedulerTaskExitHandler_at := 62;
  osThreadReaper_at := 64;
  run_function _ _ := ret tt;
  rtos2_thread_stack_overflow _ := ret tt
|}.

#[export] Instance sample_timer_image : TimerImage := {|
  osTimerThread_at := 66;
  osTimerQueue_name := [];
  osTimerThread_name := []
|}.

#[export] Instance sample_exit : Threads := {| osThreadExit := fail Aborted |}.

Lemma sample_undisturbed : @Undisturbed sample_trap sample_rtos_env.
Proof. by split. Qed.

(** ** The scheduler's part

    The thread at 3000 runs as task 100 on core 0 and owns the mutexes at 6100,
    which 400 waits for, and 6200.  Tasks 200 and 300 wait for the semaphore at
    1000, 500 for the event flags at 5000. *)
Definition rt_task (psp : Z) (st : task_state) (core prio context : Z) (owned : list Z) (q : option queue_id) : task :=
  Task psp 0 0 st core UINT32_MAX prio prio UINT32_MAX owned q context 0 0 SCHEDULER_TASK_MARKER.

Definition rt_tasks : gmap Z task :=
  list_to_map [
    (100, rt_task 0 TASK_RUNNING 0 10 3000 [6140] None);
    (200, rt_task 1200 TASK_BLOCKED UINT32_MAX 20 0 [] (Some (waiters 1040)));
    (300, rt_task 1300 TASK_BLOCKED UINT32_MAX 30 0 [] (Some (waiters 1040)));
    (400, rt_task 1400 TASK_BLOCKED UINT32_MAX 30 0 [] (Some (waiters 6140)));
    (500, rt_task 1500 TASK_BLOCKED UINT32_MAX 40 0 [] (Some (waiters 5040)))].

Definition plain (a : Z) (l : list Z) : futex := Futex a l 0 SCHEDULER_FUTEX_MARKER.
Definition rt_futexes : gmap Z futex :=
  list_to_map [
    (1040, plain 1072 [200; 300]);
    (2092, plain 2124 []);
    (4088, plain 4120 []); (4228, plain 4260 []);
    (5040, plain 5072 [500]);
    (6040, Futex 6068 [] (mutex_futex_flags osMutexRecursive) SCHEDULER_FUTEX_MARKER);
    (6140, Futex 6168 [400] (mutex_futex_flags 0) SCHEDULER_FUTEX_MARKER);
    (7088, plain 7120 [])].

(** The words: the values of the objects, the free blocks of the pools, and the
    robust mutexes from 10000 on, which the thread at 3000 owns. *)
Definition rt_words : gmap Z Z :=
  list_to_map [
    (90, 2); (94, 0);
    (1072, 0);
    (2124, 2); (2200, 2216); (2216, 0);
    (4120, 0); (4260, 2); (4400, 4420); (4420, 0);
    (5072, 0);
    (6068, 0); (6168, 101);
    (7120, 0);
    (10068, 100); (10168, 100); (10268, 100); (10368, 100); (10468, 100); (10568, 0)].

Definition rt_sched : sched :=
  Sched true 16 INT32_MAX [] [100; 200; 300; 400; 500] [] UINT32_MAX 1 0 UINT32_MAX 0 SCHEDULER_MARKER false 0
    rt_tasks rt_futexes
    (list_to_map [(1200, no_regs); (1300, no_regs); (1400, no_regs); (1500, no_regs); (2000, no_regs)])
    rt_words
    (list_to_map [(0, cpu_reset <| current_task := 100 |>)]).

Lemma rt_quiescent : quiescent rt_sched.
Proof. apply checked_quiescent. vm_compute. reflexivity. Qed.

(** ** The objects *)
Definition sample_pool : pool := Pool 16 2 2200 2200 0.
Definition sample_message_pool : pool := Pool 20 2 4400 4400 0.
Definition thread_block (bits : Z) : object := Object RTOS_THREAD_MARKER [] bits (Thread 100 1024 70 0).
Definition robust_mutex : object := Object RTOS_MUTEX_MARKER [] osMutexRobust (Mutex 1).
Definition timer_block (target : Z) : object := Object RTOS_TIMER_MARKER [] 0 (Timer osTimerOnce 70 0 5 target).
Definition sample_deque : deque := {|
  dq_size := 1; dq_count := 4; dq_front := 0; dq_back := 2; dq_waiters := 0; dq_lock := 0;
  dq_buffer := [[1]; [2]; [0]; [0]]
|}.

Definition rt_objects : gmap Z object :=
  list_to_map [
    (1000, Object RTOS_SEMAPHORE_MARKER [] 0 (Semaphore 3));
    (2000, pool_object [] 0 sample_pool);
    (2052, Object RTOS_SEMAPHORE_MARKER [] 0 (Semaphore 2));
    (3000, thread_block 0); (3300, thread_block osReapThread);
    (4000, queue_object [] 0 4 2 [] 0);
    (4048, Object RTOS_SEMAPHORE_MARKER [] 0 (Semaphore 2));
    (4136, pool_object [] 0 sample_message_pool);
    (4188, Object RTOS_SEMAPHORE_MARKER [] 0 (Semaphore 2));
    (5000, Object RTOS_EVENTFLAGS_MARKER [] 0 (EventFlags 0));
    (6000, Object RTOS_MUTEX_MARKER [] osMutexRecursive (Mutex 0));
    (6100, Object RTOS_MUTEX_MARKER [] 0 (Mutex 0));
    (7000, deque_object [] 0 sample_deque 0);
    (7048, Object RTOS_EVENTFLAGS_MARKER [] 0 (EventFlags 0));
    (8000, timer_block 0); (8100, timer_block 7); (8200, timer_block 12);
    (10000, robust_mutex); (10100, robust_mutex); (10200, robust_mutex);
    (10300, robust_mutex); (10400, robust_mutex); (10500, robust_mutex)].

Definition rt_resources (r : resource_id) : resource :=
  match r with
  | osResourceThread => Resource [3224; 3524] 0
  | osResourceSemaphore => Resource [1076] 0
  | osResourceRobustMutex => Resource [10076; 10176; 10276; 10376; 10476; 10576] 0
  | _ => Resource [] 0
  end.

Definition rt : rtos :=
  Rtos rt_sched true osKernelRunning 0 0 rt_resources 0 rt_objects ∅ [8100; 8200] 0 0 0 0.

(** Before the kernel is initialised. *)
Definition rt_cold : rtos :=
  Rtos (Sched false 0 0 [] [] [] 0 0 0 0 0 0 false 0 ∅ ∅ ∅ ∅ ∅) false osKernelInactive 0 0 (λ _, Resource [] 0) 0 ∅ ∅ [] 0 0 0 0.

#[local] Existing Instances sample_env sample_trap sample_env_laws sample_undisturbed.

Lemma rt_calling : calling 0 rt.
Proof. split; [exact rt_quiescent|done|done|done]. Qed.

Lemma free_zero : free_lock 0.
Proof. by exists 0. Qed.

Lemma rt_semaphore : semaphore_at 1000 3 0 [200; 300] rt.
Proof. split; [done|by eexists [], 0|by split|done|done]. Qed.

Lemma rt_pool : pool_at 2000 sample_pool [2200; 2216] [] rt.
Proof.
  split; [done|by eexists [], 0|done|exact free_zero|split; [done..|]| |done|done|].
  - by_eval.
  - exists []. split; [done|by eexists [], 0|by split|done|done].
  - intros b [->|[->|[]%elem_of_nil]%elem_of_cons]%elem_of_cons; by eexists.
Qed.

Lemma rt_queue : queue_at 4000 4 2 [] rt.
Proof.
  split; [done|exists [], 0, 0; split; [done|exact free_zero]|done| | |set_solver|by constructor].
  - exists sample_message_pool, [4400; 4420]. split; [|split; [done|by_eval]].
    split; [done|by eexists [], 0|done|exact free_zero|split; [done..|]| |done|done|].
    + by_eval.
    + exists []. split; [done|by eexists [], 0|by split|done|done].
    + intros b [->|[->|[]%elem_of_nil]%elem_of_cons]%elem_of_cons; by eexists.
  - exists []. split; [done|by eexists [], 0|by split|done|done].
Qed.

Lemma rt_eventflags : eventflags_at 5000 0 0 [500] rt.
Proof. split; [done|by eexists [], 0|done|by split|done]. Qed.

Lemma rt_thread : runs_thread 0 100 3000 rt.
Proof. split; [exact rt_calling|done|by eexists|split; [done|by eexists [], 0, _]|done]. Qed.

Lemma rt_mutex : mutex_at 6000 osMutexRecursive 0 0 [] rt.
Proof. split; [done|by exists []|done|done|done]. Qed.

Lemma rt_contended : mutex_at 6100 0 0 (contended_word 100) [400] rt.
Proof. split; [done|by exists []|done|done|done]. Qed.

Lemma rt_deque : deque_holds 7000 2 1 [[1]; [2]] rt.
Proof.
  exists sample_deque, 0. split_and!; [|done| |].
  - split; [done|by exists [], 0|exact free_zero|done|done| |done].
    exists 0, []. split; [done|by eexists [], 0|done|by split|done].
  - split; [done|done|done|done|done|]. intros [|[|i]] e He; cbn in *; by simplify_eq.
  - by repeat constructor.
Qed.

Lemma rt_timers : timers_at 0 [8100; 8200] rt.
Proof.
  split; [exact rt_calling|done| |exact free_zero]. split.
  - by_eval.
  - repeat constructor. done.
Qed.

Lemma rt_timer : timer_at 8000 (TimerFields osTimerOnce 70 0 5 0) rt.
Proof. split; [done|by exists [], 0]. Qed.

Lemma rt_lists r : resources_at 0 r (nodes (rt_resources r)) rt.
Proof. split; [exact rt_calling|done|destruct r; exact free_zero|done]. Qed.

Lemma rt_balanced : kernel_balanced 0 0 false rt.
Proof. split; try done. exact free_zero. Qed.
