(* ===== verification/KernelInfo.v ===== *)
(** * What the kernel tells of itself

    [osKernelGetInfo] and [osKernelResourceDump] of [cmsis-rtos2-kernel.c], with
    their laws: the identification a buffer of any size receives, and the walk
    over the objects of a kind. *)
From S2P Require Import Prelude Spinlock Scheduler SchedulerSvc SchedulerApi SchedulerInv SchedulerSafe SchedulerWake SchedulerHandlers SchedulerSystem SchedulerCalls WakeLaws Rtos Kernel RtosLaws KernelLaws Semaphore EventFlags Thread Mutex Reaper ReaperLaws SchedulerSample RtosSample.

(** ** [osKernelGetInfo] *)
Record os_version := OsVersion { version_api : Z; version_kernel : Z }.

(** The literal [02001003]: a leading zero makes it octal. *)
Definition RTOS2_VERSION : Z := 2 * 8 ^ 6 + 1 * 8 ^ 3 + 3.

(** The characters of "rtos-toolkit". *)
Definition rtos_toolkit : list Z := [114; 116; 111; 115; 45; 116; 111; 111; 108; 107; 105; 116].

(** [buffer[i] = v], inside the buffer. *)
Definition put_char (i v : Z) (buffer : list Z) : OM (list Z) :=
  if bool_decide (0 <= i < Z.of_nat (length buffer)) then ret (<[Z.to_nat i := v]> buffer) else fail OutOfBounds.

(** [snprintf] of a text without conversions: at most [size] characters with the
    terminator, nothing when [size] is zero. *)
Definition snprintf (buffer : list Z) (size : Z) (s : list Z) : OM (list Z) :=
  if size =? 0 then ret buffer
  else
    let text := take (Z.to_nat (size - 1)) s ++ [0] in
    if bool_decide (length text <= length buffer)%nat then ret (text ++ drop (length text) buffer) else fail OutOfBounds.

(** The pointers of the caller: null, or what they point at, handed back. *)
Definition osKernelGetInfo (version : bool) (id_buf : option (list Z)) (id_size : Z)
    : OM (Z * option os_version * option (list Z)) :=
  let v := if version then Some (OsVersion RTOS2_VERSION RTOS2_VERSION) else None in
  match id_buf with
  | None => ret (osOK, v, None)
  | Some buffer =>
      buffer <- snprintf buffer id_size rtos_toolkit ;;
      buffer <- put_char (u32 (id_size - 1)) 0 buffer ;;
      ret (osOK, v, Some buffer)
  end.

(** ** [osKernelResourceDump] *)

(** The line printed for a thread: its address, name, state and free stack. *)
Class Console := print_thread : Z → option (list Z) → thread_state → Z → OM unit.

Section dump.
Context `{Environment} `{Trap} `{RtosEnv} `{RtosImage} `{ThreadImage} `{Console} (core : Z).

Definition osKernelDumpResource (r marker : Z) : OM (Z * Z) :=
  status <- osIsResourceValid r marker ;;
  if negb (status =? osOK) then ret (status, marker)
  else
    when (marker =? RTOS_THREAD_MARKER)
      (nm <- osThreadGetName core r ;;
       st <- osThreadGetState core r ;;
       space <- osThreadGetStackSpace core r ;;
       print_thread r nm st space) ;;;
    ret (osOK, marker).

(** The marker of the kinds the switch names; robust mutexes are not among them. *)
Definition dump_marker (r : resource_id) : option Z :=
  match r with
  | osResourceThread => Some RTOS_THREAD_MARKER
  | osResourceMutex => Some RTOS_MUTEX_MARKER
  | osResourceMemoryPool => Some RTOS_MEMORY_POOL_MARKER
  | osResourceSemaphore => Some RTOS_SEMAPHORE_MARKER
  | osResourceEventFlags => Some RTOS_EVENTFLAGS_MARKER
  | osResourceTimer => Some RTOS_TIMER_MARKER
  | osResourceMessageQueue => Some RTOS_MESSAGE_QUEUE_MARKER
  | osResourceDeque => Some RTOS_DEQUE_MARKER
  | osResourceRobustMutex => None
  end.

Definition osKernelResourceDump (r : resource_id) : OM Z :=
  running <- gets (λ o, o_started o && state_is osKernelRunning o) ;;
  if negb running then ret osErrorResource
  else match dump_marker r with
  | None => ret osErrorParameter
  | Some m => result <- osKernelResourceForEach core r (Some osKernelDumpResource) m ;; ret result.1
  end.
End dump.

(** ** Laws *)

(** What a reader of a C string sees. *)
Fixpoint c_string (buffer : list Z) : list Z :=
  match buffer with
  | [] => []
  | c :: rest => if c =? 0 then [] else c :: c_string rest
  end.

Lemma c_string_app s rest : Forall (λ c, c ≠ 0) s → c_string (s ++ 0 :: rest) = s.
Proof. induction 1 as [|c s Hc _ IH]; [done|]. cbn. by rewrite (proj2 (Z.eqb_neq c 0) Hc), IH. Qed.

Lemma no_terminator : Forall (λ c, c ≠ 0) rtos_toolkit.
Proof. by repeat constructor. Qed.

(** A buffer of at least one byte receives the name, cut to what fits and
    terminated; what lies behind the size the caller gave stays as it was. *)
Theorem osKernelGetInfo_identifies v buffer size o :
  1 <= size <= Z.of_nat (length buffer) → is_u32 size →
  ∃ buffer', osKernelGetInfo v (Some buffer) size o =
      Done (osOK, if v then Some (OsVersion RTOS2_VERSION RTOS2_VERSION) else None, Some buffer') o ∧
    length buffer' = length buffer ∧ c_string buffer' = take (Z.to_nat (size - 1)) rtos_toolkit ∧
    drop (Z.to_nat size) buffer' = drop (Z.to_nat size) buffer.
Proof.
  intros Hs Hu. set (text := take (Z.to_nat (size - 1)) rtos_toolkit).
  assert (length text <= Z.to_nat (size - 1))%nat as Hlt by (unfold text; rewrite length_take; lia).
  set (after := text ++ 0 :: drop (S (length text)) buffer).
  assert (length after = length buffer) as Hla by (unfold after; rewrite length_app; cbn; rewrite length_drop; lia).
  exists (<[Z.to_nat (size - 1) := 0]> after). split_and!.
  - unfold osKernelGetInfo, snprintf, put_char, bind. rewrite (proj2 (Z.eqb_neq size 0)) by lia. fold text.
    rewrite bool_decide_eq_true_2 by (rewrite length_app; cbn; lia). unfold ret at 1. rewrite (u32_small (size - 1)) by (unfold is_u32 in *; lia).
    replace (length (text ++ [0])) with (S (length text)) by (rewrite length_app; cbn; lia).
    rewrite <-app_assoc. cbn [app]. fold after.
    rewrite bool_decide_eq_true_2 by lia. done.
  - by rewrite length_insert.
  - assert (Forall (λ c, c ≠ 0) text) as Hnz by (apply Forall_take, no_terminator).
    destruct (decide (length text = Z.to_nat (size - 1))) as [E|Hne].
    + rewrite <-E. unfold after. rewrite insert_app_r_alt by lia. rewrite Nat.sub_diag. cbn. by apply c_string_app.
    + unfold after. rewrite insert_app_r_alt by lia.
      destruct (Z.to_nat (size - 1) - length text)%nat eqn:E; [lia|]. cbn. by apply c_string_app.
  - rewrite drop_insert_lt by lia. unfold after. rewrite drop_app_ge by lia.
    destruct (Z.to_nat size - length text)%nat as [|k] eqn:E; [lia|]. cbn. rewrite drop_drop. f_equal. lia.
Qed.

(** A size of zero is not left alone: the terminator goes to the last byte of the
    address space. *)
Theorem osKernelGetInfo_size_zero v buffer o :
  Z.of_nat (length buffer) < 2 ^ 32 → osKernelGetInfo v (Some buffer) 0 o = Fault OutOfBounds.
Proof.
  intros Hl. unfold osKernelGetInfo, snprintf, put_char, bind, ret. cbn [Z.eqb].
  rewrite bool_decide_eq_false_2; [done|]. change (u32 (0 - 1)) with (2 ^ 32 - 1). lia.
Qed.

(** The version is not the decimal 2.1.3 the header asks for (two digits, three,
    and four). *)
Lemma version_is_octal : RTOS2_VERSION = 524803 ∧ RTOS2_VERSION ≠ 2 * 10 ^ 7 + 1 * 10 ^ 4 + 3.
Proof. done. Qed.

Section laws.
Context `{EnvironmentLaws} `{Trap} `{RtosEnv} {Hun : Undisturbed} `{RtosImage} `{ThreadImage} `{Console} (core : Z).

(** Objects but threads are only checked: the walk ends at the first that is not
    of its kind, and changes nothing. *)
Lemma visit_dumps r m l (Q : Z * Z → rtos → Prop) o :
  m ≠ RTOS_THREAD_MARKER → (∀ node, node ∈ l → block_at (node - resource_offset r) m o) → Q (osOK, m) o →
  wp (visit_nodes (osKernelDumpResource core) (resource_offset r) l m) Q o.
Proof.
  intros Hm Hb HQ. induction l as [|node l IH]; cbn [visit_nodes]; [by wp_step|].
  wp_step. unfold osKernelDumpResource at 1. wp_step. apply wp_resource; [apply Hb; by left|].
  change (osOK =? osOK) with true. cbn [negb]. rewrite (proj2 (Z.eqb_neq _ _) Hm). cbn [when]. do 2 wp_step. wp_step. cbn [fst snd].
  change (osOK =? osOK) with true. cbn [negb]. apply IH. intros x Hx. apply Hb. by right.
Qed.

(** The dump of objects other than threads accepts every kind but the robust
    mutexes, prints nothing and leaves the objects and their list as they were. *)
Theorem osKernelResourceDump_checks r l o :
  r ≠ osResourceThread → resources_at core r l o → k_state o = osKernelRunning →
  (∀ node, node ∈ l → block_at (node - resource_offset r) (resource_marker r) o) →
  wp (osKernelResourceDump core r) (λ st o', st = (if decide (r = osResourceRobustMutex) then osErrorParameter else osOK) ∧
    resources_at core r l o' ∧ object_at o' = object_at o) o.
Proof.
  intros Hr Hres Hk Hb. pose proof Hres as [Hc Hs Hl Hn]. unfold osKernelResourceDump. do 2 wp_step. rewrite Hs.
  unfold state_is. rewrite Hk. cbn [andb negb bool_decide]. rewrite bool_decide_eq_true_2 by done. cbn [negb].
  case_decide as Hrm; [subst; by wp_step|].
  assert (dump_marker r = Some (resource_marker r)) as -> by by destruct r.
  wp_step. eapply wp_for_each; [exact Hres|]. set (o1 := masked _).
  assert (k_resources o1 r = Resource l (take_ticket (resource_lock (k_resources o r)))) as E1.
  { unfold o1, masked. rsimp. rewrite resource_set, decide_True by done. by rewrite Hn. }
  apply visit_dumps; [by destruct r|exact Hb|]. split; [by rewrite E1|]. wp_step. split; [done|]. split; [|done].
  split; [done|done|..]; rsimp; rewrite resource_set, decide_True by done; cbn [nodes resource_lock]; [by apply free_released|by rewrite E1].
Qed.
End laws.

(** ** Concrete runs *)
Lemma osKernelGetInfo_identifies_witness :
  osKernelGetInfo true (Some [9; 9; 9; 9; 9; 9]) 5 rt =
    Done (osOK, Some (OsVersion 524803 524803), Some [114; 116; 111; 115; 0; 9]) rt.
Proof.
  destruct (osKernelGetInfo_identifies true [9; 9; 9; 9; 9; 9] 5 rt) as (b & E & Hl & _ & _); [cbn; lia|by split|].
  rewrite E. by injection E as <-.
Defined.

Lemma osKernelGetInfo_size_zero_witness : osKernelGetInfo false (Some [9; 9]) 0 rt = Fault OutOfBounds.
Proof. by apply osKernelGetInfo_size_zero. Defined.

#[local] Existing Instances sample_env sample_trap sample_env_laws sample_undisturbed.
#[local] Instance silent : Console := λ _ _ _ _, ret tt.

Lemma osKernelResourceDump_checks_witness :
  wp (osKernelResourceDump 0 osResourceSemaphore) (λ st o', st = osOK ∧ nodes (k_resources o' osResourceSemaphore) = [1076]) rt.
Proof.
  eapply wp_mono; [apply (osKernelResourceDump_checks 0 osResourceSemaphore [1076]); [done|apply rt_lists|done|]|].
  - intros node ->%list_elem_of_singleton. split; [done|by eexists _, _, _].
  - intros st o' (-> & Hres & _). split; [done|]. apply Hres.
Defined.
