(* ===== verification/RtosClaims.v ===== *)
(** * The RTOS layer: its properties

    Each theorem states what the calls of one object promise a thread while
    nothing else runs; its witness runs it on the sample system of
    [RtosSample]. *)
From S2P Require Import Prelude Spinlock Scheduler SchedulerSvc SchedulerApi SchedulerInv SchedulerSafe SchedulerWake SchedulerHandlers SchedulerSwitch SchedulerCheck SchedulerSystem SchedulerCalls WakeLaws SchedulerSample Rtos Kernel Semaphore MemoryPool MessageQueue EventFlags Thread Mutex Reaper Timer Deque RtosLaws KernelLaws SemaphoreLaws MemoryPoolLaws MessageQueueLaws EventFlagsLaws MutexLaws ReaperLaws DequeLaws TimerLaws RtosSample.

Section claims.
Context `{EnvironmentLaws} `{Trap} `{RtosEnv} {Hun : Undisturbed} `{RtosImage} `{ThreadImage} `{TimerImage} (core : Z).
Notation calling := (calling core).

(** ** The kernel *)

(** [osKernelInitialize], in thread mode on memory no scheduler uses yet,
    establishes the scheduler's invariant, leaves every resource list empty with
    its lock free, and the kernel ready. *)
Theorem osKernelInitialize_establishes o :
  thread_mode core o → o_started o = false → idle_memory (o_sched o) → kernel_scheduler ≠ 0 →
  wp (osKernelInitialize core) (λ r o', r = osOK ∧ initialised tls_size (o_sched o') ∧ k_state o' = osKernelReady ∧
    o_started o' = true ∧ free_lock (k_lock o') ∧
    ∀ x, nodes (k_resources o' x) = [] ∧ free_lock (resource_lock (k_resources o' x))) o.
Proof. apply osKernelInitialize_readies. Qed.

(** However often the kernel is locked and unlocked, each call answers the
    state before it, the scheduler is locked exactly while the kernel is, and it
    is locked once. *)
Theorem osKernelLock_balances base ops b o :
  kernel_balanced core base b o →
  wp (lock_run core ops) (λ rs o', rs = Z.b2z <$> removelast (b :: (locks <$> ops)) ∧
    kernel_balanced core base (List.last (locks <$> ops) b) o') o.
Proof. apply lock_run_ok. Qed.

(** A resource is registered from the call that adds its node to the call
    that removes it, and the list is afterwards what it was. *)
Theorem osKernelResourceAdd_round_trip r resource l o :
  resources_at core r l o → resource + resource_offset r ≠ 0 →
  (∀ x, resource + resource_offset r ∉ nodes (k_resources o x)) →
  wp (_added <- osKernelResourceAdd core r (resource + resource_offset r) ;;
      inside <- osKernelResourceIsRegistered core r resource ;;
      _removed <- osKernelResourceRemove core r (resource + resource_offset r) ;;
      after <- osKernelResourceIsRegistered core r resource ;;
      ret (inside, after)) (λ st o', st = (osOK, osErrorResource) ∧ resources_at core r l o') o.
Proof. apply osKernelResource_round_trip. Qed.

(** The first [osCallOnce] runs its function in a state where the flag is 1
    and leaves it 2; a later call, whatever its function, changes nothing more. *)
Theorem osCallOnce_runs_once fuel fuel' f once_flag func func' o (P : rtos → Prop) :
  calling o → word_of o once_flag = Some 0 → futex_slot once_flag o = Done f o → futex_memory f once_flag 0 (o_sched o) →
  wp func (λ _ o2, P o2 ∧ calling o2 ∧ is_Some (word_of o2 once_flag) ∧ ∃ l, plain_futex f once_flag l (o_sched o2))
    (once_begun f once_flag o) →
  wp (osCallOnce core fuel once_flag func ;;; osCallOnce core fuel' once_flag func') (λ _ o', word_of o' once_flag = Some 2 ∧
    ∃ o2, P o2 ∧ moved core [] (<[once_flag := 2]> (word_at (o_sched o2))) o2 o') o.
Proof.
  intros Hc Hw Hs Hm Hf. wp_step. eapply wp_mono; [by eapply osCallOnce_first|]. intros [] o1 [Hw1 Ho2].
  eapply wp_mono; [by apply osCallOnce_done|]. by intros [] o2 ->.
Qed.

(** ** Semaphores, pools and queues *)

(** C17: A sequence of acquires that do not wait and of releases runs on the
    semaphore as on a counter between 0 and the maximum; the waiters leave its
    queue from the front. *)
Theorem osSemaphore_counts id max ops v l o :
  calling o → semaphore_at id max v l o →
  wp (token_run core id ops) (λ rs o', rs = (counter_run max ops v).1 ∧
    ∃ k, semaphore_at id max (counter_run max ops v).2 (drop k l) o') o.
Proof. apply token_run_counts. Qed.

(** Two releases of a semaphore without tokens ready the first waiter
    only: the second finds the value not 0 and wakes nobody, although a token
    and a waiter are left. *)
Theorem osSemaphoreRelease_wakes_once id max l o :
  calling o → semaphore_at id max 0 l o → 2 <= max →
  wp (_first <- osSemaphoreRelease core id ;; osSemaphoreRelease core id)
    (λ r o', r = osOK ∧ semaphore_at id max 2 (drop 1 l) o') o.
Proof. apply osSemaphoreRelease_twice. Qed.

(** C9: However a client allocates, frees and writes to its blocks, the blocks
    it holds and the free list stay a partition of the pool: no block is handed
    out twice, and none is lost. *)
Theorem osMemoryPool_partitions id ops p frees held o :
  calling o → pool_at id p frees held o →
  wp (client_run core id ops held) (λ held' o', calling o' ∧ ∃ p' frees', pool_at id p' frees' held' o' ∧ NoDup (frees' ++ held')) o.
Proof.
  intros Hc Hp. eapply wp_mono; [by eapply client_run_ok|]. intros held' o' (Hc' & p' & frees' & Hp').
  split; [done|]. exists p', frees'. split; [done|by eapply pa_nodup].
Qed.

(** C10: Puts and gets that do not wait run on the message queue as on a bounded
    priority queue, first in first out within a priority. *)
Theorem osMessageQueue_refines id sz count ops q o :
  calling o → represents id sz count q o → Forall (buffers_fit sz) ops →
  wp (queue_run core id ops) (λ rs o', rs = (spec_run sz count ops q).1 ∧
    represents id sz count (spec_run sz count ops q).2 o') o.
Proof. apply queue_run_refines. Qed.

(** ** Event flags *)

(** C36: Setting flags ors them into the word; when one of them was clear every
    waiter is ready, otherwise none is touched. *)
Theorem osEventFlagsSet_wakes id flags n v l o :
  calling o → eventflags_at id n v l o → has flags osFlagsError = false →
  let fresh := negb (Z.land v flags =? flags) in
  wp (osEventFlagsSet core id flags) (λ r o', r = (if fresh then Z.lor v flags else v) ∧
    moved core [] (<[eventflags_flags id := Z.lor v flags]> (word_at (o_sched o))) o o' ∧
    eventflags_at id n (Z.lor v flags) (if fresh then [] else l) o' ∧
    (fresh = true → ∀ t, t ∈ l → readied (o_sched o') t)) o.
Proof. apply osEventFlagsSet_sets. Qed.

(** A wait whose flags are set, all or any of them as asked, takes them and
    answers the flags before; without a timeout it otherwise answers
    [osFlagsErrorResource] and changes nothing. *)
Theorem osEventFlagsWait_takes `{Threads} fuel id flags options timeout n v l o :
  calling o → eventflags_at id n v l o → has flags osFlagsError = false → (1 <= fuel)%nat →
  flags_met options flags v = true ∨ timeout = 0 →
  wp (osEventFlagsWait core fuel id flags options timeout) (λ r o',
    if flags_met options flags v
    then r = v ∧ o' = stored (eventflags_flags id) (taken_flags options flags v) o
    else r = osFlagsErrorResource ∧ o' = o) o.
Proof. apply osEventFlagsWait_ends. Qed.

(** ** Mutexes *)

(** C16: A thread that acquires and releases a mutex nobody else wants holds it
    as often as a counter says: recursive mutexes nest, others refuse the owner,
    and a release too many is refused. *)
Theorem osMutex_nests fuel id bits t th ops n o :
  holds_times core id bits t th n o → Z.of_nat (n + length ops) < 2 ^ 31 - 2 → (1 <= fuel)%nat →
  wp (mutex_run core fuel id ops) (λ rs o', rs = (hold_run (has bits osMutexRecursive) ops n).1 ∧
    holds_times core id bits t th (hold_run (has bits osMutexRecursive) ops n).2 o') o.
Proof. apply mutex_run_holds. Qed.

(** C34: The last release of a contended mutex hands it to one of its waiters,
    which is ready and owns the word; without a waiter left, the word is the
    releasing thread's again. *)
Theorem osMutexRelease_hands_over id t th bits count l o :
  runs_thread core t th o → mutex_at id bits count (contended_word t) l o → 0 <= count → keeps_holding bits count = false →
  wp (osMutexRelease core id) (λ r o', r = osOK ∧ calling o' ∧ ∃ l1, l1 ≡ₚ l ∧
    mutex_at id bits (if has bits osMutexRecursive then count - 1 else count) (handed_word t l1) (drop 1 l1) o' ∧
    ∀ u, u ∈ take 1 l1 → readied (o_sched o') u) o.
Proof. apply osMutexRelease_contended. Qed.

(** ** Threads *)

(** A walk of the reaper takes exactly the threads marked for it off the
    list of threads, in order, and leaves the others in place. *)
Theorem osThreadReap_partitions l o :
  resources_at core osResourceThread l o → (∀ node, node ∈ l → block_at (thread_of node) RTOS_THREAD_MARKER o) →
  wp (osKernelResourceForEach core osResourceThread (Some osThreadReap) []) (λ r o',
    r = (osOK, thread_of <$> filter (to_reap o) l) ∧
    resources_at core osResourceThread (filter (λ n, ¬ to_reap o n) l) o' ∧ object_at o' = object_at o) o.
Proof. apply osThreadReap_splits. Qed.

(** The release of the robust mutexes of a thread aborts when the fifth it
    owns is not the last of the list: a full capture answers [true], which the
    caller takes for an error. *)
Theorem osReleaseRobustMutex_full_aborts fuel thread l1 fifth node l2 o :
  resources_at core osResourceRobustMutex (l1 ++ fifth :: node :: l2) o → (∀ x, x ∈ l1 ++ [fifth] → robust_ok o x) →
  length (owned_nodes o thread l1) = 4%nat → owner_in o (robust_of fifth) = Some thread →
  osReleaseRobustMutex core (S fuel) thread o = Fault Aborted.
Proof. apply osReleaseRobustMutex_aborts. Qed.

(** ** Timers *)

(** Starting a timer that does not run puts it behind the timers due no
    later and in front of the later ones, for the given number of ticks from
    now. *)
Theorem osTimerStart_orders fuel id tm n l o :
  timers_at core l o → timer_at id tm o → word_of o timer_thread_init = Some 2 → 0 < n < osWaitForever → id ∉ l →
  wp (osTimerStart core fuel id n) (λ r o', r = osOK ∧ timers_at core (active_timers o') o' ∧
    target_of o' id = u32 (scheduler_get_ticks (o_sched o) + n) ∧
    ∃ l1 l2, l = l1 ++ l2 ∧ active_timers o' = l1 ++ id :: l2 ∧
      (∀ x, x ∈ l1 → target_of o x <= target_of o' id) ∧ (∀ x, x ∈ l2 → target_of o' id < target_of o x)) o.
Proof. apply osTimerStart_starts. Qed.

(** Starting a timer that runs already links its node a second time and
    tears the ring of running timers. *)
Theorem osTimerStart_tears_ring fuel id tm n l o :
  timers_at core l o → timer_at id tm o → word_of o timer_thread_init = Some 2 → 0 < n < osWaitForever → id ∈ l →
  osTimerStart core fuel id n o = Fault RingCorrupted.
Proof. apply osTimerStart_running. Qed.

(** ** Interrupts *)

(** In an interrupt handler every call that would wait, and every call of
    a mutex, a timer or the kernel lock, is refused with its documented error
    before it changes anything. *)
Theorem waits_refused_in_interrupts `{Threads} fuel id timeout bytes prio flags options o :
  in_interrupt core o → timeout ≠ 0 → has flags osFlagsError = false →
  osSemaphoreAcquire core fuel id timeout o = Done osErrorParameter o ∧
  osMemoryPoolAlloc core fuel id timeout o = Done 0 o ∧
  osMessageQueuePut core fuel id (Some bytes) prio timeout o = Done osErrorParameter o ∧
  osMessageQueueGet core fuel id true timeout o = Done (osErrorParameter, None) o ∧
  osEventFlagsWait core fuel id flags options timeout o = Done (u32 osErrorParameter) o ∧
  osDequePutBack core fuel id (Some bytes) timeout o = Done osErrorParameter o ∧
  osDequeGetFront core fuel id true timeout o = Done (osErrorParameter, None) o ∧
  osMutexAcquire core fuel id timeout o = Done osErrorISR o ∧ osMutexRelease core id o = Done osErrorISR o ∧
  osTimerStop core id o = Done osErrorISR o ∧ osKernelLock core o = Done osErrorISR o.
Proof.
  intros Hi Ht Hf.
  assert (∀ A m error (k : OM A), validated core true timeout id m error k o = Done (error osErrorParameter) o) as Hw
    by (intros; by apply validated_interrupt).
  assert (∀ A m error (k : OM A), validated core false 0 id m error k o = Done (error osErrorISR) o) as Hn
    by (intros; by apply validated_interrupt).
  split_and!; try apply Hw; try apply Hn.
  - unfold osEventFlagsWait. rewrite Hf. apply Hw.
  - unfold osDequePutBack, put_element, transfer. unfold bind at 1. by rewrite Hw.
  - unfold osKernelLock, while_running, bind. by rewrite (context_interrupt core false).
Qed.

(** ** Deques *)

(** C18: Puts at the back and gets at the front that do not wait run on the
    deque as on a bounded queue of one element less than it has slots. *)
Theorem osDeque_refines id k sz ops q o :
  calling o → deque_holds id k sz q o → Forall (elements_fit sz) ops →
  wp (deque_run core id ops) (λ rs o', rs = (bounded_run k sz ops q).1 ∧
    deque_holds id k sz (bounded_run k sz ops q).2 o') o.
Proof. apply deque_run_refines. Qed.

(** A put at the front of a deque overwrites its first element instead of
    adding one. *)
Theorem osDequePutFront_replaces fuel id k sz q e timeout o :
  calling o → deque_holds id k sz q o → Z.of_nat (length q) < 2 ^ k - 1 → sz <= Z.of_nat (length e) → (1 <= fuel)%nat →
  wp (osDequePutFront core fuel id (Some e) timeout) (λ r o', r = osOK ∧ calling o' ∧
    deque_holds id k sz (<[0%nat := take (Z.to_nat sz) e]> q) o') o.
Proof. apply osDequePutFront_overwrites. Qed.
End claims.

(** ** Concrete runs *)
#[local] Existing Instances sample_env sample_trap sample_env_laws sample_undisturbed.

Lemma osKernelInitialize_establishes_witness :
  wp (osKernelInitialize 0) (λ r o', r = osOK ∧ initialised tls_size (o_sched o') ∧ k_state o' = osKernelReady ∧
    o_started o' = true ∧ free_lock (k_lock o') ∧
    ∀ x, nodes (k_resources o' x) = [] ∧ free_lock (resource_lock (k_resources o' x))) rt_cold.
Proof. apply (osKernelInitialize_establishes 0 rt_cold); [done|done|by split|done]. Defined.

Lemma osKernelLock_balances_witness :
  wp (lock_run 0 [LockKernel; LockKernel; UnlockKernel; UnlockKernel])
    (λ rs o', rs = [0; 1; 1; 0] ∧ kernel_balanced 0 0 false o') rt.
Proof. apply (osKernelLock_balances 0 0 [LockKernel; LockKernel; UnlockKernel; UnlockKernel] false rt), rt_balanced. Defined.

Lemma osKernelResourceAdd_round_trip_witness :
  wp (_added <- osKernelResourceAdd 0 osResourceSemaphore (1200 + resource_offset osResourceSemaphore) ;;
      inside <- osKernelResourceIsRegistered 0 osResourceSemaphore 1200 ;;
      _removed <- osKernelResourceRemove 0 osResourceSemaphore (1200 + resource_offset osResourceSemaphore) ;;
      after <- osKernelResourceIsRegistered 0 osResourceSemaphore 1200 ;;
      ret (inside, after)) (λ st o', st = (osOK, osErrorResource) ∧ resources_at 0 osResourceSemaphore [1076] o') rt.
Proof.
  apply (osKernelResourceAdd_round_trip 0 osResourceSemaphore 1200 [1076] rt); [apply (rt_lists osResourceSemaphore)|done|].
  intros []; by_eval.
Defined.

Lemma osCallOnce_runs_once_witness :
  wp (osCallOnce 0 1 94 (upd (λ o, o <| timer_queue := 7 |>)) ;;; osCallOnce 0 1 94 (fail Aborted))
    (λ _ o', word_of o' 94 = Some 2 ∧ ∃ o2, timer_queue o2 = 7 ∧ moved 0 [] (<[94 := 2]> (word_at (o_sched o2))) o2 o') rt.
Proof.
  apply (osCallOnce_runs_once 0 1 1 9500 94 _ _ rt (λ o, timer_queue o = 7)); [exact rt_calling|done|done| |].
  - split; [done|]. split; [by eexists|done].
  - apply wp_upd. split; [done|]. split; [|split; [by eexists|exists []; by apply once_begun_futex]].
    apply (once_begun_calling 0 9500 94 rt); [exact rt_calling|]. split; [done|]. split; [by eexists|done].
Defined.

Lemma osSemaphore_counts_witness :
  wp (token_run 0 1000 [GiveToken; GiveToken; TakeToken; TakeToken; TakeToken])
    (λ rs o', rs = [osOK; osOK; osOK; osOK; osErrorResource] ∧ ∃ k, semaphore_at 1000 3 0 (drop k [200; 300]) o') rt.
Proof.
  apply (osSemaphore_counts 0 1000 3 [GiveToken; GiveToken; TakeToken; TakeToken; TakeToken] 0); [exact rt_calling|exact rt_semaphore].
Defined.

Lemma osSemaphoreRelease_wakes_once_witness :
  wp (_first <- osSemaphoreRelease 0 1000 ;; osSemaphoreRelease 0 1000)
    (λ r o', r = osOK ∧ semaphore_at 1000 3 2 [300] o') rt.
Proof. apply (osSemaphoreRelease_wakes_once 0 1000 3 [200; 300]); [exact rt_calling|exact rt_semaphore|done]. Defined.

Lemma osMemoryPool_partitions_witness :
  wp (client_run 0 2000 [TakeBlock; TakeBlock; TakeBlock; WriteBlock 0 77; GiveBlock 1; TakeBlock] [])
    (λ held' o', calling 0 o' ∧ ∃ p' frees', pool_at 2000 p' frees' held' o' ∧ NoDup (frees' ++ held')) rt.
Proof.
  apply (osMemoryPool_partitions 0 2000 [TakeBlock; TakeBlock; TakeBlock; WriteBlock 0 77; GiveBlock 1; TakeBlock]
    sample_pool [2200; 2216]); [exact rt_calling|exact rt_pool].
Defined.

Lemma osMessageQueue_refines_witness :
  wp (queue_run 0 4000 [QPut 1 [1; 2; 3; 4]; QPut 9 [5; 6; 7; 8]; QPut 5 [0; 0; 0; 0]; QGet; QGet; QGet])
    (λ rs o', rs = [(osOK, None); (osOK, None); (osErrorResource, None); (osOK, Some (9, [5; 6; 7; 8]));
                    (osOK, Some (1, [1; 2; 3; 4])); (osErrorResource, None)] ∧ represents 4000 4 2 [] o') rt.
Proof.
  apply (osMessageQueue_refines 0 4000 4 2
    [QPut 1 [1; 2; 3; 4]; QPut 9 [5; 6; 7; 8]; QPut 5 [0; 0; 0; 0]; QGet; QGet; QGet] [] rt); [exact rt_calling| |].
  - exists []. split; [exact rt_queue|done].
  - by repeat constructor.
Defined.

Lemma osEventFlagsSet_wakes_witness :
  wp (osEventFlagsSet 0 5000 6) (λ r o', r = 6 ∧
    moved 0 [] (<[5072 := 6]> rt_words) rt o' ∧ eventflags_at 5000 0 6 [] o' ∧
    (true = true → ∀ t, t ∈ [500] → readied (o_sched o') t)) rt.
Proof. apply (osEventFlagsSet_wakes 0 5000 6 0 0 [500] rt); [exact rt_calling|exact rt_eventflags|done]. Defined.

Lemma osEventFlagsWait_takes_witness :
  wp (osEventFlagsWait 0 1 5000 6 osFlagsWaitAll 0) (λ r o', r = osFlagsErrorResource ∧ o' = rt) rt.
Proof.
  apply (osEventFlagsWait_takes 0 1 5000 6 osFlagsWaitAll 0 0 0 [500] rt);
    [exact rt_calling|exact rt_eventflags|done|lia|by right].
Defined.

Lemma osMutex_nests_witness :
  wp (mutex_run 0 1 6000 [TryLock; TryLock; Unlock; Unlock; Unlock])
    (λ rs o', rs = [osOK; osOK; osOK; osOK; osErrorResource] ∧ holds_times 0 6000 osMutexRecursive 100 3000 0 o') rt.
Proof.
  apply (osMutex_nests 0 1 6000 osMutexRecursive 100 3000 [TryLock; TryLock; Unlock; Unlock; Unlock] 0 rt); [|done|lia].
  split; [exact rt_thread|]. exists 0. split; [exact rt_mutex|done].
Defined.

Lemma osMutexRelease_hands_over_witness :
  wp (osMutexRelease 0 6100) (λ r o', r = osOK ∧ calling 0 o' ∧ ∃ l1, l1 ≡ₚ [400] ∧
    mutex_at 6100 0 0 (handed_word 100 l1) (drop 1 l1) o' ∧ ∀ u, u ∈ take 1 l1 → readied (o_sched o') u) rt.
Proof.
  apply (osMutexRelease_hands_over 0 6100 100 3000 0 0 [400] rt); [exact rt_thread|exact rt_contended|done|done].
Defined.

Lemma osThreadReap_partitions_witness :
  wp (osKernelResourceForEach 0 osResourceThread (Some osThreadReap) []) (λ r o',
    r = (osOK, [3300]) ∧ resources_at 0 osResourceThread [3224] o' ∧ object_at o' = rt_objects) rt.
Proof.
  apply (osThreadReap_partitions 0 [3224; 3524] rt); [apply (rt_lists osResourceThread)|].
  intros node [->|[->|[]%elem_of_nil]%elem_of_cons]%elem_of_cons; (split; [done|]); by eexists [], _, _.
Defined.

Lemma osReleaseRobustMutex_full_aborts_witness : osReleaseRobustMutex 0 2 3000 rt = Fault Aborted.
Proof.
  apply (osReleaseRobustMutex_full_aborts 0 1 3000 [10076; 10176; 10276; 10376] 10476 10576 [] rt).
  - apply (rt_lists osResourceRobustMutex).
  - intros x Hx. repeat (apply elem_of_cons in Hx as [->|Hx]; [split; [split; [done|by eexists [], _, _]|by eexists]|]). by apply elem_of_nil in Hx.
  - by vm_compute.
  - done.
Defined.

Lemma osTimerStart_orders_witness :
  wp (osTimerStart 0 1 8000 9) (λ r o', r = osOK ∧ timers_at 0 (active_timers o') o' ∧ target_of o' 8000 = 9 ∧
    ∃ l1 l2, [8100; 8200] = l1 ++ l2 ∧ active_timers o' = l1 ++ 8000 :: l2 ∧
      (∀ x, x ∈ l1 → target_of rt x <= target_of o' 8000) ∧ (∀ x, x ∈ l2 → target_of o' 8000 < target_of rt x)) rt.
Proof.
  apply (osTimerStart_orders 0 1 8000 (TimerFields osTimerOnce 70 0 5 0) 9 [8100; 8200] rt);
    [exact rt_timers|exact rt_timer|done|done|by_eval].
Defined.

Lemma osTimerStart_tears_ring_witness : osTimerStart 0 1 8100 9 rt = Fault RingCorrupted.
Proof.
  apply (osTimerStart_tears_ring 0 1 8100 (TimerFields osTimerOnce 70 0 5 7) 9 [8100; 8200] rt);
    [exact rt_timers|split; [done|by exists [], 0]|done|done|by_eval].
Defined.

Lemma osDeque_refines_witness :
  wp (deque_run 0 7000 [DPut [3]; DPut [4]; DGet; DPut [5]; DGet])
    (λ rs o', rs = [(osOK, None); (osErrorResource, None); (osOK, Some [1]); (osOK, None); (osOK, Some [2])] ∧
      deque_holds 7000 2 1 [[3]; [5]] o') rt.
Proof.
  apply (osDeque_refines 0 7000 2 1 [DPut [3]; DPut [4]; DGet; DPut [5]; DGet] [[1]; [2]] rt);
    [exact rt_calling|exact rt_deque|by repeat constructor].
Defined.

Lemma osDequePutFront_replaces_witness :
  wp (osDequePutFront 0 1 7000 (Some [9]) 0) (λ r o', r = osOK ∧ calling 0 o' ∧ deque_holds 7000 2 1 [[9]; [2]] o') rt.
Proof.
  apply (osDequePutFront_replaces 0 1 7000 2 1 [[1]; [2]] [9] 0 rt); [exact rt_calling|exact rt_deque|done|done|lia].
Defined.

Definition rt_in_handler : rtos :=
  rt <| o_sched := rt_sched <| cpu_at := {[ 0 := cpu_reset <| current_task := 100 |> <| ipsr := 30 |> ]} |> |>.

Lemma waits_refused_in_interrupts_witness :
  osSemaphoreAcquire 0 1 1000 5 rt_in_handler = Done osErrorParameter rt_in_handler ∧
  osMutexAcquire 0 1 1000 5 rt_in_handler = Done osErrorISR rt_in_handler.
Proof.
  assert (in_interrupt 0 rt_in_handler) as Hi by done.
  pose proof (waits_refused_in_interrupts 0 1 1000 5 [] 0 1 0 rt_in_handler Hi ltac:(done) ltac:(done)) as Hr. tauto.
Defined.
