(* ===== verification/RtosAccesses.v ===== *)
(** * The RTOS layer as programs of accesses

    The accesses of a program of [MutexSystem] in the state of the RTOS layer, and
    the checks every call begins with as one local step. *)
From S2P Require Import Prelude Scheduler SchedulerSvc SchedulerApi MutexSystem Rtos Kernel.

Section accesses.
Context `{Environment} `{Trap} `{RtosEnv} (core : Z).

(** The word at [a], whose futex is [f]. *)
Definition word_accesses (a f : Z) : Accesses rtos := {|
  acc_read := load a;
  acc_cas := cas a;
  acc_add d := fetch_map a (λ v, u32 (v + d));
  acc_wait e d := futex_wait core f e d;
  acc_wake := futex_wake core f false
|}.

Definition checked (allowed : bool) (timeout id m : Z) : OM Z :=
  status <- osKernelContextIsValid core allowed timeout ;;
  if negb (status =? osOK) then ret status else osIsResourceValid id m.

Lemma validated_checked {A} allowed timeout id m (error : Z → A) (k : OM A) o :
  validated core allowed timeout id m error k o =
  (status <- checked allowed timeout id m ;; if negb (status =? osOK) then ret (error status) else k) o.
Proof.
  unfold validated, checked. rewrite bind_assoc. apply bind_ext. intros status o1 _.
  destruct (status =? osOK) eqn:E; cbn [negb]; [done|]. unfold bind, ret. by rewrite E.
Qed.
End accesses.
