(* ===== verification/MutexPrograms.v ===== *)
(** * The RTOS mutex as programs of accesses

    [osMutexAcquire] and [osMutexRelease], each a tree of the accesses its code
    makes to the word and the futex, with the proofs that the tree run alone is
    the function, and that it keeps the protocol of [MutexSystem]. *)
From S2P Require Import Prelude Scheduler SchedulerSvc SchedulerApi SchedulerInv SchedulerSafe SchedulerSystem WakeLaws MutexFrame MutexSystem Rtos Kernel RtosAccesses Semaphore EventFlags Thread Mutex.

Section programs.
Context `{Environment} `{Trap} `{RtosEnv} (core id t : Z).

#[export] Instance mutex_accesses : Accesses rtos := word_accesses core (mutex_value id) (futex_of id).

Notation program := (prog (OM Z) Z).

(** The checks both calls begin with. *)
Notation checked := (checked core false 0 id RTOS_MUTEX_MARKER).
Definition add_count (d : Z) : OM Z := c <- count_of id ;; set_count id (c + d) ;;; ret (s32 (c + d)).
Definition count_one (bits : Z) : program :=
  if has bits osMutexRecursive then Local (set_count id 1 ;;; ret 0) (λ _, Ret osOK) else Ret osOK.

Fixpoint loop_prog (fuel : nat) (bits timeout : Z) : program :=
  match fuel with
  | O => Local (fail OutOfFuel) (λ _, Ret osError)
  | S fuel => Cas 0 t (λ ok w,
      if ok then count_one bits
      else if timeout =? 0 then Ret osErrorResource
      else Wait w timeout (λ status,
        if status <? 0 then Ret (wait_error status)
        else Read (λ v, if t =? owner_of v then count_one bits else loop_prog fuel bits timeout)))
  end.

Definition acquire_prog (fuel : nat) (timeout : Z) : program :=
  Local checked (λ status,
    if negb (status =? osOK) then Ret status
    else Read (λ v, Local (bits_of id) (λ bits,
      if t =? owner_of v then
        if negb (has bits osMutexRecursive) then Ret osErrorParameter else Local (add_count 1) (λ _, Ret osOK)
      else loop_prog fuel bits timeout))).

Definition wake_prog : program := Wake (λ status, Ret (if status <? 0 then osError else osOK)).
Definition unlock_prog : program :=
  Read (λ v, if v =? t then Cas t 0 (λ ok _, if ok then Ret osOK else wake_prog) else wake_prog).

(** The thread of the task in the word [v]. *)
Definition context_of (v : Z) : OM Z :=
  if v =? 0 then ret 0
  else
    tk <- on_sched (get_task (owner_of v)) ;;
    when (negb (t_marker tk =? SCHEDULER_TASK_MARKER)) (fail Aborted) ;;;
    ret (t_context tk).

(** After the check that the caller is the owner. *)
Definition count_prog : program :=
  Local (bits_of id) (λ bits,
    if has bits osMutexRecursive then Local (add_count (-1)) (λ c, if 0 <? c then Ret osOK else unlock_prog)
    else Local (count_of id) (λ _, unlock_prog)).
Definition compare_prog (owner : Z) : program :=
  Local (osThreadGetId core) (λ self, if negb (owner =? self) then Ret osErrorResource else count_prog).
Definition release_prog : program :=
  Local checked (λ status,
    if negb (status =? osOK) then Ret status
    else Local checked (λ status,
      if negb (status =? osOK) then compare_prog 0
      else Read (λ v, Local (context_of v) compare_prog))).

(** ** Run alone, they are the functions *)
Lemma mutex_run_count_one bits o : run (count_one bits) o = (when (has bits osMutexRecursive) (set_count id 1) ;;; ret osOK) o.
Proof. unfold count_one. destruct (has bits osMutexRecursive); [|done]. cbn [run]. by rewrite bind_assoc. Qed.

Lemma mutex_run_loop fuel bits timeout o :
  run (loop_prog fuel bits timeout) o =
  (status <- lock_mutex core fuel id t timeout 0 ;;
   if negb (status =? osOK) then ret status else when (has bits osMutexRecursive) (set_count id 1) ;;; ret osOK) o.
Proof.
  revert o. induction fuel as [|fuel IH]; intros o; [done|]. cbn [loop_prog run lock_mutex]. rewrite bind_assoc.
  apply bind_ext. intros [[|] w] o1 _; cbn [fst snd]; [by rewrite mutex_run_count_one|]. destruct (timeout =? 0); [done|].
  cbn [run]. rewrite bind_assoc. apply bind_ext. intros status o2 _. destruct (status <? 0).
  - unfold wait_error. cbn [run]. by repeat case_match.
  - cbn [run]. rewrite bind_assoc. apply bind_ext. intros v o3 _. destruct (t =? owner_of v); [by rewrite mutex_run_count_one|apply IH].
Qed.

(** The task runs on the core; what only reads the scheduler leaves it so. *)
Definition self (o : rtos) : Prop := scheduler_task core (o_sched o) = Done t (o_sched o).

Lemma keeps_on_sched {A} (m : SM A) : (∀ s a s', m s = Done a s' → s' = s) → keeps self (on_sched m).
Proof.
  intros Hm o a o' Hs. unfold on_sched. destruct (m (o_sched o)) as [x s|] eqn:E; [|done]. intros [= <- <-].
  apply Hm in E as ->. exact Hs.
Qed.

Lemma get_word_same a s v s' : get_word a s = Done v s' → s' = s.
Proof. unfold get_word, get_opt. destruct (word_at s !! a); [|done]. by intros [= <- <-]. Qed.
Lemma get_task_same u s tk s' : get_task u s = Done tk s' → s' = s.
Proof. unfold get_task, get_opt. destruct (task_at s !! u); [|done]. by intros [= <- <-]. Qed.
Lemma scheduler_task_same s u s' : scheduler_task core s = Done u s' → s' = s.
Proof.
  unfold scheduler_task, bind at 1, gets at 1. destruct (s_present s); [|by intros [= <- <-]].
  by intros [_ ->]%get_current_done.
Qed.

Lemma keeps_load a : keeps self (load a).
Proof. apply keeps_on_sched. intros s v s'. apply get_word_same. Qed.
Lemma keeps_checked : keeps self checked.
Proof. unfold RtosAccesses.checked, osKernelContextIsValid, osIsResourceValid, get_object. keeps_steps. Qed.
Lemma keeps_bits : keeps self (bits_of id).
Proof. unfold bits_of, get_object. keeps_steps. Qed.
Lemma keeps_count : keeps self (count_of id).
Proof. unfold count_of. keeps_steps. Qed.
Lemma keeps_set_count c : keeps self (set_count id c).
Proof. unfold set_count, set_contents, upd_object, count_of, get_object. keeps_steps. Qed.
Lemma keeps_context v : keeps self (context_of v).
Proof.
  unfold context_of. apply keeps_if; [apply keeps_ret|]. apply keeps_bind; [|intros tk; keeps_steps].
  apply keeps_on_sched. intros s tk s'. apply get_task_same.
Qed.
Lemma keeps_thread_id : keeps self (osThreadGetId core).
Proof.
  unfold osThreadGetId, osIsResourceValid, get_object. apply keeps_bind; [apply keeps_on_sched, scheduler_task_same|intros u].
  apply keeps_bind; [apply keeps_on_sched, get_task_same|intros tk]. keeps_steps.
Qed.

Lemma self_done {A} (k : Z → OM A) o : self o → (value <- on_sched (scheduler_task core) ;; k value) o = k t o.
Proof. intros Hs. unfold bind at 1, on_sched. rewrite Hs. by destruct o. Qed.

Lemma run_acquire fuel timeout o : self o → run (acquire_prog fuel timeout) o = osMutexAcquire core fuel id timeout o.
Proof.
  intros Hs. unfold osMutexAcquire. rewrite validated_checked. cbn [acquire_prog run]. apply bind_ext. intros status o1 E1.
  pose proof (keeps_checked _ _ _ Hs E1) as Hs1. destruct (negb (status =? osOK)); [done|].
  rewrite self_done by done. cbn [run]. apply bind_ext. intros v o2 _. cbn [run]. apply bind_ext. intros bits o3 _.
  destruct (t =? owner_of v); [|apply mutex_run_loop]. destruct (negb (has bits osMutexRecursive)); [done|].
  cbn [run]. unfold add_count. rewrite bind_assoc. apply bind_ext. intros c o4 _. by rewrite bind_assoc.
Qed.

Lemma mutex_run_unlock o : run unlock_prog o = unlock_mutex core id t o.
Proof.
  unfold unlock_mutex. cbn [unlock_prog run]. apply bind_ext. intros v o1 _. destruct (v =? t); [|done].
  cbn [run]. apply bind_ext. intros [[|] w] o2 _; done.
Qed.

Lemma run_count o : self o →
  run count_prog o =
  (bits <- bits_of id ;; c <- count_of id ;;
   when (has bits osMutexRecursive) (set_count id (c - 1)) ;;;
   if has bits osMutexRecursive && (0 <? s32 (c - 1)) then ret osOK
   else task <- on_sched (scheduler_task core) ;; unlock_mutex core id task) o.
Proof.
  intros Hs. cbn [count_prog run]. apply bind_ext. intros bits o1 E1. pose proof (keeps_bits _ _ _ Hs E1) as Hs1.
  destruct (has bits osMutexRecursive); cbn [andb when].
  - cbn [run]. unfold add_count. rewrite bind_assoc. apply bind_ext. intros c o2 E2. pose proof (keeps_count _ _ _ Hs1 E2) as Hs2.
    rewrite bind_assoc. change (c + -1) with (c - 1). apply bind_ext. intros [] o3 E3. pose proof (keeps_set_count _ _ _ _ Hs2 E3) as Hs3.
    change (bind (ret (s32 (c - 1))) ?g o3) with (g (s32 (c - 1)) o3). cbn beta. destruct (0 <? s32 (c - 1)); [done|].
    rewrite self_done by done. apply mutex_run_unlock.
  - cbn [run]. apply bind_ext. intros c o2 E2. pose proof (keeps_count _ _ _ Hs1 E2) as Hs2.
    change (bind (ret tt) ?g o2) with (g tt o2). cbn beta. rewrite self_done by done. apply mutex_run_unlock.
Qed.

Lemma run_compare owner o : self o →
  run (compare_prog owner) o =
  (caller <- osThreadGetId core ;;
   if negb (owner =? caller) then ret osErrorResource
   else
     bits <- bits_of id ;; c <- count_of id ;;
     when (has bits osMutexRecursive) (set_count id (c - 1)) ;;;
     if has bits osMutexRecursive && (0 <? s32 (c - 1)) then ret osOK
     else task <- on_sched (scheduler_task core) ;; unlock_mutex core id task) o.
Proof.
  intros Hs. cbn [compare_prog run]. apply bind_ext. intros caller o1 E1. pose proof (keeps_thread_id _ _ _ Hs E1) as Hs1.
  destruct (negb (owner =? caller)); [done|by apply run_count].
Qed.

Lemma get_owner_checked o :
  osMutexGetOwner core id o =
  (status <- checked ;; if negb (status =? osOK) then ret 0 else v <- load (mutex_value id) ;; context_of v) o.
Proof. apply validated_checked. Qed.

Lemma mutex_run_release o : self o → run release_prog o = osMutexRelease core id o.
Proof.
  intros Hs. unfold osMutexRelease. rewrite validated_checked. cbn [release_prog run]. apply bind_ext. intros status o1 E1.
  pose proof (keeps_checked _ _ _ Hs E1) as Hs1. destruct (negb (status =? osOK)); [done|]. cbn [run].
  rewrite (bind_at _ _ _ _ (get_owner_checked o1)).
  rewrite bind_assoc. apply bind_ext. intros status' o2 E2. pose proof (keeps_checked _ _ _ Hs1 E2) as Hs2.
  destruct (negb (status' =? osOK)); [by apply run_compare|]. cbn [run]. rewrite bind_assoc. apply bind_ext. intros v o3 E3.
  pose proof (keeps_load _ _ _ _ Hs2 E3) as Hs3. cbn [run]. apply bind_ext. intros owner o4 E4.
  pose proof (keeps_context _ _ _ _ Hs3 E4) as Hs4. by apply run_compare.
Qed.

(** ** They keep the protocol *)
Definition granted (status : Z) : bool := status =? osOK.
Notation locked := (λ own status, granted status = true → own = true).

Lemma mutex_safe_count_one bits : safe t locked true (count_one bits).
Proof. unfold count_one. by destruct (has bits osMutexRecursive). Qed.

Lemma mutex_safe_loop fuel bits timeout : safe t locked false (loop_prog fuel bits timeout).
Proof.
  induction fuel as [|fuel IH]; [done|]. cbn [loop_prog safe]. left. split; [done|]. split; [done|].
  split; [apply mutex_safe_count_one|]. intros w Hw Hv. destruct (timeout =? 0); [done|]. split; [done|]. split; [done|]. split; [done|].
  intros status. destruct (status <? 0).
  - unfold wait_error. cbn [safe]. by destruct (_ || _).
  - intros v Hv' _. rewrite (Z.eqb_sym t). destruct (owner_of v =? t); [apply mutex_safe_count_one|apply IH].
Qed.

Lemma safe_acquire fuel timeout : safe t locked false (acquire_prog fuel timeout).
Proof.
  intros status. destruct (status =? osOK) eqn:E; cbn [negb]; [|by unfold granted; cbn [safe]; rewrite E].
  intros v Hv _ bits. rewrite (Z.eqb_sym t). destruct (owner_of v =? t); [|apply mutex_safe_loop]. by destruct (negb _).
Qed.

Lemma mutex_safe_unlock own : (own = true) → safe t (λ _ _, True) own unlock_prog.
Proof.
  intros -> v Hv Ho. rewrite (Ho eq_refl), Z.eqb_refl.
  destruct (v =? t); [right|done]. split; [done|]. split; [done|]. split; [done|]. done.
Qed.

Lemma safe_count own : own = true → safe t (λ _ _, True) own count_prog.
Proof.
  intros Ho bits. destruct (has bits osMutexRecursive); [|intros _; by apply mutex_safe_unlock].
  intros c. destruct (0 <? c); [done|by apply mutex_safe_unlock].
Qed.

Lemma safe_compare own owner : own = true → safe t (λ _ _, True) own (compare_prog owner).
Proof. intros Ho caller. destruct (negb _); [done|by apply safe_count]. Qed.

Lemma mutex_safe_release : safe t (λ _ _, True) true release_prog.
Proof.
  intros status. destruct (negb (status =? osOK)); [done|]. intros status'. destruct (negb (status' =? osOK)); [by apply safe_compare|].
  intros v Hv Ho owner. rewrite (Ho eq_refl), Z.eqb_refl. by apply safe_compare.
Qed.
End programs.
