(* ===== verification/MutexClaims.v ===== *)
(** * Many threads and one RTOS mutex

    The programs of [MutexPrograms] in the system of [MutexSystem], as
    [ThreadsSystem] has those of the C11 mutex. *)
From S2P Require Import Prelude Scheduler SchedulerSvc SchedulerApi SchedulerInv SchedulerSafe SchedulerWake SchedulerHandlers SchedulerSwitch SchedulerSystem SchedulerCheck SchedulerSample WakeLaws MutexFrame MutexSystem MutexSample Rtos Kernel Semaphore EventFlags Thread Mutex MutexLaws RtosAccesses MutexPrograms RtosSample.

Section claims.
Context `{EnvironmentLaws} `{Trap} `{RtosEnv}.

(** The calls that take the mutex [id], and the one that gives it back. *)
Definition mutex_acquires (id t : Z) (p : prog (OM Z) Z) : Prop := ∃ core fuel timeout, p = acquire_prog core id t fuel timeout.
Definition mutex_releases (id t : Z) (p : prog (OM Z) Z) : Prop := ∃ core, p = release_prog core id t.

Lemma mutex_flags_track bits :
  has (mutex_futex_flags bits) SCHEDULER_FUTEX_OWNER_TRACKING = true ∧
  has (mutex_futex_flags bits) SCHEDULER_FUTEX_CONTENTION_TRACKING = true.
Proof. unfold mutex_futex_flags. by destruct (has bits osMutexPrioInherit). Qed.

(** C4: Any number of threads on any number of cores that acquire and release an
    RTOS mutex, their accesses interleaved in any order with each other and with
    service calls, context switches, ticks and deferred wakes: a thread inside is
    the one the word names, no two threads are inside, and while a thread waits the
    word names an owner and says that it is contended.  The programs that
    interleave are the code's: run alone by its task each is the function. *)
Theorem osMutex_excludes id bits (m0 mm : machine) :
  futex_of id ≠ 0 → Unaware (mutex_value id) (futex_of id) (mutex_futex_flags bits) →
  machine_start (mutex_value id) (futex_of id) (mutex_futex_flags bits) m0 →
  machine_reaches (mutex_value id) (futex_of id) granted (mutex_acquires id) (mutex_releases id) m0 mm →
  (∀ core t fuel timeout o, scheduler_task core (o_sched o) = Done t (o_sched o) →
     let alone p := @run _ _ (mutex_accesses core id) p o in
     alone (acquire_prog core id t fuel timeout) = osMutexAcquire core fuel id timeout o ∧
     alone (release_prog core id t) = osMutexRelease core id o) ∧
  (∀ t, mc_phase mm t = Inside → ∃ v, word_at (mc_sched mm) !! mutex_value id = Some v ∧ owner_of v = t) ∧
  (∀ t u, mc_phase mm t = Inside → mc_phase mm u = Inside → t = u) ∧
  (∀ l, queue (mc_sched mm) (waiters (futex_of id)) = Some l → l ≠ [] →
     ∃ v, word_at (mc_sched mm) !! mutex_value id = Some v ∧ Z.testbit v 0 = true ∧ owner_of v ≠ 0).
Proof.
  intros Hf Hun Hm Hr. split; [intros; split; [by apply run_acquire|by apply mutex_run_release]|].
  destruct (mutex_flags_track bits) as [Ho Hc]. revert Hm Hr. apply machine_excludes; [done..| |].
  - intros t p _ (core & fuel & timeout & ->). apply safe_acquire.
  - intros t p _ (core & ->). apply mutex_safe_release.
Qed.

End claims.

(** ** Two cores that contend, for the mutex at 6000 *)
#[local] Existing Instances sample_env sample_trap sample_env_laws sample_undisturbed.

Definition rtos_contenders : machine :=
  Machine (two_cores 6068 6040 (mutex_futex_flags 0)) (λ _, Outside (L := OM Z) (R := Z)).

Lemma rtos_contenders_start : machine_start 6068 6040 (mutex_futex_flags 0) rtos_contenders.
Proof.
  split; [apply checked_quiescent; vm_compute; reflexivity|done| |done|done].
  intros g fx. cbn. intros [? <-]%lookup_singleton_Some _. done.
Qed.

Notation rtos_parked := (parked_behind 6068 6040 (mutex_futex_flags 0)).
Notation rtos_reaches := (machine_reaches 6068 6040 granted (mutex_acquires 6000) (mutex_releases 6000) rtos_contenders).

Lemma rtos_parks : run_event (ServiceCall 1 2000 SvcWait) (taken 6068 6040 (mutex_futex_flags 0)) = Done tt rtos_parked.
Proof. vm_compute. reflexivity. Qed.

Lemma rtos_may_park : admissible (taken 6068 6040 (mutex_futex_flags 0)) (ServiceCall 1 2000 SvcWait).
Proof.
  exists (Frame 6040 0x5000 SCHEDULER_WAIT_FOREVER 0 0 0 0 0). split; [done|]. split; [done|].
  exists (Futex 6068 [] (mutex_futex_flags 0) SCHEDULER_FUTEX_MARKER), 0x5000. split; [|done]. by split.
Qed.

Lemma rtos_contended_run : ∃ ph, rtos_reaches (Machine rtos_parked ph) ∧ ph 0x5000 = Inside.
Proof.
  eassert (rtos_reaches _) as R by apply reaches_start. unfold rtos_contenders at 2 in R.
  machine_goes R ltac:(eapply starts_lock with (t := 0x5000); [done|done|by exists 0, 1%nat, SCHEDULER_WAIT_FOREVER]).
  machine_goes R ltac:(task_goes 0 ltac:(apply access_local with (z := osOK))).
  machine_goes R ltac:(task_goes 0 ltac:(by apply access_read)).
  machine_goes R ltac:(task_goes 0 ltac:(apply access_local with (z := 0))).
  machine_goes R ltac:(task_goes 0 ltac:(by apply access_cas_done)).
  machine_goes R ltac:(by eapply lock_ends with (t := 0x5000) (r := osOK)).
  machine_goes R ltac:(eapply starts_lock with (t := 0x5200); [done|done|by exists 1, 1%nat, SCHEDULER_WAIT_FOREVER]).
  machine_goes R ltac:(task_goes 1 ltac:(apply access_local with (z := osOK))).
  machine_goes R ltac:(task_goes 1 ltac:(by apply access_read)).
  machine_goes R ltac:(task_goes 1 ltac:(apply access_local with (z := 0))).
  machine_goes R ltac:(task_goes 1 ltac:(by apply access_cas_failed with (w := 0x5000))).
  machine_goes R ltac:(task_goes 1 ltac:(eapply access_wait with (z := 0); [..|exact rtos_may_park|exact rtos_parks]; done)).
  eexists. split; [exact R|done].
Qed.

Lemma osMutex_excludes_witness :
  ∃ ph, rtos_reaches (Machine rtos_parked ph) ∧ (∀ u, ph u = Inside → u = 0x5000) ∧
    ∃ v, word_at rtos_parked !! 6068 = Some v ∧ Z.testbit v 0 = true ∧ owner_of v = 0x5000.
Proof.
  destruct rtos_contended_run as (ph & R & Hin). exists ph. split; [exact R|].
  destruct (osMutex_excludes 6000 0 rtos_contenders (Machine rtos_parked ph)) as (_ & Hword & Hone & Hwait);
    [done|apply sample_unaware|apply rtos_contenders_start|exact R|].
  split; [intros u Hu; by apply Hone|].
  destruct (Hwait [0x5200]) as (v & Hv & Hb & _); [vm_compute; reflexivity|done|].
  destruct (Hword _ Hin) as (v' & Hv' & Ho). exists v. split; [exact Hv|]. split; [exact Hb|].
  cbn [mc_sched] in Hv, Hv'. congruence.
Defined.
