(* ===== verification/SemaphorePrograms.v ===== *)
(** * The semaphore as programs of accesses

    [osSemaphoreAcquire] and [osSemaphoreRelease], each a tree of the accesses its
    code makes to the word and the futex, with the proofs that the tree run alone
    is the function, and that its one change of the word is what it answers for. *)
From S2P Require Import Prelude Scheduler SchedulerSvc SchedulerApi MutexSystem Rtos Kernel RtosAccesses Semaphore.

(** What a call does to the count. *)
Inductive move := Take | Give.
#[export] Instance move_eq_dec : EqDecision move.
Proof. solve_decision. Defined.

Section programs.
Context `{Environment} `{Trap} `{RtosEnv} (core id : Z).

#[export] Instance semaphore_accesses : Accesses rtos := word_accesses core (semaphore_value id) (futex_of id).
Notation program := (prog (OM Z) Z).
Notation checked := (checked core true).

Fixpoint token_prog (fuel : nat) (timeout expected : Z) : program :=
  match fuel with
  | O => Local (fail OutOfFuel) (λ _, Ret osError)
  | S fuel => Cas expected (u32 (expected - 1)) (λ ok w,
      if ok then Ret osOK
      else if w =? 0 then
        if timeout =? 0 then Ret osErrorResource
        else Wait 0 timeout (λ status, if status <? 0 then Ret (wait_error status) else token_prog fuel timeout 1)
      else token_prog fuel timeout w)
  end.

Definition take_prog (fuel : nat) (timeout : Z) : program :=
  Local (checked timeout id RTOS_SEMAPHORE_MARKER) (λ status,
    if negb (status =? osOK) then Ret status else token_prog fuel timeout 1).

Definition give_prog : program :=
  Local (checked 0 id RTOS_SEMAPHORE_MARKER) (λ status,
    if negb (status =? osOK) then Ret status
    else Read (λ value, Local (max_count_of id) (λ max_count,
      if max_count <=? value then Ret osErrorResource
      else Add 1 (λ old, if old =? 0 then Wake (λ _, Ret osOK) else Ret osOK)))).

(** ** Run alone, they are the functions *)
Lemma run_token fuel timeout expected o : run (token_prog fuel timeout expected) o = acquire_token core fuel id timeout expected o.
Proof.
  revert expected o. induction fuel as [|fuel IH]; intros expected o; [done|]. cbn [token_prog run acquire_token].
  apply bind_ext. intros [[|] w] o1 _; cbn [fst snd]; [done|]. destruct (w =? 0); [|apply IH].
  destruct (timeout =? 0); [done|]. cbn [run]. apply bind_ext. intros status o2 _. destruct (status <? 0); [done|apply IH].
Qed.

Lemma run_take fuel timeout o : run (take_prog fuel timeout) o = osSemaphoreAcquire core fuel id timeout o.
Proof.
  unfold osSemaphoreAcquire. rewrite validated_checked. cbn [take_prog run]. apply bind_ext. intros status o1 _.
  destruct (negb (status =? osOK)); [done|apply run_token].
Qed.

Lemma run_give o : run give_prog o = osSemaphoreRelease core id o.
Proof.
  unfold osSemaphoreRelease. rewrite validated_checked. cbn [give_prog run]. apply bind_ext. intros status o1 _.
  destruct (negb (status =? osOK)); [done|]. cbn [run]. apply bind_ext. intros value o2 _. cbn [run]. apply bind_ext.
  intros max_count o3 _. destruct (max_count <=? value); [done|]. cbn [run]. apply bind_ext. intros old o4 _.
  destruct (old =? 0); cbn [run when]; [by rewrite bind_assoc|done].
Qed.

(** ** One change for one answer *)

(** [p] still makes the change [c] once, or has made it if [made], exactly when
    it answers osOK. *)
Fixpoint once {L} (c : move) (made : bool) (p : prog L Z) : Prop :=
  match p with
  | Ret r => (r =? osOK) = made
  | Local _ k | Wait _ _ k | Wake k => ∀ z, once c made (k z)
  | Read k => ∀ w, once c made (k w)
  | Cas e d k =>
      c = Take ∧ made = false ∧ is_u32 e ∧ 0 < e ∧ d = e - 1 ∧ once c true (k true e) ∧
      ∀ w, is_u32 w → w ≠ e → once c false (k false w)
  | Add d k => c = Give ∧ made = false ∧ d = 1 ∧ ∀ w, once c true (k w)
  end.

Lemma once_token fuel timeout expected : is_u32 expected → 0 < expected → once Take false (token_prog fuel timeout expected).
Proof.
  revert expected. induction fuel as [|fuel IH]; intros e He Hp; [done|]. cbn [token_prog once].
  split_and!; [done|done|done|done|apply u32_small; unfold is_u32 in *; lia|done|]. intros w Hw _.
  destruct (Z.eqb_spec w 0); [|apply IH; [done|unfold is_u32 in *; lia]].
  destruct (timeout =? 0); [done|]. intros status. destruct (status <? 0); [|by apply IH].
  unfold wait_error. cbn [once]. by destruct (_ || _).
Qed.

Lemma once_take fuel timeout : once Take false (take_prog fuel timeout).
Proof.
  intros status. destruct (status =? osOK) eqn:E; cbn [negb]; [by apply once_token|done].
Qed.

Lemma once_give : once Give false give_prog.
Proof.
  intros status. destruct (status =? osOK) eqn:E; cbn [negb]; [|done]. intros value max_count.
  destruct (max_count <=? value); [done|]. split_and!; [done|done|done|]. intros old. by destruct (old =? 0).
Qed.
End programs.
