(* ===== verification/SemaphoreSystem.v ===== *)
(** * Many callers and one counting word

    The system that interleaves the programs of any number of callers, access by
    access, with each other and with the events of the scheduler, and keeps the
    history of the word.  Where every program makes one change for one answer
    ([once]), the word is a counter the calls go through one at a time. *)
From S2P Require Import Prelude Scheduler SchedulerSvc SchedulerApi SchedulerInv SchedulerSafe SchedulerSystem MutexFrame WordFrame MutexSystem Rtos Kernel SemaphorePrograms.

(** ** The counter *)

(** One change of the counter; there is no token to take from zero. *)
Definition count_move (c : move) (v : Z) : option Z :=
  match c with
  | Take => if 0 <? v then Some (v - 1) else None
  | Give => Some (u32 (v + 1))
  end.

(** The changes of a history, who made each with it, one after the other. *)
Definition counter (init : Z) (log : list (Z * move)) : option Z :=
  foldl (λ v x, v ≫= count_move x.2) (Some init) log.

Definition times (t : Z) (c : move) (log : list (Z * move)) : nat := length (filter (λ x, x = (t, c)) log).
Definition total (c : move) (log : list (Z * move)) : Z := Z.of_nat (length (filter (λ x, x.2 = c) log)).

Lemma times_app t c l l' : times t c (l ++ l') = (times t c l + times t c l')%nat.
Proof. unfold times. by rewrite filter_app, length_app. Qed.

Lemma times_one t c u d : times t c [(u, d)] = if decide ((u, d) = (t, c)) then 1%nat else 0%nat.
Proof. unfold times. rewrite filter_cons. by case_decide. Qed.

Lemma total_snoc c l t d : total c (l ++ [(t, d)]) = total c l + (if decide (d = c) then 1 else 0).
Proof. unfold total. rewrite filter_app, length_app, filter_cons. cbn [snd]. case_decide; cbn [filter length]; cbn; lia. Qed.

Lemma counter_snoc init l t c v : counter init l = Some v → counter init (l ++ [(t, c)]) = count_move c v.
Proof. unfold counter. rewrite foldl_app. by intros ->. Qed.

(** Short of an overflow the counter is what was given less what was taken. *)
Lemma counter_conserves init l v :
  is_u32 init → counter init l = Some v → init + total Give l < word → v + total Take l = init + total Give l ∧ 0 <= v.
Proof.
  intros Hi. revert v. induction l as [|[t c] l IH] using rev_ind; intros v Hv Hg.
  { injection Hv as <-. unfold total. cbn. unfold is_u32 in Hi. lia. }
  rewrite (total_snoc Give) in Hg |- *. rewrite (total_snoc Take). destruct (counter init l) as [w|] eqn:E.
  2: { unfold counter in Hv, E. by rewrite foldl_app, E in Hv. }
  rewrite (counter_snoc _ _ _ _ w) in Hv by done.
  assert (0 <= total Take l) by (unfold total; lia).
  destruct c; cbn [count_move] in Hv; repeat case_decide; try done.
  - destruct (Z.ltb_spec 0 w); [|done]. injection Hv as <-. destruct (IH w eq_refl ltac:(lia)). lia.
  - injection Hv as <-. destruct (IH w eq_refl ltac:(lia)). rewrite u32_small by (unfold is_u32; lia). lia.
Qed.

(** ** The system *)
Section system.
Context `{Environment} `{Trap} (a f : Z) {Hun : Heedless a}.
Context {L : Type} (call : move → prog L Z → Prop).

Inductive caller := Idle | Busy (c : move) (p : prog L Z).

(** [tk_log]: who changed the word, in order; [tk_answered]: the calls that
    returned osOK.  A caller is a task or an interrupt handler. *)
Record tokens := Tokens {
  tk_sched : sched;
  tk_caller : Z → caller;
  tk_log : list (Z * move);
  tk_answered : list (Z * move)
}.

Definition set_caller (t : Z) (x : caller) (g : Z → caller) : Z → caller := λ u, if decide (u = t) then x else g u.

(** What an access of [t] for [c] adds to the history. *)
Definition logged (t : Z) (c : move) (s s' : sched) (log : list (Z * move)) : list (Z * move) :=
  if decide (word_at s' !! a = word_at s !! a) then log else log ++ [(t, c)].

Inductive tokens_step : tokens → tokens → Prop :=
  | tokens_event e s s' g l n : admissible s e → no_store a e → run_event e s = Done tt s' →
      tokens_step (Tokens s g l n) (Tokens s' g l n)
  | call_starts t c p s g l n : g t = Idle → call c p →
      tokens_step (Tokens s g l n) (Tokens s (set_caller t (Busy c p) g) l n)
  | call_goes core t c p p' s s' g l n : g t = Busy c p → access a f core s p s' p' →
      tokens_step (Tokens s g l n) (Tokens s' (set_caller t (Busy c p') g) (logged t c s s' l) n)
  (** an interrupt handler's wake is deferred *)
  | call_defers core t c k z s s' g l n : g t = Busy c (Wake k) →
      admissible s (DeferWake core f false) → run_event (DeferWake core f false) s = Done tt s' →
      tokens_step (Tokens s g l n) (Tokens s' (set_caller t (Busy c (k z)) g) l n)
  | call_ends t c r s g l n : g t = Busy c (Ret r) →
      tokens_step (Tokens s g l n) (Tokens s (set_caller t Idle g) l (if r =? osOK then n ++ [(t, c)] else n)).

Inductive tokens_reach (m0 : tokens) : tokens → Prop :=
  | tokens_here : tokens_reach m0 m0
  | tokens_on m m' : tokens_reach m0 m → tokens_step m m' → tokens_reach m0 m'.

(** [init] tokens, and nobody at work. *)
Record tokens_start (init : Z) (m : tokens) : Prop := {
  ts_word : plain_word a init (tk_sched m);
  ts_init : is_u32 init;
  ts_caller t : tk_caller m t = Idle;
  ts_log : tk_log m = [];
  ts_answered : tk_answered m = []
}.

(** ** The invariant *)
Hypothesis Hcall : ∀ c p, call c p → once c false p.

(** The history of a caller has what he answered for, and the change he has
    made in the call he is in. *)
Definition accounted (log answered : list (Z * move)) (t : Z) (x : caller) : Prop :=
  match x with
  | Idle => ∀ c, times t c log = times t c answered
  | Busy c p => ∃ made, once c made p ∧
      ∀ d, times t d log = (times t d answered + if decide (d = c) then Nat.b2n made else 0)%nat
  end.

Record tokens_inv (init : Z) (m : tokens) : Prop := {
  ti_word : ∃ v, plain_word a v (tk_sched m) ∧ is_u32 v ∧ counter init (tk_log m) = Some v;
  ti_caller t : accounted (tk_log m) (tk_answered m) t (tk_caller m t)
}.

Lemma accounted_other log log' n n' t u x :
  u ≠ t → (∀ d, times u d log' = times u d log) → (∀ d, times u d n' = times u d n) →
  accounted log n u x → accounted log' n' u x.
Proof.
  intros Hu Hl Hn. destruct x as [|c p]; cbn.
  - intros E d. by rewrite Hl, Hn.
  - intros (made & Ho & E). exists made. split; [done|]. intros d. by rewrite Hl, Hn.
Qed.

Lemma times_other u t c d log : u ≠ t → times u d (log ++ [(t, c)]) = times u d log.
Proof. intros Hu. rewrite times_app, times_one. case_decide; [congruence|lia]. Qed.

Lemma set_caller_accounted log log' n n' t x g :
  (∀ u d, u ≠ t → times u d log' = times u d log) → (∀ u d, u ≠ t → times u d n' = times u d n) →
  accounted log' n' t x → (∀ u, accounted log n u (g u)) → ∀ u, accounted log' n' u (set_caller t x g u).
Proof.
  intros Hl Hn Ht Hg u. unfold set_caller. case_decide as E; [by subst|].
  eapply (accounted_other log log' n n' t); eauto.
Qed.

(** The event behind a call of the scheduler leaves the word alone. *)
Lemma service_plain e v s s' : admissible s e → no_store a e → plain_word a v s → run_event e s = Done tt s' →
  plain_word a v s' ∧ word_at s' !! a = word_at s !! a.
Proof.
  intros Ha Hn Hp E. assert (plain_word a v s') as Hp' by by eapply event_plain. split; [done|].
  by rewrite (pw_word _ _ _ Hp), (pw_word _ _ _ Hp').
Qed.

Lemma plain_stored v v' s : plain_word a v s → plain_word a v' (s <| word_at := <[a := v']> (word_at s) |>).
Proof. intros [Hw Hf]. split; [rsimp; apply lookup_insert_eq|done]. Qed.

Lemma u32_succ_ne v : is_u32 v → u32 (v + 1) ≠ v.
Proof.
  unfold is_u32, u32. intros Hv. destruct (decide (v + 1 < word)); [rewrite Z.mod_small; lia|].
  replace (v + 1) with (0 + 1 * word) by lia. rewrite Z_mod_plus_full, Z.mod_0_l; unfold word in *; lia.
Qed.

(** One access: no change, or the one change of the call. *)
Lemma access_once core c made (p p' : prog L Z) v s s' :
  plain_word a v s → is_u32 v → once c made p → access a f core s p s' p' →
  (plain_word a v s' ∧ word_at s' !! a = word_at s !! a ∧ once c made p') ∨
  (∃ v', made = false ∧ plain_word a v' s' ∧ v' ≠ v ∧ is_u32 v' ∧ count_move c v = Some v' ∧ once c true p').
Proof.
  intros Hp Hu Ho Hacc. pose proof (pw_word _ _ _ Hp) as Hw.
  destruct Hacc as [m k z|k w Hw1|e d k Hw1|e d k w Hw1 Hne|d k w Hw1|e d k z frame fr s' Hfr _ _ _ Ha E|k z frame fr s' Hfr _ _ Ha E];
    cbn [once] in Ho.
  - left. auto.
  - left. auto.
  - right. destruct Ho as (-> & -> & He & Hpos & -> & Hk & _). assert (e = v) as -> by congruence.
    exists (v - 1). split_and!; [done|by eapply plain_stored|lia|unfold is_u32 in *; lia| |done].
    cbn [count_move]. by destruct (Z.ltb_spec 0 v); [|lia].
  - left. destruct Ho as (-> & -> & He & Hpos & -> & _ & Hk). assert (w = v) as -> by congruence. auto.
  - right. destruct Ho as (-> & -> & -> & Hk). assert (w = v) as -> by congruence.
    exists (u32 (v + 1)). split_and!; [done|by eapply plain_stored|by apply u32_succ_ne|apply u32_range|done|done].
  - left. destruct (service_plain _ v s s' Ha ltac:(done) Hp E). auto.
  - left. destruct (service_plain _ v s s' Ha ltac:(done) Hp E). auto.
Qed.

Lemma tokens_step_inv init m m' : tokens_inv init m → tokens_step m m' → tokens_inv init m'.
Proof.
  intros [(v & Hp & Hu & Hv) Hc] Hst.
  destruct Hst as [e s s' g l n Ha Hn E|t c p s g l n Hg Hcp|core t c p p' s s' g l n Hg Hacc|core t c k z s s' g l n Hg Ha E|t c r s g l n Hg];
    cbn [tk_sched tk_caller tk_log tk_answered] in *.
  - split; [|done]. exists v. split; [|done]. by eapply service_plain.
  - split; [by exists v|]. eapply set_caller_accounted; [done|done| |exact Hc].
    pose proof (Hc t) as Ht. rewrite Hg in Ht. exists false. split; [by apply Hcall|]. intros d. rewrite Ht. destruct (decide (d = c)); by rewrite Nat.add_0_r.
  - pose proof (Hc t) as Ht. rewrite Hg in Ht. destruct Ht as (made & Ho & Ht).
    destruct (access_once core c made p p' v s s' Hp Hu Ho Hacc) as [(Hp' & Hsame & Ho')|(v' & -> & Hp' & Hne & Hu' & Hmove & Ho')]; unfold logged.
    + rewrite decide_True by done. split; [by exists v|]. eapply set_caller_accounted; [done|done| |exact Hc]. by exists made.
    + rewrite decide_False by (rewrite (pw_word _ _ _ Hp), (pw_word _ _ _ Hp'); congruence). split.
      * exists v'. split; [done|]. split; [done|]. cbn [tk_log]. by rewrite (counter_snoc _ _ _ _ v).
      * eapply set_caller_accounted; [intros u d Hne'; by apply times_other|done| |exact Hc].
        exists true. split; [done|]. intros d. cbn [tk_log tk_answered]. rewrite times_app, times_one, Ht. repeat case_decide; cbn; first [lia|congruence].
  - split; [exists v; split; [|done]; by eapply service_plain|]. eapply set_caller_accounted; [done|done| |exact Hc].
    pose proof (Hc t) as Ht. rewrite Hg in Ht. destruct Ht as (made & Ho & Ht). exists made. split; [apply Ho|done].
  - split; [by exists v|]. pose proof (Hc t) as Ht. rewrite Hg in Ht. destruct Ht as (made & Ho & Ht). cbn [once] in Ho. subst made.
    cbn [tk_log tk_answered]. eapply set_caller_accounted; [done| | |exact Hc].
    + intros u d Hne. destruct (r =? osOK); [by apply times_other|done].
    + intros d. rewrite Ht. destruct (r =? osOK); [rewrite times_app, times_one|]; repeat case_decide; cbn; first [lia|congruence].
Qed.

(** The history is a run of the counter that ends at the word, and has for each
    caller the calls he got osOK for, and at most the one he is in. *)
Lemma tokens_counted init m0 m : tokens_start init m0 → tokens_reach m0 m →
  ∃ v, word_at (tk_sched m) !! a = Some v ∧ counter init (tk_log m) = Some v ∧
    (init + total Give (tk_log m) < word → v + total Take (tk_log m) = init + total Give (tk_log m)) ∧
    ∀ t, match tk_caller m t with
         | Idle => ∀ c, times t c (tk_log m) = times t c (tk_answered m)
         | Busy c _ => ∀ d, (times t d (tk_answered m) <= times t d (tk_log m)
                              <= times t d (tk_answered m) + if decide (d = c) then 1 else 0)%nat
         end.
Proof.
  intros [Hw Hi Hidle Hl Hn] Hr. assert (tokens_inv init m) as [(v & Hp & Hu & Hv) Hc].
  { induction Hr as [|m1 m2 _ IH Hst]; [|by eapply tokens_step_inv]. split; [exists init; by rewrite Hl|].
    intros t. rewrite Hidle, Hl, Hn. done. }
  exists v. split; [apply Hp|]. split; [done|]. split; [intros Hg; by eapply counter_conserves|].
  intros t. specialize (Hc t). destruct (tk_caller m t) as [|c p]; [done|]. destruct Hc as (made & _ & E). intros d. rewrite E.
  case_decide; destruct made; cbn; lia.
Qed.
End system.
