(* ===== verification/SemaphoreClaims.v ===== *)
(** * Many callers and one semaphore

    The programs of [SemaphorePrograms] in the system of [SemaphoreSystem], and
    two releases that pass the same check of the maximum. *)
From S2P Require Import Prelude Scheduler SchedulerSvc SchedulerApi SchedulerInv SchedulerSafe SchedulerWake SchedulerHandlers SchedulerSwitch SchedulerSystem SchedulerCalls SchedulerCheck SchedulerSample WakeLaws MutexFrame WordFrame MutexSystem MutexSample Rtos Kernel RtosLaws RtosAccesses Semaphore SemaphoreLaws SemaphorePrograms SemaphoreSystem Reaper EventFlags Thread Mutex MutexLaws RtosSample.

(** ** Linearization *)
Section claims.
Context `{Environment} `{Trap} `{RtosEnv}.

(** The calls that take a token of the semaphore [id], and those that give one. *)
Definition semaphore_call (id : Z) (c : move) (p : prog (OM Z) Z) : Prop :=
  match c with
  | Take => ∃ core fuel timeout, p = take_prog core id fuel timeout
  | Give => ∃ core, p = give_prog core id
  end.

Lemma semaphore_call_once id c p : semaphore_call id c p → once c false p.
Proof. destruct c; [intros (? & ? & ? & ->); apply once_take|intros (? & ->); apply once_give]. Qed.

(** C6: Any number of threads and interrupt handlers that acquire and release a
    semaphore, their accesses interleaved in any order with each other and with
    service calls, context switches, ticks and deferred wakes: the changes of the
    count, in the order they were made, are a run of a counter that ends at the
    count and takes no token from zero; a caller has made one change for each call
    that answered osOK, and none for any other, plus at most the one of the call he
    is in; so, short of an overflow, the count is what it was at the start plus
    what was released less what was acquired.  The programs that interleave are the
    code's: run alone each is the function. *)
Theorem osSemaphore_linearizes id init (m0 mm : tokens) :
  Heedless (semaphore_value id) → tokens_start (semaphore_value id) init m0 →
  tokens_reach (semaphore_value id) (futex_of id) (semaphore_call id) m0 mm →
  (∀ core fuel timeout o,
     let alone p := @run _ _ (semaphore_accesses core id) p o in
     alone (take_prog core id fuel timeout) = osSemaphoreAcquire core fuel id timeout o ∧
     alone (give_prog core id) = osSemaphoreRelease core id o) ∧
  ∃ v, word_at (tk_sched mm) !! semaphore_value id = Some v ∧ counter init (tk_log mm) = Some v ∧
    (init + total Give (tk_log mm) < word → v + total Take (tk_log mm) = init + total Give (tk_log mm)) ∧
    ∀ t, match tk_caller mm t with
         | Idle => ∀ c, times t c (tk_log mm) = times t c (tk_answered mm)
         | Busy c _ => ∀ d, (times t d (tk_answered mm) <= times t d (tk_log mm)
                              <= times t d (tk_answered mm) + if decide (d = c) then 1 else 0)%nat
         end.
Proof.
  intros Hun Hm Hr. split; [intros; split; [apply run_take|apply run_give]|].
  revert Hm Hr. apply tokens_counted; [done|apply semaphore_call_once].
Qed.
End claims.

(** ** A maximum passed *)
Section overshoot.
Context `{EnvironmentLaws} `{Trap} `{RtosEnv} {Hund : Undisturbed}.

(** A release up to the addition. *)
Lemma give_checks core id max v l (Q : prog (OM Z) Z → rtos → Prop) o :
  calling core o → semaphore_at id max v l o → v < max →
  Q (Add 1 (λ old, if old =? 0 then Wake (λ _, Ret osOK) else Ret osOK)) o →
  wp (@advances _ _ (semaphore_accesses core id) 3 (give_prog core id)) Q o.
Proof.
  intros Hc Hs Hv HQ. cbn [advances give_prog advance]. wp_step. wp_step. unfold checked. wp_step.
  apply wp_context; [done|]. cbn [negb Z.eqb osOK]. apply wp_resource; [by eapply sa_block|]. wp_step. wp_step. cbn [negb Z.eqb osOK advance].
  wp_step. eapply (wp_load (semaphore_value id)); [apply Hs|]. wp_step. wp_step. cbn [advance]. wp_step. eapply wp_max_count; [done|].
  rewrite (proj2 (Z.leb_gt max v)) by lia. wp_step. by wp_step.
Qed.

(** The addition of a release that wakes nobody. *)
Lemma give_adds core id max v l (Q : prog (OM Z) Z → rtos → Prop) o :
  semaphore_at id max v l o → v ≠ 0 → v + 1 < word → Q (Ret osOK) (stored (semaphore_value id) (v + 1) o) →
  wp (@advance _ _ (semaphore_accesses core id) (Add 1 (λ old, if old =? 0 then Wake (λ _, Ret osOK) else Ret osOK))) Q o.
Proof.
  intros Hs Hv Hm HQ. destruct (sa_bounds _ _ _ _ _ Hs) as [[? _] _]. cbn [advance]. wp_step.
  eapply wp_fetch_map; [apply Hs|]. rewrite u32_small by (unfold is_u32; lia). rewrite (proj2 (Z.eqb_neq _ _) Hv). by wp_step.
Qed.

(** Two releases of a semaphore one short of its maximum, that both compare the
    count before either adds: both answer osOK, and the count passes the maximum. *)
Theorem osSemaphoreRelease_overshoots core core' id max l o :
  calling core o → calling core' o → semaphore_at id max (max - 1) l o → 1 < max → max + 1 < word →
  wp (p <- @advances _ _ (semaphore_accesses core id) 3 (give_prog core id) ;;
      q <- @advances _ _ (semaphore_accesses core' id) 3 (give_prog core' id) ;;
      p <- @advance _ _ (semaphore_accesses core id) p ;;
      q <- @advance _ _ (semaphore_accesses core' id) q ;; ret (p, q))
    (λ pq o', pq = (Ret osOK, Ret osOK) ∧ word_of o' (semaphore_value id) = Some (max + 1)) o.
Proof.
  intros Hc Hc' Hs Hm Hw. wp_step. eapply give_checks; [done|done|lia|]. wp_step. eapply give_checks; [done|done|lia|].
  wp_step. eapply give_adds; [done|lia|lia|]. rewrite Z.sub_add. pose proof (semaphore_stored _ _ _ max _ _ Hs ltac:(lia)) as Hs'.
  wp_step. eapply give_adds; [exact Hs'|lia|lia|]. wp_step. split; [done|]. by apply word_stored_eq.
Qed.
End overshoot.

(** ** Two cores, one that takes and one that gives, for the semaphore at 4000 *)
#[local] Existing Instances sample_env sample_trap sample_env_laws sample_undisturbed.

Lemma sample_heedless a : Heedless a.
Proof.
  split.
  - intros. apply keeps_ret.
  - intros. apply keeps_ret.
  - intros v core. cbn. unfold scheduler_request_switch, upd_cls. apply keeps_if; [|apply keeps_ret].
    apply keeps_upd. intros s. by apply plain_mono.
Qed.

Definition one_token : sched := (two_cores 4072 4040 0) <| word_at := {[4072 := 1]} |>.
Definition callers : tokens := Tokens one_token (λ _, Idle (L := OM Z)) [] [].
Notation callers_reach := (tokens_reach 4072 4040 (semaphore_call 4000) callers).

Lemma callers_start : tokens_start 4072 1 callers.
Proof.
  split; [|done..]. split; [done|]. intros g fx. cbn. intros E _.
  change (({[4040 := Futex 4072 [] 0 SCHEDULER_FUTEX_MARKER]} : gmap Z futex) !! g = Some fx) in E. by apply lookup_singleton_Some in E as [_ <-].
Qed.

(** One more step of a run. *)
Ltac tokens_go R step :=
  let R' := fresh "R" in
  eassert (callers_reach _) as R' by (eapply tokens_on; [exact R|step]);
  clear R; rename R' into R.
Ltac takes access := eapply call_goes with (core := 0) (t := 0x5000); [reflexivity|access].
Ltac gives access := eapply call_goes with (core := 1) (t := 0x5200); [reflexivity|access].

(** The release adds between the two exchanges of the acquire. *)
Lemma callers_run : ∃ m, callers_reach m ∧ tk_caller m 0x5000 = Idle ∧ tk_caller m 0x5200 = Idle ∧
  tk_answered m = [(0x5000, Take); (0x5200, Give)] ∧ tk_log m = [(0x5200, Give); (0x5000, Take)].
Proof.
  eassert (callers_reach _) as R by apply tokens_here. unfold callers at 2 in R.
  tokens_go R ltac:(eapply call_starts with (t := 0x5000) (c := Take); [done|by exists 0, 2%nat, 0]).
  tokens_go R ltac:(eapply call_starts with (t := 0x5200) (c := Give); [done|by exists 1]).
  tokens_go R ltac:(takes ltac:(apply access_local with (z := osOK))).
  tokens_go R ltac:(gives ltac:(apply access_local with (z := osOK))).
  tokens_go R ltac:(gives ltac:(by apply access_read)).
  tokens_go R ltac:(gives ltac:(apply access_local with (z := 5))).
  tokens_go R ltac:(gives ltac:(by apply access_add)).
  tokens_go R ltac:(takes ltac:(by apply access_cas_failed with (w := 2))).
  tokens_go R ltac:(takes ltac:(by apply access_cas_done)).
  tokens_go R ltac:(eapply call_ends with (t := 0x5000) (r := osOK); reflexivity).
  tokens_go R ltac:(eapply call_ends with (t := 0x5200) (r := osOK); reflexivity).
  eexists. split; [exact R|]. split; [done|]. split; [done|]. split; [done|]. vm_compute. reflexivity.
Qed.

Lemma osSemaphore_linearizes_witness :
  ∃ m, callers_reach m ∧ word_at (tk_sched m) !! 4072 = Some 1 ∧ counter 1 (tk_log m) = Some 1 ∧
    times 0x5000 Take (tk_log m) = times 0x5000 Take (tk_answered m).
Proof.
  destruct callers_run as (m & R & Ht & Hg & Hn & Hl). exists m. split; [exact R|].
  destruct (osSemaphore_linearizes 4000 1 callers m) as (_ & v & Hv & Hc & Hsum & Hcall);
    [apply sample_heedless|apply callers_start|exact R|].
  rewrite Hl in Hsum. specialize (Hsum eq_refl). change (v + 1 = 1 + 1) in Hsum. assert (v = 1) as -> by lia.
  split; [exact Hv|]. split; [exact Hc|]. specialize (Hcall 0x5000). rewrite Ht in Hcall. apply Hcall.
Defined.

(** The semaphore at 4048, one short of its maximum of two, on one core. *)
Lemma osSemaphoreRelease_overshoots_witness :
  wp (p <- @advances _ _ (semaphore_accesses 0 4048) 3 (give_prog 0 4048) ;;
      q <- @advances _ _ (semaphore_accesses 0 4048) 3 (give_prog 0 4048) ;;
      p <- @advance _ _ (semaphore_accesses 0 4048) p ;;
      q <- @advance _ _ (semaphore_accesses 0 4048) q ;; ret (p, q))
    (λ pq o', pq = (Ret osOK, Ret osOK) ∧ word_of o' 4120 = Some 3) (stored 4120 1 rt).
Proof.
  apply (osSemaphoreRelease_overshoots 0 0 4048 2 []); [apply calling_stored; exact rt_calling|apply calling_stored; exact rt_calling| |done|done].
  split; [done|by eexists [], 0|by split|done|done].
Defined.
