(* ===== verification/Atomic.v ===== *)
(** * Atomic operations on two cores

    [pico-atomic/pico-atomic.c].  The Cortex-M0+ has no exclusive access, so the
    file brackets every read-modify-write of 1, 2, 4 or 8 bytes with one of 16
    two-core locks, all kept in one register, selected by the address, with
    interrupts masked.  Here each function is a program of single accesses
    ([prog]), run by a machine of two cores that interleaves the accesses and
    lets an interrupt handler start another operation wherever interrupts are
    enabled.  The laws are in AtomicLaws. *)
From S2P Require Import Prelude.

Declare Scope atomic_scope.
Delimit Scope atomic_scope with atomic.

(** ** Programs of accesses

    One access is one transfer on the bus: of the lock register through its
    set and clear aliases, of at most four bytes of memory, or of the core's
    interrupt mask.  [__dmb] orders accesses the machine below never reorders,
    and has no step. *)
Inductive access :=
  | SaveAndDisable
  | RestoreInterrupts (state : Z)
  | SetBits (mask : Z)
  | ClearBits (mask : Z)
  | ReadLockReg
  | Load (bytes : nat) (a : Z)
  | Store (bytes : nat) (a v : Z)
  | Nop.

(** [Until body k] is [while (true) { if (body) break; }], then [k]. *)
Inductive prog (A : Type) :=
  | Ret (a : A)
  | Act (e : access) (k : Z → prog A)
  | Until (body : prog bool) (k : prog A).
Arguments Ret {A} a.
Arguments Act {A} e k.
Arguments Until {A} body k.

Fixpoint pbind {A B} (m : prog A) (k : A → prog B) : prog B :=
  match m with
  | Ret a => k a
  | Act e c => Act e (λ v, pbind (c v) k)
  | Until body c => Until body (pbind c k)
  end.
Notation "x <-- m ;; k" := (pbind m (λ x, k))
  (at level 100, m at next level, right associativity) : atomic_scope.
Notation "m >>> k" := (pbind m (λ _, k)) (at level 100, right associativity) : atomic_scope.
#[local] Open Scope atomic_scope.

Definition act (e : access) : prog Z := Act e Ret.
Fixpoint nops (n : nat) : prog Z := match n with O => Ret 0 | S n => act Nop >>> nops n end.

(** ** The locks *)
Definition ATOMIC_STRIPE : Z := 4.
Definition ATOMIC_LOCKS : Z := 16.
Definition ATOMIC_LOCK_WIDTH : Z := 2.
(** [__builtin_clz] of a 32-bit operand. *)
Definition clz32 (x : Z) : Z := 31 - Z.log2 x.
Definition ATOMIC_LOCK_IDX_Pos : Z := 32 - clz32 (ATOMIC_STRIPE - 1).
Definition ATOMIC_LOCK_IDX_Msk : Z := ATOMIC_LOCKS - 1.

(** The value [__atomic_init] gives the lock register. *)
Definition __atomic_init : Z := 0.

Definition lock_idx (mem : Z) : Z := Z.land (Z.shiftr mem ATOMIC_LOCK_IDX_Pos) ATOMIC_LOCK_IDX_Msk.
Definition lock_pos (mem : Z) : Z := lock_idx mem * ATOMIC_LOCK_WIDTH.
Definition lock_mask (mem : Z) : Z := Z.shiftl (Z.shiftl 1 ATOMIC_LOCK_WIDTH - 1) (lock_pos mem).
Definition locked_mask (c : bool) (mem : Z) : Z := Z.shiftl 1 (lock_pos mem + core_num c).

(** One turn of the loop of [__atomic_lock]. *)
Definition attempt (c : bool) (mem : Z) : prog bool :=
  act (SetBits (locked_mask c mem)) >>>
  reg <-- act ReadLockReg ;;
  if Z.land reg (lock_mask mem) =? locked_mask c mem then Ret true
  else
    act (ClearBits (locked_mask c mem)) >>>
    nops (Z.to_nat (core_num c * 2)) >>>
    Ret false.

Definition __atomic_lock (c : bool) (mem : Z) : prog Z :=
  state <-- act SaveAndDisable ;;
  Until (attempt c mem) (Ret state).

Definition __atomic_unlock (c : bool) (mem state : Z) : prog Z :=
  act (ClearBits (locked_mask c mem)) >>>
  act (RestoreInterrupts state).

(** ** Typed accesses *)
Inductive width := W1 | W2 | W4 | W8.
#[export] Instance width_eq_dec : EqDecision width.
Proof. solve_decision. Defined.

Definition size_of (w : width) : nat := match w with W1 => 1 | W2 => 2 | W4 => 4 | W8 => 8 end.
(** Conversion to [uint8_t], [uint16_t], [uint32_t], [uint64_t]. *)
Definition truncate (w : width) (x : Z) : Z := x mod 2 ^ (8 * Z.of_nat (size_of w)).

(** [*ptr]: a 64-bit object takes two transfers, low word first. *)
Definition deref (w : width) (ptr : Z) : prog Z :=
  match w with
  | W8 => lo <-- act (Load 4 ptr) ;; hi <-- act (Load 4 (ptr + 4)) ;; Ret (lo + hi * 2 ^ 32)
  | _ => act (Load (size_of w) ptr)
  end.
(** [*ptr = v] *)
Definition assign (w : width) (ptr v : Z) : prog Z :=
  match w with
  | W8 => act (Store 4 ptr (v mod 2 ^ 32)) >>> act (Store 4 (ptr + 4) (v / 2 ^ 32))
  | _ => act (Store (size_of w) ptr v)
  end.

(** ** The operations

    [result = *ptr] and the compound assignment read the variable twice: it is
    volatile. *)
Section operations.
Context (c : bool).

Definition __atomic_fetch_add_1 (mem val : Z) : prog Z :=
  state <-- __atomic_lock c mem ;;
  result <-- deref W1 mem ;;
  now <-- deref W1 mem ;;
  assign W1 mem (truncate W1 (now + val)) >>>
  __atomic_unlock c mem state >>>
  Ret result.

Definition __atomic_fetch_sub_1 (mem val : Z) : prog Z :=
  state <-- __atomic_lock c mem ;;
  result <-- deref W1 mem ;;
  now <-- deref W1 mem ;;
  assign W1 mem (truncate W1 (now - val)) >>>
  __atomic_unlock c mem state >>>
  Ret result.

Definition __atomic_fetch_and_1 (mem val : Z) : prog Z :=
  state <-- __atomic_lock c mem ;;
  result <-- deref W1 mem ;;
  now <-- deref W1 mem ;;
  assign W1 mem (truncate W1 (Z.land now val)) >>>
  __atomic_unlock c mem state >>>
  Ret result.

Definition __atomic_fetch_or_1 (mem val : Z) : prog Z :=
  state <-- __atomic_lock c mem ;;
  result <-- deref W1 mem ;;
  now <-- deref W1 mem ;;
  assign W1 mem (truncate W1 (Z.lor now val)) >>>
  __atomic_unlock c mem state >>>
  Ret result.

Definition __atomic_exchange_1 (mem val : Z) : prog Z :=
  state <-- __atomic_lock c mem ;;
  result <-- deref W1 mem ;;
  assign W1 mem val >>>
  __atomic_unlock c mem state >>>
  Ret result.

Definition __atomic_compare_exchange_1 (mem expected desired : Z) : prog Z :=
  state <-- __atomic_lock c mem ;;
  now <-- deref W1 mem ;;
  e <-- deref W1 expected ;;
  result <-- (if now =? e then assign W1 mem desired >>> Ret 1
              else now <-- deref W1 mem ;; assign W1 expected now >>> Ret 0) ;;
  __atomic_unlock c mem state >>>
  Ret result.

Definition __atomic_fetch_add_2 (mem val : Z) : prog Z :=
  state <-- __atomic_lock c mem ;;
  result <-- deref W2 mem ;;
  now <-- deref W2 mem ;;
  assign W2 mem (truncate W2 (now + val)) >>>
  __atomic_unlock c mem state >>>
  Ret result.

Definition __atomic_fetch_sub_2 (mem val : Z) : prog Z :=
  state <-- __atomic_lock c mem ;;
  result <-- deref W2 mem ;;
  now <-- deref W2 mem ;;
  assign W2 mem (truncate W2 (now - val)) >>>
  __atomic_unlock c mem state >>>
  Ret result.

Definition __atomic_fetch_and_2 (mem val : Z) : prog Z :=
  state <-- __atomic_lock c mem ;;
  result <-- deref W2 mem ;;
  now <-- deref W2 mem ;;
  assign W2 mem (truncate W2 (Z.land now val)) >>>
  __atomic_unlock c mem state >>>
  Ret result.

(** This one keeps the saved interrupt state in a [uint16_t]. *)
Definition __atomic_fetch_or_2 (mem val : Z) : prog Z :=
  state <-- __atomic_lock c mem ;;
  result <-- deref W2 mem ;;
  now <-- deref W2 mem ;;
  assign W2 mem (truncate W2 (Z.lor now val)) >>>
  __atomic_unlock c mem (truncate W2 state) >>>
  Ret result.

Definition __atomic_exchange_2 (mem val : Z) : prog Z :=
  state <-- __atomic_lock c mem ;;
  result <-- deref W2 mem ;;
  assign W2 mem val >>>
  __atomic_unlock c mem state >>>
  Ret result.

Definition __atomic_compare_exchange_2 (mem expected desired : Z) : prog Z :=
  state <-- __atomic_lock c mem ;;
  now <-- deref W2 mem ;;
  e <-- deref W2 expected ;;
  result <-- (if now =? e then assign W2 mem desired >>> Ret 1
              else now <-- deref W2 mem ;; assign W2 expected now >>> Ret 0) ;;
  __atomic_unlock c mem state >>>
  Ret result.

Definition __atomic_fetch_add_4 (mem val : Z) : prog Z :=
  state <-- __atomic_lock c mem ;;
  result <-- deref W4 mem ;;
  now <-- deref W4 mem ;;
  assign W4 mem (truncate W4 (now + val)) >>>
  __atomic_unlock c mem state >>>
  Ret result.

Definition __atomic_fetch_sub_4 (mem val : Z) : prog Z :=
  state <-- __atomic_lock c mem ;;
  result <-- deref W4 mem ;;
  now <-- deref W4 mem ;;
  assign W4 mem (truncate W4 (now - val)) >>>
  __atomic_unlock c mem state >>>
  Ret result.

Definition __atomic_fetch_and_4 (mem val : Z) : prog Z :=
  state <-- __atomic_lock c mem ;;
  result <-- deref W4 mem ;;
  now <-- deref W4 mem ;;
  assign W4 mem (truncate W4 (Z.land now val)) >>>
  __atomic_unlock c mem state >>>
  Ret result.

Definition __atomic_fetch_or_4 (mem val : Z) : prog Z :=
  state <-- __atomic_lock c mem ;;
  result <-- deref W4 mem ;;
  now <-- deref W4 mem ;;
  assign W4 mem (truncate W4 (Z.lor now val)) >>>
  __atomic_unlock c mem state >>>
  Ret result.

Definition __atomic_exchange_4 (mem val : Z) : prog Z :=
  state <-- __atomic_lock c mem ;;
  result <-- deref W4 mem ;;
  assign W4 mem val >>>
  __atomic_unlock c mem state >>>
  Ret result.

Definition __atomic_compare_exchange_4 (mem expected desired : Z) : prog Z :=
  state <-- __atomic_lock c mem ;;
  now <-- deref W4 mem ;;
  e <-- deref W4 expected ;;
  result <-- (if now =? e then assign W4 mem desired >>> Ret 1
              else now <-- deref W4 mem ;; assign W4 expected now >>> Ret 0) ;;
  __atomic_unlock c mem state >>>
  Ret result.

Definition __atomic_fetch_add_8 (mem val : Z) : prog Z :=
  state <-- __atomic_lock c mem ;;
  result <-- deref W8 mem ;;
  now <-- deref W8 mem ;;
  assign W8 mem (truncate W8 (now + val)) >>>
  __atomic_unlock c mem state >>>
  Ret result.

Definition __atomic_fetch_sub_8 (mem val : Z) : prog Z :=
  state <-- __atomic_lock c mem ;;
  result <-- deref W8 mem ;;
  now <-- deref W8 mem ;;
  assign W8 mem (truncate W8 (now - val)) >>>
  __atomic_unlock c mem state >>>
  Ret result.

Definition __atomic_fetch_and_8 (mem val : Z) : prog Z :=
  state <-- __atomic_lock c mem ;;
  result <-- deref W8 mem ;;
  now <-- deref W8 mem ;;
  assign W8 mem (truncate W8 (Z.land now val)) >>>
  __atomic_unlock c mem state >>>
  Ret result.

Definition __atomic_fetch_or_8 (mem val : Z) : prog Z :=
  state <-- __atomic_lock c mem ;;
  result <-- deref W8 mem ;;
  now <-- deref W8 mem ;;
  assign W8 mem (truncate W8 (Z.lor now val)) >>>
  __atomic_unlock c mem state >>>
  Ret result.

Definition __atomic_exchange_8 (mem val : Z) : prog Z :=
  state <-- __atomic_lock c mem ;;
  result <-- deref W8 mem ;;
  assign W8 mem val >>>
  __atomic_unlock c mem state >>>
  Ret result.

Definition __atomic_compare_exchange_8 (mem expected desired : Z) : prog Z :=
  state <-- __atomic_lock c mem ;;
  now <-- deref W8 mem ;;
  e <-- deref W8 expected ;;
  result <-- (if now =? e then assign W8 mem desired >>> Ret 1
              else now <-- deref W8 mem ;; assign W8 expected now >>> Ret 0) ;;
  __atomic_unlock c mem state >>>
  Ret result.

(** The local is a [uint32_t]. *)
Definition __atomic_load_8 (mem : Z) : prog Z :=
  state <-- __atomic_lock c mem ;;
  result <-- deref W8 mem ;;
  __atomic_unlock c mem state >>>
  Ret (u32 result).

Definition __atomic_store_8 (mem val : Z) : prog Z :=
  state <-- __atomic_lock c mem ;;
  assign W8 mem val >>>
  __atomic_unlock c mem state >>>
  Ret 0.

Definition __atomic_test_and_set_m0 (mem : Z) : prog Z :=
  state <-- __atomic_lock c mem ;;
  result <-- deref W1 mem ;;
  assign W1 mem 1 >>>
  __atomic_unlock c mem state >>>
  Ret result.

(** No lock. *)
Definition __atomic_clear_m0 (mem : Z) : prog Z :=
  assign W1 mem 0 >>>
  Ret 0.
End operations.

(** ** Calls *)
Inductive fetch := Add | Sub | And | Or.
Inductive call :=
  | Fetch (f : fetch) (w : width) (mem val : Z)
  | Exchange (w : width) (mem val : Z)
  | CompareExchange (w : width) (mem expected desired : Z)
  | Load8 (mem : Z)
  | Store8 (mem val : Z)
  | TestAndSet (mem : Z)
  | Clear (mem : Z).

(** The function a call of [stdatomic.h] is compiled to. *)
Definition function_of (c : bool) (k : call) : prog Z :=
  match k with
  | Fetch Add W1 mem val => __atomic_fetch_add_1 c mem val
  | Fetch Add W2 mem val => __atomic_fetch_add_2 c mem val
  | Fetch Add W4 mem val => __atomic_fetch_add_4 c mem val
  | Fetch Add W8 mem val => __atomic_fetch_add_8 c mem val
  | Fetch Sub W1 mem val => __atomic_fetch_sub_1 c mem val
  | Fetch Sub W2 mem val => __atomic_fetch_sub_2 c mem val
  | Fetch Sub W4 mem val => __atomic_fetch_sub_4 c mem val
  | Fetch Sub W8 mem val => __atomic_fetch_sub_8 c mem val
  | Fetch And W1 mem val => __atomic_fetch_and_1 c mem val
  | Fetch And W2 mem val => __atomic_fetch_and_2 c mem val
  | Fetch And W4 mem val => __atomic_fetch_and_4 c mem val
  | Fetch And W8 mem val => __atomic_fetch_and_8 c mem val
  | Fetch Or W1 mem val => __atomic_fetch_or_1 c mem val
  | Fetch Or W2 mem val => __atomic_fetch_or_2 c mem val
  | Fetch Or W4 mem val => __atomic_fetch_or_4 c mem val
  | Fetch Or W8 mem val => __atomic_fetch_or_8 c mem val
  | Exchange W1 mem val => __atomic_exchange_1 c mem val
  | Exchange W2 mem val => __atomic_exchange_2 c mem val
  | Exchange W4 mem val => __atomic_exchange_4 c mem val
  | Exchange W8 mem val => __atomic_exchange_8 c mem val
  | CompareExchange W1 mem e d => __atomic_compare_exchange_1 c mem e d
  | CompareExchange W2 mem e d => __atomic_compare_exchange_2 c mem e d
  | CompareExchange W4 mem e d => __atomic_compare_exchange_4 c mem e d
  | CompareExchange W8 mem e d => __atomic_compare_exchange_8 c mem e d
  | Load8 mem => __atomic_load_8 c mem
  | Store8 mem val => __atomic_store_8 c mem val
  | TestAndSet mem => __atomic_test_and_set_m0 c mem
  | Clear mem => __atomic_clear_m0 mem
  end.

(** ** Memory: bytes by address, little endian *)
Notation memory := (gmap Z Z).
Definition byte_at (m : memory) (a : Z) : Z := default 0 (m !! a).

Fixpoint load (n : nat) (a : Z) (m : memory) : Z :=
  match n with O => 0 | S n => byte_at m a + 256 * load n (a + 1) m end.
Fixpoint store (n : nat) (a v : Z) (m : memory) : memory :=
  match n with O => m | S n => store n (a + 1) (v / 256) (<[a := v mod 256]> m) end.

(** ** The machine

    A core has a stack of operations in progress: the topmost runs, and an
    interrupt handler that starts another one suspends it. *)
Inductive event := Called (c : bool) (k : call) | Returned (c : bool) (k : call) (v : Z).

Record machine := Machine {
  lock_reg : Z;
  mem : memory;
  primask : bool → Z;
  frames : bool → list (call * prog Z);
  trace : list event
}.

(** The effect of one access of core [c]: the value read, and the machine. *)
Definition perform (c : bool) (e : access) (s : machine) : Z * machine :=
  let '(Machine reg m pm fr tr) := s in
  match e with
  | SaveAndDisable => (pm c, Machine reg m (upd_core c 1 pm) fr tr)
  | RestoreInterrupts st => (0, Machine reg m (upd_core c st pm) fr tr)
  | SetBits mask => (0, Machine (Z.lor reg mask) m pm fr tr)
  | ClearBits mask => (0, Machine (Z.ldiff reg mask) m pm fr tr)
  | ReadLockReg => (reg, s)
  | Load n a => (load n a m, s)
  | Store n a v => (0, Machine reg (store n a v m) pm fr tr)
  | Nop => (0, s)
  end.

Definition set_frames (c : bool) (l : list (call * prog Z)) (s : machine) : machine :=
  Machine (lock_reg s) (mem s) (primask s) (upd_core c l (frames s)) (trace s).
Definition record_event (e : event) (s : machine) : machine :=
  Machine (lock_reg s) (mem s) (primask s) (frames s) (trace s ++ [e]).

(** The next step of the running operation of core [c]. *)
Definition advance (c : bool) (s : machine) : option machine :=
  match frames s c with
  | [] => None
  | (k, p) :: fs =>
      Some match p with
      | Ret v => record_event (Returned c k v) (set_frames c fs s)
      | Act e cont => let '(v, s') := perform c e s in set_frames c ((k, cont v) :: fs) s'
      | Until body cont =>
          set_frames c ((k, b <-- body ;; if b then cont else Until body cont) :: fs) s
      end
  end.

(** Core [c] starts the operation [k]: between two operations, or in a handler
    that interrupts one while interrupts are enabled. *)
Definition start (c : bool) (k : call) (s : machine) : machine :=
  record_event (Called c k) (set_frames c ((k, function_of c k) :: frames s c) s).

Inductive step (allowed : bool → call → Prop) : machine → machine → Prop :=
  | step_start c k s : allowed c k → frames s c = [] ∨ primask s c = 0 → step allowed s (start c k s)
  | step_run c s s' : advance c s = Some s' → step allowed s s'.

Inductive reachable (allowed : bool → call → Prop) (s0 : machine) : machine → Prop :=
  | reachable_start : reachable allowed s0 s0
  | reachable_next s s' : reachable allowed s0 s → step allowed s s' → reachable allowed s0 s'.

(** The machine after [__atomic_init]: nothing runs. *)
Definition initial (m : memory) (pm : bool → Z) : machine := Machine __atomic_init m pm (λ _, []) [].
