(* ===== verification/AtomicLaws.v ===== *)
(** * Laws of the atomic operations

    The memory, the critical section of each operation and its reference
    meaning, the arithmetic of the lock register, and the simulation of the
    two-core machine by the machine that executes every operation in one
    step. *)
From S2P Require Import Prelude Atomic.
#[local] Open Scope atomic_scope.

(** ** Memory *)
Lemma byte_at_insert m a b v : byte_at (<[a := v]> m) b = if decide (a = b) then v else byte_at m b.
Proof. unfold byte_at. rewrite lookup_insert. by case_decide. Qed.

Lemma store_outside n : ∀ a v m b, b < a ∨ a + Z.of_nat n <= b → store n a v m !! b = m !! b.
Proof.
  induction n as [|n IH]; intros a v m b Hb; cbn [store]; [done|].
  rewrite IH by lia. apply lookup_insert_ne. lia.
Qed.

Lemma load_agree n : ∀ a m m', (∀ b, a <= b < a + Z.of_nat n → m !! b = m' !! b) → load n a m = load n a m'.
Proof.
  induction n as [|n IH]; intros a m m' E; cbn [load]; [done|].
  unfold byte_at. rewrite E by lia. do 2 f_equal. apply IH. intros b Hb. apply E. lia.
Qed.

Lemma store_agree n : ∀ a v m m' b, m !! b = m' !! b → store n a v m !! b = store n a v m' !! b.
Proof.
  induction n as [|n IH]; intros a v m m' b E; cbn [store]; [done|].
  apply IH. rewrite !lookup_insert. by case_decide.
Qed.

Lemma store_same n : ∀ a v m m' b, a <= b < a + Z.of_nat n → store n a v m !! b = store n a v m' !! b.
Proof.
  induction n as [|n IH]; intros a v m m' b Hb; cbn [store]; [lia|].
  destruct (decide (a = b)) as [->|Hne]; [|apply IH; lia].
  rewrite !store_outside by lia. by rewrite !lookup_insert_eq.
Qed.

Lemma pow256_S n : 256 ^ Z.of_nat (S n) = 256 * 256 ^ Z.of_nat n.
Proof. rewrite Nat2Z.inj_succ. apply Z.pow_succ_r. lia. Qed.

Lemma pow256_pos n : 0 < 256 ^ Z.of_nat n.
Proof. apply Z.pow_pos_nonneg; lia. Qed.

Lemma load_store n : ∀ a v m, load n a (store n a v m) = v mod 256 ^ Z.of_nat n.
Proof.
  induction n as [|n IH]; intros a v m; cbn [load store]; [by rewrite Z.mod_1_r|].
  rewrite IH. unfold byte_at. rewrite store_outside by lia. rewrite lookup_insert_eq. cbn.
  rewrite pow256_S, Z.rem_mul_r; pose proof (pow256_pos n); lia.
Qed.

Lemma store_mod n : ∀ a v m, store n a (v mod 256 ^ Z.of_nat n) m = store n a v m.
Proof.
  induction n as [|n IH]; intros a v m; cbn [store]; [done|]. pose proof (pow256_pos n).
  rewrite pow256_S, Z.rem_mul_r by lia.
  pose proof (Z.mod_pos_bound v 256 ltac:(lia)). set (q := (v / 256) mod 256 ^ Z.of_nat n).
  assert ((v mod 256 + 256 * q) mod 256 = v mod 256 ∧ (v mod 256 + 256 * q) / 256 = q) as [-> ->]; [|apply IH].
  rewrite (Z.mul_comm 256 q), Z_mod_plus_full, Z.mod_mod, Z.div_add, Z.div_small by lia. lia.
Qed.

Lemma load_app k n : ∀ a m, load (k + n) a m = load k a m + 256 ^ Z.of_nat k * load n (a + Z.of_nat k) m.
Proof.
  induction k as [|k IH]; intros a m.
  - cbn [Nat.add load]. change (256 ^ Z.of_nat 0) with 1. change (Z.of_nat 0) with 0. by rewrite Z.mul_1_l, Z.add_0_r.
  - cbn [Nat.add load]. rewrite IH, pow256_S. replace (a + 1 + Z.of_nat k) with (a + Z.of_nat (S k)) by lia. ring.
Qed.

Lemma store_app k n : ∀ a v m, store (k + n) a v m = store n (a + Z.of_nat k) (v / 256 ^ Z.of_nat k) (store k a v m).
Proof.
  induction k as [|k IH]; intros a v m.
  - cbn [Nat.add store]. change (256 ^ Z.of_nat 0) with 1. change (Z.of_nat 0) with 0. by rewrite Z.div_1_r, Z.add_0_r.
  - cbn [Nat.add store]. rewrite IH, pow256_S, Z.div_div by (pose proof (pow256_pos k); lia). f_equal. lia.
Qed.

(** Every stored byte is a byte. *)
Definition bytes_ok (m : memory) : Prop := ∀ a, 0 <= byte_at m a < 256.

Lemma store_bytes_ok n : ∀ a v m, bytes_ok m → bytes_ok (store n a v m).
Proof.
  induction n as [|n IH]; intros a v m Hm; cbn [store]; [done|]. apply IH. intros b.
  rewrite byte_at_insert. case_decide; [by apply Z.mod_pos_bound|apply Hm].
Qed.

Lemma load_range n : ∀ a m, bytes_ok m → 0 <= load n a m < 256 ^ Z.of_nat n.
Proof.
  induction n as [|n IH]; intros a m Hm; cbn [load]; [done|].
  rewrite pow256_S. specialize (IH (a + 1) m Hm). specialize (Hm a). lia.
Qed.

(** ** Critical sections

    What an operation does between its lock and its unlock, and what is asked
    of it: [reference] is the meaning the compiler's documentation gives the
    builtin, on the whole object at once. *)
Definition fetch_op (f : fetch) (x y : Z) : Z :=
  match f with Add => x + y | Sub => x - y | And => Z.land x y | Or => Z.lor x y end.

Definition target (k : call) : Z :=
  match k with
  | Fetch _ _ a _ | Exchange _ a _ | CompareExchange _ a _ _ | Load8 a | Store8 a _ | TestAndSet a | Clear a => a
  end.
Definition access_width (k : call) : width :=
  match k with
  | Fetch _ w _ _ | Exchange w _ _ | CompareExchange w _ _ _ => w
  | Load8 _ | Store8 _ _ => W8
  | TestAndSet _ | Clear _ => W1
  end.

Definition critical (k : call) : prog Z :=
  match k with
  | Fetch f w a val =>
      result <-- deref w a ;; now <-- deref w a ;; assign w a (truncate w (fetch_op f now val)) >>> Ret result
  | Exchange w a val => result <-- deref w a ;; assign w a val >>> Ret result
  | CompareExchange w a expected desired =>
      now <-- deref w a ;; e <-- deref w expected ;;
      if now =? e then assign w a desired >>> Ret 1
      else now <-- deref w a ;; assign w expected now >>> Ret 0
  | Load8 a => result <-- deref W8 a ;; Ret (u32 result)
  | Store8 a val => assign W8 a val >>> Ret 0
  | TestAndSet a => result <-- deref W1 a ;; assign W1 a 1 >>> Ret result
  | Clear a => assign W1 a 0 >>> Ret 0
  end.

(** The interrupt state an operation restores. *)
Definition saved (k : call) (st : Z) : Z :=
  match k with Fetch Or W2 _ _ => truncate W2 st | _ => st end.

(** What follows the lock, the critical section at [q]. *)
Definition finish (c : bool) (k : call) (st : Z) (q : prog Z) : prog Z :=
  r <-- q ;; Act (ClearBits (locked_mask c (target k))) (λ _, Act (RestoreInterrupts (saved k st)) (λ _, Ret r)).

Definition is_clear (k : call) : bool := match k with Clear _ => true | _ => false end.

Lemma function_of_locked c k : is_clear k = false →
  function_of c k = Act SaveAndDisable (λ st, Until (attempt c (target k)) (finish c k st (critical k))).
Proof. destruct k as [[] [] ? ?|[] ? ?|[] ? ? ?|?|? ?|?|?]; intros Hk; [reflexivity..|discriminate]. Qed.

(** A critical section run on its own: memory accesses only. *)
Fixpoint exec {A} (p : prog A) (m : memory) : option (A * memory) :=
  match p with
  | Ret a => Some (a, m)
  | Act (Load n a) k => exec (k (load n a m)) m
  | Act (Store n a v) k => exec (k 0) (store n a v m)
  | _ => None
  end.

Definition reference (k : call) (m : memory) : Z * memory :=
  let n := size_of (access_width k) in
  let get a := load n a m in
  let put a v := store n a v m in
  match k with
  | Fetch f w a val => (get a, put a (fetch_op f (get a) val))
  | Exchange w a val => (get a, put a val)
  | CompareExchange w a expected desired =>
      if get a =? get expected then (1, put a desired) else (0, put expected (get a))
  | Load8 a => (get a, m)
  | Store8 a val => (0, put a val)
  | TestAndSet a => (get a, put a 1)
  | Clear a => (0, put a 0)
  end.

(** What a function answers of that result: all of it, but [__atomic_load_8]
    keeps it in a [uint32_t]. *)
Definition answered (k : call) (v : Z) : Z := match k with Load8 _ => u32 v | _ => v end.
Definition outcome (k : call) (m : memory) : Z * memory := (answered k (fst (reference k m)), snd (reference k m)).

Lemma exec_deref {A} w a (k : Z → prog A) m :
  exec (x <-- deref w a ;; k x) m = exec (k (load (size_of w) a m)) m.
Proof.
  destruct w; [reflexivity..|]. cbn [deref pbind act exec size_of]. f_equal. f_equal.
  rewrite (load_app 4 4). change (Z.of_nat 4) with 4. change (256 ^ 4) with (2 ^ 32). lia.
Qed.

Lemma exec_assign {A} w a v (k : Z → prog A) m : (∀ x y, k x = k y) →
  exec (x <-- assign w a v ;; k x) m = exec (k 0) (store (size_of w) a v m).
Proof.
  intros Hk. destruct w; [reflexivity..|]. cbn [assign pbind act exec size_of].
  rewrite (store_app 4 4). change (2 ^ 32) with (256 ^ Z.of_nat 4).
  by rewrite (store_mod 4 a v m).
Qed.

Lemma store_truncate w a v m : store (size_of w) a (truncate w v) m = store (size_of w) a v m.
Proof. unfold truncate. rewrite <-(store_mod _ a v m). do 2 f_equal. by destruct w. Qed.

Lemma critical_outcome k m : exec (critical k) m = Some (outcome k m).
Proof.
  unfold outcome.
  destruct k as [f w a v|w a v|w a e d|a|a v|a|a]; cbn [critical reference access_width target answered fst snd].
  - by rewrite !exec_deref, exec_assign, store_truncate.
  - by rewrite exec_deref, exec_assign.
  - rewrite !exec_deref. case_match; [by rewrite exec_assign|]. by rewrite exec_deref, exec_assign.
  - by rewrite exec_deref.
  - by rewrite exec_assign.
  - by rewrite exec_deref, exec_assign.
  - by rewrite exec_assign.
Qed.

(** ** Footprints *)
Definition span (n : nat) (a : Z) : list Z := (λ i, a + i) <$> seqZ 0 (Z.of_nat n).

Lemma elem_of_span n a b : b ∈ span n a ↔ a <= b < a + Z.of_nat n.
Proof.
  unfold span. rewrite list_elem_of_fmap. split.
  - intros (i & -> & Hi%elem_of_seqZ). lia.
  - intros Hb. exists (b - a). split; [lia|]. apply elem_of_seqZ. lia.
Qed.

(** The bytes of the variable, and of the caller's [expected]. *)
Definition target_bytes (k : call) : list Z := span (size_of (access_width k)) (target k).
Definition expected_bytes (k : call) : list Z :=
  match k with CompareExchange w _ e _ => span (size_of w) e | _ => [] end.
Definition footprint (k : call) : list Z := target_bytes k ++ expected_bytes k.

(** At most [n] accesses, all to the bytes [F]. *)
Inductive local_to {A} (F : list Z) : nat → prog A → Prop :=
  | local_ret n a : local_to F n (Ret a)
  | local_load n w a k : (∀ b, a <= b < a + Z.of_nat w → b ∈ F) → (∀ v, local_to F n (k v)) →
      local_to F (S n) (Act (Load w a) k)
  | local_store n w a v k : (∀ b, a <= b < a + Z.of_nat w → b ∈ F) → (∀ v, local_to F n (k v)) →
      local_to F (S n) (Act (Store w a v) k).

Lemma local_deref {A} F n w a (k : Z → prog A) :
  (∀ b, a <= b < a + Z.of_nat (size_of w) → b ∈ F) → (∀ v, local_to F n (k v)) →
  local_to F (S (S n)) (x <-- deref w a ;; k x).
Proof.
  intros Hb Hk. assert (∀ v, local_to F (S n) (k v)) as Hk'.
  { intros v. specialize (Hk v). clear Hb. induction Hk; constructor; auto. }
  destruct w; cbn [size_of deref pbind act] in *; constructor; try done; cbn [pbind].
  - intros b ?. apply Hb. lia.
  - intros v. constructor; [intros b ?; apply Hb; lia|]. intros ?. apply Hk.
Qed.

Lemma local_assign {A} F n w a v (k : Z → prog A) :
  (∀ b, a <= b < a + Z.of_nat (size_of w) → b ∈ F) → (∀ v, local_to F n (k v)) →
  local_to F (S (S n)) (x <-- assign w a v ;; k x).
Proof.
  intros Hb Hk. assert (∀ v, local_to F (S n) (k v)) as Hk'.
  { intros u. specialize (Hk u). clear Hb. induction Hk; constructor; auto. }
  destruct w; cbn [size_of assign pbind act] in *; constructor; try done; cbn [pbind].
  - intros b ?. apply Hb. lia.
  - intros u. constructor; [intros b ?; apply Hb; lia|]. intros ?. apply Hk.
Qed.

(** The accesses of the longest critical section. *)
Definition accesses : nat := 8.

Lemma critical_local k : local_to (footprint k) accesses (critical k).
Proof.
  unfold accesses, footprint, target_bytes, expected_bytes.
  destruct k as [f w a v|w a v|w a e d|a|a v|a|a]; cbn [critical target access_width];
    repeat first
      [ apply local_ret
      | apply local_deref; [intros ? ?; rewrite elem_of_app, ?elem_of_span; by auto|intros ?]
      | apply local_assign; [intros ? ?; rewrite elem_of_app, ?elem_of_span; by auto|intros ?]
      | case_match ].
Qed.
