(* ===== verification/AtomicSim.v ===== *)
(** * The simulation of the atomic machine

    The machine that executes each operation in one step, the invariant that
    ties the two-core machine to it, its preservation by every step, and the
    progress of a core the other one does not obstruct. *)
From S2P Require Import Prelude Atomic AtomicLaws.
#[local] Open Scope atomic_scope.

(** ** The atomic machine

    An operation is pending, or has taken effect and is about to return. *)
Inductive sframe := Pending (k : call) | Responded (k : call) (v : Z).
Record spec := Spec { smem : memory; sframes : bool → list sframe; strace : list event }.

Inductive spec_step (allowed : bool → call → Prop) : spec → spec → Prop :=
  | spec_start c k a : allowed c k →
      spec_step allowed a (Spec (smem a) (upd_core c (Pending k :: sframes a c) (sframes a)) (strace a ++ [Called c k]))
  | spec_effect c k fs v m a : sframes a c = Pending k :: fs → outcome k (smem a) = (v, m) →
      spec_step allowed a (Spec m (upd_core c (Responded k v :: fs) (sframes a)) (strace a))
  | spec_return c k v fs a : sframes a c = Responded k v :: fs →
      spec_step allowed a (Spec (smem a) (upd_core c fs (sframes a)) (strace a ++ [Returned c k v])).

Inductive spec_reachable (allowed : bool → call → Prop) (a0 : spec) : spec → Prop :=
  | spec_reach_start : spec_reachable allowed a0 a0
  | spec_reach_next a a' : spec_reachable allowed a0 a → spec_step allowed a a' → spec_reachable allowed a0 a'.

Definition spec_initial (m : memory) : spec := Spec m (λ _, []) [].

(** ** The lock register *)
Lemma lock_idx_range a : 0 <= lock_idx a < 16.
Proof.
  unfold lock_idx. change ATOMIC_LOCK_IDX_Msk with (Z.ones 4). rewrite Z.land_ones by done.
  by apply Z.mod_pos_bound.
Qed.

Lemma lock_idx_div a : lock_idx a = (a / 4) mod 16.
Proof.
  unfold lock_idx. change ATOMIC_LOCK_IDX_Msk with (Z.ones 4). rewrite Z.land_ones by done.
  change ATOMIC_LOCK_IDX_Pos with 2. by rewrite Z.shiftr_div_pow2.
Qed.

(** The bit of core [c] in lock [i]. *)
Definition bit (c : bool) (i : Z) : Z := i * 2 + core_num c.

Lemma bit_inj c c' i i' : bit c i = bit c' i' → c = c' ∧ i = i'.
Proof. unfold bit, core_num. destruct c, c'; intros; split; (done || lia). Qed.

Lemma locked_mask_bit c a : locked_mask c a = 2 ^ bit c (lock_idx a).
Proof. unfold locked_mask, lock_pos. by rewrite Z.shiftl_1_l. Qed.

Lemma bit_nonneg c i : 0 <= i → 0 <= bit c i.
Proof. unfold bit, core_num. destruct c; lia. Qed.

Lemma set_bit_spec reg c a c' i : 0 <= i →
  Z.testbit (Z.lor reg (locked_mask c a)) (bit c' i) =
  Z.testbit reg (bit c' i) || bool_decide (c' = c ∧ i = lock_idx a).
Proof.
  intros Hi. pose proof (lock_idx_range a). rewrite locked_mask_bit, Z.lor_spec, Z.pow2_bits_eqb by (apply bit_nonneg; lia).
  f_equal. case_bool_decide as E; [destruct E as [-> ->]; by rewrite Z.eqb_refl|].
  apply Z.eqb_neq. intros [-> <-]%bit_inj. by destruct E.
Qed.

Lemma clear_bit_spec reg c a c' i : 0 <= i →
  Z.testbit (Z.ldiff reg (locked_mask c a)) (bit c' i) =
  Z.testbit reg (bit c' i) && negb (bool_decide (c' = c ∧ i = lock_idx a)).
Proof.
  intros Hi. pose proof (lock_idx_range a). rewrite locked_mask_bit, Z.ldiff_spec, Z.pow2_bits_eqb by (apply bit_nonneg; lia).
  do 2 f_equal. case_bool_decide as E; [destruct E as [-> ->]; by rewrite Z.eqb_refl|].
  apply Z.eqb_neq. intros [-> <-]%bit_inj. by destruct E.
Qed.

Lemma lock_mask_bits a j : 0 <= j →
  Z.testbit (lock_mask a) j = bool_decide (j = bit false (lock_idx a) ∨ j = bit true (lock_idx a)).
Proof.
  intros Hj. pose proof (lock_idx_range a) as Hi. unfold lock_mask. change (Z.shiftl 1 ATOMIC_LOCK_WIDTH - 1) with 3.
  unfold lock_pos, ATOMIC_LOCK_WIDTH, bit, core_num. rewrite Z.shiftl_spec by done. set (p := lock_idx a * 2) in *.
  destruct (decide (j - p < 0)) as [Hn|Hn].
  { rewrite Z.testbit_neg_r by lia. symmetry. apply bool_decide_eq_false. lia. }
  destruct (decide (j - p = 0)) as [E|E]; [rewrite E; symmetry; apply bool_decide_eq_true; lia|].
  destruct (decide (j - p = 1)) as [E1|E1]; [rewrite E1; symmetry; apply bool_decide_eq_true; lia|].
  rewrite Z.bits_above_log2 by (change (Z.log2 3) with 1; lia). symmetry. apply bool_decide_eq_false. lia.
Qed.

(** The test of the loop: our bit is the only one of the pair. *)
Lemma lock_test reg c a :
  Z.testbit reg (bit c (lock_idx a)) = true →
  (Z.land reg (lock_mask a) =? locked_mask c a) = negb (Z.testbit reg (bit (negb c) (lock_idx a))).
Proof.
  intros Hc. pose proof (lock_idx_range a) as Hi. rewrite locked_mask_bit.
  assert (0 <= bit c (lock_idx a) ∧ 0 <= bit (negb c) (lock_idx a)) as [Hb Hb'] by (split; apply bit_nonneg; lia).
  apply eq_true_iff_eq. rewrite Z.eqb_eq, negb_true_iff. split.
  - intros E. apply (f_equal (λ x, Z.testbit x (bit (negb c) (lock_idx a)))) in E.
    rewrite Z.land_spec, lock_mask_bits, Z.pow2_bits_eqb in E by done.
    rewrite bool_decide_eq_true_2, andb_true_r in E by (destruct c; auto). rewrite E.
    apply Z.eqb_neq. intros [? _]%bit_inj. by destruct c.
  - intros E. apply Z.bits_inj'. intros j Hj. rewrite Z.land_spec, lock_mask_bits, Z.pow2_bits_eqb by done.
    destruct (Z.eqb_spec (bit c (lock_idx a)) j) as [<-|Hne].
    + rewrite Hc. cbn. apply bool_decide_eq_true. destruct c; auto.
    + apply andb_false_iff. destruct (decide (j = bit (negb c) (lock_idx a))) as [->|Hne']; [by left|right].
      apply bool_decide_eq_false. destruct c; cbn in *; intros [?|?]; congruence.
Qed.

(** ** Critical sections that do not share a byte *)
Definition agree (F : list Z) (m m' : memory) : Prop := ∀ a, a ∈ F → m !! a = m' !! a.

Lemma exec_local {A} F n (p : prog A) : local_to F n p → ∀ m,
  ∃ r m', exec p m = Some (r, m') ∧ (∀ a, a ∉ F → m' !! a = m !! a) ∧
    ∀ m2, agree F m m2 → ∃ m2', exec p m2 = Some (r, m2') ∧ agree F m' m2'.
Proof.
  induction 1 as [n r|n w a k Hb _ IH|n w a v k Hb _ IH]; intros m; cbn [exec].
  - exists r, m. split_and!; [done..|]. intros m2 E. by exists m2.
  - destruct (IH (load w a m) m) as (r & m' & E & Hout & Hag). exists r, m'. split_and!; [done..|].
    intros m2 E2. rewrite <-(load_agree w a m m2) by eauto. by apply Hag.
  - destruct (IH 0 (store w a v m)) as (r & m' & E & Hout & Hag). exists r, m'. split_and!; [done| |].
    + intros b Hb'. rewrite Hout by done. apply store_outside.
      destruct (decide (a <= b < a + Z.of_nat w)) as [H|H]; [by apply Hb in H|lia].
    + intros m2 E2. apply Hag. intros b Hin. destruct (decide (a <= b < a + Z.of_nat w)).
      * by apply store_same.
      * rewrite !store_outside by lia. by apply E2.
Qed.

Lemma exec_commute {A B} F1 n1 (p1 : prog A) F2 n2 (p2 : prog B) m r1 m1 r2 m2 :
  local_to F1 n1 p1 → local_to F2 n2 p2 → F1 ## F2 →
  exec p1 m = Some (r1, m1) → exec p2 m = Some (r2, m2) →
  ∃ m', exec p2 m1 = Some (r2, m') ∧ exec p1 m2 = Some (r1, m').
Proof.
  intros H1 H2 Hd E1 E2.
  destruct (exec_local _ _ _ H1 m) as (r1' & m1' & E1' & Ho1 & Ha1). rewrite E1 in E1'. injection E1' as <- <-.
  destruct (exec_local _ _ _ H2 m) as (r2' & m2' & E2' & Ho2 & Ha2). rewrite E2 in E2'. injection E2' as <- <-.
  destruct (Ha1 m2) as (m21 & E21 & A21). { intros a Ha. symmetry. apply Ho2. intros ?. by apply (Hd a). }
  destruct (Ha2 m1) as (m12 & E12 & A12). { intros a Ha. symmetry. apply Ho1. intros ?. by apply (Hd a). }
  exists m12. split; [done|]. rewrite E21. do 2 f_equal.
  destruct (exec_local _ _ _ H1 m2) as (? & ? & E & Ho21 & _). rewrite E21 in E. injection E as <- <-.
  destruct (exec_local _ _ _ H2 m1) as (? & ? & E & Ho12 & _). rewrite E12 in E. injection E as <- <-.
  apply map_eq. intros a. destruct (decide (a ∈ F1)) as [Hi|Hn].
  - rewrite <-(A21 a Hi). symmetry. apply Ho12. intros ?. by apply (Hd a).
  - rewrite Ho21 by done. destruct (decide (a ∈ F2)) as [Hi2|Hn2]; [by rewrite <-(A12 a Hi2)|].
    rewrite Ho2, Ho12, Ho1; done.
Qed.

(** ** Where an operation is

    [Critical q r]: [q] is left of the critical section, and [r] is the result
    it has in the atomic machine. *)
Inductive point := Before | Trying (set : bool) | Critical (q : prog Z) (r : Z) | Leaving (r : Z) | Left_ (r : Z).

(** One turn of the lock loop, what follows setting the bit, and what follows
    clearing it. *)
Definition next_turn (c : bool) (k : call) (st : Z) (b : bool) : prog Z :=
  if b then finish c k st (critical k) else Until (attempt c (target k)) (finish c k st (critical k)).
Definition turn (c : bool) (k : call) (st : Z) : prog Z := b <-- attempt c (target k) ;; next_turn c k st b.
Definition after_clear (c : bool) (k : call) (st : Z) (n : nat) : prog Z :=
  b <-- (nops n >>> Ret false) ;; next_turn c k st b.
Definition give_way (c : bool) (k : call) (st : Z) : prog Z :=
  Act (ClearBits (locked_mask c (target k))) (λ _, after_clear c k st (Z.to_nat (core_num c * 2))).
Definition test_reg (c : bool) (k : call) (st : Z) : prog Z :=
  Act ReadLockReg (λ reg, b <--
    (if Z.land reg (lock_mask (target k)) =? locked_mask c (target k) then Ret true
     else act (ClearBits (locked_mask c (target k))) >>> nops (Z.to_nat (core_num c * 2)) >>> Ret false) ;;
    next_turn c k st b).

Definition mask_value (st : Z) : Prop := st = 0 ∨ st = 1.

(** [base]: the interrupt mask core [c] runs its operations with. *)
Inductive at_point (base : bool → Z) (c : bool) : call * prog Z → point → Prop :=
  | at_before k : is_clear k = false → at_point base c (k, function_of c k) Before
  | at_loop k st : is_clear k = false → st = base c → at_point base c (k, next_turn c k st false) (Trying false)
  | at_turn k st : is_clear k = false → st = base c → at_point base c (k, turn c k st) (Trying false)
  | at_test k st : is_clear k = false → st = base c → at_point base c (k, test_reg c k st) (Trying true)
  | at_give_way k st : is_clear k = false → st = base c → at_point base c (k, give_way c k st) (Trying true)
  | at_nops k st n : is_clear k = false → st = base c → (n <= 2)%nat → at_point base c (k, after_clear c k st n) (Trying false)
  | at_critical k st q r n : st = base c → local_to (footprint k) n q → (n <= accesses)%nat →
      at_point base c (k, finish c k st q) (Critical q r)
  | at_leaving k st r : st = base c → at_point base c (k, Act (RestoreInterrupts (saved k st)) (λ _, Ret r)) (Leaving r)
  | at_left k r : at_point base c (k, Ret r) (Left_ r).

Definition quiet (pt : point) : bool := match pt with Before | Left_ _ => true | _ => false end.
Definition holds_bit (pt : point) : bool := match pt with Trying b => b | Critical _ _ => true | _ => false end.
Definition status (k : call) (pt : point) : sframe :=
  match pt with
  | Before | Trying _ => Pending k
  | Critical _ r | Leaving r | Left_ r => Responded k r
  end.

Lemma saved_mask k st : mask_value st → saved k st = st.
Proof. destruct k as [[] [] ? ?|? ? ?|? ? ? ?|?|? ?|?|?]; cbn; try done. by intros [->| ->]. Qed.

(** ** The invariant *)
Definition held (fr : list (call * prog Z)) (pts : list point) : option Z :=
  match fr, pts with
  | (k, _) :: _, pt :: _ => if holds_bit pt then Some (lock_idx (target k)) else None
  | _, _ => None
  end.
Definition critical_at (fr : list (call * prog Z)) (pts : list point) : option call :=
  match fr, pts with (k, _) :: _, Critical _ _ :: _ => Some k | _, _ => None end.
Definition settles (pts : list point) (m m' : memory) : Prop :=
  match pts with Critical q r :: _ => exec q m = Some (r, m') | _ => m' = m end.

Section simulation.
Context (allowed : bool → call → Prop) (base : bool → Z).
Context (base_mask : ∀ c, mask_value (base c)).
(** What clients owe: no unlocked clear, and operations of the two cores that
    take different locks touch different bytes. *)
Context (no_clear : ∀ c k, allowed c k → is_clear k = false).
Context (compatible : ∀ c k k', allowed c k → allowed (negb c) k' →
  lock_idx (target k) = lock_idx (target k') ∨ footprint k ## footprint k').

Record core_ok (c : bool) (reg pm : Z) (fr : list (call * prog Z)) (pts : list point) : Prop := {
  co_at : Forall2 (at_point base c) fr pts;
  co_tail : Forall (λ pt, quiet pt = true) (tail pts);
  co_mask : pm = match pts with pt :: _ => if quiet pt then base c else 1 | [] => base c end;
  co_bits i : 0 <= i → Z.testbit reg (bit c i) = bool_decide (held fr pts = Some i);
  co_allowed : Forall (λ f, allowed c f.1) fr
}.

Record sim (s : machine) (a : spec) (pts : bool → list point) : Prop := {
  sim_core c : core_ok c (lock_reg s) (primask s c) (frames s c) (pts c);
  sim_excl c k k' : critical_at (frames s c) (pts c) = Some k →
    critical_at (frames s (negb c)) (pts (negb c)) = Some k' → lock_idx (target k) ≠ lock_idx (target k');
  sim_frames c : sframes a c = zip_with (λ f pt, status f.1 pt) (frames s c) (pts c);
  sim_mem c : ∃ m, settles (pts c) (mem s) m ∧ settles (pts (negb c)) m (smem a);
  sim_trace : strace a = trace s
}.

Lemma core_ok_bits c reg reg' pm fr pts :
  core_ok c reg pm fr pts → (∀ i, 0 <= i → Z.testbit reg' (bit c i) = Z.testbit reg (bit c i)) → core_ok c reg' pm fr pts.
Proof. intros [] E. split; try done. intros i Hi. rewrite E by done. auto. Qed.

(** A critical section is local to the footprint of its call. *)
Lemma critical_frame c reg pm fr pts : core_ok c reg pm fr pts →
  (critical_at fr pts = None ∧ ∀ m m', settles pts m m' ↔ m' = m) ∨
  (∃ k (q : prog Z) r n, critical_at fr pts = Some k ∧ allowed c k ∧ local_to (footprint k) n q ∧
     ∀ m m', settles pts m m' ↔ exec q m = Some (r, m')).
Proof.
  intros [Hat _ _ _ Hal]. destruct Hat as [|[k p] pt fr pts H Hat]; [by left|].
  apply Forall_cons in Hal as [Hk _]. inversion H; subst; try by left.
  right. eexists _, _, _, _. cbn. split_and!; [done..|]. done.
Qed.

Lemma settle_swap c reg reg' pm pm' fr fr' l l' m m1 sm :
  core_ok c reg pm fr l → core_ok (negb c) reg' pm' fr' l' →
  (∀ k k', critical_at fr l = Some k → critical_at fr' l' = Some k' → lock_idx (target k) ≠ lock_idx (target k')) →
  settles l m m1 → settles l' m1 sm → ∃ m2, settles l' m m2 ∧ settles l m2 sm.
Proof.
  intros H H' Hex.
  destruct (critical_frame _ _ _ _ _ H) as [[_ E]|(k & q & r & n & Ek & Hk & Hl & E)];
    destruct (critical_frame _ _ _ _ _ H') as [[_ E']|(k' & q' & r' & n' & Ek' & Hk' & Hl' & E')].
  - rewrite E, E'. intros -> ->. exists m. by rewrite E, E'.
  - rewrite E, E'. intros -> ?. exists sm. by rewrite E, E'.
  - rewrite E, E'. intros ? ->. exists m. by rewrite E, E'.
  - rewrite E, E'. intros E1 E2. assert (footprint k ## footprint k') as Hd.
    { destruct (compatible c k k' Hk Hk') as [?|?]; [|done]. by destruct (Hex k k' Ek Ek'). }
    destruct (exec_local _ _ _ Hl' m) as (r2 & m2 & E3 & _).
    destruct (exec_commute _ _ _ _ _ _ _ _ _ _ _ Hl Hl' Hd E1 E3) as (m' & E4 & E5).
    rewrite E2 in E4. injection E4 as -> ->. exists m2. by rewrite E, E'.
Qed.

Lemma sim_move c s s' a a' pts l :
  sim s a pts →
  frames s' (negb c) = frames s (negb c) → primask s' (negb c) = primask s (negb c) →
  (∀ i, 0 <= i → Z.testbit (lock_reg s') (bit (negb c) i) = Z.testbit (lock_reg s) (bit (negb c) i)) →
  core_ok c (lock_reg s') (primask s' c) (frames s' c) l →
  (∀ k k', critical_at (frames s' c) l = Some k →
     critical_at (frames s (negb c)) (pts (negb c)) = Some k' → lock_idx (target k) ≠ lock_idx (target k')) →
  (∃ m, settles (pts (negb c)) (mem s') m ∧ settles l m (smem a')) ∨
    (∃ m, settles l (mem s') m ∧ settles (pts (negb c)) m (smem a')) →
  sframes a' (negb c) = sframes a (negb c) →
  sframes a' c = zip_with (λ f pt, status f.1 pt) (frames s' c) l →
  strace a' = trace s' →
  sim s' a' (upd_core c l pts).
Proof.
  intros Hs Hfr Hpm Hbits Hc Hex Hm Hsd Hsc Htr.
  assert (core_ok (negb c) (lock_reg s') (primask s' (negb c)) (frames s' (negb c)) (pts (negb c))) as Hd.
  { rewrite Hfr, Hpm. eapply core_ok_bits; [apply Hs|done]. }
  assert (∃ m, settles l (mem s') m ∧ settles (pts (negb c)) m (smem a')) as Hm1.
  { destruct Hm as [(m & E1 & E2)|?]; [|done]. eapply settle_swap; [exact Hd|by rewrite negb_involutive| |done..].
    intros k k' E E' Heq. rewrite Hfr in E. symmetry in Heq. by eapply Hex. }
  assert (∃ m, settles (pts (negb c)) (mem s') m ∧ settles l m (smem a')) as Hm2.
  { destruct Hm1 as (m & E1 & E2). eapply settle_swap; [exact Hc|exact Hd| |done..]. rewrite Hfr. done. }
  assert (∀ k k', critical_at (frames s' (negb c)) (pts (negb c)) = Some k → critical_at (frames s' c) l = Some k' →
    lock_idx (target k) ≠ lock_idx (target k')) as Hex2.
  { intros k k' E E' Heq. rewrite Hfr in E. symmetry in Heq. by eapply Hex. }
  rewrite <-Hfr in Hex. split; [| | | |done]; intros c'.
  all: destruct (decide (c' = c)) as [->|Hne]; [|assert (c' = negb c) as -> by (by destruct c, c')];
    unfold upd_core; rewrite ?negb_involutive; destruct c; cbn in *; try done; eauto.
  all: rewrite Hsd, ?Hfr; apply Hs.
Qed.

(** The other core has no bit where ours is. *)
Lemma sim_other_bits s a pts c i : sim s a pts → 0 <= i →
  Z.testbit (lock_reg s) (bit (negb c) i) = bool_decide (held (frames s (negb c)) (pts (negb c)) = Some i).
Proof. intros Hs. apply Hs. Qed.

(** A step of the running operation of [c] that touches neither the memory
    nor the atomic machine. *)
Lemma sim_silent c s s' a pts k p p' fs pt pt' ptl :
  sim s a pts → frames s c = (k, p) :: fs → pts c = pt :: ptl →
  frames s' c = (k, p') :: fs → frames s' (negb c) = frames s (negb c) → primask s' (negb c) = primask s (negb c) →
  mem s' = mem s → trace s' = trace s →
  (∀ m m', settles (pt :: ptl) m m' → m' = m) → critical_at ((k, p') :: fs) (pt' :: ptl) = None →
  at_point base c (k, p') pt' → status k pt' = status k pt →
  primask s' c = (if quiet pt' then base c else 1) →
  (∀ c' i, 0 <= i → Z.testbit (lock_reg s') (bit c' i) =
     if decide (c' = c) then bool_decide (held ((k, p') :: fs) (pt' :: ptl) = Some i)
     else Z.testbit (lock_reg s) (bit c' i)) →
  sim s' a (upd_core c (pt' :: ptl) pts).
Proof.
  intros Hs Hf Hp Hf' Hfd Hpd Hm Ht Hset Hcr Hat Hst Hmask Hbits.
  pose proof (sim_core _ _ _ Hs c) as [H1 H2 H3 H5 H6]. rewrite Hf, Hp in *.
  apply Forall2_cons in H1 as [_ H1].
  eapply sim_move; try done.
  - intros i Hi. rewrite Hbits by done. rewrite decide_False; [done|by destruct c].
  - rewrite Hf'. split; [by constructor|done|done| |].
    + intros i Hi. rewrite Hbits by done. by rewrite decide_True.
    + by apply Forall_cons in H6 as [? ?]; constructor.
  - rewrite Hf', Hcr. done.
  - right. destruct (sim_mem _ _ _ Hs c) as (m & E1 & E2). rewrite Hp in E1. rewrite Hm.
    apply Hset in E1 as ->. exists (mem s). split; [|done]. by destruct pt'.
  - rewrite (sim_frames _ _ _ Hs c), Hf, Hp, Hf'. cbn. by rewrite Hst.
  - by rewrite Ht, (sim_trace _ _ _ Hs).
Qed.

Lemma sim_start c k s a pts :
  sim s a pts → allowed c k → frames s c = [] ∨ primask s c = 0 →
  ∃ a', spec_step allowed a a' ∧ sim (start c k s) a' (upd_core c (Before :: pts c) pts).
Proof.
  intros Hs Hk Hfree. eexists. split; [by apply (spec_start _ c k)|].
  pose proof (sim_core _ _ _ Hs c) as [H1 H2 H3 H5 H6].
  assert (Forall (λ pt, quiet pt = true) (pts c)) as Hq.
  { destruct (pts c) as [|pt ptl]; constructor; [|done]. destruct (quiet pt) eqn:E; [done|].
    destruct Hfree as [E'|E']; [rewrite E' in H1; inversion H1|]. by rewrite E' in H3. }
  assert (held (frames s c) (pts c) = None) as Hh.
  { destruct (frames s c) as [|[? ?] ?], (pts c) as [|pt ptl]; try done. cbn.
    apply Forall_cons in Hq as [Hq _]. by destruct pt. }
  assert (∀ m m', settles (pts c) m m' → m' = m) as Hset.
  { intros m m'. destruct (pts c) as [|[] ?]; try done. by apply Forall_cons in Hq as [? _]. }
  eapply sim_move; [exact Hs| | | | | | | | |]; cbn; rewrite ?upd_core_eq, ?upd_core_ne; try done.
  - split; try done.
    + constructor; [|done]. constructor. by eapply no_clear.
    + rewrite H3. destruct (pts c) as [|pt ptl]; [done|]. by apply Forall_cons in Hq as [-> _].
    + intros i Hi. rewrite H5, Hh by done. done.
    + by constructor.
  - right. destruct (sim_mem _ _ _ Hs c) as (m & ->%Hset & E). by exists (mem s).
  - by rewrite (sim_frames _ _ _ Hs c).
  - by rewrite (sim_trace _ _ _ Hs).
Qed.

Lemma sim_return c s a pts k r p fs ptl :
  sim s a pts → frames s c = (k, p) :: fs → p = Ret r → pts c = Left_ r :: ptl →
  ∃ a', spec_step allowed a a' ∧ sim (record_event (Returned c k r) (set_frames c fs s)) a' (upd_core c ptl pts).
Proof.
  intros Hs Hf -> Hp. pose proof (sim_frames _ _ _ Hs c) as Hsf. rewrite Hf, Hp in Hsf. cbn in Hsf.
  eexists. split; [by eapply spec_return|].
  pose proof (sim_core _ _ _ Hs c) as [H1 H2 H3 H5 H6]. rewrite Hf, Hp in *.
  apply Forall2_cons in H1 as [_ H1]. cbn in H2.
  assert (held fs ptl = None ∧ critical_at fs ptl = None ∧ ∀ m, settles ptl m m) as (Hh & Hc & Hset).
  { destruct H1 as [|[? ?] pt ? ? _ _]; [done|]. cbn. apply Forall_cons in H2 as [Hq _]. by destruct pt. }
  eapply sim_move; [exact Hs| | | | | | | | |]; cbn; rewrite ?upd_core_eq, ?upd_core_ne; try done.
  - split; try done.
    + by destruct ptl; [|apply Forall_cons in H2 as [_ ?]].
    + rewrite H3. cbn. destruct ptl; [done|]. by apply Forall_cons in H2 as [-> _].
    + intros i Hi. rewrite H5, Hh by done. done.
    + by apply Forall_cons in H6 as [_ ?].
  - by rewrite Hc.
  - right. destruct (sim_mem _ _ _ Hs c) as (m & E1 & E2). rewrite Hp in E1. cbn in E1. subst m. by exists (mem s).
  - by rewrite (sim_trace _ _ _ Hs).
Qed.

(** One access of a critical section. *)
Lemma sim_access c s s' a pts k p st q q' r n fs ptl :
  sim s a pts → frames s c = (k, p) :: fs → pts c = Critical q r :: ptl →
  st = base c → local_to (footprint k) n q' → (n <= accesses)%nat →
  frames s' c = (k, finish c k st q') :: fs → frames s' (negb c) = frames s (negb c) →
  primask s' = primask s → lock_reg s' = lock_reg s → trace s' = trace s →
  exec q (mem s) = exec q' (mem s') →
  sim s' a (upd_core c (Critical q' r :: ptl) pts).
Proof.
  intros Hs Hf Hp Hst Hl Hn Hf' Hfd Hpm Hreg Htr Hex.
  pose proof (sim_core _ _ _ Hs c) as [H1 H2 H3 H5 H6]. rewrite Hf, Hp in *.
  apply Forall2_cons in H1 as [_ H1].
  eapply sim_move; [exact Hs|done|by rewrite Hpm|by rewrite Hreg| | | |done| |].
  - rewrite Hf', Hpm, Hreg. split; try done.
    + constructor; [by eapply at_critical|done].
    + by apply Forall_cons in H6 as [? ?]; constructor.
  - rewrite Hf'. intros k1 k' E. eapply (sim_excl _ _ _ Hs c). by rewrite Hf, Hp.
  - right. destruct (sim_mem _ _ _ Hs c) as (m & E1 & E2). rewrite Hp in E1. cbn in E1. exists m. cbn. by rewrite <-Hex.
  - rewrite (sim_frames _ _ _ Hs c), Hf, Hp, Hf'. done.
  - by rewrite Htr, (sim_trace _ _ _ Hs).
Qed.

(** The read of the lock register that finds our bit alone: the operation
    takes effect in the atomic machine. *)
Lemma sim_enter c s s' a pts k p st fs ptl :
  sim s a pts → frames s c = (k, p) :: fs → pts c = Trying true :: ptl → st = base c →
  Z.testbit (lock_reg s) (bit (negb c) (lock_idx (target k))) = false →
  frames s' c = (k, finish c k st (critical k)) :: fs → frames s' (negb c) = frames s (negb c) →
  primask s' = primask s → lock_reg s' = lock_reg s → trace s' = trace s → mem s' = mem s →
  ∃ a' r, spec_step allowed a a' ∧ sim s' a' (upd_core c (Critical (critical k) r :: ptl) pts).
Proof.
  intros Hs Hf Hp Hst Hbit Hf' Hfd Hpm Hreg Htr Hm.
  pose proof (sim_core _ _ _ Hs c) as [H1 H2 H3 H5 H6]. pose proof (sim_frames _ _ _ Hs c) as Hsf. rewrite Hf, Hp in *.
  apply Forall2_cons in H1 as [_ H1]. destruct (outcome k (smem a)) as [v m'] eqn:Eref.
  pose proof (critical_outcome k (smem a)) as Ecr. rewrite Eref in Ecr.
  eexists _, v. split; [eapply spec_effect; [exact Hsf|exact Eref]|].
  eapply sim_move; [exact Hs|done|by rewrite Hpm|by rewrite Hreg| | | | | |]; cbn; rewrite ?upd_core_eq, ?upd_core_ne; try done.
  - rewrite Hf', Hpm, Hreg. split; try done.
    + constructor; [|done]. eapply at_critical; [done|apply critical_local|done].
    + by apply Forall_cons in H6 as [? ?]; constructor.
  - rewrite Hf'. intros k1 k' [= <-] E Heq.
    rewrite Heq in Hbit. rewrite (co_bits _ _ _ _ _ (sim_core _ _ _ Hs (negb c))) in Hbit by apply lock_idx_range.
    apply bool_decide_eq_false in Hbit. apply Hbit.
        destruct (frames s (negb c)) as [|[? ?] ?], (pts (negb c)) as [|[] ?]; try done. by injection E as ->.
  - left. rewrite Hm. destruct (sim_mem _ _ _ Hs (negb c)) as (m & E1 & E2). rewrite negb_involutive, Hp in E2.
    cbn in E2. subst m. by exists (smem a).
  - by rewrite Hf'.
  - by rewrite Htr, (sim_trace _ _ _ Hs).
Qed.

(** The bits after our own bit is set, cleared or left alone. *)
Lemma own_bits c s a pts k p p' fs pt pt' ptl reg : 
  sim s a pts → frames s c = (k, p) :: fs → pts c = pt :: ptl →
  reg = (if holds_bit pt' then Z.lor (lock_reg s) (locked_mask c (target k))
         else Z.ldiff (lock_reg s) (locked_mask c (target k))) ∨ reg = lock_reg s ∧ holds_bit pt = holds_bit pt' →
  ∀ c' i, 0 <= i → Z.testbit reg (bit c' i) =
     if decide (c' = c) then bool_decide (held ((k, p') :: fs) (pt' :: ptl) = Some i)
     else Z.testbit (lock_reg s) (bit c' i).
Proof.
  intros Hs Hf Hp Hreg c' i Hi.
  pose proof (co_bits _ _ _ _ _ (sim_core _ _ _ Hs c) i Hi) as Hb. rewrite Hf, Hp in Hb. cbn in *.
  destruct (decide (c' = c)) as [->|Hne].
  - destruct Hreg as [->|[-> <-]]; [|done].
    destruct (holds_bit pt'); rewrite ?set_bit_spec, ?clear_bit_spec, Hb by done;
      destruct (holds_bit pt); repeat case_bool_decide; naive_solver.
  - destruct Hreg as [->|[-> _]]; [|done].
    destruct (holds_bit pt'); rewrite ?set_bit_spec, ?clear_bit_spec, bool_decide_eq_false_2 by naive_solver;
      [apply orb_false_r|apply andb_true_r].
Qed.

(** The running operation of [c] goes to the point [pt'], which [at_c]
    recognises. *)
Ltac silent_step c pt' at_c :=
  lazymatch goal with
  | a : spec, Hs : sim ?s ?a ?pts, Hf : frames ?s c = (?k, _) :: _, Hp : ?pts c = _ :: ?ptl,
    Hown : ∀ p' pt reg, _ → _, Hin : _ = (if quiet _ then _ else _) |- _ =>
      exists a, (upd_core c (pt' :: ptl) pts); split; [by left|];
      destruct s as [reg m pm fr tr]; cbn [perform set_frames lock_reg mem primask frames trace] in *;
      eapply (sim_silent c _ _ a pts k);
      [ exact Hs | exact Hf | exact Hp | apply upd_core_eq | apply upd_core_ne
      | cbn; by rewrite ?upd_core_ne | done | done | first [done | by intros ? ? [= <-]] | done
      | first [at_c; done | at_c] | done | cbn; rewrite ?upd_core_eq; first [done | by rewrite Hin | idtac]
      | by (apply (Hown (Ret 0) pt'); cbn; auto) ]
  end.

Lemma sim_advance c s s' a pts :
  sim s a pts → advance c s = Some s' → ∃ a' pts', (a' = a ∨ spec_step allowed a a') ∧ sim s' a' pts'.
Proof.
  intros Hs Hadv. unfold advance in Hadv. destruct (frames s c) as [|[k p] fs] eqn:Hf; [done|].
  pose proof (sim_core _ _ _ Hs c) as [H1 H2 H3 H5 H6]. rewrite Hf in H1.
  apply Forall2_cons_inv_l in H1 as (pt & ptl & Hat & _ & Hp).
  assert (Hown : ∀ p' pt' reg, _) by (intros p' pt' reg; exact (own_bits c s a pts k p p' fs pt pt' ptl reg Hs Hf Hp)).
  assert (primask s c = if quiet pt then base c else 1) as Hin by (by rewrite Hp in H3).
  clear H2 H3 H5 H6. injection Hadv as <-. inversion Hat; subst; clear Hat.
  - rewrite function_of_locked by done. silent_step c (Trying false) ltac:(apply (at_loop base c k (pm c))).
  - silent_step c (Trying false) ltac:(apply (at_turn base c k (base c))).
  - silent_step c (Trying true) ltac:(apply (at_test base c k (base c))).
  - pose proof (lock_idx_range (target k)).
    assert (Z.testbit (lock_reg s) (bit c (lock_idx (target k))) = true) as Hset.
    { rewrite (co_bits _ _ _ _ _ (sim_core _ _ _ Hs c)), Hf, Hp by lia. by apply bool_decide_eq_true. }
    pose proof (lock_test _ _ _ Hset) as Htest.
    destruct (Z.testbit (lock_reg s) (bit (negb c) (lock_idx (target k)))) eqn:Hother.
    + silent_step c (Trying true) ltac:(cbn beta; rewrite Htest; apply (at_give_way base c k (base c))).
    + destruct (sim_enter c s (set_frames c ((k, finish c k (base c) (critical k)) :: fs) s) a pts k _ (base c) fs ptl Hs Hf Hp) as (a' & r & Hstep & Hs');
        [done..| | | | | | |]; cbn; rewrite ?upd_core_eq, ?upd_core_ne; try done.
      exists a', (upd_core c (Critical (critical k) r :: ptl) pts). split; [by right|].
      destruct s as [reg m pm fr tr]. cbn in *. by rewrite Htest.
  - silent_step c (Trying false) ltac:(apply (at_nops base c k (base c)); [done..|destruct c; cbn; lia]).
  - destruct n as [|n].
    + silent_step c (Trying false) ltac:(apply (at_turn base c k (base c))).
    + silent_step c (Trying false) ltac:(apply (at_nops base c k (base c) n); [done..|lia]).
  - match goal with Hl : local_to _ n q |- _ => inversion Hl as [n' r'|n' w x cont Hb Hk|n' w x v cont Hb Hk]; subst end.
    + destruct (sim_mem _ _ _ Hs c) as (m1 & E1 & _). rewrite Hp in E1. injection E1 as -> _.
      silent_step c (Leaving r) ltac:(apply (at_leaving base c k (base c))).
    + exists a, (upd_core c (Critical (cont (load w x (mem s))) r :: ptl) pts). split; [by left|].
      destruct s as [reg m pm fr tr]. cbn in *.
      eapply (sim_access c _ _ a pts k _ (base c) _ _ r n'); [exact Hs|exact Hf|exact Hp|done|apply Hk|lia|..]; cbn;
        rewrite ?upd_core_eq, ?upd_core_ne; done.
    + exists a, (upd_core c (Critical (cont 0) r :: ptl) pts). split; [by left|].
      destruct s as [reg m pm fr tr]. cbn in *.
      eapply (sim_access c _ _ a pts k _ (base c) _ _ r n'); [exact Hs|exact Hf|exact Hp|done|apply Hk|lia|..]; cbn;
        rewrite ?upd_core_eq, ?upd_core_ne; done.
  - silent_step c (Left_ r) ltac:(apply at_left). by rewrite saved_mask.
  - destruct (sim_return c s a pts k r _ fs ptl Hs Hf eq_refl Hp) as (a' & Hstep & Hs').
    exists a', (upd_core c ptl pts). split; [by right|done].
Qed.
End simulation.

(** ** The whole machine *)
Section reachability.
Context (allowed : bool → call → Prop) (base : bool → Z).
Context (base_mask : ∀ c, mask_value (base c)).
Context (no_clear : ∀ c k, allowed c k → is_clear k = false).
Context (compatible : ∀ c k k', allowed c k → allowed (negb c) k' →
  lock_idx (target k) = lock_idx (target k') ∨ footprint k ## footprint k').

Lemma sim_initial m : sim allowed base (initial m base) (spec_initial m) (λ _, []).
Proof.
  split; intros; cbn; try done.
  - split; cbn; try done. intros i Hi. by rewrite Z.bits_0.
  - by exists m.
Qed.

Lemma sim_reachable m s : reachable allowed (initial m base) s →
  ∃ a pts, spec_reachable allowed (spec_initial m) a ∧ sim allowed base s a pts.
Proof.
  induction 1 as [|s s' _ (a & pts & Ha & Hs) Hstep].
  - exists (spec_initial m), (λ _, []). split; [constructor|apply sim_initial].
  - destruct Hstep as [c k s Hk Hfree|c s s' Hadv].
    + destruct (sim_start allowed base no_clear compatible c k s a pts Hs Hk Hfree) as (a' & Hstep & Hs').
      eexists a', _. split; [by eapply spec_reach_next|exact Hs'].
    + destruct (sim_advance allowed base base_mask compatible c s s' a pts Hs Hadv) as (a' & pts' & [->|Hstep] & Hs');
        eexists _, pts'; (split; [|exact Hs']); [done|by eapply spec_reach_next].
Qed.
End reachability.

(** ** Progress of one core *)
Fixpoint run (n : nat) (c : bool) (s : machine) : option machine :=
  match n with O => Some s | S n => advance c s ≫= run n c end.

(** The running operation of [c] returns within [n] steps of [c]. *)
Definition returns_within (n : nat) (c : bool) (fs : list (call * prog Z)) (s : machine) : Prop :=
  ∃ m s' k v, (m <= n)%nat ∧ run m c s = Some s' ∧ frames s' c = fs ∧ trace s' = trace s ++ [Returned c k v].

Lemma returns_step n c fs s s' :
  advance c s = Some s' → trace s' = trace s → returns_within n c fs s' → returns_within (S n) c fs s.
Proof.
  intros E Ht (m & s'' & k & v & Hm & Hr & Hf & Htr). exists (S m), s'', k, v. split_and!; [lia| |done|by rewrite Htr, Ht].
  cbn. by rewrite E.
Qed.

Lemma returns_mono n n' c fs s : (n <= n')%nat → returns_within n c fs s → returns_within n' c fs s.
Proof. intros Hn (m & s' & k & v & Hm & H). exists m, s', k, v. split; [lia|done]. Qed.

Section progress.
Context (c : bool) (k : call) (fs : list (call * prog Z)).

Ltac one_step := eapply returns_step; [unfold advance; match goal with H : frames _ c = _ |- _ => rewrite H end; reflexivity | |].

Lemma returns_left r s : frames s c = (k, Ret r) :: fs → returns_within 1 c fs s.
Proof.
  intros Hf. eexists 1%nat, _, k, r. split_and!; [done|cbn; unfold advance; by rewrite Hf| |done].
  apply upd_core_eq.
Qed.

Lemma returns_leaving st r s :
  frames s c = (k, Act (RestoreInterrupts st) (λ _, Ret r)) :: fs → returns_within 2 c fs s.
Proof. intros Hf. destruct s as [reg m pm fr tr]. one_step; [done|]. apply (returns_left r), upd_core_eq. Qed.

Lemma returns_critical st F n q : local_to F n q → ∀ s,
  frames s c = (k, finish c k st q) :: fs → returns_within (n + 3) c fs s.
Proof.
  induction 1 as [n r|n w a cont Hb _ IH|n w a v cont Hb _ IH]; intros s Hf; destruct s as [reg m pm fr tr].
  - apply (returns_mono 3); [lia|]. one_step; [done|]. apply (returns_leaving (saved k st) r), upd_core_eq.
  - one_step; [done|]. apply (IH (load w a m)), upd_core_eq.
  - one_step; [done|]. apply (IH 0), upd_core_eq.
Qed.

(** The other core does not have its bit set in the lock of [k]. *)
Definition unobstructed (s : machine) : Prop := Z.testbit (lock_reg s) (bit (negb c) (lock_idx (target k))) = false.

Lemma returns_test st s : unobstructed s → Z.testbit (lock_reg s) (bit c (lock_idx (target k))) = true →
  frames s c = (k, test_reg c k st) :: fs → returns_within (accesses + 4) c fs s.
Proof.
  intros Hu Hset Hf. pose proof (lock_test _ _ _ Hset) as Ht. unfold unobstructed in Hu. rewrite Hu in Ht.
  destruct s as [reg m pm fr tr]. apply (returns_step (accesses + 3) c fs _ (Machine reg m pm (upd_core c ((k, finish c k st (critical k)) :: fs) fr) tr)); [|done|].
  - unfold advance. rewrite Hf. cbn in *. by rewrite Ht.
  - eapply returns_critical; [apply critical_local|]. apply upd_core_eq.
Qed.

Lemma returns_turn st s : unobstructed s → frames s c = (k, turn c k st) :: fs → returns_within (accesses + 5) c fs s.
Proof.
  intros Hu Hf. pose proof (lock_idx_range (target k)). destruct s as [reg m pm fr tr]. one_step; [done|].
  apply (returns_test st); [| |apply upd_core_eq]; unfold unobstructed in *; cbn in *; rewrite set_bit_spec by lia.
  - by rewrite Hu, bool_decide_eq_false_2 by (by destruct c; intros []).
  - rewrite bool_decide_eq_true_2 by done. apply orb_true_r.
Qed.

Lemma returns_loop st s : unobstructed s → frames s c = (k, next_turn c k st false) :: fs → returns_within (accesses + 6) c fs s.
Proof. intros Hu Hf. destruct s as [reg m pm fr tr]. one_step; [done|]. apply (returns_turn st); [done|apply upd_core_eq]. Qed.

Lemma returns_nops st n : ∀ s, unobstructed s → frames s c = (k, after_clear c k st n) :: fs → returns_within (n + (accesses + 6)) c fs s.
Proof.
  induction n as [|n IH]; intros s Hu Hf; [by apply (returns_loop st)|].
  destruct s as [reg m pm fr tr]. one_step; [done|]. apply IH; [done|apply upd_core_eq].
Qed.

Lemma returns_give_way st s : unobstructed s → frames s c = (k, give_way c k st) :: fs → returns_within (accesses + 9) c fs s.
Proof.
  intros Hu Hf. destruct s as [reg m pm fr tr]. apply (returns_mono (S (Z.to_nat (core_num c * 2) + (accesses + 6)))).
  { destruct c; cbn; lia. }
  one_step; [done|]. eapply returns_nops; [|apply upd_core_eq].
  pose proof (lock_idx_range (target k)). unfold unobstructed in *. cbn in *. rewrite clear_bit_spec by lia. by rewrite Hu.
Qed.

Lemma returns_point allowed base s a pts p :
  sim allowed base s a pts → unobstructed s → frames s c = (k, p) :: fs → returns_within (accesses + 9) c fs s.
Proof.
  intros Hs Hu Hf. pose proof (sim_core _ _ _ _ _ Hs c) as Hc.
  pose proof (co_at _ _ _ _ _ _ _ Hc) as Hat. rewrite Hf in Hat. apply Forall2_cons_inv_l in Hat as (pt & ptl & Hat & _ & Hp).
  inversion Hat as [k' Hk|k' st Hk|k' st Hk|k' st Hk|k' st Hk|k' st n Hk ? Hn|k' st q r n ? Hl Hn|k' st r|k' r]; subst.
  - rewrite function_of_locked in Hf by done. destruct s as [reg m pm fr tr].
    apply (returns_mono (S (accesses + 6))); [lia|]. one_step; [done|]. eapply returns_loop; [exact Hu|apply upd_core_eq].
  - eapply returns_mono, returns_loop; done || lia.
  - eapply returns_mono, returns_turn; done || lia.
  - eapply returns_mono, returns_test; [lia|done| |done].
    rewrite (co_bits _ _ _ _ _ _ _ Hc), Hf, Hp by apply lock_idx_range. by apply bool_decide_eq_true.
  - eapply returns_give_way; done.
  - eapply returns_mono, returns_nops; [|done..]. lia.
  - eapply returns_mono, returns_critical; [|done..]. lia.
  - eapply returns_mono, returns_leaving; [|done]. lia.
  - eapply returns_mono, returns_left; [|done]. lia.
Qed.
End progress.
