(* ===== verification/AtomicClaims.v ===== *)
(** * Properties of the atomic operations

    Linearizability against the machine of one-step operations, mutual
    exclusion of the bracketed accesses, progress, the reference meaning of
    every function, what address hashing guarantees, the ticket lock's two
    atomic steps, and the clear that takes no lock; each with a run. *)
From S2P Require Import Prelude Spinlock Atomic AtomicLaws AtomicSim.

(** What the two cores' calls owe each other: no unlocked clear; aligned
    variables; of two variables that share a byte, either they are one or
    neither is wider than a word; and the caller's [expected] is its own. *)
Definition aligned (k : call) : Prop := target k mod Z.of_nat (size_of (access_width k)) = 0.
Definition word_sized (k : call) : Prop := access_width k ≠ W8.
Definition one_variable (k k' : call) : Prop :=
  target k = target k' ∨ (word_sized k ∧ word_sized k') ∨ target_bytes k ## target_bytes k'.
Record disciplined (allowed : bool → call → Prop) : Prop := {
  di_locked c k : allowed c k → is_clear k = false;
  di_aligned c k : allowed c k → aligned k;
  di_variable c k k' : allowed c k → allowed (negb c) k' → one_variable k k';
  di_private c k k' : allowed c k → allowed (negb c) k' → expected_bytes k ## footprint k'
}.

(** An aligned access of at most a word stays in one stripe. *)
Lemma word_stripe k b : word_sized k → aligned k → b ∈ target_bytes k → b / 4 = target k / 4.
Proof.
  unfold word_sized, aligned, target_bytes. rewrite elem_of_span. intros Hw Ha Hb.
  destruct (access_width k); cbn in *; try done; Z.div_mod_to_equations; lia.
Qed.

Lemma disciplined_compatible allowed c k k' : disciplined allowed → allowed c k → allowed (negb c) k' →
  lock_idx (target k) = lock_idx (target k') ∨ footprint k ## footprint k'.
Proof.
  intros Hd Hk Hk'. pose proof (di_private _ Hd c k k' Hk Hk') as Hp.
  assert (expected_bytes k' ## footprint k) as Hp'.
  { eapply (di_private _ Hd (negb c)); [done|by rewrite negb_involutive]. }
  destruct (di_variable _ Hd c k k' Hk Hk') as [->|[[Hw Hw']|Hdis]]; [by left| |right].
  - destruct (decide (Exists (λ b, b ∈ target_bytes k') (target_bytes k))) as [(b & Hb & Hb')%Exists_exists|Hn].
    + left. rewrite !lock_idx_div, <-(word_stripe k b), <-(word_stripe k' b); try done; by eapply di_aligned.
    + right. rewrite Exists_exists in Hn. intros b. unfold footprint in *. rewrite !elem_of_app.
      assert (b ∈ target_bytes k → b ∈ target_bytes k' → False) by eauto. set_solver.
  - intros b. unfold footprint in *. rewrite !elem_of_app. set_solver.
Qed.

(** C5: Every operation of pico-atomic.c other than the flag's clear is
    linearizable: whatever the interleaving of the two cores' accesses and of
    the handlers that nest further operations, the calls and returns are those
    of a machine that executes each operation in one step with its reference
    meaning ([outcome]: of the value [__atomic_load_8] answers the low word); and when no operation is in progress the memory is that machine's,
    no lock bit is set and the interrupt masks are as they were. *)
Theorem atomic_operations_linearize allowed m base s :
  disciplined allowed → (∀ c, mask_value (base c)) → reachable allowed (initial m base) s →
  ∃ a, spec_reachable allowed (spec_initial m) a ∧ strace a = trace s ∧
    ((∀ c, frames s c = []) →
       mem s = smem a ∧ (∀ c, sframes a c = []) ∧ (∀ c, primask s c = base c) ∧
       ∀ c i, 0 <= i → Z.testbit (lock_reg s) (bit c i) = false).
Proof.
  intros Hd Hb Hr.
  destruct (sim_reachable allowed base Hb (di_locked _ Hd) (λ c k k', disciplined_compatible allowed c k k' Hd) m s Hr)
    as (a & pts & Ha & Hs).
  exists a. split_and!; [done|apply Hs|]. intros Hidle.
  assert (∀ c, pts c = []) as Hp.
  { intros c. pose proof (co_at _ _ _ _ _ _ _ (sim_core _ _ _ _ _ Hs c)) as H. rewrite Hidle in H. by inversion H. }
  split_and!.
  - destruct (sim_mem _ _ _ _ _ Hs true) as (m' & E1 & E2). rewrite Hp in E1, E2. cbn in *. congruence.
  - intros c. by rewrite (sim_frames _ _ _ _ _ Hs), Hidle.
  - intros c. by rewrite (co_mask _ _ _ _ _ _ _ (sim_core _ _ _ _ _ Hs c)), Hp.
  - intros c i Hi. by rewrite (co_bits _ _ _ _ _ _ _ (sim_core _ _ _ _ _ Hs c)), Hidle.
Qed.

(** The next access of the running operation of a core. *)
Definition next_access (s : machine) (c : bool) : option (call * access) :=
  match frames s c with (k, Act e _) :: _ => Some (k, e) | _ => None end.
Definition touches_memory (e : access) : bool := match e with Load _ _ | Store _ _ _ => true | _ => false end.

(** C19: The locks exclude: when both cores are about to touch memory inside
    operations, the operations use different locks and no byte of one is a
    byte of the other; and a core about to touch memory has interrupts masked
    and its bit set. *)
Theorem atomic_accesses_exclude allowed m base s :
  disciplined allowed → (∀ c, mask_value (base c)) → reachable allowed (initial m base) s →
  (∀ c k e, next_access s c = Some (k, e) → touches_memory e = true →
     primask s c = 1 ∧ Z.testbit (lock_reg s) (bit c (lock_idx (target k))) = true) ∧
  (∀ k e k' e', next_access s false = Some (k, e) → next_access s true = Some (k', e') →
     touches_memory e = true → touches_memory e' = true →
     lock_idx (target k) ≠ lock_idx (target k') ∧ footprint k ## footprint k').
Proof.
  intros Hd Hb Hr.
  destruct (sim_reachable allowed base Hb (di_locked _ Hd) (λ c k k', disciplined_compatible allowed c k k' Hd) m s Hr)
    as (a & pts & _ & Hs).
  assert (∀ c k e, next_access s c = Some (k, e) → touches_memory e = true →
    ∃ q r ptl p fs, frames s c = (k, p) :: fs ∧ pts c = Critical q r :: ptl) as Hcrit.
  { intros c k e He Ht. unfold next_access in He. destruct (frames s c) as [|[k1 p] fs] eqn:Hf; [done|].
    pose proof (co_at _ _ _ _ _ _ _ (sim_core _ _ _ _ _ Hs c)) as Hat. rewrite Hf in Hat.
    apply Forall2_cons_inv_l in Hat as (pt & ptl & Hat & _ & Hp).
    destruct p; [done| |done]. injection He as -> ->.
    inversion Hat; subst; try done.
    - match goal with H : function_of _ _ = _ |- _ => rewrite function_of_locked in H by done; by injection H as <- _ end.
    - destruct n; [done|]. match goal with H : after_clear _ _ _ _ = _ |- _ => by injection H as <- _ end.
    - by eexists _, _, _, _, _. }
  split.
  - intros c k e He Ht. destruct (Hcrit c k e He Ht) as (q & r & ptl & p & fs & Hf & Hp).
    pose proof (sim_core _ _ _ _ _ Hs c) as Hc. rewrite (co_mask _ _ _ _ _ _ _ Hc), Hp. split; [done|].
    rewrite (co_bits _ _ _ _ _ _ _ Hc), Hf, Hp by apply lock_idx_range. by apply bool_decide_eq_true.
  - intros k e k' e' He He' Ht Ht'.
    destruct (Hcrit false k e He Ht) as (q & r & ptl & p & fs & Hf & Hp).
    destruct (Hcrit true k' e' He' Ht') as (q' & r' & ptl' & p' & fs' & Hf' & Hp').
    assert (lock_idx (target k) ≠ lock_idx (target k')) as Hne.
    { eapply (sim_excl _ _ _ _ _ Hs false); cbn; [by rewrite Hf, Hp|by rewrite Hf', Hp']. }
    split; [done|]. destruct (disciplined_compatible allowed false k k' Hd) as [?|?]; try done.
    + pose proof (co_allowed _ _ _ _ _ _ _ (sim_core _ _ _ _ _ Hs false)) as H. rewrite Hf in H. by apply Forall_cons in H as [? _].
    + pose proof (co_allowed _ _ _ _ _ _ _ (sim_core _ _ _ _ _ Hs true)) as H. rewrite Hf' in H. by apply Forall_cons in H as [? _].
Qed.

(** C20: An operation returns: wherever it is, if the other core does not have its
    bit set in the operation's lock and does not move, at most 17 steps of its
    core take it to its return and leave the operations it interrupted. *)
Theorem atomic_operation_returns allowed m base s c k p fs :
  disciplined allowed → (∀ c, mask_value (base c)) → reachable allowed (initial m base) s →
  frames s c = (k, p) :: fs →
  Z.testbit (lock_reg s) (bit (negb c) (lock_idx (target k))) = false →
  returns_within 17 c fs s.
Proof.
  intros Hd Hb Hr Hf Hbit.
  destruct (sim_reachable allowed base Hb (di_locked _ Hd) (λ c k k', disciplined_compatible allowed c k k' Hd) m s Hr)
    as (a & pts & _ & Hs).
  by eapply (returns_point c k fs allowed base s a pts p).
Qed.

(** Address hashing: two aligned operations of at most a word that share a
    byte select the same lock, and every lock's bits are in the register. *)
Theorem atomic_access_one_stripe k k' b c :
  aligned k → aligned k' → word_sized k → word_sized k' →
  b ∈ target_bytes k → b ∈ target_bytes k' →
  lock_idx (target k) = lock_idx (target k') ∧ 0 <= lock_idx (target k) < ATOMIC_LOCKS ∧
  is_u32 (locked_mask c (target k)) ∧ is_u32 (lock_mask (target k)).
Proof.
  intros Ha Ha' Hw Hw' Hb Hb'. pose proof (lock_idx_range (target k)) as Hi.
  split; [|split; [exact Hi|split]].
  - by rewrite !lock_idx_div, <-(word_stripe k b), <-(word_stripe k' b).
  - rewrite locked_mask_bit. unfold is_u32, word, bit, core_num. split; [apply Z.pow_nonneg; lia|].
    apply Z.pow_lt_mono_r; destruct c; lia.
  - unfold is_u32, word, lock_mask, lock_pos, ATOMIC_LOCK_WIDTH. change (Z.shiftl 1 2 - 1) with 3.
    rewrite Z.shiftl_mul_pow2 by lia. pose proof (Z.pow_le_mono_r 2 (lock_idx (target k) * 2) 30 ltac:(lia) ltac:(lia)).
    pose proof (Z.pow_pos_nonneg 2 (lock_idx (target k) * 2)). lia.
Qed.

(** C29: Each function is its lock, a critical section, its unlock, in either
    core and at every width, and the critical section leaves the memory of the
    builtin's documented meaning, in one piece; its answer is the documented
    result for every function but [__atomic_load_8], which answers the low word of
    the eight bytes it loads ([load_8_truncates]). *)
Theorem atomic_function_reference c k : is_clear k = false →
  ∃ body, function_of c k = Act SaveAndDisable (λ st, Until (attempt c (target k)) (finish c k st body)) ∧
    ∀ m, ∃ r, exec body m = Some (r, snd (reference k m)) ∧
      r = match k with Load8 _ => u32 (fst (reference k m)) | _ => fst (reference k m) end.
Proof.
  intros Hk. exists (critical k). split; [by apply function_of_locked|]. intros m.
  eexists. split; [apply critical_outcome|done].
Qed.

(** A variable of eight bytes that holds 2^32 is loaded as 0. *)
Example load_8_truncates :
  let m := store 8 0x20000100 (2 ^ 32) ∅ in
  exec (critical (Load8 0x20000100)) m = Some (0, m) ∧ fst (reference (Load8 0x20000100) m) = 2 ^ 32.
Proof. vm_compute. done. Qed.

(** C30: The ticket lock's steps are the atomic operations: [spin_lock]'s word
    addition takes a ticket and returns the word that held it, [spin_unlock]'s
    half-word addition serves the next one without touching the tickets, both
    under the same lock, and no other byte changes. *)
Theorem ticket_lock_on_atomics a m : bytes_ok m → a mod 4 = 0 →
  let take := Fetch Add W4 a (Z.shiftl 1 16) in
  let serve := Fetch Add W2 a 1 in
  let w := load 4 a m in
  lock_idx (target take) = lock_idx (target serve) ∧
  fst (reference take m) = w ∧ load 4 a (snd (reference take m)) = take_ticket w ∧
  load 4 a (snd (reference serve m)) = serve_next w ∧
  (∀ b, b < a ∨ a + 4 <= b →
     snd (reference take m) !! b = m !! b ∧ snd (reference serve m) !! b = m !! b).
Proof.
  intros Hm Ha take serve w. split_and!; try done.
  - cbn [take reference snd access_width size_of fetch_op]. rewrite load_store. reflexivity.
  - cbn [serve reference snd access_width size_of fetch_op].
    pose proof (load_range 2 a m Hm) as H2. change (256 ^ Z.of_nat 2) with half in H2.
    assert (w = load 2 a m + half * load 2 (a + 2) m) as Hw by exact (load_app 2 2 a m).
    rewrite (load_app 2 2), load_store. change (256 ^ Z.of_nat 2) with half. change (a + Z.of_nat 2) with (a + 2).
    rewrite (load_agree 2 (a + 2) _ m) by (intros b Hb; apply store_outside; lia).
    set (low := load 2 a m) in *. set (high := load 2 (a + 2) m) in *.
    assert (w / half = high ∧ w mod half = low) as [Ed Em].
    { rewrite Hw, (Z.mul_comm half), Z_mod_plus_full, Z.div_add, Z.div_small, Z.mod_small by (done || lia). lia. }
    unfold serve_next. rewrite serving_mod. fold (next_ticket w). rewrite next_ticket_div, Z.shiftl_mul_pow2 by done.
    change (2 ^ 16) with half. rewrite Ed, Em. lia.
  - intros b Hb. cbn [take serve reference snd access_width size_of]. split; apply store_outside; lia.
Qed.

(** ** Two cores on one word *)
Definition counter_at : Z := 0x20000100.
Definition local_at : Z := 0x20041000.
Definition two_calls (c : bool) (k : call) : Prop :=
  if c then k = CompareExchange W4 counter_at local_at 9 else k = Fetch Add W4 counter_at 7.

Lemma two_calls_disciplined : disciplined two_calls.
Proof.
  split.
  - by intros [] k ->.
  - by intros [] k ->.
  - intros [] k k' -> ->; by left.
  - intros [] k k' -> -> b; [|by intros ?%elem_of_nil].
    intros Hb%elem_of_span [Hb'%elem_of_span|?%elem_of_nil]%elem_of_app; [|done].
    cbn in *. unfold counter_at, local_at in *. lia.
Qed.

Lemma run_reachable allowed s0 n : ∀ c s s', reachable allowed s0 s → run n c s = Some s' → reachable allowed s0 s'.
Proof.
  induction n as [|n IH]; intros c s s' Hs; cbn; [by intros [= <-]|].
  destruct (advance c s) as [s1|] eqn:E; [|done]. apply IH. eapply reachable_next; [done|by eapply step_run].
Qed.

Definition run_or (n : nat) (c : bool) (s : machine) : machine := default s (run n c s).

Lemma run_or_reachable allowed s0 n c s : reachable allowed s0 s → reachable allowed s0 (run_or n c s).
Proof. intros Hs. unfold run_or. destruct (run n c s) eqn:E; [by eapply run_reachable|done]. Qed.

Definition no_masks (_ : bool) : Z := 0.
Definition quiet_two : machine := initial ∅ no_masks.
(** Both cores are called; core 0 sets its bit, core 1 sets its own, finds core
    0's and gives way; core 0 is in its critical section. *)
Definition contended : machine :=
  run_or 4 true (run_or 4 false (start true (CompareExchange W4 counter_at local_at 9)
    (start false (Fetch Add W4 counter_at 7) quiet_two))).
(** Core 0 finishes, then core 1. *)
Definition both_returned : machine := run_or 13 true (run_or 6 false contended).

Lemma start_reachable allowed s0 c k s :
  reachable allowed s0 s → allowed c k → frames s c = [] ∨ primask s c = 0 → reachable allowed s0 (start c k s).
Proof. intros Hs Hk Hf. eapply reachable_next; [done|by apply step_start]. Qed.

Lemma contended_reachable : reachable two_calls quiet_two contended.
Proof.
  unfold contended. do 2 apply run_or_reachable. apply start_reachable; [|exact eq_refl|by left].
  apply start_reachable; [constructor|exact eq_refl|by left].
Qed.

Lemma both_returned_reachable : reachable two_calls quiet_two both_returned.
Proof. do 2 apply run_or_reachable. apply contended_reachable. Qed.

Lemma atomic_operations_linearize_witness :
  trace both_returned = [Called false (Fetch Add W4 counter_at 7); Called true (CompareExchange W4 counter_at local_at 9);
    Returned false (Fetch Add W4 counter_at 7) 0; Returned true (CompareExchange W4 counter_at local_at 9) 0] ∧
  load 4 counter_at (mem both_returned) = 7 ∧ load 4 local_at (mem both_returned) = 7 ∧
  ∃ a, spec_reachable two_calls (spec_initial ∅) a ∧ strace a = trace both_returned ∧ mem both_returned = smem a.
Proof.
  split; [vm_compute; reflexivity|]. split; [vm_compute; reflexivity|]. split; [vm_compute; reflexivity|].
  destruct (atomic_operations_linearize two_calls ∅ no_masks both_returned two_calls_disciplined (λ _, or_introl eq_refl)
    both_returned_reachable) as (a & Ha & Ht & Hidle).
  exists a. split; [exact Ha|]. split; [exact Ht|]. apply Hidle. intros []; vm_compute; reflexivity.
Defined.

Lemma atomic_accesses_exclude_witness :
  next_access contended false = Some (Fetch Add W4 counter_at 7, Load 4 counter_at) ∧ primask contended false = 1.
Proof.
  assert (next_access contended false = Some (Fetch Add W4 counter_at 7, Load 4 counter_at)) as E by (vm_compute; reflexivity).
  split; [exact E|].
  exact (proj1 (proj1 (atomic_accesses_exclude two_calls ∅ no_masks contended two_calls_disciplined (λ _, or_introl eq_refl)
    contended_reachable) false _ _ E eq_refl)).
Defined.

(** Core 0 once core 1 has given way. *)
Definition yielded : machine := run_or 1 true contended.
Definition running : prog Z := match frames yielded false with (_, p) :: _ => p | [] => Ret 0 end.

Lemma atomic_operation_returns_witness :
  Z.testbit (lock_reg contended) (bit true (lock_idx counter_at)) = true ∧ returns_within 17 false [] yielded.
Proof.
  split; [vm_compute; reflexivity|].
  refine (atomic_operation_returns two_calls ∅ no_masks yielded false (Fetch Add W4 counter_at 7) running []
    two_calls_disciplined (λ _, or_introl eq_refl) _ eq_refl _); [|vm_compute; reflexivity].
  apply run_or_reachable, contended_reachable.
Defined.

Lemma atomic_access_one_stripe_witness :
  lock_idx 0x20000100 = lock_idx 0x20000102 ∧ lock_idx 0x20000100 ≠ lock_idx 0x20000104.
Proof.
  split; [|by vm_compute].
  refine (proj1 (atomic_access_one_stripe (Fetch Add W4 0x20000100 65536) (Fetch Add W2 0x20000102 1) 0x20000102 false
    eq_refl eq_refl _ _ _ _)); [discriminate|discriminate|apply elem_of_span; split; vm_compute; congruence..].
Defined.

Lemma atomic_function_reference_witness :
  ∃ body, function_of true (Fetch Or W2 counter_at 4) =
    Act SaveAndDisable (λ st, Until (attempt true counter_at) (finish true (Fetch Or W2 counter_at 4) st body)) ∧
    ∀ m, exec body m = Some (reference (Fetch Or W2 counter_at 4) m).
Proof.
  destruct (atomic_function_reference true (Fetch Or W2 counter_at 4) eq_refl) as (body & E & Hb).
  exists body. split; [exact E|]. intros m. destruct (Hb m) as (r & Er & ->). by rewrite Er, <-surjective_pairing.
Defined.

(** A ticket lock word at the end of its tickets: 65535 to serve next, 65535 to
    give. *)
Definition last_ticket : memory := store 4 counter_at (lock_word 65535 65535) ∅.

Lemma ticket_lock_on_atomics_witness :
  load 4 counter_at last_ticket = 0xffffffff ∧
  load 4 counter_at (snd (reference (Fetch Add W2 counter_at 1) last_ticket)) = serve_next (load 4 counter_at last_ticket).
Proof.
  split; [vm_compute; reflexivity|].
  refine (proj1 (proj2 (proj2 (proj2 (ticket_lock_on_atomics counter_at last_ticket _ eq_refl))))).
  apply store_bytes_ok. intros a. split; vm_compute; congruence.
Defined.

(** ** The flag *)
Definition flag_at : Z := 0x20000200.
Definition flag_calls (c : bool) (k : call) : Prop := if c then k = Clear flag_at else k = TestAndSet flag_at.
(** The flag is set: core 1 holds the lock it guards. *)
Definition flag_held : memory := {[flag_at := 1]}.
(** Core 0 has read the flag; core 1 clears it; core 0 writes. *)
Definition clear_lost : machine :=
  run_or 4 false (run_or 2 true (start true (Clear flag_at)
    (run_or 5 false (start false (TestAndSet flag_at) (initial flag_held no_masks))))).

Definition lost_trace : list event :=
  [Called false (TestAndSet flag_at); Called true (Clear flag_at); Returned true (Clear flag_at) 0;
   Returned false (TestAndSet flag_at) 1].

Lemma clear_lost_reachable : reachable flag_calls (initial flag_held no_masks) clear_lost.
Proof.
  unfold clear_lost. do 2 apply run_or_reachable. apply start_reachable; [|exact eq_refl|by left].
  apply run_or_reachable. apply start_reachable; [constructor|exact eq_refl|by left].
Qed.

(** The states of the atomic machine whose trace is a prefix of [lost_trace]. *)
Inductive flag_state : list sframe → list sframe → list event → Z → Prop :=
  | fs_0 : flag_state [] [] [] 1
  | fs_1 v : v = Pending (TestAndSet flag_at) ∨ v = Responded (TestAndSet flag_at) 1 →
      flag_state [v] [] (take 1 lost_trace) 1
  | fs_2 v : v = Pending (TestAndSet flag_at) ∨ v = Responded (TestAndSet flag_at) 1 →
      flag_state [v] [Pending (Clear flag_at)] (take 2 lost_trace) 1
  | fs_3 v x : v = Pending (TestAndSet flag_at) ∧ x = 0 ∨ v = Responded (TestAndSet flag_at) 1 ∧ x = 0 ∨
        v = Responded (TestAndSet flag_at) 0 ∧ x = 1 →
      flag_state [v] [Responded (Clear flag_at) 0] (take 2 lost_trace) x
  | fs_4 v x : v = Pending (TestAndSet flag_at) ∧ x = 0 ∨ v = Responded (TestAndSet flag_at) 1 ∧ x = 0 ∨
        v = Responded (TestAndSet flag_at) 0 ∧ x = 1 →
      flag_state [v] [] (take 3 lost_trace) x
  | fs_5 : flag_state [] [] lost_trace 0.

Lemma flag_starts l1 l2 t x (c : bool) k : flag_state l1 l2 t x → flag_calls c k → t ++ [Called c k] `prefix_of` lost_trace →
  if c then l2 = [] ∧ flag_state l1 [Pending k] (t ++ [Called c k]) x
  else l1 = [] ∧ flag_state [Pending k] l2 (t ++ [Called c k]) x.
Proof.
  intros Hs Hk [rest Hpre]. destruct c; cbn in Hk; subst k; destruct Hs; cbn in Hpre; try discriminate; split; try done.
  - by apply (fs_2 v).
  - by apply fs_1; left.
Qed.

Lemma flag_returns l1 l2 t x (c : bool) k v fs : flag_state l1 l2 t x → (if c then l2 else l1) = Responded k v :: fs →
  t ++ [Returned c k v] `prefix_of` lost_trace →
  if c then flag_state l1 fs (t ++ [Returned c k v]) x else flag_state fs l2 (t ++ [Returned c k v]) x.
Proof.
  intros Hs Hf [rest Hpre].
  destruct c, Hs as [|w Hw|w Hw|w x Hw|w x Hw|]; cbn in Hpre; try discriminate; injection Hf as ? ?; subst.
  - by apply (fs_4 w).
  - destruct Hw as [[? ?]|[[E ?]|[E ?]]]; simplify_eq. apply fs_5.
Qed.

Lemma flag_effects l1 l2 t (m : memory) (c : bool) k fs v m' : flag_state l1 l2 t (byte_at m flag_at) →
  (if c then l2 else l1) = Pending k :: fs → outcome k m = (v, m') →
  if c then flag_state l1 (Responded k v :: fs) t (byte_at m' flag_at)
  else flag_state (Responded k v :: fs) l2 t (byte_at m' flag_at).
Proof.
  intros Hs Hf Href. remember (byte_at m flag_at) as y eqn:Ey.
  assert (∀ u, byte_at (store 1 flag_at u m) flag_at = u mod 256) as Hst.
  { intros u. cbn [store]. by rewrite byte_at_insert, decide_True. }
  assert (load 1 flag_at m = y) as Hld by (cbn [load]; lia).
  destruct c, Hs as [|w Hw|w Hw|w x Hw|w x Hw|]; try discriminate; injection Hf as ? ?; subst.
  all: repeat match goal with H : _ ∨ _ |- _ => destruct H end; destruct_and?; simplify_eq;
    unfold outcome in *; cbn [reference target access_width size_of answered fst snd] in *; simplify_eq; rewrite ?Hst, ?Hld.
  all: rewrite <-?Ey; constructor; rewrite ?H1; auto.
Qed.

Lemma flag_states a : spec_reachable flag_calls (spec_initial flag_held) a → strace a `prefix_of` lost_trace →
  flag_state (sframes a false) (sframes a true) (strace a) (byte_at (smem a) flag_at).
Proof.
  induction 1 as [|a a' _ IH Hstep]; intros Hpre; [constructor|].
  destruct Hstep as [c k a Hk|c k fs v m a Hf Href|c k v fs a Hf]; cbn in *.
  - pose proof (flag_starts _ _ _ _ c k (IH ltac:(by eapply prefix_app_l)) Hk Hpre) as H. destruct c; cbn; by destruct H as [-> ?].
  - pose proof (flag_effects _ _ _ _ c k fs v m (IH Hpre)) as H. destruct c; by apply H.
  - pose proof (flag_returns _ _ _ _ c k v fs (IH ltac:(by eapply prefix_app_l))) as H. destruct c; by apply H.
Qed.

(** The flag's clear takes no lock, so a clear that falls between the read
    and the write of a test-and-set is lost: the machine reaches a state in
    which both calls have returned, the test-and-set found the flag set, the
    holder has cleared it, and the flag is still set; with one-step operations
    the same calls and returns always leave it clear. *)
Theorem atomic_flag_clear_lost :
  ∃ s, reachable flag_calls (initial flag_held no_masks) s ∧ (∀ c, frames s c = []) ∧ byte_at (mem s) flag_at = 1 ∧
    ∀ a, spec_reachable flag_calls (spec_initial flag_held) a → strace a = trace s → byte_at (smem a) flag_at = 0.
Proof.
  exists clear_lost. split; [apply clear_lost_reachable|].
  split; [intros []; vm_compute; reflexivity|]. split; [vm_compute; reflexivity|].
  intros a Ha Ht. assert (trace clear_lost = lost_trace) as E by (vm_compute; reflexivity). rewrite E in Ht.
  assert (strace a `prefix_of` lost_trace) as Hpre by (rewrite Ht; done).
  pose proof (flag_states a Ha Hpre) as Hs. rewrite Ht in Hs. by inversion Hs.
Qed.
