(* ===== verification/Nmi.v ===== *)
(** * Interrupts boosted to the NMI

    [pico-nmi/nmi.c], and the per-core interrupt state it shares with
    multicore-irq.c.  Each core keeps a zero-terminated table of the handlers
    it runs from the non-maskable interrupt, and a hardware mask of the
    interrupts that raise it. *)
From S2P Require Import Prelude.

(** [NUM_IRQS] of the RP2040. *)
Definition NUM_IRQS : Z := 32.

(** What the Pico SDK, the processor and foreign code do, per core: the SDK's
    interrupt functions, a write to the processor's interrupt control register,
    a call of a function at an address, and the mailbox between the cores.
    [board] is all they change. *)
Class Sdk (board mailbox : Type) := {
  irq_get_vtable_handler : bool → Z → board → Z;
  irq_clear : bool → Z → board → board;
  real_irq_set_enabled : bool → Z → bool → board → board;
  real_irq_set_pending : bool → Z → board → board;
  irq_is_enabled : bool → Z → board → bool;
  NVIC_SetPriority : bool → Z → Z → board → board;
  write_icsr : bool → Z → board → board;
  call_address : bool → Z → board → board;
  multicore_fifo_rvalid : mailbox → bool;
  multicore_fifo_pop : mailbox → Z * mailbox;
  multicore_fifo_push : Z → mailbox → option mailbox;
  multicore_fifo_clear_irq : mailbox → mailbox
}.

(** [mail c] is the mailbox core [c] reads. *)
Record irqs (board mailbox : Type) := Irqs {
  hw : board;
  mail : bool → mailbox;
  primask : bool → Z;
  nmi_proc_mask : bool → Z;
  active_handlers : bool → list Z;
  irq_enabled : bool → list bool;
  irq_priority : bool → list Z;
  irq_affinity : list Z
}.
Arguments Irqs {board mailbox} hw mail primask nmi_proc_mask active_handlers irq_enabled irq_priority irq_affinity.
Arguments hw {board mailbox} i.
Arguments mail {board mailbox} i c : rename.
Arguments primask {board mailbox} i c : rename.
Arguments nmi_proc_mask {board mailbox} i c : rename.
Arguments active_handlers {board mailbox} i c : rename.
Arguments irq_enabled {board mailbox} i c : rename.
Arguments irq_priority {board mailbox} i c : rename.
Arguments irq_affinity {board mailbox} i.
#[export] Instance eta_irqs board mailbox : Eta (irqs board mailbox) :=
  λ s, Irqs (hw s) (mail s) (primask s) (nmi_proc_mask s) (active_handlers s) (irq_enabled s) (irq_priority s) (irq_affinity s).

Section nmi.
Context {board mailbox : Type} `{Sdk board mailbox}.
Local Notation S := (irqs board mailbox).

(** An array of the running core, read and written at an index; outside the
    array the C code has no meaning. *)
Definition read_at {A} (l : S → list A) (i : Z) : M S A :=
  get_opt (λ s, if 0 <=? i then l s !! Z.to_nat i else None) BadPointer.
Definition write_at {A} (l : S → list A) (set : list A → S → S) (i : Z) (v : A) : M S unit :=
  read_at l i ;;; upd (λ s, set (<[Z.to_nat i := v]> (l s)) s).

Definition handler_at (c : bool) (i : Z) : M S Z := read_at (λ s, active_handlers s c) i.
Definition set_handler (c : bool) (i v : Z) : M S unit :=
  write_at (λ s, active_handlers s c) (λ l s, s <| active_handlers := upd_core c l (active_handlers s) |>) i v.
Definition set_nmi_mask (c : bool) (v : Z) : M S unit :=
  upd (λ s, s <| nmi_proc_mask := upd_core c v (nmi_proc_mask s) |>).

Definition disable_interrupts (c : bool) : M S Z :=
  state <- gets (λ s, primask s c) ;;
  upd (λ s, s <| primask := upd_core c 1 (primask s) |>) ;;;
  ret state.
Definition enable_interrupts (c : bool) (state : Z) : M S unit :=
  upd (λ s, s <| primask := upd_core c state (primask s) |>).

Definition on_board (f : board → board) : M S unit := upd (λ s, s <| hw ::= f |>).

(** [while ((current = *pos++) != 0) current();] *)
Fixpoint dispatch_from (fuel : nat) (c : bool) (pos : Z) : M S unit :=
  match fuel with
  | O => fail OutOfFuel
  | Datatypes.S fuel =>
      current <- handler_at c pos ;;
      if current =? 0 then ret tt else on_board (call_address c current) ;;; dispatch_from fuel c (pos + 1)
  end.

Definition NMI_Handler (c : bool) : M S unit := dispatch_from (Datatypes.S (Z.to_nat NUM_IRQS)) c 0.

Definition nmi_is_enabled (c : bool) (num : Z) : M S bool :=
  gets (λ s, has (nmi_proc_mask s c) (Z.shiftl 1 num)).

(** The loop that looks for the end of the table, [n] slots before its end. *)
Fixpoint add_handler (n : nat) (c : bool) (num nmi_state : Z) : M S Z :=
  match n with
  | O => ret nmi_state
  | Datatypes.S n' =>
      let idx := NUM_IRQS - Z.of_nat n in
      current <- handler_at c idx ;;
      if current =? 0 then
        handler <- gets (λ s, irq_get_vtable_handler c num (hw s)) ;;
        set_handler c idx handler ;;;
        ret (Z.lor nmi_state (Z.shiftl 1 num))
      else add_handler n' c num nmi_state
  end.

(** The loop that removes the handler and closes the gap. *)
Fixpoint remove_handler (n : nat) (c : bool) (num : Z) (found : bool) : M S unit :=
  match n with
  | O => ret tt
  | Datatypes.S n' =>
      let idx := NUM_IRQS - Z.of_nat n in
      current <- handler_at c idx ;;
      if current =? 0 then ret tt
      else
        handler <- gets (λ s, irq_get_vtable_handler c num (hw s)) ;;
        if found || (current =? handler) then
          next <- handler_at c (idx + 1) ;;
          set_handler c idx next ;;;
          remove_handler n' c num true
        else remove_handler n' c num false
  end.

Definition nmi_set_enable (c : bool) (num : Z) (enabled : bool) : M S unit :=
  assert (num <? NUM_IRQS) ;;;
  now <- nmi_is_enabled c num ;;
  if Bool.eqb now enabled then ret tt
  else
    state <- disable_interrupts c ;;
    nmi_state <- gets (λ s, nmi_proc_mask s c) ;;
    set_nmi_mask c 0 ;;;
    nmi_state <- (if enabled then add_handler (Z.to_nat NUM_IRQS) c num nmi_state
                  else remove_handler (Z.to_nat NUM_IRQS) c num false ;;;
                       ret (Z.land nmi_state (not32 (Z.shiftl 1 num)))) ;;
    set_nmi_mask c nmi_state ;;;
    enable_interrupts c state.

(** [atomic_exchange] on the mask of core 0, whichever core calls. *)
Definition nmi_mask : M S Z :=
  state <- gets (λ s, nmi_proc_mask s false) ;;
  set_nmi_mask false 0 ;;;
  ret state.
Definition nmi_unmask (state : Z) : M S unit := set_nmi_mask false (u32 state).
End nmi.

(** ** The table *)
Section laws.
Context {board mailbox : Type} `{Sdk board mailbox}.
Local Notation S := (irqs board mailbox).
Implicit Types (s : S) (c : bool) (hs : list Z).

(** The handlers in order, then zeros to the end of the array. *)
Definition table hs : list Z := hs ++ replicate (Z.to_nat NUM_IRQS + 1 - length hs) 0.
(** The interrupts a mask enables. *)
Definition enabled_irqs (mask : Z) : list Z := filter (λ i, Z.testbit mask i = true) (seqZ 0 NUM_IRQS).

(** The state of a core's NMI: the table holds exactly the handlers of the
    interrupts in the mask. *)
Record nmi_ok c s hs : Prop := {
  nk_table : active_handlers s c = table hs;
  nk_handlers : hs ≡ₚ (λ i, irq_get_vtable_handler c i (hw s)) <$> enabled_irqs (nmi_proc_mask s c);
  nk_nonzero : Forall (λ h, h ≠ 0) hs
}.

(** Every interrupt has a handler in the vector table. *)
Definition handlers_set c s : Prop := ∀ i, 0 <= i < NUM_IRQS → irq_get_vtable_handler c i (hw s) ≠ 0.

Lemma enabled_irqs_length mask : (length (enabled_irqs mask) <= Z.to_nat NUM_IRQS)%nat.
Proof. unfold enabled_irqs. etrans; [apply length_filter|]. by rewrite length_seqZ. Qed.

Lemma elem_of_enabled mask i : i ∈ enabled_irqs mask ↔ 0 <= i < NUM_IRQS ∧ Z.testbit mask i = true.
Proof. unfold enabled_irqs. rewrite list_elem_of_filter, elem_of_seqZ. unfold NUM_IRQS. naive_solver lia. Qed.

Lemma NoDup_enabled mask : NoDup (enabled_irqs mask).
Proof. apply NoDup_filter, NoDup_seqZ. Qed.

Lemma enabled_set mask i : 0 <= i < NUM_IRQS → Z.testbit mask i = false →
  enabled_irqs (Z.lor mask (Z.shiftl 1 i)) ≡ₚ i :: enabled_irqs mask.
Proof.
  intros Hi Hb. apply NoDup_Permutation.
  - apply NoDup_enabled.
  - constructor; [|apply NoDup_enabled]. rewrite elem_of_enabled. intros [_ ?]. congruence.
  - intros j. rewrite elem_of_cons, !elem_of_enabled, Z.lor_spec, Z.shiftl_1_l, Z.pow2_bits_eqb by lia.
    destruct (Z.eqb_spec i j) as [->|?]; rewrite ?orb_true_r, ?orb_false_r; naive_solver.
Qed.

Lemma not32_bit i j : 0 <= i < 32 → 0 <= j < 32 → Z.testbit (not32 (Z.shiftl 1 i)) j = negb (i =? j).
Proof.
  intros Hi Hj. rewrite Z.shiftl_1_l. unfold not32, UINT32_MAX.
  change 0xffffffff with (Z.ones 32). rewrite Z.sub_nocarry_ldiff.
  - rewrite Z.ldiff_spec, Z.ones_spec_low, Z.pow2_bits_eqb by lia. done.
  - apply Z.bits_inj'. intros n Hn. rewrite Z.ldiff_spec, Z.bits_0, Z.pow2_bits_eqb by lia.
    destruct (Z.eqb_spec i n) as [->|?]; [|done]. by rewrite Z.ones_spec_low by lia.
Qed.

Lemma enabled_clear mask i : 0 <= i < NUM_IRQS → Z.testbit mask i = true →
  enabled_irqs mask ≡ₚ i :: enabled_irqs (Z.land mask (not32 (Z.shiftl 1 i))).
Proof.
  intros Hi Hb. apply NoDup_Permutation.
  - apply NoDup_enabled.
  - constructor; [|apply NoDup_enabled]. rewrite elem_of_enabled, Z.land_spec, not32_bit by done.
    rewrite Z.eqb_refl, andb_false_r. naive_solver.
  - intros j. rewrite elem_of_cons, !elem_of_enabled, Z.land_spec. split.
    + intros [Hj Hm]. rewrite not32_bit, Hm by done. destruct (Z.eqb_spec i j); naive_solver.
    + intros [->|[Hj [Hm _]%andb_prop]]; done.
Qed.

Lemma has_bit mask i : 0 <= i → has mask (Z.shiftl 1 i) = Z.testbit mask i.
Proof. intros Hi. rewrite Z.shiftl_1_l. by apply has_pow2. Qed.

Lemma table_length hs : (length hs <= Z.to_nat NUM_IRQS)%nat → length (table hs) = (Z.to_nat NUM_IRQS + 1)%nat.
Proof. intros Hl. unfold table. rewrite length_app, length_replicate. lia. Qed.

Lemma table_lookup hs i : (length hs <= i)%nat → (i <= Z.to_nat NUM_IRQS)%nat → table hs !! i = Some 0.
Proof. intros Hl Hi. unfold table. rewrite lookup_app_r by done. apply lookup_replicate_2. lia. Qed.

Lemma table_snoc hs h : (length hs <= Z.to_nat NUM_IRQS)%nat → <[length hs := h]> (table hs) = table (hs ++ [h]).
Proof.
  intros Hl. unfold table. rewrite length_app. cbn [length].
  replace (Z.to_nat NUM_IRQS + 1 - length hs)%nat with (Datatypes.S (Z.to_nat NUM_IRQS + 1 - (length hs + 1)))%nat by lia.
  cbn [replicate]. rewrite <-app_assoc, insert_app_r_alt, Nat.sub_diag by lia. done.
Qed.

(** Only the table of core [c] changes, to [t]. *)
Record table_becomes c s s' (t : list Z) : Prop := {
  tb_table : active_handlers s' c = t;
  tb_other : active_handlers s' (negb c) = active_handlers s (negb c);
  tb_rest : s' = s <| active_handlers := active_handlers s' |>
}.

Lemma table_becomes_id c s : table_becomes c s s (active_handlers s c).
Proof. split; [done..|]. by destruct s. Qed.

Lemma table_becomes_trans c s1 s2 s3 t t' : table_becomes c s1 s2 t → table_becomes c s2 s3 t' → table_becomes c s1 s3 t'.
Proof. intros [_ E1 R1] [E2 E3 R2]. split; [done|congruence|]. rewrite R2, R1. by destruct s1. Qed.

Lemma wp_handler_at c i v Q s : 0 <= i → active_handlers s c !! Z.to_nat i = Some v → Q v s → wp (handler_at c i) Q s.
Proof. intros Hi Hv HQ. eapply wp_get_opt; [|exact HQ]. by rewrite (proj2 (Z.leb_le 0 i) Hi). Qed.

Lemma wp_set_handler c i v old (Q : unit → S → Prop) s :
  0 <= i → active_handlers s c !! Z.to_nat i = Some old →
  (∀ s', table_becomes c s s' (<[Z.to_nat i := v]> (active_handlers s c)) → Q tt s') → wp (set_handler c i v) Q s.
Proof.
  intros Hi Hv HQ. apply wp_bind. eapply wp_get_opt; [rewrite (proj2 (Z.leb_le 0 i) Hi); exact Hv|].
  apply wp_upd, HQ. split; rsimp; [apply upd_core_eq|apply upd_core_ne|]. by destruct s.
Qed.

Lemma add_handler_loop c num st hs : ∀ n s, active_handlers s c = table hs → Forall (λ h, h ≠ 0) hs →
  (length hs < Z.to_nat NUM_IRQS)%nat → (Z.to_nat NUM_IRQS <= n + length hs)%nat → (n <= Z.to_nat NUM_IRQS)%nat →
  wp (add_handler n c num st) (λ r s', r = Z.lor st (Z.shiftl 1 num) ∧
    table_becomes c s s' (table (hs ++ [irq_get_vtable_handler c num (hw s)]))) s.
Proof.
  induction n as [|n IH]; intros s Ht Hnz Hlt Hge Hn; [lia|]. cbn [add_handler].
  set (idx := NUM_IRQS - Z.of_nat (Datatypes.S n)). assert (0 <= idx) as Hidx by (unfold idx; lia).
  destruct (decide (Z.to_nat idx = length hs)) as [E|E].
  - apply wp_bind. eapply wp_handler_at; [done|rewrite Ht, E; apply table_lookup; lia|]. cbn [Z.eqb].
    apply wp_bind, wp_gets, wp_bind. eapply wp_set_handler; [done|rewrite Ht, E; apply table_lookup; lia|].
    intros s' Hs'. rewrite Ht, E, table_snoc in Hs' by lia. by apply wp_ret.
  - assert (Z.to_nat idx < length hs)%nat as Hi by (unfold idx in *; lia).
    destruct (lookup_lt_is_Some_2 hs _ Hi) as [h Hh]. apply wp_bind.
    eapply wp_handler_at; [done|rewrite Ht; by apply lookup_app_l_Some|].
    rewrite (proj2 (Z.eqb_neq h 0)); [|by eapply Forall_lookup_1 in Hnz]. apply IH; done || lia.
Qed.

(** The loop that has found the handler closes the gap behind [p]: the slots [l]
    move one towards the front. *)
Definition closes (n : nat) c num : Prop := ∀ p l k s,
  active_handlers s c = p ++ l ++ replicate (Datatypes.S k) 0 → Forall (λ h, h ≠ 0) l →
  (length p + n)%nat = Z.to_nat NUM_IRQS → (length p + length l <= Z.to_nat NUM_IRQS)%nat →
  wp (remove_handler n c num true) (λ _ s', table_becomes c s s'
    (p ++ match l with [] => replicate (Datatypes.S k) 0 | _ :: l' => l' ++ replicate (Datatypes.S (Datatypes.S k)) 0 end)) s.

Lemma closes_step n c num idx p h l k s : closes n c num → 0 <= idx → Z.to_nat idx = length p →
  active_handlers s c = p ++ h :: l ++ replicate (Datatypes.S k) 0 → Forall (λ h, h ≠ 0) l →
  (length p + Datatypes.S n)%nat = Z.to_nat NUM_IRQS → (length p + Datatypes.S (length l) <= Z.to_nat NUM_IRQS)%nat →
  wp (next <- handler_at c (idx + 1) ;; set_handler c idx next ;;; remove_handler n c num true)
    (λ _ s', table_becomes c s s' (p ++ l ++ replicate (Datatypes.S (Datatypes.S k)) 0)) s.
Proof.
  intros IH Hpos Hidx Ht Hnz Hp Hl.
  destruct (l ++ replicate (Datatypes.S k) 0) as [|x r] eqn:Er; [by destruct l|].
  apply wp_bind. apply (wp_handler_at c (idx + 1) x); [lia| |].
  { rewrite Ht. replace (Z.to_nat (idx + 1)) with (length p + 1)%nat by lia.
    rewrite lookup_app_r by lia. by replace (length p + 1 - length p)%nat with 1%nat by lia. }
  apply wp_bind. eapply wp_set_handler; [done|by rewrite Ht, Hidx, lookup_app_r, Nat.sub_diag by lia|].
  intros s1 Hs1. rewrite Ht, Hidx, insert_app_r_alt, Nat.sub_diag in Hs1 by lia. cbn [app list_insert] in Hs1.
  assert (active_handlers s1 c = (p ++ [x]) ++ l ++ replicate (Datatypes.S k) 0) as Ht1.
  { by rewrite (tb_table _ _ _ _ Hs1), Er, <-app_assoc. }
  eapply wp_mono; [eapply IH; [exact Ht1|done|rewrite length_app; cbn; lia|rewrite length_app; cbn in *; lia]|].
  intros [] s2 Hs2. eapply table_becomes_trans; [exact Hs1|]. rewrite <-app_assoc in Hs2.
  destruct l as [|y l]; injection Er as <- <-; exact Hs2.
Qed.

Lemma closes_all c num n : closes n c num.
Proof.
  induction n as [|n IH]; intros p l k s Ht Hnz Hp Hl; cbn [remove_handler].
  - destruct l; [|cbn in *; lia]. apply wp_ret. rewrite <-app_nil_l with (l := replicate _ _), <-Ht. apply table_becomes_id.
  - set (idx := NUM_IRQS - Z.of_nat (Datatypes.S n)). assert (Z.to_nat idx = length p) as Hidx by (unfold idx; lia).
    assert (0 <= idx) as Hpos by (unfold idx; lia). destruct l as [|h l].
    + apply wp_bind. eapply wp_handler_at; [done|by rewrite Ht, Hidx, lookup_app_r, Nat.sub_diag by lia|].
      cbn [Z.eqb]. apply wp_ret. rewrite <-app_nil_l with (l := replicate _ _), <-Ht. apply table_becomes_id.
    + apply Forall_cons in Hnz as [Hh Hnz]. apply wp_bind.
      eapply wp_handler_at; [done|by rewrite Ht, Hidx, lookup_app_r, Nat.sub_diag by lia|].
      rewrite (proj2 (Z.eqb_neq h 0) Hh). apply wp_bind, wp_gets. by eapply closes_step.
Qed.

Lemma remove_handler_loop c num : ∀ n l1 l2 s,
  let h := irq_get_vtable_handler c num (hw s) in
  active_handlers s c = table (l1 ++ h :: l2) → Forall (λ h, h ≠ 0) (l1 ++ h :: l2) → (length (l1 ++ h :: l2) <= Z.to_nat NUM_IRQS)%nat →
  h ∉ l1 → (n <= Z.to_nat NUM_IRQS)%nat → (Z.to_nat NUM_IRQS - n <= length l1)%nat →
  wp (remove_handler n c num false) (λ _ s', table_becomes c s s' (table (l1 ++ l2))) s.
Proof.
  induction n as [|n IH]; intros l1 l2 s h Ht Hnz Hl Hh Hn Hi; cbn [remove_handler].
  { rewrite length_app in Hl. cbn in Hl. lia. }
  set (idx := NUM_IRQS - Z.of_nat (Datatypes.S n)). assert (0 <= idx) as Hpos by (unfold idx; lia).
  assert (∃ x, (l1 ++ h :: l2) !! Z.to_nat idx = Some x) as [x Hx].
  { apply lookup_lt_is_Some_2. rewrite length_app. cbn. unfold idx. lia. }
  apply wp_bind. eapply wp_handler_at; [done|rewrite Ht; by apply lookup_app_l_Some|].
  rewrite (proj2 (Z.eqb_neq x 0)) by (by eapply Forall_lookup_1 in Hnz). apply wp_bind, wp_gets. cbn [orb]. fold h.
  destruct (Z.eqb_spec x h) as [->|Hne].
  - assert (Z.to_nat idx = length l1) as Hidx.
    { destruct (decide (Z.to_nat idx < length l1)%nat) as [Hlt|]; [|unfold idx in *; lia].
      rewrite lookup_app_l in Hx by done. by apply list_elem_of_lookup_2 in Hx. }
    rewrite length_app in Hl. cbn [length] in Hl. apply Forall_app in Hnz as [_ [_ Hnz]%Forall_cons].
    set (k := (Z.to_nat NUM_IRQS - length l1 - Datatypes.S (length l2))%nat).
    eapply wp_mono; [eapply (closes_step n c num idx l1 h l2 k); [apply closes_all|done|done| |done|unfold idx in *; lia|lia]|].
    + rewrite Ht. unfold table. rewrite <-app_assoc, length_app. cbn [length app]. do 4 f_equal. unfold k. lia.
    + intros [] s' Hs'. unfold table. rewrite <-app_assoc, length_app.
      by replace (Z.to_nat NUM_IRQS + 1 - (length l1 + length l2))%nat with (Datatypes.S (Datatypes.S k)) by (unfold k; lia).
  - apply IH; try done; [lia|]. destruct (decide (Z.to_nat idx < length l1)%nat) as [Hlt|Hge]; [unfold idx in *; lia|].
    assert (Z.to_nat idx = length l1) as E by (unfold idx in *; lia).
    rewrite E, lookup_app_r, Nat.sub_diag in Hx by lia. by injection Hx as ->.
Qed.

(** Only the NMI of core [c] changes: its table and its mask. *)
Definition only_nmi c s s' : Prop :=
  s' = s <| active_handlers := active_handlers s' |> <| nmi_proc_mask := nmi_proc_mask s' |> <| primask := primask s' |> ∧
  (∀ d, primask s' d = primask s d) ∧
  active_handlers s' (negb c) = active_handlers s (negb c) ∧ nmi_proc_mask s' (negb c) = nmi_proc_mask s (negb c).

Definition switched c num (enabled : bool) s s' : Prop :=
  (∃ hs, nmi_ok c s' hs) ∧ only_nmi c s s' ∧
  ∀ i, 0 <= i < NUM_IRQS → Z.testbit (nmi_proc_mask s' c) i = if i =? num then enabled else Z.testbit (nmi_proc_mask s c) i.

(** The end of [nmi_set_enable]: the mask and the interrupt state are put back
    around the new table. *)
Lemma finish_switch c num enabled s s1 hs m :
  table_becomes c (s <| primask := upd_core c 1 (primask s) |> <| nmi_proc_mask := upd_core c 0 (nmi_proc_mask s) |>) s1 (table hs) →
  hs ≡ₚ (λ i, irq_get_vtable_handler c i (hw s)) <$> enabled_irqs m → Forall (λ h, h ≠ 0) hs →
  (∀ i, 0 <= i < NUM_IRQS → Z.testbit m i = if i =? num then enabled else Z.testbit (nmi_proc_mask s c) i) →
  wp (set_nmi_mask c m ;;; enable_interrupts c (primask s c)) (λ _ s', switched c num enabled s s') s1.
Proof.
  intros [Et Eo Er] Hp Hnz Hbits. rewrite Er. apply wp_bind, wp_upd, wp_upd.
  split; [|split; [split; [|split]|]]; rsimp.
  - exists hs. split; rsimp; rewrite ?upd_core_eq; done.
  - by destruct s.
  - intros d. destruct (decide (d = c)) as [->|Hd]; [by rewrite upd_core_eq|]. by rewrite !upd_core_other.
  - rewrite !upd_core_ne. rsimp. done.
  - intros i Hi. rewrite upd_core_eq. by apply Hbits.
Qed.

Lemma nmi_set_enable_run c num enabled hs s :
  nmi_ok c s hs → handlers_set c s → 0 <= num < NUM_IRQS →
  wp (nmi_set_enable c num enabled) (λ _ s', switched c num enabled s s') s.
Proof.
  intros Hok Hset Hnum. apply wp_bind, wp_assert; [apply Z.ltb_lt; lia|].
  apply wp_bind, wp_gets. rewrite has_bit by lia.
  destruct (Bool.eqb_spec (Z.testbit (nmi_proc_mask s c) num) enabled) as [<-|Hne].
  { apply wp_ret. split; [by exists hs|]. split; [|intros i Hi; destruct (Z.eqb_spec i num) as [->|]; done].
    split; [by destruct s|done]. }
  do 2 apply wp_bind. apply wp_gets, wp_bind, wp_upd, wp_ret, wp_bind, wp_gets, wp_bind, wp_upd. rsimp.
  destruct Hok as [Ht Hp Hnz].
  assert (length hs <= Z.to_nat NUM_IRQS)%nat as Hlen.
  { rewrite Hp, length_fmap. apply enabled_irqs_length. }
  destruct enabled.
  - apply not_true_is_false in Hne. apply wp_bind. eapply wp_mono; [eapply add_handler_loop; rsimp; [exact Ht|done| |lia|lia]|].
    + pose proof (enabled_set _ _ Hnum Hne) as He. pose proof (enabled_irqs_length (Z.lor (nmi_proc_mask s c) (Z.shiftl 1 num))) as Hl.
      rewrite He in Hl. rewrite Hp, length_fmap. cbn in Hl. lia.
    + intros r s1 [-> Hs1]. eapply finish_switch; [exact Hs1| | |].
      * rewrite (enabled_set _ _ Hnum Hne), fmap_cons, <-Hp. rsimp. by rewrite Permutation_app_comm.
      * apply Forall_app. split; [done|]. constructor; [by apply Hset|constructor].
      * intros i Hi. rewrite Z.lor_spec, Z.shiftl_1_l, Z.pow2_bits_eqb, (Z.eqb_sym i) by lia.
        destruct (num =? i); [apply orb_true_r|apply orb_false_r].
  - apply not_false_is_true in Hne. pose proof (enabled_clear _ _ Hnum Hne) as Hc.
    set (h := irq_get_vtable_handler c num (hw s)). assert (h ∈ hs) as Hin by (rewrite Hp, Hc; set_solver).
    apply list_elem_of_split_l in Hin as (l1 & l2 & -> & Hnot). 
    do 2 apply wp_bind. eapply wp_mono; [eapply (remove_handler_loop c num _ l1 l2); rsimp; [exact Ht|done|done|done|lia|lia]|].
    intros [] s1 Hs1. apply wp_ret. eapply finish_switch; [exact Hs1| | |].
    + rewrite Hc, fmap_cons, <-Permutation_middle in Hp. by apply Permutation_cons_inv in Hp.
    + apply Forall_app in Hnz as [? [_ ?]%Forall_cons]. by apply Forall_app.
    + intros i Hi. rewrite Z.land_spec, not32_bit, (Z.eqb_sym i) by done.
      destruct (num =? i); [apply andb_false_r|apply andb_true_r].
Qed.

(** The NMI handler calls the handlers of the table in order and stops. *)
Lemma dispatch_run c l : ∀ n k s, active_handlers s c !! (k + length l)%nat = Some 0 →
  (∀ i h, l !! i = Some h → h ≠ 0 ∧ active_handlers s c !! (k + i)%nat = Some h) → (length l < n)%nat →
  dispatch_from n c (Z.of_nat k) s = Done tt (s <| hw := foldl (λ b h, call_address c h b) (hw s) l |>).
Proof.
  induction l as [|h l IH]; intros n k s Hend Hl Hn; (destruct n as [|n]; [lia|]); cbn [dispatch_from].
  - rewrite Nat.add_0_r in Hend. unfold handler_at, read_at, bind at 1, get_opt.
    rewrite (proj2 (Z.leb_le 0 _)), Nat2Z.id, Hend by lia. cbn. by destruct s.
  - destruct (Hl 0%nat h eq_refl) as [Hnz Hh]. rewrite Nat.add_0_r in Hh.
    unfold handler_at, read_at, bind at 1, get_opt. rewrite (proj2 (Z.leb_le 0 _)), Nat2Z.id, Hh by lia.
    rewrite (proj2 (Z.eqb_neq h 0) Hnz). unfold on_board, upd, bind.
    replace (Z.of_nat k + 1) with (Z.of_nat (Datatypes.S k)) by lia. rewrite IH; rsimp.
    + by destruct s.
    + rewrite <-Hend. f_equal. cbn. lia.
    + intros i x Hi. replace (Datatypes.S k + i)%nat with (k + Datatypes.S i)%nat by lia. by apply Hl.
    + cbn in *. lia.
Qed.
End laws.
