(* ===== verification/MulticoreIrq.v ===== *)
(** * Interrupts of the other core

    [multicore-support/multicore-irq.c], and the request of a context switch
    in multicore-glue.c.  An interrupt controller is private to its core: a
    call for the other core is sent as a command word through the mailbox, and
    the other core's mailbox interrupt, boosted to its NMI, runs it there.  The
    real interrupt functions of the SDK are in [Sdk]; the linker wraps them
    with the [__wrap] functions here. *)
From S2P Require Import Prelude Nmi.

Definition UINT8_MAX : Z := 255.
Definition MULTICORE_COMMAND_MSK : Z := 0xf0000000.

(** [enum multicore_cmd] *)
Inductive multicore_cmd :=
  | MULTICORE_EXECUTE_FLASH | MULTICORE_EXECUTE_SRAM | MULTICORE_EVENT | MULTICORE_PEND_IRQ | MULTICORE_CLEAR_IRQ
  | MULTICORE_IRQ_ENABLE | MULTICORE_IRQ_DISABLE | MULTICORE_SET_PRIORITY | MULTICORE_UPDATE_CONFIG.
Definition cmd_code (k : multicore_cmd) : Z :=
  match k with
  | MULTICORE_EXECUTE_FLASH => 0x10000000
  | MULTICORE_EXECUTE_SRAM => 0x20000000
  | MULTICORE_EVENT => 0x80000000
  | MULTICORE_PEND_IRQ => 0x90000000
  | MULTICORE_CLEAR_IRQ => 0xa0000000
  | MULTICORE_IRQ_ENABLE => 0xb0000000
  | MULTICORE_IRQ_DISABLE => 0xc0000000
  | MULTICORE_SET_PRIORITY => 0xd0000000
  | MULTICORE_UPDATE_CONFIG => 0xe0000000
  end.
Definition all_cmds : list multicore_cmd :=
  [MULTICORE_EXECUTE_FLASH; MULTICORE_EXECUTE_SRAM; MULTICORE_EVENT; MULTICORE_PEND_IRQ; MULTICORE_CLEAR_IRQ;
   MULTICORE_IRQ_ENABLE; MULTICORE_IRQ_DISABLE; MULTICORE_SET_PRIORITY; MULTICORE_UPDATE_CONFIG].

(** [IRQn_Type] of the processor's own interrupts, and the bits that pend them. *)
Definition NonMaskableInt_IRQn : Z := -14.
Definition PendSV_IRQn : Z := -2.
Definition SysTick_IRQn : Z := -1.
Definition SCB_ICSR_NMIPENDSET_Msk : Z := Z.shiftl 1 31.
Definition SCB_ICSR_PENDSVSET_Msk : Z := Z.shiftl 1 28.
Definition SCB_ICSR_PENDSTSET_Msk : Z := Z.shiftl 1 26.
Definition SIO_IRQ_PROC0 : Z := 15.
Definition SIO_IRQ_PROC1 : Z := 16.

Section irq.
Context {board mailbox : Type} `{Sdk board mailbox}.
Local Notation S := (irqs board mailbox).

Definition set_irq_enabled (c : bool) (irq : Z) (v : bool) : M S unit :=
  write_at (λ s, irq_enabled s c) (λ l s, s <| irq_enabled := upd_core c l (irq_enabled s) |>) irq v.
Definition set_irq_priority (c : bool) (irq v : Z) : M S unit :=
  write_at (λ s, irq_priority s c) (λ l s, s <| irq_priority := upd_core c l (irq_priority s) |>) irq v.
(** [cls_datum_core(core, ...)]: any core but 0 is core 1. *)
Definition block_of (core : Z) : bool := negb (core =? 0).

(** ** The commands, on the core that runs them *)
Definition pend_irq_cmd (c : bool) (irq : Z) : M S unit :=
  if irq =? NonMaskableInt_IRQn then on_board (write_icsr c SCB_ICSR_NMIPENDSET_Msk)
  else if irq =? PendSV_IRQn then on_board (write_icsr c SCB_ICSR_PENDSVSET_Msk)
  else if irq =? SysTick_IRQn then on_board (write_icsr c SCB_ICSR_PENDSTSET_Msk)
  else on_board (real_irq_set_pending c (u32 irq)).

Definition clear_irq_cmd (c : bool) (irq : Z) : M S unit := on_board (irq_clear c (u32 irq)).

Definition enable_irq_cmd (c : bool) (irq : Z) : M S unit :=
  if irq <? 0 then ret tt
  else
    priority <- read_at (λ s, irq_priority s c) irq ;;
    (if negb (priority =? UINT8_MAX) then
       on_board (irq_clear c irq) ;;;
       on_board (real_irq_set_enabled c irq true)
     else nmi_set_enable c irq true) ;;;
    set_irq_enabled c irq true.

Definition disable_irq_cmd (c : bool) (irq : Z) : M S unit :=
  if irq <? 0 then ret tt
  else
    priority <- read_at (λ s, irq_priority s c) irq ;;
    (if negb (priority =? UINT8_MAX) then on_board (real_irq_set_enabled c irq false)
     else nmi_set_enable c irq false) ;;;
    set_irq_enabled c irq false.

Definition set_priority_cmd (c : bool) (irq priority : Z) : M S unit :=
  when (negb (priority =? UINT8_MAX)) (on_board (NVIC_SetPriority c irq priority)) ;;;
  set_irq_priority c irq priority.

(** ** The wrapped SDK functions and the affinity *)
Definition irq_set_affinity (num core : Z) : M S unit :=
  assert (num <? NUM_IRQS) ;;;
  write_at irq_affinity (λ l s, s <| irq_affinity := l |>) num (core mod 256).

Definition irq_get_affinity (num : Z) : M S Z :=
  assert (num <? NUM_IRQS) ;;;
  read_at irq_affinity num.

Definition __wrap_irq_get_priority (num : Z) : M S Z :=
  assert (num <? NUM_IRQS) ;;;
  core <- read_at irq_affinity num ;;
  read_at (λ s, irq_priority s (block_of core)) num.

(** The SDK's [multicore_fifo_push_blocking] waits while the mailbox is full. *)
Definition multicore_fifo_push_blocking (c : bool) (cmd : Z) : M S unit :=
  m <- get_opt (λ s, multicore_fifo_push cmd (mail s (negb c))) OutOfFuel ;;
  upd (λ s, s <| mail := upd_core (negb c) m (mail s) |>).

Definition command (k : multicore_cmd) (num : Z) : Z := Z.lor (cmd_code k) (u32 (num + 16)).
Definition priority_command (num hardware_priority : Z) : Z :=
  Z.lor (Z.lor (cmd_code MULTICORE_SET_PRIORITY) (Z.shiftl hardware_priority 16)) (u32 (num + 16)).

Definition __wrap_irq_set_priority (c : bool) (num hardware_priority : Z) : M S unit :=
  assert (num <? NUM_IRQS) ;;;
  core <- read_at irq_affinity num ;;
  if core =? core_num c then set_priority_cmd c num hardware_priority
  else multicore_fifo_push_blocking c (priority_command num hardware_priority).

Definition __wrap_irq_set_enabled (c : bool) (num : Z) (enabled : bool) : M S unit :=
  assert (num <? NUM_IRQS) ;;;
  core <- read_at irq_affinity num ;;
  if core =? core_num c then
    if enabled then enable_irq_cmd c num else disable_irq_cmd c num
  else if enabled then multicore_fifo_push_blocking c (command MULTICORE_IRQ_ENABLE num)
  else multicore_fifo_push_blocking c (command MULTICORE_IRQ_DISABLE num).

Definition __wrap_irq_is_enabled (num : Z) : M S bool :=
  assert (num <? NUM_IRQS) ;;;
  core <- read_at irq_affinity num ;;
  read_at (λ s, irq_enabled s (block_of core)) num.

Definition __wrap_irq_set_pending (c : bool) (num : Z) : M S unit :=
  assert (num <? NUM_IRQS) ;;;
  core <- read_at irq_affinity num ;;
  if core =? core_num c then pend_irq_cmd c num
  else multicore_fifo_push_blocking c (command MULTICORE_PEND_IRQ num).

(** ** Calls that name the core *)
Definition multicore_irq_set_enable (c : bool) (num core : Z) (enabled : bool) : M S unit :=
  if core =? core_num c then __wrap_irq_set_enabled c num enabled
  else if enabled then multicore_fifo_push_blocking c (command MULTICORE_IRQ_ENABLE num)
  else multicore_fifo_push_blocking c (command MULTICORE_IRQ_DISABLE num).

Definition multicore_irq_is_enabled (num core : Z) : M S bool := read_at (λ s, irq_enabled s (block_of core)) num.

Definition multicore_irq_set_priority (c : bool) (num core hardware_priority : Z) : M S unit :=
  if core =? core_num c then __wrap_irq_set_priority c num hardware_priority
  else multicore_fifo_push_blocking c (priority_command num hardware_priority).

Definition mulitcore_irq_get_priority (num core : Z) : M S Z := read_at (λ s, irq_priority s (block_of core)) num.

Definition multicore_irq_set_pending (c : bool) (num core : Z) : M S unit :=
  if core =? core_num c then pend_irq_cmd c (s32 num)
  else multicore_fifo_push_blocking c (command MULTICORE_PEND_IRQ num).

Definition multicore_irq_clear (c : bool) (num core : Z) : M S unit :=
  if core =? core_num c then clear_irq_cmd c (s32 num)
  else multicore_fifo_push_blocking c (command MULTICORE_CLEAR_IRQ num).

(** multicore-glue.c *)
Definition scheduler_request_switch (c : bool) (core : Z) : M S unit := multicore_irq_set_pending c (u32 PendSV_IRQn) core.

(** ** The mailbox interrupt *)
Definition update_irq_config_cmd (c : bool) (irq : Z) : M S unit :=
  enabled <- gets (λ s, irq_is_enabled c (u32 irq) (hw s)) ;;
  set_irq_enabled c irq enabled ;;;
  priority <- __wrap_irq_get_priority (u32 irq) ;;
  set_irq_priority c irq (priority mod 256).

Definition irq_of (cmd : Z) : Z := s32 (u32 (Z.land cmd 0xffff - 16)).
Definition run_command (c : bool) (cmd : Z) : M S unit :=
  let code := Z.land cmd MULTICORE_COMMAND_MSK in
  let runs k := code =? cmd_code k in
  if runs MULTICORE_EXECUTE_FLASH || runs MULTICORE_EXECUTE_SRAM then on_board (call_address c cmd)
  else if runs MULTICORE_EVENT then ret tt
  else if runs MULTICORE_PEND_IRQ then pend_irq_cmd c (irq_of cmd)
  else if runs MULTICORE_CLEAR_IRQ then clear_irq_cmd c (irq_of cmd)
  else if runs MULTICORE_IRQ_ENABLE then enable_irq_cmd c (irq_of cmd)
  else if runs MULTICORE_IRQ_DISABLE then disable_irq_cmd c (irq_of cmd)
  else if runs MULTICORE_SET_PRIORITY then set_priority_cmd c (irq_of cmd) (Z.land (Z.shiftr cmd 16) 0x00ff)
  else if runs MULTICORE_UPDATE_CONFIG then update_irq_config_cmd c (irq_of cmd)
  else ret tt.

(** [while (multicore_fifo_rvalid())]: one unit of fuel per word. *)
Fixpoint drain (fuel : nat) (c : bool) : M S unit :=
  match fuel with
  | O => fail OutOfFuel
  | Datatypes.S fuel =>
      valid <- gets (λ s, multicore_fifo_rvalid (mail s c)) ;;
      if negb valid then ret tt
      else
        cmd <- gets (λ s, fst (multicore_fifo_pop (mail s c))) ;;
        upd (λ s, s <| mail := upd_core c (snd (multicore_fifo_pop (mail s c))) (mail s) |>) ;;;
        run_command c cmd ;;;
        drain fuel c
  end.
Definition multicore_irq_handler (fuel : nat) (c : bool) : M S unit :=
  drain fuel c ;;;
  upd (λ s, s <| mail := upd_core c (multicore_fifo_clear_irq (mail s c)) (mail s) |>).

(** ** Start-up *)

(** What each core's share of [multicore_irq_init] does to its own interrupt. *)
Definition boost_mailbox_irq (c : bool) : M S unit :=
  let num := if c then SIO_IRQ_PROC1 else SIO_IRQ_PROC0 in
  irq_set_affinity num (core_num c) ;;;
  __wrap_irq_set_priority c num UINT8_MAX ;;;
  __wrap_irq_set_enabled c num true.

(** [launch_core1 m] starts core 1 on [m], which ends in the boot code's wait
    for its next program. *)
Definition multicore_irq_init (launch_core1 : M S unit → M S unit) (wait_vector : M S unit) (c : bool) : M S unit :=
  let core1 := boost_mailbox_irq true ;;; wait_vector in
  if c then core1 else launch_core1 core1 ;;; boost_mailbox_irq false.

(** multicore-glue.c.  A faulting core has the other one spin in
    [multicore_trap], here its address. *)
Definition init_fault (multicore_trap : Z) (c : bool) : M S unit := multicore_fifo_push_blocking c multicore_trap.

(** [atomic_fetch_and] and [atomic_fetch_or] on the mask of a core. *)
Definition clear_nmi (c : bool) (num : Z) : M S unit :=
  state <- gets (λ s, nmi_proc_mask s c) ;; set_nmi_mask c (Z.land state (not32 (Z.shiftl 1 num))).
Definition raise_nmi (c : bool) (num : Z) : M S unit :=
  state <- gets (λ s, nmi_proc_mask s c) ;; set_nmi_mask c (Z.lor state (Z.shiftl 1 num)).

(** The spin of core 0: an element of [turns] is what core 1 does during one
    turn of the loop. *)
Fixpoint await_core1 (turns : list (M S unit)) : M S unit :=
  match turns with
  | [] => fail OutOfFuel
  | ran :: turns =>
      up <- gets (λ s, has (nmi_proc_mask s true) (Z.shiftl 1 SIO_IRQ_PROC1)) ;;
      if (up : bool) then ret tt else ran ;;; await_core1 turns
  end.

Definition multicore_startup_hook (launch_core1 : M S unit) (turns : list (M S unit)) (c : bool) : M S unit :=
  if negb c then
    clear_nmi false SIO_IRQ_PROC0 ;;;
    clear_nmi true SIO_IRQ_PROC1 ;;;
    launch_core1 ;;;
    await_core1 turns ;;;
    raise_nmi false SIO_IRQ_PROC0
  else raise_nmi true SIO_IRQ_PROC1.
End irq.

(** ** Laws *)

(** The mailbox as the SDK documents it: a queue of words. *)
Class MailboxLaws {board mailbox : Type} (sdk : Sdk board mailbox) (contents : mailbox → list Z) : Prop := {
  rvalid_contents m : multicore_fifo_rvalid m = negb (bool_decide (contents m = []));
  pop_contents m v q : contents m = v :: q → fst (multicore_fifo_pop m) = v ∧ contents (snd (multicore_fifo_pop m)) = q;
  push_contents v m m' : multicore_fifo_push v m = Some m' → contents m' = contents m ++ [v];
  clear_irq_contents m : contents (multicore_fifo_clear_irq m) = contents m
}.

Section laws.
Context {board mailbox : Type} {sdk : Sdk board mailbox} {contents : mailbox → list Z} `{!MailboxLaws sdk contents}.
Local Notation S := (irqs board mailbox).
Implicit Types (s : S) (c : bool).

Definition with_mail (mb : bool → mailbox) s : S := s <| mail := mb |>.

(** A computation that neither reads nor writes the mailboxes. *)
Definition mail_free {A} (m : M S A) : Prop := ∀ s mb,
  m (with_mail mb s) = match m s with Done a s' => Done a (with_mail mb s') | Fault f => Fault f end.

Lemma mail_free_ret {A} (a : A) : mail_free (ret a).
Proof. done. Qed.

Lemma mail_free_fail {A} f : mail_free (@fail S A f).
Proof. done. Qed.

Lemma mail_free_bind {A B} (m : M S A) (k : A → M S B) : mail_free m → (∀ a, mail_free (k a)) → mail_free (bind m k).
Proof. intros Hm Hk s mb. unfold bind. rewrite Hm. destruct (m s); [apply Hk|done]. Qed.

Lemma mail_free_gets {A} (f : S → A) : (∀ s mb, f (with_mail mb s) = f s) → mail_free (gets f).
Proof. intros Hf s mb. unfold gets. by rewrite Hf. Qed.

Lemma mail_free_get_opt {A} (f : S → option A) e : (∀ s mb, f (with_mail mb s) = f s) → mail_free (get_opt f e).
Proof. intros Hf s mb. unfold get_opt. rewrite Hf. by destruct (f s). Qed.

Lemma mail_free_upd (f : S → S) : (∀ s mb, f (with_mail mb s) = with_mail mb (f s)) → mail_free (upd f).
Proof. intros Hf s mb. unfold upd. by rewrite Hf. Qed.

Lemma mail_free_if {A} (b : bool) (m1 m2 : M S A) : mail_free m1 → mail_free m2 → mail_free (if b then m1 else m2).
Proof. by destruct b. Qed.

Ltac mail_free_step :=
  first
    [ assumption
    | apply mail_free_ret | apply mail_free_fail
    | apply mail_free_bind; [|intros ?]
    | apply mail_free_gets; done
    | apply mail_free_get_opt; done
    | apply mail_free_upd; done
    | apply mail_free_if ].
Ltac mail_free_tac := repeat mail_free_step.

Lemma mail_free_add n c num st : mail_free (add_handler n c num st).
Proof. induction n as [|n IH]; cbn [add_handler]; mail_free_tac. Qed.

Lemma mail_free_remove n c num : ∀ b, mail_free (remove_handler n c num b).
Proof. induction n as [|n IH]; intros b; cbn [remove_handler]; mail_free_tac; apply IH. Qed.

Lemma mail_free_nmi c num enabled : mail_free (nmi_set_enable c num enabled).
Proof.
  unfold nmi_set_enable, assert, nmi_is_enabled, disable_interrupts, enable_interrupts, set_nmi_mask.
  generalize (Z.to_nat NUM_IRQS) as n. intros n.
  mail_free_tac; first [apply mail_free_add|apply mail_free_remove].
Qed.

#[local] Opaque nmi_set_enable.

Lemma mail_free_read_at {A} (l : S → list A) i : (∀ s mb, l (with_mail mb s) = l s) → mail_free (read_at l i).
Proof. intros Hl. apply mail_free_get_opt. intros s mb. by rewrite Hl. Qed.

Lemma mail_free_on_board f : mail_free (on_board f).
Proof. by apply mail_free_upd. Qed.

Lemma mail_free_set_irq_enabled c irq v : mail_free (set_irq_enabled c irq v).
Proof. apply mail_free_bind; [by apply mail_free_read_at|intros _]. by apply mail_free_upd. Qed.

Lemma mail_free_set_irq_priority c irq v : mail_free (set_irq_priority c irq v).
Proof. apply mail_free_bind; [by apply mail_free_read_at|intros _]. by apply mail_free_upd. Qed.

Lemma mail_free_pend c irq : mail_free (pend_irq_cmd c irq).
Proof. unfold pend_irq_cmd. repeat apply mail_free_if; apply mail_free_on_board. Qed.

Lemma mail_free_enable c irq : mail_free (enable_irq_cmd c irq).
Proof.
  apply mail_free_if; [apply mail_free_ret|]. apply mail_free_bind; [by apply mail_free_read_at|intros p].
  apply mail_free_bind; [|intros _; apply mail_free_set_irq_enabled].
  apply mail_free_if; [|apply mail_free_nmi]. apply mail_free_bind; [|intros _]; apply mail_free_on_board.
Qed.

Lemma mail_free_disable c irq : mail_free (disable_irq_cmd c irq).
Proof.
  apply mail_free_if; [apply mail_free_ret|]. apply mail_free_bind; [by apply mail_free_read_at|intros p].
  apply mail_free_bind; [|intros _; apply mail_free_set_irq_enabled].
  apply mail_free_if; [apply mail_free_on_board|apply mail_free_nmi].
Qed.

Lemma mail_free_set_priority c irq p : mail_free (set_priority_cmd c irq p).
Proof.
  apply mail_free_bind; [apply mail_free_if; [apply mail_free_on_board|apply mail_free_ret]|].
  intros _. apply mail_free_set_irq_priority.
Qed.

Lemma mail_free_update c irq : mail_free (update_irq_config_cmd c irq).
Proof.
  apply mail_free_bind; [by apply mail_free_gets|intros e]. apply mail_free_bind; [apply mail_free_set_irq_enabled|intros _].
  apply mail_free_bind; [|intros p; apply mail_free_set_irq_priority].
  apply mail_free_bind; [apply mail_free_if; [apply mail_free_ret|apply mail_free_fail]|intros _].
  apply mail_free_bind; [by apply mail_free_read_at|intros core]. by apply mail_free_read_at.
Qed.

Lemma mail_free_command c cmd : mail_free (run_command c cmd).
Proof.
  unfold run_command. cbv zeta.
  repeat (apply mail_free_if; [first [apply mail_free_on_board | apply mail_free_ret | apply mail_free_pend
    | apply mail_free_enable | apply mail_free_disable | apply mail_free_set_priority | apply mail_free_update]|]).
  apply mail_free_ret.
Qed.

(** The words of a queue, run in order. *)
Fixpoint commands c (q : list Z) : M S unit :=
  match q with [] => ret tt | v :: q => run_command c v ;;; commands c q end.

Lemma mail_free_commands c q : mail_free (commands c q).
Proof. induction q as [|v q IH]; cbn [commands]; [done|]. apply mail_free_bind; [apply mail_free_command|done]. Qed.

Lemma mail_unchanged {A} (m : M S A) s a s' : mail_free m → m s = Done a s' → mail s' = mail s.
Proof.
  intros Hm E. specialize (Hm s (mail s)). assert (with_mail (mail s) s = s) as Es by (by destruct s).
  rewrite Es, E in Hm. injection Hm as ->. done.
Qed.

Lemma drain_run c q : ∀ fuel s s', contents (mail s c) = q → (length q < fuel)%nat → commands c q s = Done tt s' →
  ∃ mb, contents (mb c) = [] ∧ (∀ d, d ≠ c → mb d = mail s d) ∧ drain fuel c s = Done tt (with_mail mb s').
Proof.
  induction q as [|v q IH]; intros [|fuel] s s' Hq Hf Hrun; try (cbn in Hf; lia); cbn [drain commands] in *.
  - injection Hrun as <-. exists (mail s). split_and!; [done..|]. unfold bind, gets, upd, ret.
    rewrite rvalid_contents, bool_decide_eq_true_2 by done. cbn. by destruct s.
  - destruct (pop_contents _ _ _ Hq) as [Ev Er].
    set (mb1 := upd_core c (snd (multicore_fifo_pop (mail s c))) (mail s)).
    unfold bind in Hrun. destruct (run_command c v s) as [[] s1|f] eqn:E1; [|done].
    assert (contents (mail (with_mail mb1 s1) c) = q) as Hq1
      by (change (mail (with_mail mb1 s1)) with mb1; unfold mb1; by rewrite upd_core_eq).
    destruct (IH fuel (with_mail mb1 s1) (with_mail mb1 s') Hq1 ltac:(cbn in Hf; lia)) as (mb & Hmb & Ho & Hd).
    { by rewrite mail_free_commands, Hrun. }
    exists mb. split_and!; [done| |].
    { intros d Hne. rewrite Ho by done. cbn. unfold mb1. by apply upd_core_other. }
    unfold bind at 1, gets at 1. rewrite rvalid_contents, bool_decide_eq_false_2 by (by rewrite Hq). cbn [negb].
    unfold bind at 1, gets at 1. rewrite Ev. unfold bind at 1, upd at 1. unfold bind at 1.
    assert (run_command c v (with_mail mb1 s) = Done tt (with_mail mb1 s1)) as E2 by (by rewrite mail_free_command, E1).
    unfold with_mail at 1, mb1 at 1 in E2. rewrite E2. exact Hd.
Qed.

Lemma handler_run fuel c s s' : (length (contents (mail s c)) < fuel)%nat →
  commands c (contents (mail s c)) s = Done tt s' →
  ∃ mb, contents (mb c) = [] ∧ (∀ d, d ≠ c → mb d = mail s d) ∧ multicore_irq_handler fuel c s = Done tt (with_mail mb s').
Proof.
  intros Hf Hrun. destruct (drain_run c _ fuel s s' eq_refl Hf Hrun) as (mb & Hmb & Ho & Hd).
  eexists (upd_core c (multicore_fifo_clear_irq (mb c)) mb). split_and!.
  - by rewrite upd_core_eq, clear_irq_contents.
  - intros d Hne. rewrite upd_core_other by done. by apply Ho.
  - unfold multicore_irq_handler, bind, upd. by rewrite Hd.
Qed.

Lemma commands_snoc c q v s s1 s2 :
  commands c q s = Done tt s1 → run_command c v s1 = Done tt s2 → commands c (q ++ [v]) s = Done tt s2.
Proof.
  revert s. induction q as [|w q IH]; intros s; cbn [commands app]; unfold bind.
  - intros [= <-] ->. done.
  - destruct (run_command c w s) as [[] s'|]; [|done]. apply IH.
Qed.

(** What core [c] sends to the other, that one runs after what it was sent
    before. *)
Lemma forwarded c v s fuel s1 s2 m :
  multicore_fifo_push v (mail s (negb c)) = Some m → (Datatypes.S (length (contents (mail s (negb c)))) < fuel)%nat →
  commands (negb c) (contents (mail s (negb c))) s = Done tt s1 → run_command (negb c) v s1 = Done tt s2 →
  ∃ mb, contents (mb (negb c)) = [] ∧
    (multicore_fifo_push_blocking c v ;;; multicore_irq_handler fuel (negb c)) s = Done tt (with_mail mb s2).
Proof.
  intros Hpush Hf Hq Hv. set (mb1 := upd_core (negb c) m (mail s)).
  assert (contents (mail (with_mail mb1 s) (negb c)) = contents (mail s (negb c)) ++ [v]) as Hc.
  { change (mail (with_mail mb1 s)) with mb1. unfold mb1. rewrite upd_core_eq. by apply push_contents. }
  destruct (handler_run fuel (negb c) (with_mail mb1 s) (with_mail mb1 s2)) as (mb & Hmb & _ & Hrun).
  - rewrite Hc, length_app. cbn. lia.
  - rewrite Hc, mail_free_commands. by rewrite (commands_snoc _ _ _ _ _ _ Hq Hv).
  - exists mb. split; [done|]. unfold multicore_fifo_push_blocking, bind at 1, bind at 1, get_opt. rewrite Hpush.
    exact Hrun.
Qed.
End laws.

(** ** Command words *)

(** An interrupt a command can name: system interrupts count from -16. *)
Definition command_irq (irq : Z) : Prop := -16 <= irq < 2 ^ 16 - 16.

Lemma cmd_code_bits k : ∃ h, cmd_code k = h * 2 ^ 28 ∧ 0 <= h < 16.
Proof. destruct k; cbn [cmd_code]; [exists 1|exists 2|exists 8|exists 9|exists 10|exists 11|exists 12|exists 13|exists 14]; done. Qed.

(** A word of a code, a byte and 16 bits, taken apart. *)
Lemma word_parts h p l : 0 <= h < 16 → 0 <= p < 256 → 0 <= l < 2 ^ 16 →
  let w := Z.lor (Z.lor (h * 2 ^ 28) (Z.shiftl p 16)) l in
  Z.land w MULTICORE_COMMAND_MSK = h * 2 ^ 28 ∧ Z.land (Z.shiftr w 16) 0x00ff = p ∧ Z.land w 0xffff = l.
Proof.
  intros Hh Hp Hl w. assert (w = Z.shiftl h 28 + Z.shiftl p 16 + l) as Ew.
  { unfold w. rewrite <-Z.lor_assoc, (lor_low_bits p l 16) by lia. rewrite <-Z.shiftl_mul_pow2 by lia.
    rewrite lor_low_bits by lia. rewrite !Z.shiftl_mul_pow2 by lia. lia. }
  rewrite !Z.shiftl_mul_pow2 in Ew by lia. split_and!.
  - unfold w. rewrite <-Z.lor_assoc, (lor_low_bits p l 16), Z.land_lor_distr_l, <-Z.shiftl_mul_pow2 by lia.
    change MULTICORE_COMMAND_MSK with (Z.shiftl 15 28). rewrite <-Z.shiftl_land.
    rewrite (Z.land_comm (p * 2 ^ 16 + l)), low_bits_disjoint, Z.lor_0_r by lia.
    change 15 with (Z.ones 4). by rewrite Z.land_ones, Z.mod_small by lia.
  - change 0x00ff with (Z.ones 8). rewrite Z.land_ones, Z.shiftr_div_pow2, Ew by lia.
    replace (h * 2 ^ 28 + p * 2 ^ 16 + l) with (l + (h * 2 ^ 12 + p) * 2 ^ 16) by lia.
    rewrite Z.div_add, Z.div_small by lia. replace (0 + (h * 2 ^ 12 + p)) with (p + (h * 2 ^ 4) * 2 ^ 8) by lia.
    rewrite Z_mod_plus_full. by apply Z.mod_small.
  - change 0xffff with (Z.ones 16). rewrite Z.land_ones, Ew by lia.
    replace (h * 2 ^ 28 + p * 2 ^ 16 + l) with (l + (h * 2 ^ 12 + p) * 2 ^ 16) by lia.
    rewrite Z_mod_plus_full. by apply Z.mod_small.
Qed.

Lemma word_irq irq : command_irq irq → 0 <= u32 (u32 irq + 16) < 2 ^ 16 ∧ s32 (u32 (u32 (u32 irq + 16) - 16)) = irq.
Proof.
  intros Hi. unfold command_irq in Hi. rewrite u32_add_idemp, u32_small by (unfold is_u32, word; lia).
  split; [lia|]. rewrite s32_u32, s32_small by lia. lia.
Qed.

(** What a command word decodes to. *)
Lemma decode_command k irq : command_irq irq →
  Z.land (command k (u32 irq)) MULTICORE_COMMAND_MSK = cmd_code k ∧ irq_of (command k (u32 irq)) = irq.
Proof.
  intros Hi. destruct (word_irq irq Hi) as [Hr Ei]. destruct (cmd_code_bits k) as (h & Ek & Hh).
  destruct (word_parts h 0 _ Hh ltac:(lia) Hr) as (E1 & _ & E3). rewrite Z.shiftl_0_l, Z.lor_0_r in E1, E3.
  unfold irq_of, command. rewrite Ek. split; [done|]. by rewrite E3.
Qed.

Lemma decode_priority irq p : command_irq irq → 0 <= p < 256 →
  Z.land (priority_command (u32 irq) p) MULTICORE_COMMAND_MSK = cmd_code MULTICORE_SET_PRIORITY ∧
  irq_of (priority_command (u32 irq) p) = irq ∧ Z.land (Z.shiftr (priority_command (u32 irq) p) 16) 0x00ff = p.
Proof.
  intros Hi Hp. destruct (word_irq irq Hi) as [Hr Ei].
  destruct (word_parts 13 p _ ltac:(lia) Hp Hr) as (E1 & E2 & E3).
  unfold irq_of, priority_command. change (cmd_code MULTICORE_SET_PRIORITY) with (13 * 2 ^ 28).
  split_and!; [done|by rewrite E3|done].
Qed.
