(* ===== verification/MulticoreClaims.v ===== *)
(** * Properties of the interrupt routing

    The NMI tables and masks of both cores, the command words, the calls that
    run on the other core, and the request of a context switch there; with a
    board that records what is asked of it. *)
From S2P Require Import Prelude Nmi MulticoreIrq.

Section claims.
Context {board mailbox : Type} {sdk : Sdk board mailbox} {contents : mailbox → list Z}.
Local Notation S := (irqs board mailbox).
Implicit Types (s : S) (c : bool).

(** C21: [nmi_set_enable] keeps a core's table equal to the handlers of the
    interrupts in its mask, compressed and zero-terminated: it always finds
    room, changes the mask in the one bit, leaves the other core, the interrupt
    state and everything else alone, and does not fault. *)
Theorem nmi_set_enable_switches c num enabled hs s :
  nmi_ok c s hs → handlers_set c s → 0 <= num < NUM_IRQS →
  wp (nmi_set_enable c num enabled) (λ _ s',
    (∃ hs', nmi_ok c s' hs') ∧ only_nmi c s s' ∧
    ∀ i, 0 <= i < NUM_IRQS → Z.testbit (nmi_proc_mask s' c) i = if i =? num then enabled else Z.testbit (nmi_proc_mask s c) i) s.
Proof. apply nmi_set_enable_run. Qed.

(** The NMI handler stops, having called the handler of every interrupt in
    the mask once, in the order of the table, and nothing else. *)
Theorem NMI_Handler_dispatches c hs s : nmi_ok c s hs →
  NMI_Handler c s = Done tt (s <| hw := foldl (λ b h, call_address c h b) (hw s) hs |>) ∧
  hs ≡ₚ (λ i, irq_get_vtable_handler c i (hw s)) <$> enabled_irqs (nmi_proc_mask s c).
Proof.
  intros [Ht Hp Hnz]. split; [|done].
  assert (length hs <= Z.to_nat NUM_IRQS)%nat as Hlen by (rewrite Hp, length_fmap; apply enabled_irqs_length).
  apply (dispatch_run c hs _ 0); [rewrite Ht; apply table_lookup; lia| |lia].
  intros i h Hi. split; [by eapply Forall_lookup_1 in Hnz|]. rewrite Ht. by apply lookup_app_l_Some.
Qed.

(** Command words: whatever the command, for every interrupt from the first
    system interrupt (-16) on and every priority, the receiver decodes the
    command, the interrupt and the priority the sender encoded. *)
Theorem command_words_round_trip k irq p :
  command_irq irq → 0 <= p < 256 →
  Z.land (command k (u32 irq)) MULTICORE_COMMAND_MSK = cmd_code k ∧ irq_of (command k (u32 irq)) = irq ∧
  Z.land (priority_command (u32 irq) p) MULTICORE_COMMAND_MSK = cmd_code MULTICORE_SET_PRIORITY ∧
  irq_of (priority_command (u32 irq) p) = irq ∧ Z.land (Z.shiftr (priority_command (u32 irq) p) 16) 0x00ff = p.
Proof.
  intros Hi Hp. destruct (decode_command k irq Hi) as [E1 E2]. split; [done|]. split; [done|]. by apply decode_priority.
Qed.

(** The calls that name a core, and the commands a core runs for them. *)
Inductive irq_call := Enable | Disable | SetPriority (p : Z) | SetPending | ClearPending.
Definition call_on (c : bool) (k : irq_call) (irq : Z) (core : Z) : M S unit :=
  match k with
  | Enable => multicore_irq_set_enable c (u32 irq) core true
  | Disable => multicore_irq_set_enable c (u32 irq) core false
  | SetPriority p => multicore_irq_set_priority c (u32 irq) core p
  | SetPending => multicore_irq_set_pending c (u32 irq) core
  | ClearPending => multicore_irq_clear c (u32 irq) core
  end.
Definition command_on (c : bool) (k : irq_call) (irq : Z) : M S unit :=
  match k with
  | Enable => enable_irq_cmd c irq
  | Disable => disable_irq_cmd c irq
  | SetPriority p => set_priority_cmd c irq p
  | SetPending => pend_irq_cmd c irq
  | ClearPending => clear_irq_cmd c irq
  end.
Definition priority_ok (k : irq_call) : Prop := match k with SetPriority p => 0 <= p < 256 | _ => True end.
Definition word_of (k : irq_call) (irq : Z) : Z :=
  match k with
  | Enable => command MULTICORE_IRQ_ENABLE (u32 irq)
  | Disable => command MULTICORE_IRQ_DISABLE (u32 irq)
  | SetPriority p => priority_command (u32 irq) p
  | SetPending => command MULTICORE_PEND_IRQ (u32 irq)
  | ClearPending => command MULTICORE_CLEAR_IRQ (u32 irq)
  end.

Lemma call_on_other c k irq : call_on c k irq (core_num (negb c)) = multicore_fifo_push_blocking c (word_of k irq).
Proof. by destruct c, k. Qed.

Lemma run_word c k irq : command_irq irq → priority_ok k → run_command c (word_of k irq) = command_on c k irq.
Proof.
  intros Hi Hp. unfold run_command. cbv zeta.
  destruct k as [| |p| |]; cbn [word_of command_on];
    try (match goal with |- context [command ?k (u32 irq)] => destruct (decode_command k irq Hi) as [E1 E2] end; by rewrite E1, E2).
  destruct (decode_priority irq p Hi Hp) as (E1 & E2 & E3). by rewrite E1, E2, E3.
Qed.

(** C11: A call for the other core is that core's own command, run after the ones
    sent before: after the mailbox interrupt, the state is the one in which
    the other core has itself run the queued commands and then this one, and
    its mailbox is empty. *)
Theorem remote_calls_run_locally `{!MailboxLaws sdk contents} c k irq s fuel s1 s2 :
  command_irq irq → priority_ok k →
  multicore_fifo_push (word_of k irq) (mail s (negb c)) ≠ None →
  (Datatypes.S (length (contents (mail s (negb c)))) < fuel)%nat →
  commands (negb c) (contents (mail s (negb c))) s = Done tt s1 → command_on (negb c) k irq s1 = Done tt s2 →
  ∃ mb, contents (mb (negb c)) = [] ∧
    (call_on c k irq (core_num (negb c)) ;;; multicore_irq_handler fuel (negb c)) s = Done tt (s2 <| mail := mb |>).
Proof.
  intros Hi Hp Hpush Hf Hq Hrun. rewrite <-(run_word _ _ _ Hi Hp) in Hrun.
  destruct (multicore_fifo_push (word_of k irq) (mail s (negb c))) as [m|] eqn:E; [|done].
  destruct (forwarded c _ s fuel s1 s2 m E Hf Hq Hrun) as (mb & Hmb & Hd).
  exists mb. split; [done|]. by rewrite call_on_other.
Qed.

(** A request of a context switch pends the switch interrupt on the core it
    names: at once on the caller's, and on the other core once that has served
    its mailbox. *)
Theorem switch_request_delivered `{!MailboxLaws sdk contents} c s fuel :
  contents (mail s (negb c)) = [] → (1 < fuel)%nat → (∀ v, multicore_fifo_push v (mail s (negb c)) ≠ None) →
  scheduler_request_switch c (core_num c) s = Done tt (s <| hw := write_icsr c SCB_ICSR_PENDSVSET_Msk (hw s) |>) ∧
  ∃ mb, contents (mb (negb c)) = [] ∧
    (scheduler_request_switch c (core_num (negb c)) ;;; multicore_irq_handler fuel (negb c)) s =
      Done tt (s <| hw := write_icsr (negb c) SCB_ICSR_PENDSVSET_Msk (hw s) |> <| mail := mb |>).
Proof.
  intros He Hf Hpush. split; [destruct c, s; reflexivity|].
  specialize (Hpush (word_of SetPending PendSV_IRQn)).
  destruct (multicore_fifo_push (word_of SetPending PendSV_IRQn) (mail s (negb c))) as [m|] eqn:E; [|done].
  destruct (forwarded c (word_of SetPending PendSV_IRQn) s fuel s
    (s <| hw := write_icsr (negb c) SCB_ICSR_PENDSVSET_Msk (hw s) |>) m) as (mb & Hmb & Hd).
  - done.
  - rewrite He. cbn. lia.
  - by rewrite He.
  - rewrite run_word by (unfold command_irq, PendSV_IRQn; lia || done). by destruct s.
  - exists mb. split; [done|]. change (scheduler_request_switch c) with (multicore_irq_set_pending c (u32 PendSV_IRQn)).
    by rewrite <-(call_on_other c SetPending PendSV_IRQn) in Hd.
Qed.

(** On its own core a call that names the core goes where the interrupt's
    affinity says instead: with the affinity on the other core, enabling an
    interrupt here or giving it a priority here does what naming the other
    core would. *)
Theorem own_core_calls_follow_affinity c num enabled p s :
  0 <= num < NUM_IRQS → irq_affinity s !! Z.to_nat num = Some (core_num (negb c)) →
  multicore_irq_set_enable c num (core_num c) enabled s = multicore_irq_set_enable c num (core_num (negb c)) enabled s ∧
  multicore_irq_set_priority c num (core_num c) p s = multicore_irq_set_priority c num (core_num (negb c)) p s.
Proof.
  intros [Hn Hlt] Ha. unfold multicore_irq_set_enable, multicore_irq_set_priority, __wrap_irq_set_enabled, __wrap_irq_set_priority.
  assert ((num <? NUM_IRQS) = true ∧ (0 <=? num) = true) as [E1 E2] by (rewrite Z.ltb_lt, Z.leb_le; done).
  unfold bind, assert, ret, read_at, get_opt. rewrite Z.eqb_refl, E1, E2, Ha. by destruct c.
Qed.

(** The priority of a system interrupt of the other core is written outside
    the priority cache: the mailbox handler, which drops system interrupts when
    it enables and disables, does not drop them here. *)
Theorem remote_system_priority_out_of_bounds c irq p s :
  -16 <= irq < 0 → 0 <= p < 256 → run_command c (priority_command (u32 irq) p) s = Fault BadPointer.
Proof.
  intros Hi Hp. change (priority_command (u32 irq) p) with (word_of (SetPriority p) irq).
  rewrite run_word by (unfold command_irq; cbn; lia). cbn [command_on]. unfold set_priority_cmd, set_irq_priority, write_at, read_at.
  assert ((0 <=? irq) = false) as E by (apply Z.leb_gt; lia).
  destruct (negb (p =? UINT8_MAX)); unfold when, bind, on_board, upd, ret, get_opt; by rewrite E.
Qed.

(** ** Start-up *)
Definition mailbox_irq (c : bool) : Z := if c then SIO_IRQ_PROC1 else SIO_IRQ_PROC0.

(** A core's mailbox interrupt is its own, boosted and enabled. *)
Record listens c s : Prop := {
  li_nmi : ∃ hs, nmi_ok c s hs;
  li_mask : Z.testbit (nmi_proc_mask s c) (mailbox_irq c) = true;
  li_affinity : irq_affinity s !! Z.to_nat (mailbox_irq c) = Some (core_num c);
  li_priority : irq_priority s c !! Z.to_nat (mailbox_irq c) = Some UINT8_MAX;
  li_enabled : irq_enabled s c !! Z.to_nat (mailbox_irq c) = Some true
}.

(** What of a state the start of core [c] leaves alone. *)
Record only_core c s s' : Prop := {
  oc_hw : hw s' = hw s;
  oc_mail : mail s' = mail s;
  oc_handlers : active_handlers s' (negb c) = active_handlers s (negb c);
  oc_mask : nmi_proc_mask s' (negb c) = nmi_proc_mask s (negb c);
  oc_priority : irq_priority s' (negb c) = irq_priority s (negb c);
  oc_enabled : irq_enabled s' (negb c) = irq_enabled s (negb c);
  oc_affinity : irq_affinity s' = <[Z.to_nat (mailbox_irq c) := core_num c]> (irq_affinity s)
}.

(** The arrays have their declared size. *)
Definition sized c s : Prop :=
  length (irq_priority s c) = Z.to_nat NUM_IRQS ∧ length (irq_enabled s c) = Z.to_nat NUM_IRQS ∧
  length (irq_affinity s) = Z.to_nat NUM_IRQS.

Lemma nmi_ok_same c s s' hs : active_handlers s' c = active_handlers s c → nmi_proc_mask s' c = nmi_proc_mask s c →
  hw s' = hw s → nmi_ok c s hs → nmi_ok c s' hs.
Proof. intros E1 E2 E3 [? ? ?]. split; [by rewrite E1|by rewrite E2, E3|done]. Qed.

Lemma wp_write_at {A} (l : S → list A) set i v (Q : unit → S → Prop) s :
  0 <= i → (Z.to_nat i < length (l s))%nat → Q tt (set (<[Z.to_nat i := v]> (l s)) s) → wp (write_at l set i v) Q s.
Proof.
  intros Hi Hl HQ. destruct (lookup_lt_is_Some_2 _ _ Hl) as [x Hx].
  apply wp_bind. eapply wp_get_opt; [by rewrite (proj2 (Z.leb_le 0 i) Hi)|]. by apply wp_upd.
Qed.

Lemma wp_read_at {A} (l : S → list A) i v (Q : A → S → Prop) s :
  0 <= i → l s !! Z.to_nat i = Some v → Q v s → wp (read_at l i) Q s.
Proof. intros Hi Hv HQ. eapply wp_get_opt; [by rewrite (proj2 (Z.leb_le 0 i) Hi)|done]. Qed.

Lemma mailbox_irq_range c : 0 <= mailbox_irq c < NUM_IRQS.
Proof. destruct c; cbn; unfold SIO_IRQ_PROC0, SIO_IRQ_PROC1, NUM_IRQS; lia. Qed.

Lemma boost_run c s hs : nmi_ok c s hs → handlers_set c s → sized c s →
  wp (boost_mailbox_irq c) (λ _ s', listens c s' ∧ only_core c s s') s.
Proof.
  intros Hok Hset (Hp & He & Ha). pose proof (mailbox_irq_range c) as Hr. unfold boost_mailbox_irq.
  change (if c then SIO_IRQ_PROC1 else SIO_IRQ_PROC0) with (mailbox_irq c). set (i := mailbox_irq c) in *.
  assert ((i <? NUM_IRQS) = true) as Hlt by (apply Z.ltb_lt; lia).
  assert (core_num c mod 256 = core_num c) as Ec by by destruct c.
  apply wp_bind, wp_bind, wp_assert; [done|]. apply wp_write_at; [lia|rsimp; lia|]. rewrite Ec.
  apply wp_bind, wp_bind, wp_assert; [done|]. apply wp_bind.
  eapply wp_read_at; [lia|rsimp; apply list_lookup_insert_eq; lia|]. rewrite Z.eqb_refl.
  apply wp_bind. cbn [UINT8_MAX Z.eqb negb when]. apply wp_ret, wp_write_at; [lia|rsimp; lia|].
  unfold __wrap_irq_set_enabled. apply wp_bind, wp_assert; [done|]. apply wp_bind.
  eapply wp_read_at; [lia|rsimp; apply list_lookup_insert_eq; lia|]. rewrite Z.eqb_refl.
  unfold enable_irq_cmd. rewrite (proj2 (Z.ltb_ge i 0)) by lia. apply wp_bind.
  eapply wp_read_at; [lia|rsimp; rewrite upd_core_eq; apply list_lookup_insert_eq; lia|]. rewrite Z.eqb_refl. cbn [negb].
  match goal with |- wp _ _ ?s1 => set (s1' := s1) end.
  apply wp_bind. eapply wp_mono; [apply (nmi_set_enable_run c i true hs s1'); [|done|lia]|].
  { by apply (nmi_ok_same c s). }
  intros _ s2 ((hs' & Hok2) & (E & Ep & Eh & Em) & Hbit). unfold s1' in E, Ep, Eh, Em. rsimp.
  apply wp_write_at; [lia|rewrite E; rsimp; lia|]. split; split; rsimp.
  - exists hs'. by apply (nmi_ok_same c s2).
  - etrans; [exact (Hbit i Hr)|]. by rewrite Z.eqb_refl.
  - rewrite E. rsimp. apply list_lookup_insert_eq. lia.
  - rewrite E. rsimp. rewrite upd_core_eq. apply list_lookup_insert_eq. lia.
  - rewrite upd_core_eq. apply list_lookup_insert_eq. rewrite E. rsimp. lia.
  - rewrite E. by rsimp.
  - rewrite E. by rsimp.
  - done.
  - done.
  - rewrite E. rsimp. by rewrite upd_core_ne.
  - rewrite upd_core_ne, E. by rsimp.
  - rewrite E. by rsimp.
Qed.

(** The start of both cores: from empty or consistent tables, core 1 running
    its part as core 0 launches it, each core's mailbox interrupt ends up its own, at the priority
    that boosts it to the NMI, enabled, and in a consistent table and mask; the
    mailboxes are as they were. *)
Theorem multicore_irq_init_listens (hs : bool → list Z) s :
  (∀ c, nmi_ok c s (hs c) ∧ handlers_set c s ∧ sized c s) →
  wp (multicore_irq_init (λ m, m) (ret tt) false) (λ _ s', (∀ c, listens c s') ∧ mail s' = mail s ∧ hw s' = hw s) s.
Proof.
  intros Hall. destruct (Hall true) as (K1 & H1 & Z1), (Hall false) as (K0 & H0 & (Z0a & Z0b & Z0c)).
  apply wp_bind, wp_bind. eapply wp_mono; [exact (boost_run true s _ K1 H1 Z1)|]. intros _ s1 (L1 & C1). apply wp_ret.
  destruct C1 as [C1a C1b C1c C1d C1e C1f C1g]. cbn [negb] in *.
  eapply wp_mono; [apply (boost_run false s1 (hs false))|].
  - by apply (nmi_ok_same false s).
  - unfold handlers_set. by rewrite C1a.
  - unfold sized. by rewrite C1e, C1f, C1g, length_insert.
  - intros _ s2 (L0 & [C2a C2b C2c C2d C2e C2f C2g]). cbn [negb] in *. split; [|by rewrite C2b, C2a].
    intros [|]; [|done]. destruct L1 as [(hs1 & N1) M1 A1 P1 E1]. split.
    + exists hs1. by apply (nmi_ok_same true s1).
    + by rewrite C2d.
    + rewrite C2g, list_lookup_insert_ne by by vm_compute. done.
    + by rewrite C2e.
    + by rewrite C2f.
Qed.

(** A bit that was set is set again. *)
Lemma mask_restored m i : 0 <= m < 2 ^ 32 → 0 <= i < 32 → Z.testbit m i = true →
  Z.lor (Z.land m (not32 (Z.shiftl 1 i))) (Z.shiftl 1 i) = m.
Proof.
  intros Hm Hi Hb. apply Z.bits_inj'. intros j Hj. rewrite Z.lor_spec, Z.land_spec, Z.shiftl_1_l, Z.pow2_bits_eqb by lia.
  destruct (Z.eqb_spec i j) as [->|Hne]; [by rewrite orb_true_r|]. rewrite orb_false_r.
  destruct (decide (j < 32)) as [Hlt|Hge].
  - rewrite <-Z.shiftl_1_l, not32_bit by lia. rewrite (proj2 (Z.eqb_neq i j) Hne). apply andb_true_r.
  - rewrite <-(Z.mod_small m (2 ^ 32)), Z.mod_pow2_bits_high by lia. done.
Qed.

(** Core 0 spins while the bit of core 1 is clear. *)
Lemma await_spins n (turns : list (M S unit)) s : has (nmi_proc_mask s true) (Z.shiftl 1 SIO_IRQ_PROC1) = false →
  await_core1 (replicate n (ret tt) ++ turns) s = await_core1 turns s.
Proof. intros Hs. induction n as [|n IH]; [done|]. cbn [replicate app await_core1]. unfold bind, gets, ret. by rewrite Hs. Qed.

(** Core 0's start of the scheduler returns once core 1 has run its own part,
    however long that takes, and never before; both masks are then what they
    were. *)
Theorem multicore_startup_handshake n s (turns : list (M S unit)) :
  Z.testbit (nmi_proc_mask s false) SIO_IRQ_PROC0 = true → Z.testbit (nmi_proc_mask s true) SIO_IRQ_PROC1 = true →
  (∀ c, 0 <= nmi_proc_mask s c < 2 ^ 32) → turns ≠ [] →
  multicore_startup_hook (ret tt) (replicate n (ret tt)) false s = Fault OutOfFuel ∧
  wp (multicore_startup_hook (ret tt) (replicate n (ret tt) ++ multicore_startup_hook (ret tt) [] true :: turns) false)
    (λ _ s', (∀ c, nmi_proc_mask s' c = nmi_proc_mask s c) ∧ s' = s <| nmi_proc_mask := nmi_proc_mask s' |>) s.
Proof.
  intros B0 B1 Hm Hturns. assert (0 <= SIO_IRQ_PROC0 < 32 ∧ 0 <= SIO_IRQ_PROC1 < 32) as [R0 R1] by (vm_compute; done).
  set (s1 := s <| nmi_proc_mask := upd_core false (Z.land (nmi_proc_mask s false) (not32 (Z.shiftl 1 SIO_IRQ_PROC0))) (nmi_proc_mask s) |>).
  set (s2 := s1 <| nmi_proc_mask := upd_core true (Z.land (nmi_proc_mask s1 true) (not32 (Z.shiftl 1 SIO_IRQ_PROC1))) (nmi_proc_mask s1) |>).
  assert (has (nmi_proc_mask s2 true) (Z.shiftl 1 SIO_IRQ_PROC1) = false) as Hclear.
  { rewrite has_bit by done. unfold s2. rsimp. rewrite upd_core_eq, Z.land_spec, not32_bit, Z.eqb_refl by done. apply andb_false_r. }
  assert (∀ t, multicore_startup_hook (ret tt) t false s = (await_core1 t ;;; raise_nmi false SIO_IRQ_PROC0) s2) as Estart by done.
  rewrite Estart. unfold wp. rewrite Estart. split.
  - unfold bind. rewrite <-(app_nil_r (replicate n _)), await_spins by done. done.
  - unfold bind at 1. rewrite await_spins by done. cbn [await_core1]. unfold bind, gets. rewrite Hclear.
    set (s3 := s2 <| nmi_proc_mask := upd_core true (Z.lor (nmi_proc_mask s2 true) (Z.shiftl 1 SIO_IRQ_PROC1)) (nmi_proc_mask s2) |>).
    change (multicore_startup_hook (ret tt) [] true s2) with (@Done S unit tt s3). destruct turns as [|t turns]; [done|].
    assert (nmi_proc_mask s3 true = nmi_proc_mask s true) as E3.
    { unfold s3, s2, s1. rsimp. rewrite !upd_core_eq, !(upd_core_ne false). by apply mask_restored. }
    cbn [await_core1]. unfold bind, gets. rewrite E3, has_bit, B1 by done. unfold ret, raise_nmi, set_nmi_mask, bind, gets, upd.
    split; [|unfold s3, s2, s1; by destruct s].
    intros [|]; rsimp; [rewrite (upd_core_ne false); exact E3|]. rewrite upd_core_eq. unfold s3, s2, s1. rsimp.
    rewrite !(upd_core_ne true), upd_core_eq. by apply mask_restored.
Qed.

(** The first thing a faulting core does stops the other one: that core's
    mailbox interrupt enters the trap, after the words queued before, for a trap
    in flash or in SRAM. *)
Theorem fault_stops_other_core `{!MailboxLaws sdk contents} c trap s fuel s1 m :
  Z.land trap MULTICORE_COMMAND_MSK ∈ [cmd_code MULTICORE_EXECUTE_FLASH; cmd_code MULTICORE_EXECUTE_SRAM] →
  multicore_fifo_push trap (mail s (negb c)) = Some m → (Datatypes.S (length (contents (mail s (negb c)))) < fuel)%nat →
  commands (negb c) (contents (mail s (negb c))) s = Done tt s1 →
  ∃ mb, contents (mb (negb c)) = [] ∧
    (init_fault trap c ;;; multicore_irq_handler fuel (negb c)) s =
      Done tt (s1 <| hw := call_address (negb c) trap (hw s1) |> <| mail := mb |>).
Proof.
  intros Ht Hpush Hf Hq. apply (forwarded c trap s fuel s1 _ m Hpush Hf Hq). unfold run_command. cbv zeta.
  rewrite !elem_of_cons in Ht. by destruct Ht as [->|[->|Ht]]; [..|apply elem_of_nil in Ht].
Qed.


End claims.

(** ** A board that records what is asked of it *)
Definition asked : Type := list (Z * bool * Z * Z).
#[export] Instance sample_sdk : Sdk asked (list Z) := {
  irq_get_vtable_handler c i _ := 0x10000100 + 4 * i;
  irq_clear c i b := b ++ [(1, c, i, 0)];
  real_irq_set_enabled c i e b := b ++ [(2, c, i, if e then 1 else 0)];
  real_irq_set_pending c i b := b ++ [(3, c, i, 0)];
  irq_is_enabled c i b := false;
  NVIC_SetPriority c i p b := b ++ [(4, c, i, p)];
  write_icsr c v b := b ++ [(5, c, v, 0)];
  call_address c a b := b ++ [(6, c, a, 0)];
  multicore_fifo_rvalid q := match q with [] => false | _ => true end;
  multicore_fifo_pop q := match q with [] => (0, []) | v :: q => (v, q) end;
  multicore_fifo_push v q := if (length q <? 8)%nat then Some (q ++ [v]) else None;
  multicore_fifo_clear_irq q := q
}.
#[export] Instance sample_mailbox : MailboxLaws sample_sdk id.
Proof.
  split; cbn.
  - by intros [].
  - by intros m v q ->.
  - intros v m m' H. destruct (length m <=? 7)%nat; [by injection H as <-|done].
  - done.
Qed.

(** Both cores as they start: empty tables, nothing enabled, affinities on core 0. *)
Definition reset : irqs asked (list Z) :=
  Irqs [] (λ _, []) (λ _, 0) (λ _, 0) (λ _, replicate 33 0) (λ _, replicate 32 false) (λ _, replicate 32 0) (replicate 32 0).
(** Both mailbox interrupts boosted. *)
Definition boosted : irqs asked (list Z) :=
  match (boost_mailbox_irq false ;;; boost_mailbox_irq true) reset with Done _ s => s | Fault _ => reset end.
Definition handlers (c : bool) : list Z := [0x10000100 + 4 * (if c then 16 else 15)].

Lemma boosted_ok c : nmi_ok c boosted (handlers c).
Proof.
  destruct c; split; try (vm_compute; reflexivity); by repeat constructor.
Qed.

Lemma sample_handlers c s : handlers_set c (s : irqs asked (list Z)).
Proof. intros i Hi. cbn. lia. Qed.

Lemma nmi_set_enable_switches_witness :
  nmi_proc_mask boosted true = 65536 ∧
  wp (nmi_set_enable true 20 true) (λ _ s', ∃ hs, nmi_ok true s' hs) boosted.
Proof.
  split; [vm_compute; reflexivity|]. eapply wp_mono.
  - exact (nmi_set_enable_switches true 20 true (handlers true) boosted (boosted_ok true) (sample_handlers true boosted)
      (conj (proj1 (Z.leb_le 0 20) eq_refl) (proj1 (Z.ltb_lt 20 32) eq_refl))).
  - intros _ s' (Hok & _). exact Hok.
Defined.

Lemma NMI_Handler_dispatches_witness :
  NMI_Handler false boosted = Done tt (boosted <| hw := [(6, false, 0x1000013c, 0)] |>).
Proof. exact (proj1 (NMI_Handler_dispatches false (handlers false) boosted (boosted_ok false))). Defined.

Lemma command_words_round_trip_witness :
  command MULTICORE_PEND_IRQ (u32 PendSV_IRQn) = 0x9000000e ∧ irq_of (command MULTICORE_PEND_IRQ (u32 PendSV_IRQn)) = PendSV_IRQn.
Proof.
  split; [vm_compute; reflexivity|].
  refine (proj1 (proj2 (command_words_round_trip MULTICORE_PEND_IRQ PendSV_IRQn 0 _ _))); split; vm_compute; congruence.
Defined.

(** Core 1 has a word to serve when core 0 enables interrupt 7 there. *)
Definition busy : irqs asked (list Z) :=
  match multicore_irq_set_priority false 7 1 64 boosted with Done _ s => s | Fault _ => boosted end.
Definition after_queue : irqs asked (list Z) :=
  match commands true [priority_command 7 64] busy with Done _ s => s | Fault _ => busy end.
Definition after_call : irqs asked (list Z) :=
  match enable_irq_cmd true 7 after_queue with Done _ s => s | Fault _ => busy end.

Lemma remote_calls_run_locally_witness :
  irq_enabled after_call true !! 7%nat = Some true ∧
  ∃ mb, mb true = [] ∧
    (call_on false Enable 7 1 ;;; multicore_irq_handler 3 true) busy = Done tt (after_call <| mail := mb |>).
Proof.
  split; [vm_compute; reflexivity|].
  refine (remote_calls_run_locally (contents := id) false Enable 7 busy 3 after_queue after_call _ I _ _ _ _).
  - split; vm_compute; congruence.
  - discriminate.
  - apply Nat.ltb_lt. reflexivity.
  - vm_compute. reflexivity.
  - vm_compute. reflexivity.
Defined.

Lemma switch_request_delivered_witness : ∃ mb, mb true = [] ∧
  (scheduler_request_switch false 1 ;;; multicore_irq_handler 2 true) boosted =
    Done tt (boosted <| hw := [(5, true, 2 ^ 28, 0)] |> <| mail := mb |>).
Proof.
  refine (proj2 (switch_request_delivered (contents := id) false boosted 2 eq_refl _ _)).
  - apply Nat.ltb_lt. reflexivity.
  - intros v. discriminate.
Defined.

(** Interrupt 16 has its affinity on core 1. *)
Lemma own_core_calls_follow_affinity_witness :
  multicore_irq_set_enable false 16 0 false boosted = multicore_irq_set_enable false 16 1 false boosted.
Proof.
  refine (proj1 (own_core_calls_follow_affinity false 16 false 0 boosted _ eq_refl)). split; vm_compute; congruence.
Defined.

Lemma remote_system_priority_out_of_bounds_witness :
  run_command true (priority_command (u32 SysTick_IRQn) 128) boosted = Fault BadPointer.
Proof. refine (remote_system_priority_out_of_bounds true SysTick_IRQn 128 boosted _ _); split; vm_compute; congruence. Defined.

Lemma reset_ok c : nmi_ok c reset [] ∧ handlers_set c reset ∧ sized c reset.
Proof. split_and!; [by destruct c; split|apply sample_handlers|by destruct c]. Qed.

Lemma multicore_irq_init_listens_witness :
  wp (multicore_irq_init (λ m, m) (ret tt) false) (λ _ s', (∀ c, listens c s') ∧ mail s' = mail reset ∧ hw s' = hw reset) reset.
Proof. exact (multicore_irq_init_listens (λ _, []) reset reset_ok). Defined.

Lemma multicore_startup_handshake_witness :
  multicore_startup_hook (ret tt) (replicate 3 (ret tt)) false boosted = Fault OutOfFuel ∧
  wp (multicore_startup_hook (ret tt) (replicate 3 (ret tt) ++ [multicore_startup_hook (ret tt) [] true; ret tt]) false)
    (λ _ s', (∀ c, nmi_proc_mask s' c = nmi_proc_mask boosted c) ∧ s' = boosted <| nmi_proc_mask := nmi_proc_mask s' |>) boosted.
Proof.
  apply (multicore_startup_handshake 3 boosted [ret tt] eq_refl eq_refl); [|done].
  intros [|]; vm_compute; split; congruence.
Defined.

Lemma fault_stops_other_core_witness : ∃ mb, mb true = [] ∧
  (init_fault 0x10000401 false ;;; multicore_irq_handler 2 true) boosted =
    Done tt (boosted <| hw := [(6, true, 0x10000401, 0)] |> <| mail := mb |>).
Proof.
  refine (fault_stops_other_core (contents := id) false 0x10000401 boosted 2 boosted _ _ eq_refl _ eq_refl).
  - left.
  - apply Nat.ltb_lt. reflexivity.
Defined.
