(* ===== verification/Backtrace.v ===== *)
(** * Stack unwinding

    [pico-fault/backtrace.c] and backtrace.h: the search of the exception index
    table the linker builds, the interpreter of the unwind instructions, one
    frame, and the walk that fills a backtrace buffer.  Memory is read a word at a
    time and never written. *)
From S2P Require Import Prelude.

(** ** Data *)
Record backtrace_frame := BacktraceFrame { fp : Z; sp : Z; lr : Z; pc : Z }.
#[export] Instance eta_backtrace_frame : Eta backtrace_frame := λ f, BacktraceFrame (fp f) (sp f) (lr f) (pc f).

(** The strings a backtrace can name a function by. *)
Inductive name := NoName | EndOfTable | CantUnwind | EntryPoint | Unknown | NameAt (a : Z).
Record backtrace := Backtrace { function : Z; address : Z; fname : name }.

Record unwind_control_block := UnwindControlBlock { vrs : list Z; current : Z; remaining : Z; byte : Z }.
#[export] Instance eta_ucb : Eta unwind_control_block :=
  λ u, UnwindControlBlock (vrs u) (current u) (remaining u) (byte u).

(** An entry of the index: [addr_offset] at its address, [insn] four further. *)
Definition index_size : Z := 8.

Section unwind.
(** The word at an address, [None] where a read traps; the symbols of the
    linker; and the process stack pointer. *)
Context (word_at : Z → option Z).
Context (__exidx_start __exidx_end _entry_point : Z).
Context (get_PSP : Z).

Definition read_word {S} (a : Z) : M S Z := get_opt (λ _, word_at (u32 a)) BadPointer.

(** ** Addresses and the index *)

(** [((int32_t)w << 1) >> 1] *)
Definition prel31_offset (w : Z) : Z := Z.shiftr (s32 (Z.shiftl w 1)) 1.
Definition prel31_to_addr {S} (prel31 : Z) : M S Z :=
  w <- read_word prel31 ;;
  ret (Z.land (u32 (prel31 + prel31_offset w)) 0x7fffffff).

(** Fuel: one unit per halving of the range. *)
Fixpoint search_from {S} (fuel : nat) (start end_ ip : Z) : M S Z :=
  match fuel with
  | O => fail OutOfFuel
  | Datatypes.S fuel =>
      if start <? end_ - index_size then
        let middle := start + index_size * Z.shiftr ((end_ - start) / index_size + 1) 1 in
        addr <- prel31_to_addr middle ;;
        if ip <? addr then search_from fuel start middle ip else search_from fuel middle end_ ip
      else ret start
  end.

(** The number of entries bounds the halvings. *)
Definition index_entries : nat := Z.to_nat ((__exidx_end - __exidx_start) / index_size).
Definition unwind_search_index {S} (ip : Z) : M S Z := search_from (Datatypes.S index_entries) __exidx_start __exidx_end ip.

Definition unwind_get_function_name {S} (a : Z) : M S name :=
  if Z.land a 0x3 =? 0 then
    flag_word <- read_word (a - 4) ;;
    if Z.land flag_word 0xff000000 =? 0xff000000 then ret (NameAt (u32 (a - 4 - Z.land flag_word 0x00ffffff)))
    else ret Unknown
  else ret Unknown.

(** ** The instruction interpreter *)
Local Notation ucb := unwind_control_block.

Definition unwind_get_next_byte : M ucb Z :=
  left <- gets remaining ;;
  if left =? 0 then ret (-1)
  else
    a <- gets current ;;
    w <- read_word a ;;
    b <- gets byte ;;
    let instruction := Z.land (Z.shiftr w (Z.shiftl b 3)) 0xff in
    upd (λ u, u <| byte ::= (λ x, x - 1) |>) ;;;
    b <- gets byte ;;
    when (b <? 0) (upd (λ u, u <| current := u32 (current u + 4) |> <| byte := 3 |>)) ;;;
    upd (λ u, u <| remaining ::= (λ x, x - 1) |>) ;;;
    ret instruction.

Definition get_vrs (r : Z) : M ucb Z := get_opt (λ u, vrs u !! Z.to_nat r) BadPointer.
(** C does not check the index: a store past the end of the array overruns the
    block on the stack, and the model stops there. *)
Definition set_vrs (r v : Z) : M ucb unit :=
  get_opt (λ u, vrs u !! Z.to_nat r) Overrun ;;;
  upd (λ u, u <| vrs ::= <[Z.to_nat r := v]> |>).

(** [while (mask != 0) { if (mask & 1) vrs[reg] = *vsp++; mask >>= 1; ++reg; }] *)
Fixpoint pop_mask (fuel : nat) (mask reg vsp : Z) : M ucb Z :=
  match fuel with
  | O => fail OutOfFuel
  | Datatypes.S fuel =>
      if mask =? 0 then ret vsp
      else
        vsp <- (if has mask 1 then v <- read_word vsp ;; set_vrs reg v ;;; ret (u32 (vsp + 4)) else ret vsp) ;;
        pop_mask fuel (Z.shiftr mask 1) (reg + 1) vsp
  end.

(** [for (; reg <= last; ++reg) vrs[reg] = *vsp++;], [n] registers. *)
Fixpoint pop_range (n : nat) (reg vsp : Z) : M ucb Z :=
  match n with
  | O => ret vsp
  | Datatypes.S n =>
      v <- read_word vsp ;;
      set_vrs reg v ;;;
      pop_range n (reg + 1) (u32 (vsp + 4))
  end.

(** One turn of the loop of [unwind_execute_instruction]: [Some r] returns [r]. *)
Definition execute_one (instruction : Z) : M ucb (option Z) :=
  let bits m v := Z.land instruction m =? v in
  if bits 0xc0 0x00 then
    vsp <- get_vrs 13 ;;
    set_vrs 13 (u32 (vsp + (Z.shiftl (Z.land instruction 0x3f) 2 + 4))) ;;;
    ret None
  else if bits 0xc0 0x40 then
    vsp <- get_vrs 13 ;;
    set_vrs 13 (u32 (vsp - (Z.shiftl (Z.land instruction 0x3f) 2 + 4))) ;;;
    ret None
  else if bits 0xf0 0x80 then
    next <- unwind_get_next_byte ;;
    let instruction := Z.lor (u32 (Z.shiftl instruction 8)) (u32 next) in
    if instruction =? 0x8000 then ret (Some 0)
    else
      vsp <- get_vrs 13 ;;
      let mask := Z.land instruction 0xfff in
      vsp <- pop_mask 13 mask 4 vsp ;;
      (* the loop leaves the mask zero *)
      let mask := 0 in
      when (Z.land mask (Z.shiftl 1 (13 - 4)) =? 0) (set_vrs 13 vsp) ;;;
      ret None
  else if bits 0xf0 0x90 && negb (instruction =? 0x9d) && negb (instruction =? 0x9f) then
    v <- get_vrs (Z.land instruction 0x0f) ;;
    set_vrs 13 v ;;;
    ret None
  else if bits 0xf0 0xa0 then
    vsp <- get_vrs 13 ;;
    vsp <- pop_range (Z.to_nat (Z.land instruction 0x07 + 1)) 4 vsp ;;
    vsp <- (if has instruction 0x08 then v <- read_word vsp ;; set_vrs 14 v ;;; ret (u32 (vsp + 4)) else ret vsp) ;;
    set_vrs 13 vsp ;;;
    ret None
  else if instruction =? 0xb0 then
    p <- get_vrs 15 ;;
    when (p =? 0) (l <- get_vrs 14 ;; set_vrs 15 l) ;;;
    ret (Some 0)
  else if instruction =? 0xb1 then
    vsp <- get_vrs 13 ;;
    next <- unwind_get_next_byte ;;
    vsp <- pop_mask 33 (u32 next) 0 vsp ;;
    set_vrs 13 vsp ;;;
    ret None
  else if instruction =? 0xb2 then
    vsp <- get_vrs 13 ;;
    next <- unwind_get_next_byte ;;
    set_vrs 13 (u32 (vsp + 0x204 + Z.shiftl next 2)) ;;;
    ret None
  else if (instruction =? 0xb3) || (instruction =? 0xc8) || (instruction =? 0xc9) then
    vsp <- get_vrs 13 ;;
    next <- unwind_get_next_byte ;;
    let vsp := u32 (vsp + 4 * (2 * (Z.land next 0x0f + 1))) in
    let vsp := if instruction =? 0xb3 then u32 (vsp + 4) else vsp in
    set_vrs 13 vsp ;;;
    ret None
  else if bits 0xf8 0xb8 || bits 0xf8 0xd0 then
    vsp <- get_vrs 13 ;;
    let vsp := u32 (vsp + 4 * (2 * (Z.land instruction 0x07 + 1))) in
    let vsp := if bits 0xf8 0xb8 then u32 (vsp + 4) else vsp in
    set_vrs 13 vsp ;;;
    ret None
  else ret (Some (-1)).

(** Fuel: one unit per instruction, and the end. *)
Fixpoint unwind_execute_instruction (fuel : nat) : M ucb Z :=
  match fuel with
  | O => fail OutOfFuel
  | Datatypes.S fuel =>
      next <- unwind_get_next_byte ;;
      let instruction := u32 next in
      if negb (instruction =? UINT32_MAX) then
        done <- execute_one instruction ;;
        match done with Some r => ret r | None => unwind_execute_instruction fuel end
      else ret 0
  end.

(** The longest unwind table: 255 words after the first. *)
Definition max_instructions : nat := 1022.

(** The block of [memset], and what [unwind_control_block_init] makes of the
    first word; -1 is the error return. *)
Definition unwind_control_block_init {S} (instructions : Z) (frame : backtrace_frame) : M S (Z + ucb) :=
  w <- read_word instructions ;;
  let zero := replicate 16 0 in
  let regs := <[15%nat := 0]> (<[14%nat := lr frame]> (<[13%nat := sp frame]> (<[7%nat := fp frame]> zero))) in
  if Z.land w 0xff000000 =? 0x80000000 then ret (inr (UnwindControlBlock regs instructions 3 2))
  else if Z.land w 0xff000000 =? 0x81000000 then
    ret (inr (UnwindControlBlock regs instructions (Z.shiftr (Z.land w 0x00ff0000) 14 + 2) 1))
  else ret (inl (-1)).

(** Run the interpreter on a block of its own. *)
Definition run_ucb {S A} (m : M ucb A) (u : ucb) : M S (A * ucb) :=
  λ s, match m u with Done a u' => Done (a, u') s | Fault f => Fault f end.

(** [while ((execution_result = unwind_execute_instruction(&ucb)) > 0);] *)
Fixpoint execute_while (fuel : nat) : M ucb Z :=
  match fuel with
  | O => fail OutOfFuel
  | Datatypes.S fuel =>
      r <- unwind_execute_instruction (Datatypes.S max_instructions) ;;
      if 0 <? r then execute_while fuel else ret r
  end.

(** The stack an exception return unwinds to: [r15] and [r14] come from it. *)
Definition exception_stack (ret_ v7 : Z) : Z :=
  if Z.land ret_ 0xc =? 0 then
    let stack := u32 (Z.land v7 (not32 7) - 4 * 2) in
    if Z.land ret_ 0xf0 =? 0xe0 then u32 (stack - 4 * 18) else stack
  else u32 (get_PSP + 4 * 6).

Definition exception_return : M ucb unit :=
  v15 <- get_vrs 15 ;;
  when (Z.land v15 0xf0000000 =? 0xf0000000) (
    v7 <- get_vrs 7 ;;
    set_vrs 13 (Z.land v7 (not32 7)) ;;;
    let stack := exception_stack v15 v7 in
    p <- read_word stack ;;
    set_vrs 15 p ;;;
    l <- read_word (stack - 4) ;;
    set_vrs 14 l).

Definition unwind_frame : M backtrace_frame Z :=
  frame <- get ;;
  index <- unwind_search_index (pc frame) ;;
  (* the search returns no null pointer, unless the table is at it *)
  if index =? 0 then ret (-1)
  else
    insn <- read_word (index + 4) ;;
    if insn =? 0x00000001 then ret 0
    else
      instructions <- (if has insn 0x80000000 then ret (u32 (index + 4)) else prel31_to_addr (index + 4)) ;;
      block <- unwind_control_block_init instructions frame ;;
      match block with
      | inl _ => ret (-1)
      | inr block =>
          executed <- run_ucb (execute_while 1) block ;;
          if fst executed =? -1 then ret (-1)
          else
            settled <- run_ucb (
              p <- get_vrs 15 ;;
              when (p =? 0) (l <- get_vrs 14 ;; set_vrs 15 l) ;;;
              exception_return ;;;
              v7 <- get_vrs 7 ;; v13 <- get_vrs 13 ;; v14 <- get_vrs 14 ;; v15 <- get_vrs 15 ;;
              ret (BacktraceFrame v7 v13 v14 v15)) (snd executed) ;;
            if pc frame =? pc (fst settled) then ret 0
            else
              upd (λ _, fst settled) ;;;
              ret 1
      end.

(** ** The walk

    The state is the frame and the buffer the caller passed. *)
Record walk := Walk { frame : backtrace_frame; buffer : list backtrace }.

Definition on_frame {A} (m : M backtrace_frame A) : M walk A :=
  λ w, match m (frame w) with Done a f => Done a (Walk f (buffer w)) | Fault f => Fault f end.
Definition write_entry (count : Z) (e : backtrace) : M walk unit :=
  get_opt (λ w, buffer w !! Z.to_nat count) OutOfBounds ;;;
  upd (λ w, Walk (frame w) (<[Z.to_nat count := e]> (buffer w))).

Definition no_entry : backtrace := Backtrace 0 0 NoName.

(** One turn up to the [while]: the count, and whether the turn broke out. *)
Definition walk_turn (count : Z) : M walk (Z * bool) :=
  f <- gets frame ;;
  if pc f =? 0 then write_entry count (Backtrace 0 0 EndOfTable) ;;; ret (count + 1, true)
  else if pc f =? 0x00000001 then write_entry count (Backtrace 0 0 CantUnwind) ;;; ret (count + 1, true)
  else if (_entry_point <=? pc f) && (pc f <=? u32 (_entry_point + 64)) then
    write_entry count (Backtrace _entry_point (Z.land (pc f) 0xfffffffe) EntryPoint) ;;;
    ret (count + 1, true)
  else
    index <- unwind_search_index (pc f) ;;
    on_frame (upd (λ f, f <| pc ::= (λ p, Z.land p 0xfffffffe) |>)) ;;;
    f <- gets frame ;;
    func <- prel31_to_addr index ;;
    n <- unwind_get_function_name func ;;
    write_entry count (Backtrace func (pc f) n) ;;;
    ret (count + 1, false).

(** The loop runs again on any result of [unwind_frame] but zero. *)
Fixpoint walk_from (fuel : nat) (size count : Z) : M walk Z :=
  match fuel with
  | O => fail OutOfFuel
  | Datatypes.S fuel =>
      turn <- walk_turn count ;;
      if snd turn then ret (fst turn)
      else
        more <- on_frame unwind_frame ;;
        if negb (more =? 0) && (fst turn <? size) then walk_from fuel size (fst turn) else ret (fst turn)
  end.

Definition _backtrace_unwind (size : Z) : M walk Z :=
  upd (λ w, Walk (frame w) (replicate (Z.to_nat size) no_entry)) ;;;
  walk_from (Datatypes.S (Z.to_nat size)) size 0.

Definition backtrace_function_name {S} (ip : Z) : M S name :=
  index <- unwind_search_index ip ;;
  if index =? 0 then ret NoName
  else
    func <- prel31_to_addr index ;;
    unwind_get_function_name func.
End unwind.
