(* ===== verification/BacktraceLaws.v ===== *)
(** * Laws of the unwinder

    Runs that do not use up their fuel, the relative addresses and the search
    of the index, and the interpreter against the table of the exception
    handling ABI. *)
From S2P Require Import Prelude Backtrace.

(** ** Runs that do not use up their fuel

    [safe_in F m Q s]: from [s], [m] ends, with an outcome that satisfies [Q] or
    with a fault of [F].  A read may always trap. *)
Definition safe_in {S A} (F : fault → Prop) (m : M S A) (Q : A → S → Prop) (s : S) : Prop :=
  match m s with Done a s' => Q a s' | Fault f => F f end.

Class Traps (F : fault → Prop) : Prop := traps : F BadPointer.
(** The faults of an unwinding: a trap, or registers popped past their array. *)
Definition unwind_fault (f : fault) : Prop := f = BadPointer ∨ f = Overrun.
#[export] Instance unwind_traps : Traps unwind_fault.
Proof. by left. Qed.
Notation safe := (safe_in unwind_fault).

Section safe_rules.
Context {S : Type} {F : fault → Prop}.
Implicit Types (s : S).
Local Notation safe := (safe_in F).

Lemma safe_mono {A} (m : M S A) (Q Q' : A → S → Prop) s : safe m Q s → (∀ a s', Q a s' → Q' a s') → safe m Q' s.
Proof. unfold safe_in. destruct (m s); eauto. Qed.

Lemma safe_faults {A} (F' : fault → Prop) (m : M S A) (Q : A → S → Prop) s :
  safe_in F' m Q s → (∀ f, F' f → F f) → safe m Q s.
Proof. unfold safe_in. destruct (m s); eauto. Qed.

Lemma safe_bind {A B} (m : M S A) (k : A → M S B) Q s : safe m (λ a s', safe (k a) Q s') s → safe (bind m k) Q s.
Proof. unfold safe_in, bind. by destruct (m s). Qed.

Lemma safe_ret {A} (a : A) (Q : A → S → Prop) s : Q a s → safe (ret a) Q s.
Proof. done. Qed.

Lemma safe_gets {A} (f : S → A) (Q : A → S → Prop) s : Q (f s) s → safe (gets f) Q s.
Proof. done. Qed.

Lemma safe_upd f (Q : unit → S → Prop) s : Q tt (f s) → safe (upd f) Q s.
Proof. done. Qed.

Lemma safe_get_opt `{!Traps F} {A} (f : S → option A) (Q : A → S → Prop) s : (∀ a, f s = Some a → Q a s) → safe (get_opt f BadPointer) Q s.
Proof. unfold safe_in, get_opt. intros HQ. destruct (f s); [by apply HQ|apply traps]. Qed.

Lemma safe_if {A} (b : bool) (m1 m2 : M S A) Q s :
  (b = true → safe m1 Q s) → (b = false → safe m2 Q s) → safe (if b then m1 else m2) Q s.
Proof. destruct b; eauto. Qed.
End safe_rules.

(** ** Relative addresses *)
Lemma s32_double w : Z.shiftr (s32 (Z.shiftl w 1)) 1 = (w + 2 ^ 30) mod 2 ^ 31 - 2 ^ 30.
Proof.
  unfold s32, word. rewrite Z.shiftl_mul_pow2, Z.shiftr_div_pow2 by done.
  replace (w * 2 ^ 1 + 2 ^ 31) with (2 * (w + 2 ^ 30)) by lia.
  change (2 ^ 32) with (2 * 2 ^ 31). rewrite Zmult_mod_distr_l.
  replace (2 * ((w + 2 ^ 30) mod 2 ^ 31) - 2 ^ 31) with ((((w + 2 ^ 30) mod 2 ^ 31) - 2 ^ 30) * 2) by lia.
  change (2 ^ 1) with 2. by rewrite Z.div_mul.
Qed.

Lemma prel31_range w : - 2 ^ 30 <= prel31_offset w < 2 ^ 30.
Proof. unfold prel31_offset. rewrite s32_double. pose proof (Z.mod_pos_bound (w + 2 ^ 30) (2 ^ 31)). lia. Qed.

(** The word the linker stores at [place] for a reference to [target]. *)
Definition prel31_word (place target : Z) : Z := (target - place) mod 2 ^ 31.

Lemma prel31_offset_word place target : - 2 ^ 30 <= target - place < 2 ^ 30 →
  prel31_offset (prel31_word place target) = target - place.
Proof.
  intros H. unfold prel31_offset, prel31_word. rewrite s32_double, Zplus_mod_idemp_l, Z.mod_small by lia. lia.
Qed.

Section laws.
Context (word_at : Z → option Z) (exidx_start exidx_end entry_point PSP : Z).

Lemma safe_read_word {F} {TF : Traps F} {S} a Q (s : S) :
  (∀ v, word_at (u32 a) = Some v → Q v s) → safe_in F (read_word word_at a) Q s.
Proof. intros H. apply safe_get_opt. exact H. Qed.

Lemma prel31_run {S} place target (s : S) :
  0 <= place < 2 ^ 31 → 0 <= target < 2 ^ 31 → - 2 ^ 30 <= target - place < 2 ^ 30 →
  word_at place = Some (prel31_word place target) → prel31_to_addr word_at place s = Done target s.
Proof.
  intros Hp Ht Hd Hw. unfold prel31_to_addr, read_word, bind, get_opt.
  rewrite (u32_small place), Hw by (unfold is_u32, word; lia). unfold ret.
  rewrite prel31_offset_word by done. replace (place + (target - place)) with target by lia.
  rewrite u32_small by (unfold is_u32, word; lia). change 0x7fffffff with (Z.ones 31).
  by rewrite Z.land_ones, Z.mod_small by lia.
Qed.

(** ** The search of the index *)

(** The entry [i] of the index. *)
Definition entry_addr (i : Z) : Z := exidx_start + index_size * i.

(** A table of the functions' addresses, in order, [word_at] each entry. *)
Record index_table (addrs : list Z) : Prop := {
  it_end : exidx_end = entry_addr (Z.of_nat (length addrs));
  it_place : 0 <= exidx_start ∧ exidx_end < 2 ^ 31;
  it_entry i a : addrs !! i = Some a →
    0 <= a < 2 ^ 31 ∧ - 2 ^ 30 <= a - entry_addr (Z.of_nat i) < 2 ^ 30 ∧
    word_at (entry_addr (Z.of_nat i)) = Some (prel31_word (entry_addr (Z.of_nat i)) a);
  it_sorted i j a b : addrs !! i = Some a → addrs !! j = Some b → (i < j)%nat → a < b
}.

(** The reference: walk the table to the last address not above [ip]. *)
Fixpoint last_not_above (addrs : list Z) (ip : Z) (i found : nat) : nat :=
  match addrs with
  | [] => found
  | a :: addrs => last_not_above addrs ip (S i) (if a <=? ip then i else found)
  end.
Definition linear_search (addrs : list Z) (ip : Z) : nat := last_not_above addrs ip 0 0.

Lemma halving n : 2 <= n → 1 <= Z.shiftr (n + 1) 1 < n.
Proof. intros Hn. rewrite Z.shiftr_div_pow2 by done. change (2 ^ 1) with 2. Z.div_mod_to_equations. lia. Qed.

Lemma entry_diff i j : (entry_addr j - entry_addr i) / index_size = j - i.
Proof. unfold entry_addr. replace (_ - _) with ((j - i) * index_size) by lia. by apply Z.div_mul. Qed.

(** The search of the entries [lo, hi) keeps a last entry whose address is not
    above [ip], the first of the table aside. *)
Lemma search_run {S} addrs ip : index_table addrs → ∀ fuel lo hi (s : S),
  (lo < hi)%nat → (hi <= length addrs)%nat → (hi - lo <= fuel)%nat →
  (lo = 0%nat ∨ ∃ a, addrs !! lo = Some a ∧ a <= ip) → (hi = length addrs ∨ ∃ a, addrs !! hi = Some a ∧ ip < a) →
  ∃ i, search_from word_at fuel (entry_addr (Z.of_nat lo)) (entry_addr (Z.of_nat hi)) ip s = Done (entry_addr (Z.of_nat i)) s ∧
    (i < length addrs)%nat ∧ (i = 0%nat ∨ ∃ a, addrs !! i = Some a ∧ a <= ip) ∧
    (∀ j a, addrs !! j = Some a → (i < j)%nat → ip < a).
Proof.
  intros Ht. induction fuel as [|fuel IH]; intros lo hi s Hlt Hhi Hf Hlo Hup; [lia|]. cbn [search_from].
  destruct (Z.ltb_spec (entry_addr (Z.of_nat lo)) (entry_addr (Z.of_nat hi) - index_size)) as [Hc|Hc].
  - unfold entry_addr, index_size in Hc. cbv zeta. rewrite entry_diff.
    pose proof (halving (Z.of_nat hi - Z.of_nat lo) ltac:(lia)) as Hm.
    set (k := Z.shiftr (Z.of_nat hi - Z.of_nat lo + 1) 1) in *.
    set (mid := (lo + Z.to_nat k)%nat).
    assert (entry_addr (Z.of_nat lo) + index_size * k = entry_addr (Z.of_nat mid)) as ->
      by (unfold entry_addr, mid; lia).
    destruct (lookup_lt_is_Some_2 addrs mid) as [a Ha]; [unfold mid; lia|].
    destruct (it_entry _ Ht _ _ Ha) as (Hr & Hd & Hw).
    assert (0 <= entry_addr (Z.of_nat mid) < 2 ^ 31) as Hpl.
    { pose proof (it_place _ Ht) as [? He]. rewrite (it_end _ Ht) in He. unfold entry_addr, index_size, mid in *. lia. }
    unfold bind. rewrite (prel31_run _ a) by done. destruct (Z.ltb_spec ip a).
    + apply IH; [unfold mid; lia|unfold mid; lia|unfold mid; lia|done|right; by exists a].
    + apply IH; [unfold mid; lia|done|unfold mid; lia|right; by exists a|done].
  - unfold entry_addr, index_size in Hc. assert (hi = Datatypes.S lo) as -> by lia. exists lo. split; [done|]. split; [lia|].
    split; [done|]. intros j a Hj Hij. destruct Hup as [E|(b & Hb & Hib)].
    + apply lookup_lt_Some in Hj. lia.
    + destruct (decide (j = Datatypes.S lo)) as [->|Hne]; [congruence|].
      pose proof (it_sorted _ Ht _ _ _ _ Hb Hj ltac:(lia)). lia.
Qed.

Lemma last_not_above_spec addrs ip : ∀ i found, (∀ j a, addrs !! j = Some a → ∀ k b, addrs !! k = Some b → (j < k)%nat → a < b) →
  (last_not_above addrs ip i found = found ∧ (∀ a, addrs !! 0%nat = Some a → ip < a)) ∨
  ∃ k a, last_not_above addrs ip i found = (i + k)%nat ∧ addrs !! k = Some a ∧ a <= ip ∧ (∀ b, addrs !! S k = Some b → ip < b).
Proof.
  induction addrs as [|x addrs IH]; intros i found Hs; cbn [last_not_above]; [by left|].
  assert (∀ j a, addrs !! j = Some a → ∀ k b, addrs !! k = Some b → (j < k)%nat → a < b) as Hs'.
  { intros j a Hj k b Hk Hlt. by eapply (Hs (S j) a Hj (S k) b Hk); lia. }
  destruct (Z.leb_spec x ip) as [Hx|Hx].
  - destruct (IH (S i) i Hs') as [[E H0]|(k & a & E & Hk & Ha & Hn)].
    + right. exists 0%nat, x. rewrite E. split; [lia|]. split; [done|]. split; [done|]. exact H0.
    + right. exists (S k), a. rewrite E. split; [lia|done].
  - destruct (IH (S i) found Hs') as [[E H0]|(k & a & E & Hk & Ha & Hn)].
    + left. split; [done|]. by intros a [= <-].
    + pose proof (Hs 0%nat x eq_refl (S k) a Hk ltac:(lia)). lia.
Qed.

Lemma search_linear {S} addrs ip (s : S) : index_table addrs → addrs ≠ [] →
  unwind_search_index word_at exidx_start exidx_end ip s = Done (entry_addr (Z.of_nat (linear_search addrs ip))) s.
Proof.
  intros Ht Hne. assert (0 < length addrs)%nat as Hl by (destruct addrs; cbn in *; [done|lia]).
  assert (index_entries exidx_start exidx_end = length addrs) as En.
  { unfold index_entries. rewrite (it_end _ Ht). 
    replace (entry_addr _ - exidx_start) with (entry_addr (Z.of_nat (length addrs)) - entry_addr 0) by (unfold entry_addr; lia).
    rewrite entry_diff. lia. }
  destruct (search_run (S := S) addrs ip Ht (Datatypes.S (length addrs)) 0 (length addrs) s) as (i & Hrun & Hi & Hle & Hup);
    [lia|done|lia|by left|by left|].
  unfold unwind_search_index. rewrite En. rewrite <-(it_end _ Ht) in Hrun.
  replace (entry_addr (Z.of_nat 0)) with exidx_start in Hrun by (unfold entry_addr; lia). rewrite Hrun. do 3 f_equal.
  assert (∀ j a, addrs !! j = Some a → ∀ k b, addrs !! k = Some b → (j < k)%nat → a < b) as Hs.
  { intros j a Hj k b Hk Hlt. by eapply (it_sorted _ Ht j k). }
  unfold linear_search. destruct (last_not_above_spec addrs ip 0 0 Hs) as [[E H0]|(k & a & E & Hk & Ha & Hn)]; rewrite E.
  - destruct Hle as [->|(a & Ha & Hai)]; [done|]. destruct i as [|i]; [done|].
    destruct (lookup_lt_is_Some_2 addrs 0 Hl) as [b Hb]. specialize (H0 b Hb).
    pose proof (Hs 0%nat b Hb (Datatypes.S i) a Ha ltac:(lia)). lia.
  - destruct (decide (k < i)%nat) as [Hlt|]; [|destruct (decide (i < k)%nat) as [Hlt|]; [|lia]].
    + destruct Hle as [->|(b & Hb & Hbi)]; [lia|]. destruct (decide (Datatypes.S k = i)) as [<-|Hne'].
      * specialize (Hn b Hb). lia.
      * destruct (lookup_lt_is_Some_2 addrs (Datatypes.S k)) as [d Hd]; [lia|]. specialize (Hn d Hd).
        pose proof (Hs _ d Hd i b Hb ltac:(lia)). lia.
    + specialize (Hup k a Hk Hlt). lia.
Qed.
End laws.
