(* ===== verification/UnwindLaws.v ===== *)
(** * The unwind interpreter

    Its refinement of the instruction table of the exception handling ABI, and
    the bound on its run. *)
From S2P Require Import Prelude Backtrace BacktraceLaws.

Local Notation ucb := unwind_control_block.

Section interpreter.
Context (word_at : Z → option Z).

(** ** The byte stream

    The bytes left in a block: from the byte [b] of the word at [cur], the most
    significant first. *)
Fixpoint bytes_at (n : nat) (cur b : Z) : option (list Z) :=
  match n with
  | O => Some []
  | S n =>
      w ← word_at (u32 cur);
      rest ← (if b - 1 <? 0 then bytes_at n (u32 (cur + 4)) 3 else bytes_at n cur (b - 1));
      Some (Z.land (Z.shiftr w (Z.shiftl b 3)) 0xff :: rest)
  end.
Definition stream (u : ucb) : option (list Z) := bytes_at (Z.to_nat (remaining u)) (current u) (byte u).

Lemma next_byte_run u b bs : 0 <= remaining u → stream u = Some (b :: bs) →
  ∃ u', unwind_get_next_byte word_at u = Done b u' ∧ stream u' = Some bs ∧ vrs u' = vrs u ∧
    remaining u' = remaining u - 1 ∧ 0 <= remaining u' ∧ 0 <= b < 256.
Proof.
  intros Hr Hs. unfold stream in Hs. destruct (Z.to_nat (remaining u)) as [|n] eqn:En; [done|]. cbn [bytes_at] in Hs.
  destruct (word_at (u32 (current u))) as [w|] eqn:Ew; [|done]. cbn in Hs.
  set (rest := if byte u - 1 <? 0 then _ else _) in Hs. destruct rest as [l|] eqn:El; [|done]. cbn in Hs. injection Hs as Hb ->.
  unfold unwind_get_next_byte, bind, gets, read_word, get_opt, upd, ret.
  rewrite (proj2 (Z.eqb_neq (remaining u) 0)), Ew by lia. rewrite Hb. unfold when, upd, ret.
  assert (0 <= b < 256) as Hbr.
  { rewrite <-Hb. change 0xff with (Z.ones 8). rewrite Z.land_ones by done. by apply Z.mod_pos_bound. }
  rsimp. subst rest. destruct (byte u - 1 <? 0); eexists; (split; [reflexivity|]); rsimp;
    (split; [|split_and!; done || lia]); unfold stream; rsimp; by replace (Z.to_nat (remaining u - 1)) with n by lia.
Qed.

Lemma next_byte_end u : remaining u = 0 → unwind_get_next_byte word_at u = Done (-1) u.
Proof. intros E. unfold unwind_get_next_byte, bind, gets, ret. by rewrite E. Qed.

(** ** The reference: the ABI's table of instructions

    Table 4 of the exception handling ABI, as the ABI has it.  The registers of
    the coprocessors are not part of a block: their instructions move vsp. *)
Inductive uop :=
  | AddVsp (k : Z)            (* vsp = vsp + k *)
  | RefuseToUnwind
  | PopList (regs : list Z)   (* pop these registers, in order *)
  | SetVsp (r : Z)
  | FinishUnwind
  | SpareOp.

(** The registers of the bits set in [mask], from register [reg] on. *)
Fixpoint mask_regs (n : nat) (mask reg : Z) : list Z :=
  match n with
  | O => []
  | S n => (if Z.odd mask then [reg] else []) ++ mask_regs n (mask / 2) (reg + 1)
  end.

(** An unsigned LEB128 number: seven bits a byte, the least significant first. *)
Fixpoint uleb128 (bs : list Z) : option (Z * list Z) :=
  match bs with
  | [] => None
  | b :: rest => if b <? 0x80 then Some (b, rest) else '(v, rest) ← uleb128 rest; Some (b - 0x80 + 0x80 * v, rest)
  end.

(** An instruction of one operand byte. *)
Definition operand (rest : list Z) (op : Z → uop) : option (uop * list Z) :=
  match rest with [] => None | b2 :: rest => Some (op b2, rest) end.

(** An instruction and what is left; [None] when its operand is missing. *)
Definition decode (bs : list Z) : option (uop * list Z) :=
  match bs with
  | [] => None
  | b :: rest =>
      if b <? 0x40 then Some (AddVsp (4 * b + 4), rest)
      else if b <? 0x80 then Some (AddVsp (- (4 * (b - 0x40) + 4)), rest)
      else if b <? 0x90 then operand rest (λ b2,
        let mask := (b - 0x80) * 256 + b2 in if mask =? 0 then RefuseToUnwind else PopList (mask_regs 12 mask 4))
      else if b <? 0xa0 then Some (if (b =? 0x9d) || (b =? 0x9f) then SpareOp else SetVsp (b - 0x90), rest)
      else if b <? 0xa8 then Some (PopList (seqZ 4 (b - 0xa0 + 1)), rest)
      else if b <? 0xb0 then Some (PopList (seqZ 4 (b - 0xa8 + 1) ++ [14]), rest)
      else if b =? 0xb0 then Some (FinishUnwind, rest)
      else if b =? 0xb1 then operand rest (λ b2, if (0 <? b2) && (b2 <? 0x10) then PopList (mask_regs 4 b2 0) else SpareOp)
      else if b =? 0xb2 then '(v, rest) ← uleb128 rest; Some (AddVsp (0x204 + 4 * v), rest)
      else if b =? 0xb3 then operand rest (λ b2, AddVsp (8 * (b2 mod 16 + 1) + 4))
      else if b <? 0xb8 then Some (SpareOp, rest)
      else if b <? 0xc0 then Some (AddVsp (8 * (b - 0xb8 + 1) + 4), rest)
      else if b <? 0xc6 then Some (AddVsp (8 * (b - 0xc0 + 1)), rest)
      else if b =? 0xc6 then operand rest (λ b2, AddVsp (8 * (b2 mod 16 + 1)))
      else if b =? 0xc7 then operand rest (λ b2,
        if (0 <? b2) && (b2 <? 0x10) then AddVsp (4 * Z.of_nat (length (mask_regs 4 b2 0))) else SpareOp)
      else if b <? 0xca then operand rest (λ b2, AddVsp (8 * (b2 mod 16 + 1)))
      else if b <? 0xd0 then Some (SpareOp, rest)
      else if b <? 0xd8 then Some (AddVsp (8 * (b - 0xd0 + 1)), rest)
      else Some (SpareOp, rest)
  end.

(** The encodings the interpreter reads as the ABI does: not the spare masks of
    0xb1, not an operand of 0xb2 of more than one byte, not the instructions for
    the registers of Wireless MMX. *)
Definition read_alike (bs : list Z) : bool :=
  match bs with
  | [] => true
  | b :: rest =>
      let next := default 0 (head rest) in
      if b =? 0xb1 then (0 <? next) && (next <? 0x10)
      else if b =? 0xb2 then next <? 0x80
      else negb ((0xc0 <=? b) && (b <? 0xc8))
  end.

(** The instructions it gives their meaning: not a list that pops r13. *)
Definition carried_out (op : uop) : bool :=
  match op with PopList l => bool_decide (13 ∉ l) | _ => true end.

(** Load registers from consecutive words. *)
Fixpoint load_regs (l : list Z) (vsp : Z) (regs : list Z) : option (list Z * Z) :=
  match l with
  | [] => Some (regs, vsp)
  | r :: l => w ← word_at (u32 vsp); load_regs l (u32 (vsp + 4)) (<[Z.to_nat r := w]> regs)
  end.

Definition reg (regs : list Z) (r : Z) : Z := default 0 (regs !! Z.to_nat r).

(** Interpret instructions until one ends the unwinding or none is left: the
    result and the registers; [None] where the ABI gives no meaning or a word is
    not readable.  A list that holds r13 leaves vsp as popped. *)
Fixpoint interpret (fuel : nat) (bs regs : list Z) : option (Z * list Z) :=
  match fuel, bs with
  | _, [] => Some (0, regs)
  | O, _ => None
  | S fuel, _ =>
      '(op, bs) ← decode bs;
      match op with
      | AddVsp k => interpret fuel bs (<[13%nat := u32 (reg regs 13 + k)]> regs)
      | RefuseToUnwind => Some (0, regs)
      | PopList l =>
          '(regs', vsp) ← load_regs l (reg regs 13) regs;
          interpret fuel bs (if bool_decide (13 ∈ l) then regs' else <[13%nat := vsp]> regs')
      | SetVsp r => interpret fuel bs (<[13%nat := reg regs r]> regs)
      | FinishUnwind => Some (0, if reg regs 15 =? 0 then <[15%nat := reg regs 14]> regs else regs)
      | SpareOp => Some (-1, regs)
      end
  end.

(** Every instruction of a stream up to its end, or the one that ends the
    unwinding, is one the interpreter implements. *)
Fixpoint implemented (fuel : nat) (bs : list Z) : bool :=
  match fuel, bs with
  | S fuel, _ :: _ =>
      match decode bs with
      | Some (op, rest) =>
          read_alike bs && carried_out op &&
          match op with RefuseToUnwind | FinishUnwind | SpareOp => true | _ => implemented fuel rest end
      | None => true
      end
  | _, _ => true
  end.

(** ** One instruction *)
Lemma get_vrs_run u r : length (vrs u) = 16%nat → 0 <= r < 16 → get_vrs r u = Done (reg (vrs u) r) u.
Proof.
  intros Hl Hr. unfold get_vrs, get_opt, reg. destruct (lookup_lt_is_Some_2 (vrs u) (Z.to_nat r)) as [v Hv]; [lia|]. by rewrite Hv.
Qed.

Lemma set_vrs_run u r v : length (vrs u) = 16%nat → 0 <= r < 16 → set_vrs r v u = Done tt (u <| vrs ::= <[Z.to_nat r := v]> |>).
Proof.
  intros Hl Hr. unfold set_vrs, bind, get_opt. destruct (lookup_lt_is_Some_2 (vrs u) (Z.to_nat r)) as [x Hx]; [lia|]. by rewrite Hx.
Qed.

Lemma pop_range_run l : ∀ n r vsp u regs' vsp', l = seqZ r (Z.of_nat n) → length (vrs u) = 16%nat → 0 <= r → r + Z.of_nat n <= 16 →
  load_regs l vsp (vrs u) = Some (regs', vsp') → pop_range word_at n r vsp u = Done vsp' (u <| vrs := regs' |>) ∧ length regs' = 16%nat.
Proof.
  induction l as [|x l IH]; intros n r vsp u regs' vsp' El Hl Hr Hn Hload.
  - destruct n; [|by rewrite seqZ_cons in El by lia]. injection Hload as <- <-. cbn. split; [|done]. by destruct u.
  - destruct n as [|n]; [done|]. rewrite seqZ_cons in El by lia. injection El as -> El.
    replace (Z.pred (Z.of_nat (S n))) with (Z.of_nat n) in El by lia. cbn [load_regs pop_range] in *.
    unfold bind at 1, read_word, get_opt. destruct (word_at (u32 vsp)) as [w|]; [|done]. cbn in Hload.
    unfold bind at 1. rewrite set_vrs_run by (done || lia).
    destruct (IH n (r + 1) (u32 (vsp + 4)) (u <| vrs ::= <[Z.to_nat r := w]> |>) regs' vsp') as [Hrun Hlen];
      [by rewrite El, Z.add_1_r|by rsimp; rewrite length_insert|lia|lia|done|].
    rewrite Hrun. split; [|done]. by destruct u.
Qed.

Lemma has_1 mask : has mask 1 = Z.odd mask.
Proof. change 1 with (2 ^ 0). rewrite has_pow2 by done. apply Z.bit0_odd. Qed.

Lemma pop_mask_run n : ∀ fuel mask r vsp u regs' vsp', 0 <= mask < 2 ^ Z.of_nat n → (n < fuel)%nat →
  length (vrs u) = 16%nat → 0 <= r → r + Z.of_nat n <= 16 →
  load_regs (mask_regs n mask r) vsp (vrs u) = Some (regs', vsp') →
  pop_mask word_at fuel mask r vsp u = Done vsp' (u <| vrs := regs' |>) ∧ length regs' = 16%nat.
Proof.
  induction n as [|n IH]; intros [|fuel] mask r vsp u regs' vsp' Hm Hf Hl Hr Hn Hload; try lia; cbn [pop_mask mask_regs] in *.
  - assert (mask = 0) as -> by (change (2 ^ Z.of_nat 0) with 1 in Hm; lia). injection Hload as <- <-. cbn. split; [by destruct u|done].
  - rewrite Z.shiftr_div_pow2 by done. change (2 ^ 1) with 2.
    assert (0 <= mask / 2 < 2 ^ Z.of_nat n) as Hm2.
    { rewrite Nat2Z.inj_succ, Z.pow_succ_r in Hm by lia. Z.div_mod_to_equations. lia. }
    destruct (Z.eqb_spec mask 0) as [->|Hne].
    { assert (∀ k q, mask_regs k 0 q = []) as Ez by (induction k as [|k IHk]; intros q; cbn; [done|apply IHk]).
      change (0 / 2) with 0 in Hload. rewrite Ez in Hload. injection Hload as <- <-. split; [by destruct u|done]. }
    rewrite has_1. unfold bind at 1. destruct (Z.odd mask).
    + cbn [app load_regs] in Hload. unfold bind at 1, read_word, get_opt. destruct (word_at (u32 vsp)) as [w|]; [|done].
      cbn in Hload. unfold bind at 1. rewrite set_vrs_run by (done || lia). unfold ret.
      destruct (IH fuel (mask / 2) (r + 1) (u32 (vsp + 4)) (u <| vrs ::= <[Z.to_nat r := w]> |>) regs' vsp') as [Hrun Hlen];
        [done|lia|by rsimp; rewrite length_insert|lia|lia|done|]. rewrite Hrun. split; [by destruct u|done].
    + unfold ret. destruct (IH fuel (mask / 2) (r + 1) vsp u regs' vsp') as [Hrun Hlen]; [done|lia|done|lia|lia|done|].
      rewrite Hrun. done.
Qed.

(** The masks the code tests, as ranges of the byte. *)
Lemma every_byte (P : Z → bool) b : forallb P (seqZ 0 256) = true → 0 <= b < 256 → P b = true.
Proof. intros H Hb. eapply forallb_forall in H; [exact H|]. apply list_elem_of_In, elem_of_seqZ. lia. Qed.

Definition in_range (lo hi b : Z) : bool := (lo <=? b) && (b <? hi).

Lemma mask_ranges b : 0 <= b < 256 →
  (Z.land b 0xc0 =? 0x00) = in_range 0 0x40 b ∧ (Z.land b 0xc0 =? 0x40) = in_range 0x40 0x80 b ∧
  (Z.land b 0xf0 =? 0x80) = in_range 0x80 0x90 b ∧ (Z.land b 0xf0 =? 0x90) = in_range 0x90 0xa0 b ∧
  (Z.land b 0xf0 =? 0xa0) = in_range 0xa0 0xb0 b ∧ (Z.land b 0xf8 =? 0xb8) = in_range 0xb8 0xc0 b ∧
  (Z.land b 0xf8 =? 0xd0) = in_range 0xd0 0xd8 b.
Proof.
  intros Hb. split_and!; apply eqb_prop.
  all: match goal with |- Bool.eqb (Z.land ?x ?m =? ?v) (in_range ?lo ?hi ?x) = true =>
    apply (every_byte (λ b, Bool.eqb (Z.land b m =? v) (in_range lo hi b)) x); [vm_compute; reflexivity|done] end.
Qed.

Lemma in_range_true lo hi b : lo <= b < hi → in_range lo hi b = true.
Proof. intros H. unfold in_range. apply andb_true_intro. split; [apply Z.leb_le|apply Z.ltb_lt]; lia. Qed.

Lemma in_range_false lo hi b : b < lo ∨ hi <= b → in_range lo hi b = false.
Proof. intros H. unfold in_range. apply andb_false_iff. destruct H; [left; apply Z.leb_gt|right; apply Z.ltb_ge]; lia. Qed.

Lemma byte_fields b : 0 <= b < 256 →
  Z.land b 0x3f = b mod 64 ∧ Z.land b 0x07 = b mod 8 ∧ Z.land b 0x0f = b mod 16 ∧ has b 0x08 = (8 <=? b mod 16).
Proof.
  intros Hb. change 0x3f with (Z.ones 6). change 0x07 with (Z.ones 3). change 0x0f with (Z.ones 4).
  rewrite !Z.land_ones by done. split_and!; [done..|]. apply eqb_prop.
  by apply (every_byte (λ b, Bool.eqb (has b 8) (8 <=? b mod 16)) b); [vm_compute; reflexivity|].
Qed.

Lemma load_regs_app l1 l2 : ∀ vsp regs regs1 vsp1,
  load_regs (l1 ++ l2) vsp regs = Some (regs1, vsp1) →
  ∃ regs2 vsp2, load_regs l1 vsp regs = Some (regs2, vsp2) ∧ load_regs l2 vsp2 regs2 = Some (regs1, vsp1).
Proof.
  induction l1 as [|r l1 IH]; intros vsp regs regs1 vsp1 H; cbn [app load_regs] in *; [by eexists _, _|].
  destruct (word_at (u32 vsp)) as [w|]; [|done]. cbn in *. by apply IH.
Qed.

(** What the block is after an instruction that goes on; [op_meaning] is what the
    code makes of an operation, which sets vsp after every list. *)
Definition goes_on (u u' : ucb) (bs regs : list Z) : Prop :=
  stream u' = Some bs ∧ vrs u' = regs ∧ length regs = 16%nat ∧ 0 <= remaining u' <= remaining u.

Definition op_meaning (op : uop) (bs : list Z) (m : M ucb (option Z)) (u : ucb) : Prop :=
  match op with
  | AddVsp k => ∃ u', m u = Done None u' ∧ goes_on u u' bs (<[13%nat := u32 (reg (vrs u) 13 + k)]> (vrs u))
  | RefuseToUnwind => ∃ u', m u = Done (Some 0) u' ∧ vrs u' = vrs u
  | PopList l => ∀ regs vsp, load_regs l (reg (vrs u) 13) (vrs u) = Some (regs, vsp) →
      ∃ u', m u = Done None u' ∧ goes_on u u' bs (<[13%nat := vsp]> regs)
  | SetVsp r => ∃ u', m u = Done None u' ∧ goes_on u u' bs (<[13%nat := reg (vrs u) r]> (vrs u))
  | FinishUnwind => ∃ u', m u = Done (Some 0) u' ∧
      vrs u' = if reg (vrs u) 15 =? 0 then <[15%nat := reg (vrs u) 14]> (vrs u) else vrs u
  | SpareOp => ∃ u', m u = Done (Some (-1)) u' ∧ vrs u' = vrs u
  end.

Lemma goes_on_set u u1 bs regs v :
  goes_on u u1 bs regs → ∃ u', (set_vrs 13 v ;;; ret None) u1 = Done (@None Z) u' ∧ goes_on u u' bs (<[13%nat := v]> regs).
Proof.
  intros (Hs & <- & Hl & Hr). eexists. unfold bind. rewrite set_vrs_run by (done || lia). split; [reflexivity|].
  split_and!; [done|done|by rewrite length_insert|apply Hr|apply Hr].
Qed.

Lemma goes_on_refl u bs : stream u = Some bs → length (vrs u) = 16%nat → 0 <= remaining u → goes_on u u bs (vrs u).
Proof. intros. split_and!; done || lia. Qed.

(** The vsp instructions. *)
Lemma add_vsp_meaning k bs u : stream u = Some bs → length (vrs u) = 16%nat → 0 <= remaining u →
  op_meaning (AddVsp k) bs (vsp <- get_vrs 13 ;; set_vrs 13 (u32 (vsp + k)) ;;; ret None) u.
Proof.
  intros Hs Hl Hr. cbn. unfold bind at 1. rewrite get_vrs_run by (done || lia). by apply goes_on_set, goes_on_refl.
Qed.

(** A step that leaves the registers alone, in front. *)
Lemma op_meaning_bind {A} op bs (m : M ucb A) k a u u1 :
  m u = Done a u1 → vrs u1 = vrs u → remaining u1 <= remaining u → op_meaning op bs (k a) u1 → op_meaning op bs (bind m k) u.
Proof.
  intros Em Ev Hr Hk. unfold bind.
  assert (∀ u' bs regs, goes_on u1 u' bs regs → goes_on u u' bs regs) as Hmono.
  { intros u' bs' regs (? & ? & ? & ? & ?). split_and!; done || lia. }
  destruct op as [k0| |l|r| |]; cbn in *; rewrite ?Em, <-?Ev; try done.
  - destruct Hk as (u' & E & G). exists u'. auto.
  - intros regs vsp Hload. destruct (Hk regs vsp Hload) as (u' & E & G). exists u'. auto.
  - destruct Hk as (u' & E & G). exists u'. auto.
Qed.

Lemma operand_run u b2 bs : stream u = Some (b2 :: bs) → length (vrs u) = 16%nat → 0 <= remaining u →
  ∃ u1, unwind_get_next_byte word_at u = Done b2 u1 ∧ stream u1 = Some bs ∧ vrs u1 = vrs u ∧ length (vrs u1) = 16%nat ∧
    0 <= remaining u1 <= remaining u ∧ 0 <= b2 < 256.
Proof.
  intros Hs Hl Hr. destruct (next_byte_run u b2 bs Hr Hs) as (u1 & E & Es & Ev & E1 & E2 & Eb).
  exists u1. split_and!; try done; try lia. by rewrite Ev.
Qed.

Lemma pop_list_meaning n fuel mask r bs u : 0 <= mask < 2 ^ Z.of_nat n → (n < fuel)%nat → 0 <= r → r + Z.of_nat n <= 16 →
  stream u = Some bs → length (vrs u) = 16%nat → 0 <= remaining u →
  op_meaning (PopList (mask_regs n mask r)) bs
    (vsp <- get_vrs 13 ;; vsp <- pop_mask word_at fuel mask r vsp ;; set_vrs 13 vsp ;;; ret None) u.
Proof.
  intros Hm Hf Hr0 Hn Hs Hl Hr regs vsp Hload. unfold bind at 1. rewrite get_vrs_run by (done || lia). unfold bind at 1.
  destruct (pop_mask_run n fuel mask r _ u regs vsp Hm Hf Hl Hr0 Hn Hload) as [-> Hlen].
  apply goes_on_set. split_and!; done || lia.
Qed.

(** The vsp instructions with an operand. *)
Lemma vsp_operand_meaning k f b2 bs u : stream u = Some (b2 :: bs) → length (vrs u) = 16%nat → 0 <= remaining u →
  (∀ vsp, 0 <= b2 < 256 → f vsp b2 = u32 (vsp + k)) →
  op_meaning (AddVsp k) bs (vsp <- get_vrs 13 ;; next <- unwind_get_next_byte word_at ;; set_vrs 13 (f vsp next) ;;; ret None) u.
Proof.
  intros Hs Hl Hr Hf. destruct (operand_run u b2 bs Hs Hl Hr) as (u1 & E & Es & Ev & El & [Er1 Er2] & Hb2).
  cbn [op_meaning]. unfold bind at 1. rewrite get_vrs_run by (done || lia). unfold bind at 1. rewrite E, Hf by done.
  apply goes_on_set. rewrite <-Ev. split_and!; done || lia.
Qed.

Lemma some_pair {A B} (x a : A) (y b : B) : Some (x, y) = Some (a, b) → a = x ∧ b = y.
Proof. by intros [= <- <-]. Qed.

(** The range conditions of a byte in a known range. *)
Ltac settle_ranges :=
  repeat match goal with
  | |- context [in_range ?lo ?hi ?b] =>
      first [rewrite (in_range_true lo hi b) by lia | rewrite (in_range_false lo hi b) by lia]
  | |- context [?x =? ?y] => rewrite (proj2 (Z.eqb_neq x y)) by lia
  end; cbn [andb orb negb].

Lemma read_alike_byte b rest : b ≠ 0xb1 → b ≠ 0xb2 → read_alike (b :: rest) = true → ¬ 0xc0 <= b < 0xc8.
Proof.
  intros H1 H2 Ha Hb. unfold read_alike in Ha.
  rewrite (proj2 (Z.eqb_neq b 0xb1)), (proj2 (Z.eqb_neq b 0xb2)), (proj2 (Z.leb_le 0xc0 b)), (proj2 (Z.ltb_lt b 0xc8)) in Ha by lia. done.
Qed.

Lemma execute_one_meaning b rest op bs u :
  0 <= b < 256 → stream u = Some rest → length (vrs u) = 16%nat → 0 <= remaining u →
  read_alike (b :: rest) = true → decode (b :: rest) = Some (op, bs) → op_meaning op bs (execute_one word_at b) u.
Proof.
  intros Hb Hs Hl Hr Ha Hd. destruct (mask_ranges b Hb) as (R1 & R2 & R3 & R4 & R5 & R6 & R7).
  destruct (byte_fields b Hb) as (F1 & F2 & F3 & F4). unfold execute_one. cbv zeta.
  rewrite R1, R2, R3, R4, R5, R6, R7. clear R1 R2 R3 R4 R5 R6 R7. cbn [decode] in Hd.
  destruct (Z.ltb_spec b 0x40); [apply some_pair in Hd as [-> ->]|destruct (Z.ltb_spec b 0x80); [apply some_pair in Hd as [-> ->]|
    destruct (Z.ltb_spec b 0x90); [|destruct (Z.ltb_spec b 0xa0); [apply some_pair in Hd as [-> ->]|
    destruct (Z.ltb_spec b 0xa8); [apply some_pair in Hd as [-> ->]|destruct (Z.ltb_spec b 0xb0); [apply some_pair in Hd as [-> ->]|]]]]]].
  - settle_ranges. rewrite F1, Z.mod_small, Z.shiftl_mul_pow2 by lia. replace (b * 2 ^ 2 + 4) with (4 * b + 4) by lia.
    by apply add_vsp_meaning.
  - settle_ranges. rewrite F1, Z.shiftl_mul_pow2 by lia.
    replace (b mod 64 * 2 ^ 2 + 4) with (4 * (b - 64) + 4) by (Z.div_mod_to_equations; lia).
    by apply (add_vsp_meaning (- (4 * (b - 64) + 4))).
  - settle_ranges. unfold operand in Hd. destruct rest as [|b2 rest]; [done|]. apply some_pair in Hd as [-> ->].
    destruct (operand_run u b2 rest Hs Hl Hr) as (u1 & E & Es & Ev & El & [Er1 Er2] & Hb2).
    apply (op_meaning_bind _ _ _ _ b2 u u1 E Ev Er2).
    set (mask := (b - 128) * 256 + b2). assert (0 <= mask < 2 ^ Z.of_nat 12) as Hmask by (unfold mask; cbn; lia).
    assert (Z.lor (u32 (Z.shiftl b 8)) (u32 b2) = 0x8000 + mask) as ->.
    { rewrite !u32_small; [|unfold is_u32, word; lia|rewrite Z.shiftl_mul_pow2 by lia; unfold is_u32, word; lia].
      rewrite lor_low_bits by lia. unfold mask. lia. }
    assert (Z.land (0x8000 + mask) 4095 = mask) as ->.
    { change 4095 with (Z.ones 12). rewrite Z.land_ones by done. change 0x8000 with (8 * 2 ^ 12).
      rewrite Z.add_comm, Z_mod_plus_full. by apply Z.mod_small. }
    destruct (Z.eqb_spec mask 0) as [->|Hne]; [by exists u1|].
    rewrite (proj2 (Z.eqb_neq (0x8000 + mask) 0x8000)) by lia.
    rewrite Z.land_0_l. cbn [Z.eqb when].
    refine (pop_list_meaning 12 13 mask 4 rest u1 _ _ _ _ Es El Er1); lia.
  - assert (b mod 16 = b - 0x90) as Em by (Z.div_mod_to_equations; lia). settle_ranges. rewrite F3, Em.
    destruct (Z.eqb_spec b 0x9d) as [->|]; [|destruct (Z.eqb_spec b 0x9f) as [->|]]; cbn [andb orb negb].
    1, 2: by exists u.
    cbn [op_meaning]. unfold bind at 1. rewrite get_vrs_run by (done || lia). by apply goes_on_set, goes_on_refl.
  - assert (b mod 16 = b - 0xa0 ∧ b mod 8 = b - 0xa0) as [Em Em8] by (split; Z.div_mod_to_equations; lia).
    settle_ranges. rewrite F2, F4, Em, Em8. intros regs vsp Hload.
    unfold bind at 1. rewrite get_vrs_run by (done || lia). unfold bind at 1.
    destruct (pop_range_run _ (Z.to_nat (b - 0xa0 + 1)) 4 _ u regs vsp ltac:(rewrite Z2Nat.id by lia; reflexivity) Hl ltac:(lia) ltac:(lia) Hload) as [-> Hlen].
    rewrite (proj2 (Z.leb_gt 8 (b - 0xa0))) by lia. unfold bind at 1, ret at 1. apply goes_on_set. split_and!; done || lia.
  - assert (b mod 16 = b - 0xa0 ∧ b mod 8 = b - 0xa8) as [Em Em8] by (split; Z.div_mod_to_equations; lia).
    settle_ranges. rewrite F2, F4, Em, Em8. intros regs vsp Hload.
    apply load_regs_app in Hload as (regs2 & vsp2 & Hload & Hlast).
    unfold bind at 1. rewrite get_vrs_run by (done || lia). unfold bind at 1.
    destruct (pop_range_run _ (Z.to_nat (b - 0xa8 + 1)) 4 _ u regs2 vsp2 ltac:(rewrite Z2Nat.id by lia; reflexivity) Hl ltac:(lia) ltac:(lia) Hload) as [-> Hlen].
    rewrite (proj2 (Z.leb_le 8 (b - 0xa0))) by lia. cbn [load_regs] in Hlast.
    unfold bind at 1, bind at 1, read_word, get_opt. destruct (word_at (u32 vsp2)) as [w|]; [|done].
    cbn in Hlast. injection Hlast as <- <-. unfold bind at 1. rewrite set_vrs_run by (done || lia). unfold ret at 1.
    apply goes_on_set. split_and!; rsimp; rewrite ?length_insert; done || lia.
  - do 3 (rewrite in_range_false by lia). cbn [andb orb negb]. rewrite in_range_false by lia. cbn [andb].
    rewrite (in_range_false 0xa0 0xb0) by lia.
    destruct (Z.eqb_spec b 0xb0) as [->|]; [|destruct (Z.eqb_spec b 0xb1) as [->|]; [|destruct (Z.eqb_spec b 0xb2) as [->|];
      [|destruct (Z.eqb_spec b 0xb3) as [->|]]]]; cbn [orb].
    + apply some_pair in Hd as [-> ->]. cbn [op_meaning]. unfold bind at 1. rewrite get_vrs_run by (done || lia).
      destruct (reg (vrs u) 15 =? 0); unfold when; [|by exists u].
      eexists. unfold bind at 1, bind at 1. rewrite get_vrs_run by (done || lia). rewrite set_vrs_run by (done || lia). done.
    + unfold operand in Hd. destruct rest as [|b2 rest]; [done|]. cbn in Ha. rewrite Ha in Hd. apply some_pair in Hd as [-> ->].
      destruct (operand_run u b2 rest Hs Hl Hr) as (u1 & E & Es & Ev & El & [Er1 Er2] & Hb2).
      intros regs vsp Hload. rewrite <-Ev in Hload.
      destruct (pop_mask_run 4 33 b2 0 _ u1 regs vsp ltac:(cbn; lia) ltac:(lia) El ltac:(lia) ltac:(lia) Hload) as [Hp Hlen].
      unfold bind at 1. rewrite get_vrs_run, <-Ev by (done || lia). unfold bind at 1. rewrite E.
      rewrite u32_small by (unfold is_u32, word; lia). unfold bind at 1. rewrite Hp.
      apply goes_on_set. split_and!; done || (rsimp; lia).
    + destruct rest as [|b2 rest]; [done|]. cbn in Ha. cbn [uleb128] in Hd. rewrite Ha in Hd. cbn in Hd. apply some_pair in Hd as [-> ->].
      apply (vsp_operand_meaning _ (λ vsp next, u32 (vsp + 0x204 + Z.shiftl next 2)) b2); try done.
      intros vsp Hb2. rewrite Z.shiftl_mul_pow2 by done. f_equal. lia.
    + unfold operand in Hd. destruct rest as [|b2 rest]; [done|]. apply some_pair in Hd as [-> ->].
      apply (vsp_operand_meaning _ (λ vsp next, u32 (u32 (vsp + 4 * (2 * (Z.land next 15 + 1))) + 4)) b2); try done.
      intros vsp Hb2. change 15 with (Z.ones 4). rewrite Z.land_ones, u32_add_idemp by done. change (2 ^ 4) with 16. f_equal. lia.
    + destruct (Z.ltb_spec b 0xb8); [apply some_pair in Hd as [-> ->]|].
      { settle_ranges. by exists u. }
      destruct (Z.ltb_spec b 0xc0); [apply some_pair in Hd as [-> ->]|].
      { settle_ranges. assert (b mod 8 = b - 0xb8) as Em by (Z.div_mod_to_equations; lia). rewrite F2, Em.
        cbn [op_meaning]. unfold bind at 1. rewrite get_vrs_run by (done || lia).
        rewrite u32_add_idemp. replace (8 * (b - 184 + 1) + 4) with (4 * (2 * (b - 184 + 1)) + 4) by lia.
        rewrite Z.add_assoc. by apply goes_on_set, goes_on_refl. }
      assert (¬ 0xc0 <= b < 0xc8) as Hw by (by apply (read_alike_byte b rest)).
      rewrite (proj2 (Z.ltb_ge b 0xc6)), (proj2 (Z.eqb_neq b 0xc6)), (proj2 (Z.eqb_neq b 0xc7)) in Hd by lia.
      destruct (Z.ltb_spec b 0xca).
      { unfold operand in Hd. destruct rest as [|b2 rest]; [done|]. apply some_pair in Hd as [-> ->].
        replace ((b =? 200) || (b =? 201)) with true by (assert (b = 200 ∨ b = 201) as [-> | ->] by lia; done).
        apply (vsp_operand_meaning _ (λ vsp next, u32 (vsp + 4 * (2 * (Z.land next 15 + 1)))) b2); try done.
        intros vsp Hb2. change 15 with (Z.ones 4). rewrite Z.land_ones by done. change (2 ^ 4) with 16. f_equal. lia. }
      settle_ranges.
      destruct (Z.ltb_spec b 0xd0); [apply some_pair in Hd as [-> ->]|].
      { settle_ranges. by exists u. }
      destruct (Z.ltb_spec b 0xd8); apply some_pair in Hd as [-> ->]; settle_ranges; [|by exists u].
      assert (b mod 8 = b - 0xd0) as Em by (Z.div_mod_to_equations; lia). rewrite F2, Em.
      cbn [op_meaning]. unfold bind at 1. rewrite get_vrs_run by (done || lia).
      replace (8 * (b - 208 + 1)) with (4 * (2 * (b - 208 + 1))) by lia. by apply goes_on_set, goes_on_refl.
Qed.

(** ** The interpreter *)
Lemma uleb128_shorter bs : ∀ v rest, uleb128 bs = Some (v, rest) → (length rest < length bs)%nat.
Proof.
  induction bs as [|b bs IH]; intros v rest H; cbn [uleb128] in H; [done|].
  destruct (b <? 0x80); [by simplify_eq/=; lia|].
  destruct (uleb128 bs) as [[v1 rest1]|]; [|done]. simplify_eq/=. specialize (IH _ _ eq_refl). lia.
Qed.

Lemma operand_shorter rest f op bs : operand rest f = Some (op, bs) → (length bs < length rest)%nat.
Proof. destruct rest; [done|]. intros [= _ <-]. cbn. lia. Qed.

Lemma decode_shorter bs op rest : decode bs = Some (op, rest) → (length rest < length bs)%nat.
Proof.
  destruct bs as [|b bs]; [done|]. cbn [decode length]. intros Hd.
  repeat match type of Hd with (if ?c then _ else _) = _ => destruct c end;
    try (apply operand_shorter in Hd; lia); try (injection Hd as <- <-; lia).
  destruct (uleb128 bs) as [[v bs1]|] eqn:E; [|done]. apply uleb128_shorter in E. cbn in Hd. injection Hd as <- <-. lia.
Qed.

Lemma stream_nil u : 0 <= remaining u → stream u = Some [] → remaining u = 0.
Proof.
  intros Hr Hs. unfold stream in Hs. destruct (Z.to_nat (remaining u)) as [|n] eqn:En; [lia|]. cbn in Hs.
  destruct (word_at (u32 (current u))); [cbn in Hs|done]. by destruct (if byte u - 1 <? 0 then _ else _).
Qed.

Lemma execute_end fuel u : remaining u = 0 → unwind_execute_instruction word_at (S fuel) u = Done 0 u.
Proof. intros E. cbn [unwind_execute_instruction]. unfold bind at 1. by rewrite next_byte_end. Qed.

(** A run that goes on after an instruction. *)
Lemma execute_step fuel b u u1 done u2 : unwind_get_next_byte word_at u = Done b u1 → 0 <= b < 256 →
  execute_one word_at b u1 = Done done u2 →
  unwind_execute_instruction word_at (S fuel) u =
    match done with Some r => Done r u2 | None => unwind_execute_instruction word_at fuel u2 end.
Proof.
  intros E Hb E1. cbn [unwind_execute_instruction]. unfold bind at 1. rewrite E, u32_small by (unfold is_u32, word; lia).
  rewrite (proj2 (Z.eqb_neq b UINT32_MAX)) by (unfold UINT32_MAX; lia). cbn [negb]. unfold bind. rewrite E1. by destruct done.
Qed.

Lemma execute_refines : ∀ n fuel bs u r regs, 0 <= remaining u → length (vrs u) = 16%nat → stream u = Some bs →
  (length bs <= n)%nat → (length bs < fuel)%nat → implemented n bs = true → interpret n bs (vrs u) = Some (r, regs) →
  ∃ u', unwind_execute_instruction word_at fuel u = Done r u' ∧ vrs u' = regs.
Proof.
  assert (∀ n regs0, interpret n [] regs0 = Some (0, regs0)) as Hnil by (by intros []).
  induction n as [|n IH]; intros fuel bs u r regs Hr Hl Hs Hn Hf Him Hi; (destruct fuel as [|fuel]; [lia|]);
    (destruct bs as [|b bs]; [rewrite Hnil in Hi; injection Hi as <- <-; exists u; split; [by apply execute_end, stream_nil|done]|]).
  { cbn in Hn. lia. }
  destruct (next_byte_run u b bs Hr Hs) as (u1 & E & Es & Ev & Er & Er1 & Hb).
  cbn [interpret] in Hi. cbn [implemented] in Him. destruct (decode (b :: bs)) as [[op rest]|] eqn:Ed; [|done].
  apply andb_true_iff in Him as [[Ha Hc]%andb_true_iff Him].
  pose proof (decode_shorter _ _ _ Ed) as Hshort. rewrite <-Ev in Hl, Hi.
  pose proof (execute_one_meaning b bs op rest u1 Hb Es Hl Er1 Ha Ed) as Hm. cbn [mbind option_bind] in Hi.
  assert (∀ u2 regs2, goes_on u1 u2 rest regs2 → execute_one word_at b u1 = Done None u2 →
    implemented n rest = true → interpret n rest regs2 = Some (r, regs) →
    ∃ u', unwind_execute_instruction word_at (S fuel) u = Done r u' ∧ vrs u' = regs) as Hgo.
  { intros u2 regs2 (Hs2 & <- & Hl2 & Hr2 & _) E2 Him2 Hi2. rewrite (execute_step _ _ _ _ _ _ E Hb E2).
    apply (IH fuel rest u2); try done; cbn in *; lia. }
  destruct op as [k| |l|r0| |]; cbn [op_meaning] in Hm.
  - destruct Hm as (u2 & E2 & G). by eapply Hgo.
  - destruct Hm as (u2 & E2 & V). injection Hi as <- <-. exists u2. by rewrite (execute_step _ _ _ _ _ _ E Hb E2).
  - destruct (load_regs l (reg (vrs u1) 13) (vrs u1)) as [[regs2 vsp]|] eqn:Eload; [|done].
    destruct (Hm regs2 vsp eq_refl) as (u2 & E2 & G). cbn in Hc, Hi. apply bool_decide_eq_true in Hc.
    rewrite bool_decide_eq_false_2 in Hi by done. by eapply Hgo.
  - destruct Hm as (u2 & E2 & G). by eapply Hgo.
  - destruct Hm as (u2 & E2 & V). injection Hi as <- <-. exists u2. by rewrite (execute_step _ _ _ _ _ _ E Hb E2).
  - destruct Hm as (u2 & E2 & V). injection Hi as <- <-. exists u2. by rewrite (execute_step _ _ _ _ _ _ E Hb E2).
Qed.

(** ** The bound on a run, whatever the memory holds *)
Definition keeps (u u' : ucb) : Prop := remaining u' = remaining u ∧ length (vrs u') = length (vrs u).
Lemma keeps_trans u1 u2 u3 : keeps u1 u2 → keeps u2 u3 → keeps u1 u3.
Proof. intros [A1 A2] [B1 B2]. split; congruence. Qed.

Section traps.
Context (F : fault → Prop) {TF : Traps F}.
Local Notation safe := (safe_in F).

Lemma safe_read a (Q : Z → ucb → Prop) u : (∀ v, Q v u) → safe (read_word word_at a) Q u.
Proof. intros HQ. apply (@safe_read_word word_at F TF). auto. Qed.

Lemma safe_get_vrs r (Q : Z → ucb → Prop) u : (∀ v, Q v u) → safe (get_vrs r) Q u.
Proof. intros HQ. apply safe_get_opt. auto. Qed.

Lemma safe_set_vrs r v (Q : unit → ucb → Prop) u :
  F Overrun ∨ 0 <= r < Z.of_nat (length (vrs u)) → (∀ u', keeps u u' → Q tt u') → safe (set_vrs r v) Q u.
Proof.
  intros HF HQ. unfold set_vrs, safe_in, bind, get_opt. destruct (vrs u !! Z.to_nat r) eqn:E.
  - apply HQ. split; [done|]. rsimp. by rewrite length_insert.
  - destruct HF as [HF|Hr]; [done|]. apply lookup_ge_None in E. lia.
Qed.

Lemma safe_next (Q : Z → ucb → Prop) u : 0 <= remaining u →
  (remaining u = 0 → Q (-1) u) →
  (∀ b u', 0 <= b < 256 → remaining u' = remaining u - 1 → vrs u' = vrs u → 0 < remaining u → Q b u') →
  safe (unwind_get_next_byte word_at) Q u.
Proof.
  intros Hr H0 HQ. unfold unwind_get_next_byte. apply safe_bind, safe_gets, safe_if; intros E; [apply Z.eqb_eq in E; by apply safe_ret, H0|].
  apply Z.eqb_neq in E. apply safe_bind, safe_gets, safe_bind. apply safe_read. intros w.
  apply safe_bind, safe_gets. cbv zeta. apply safe_bind, safe_upd, safe_bind, safe_gets.
  set (b := Z.land _ _). assert (0 <= b < 256) as Hb.
  { unfold b. change 0xff with (Z.ones 8). rewrite Z.land_ones by done. by apply Z.mod_pos_bound. }
  apply safe_bind. unfold when. apply safe_if; intros _; [apply safe_upd|apply safe_ret];
    apply safe_bind, safe_upd, safe_ret, HQ; rsimp; done || lia.
Qed.

Lemma safe_pop_mask n : ∀ fuel mask r vsp (Q : Z → ucb → Prop) u, 0 <= mask < 2 ^ Z.of_nat n → (n < fuel)%nat → 0 <= r →
  F Overrun ∨ r + Z.of_nat n <= Z.of_nat (length (vrs u)) →
  (∀ v u', keeps u u' → Q v u') → safe (pop_mask word_at fuel mask r vsp) Q u.
Proof.
  induction n as [|n IH]; intros [|fuel] mask r vsp Q u Hm Hf Hr HF HQ; try lia; cbn [pop_mask]; apply safe_if; intros E.
  - by apply safe_ret, HQ.
  - apply Z.eqb_neq in E. change (2 ^ Z.of_nat 0) with 1 in Hm. lia.
  - by apply safe_ret, HQ.
  - assert (0 <= Z.shiftr mask 1 < 2 ^ Z.of_nat n) as Hm2.
    { rewrite Z.shiftr_div_pow2 by done. change (2 ^ 1) with 2. rewrite Nat2Z.inj_succ, Z.pow_succ_r in Hm by lia.
      Z.div_mod_to_equations. lia. }
    apply safe_bind, safe_if; intros _.
    + apply safe_bind, safe_read. intros w. apply safe_bind, safe_set_vrs; [destruct HF; [by left|right; lia]|].
      intros u1 K. apply safe_ret. destruct K as [K1 K2].
      apply IH; [done|lia|lia|rewrite K2; destruct HF; [by left|right; lia]|]. intros v u2 K3. by apply HQ, (keeps_trans _ u1).
    + apply safe_ret, IH; [done|lia|lia|destruct HF; [by left|right; lia]|done].
Qed.

Lemma safe_pop_range n : ∀ r vsp (Q : Z → ucb → Prop) u, 0 <= r → r + Z.of_nat n <= Z.of_nat (length (vrs u)) →
  (∀ v u', keeps u u' → Q v u') → safe (pop_range word_at n r vsp) Q u.
Proof.
  induction n as [|n IH]; intros r vsp Q u Hr Hn HQ; cbn [pop_range]; [by apply safe_ret, HQ|].
  apply safe_bind, safe_read. intros w. apply safe_bind, safe_set_vrs; [right; lia|]. intros u1 [K1 K2].
  apply IH; [lia|lia|]. intros v u2 K3. by apply HQ, (keeps_trans _ u1).
Qed.

Definition after_one (u : ucb) (done : option Z) (u' : ucb) : Prop :=
  0 <= remaining u' <= remaining u ∧ length (vrs u') = 16%nat ∧ ∀ r, done = Some r → r = 0 ∨ r = -1.

Lemma safe_set_sp v u u1 : 0 <= remaining u1 <= remaining u → length (vrs u1) = 16%nat →
  safe (set_vrs 13 v ;;; ret None) (after_one u) u1.
Proof. intros Hr Hl. apply safe_bind, safe_set_vrs; [right; lia|]. intros u' [K1 K2]. apply safe_ret. split_and!; [lia|lia|lia|done]. Qed.

(** One instruction overruns the registers only where it is 0xb1 without its
    mask. *)
Lemma execute_one_safe b u : 0 <= b < 256 → 0 <= remaining u → length (vrs u) = 16%nat →
  (b = 0xb1 → remaining u = 0 → F Overrun) → safe (execute_one word_at b) (after_one u) u.
Proof.
  intros Hb Hr Hl HF. assert (0 <= remaining u <= remaining u) as Hrr by lia. unfold execute_one. cbv zeta.
  repeat (apply safe_if; intros ?).
  - apply safe_bind, safe_get_vrs. intros v. by apply safe_set_sp.
  - apply safe_bind, safe_get_vrs. intros v. by apply safe_set_sp.
  - apply safe_bind, safe_next; [done|intros E|intros b2 u1 Hb2 E Ev E0; rewrite <-Ev in Hl].
    all: apply safe_if; intros _; [apply safe_ret; split_and!; [lia|lia|done|intros r [= <-]; by left]|].
    all: apply safe_bind, safe_get_vrs; intros v; apply safe_bind.
    all: apply (safe_pop_mask 12); [change 4095 with (Z.ones 12); rewrite Z.land_ones by done; by apply Z.mod_pos_bound|lia|lia|right; lia|].
    all: intros w u2 [K1 K2]; rewrite Z.land_0_l; cbn [Z.eqb when]; apply safe_set_sp; lia.
  - apply safe_bind, safe_get_vrs. intros v. by apply safe_set_sp.
  - apply safe_bind, safe_get_vrs. intros v. rewrite (proj1 (proj2 (byte_fields b Hb))).
    pose proof (Z.mod_pos_bound b 8 eq_refl). apply safe_bind, safe_pop_range; [lia|lia|].
    intros vsp u1 [K1 K2]. apply safe_bind, safe_if; intros _.
    + apply safe_bind, safe_read. intros w. apply safe_bind, safe_set_vrs; [right; lia|]. intros u2 [K3 K4].
      apply safe_ret, safe_set_sp; lia.
    + apply safe_ret, safe_set_sp; lia.
  - apply safe_bind, safe_get_vrs. intros v. apply safe_bind. unfold when. apply safe_if; intros _.
    + apply safe_bind, safe_get_vrs. intros l. apply safe_set_vrs; [right; lia|]. intros u1 [K1 K2]. apply safe_ret.
      split_and!; [lia|lia|lia|]. intros r [= <-]. by left.
    + apply safe_ret, safe_ret. split_and!; [lia|lia|done|]. intros r [= <-]. by left.
  - apply safe_bind, safe_get_vrs. intros v. apply safe_bind, safe_next; [done|intros E|intros b2 u1 Hb2 E Ev E0; rewrite <-Ev in Hl].
    + apply safe_bind, (safe_pop_mask 32); [apply u32_range|lia|lia|left; apply HF; [lia|done]|].
      intros w u2 [K1 K2]. apply safe_set_sp; lia.
    + apply safe_bind, (safe_pop_mask 8); [rewrite u32_small by (unfold is_u32, word; lia); exact Hb2|lia|lia|right; lia|].
      intros w u2 [K1 K2]. apply safe_set_sp; lia.
  - apply safe_bind, safe_get_vrs. intros v. apply safe_bind, safe_next; [done|intros E|intros b2 u1 Hb2 E Ev E0; rewrite <-Ev in Hl]; apply safe_set_sp; lia.
  - apply safe_bind, safe_get_vrs. intros v. apply safe_bind, safe_next; [done|intros E|intros b2 u1 Hb2 E Ev E0; rewrite <-Ev in Hl]; apply safe_set_sp; lia.
  - apply safe_bind, safe_get_vrs. intros v. by apply safe_set_sp.
  - apply safe_ret. split_and!; [lia|lia|done|]. intros r [= <-]. by right.
Qed.
End traps.

Lemma only_missing_mask_overruns b u : 0 <= b < 256 → 0 <= remaining u → length (vrs u) = 16%nat →
  execute_one word_at b u = Fault Overrun → b = 0xb1 ∧ remaining u = 0.
Proof.
  intros Hb Hr Hl E. pose proof (@execute_one_safe (λ f, f = BadPointer ∨ (f = Overrun ∧ b = 0xb1 ∧ remaining u = 0))
    (or_introl eq_refl) b u Hb Hr Hl (λ H1 H2, or_intror (conj eq_refl (conj H1 H2)))) as H.
  unfold safe_in in H. rewrite E in H. destruct H as [H|(_ & H1 & H2)]; [discriminate H|done].
Qed.

(** A mask of [m] ones pops past the last register, when it has more ones than
    registers are left. *)
Lemma pop_ones_overruns (Hw : ∀ a, is_Some (word_at (u32 a))) k : ∀ fuel m r vsp u,
  (k < fuel)%nat → Z.of_nat k < m → 0 <= r → r + Z.of_nat k = 16 → length (vrs u) = 16%nat →
  pop_mask word_at fuel (Z.ones m) r vsp u = Fault Overrun.
Proof.
  induction k as [|k IH]; intros [|fuel] m r vsp u Hf Hm Hr Hk Hl; try lia; cbn [pop_mask].
  all: assert (Z.ones m = 1 + 2 * Z.ones (m - 1)) as Eo
    by (rewrite !Z.ones_equiv; replace m with (Z.succ (m - 1)) at 1 by lia; rewrite Z.pow_succ_r by lia; lia).
  all: assert (0 <= Z.ones (m - 1)) as Hp by (rewrite Z.ones_equiv; pose proof (Z.pow_pos_nonneg 2 (m - 1)); lia).
  all: rewrite (proj2 (Z.eqb_neq (Z.ones m) 0)) by lia; rewrite has_1.
  all: replace (Z.odd (Z.ones m)) with true by (rewrite Eo, Z.odd_add, Z.odd_mul; done).
  all: destruct (Hw vsp) as [w Ew]; unfold bind at 1, bind at 1, read_word, get_opt; rewrite Ew; unfold bind at 1.
  - unfold set_vrs, bind, get_opt. rewrite (proj2 (lookup_ge_None (vrs u) (Z.to_nat r))) by lia. done.
  - rewrite set_vrs_run by (done || lia). unfold ret. rewrite Z.shiftr_div_pow2 by done.
    change (2 ^ 1) with 2. rewrite Eo. replace ((1 + 2 * Z.ones (m - 1)) / 2) with (Z.ones (m - 1)) by (Z.div_mod_to_equations; lia).
    apply IH; try lia. rsimp. by rewrite length_insert.
Qed.

Lemma execute_safe fuel : ∀ u, 0 <= remaining u < Z.of_nat fuel → length (vrs u) = 16%nat →
  safe (unwind_execute_instruction word_at fuel) (λ r u', length (vrs u') = 16%nat ∧ (r = 0 ∨ r = -1)) u.
Proof.
  induction fuel as [|fuel IH]; intros u Hr Hl; [lia|]. cbn [unwind_execute_instruction]. cbv zeta.
  apply safe_bind, safe_next; [apply _|lia|intros E|intros b u1 Hb E Ev E0; rewrite <-Ev in Hl].
  - change (u32 (-1) =? UINT32_MAX) with true. cbn [negb]. apply safe_ret. auto.
  - rewrite u32_small by (unfold is_u32, word; lia). rewrite (proj2 (Z.eqb_neq b UINT32_MAX)) by (unfold UINT32_MAX; lia).
    cbn [negb]. apply safe_bind. eapply safe_mono; [apply execute_one_safe; [apply _|done|lia|done|by right]|].
    intros [r|] u2 (Hr2 & Hl2 & Hd); [apply safe_ret; auto|apply IH; lia].
Qed.
End interpreter.
