(* ===== verification/BacktraceClaims.v ===== *)
(** * Properties of the unwinder

    Relative addresses, the search against a linear one, the interpreter
    against the ABI's table, the end and the bounds of every walk, and the
    places where the code departs from what it means; with a small program's
    stack, index and unwind table. *)
From S2P Require Import Prelude Backtrace BacktraceLaws UnwindLaws.

Section claims.
Context (word_at : Z → option Z) (exidx_start exidx_end entry_point PSP : Z).

(** A relative reference read back is the address it was made for, wherever
    both are in the lower half of the address space and less than 2^30 apart;
    and any word at all stands for an offset of that range. *)
Theorem prel31_round_trip place target (s : unit) :
  0 <= place < 2 ^ 31 → 0 <= target < 2 ^ 31 → - 2 ^ 30 <= target - place < 2 ^ 30 →
  word_at place = Some (prel31_word place target) →
  prel31_to_addr word_at place s = Done target s ∧ ∀ w, - 2 ^ 30 <= prel31_offset w < 2 ^ 30.
Proof. intros Hp Ht Hd Hw. split; [by apply prel31_run|apply prel31_range]. Qed.

(** C28: The binary search returns what walking the whole table does: the last
    entry whose address is not above the instruction pointer (the first entry
    when there is none), for any table of one entry or more, within its fuel. *)
Theorem unwind_search_is_linear addrs ip (s : unit) :
  index_table word_at exidx_start exidx_end addrs → addrs ≠ [] →
  unwind_search_index word_at exidx_start exidx_end ip s =
    Done (entry_addr exidx_start (Z.of_nat (linear_search addrs ip))) s.
Proof. apply search_linear. Qed.

(** C12: The interpreter refines the instruction table of the exception handling
    ABI: on any stream of bytes to which the table gives a meaning, it returns
    the table's result with the table's registers, if the stream keeps to the
    instructions the interpreter implements ([implemented]).  It does not
    implement four encodings: a list that pops r13
    ([popped_stack_pointer_lost]), an operand of 0xb2 of more than one byte
    ([wide_operand_truncated]), the masks of 0xb1 the table keeps spare, which
    it pops, and the registers of Wireless MMX, which it refuses. *)
Theorem unwind_instructions_refine bs u r regs :
  0 <= remaining u → length (vrs u) = 16%nat → stream word_at u = Some bs → (length bs <= max_instructions)%nat →
  implemented max_instructions bs = true →
  interpret word_at max_instructions bs (vrs u) = Some (r, regs) →
  ∃ u', unwind_execute_instruction word_at (S max_instructions) u = Done r u' ∧ vrs u' = regs.
Proof. intros Hr Hl Hs Hn. apply execute_refines; done || lia. Qed.

(** ** The end and the bounds of a walk *)
Lemma safe_word {S} a (Q : Z → S → Prop) s : (∀ v, word_at (u32 a) = Some v → Q v s) → safe (read_word word_at a) Q s.
Proof. apply (@safe_read_word word_at unwind_fault unwind_traps). Qed.

Lemma safe_vrs r (Q : Z → unwind_control_block → Prop) u : (∀ v, Q v u) → safe (get_vrs r) Q u.
Proof. apply (@safe_get_vrs unwind_fault unwind_traps). Qed.

Lemma safe_prel31 {S} a (Q : Z → S → Prop) s : (∀ v, Q v s) → safe (prel31_to_addr word_at a) Q s.
Proof. intros HQ. apply safe_bind, safe_word. intros v _. by apply safe_ret. Qed.

Lemma safe_search {S} ip fuel : ∀ start end_ (Q : Z → S → Prop) s, (∀ v, Q v s) → (0 < fuel)%nat →
  end_ - start <= index_size ∨ (end_ - start) / index_size < Z.of_nat fuel →
  safe (search_from word_at fuel start end_ ip) Q s.
Proof.
  induction fuel as [|fuel IH]; intros start end_ Q s HQ Hpos Hf; [lia|]. cbn [search_from]. cbv zeta.
  apply safe_if; intros E; [|by apply safe_ret]. apply Z.ltb_lt in E. destruct Hf as [Hf|Hf]; [lia|].
  set (n := (end_ - start) / index_size) in *.
  assert (1 <= n ∧ index_size * n <= end_ - start < index_size * n + index_size) as [Hn Hd].
  { unfold n, index_size in *. Z.div_mod_to_equations. lia. }
  assert (1 <= Z.shiftr (n + 1) 1 ∧ (n = 1 ∨ Z.shiftr (n + 1) 1 < n)) as [Hk1 Hk2].
  { rewrite Z.shiftr_div_pow2 by done. change (2 ^ 1) with 2. Z.div_mod_to_equations. lia. }
  assert (n = 1 → Z.shiftr (n + 1) 1 = 1) as Hk3 by (intros ->; reflexivity).
  set (k := Z.shiftr (n + 1) 1) in *. unfold index_size in *.
  apply safe_bind, safe_prel31. intros addr. apply safe_if; intros _; (apply IH; [done|lia|]).
  - destruct (decide (k = 1)) as [->|]; [left; lia|right].
    replace (start + 8 * k - start) with (k * 8) by lia. rewrite Z.div_mul by done. lia.
  - destruct (decide (n = 1)) as [E1|]; [left; lia|right]. Z.div_mod_to_equations. lia.
Qed.

Lemma safe_search_index {S} ip (Q : Z → S → Prop) s : (∀ v, Q v s) → safe (unwind_search_index word_at exidx_start exidx_end ip) Q s.
Proof. intros HQ. apply safe_search; [done|lia|]. unfold index_entries. right. lia. Qed.

Lemma safe_function_name {S} a (Q : name → S → Prop) s : (∀ v, Q v s) → safe (unwind_get_function_name word_at a) Q s.
Proof.
  intros HQ. apply safe_if; intros _; [|by apply safe_ret]. apply safe_bind, safe_word. intros v _.
  apply safe_if; intros _; by apply safe_ret.
Qed.

Lemma safe_run_ucb {S A} (m : M unwind_control_block A) u (Q : A * unwind_control_block → S → Prop) s :
  safe m (λ a u', Q (a, u') s) u → safe (run_ucb m u) Q s.
Proof. unfold safe_in, run_ucb. by destruct (m u). Qed.

(** A register of the sixteen is set. *)
Lemma safe_set r v (Q : unit → unwind_control_block → Prop) u : length (vrs u) = 16%nat → 0 <= r < 16 →
  (∀ u', length (vrs u') = 16%nat → Q tt u') → safe (set_vrs r v) Q u.
Proof. intros Hl Hr HQ. apply safe_set_vrs; [right; lia|]. intros u' [_ K]. apply HQ. congruence. Qed.

Lemma safe_exception_return (Q : unit → unwind_control_block → Prop) u : length (vrs u) = 16%nat →
  (∀ u', Q tt u') → safe (exception_return word_at PSP) Q u.
Proof.
  intros Hl HQ. apply safe_bind, safe_vrs. intros v15. unfold when. apply safe_if; intros _; [|by apply safe_ret].
  apply safe_bind, safe_vrs. intros v7. apply safe_bind, safe_set; [done|done|]. intros u1 H1. cbv zeta.
  apply safe_bind, safe_word. intros p _. apply safe_bind, safe_set; [done|done|]. intros u2 H2.
  apply safe_bind, safe_word. intros l _. apply safe_set; [done|done|]. auto.
Qed.

Lemma safe_settle (Q : backtrace_frame → unwind_control_block → Prop) u : length (vrs u) = 16%nat → (∀ f u', Q f u') →
  safe (p <- get_vrs 15 ;; when (p =? 0) (l <- get_vrs 14 ;; set_vrs 15 l) ;;; exception_return word_at PSP ;;;
    v7 <- get_vrs 7 ;; v13 <- get_vrs 13 ;; v14 <- get_vrs 14 ;; v15 <- get_vrs 15 ;; ret (BacktraceFrame v7 v13 v14 v15)) Q u.
Proof.
  intros Hl HQ. apply safe_bind, safe_vrs. intros p. apply safe_bind.
  assert (∀ u', length (vrs u') = 16%nat → safe (exception_return word_at PSP ;;;
    v7 <- get_vrs 7 ;; v13 <- get_vrs 13 ;; v14 <- get_vrs 14 ;; v15 <- get_vrs 15 ;; ret (BacktraceFrame v7 v13 v14 v15)) Q u') as Hrest.
  { intros u' Hl'. apply safe_bind, safe_exception_return; [done|]. intros u1.
    do 4 (apply safe_bind, safe_vrs; intros ?). by apply safe_ret. }
  unfold when. apply safe_if; intros _; [|by apply safe_ret, Hrest]. apply safe_bind, safe_vrs. intros l.
  apply safe_set; [done|done|]. auto.
Qed.

(** The length byte of a long table keeps the stream within the fuel. *)
Lemma index_table_length w : 0 <= Z.shiftr (Z.land w 0x00ff0000) 14 + 2 < Z.of_nat (S max_instructions).
Proof.
  replace (Z.land w 0x00ff0000) with (Z.shiftl (Z.land (Z.shiftr w 16) 0xff) 16).
  - rewrite Z.shiftl_mul_pow2, Z.shiftr_div_pow2 by done.
    change 0xff with (Z.ones 8). rewrite Z.land_ones by done.
    pose proof (Z.mod_pos_bound (Z.shiftr w 16) (2 ^ 8) eq_refl).
    replace (2 ^ 16) with (4 * 2 ^ 14) by reflexivity. rewrite Z.mul_assoc, Z.div_mul by done.
    change (Z.of_nat (S max_instructions)) with 1023. lia.
  - rewrite Z.shiftl_land, <- Z.ldiff_ones_r by done. change (Z.shiftl 0xff 16) with 0x00ff0000.
    rewrite Z.ldiff_land, <- Z.land_assoc. f_equal.
Qed.

(** The results of one frame: an error or the end leave the frame alone, and a
    success moves it. *)
Definition frame_result (f : backtrace_frame) (r : Z) (f' : backtrace_frame) : Prop :=
  (r = -1 ∧ f' = f) ∨ (r = 0 ∧ f' = f) ∨ (r = 1 ∧ pc f' ≠ pc f).

Lemma unwind_frame_safe f :
  safe (unwind_frame word_at exidx_start exidx_end PSP) (frame_result f) f.
Proof.
  assert (∀ r, r = -1 ∨ r = 0 → safe (ret r) (frame_result f) f) as Hret.
  { intros r [->| ->]; apply safe_ret; [by left|by right; left]. }
  apply safe_bind, (safe_gets id), safe_bind, safe_search_index. intros index.
  apply safe_if; intros _; [by apply Hret; left|]. apply safe_bind, safe_word. intros insn _.
  apply safe_if; intros _; [by apply Hret; right|]. apply safe_bind.
  assert (∀ a, safe (block <- unwind_control_block_init word_at a f ;;
    match block with
    | inl _ => ret (-1)
    | inr block =>
        executed <- run_ucb (execute_while word_at 1) block ;;
        if fst executed =? -1 then ret (-1)
        else
          settled <- run_ucb (
            p <- get_vrs 15 ;; when (p =? 0) (l <- get_vrs 14 ;; set_vrs 15 l) ;;; exception_return word_at PSP ;;;
            v7 <- get_vrs 7 ;; v13 <- get_vrs 13 ;; v14 <- get_vrs 14 ;; v15 <- get_vrs 15 ;;
            ret (BacktraceFrame v7 v13 v14 v15)) (snd executed) ;;
          if pc f =? pc (fst settled) then ret 0 else upd (λ _, fst settled) ;;; ret 1
    end) (frame_result f) f) as Hrest.
  { intros a. apply safe_bind, safe_bind, safe_word. intros w _. cbv zeta.
    assert (∀ u, 0 <= remaining u < Z.of_nat (S max_instructions) → length (vrs u) = 16%nat → safe (executed <- run_ucb (execute_while word_at 1) u ;;
      if fst executed =? -1 then ret (-1)
      else
        settled <- run_ucb (
          p <- get_vrs 15 ;; when (p =? 0) (l <- get_vrs 14 ;; set_vrs 15 l) ;;; exception_return word_at PSP ;;;
          v7 <- get_vrs 7 ;; v13 <- get_vrs 13 ;; v14 <- get_vrs 14 ;; v15 <- get_vrs 15 ;;
          ret (BacktraceFrame v7 v13 v14 v15)) (snd executed) ;;
        if pc f =? pc (fst settled) then ret 0 else upd (λ _, fst settled) ;;; ret 1) (frame_result f) f) as Hrun.
    { intros u Hu Hl. apply safe_bind, safe_run_ucb, safe_bind. eapply safe_mono; [by apply execute_safe|].
      intros r u' [Hl' [->| ->]]; apply safe_if; intros E; try done; apply safe_ret; apply safe_if; intros E'; try done;
        [|by apply Hret; left].
      apply safe_bind, safe_run_ucb, safe_settle; [done|]. intros f' u2. apply safe_if; intros Epc; [by apply Hret; right|].
      apply safe_bind, safe_upd, safe_ret. right. right. split; [done|]. apply Z.eqb_neq in Epc. cbn in *. congruence. }
    apply safe_if; intros _; [apply safe_ret, Hrun; done|]. apply safe_if; intros _; apply safe_ret; [|by apply Hret; left].
    apply Hrun; [apply index_table_length|done]. }
  apply safe_if; intros _; [apply safe_ret, Hrest|apply safe_prel31; intros a; apply Hrest].
Qed.

Lemma safe_on_frame {A} (m : M backtrace_frame A) (Q : A → walk → Prop) w :
  safe m (λ a f, Q a (Walk f (buffer w))) (frame w) → safe (on_frame m) Q w.
Proof. unfold safe_in, on_frame. by destruct (m (frame w)). Qed.

Lemma safe_write_entry count e (Q : unit → walk → Prop) w : 0 <= count < Z.of_nat (length (buffer w)) →
  Q tt (Walk (frame w) (<[Z.to_nat count := e]> (buffer w))) → safe (write_entry count e) Q w.
Proof.
  intros Hc HQ. apply safe_bind. unfold safe_in, get_opt.
  destruct (lookup_lt_is_Some_2 (buffer w) (Z.to_nat count)) as [x ->]; [lia|]. exact HQ.
Qed.

(** What a turn does to the buffer: one entry more. *)
Definition one_more (count : Z) (w : walk) (r : Z * bool) (w' : walk) : Prop :=
  fst r = count + 1 ∧ ∃ e, buffer w' = <[Z.to_nat count := e]> (buffer w).

Lemma walk_turn_safe count w : 0 <= count < Z.of_nat (length (buffer w)) →
  safe (walk_turn word_at exidx_start exidx_end entry_point count) (one_more count w) w.
Proof.
  intros Hc. unfold walk_turn. apply safe_bind, safe_gets.
  do 3 (apply safe_if; intros _; [apply safe_bind, safe_write_entry; [done|]; apply safe_ret; split; [done|by eexists]|]).
  apply safe_bind, safe_search_index. intros index. apply safe_bind, safe_on_frame, safe_upd, safe_bind, safe_gets.
  apply safe_bind, safe_prel31. intros func. apply safe_bind, safe_function_name. intros n.
  apply safe_bind, safe_write_entry; [done|]. apply safe_ret. split; [done|by eexists].
Qed.

(** The count a walk returns is past where it began and within the buffer, and
    the entries from there on are as they were. *)
Definition walked (size count : Z) (w : walk) (c : Z) (w' : walk) : Prop :=
  count < c <= size ∧ length (buffer w') = length (buffer w) ∧ drop (Z.to_nat c) (buffer w') = drop (Z.to_nat c) (buffer w).

Lemma walk_from_safe size fuel : ∀ count w, 0 <= count < size → Z.of_nat (length (buffer w)) = size → size - count < Z.of_nat fuel →
  safe (walk_from word_at exidx_start exidx_end entry_point PSP fuel size count) (walked size count w) w.
Proof.
  induction fuel as [|fuel IH]; intros count w Hc Hl Hf; [lia|]. cbn [walk_from].
  apply safe_bind. eapply safe_mono; [apply walk_turn_safe; lia|]. intros [c stop] w1 [E [e Hb]]. cbn in *. subst c.
  assert (length (buffer w1) = length (buffer w)) as Hl1 by (by rewrite Hb, length_insert).
  assert (∀ k, count < k → drop (Z.to_nat k) (buffer w1) = drop (Z.to_nat k) (buffer w)) as Hdrop.
  { intros k Hk. rewrite Hb. apply drop_insert_lt. lia. }
  assert (walked size count w (count + 1) w1) as Hone by (split_and!; [lia|lia|done|apply Hdrop; lia]).
  apply safe_if; intros _; [by apply safe_ret|]. apply safe_bind, safe_on_frame.
  eapply safe_mono; [apply unwind_frame_safe|]. intros more f _. apply safe_if; intros E; [|by apply safe_ret].
  apply andb_true_iff in E as [_ E]. apply Z.ltb_lt in E.
  eapply safe_mono; [apply IH; cbn; lia|]. intros c w2 (Hc2 & Hl2 & Hd2). cbn in *.
  split_and!; [lia|lia|congruence|]. rewrite Hd2. apply Hdrop. lia.
Qed.

(** C27: A walk ends within its fuel whatever memory, the tables and the stack
    hold: it returns a count between one and the size of the buffer, has written
    the buffer up to the count alone and has left the rest cleared; or it traps on
    an address; or it overruns its registers, past which nothing is claimed.
    What overruns them is one encoding, 0xb1 with no byte left for its mask. *)
Theorem backtrace_bounds size w : 1 <= size →
  match _backtrace_unwind word_at exidx_start exidx_end entry_point PSP size w with
  | Done count w' => 1 <= count <= size ∧ Z.of_nat (length (buffer w')) = size ∧
      ∀ i e, count <= Z.of_nat i → buffer w' !! i = Some e → e = no_entry
  | Fault f => f = BadPointer ∨ f = Overrun
  end ∧
  ∀ b u, 0 <= b < 256 → 0 <= remaining u → length (vrs u) = 16%nat →
    execute_one word_at b u = Fault Overrun → b = 0xb1 ∧ remaining u = 0.
Proof.
  intros Hs. split; [|apply only_missing_mask_overruns].
  assert (safe (_backtrace_unwind word_at exidx_start exidx_end entry_point PSP size) (λ count w',
    walked size 0 (Walk (frame w) (replicate (Z.to_nat size) no_entry)) count w') w) as H.
  { apply safe_bind, safe_upd, walk_from_safe; cbn; rewrite ?length_replicate; lia. }
  unfold safe_in in H. destruct (_backtrace_unwind _ _ _ _ _ size w) as [count w'|]; [|done].
  destruct H as (Hc & Hl & Hd). cbn in *. rewrite length_replicate in Hl. split_and!; [lia|lia|lia|].
  intros i e Hi He. replace i with (Z.to_nat count + (i - Z.to_nat count))%nat in He by lia.
  rewrite <- lookup_drop, Hd, lookup_drop in He. by apply lookup_replicate in He as [-> _].
Qed.

(** ** Departures *)
Lemma function_name_any {S} a n (s : S) : unwind_get_function_name word_at a tt = Done n tt → unwind_get_function_name word_at a s = Done n s.
Proof.
  unfold unwind_get_function_name, read_word, get_opt, bind, ret.
  destruct (Z.land a 0x3 =? 0); [destruct (word_at (u32 (a - 4))); [destruct (Z.land z _ =? _)|done]|]; by intros [= ->].
Qed.

(** One that the unwinder cannot get past: an even address in the body of a
    function of the table, named [n], whose unwinding is an error. *)
Record stuck (f : backtrace_frame) (a : Z) (n : name) (addrs : list Z) : Prop := {
  st_table : index_table word_at exidx_start exidx_end addrs;
  st_entry : addrs !! linear_search addrs (pc f) = Some a;
  st_name : unwind_get_function_name word_at a tt = Done n tt;
  st_pc : pc f ≠ 0 ∧ Z.land (pc f) 0xfffffffe = pc f ∧ ¬ (entry_point <= pc f <= u32 (entry_point + 64));
  st_error : unwind_frame word_at exidx_start exidx_end PSP f = Done (-1) f
}.

Lemma stuck_turn f a n addrs count w : stuck f a n addrs → frame w = f → 0 <= count < Z.of_nat (length (buffer w)) →
  walk_turn word_at exidx_start exidx_end entry_point count w =
    Done (count + 1, false) (Walk f (<[Z.to_nat count := Backtrace a (pc f) n]> (buffer w))).
Proof.
  intros [Ht Ha Hn (Hp0 & Hpe & Hpn) He] <- Hc. unfold walk_turn, bind at 1, gets.
  rewrite (proj2 (Z.eqb_neq (pc (frame w)) 0)) by done.
  rewrite (proj2 (Z.eqb_neq (pc (frame w)) 1)) by (intros E; rewrite E in Hpe; discriminate Hpe).
  replace ((entry_point <=? pc (frame w)) && (pc (frame w) <=? u32 (entry_point + 64))) with false.
  2: { symmetry. apply andb_false_iff. destruct (Z.leb_spec entry_point (pc (frame w))); [right; apply Z.leb_gt; lia|by left]. }
  pose proof (it_place _ _ _ _ Ht) as [Hs0 He2]. pose proof (lookup_lt_Some _ _ _ Ha) as Hlen. rewrite (it_end _ _ _ _ Ht) in He2.
  destruct (it_entry _ _ _ _ Ht _ _ Ha) as (Hr & Hd & Hw). unfold bind at 1.
  rewrite (search_linear word_at exidx_start exidx_end addrs _ _ Ht) by (intros ->; cbn in Hlen; lia).
  unfold bind at 1, on_frame, upd.
  assert ((frame w) <| pc ::= λ p, Z.land p 0xfffffffe |> = frame w) as -> by (destruct (frame w) as [a1 a2 a3 a4]; cbn in Hpe; by rewrite <- Hpe at 2).
  unfold bind at 1. unfold bind at 1.
  rewrite (prel31_run word_at _ a) by (done || unfold entry_addr, index_size in *; lia).
  unfold bind at 1. rewrite (function_name_any a n) by done.
  unfold bind, write_entry, bind, get_opt, upd, ret. cbn [buffer].
  destruct (lookup_lt_is_Some_2 (buffer w) (Z.to_nat count)) as [x ->]; [lia|]. done.
Qed.

Lemma fill_next {A} (x y : A) k n : (<[k := x]> (replicate k x ++ replicate (S n) y)) = replicate (S k) x ++ replicate n y.
Proof.
  rewrite insert_app_r_alt by (rewrite length_replicate; lia). rewrite length_replicate, Nat.sub_diag.
  change (<[0%nat := x]> (replicate (S n) y)) with (x :: replicate n y).
  by rewrite replicate_S_end, <- app_assoc.
Qed.

Lemma stuck_walk f a n addrs : stuck f a n addrs → ∀ m k fuel, (0 < m)%nat → (m < fuel)%nat →
  walk_from word_at exidx_start exidx_end entry_point PSP fuel (Z.of_nat (k + m)) (Z.of_nat k)
    (Walk f (replicate k (Backtrace a (pc f) n) ++ replicate m no_entry)) =
  Done (Z.of_nat (k + m)) (Walk f (replicate (k + m) (Backtrace a (pc f) n))).
Proof.
  intros Hst. induction m as [|m IH]; intros k [|fuel] Hm Hf; try lia. cbn [walk_from]. unfold bind at 1.
  rewrite (stuck_turn f a n addrs) by (done || (cbn [buffer]; rewrite length_app, !length_replicate; lia)).
  cbn [buffer fst snd]. rewrite Nat2Z.id, fill_next. unfold bind at 1, on_frame. cbn [frame buffer].
  rewrite (st_error _ _ _ _ Hst). change (negb (-1 =? 0)) with true. cbn [andb].
  destruct (Z.ltb_spec (Z.of_nat k + 1) (Z.of_nat (k + S m))) as [Hlt|Hge].
  - replace (Z.of_nat k + 1) with (Z.of_nat (S k)) by lia. rewrite <- Nat.add_succ_comm. apply IH; lia.
  - assert (m = 0%nat) as -> by lia. cbn [replicate]. rewrite app_nil_r. unfold ret.
    replace (k + 1)%nat with (S k) by lia. by replace (Z.of_nat k + 1) with (Z.of_nat (S k)) by lia.
Qed.

(** The error return of [unwind_frame] does not end the walk: its [-1] is as
    true as its [1], so a frame that cannot be unwound is listed again and again
    until the buffer is full, and the count is the size of the buffer. *)
Theorem failed_unwind_repeats_frame f a n addrs size buf : stuck f a n addrs → 1 <= size →
  _backtrace_unwind word_at exidx_start exidx_end entry_point PSP size (Walk f buf) =
    Done size (Walk f (replicate (Z.to_nat size) (Backtrace a (pc f) n))).
Proof.
  intros Hst Hs. unfold _backtrace_unwind, bind, upd. cbn [frame].
  pose proof (stuck_walk f a n addrs Hst (Z.to_nat size) 0 (S (Z.to_nat size)) ltac:(lia) ltac:(lia)) as H.
  cbn [Nat.add replicate app] in H. by rewrite Z2Nat.id in H by lia.
Qed.

(** A list that pops r13 loses it: the mask the code tests for r13 is the one
    its own loop has shifted away, so the stack pointer becomes the end of the
    list, where the table leaves it the word popped, in [regs]. *)
Theorem popped_stack_pointer_lost b rest bs l u regs vsp :
  0 <= b < 256 → stream word_at u = Some rest → length (vrs u) = 16%nat → 0 <= remaining u →
  read_alike (b :: rest) = true → decode (b :: rest) = Some (PopList l, bs) → 13 ∈ l →
  load_regs word_at l (reg (vrs u) 13) (vrs u) = Some (regs, vsp) →
  interpret word_at 1 (b :: rest) (vrs u) = interpret word_at 0 bs regs ∧
  ∃ u', execute_one word_at b u = Done None u' ∧ stream word_at u' = Some bs ∧ vrs u' = <[13%nat := vsp]> regs ∧
    (vsp ≠ reg regs 13 → vrs u' ≠ regs).
Proof.
  intros Hb Hs Hl Hr Ha Hd H13 Hload. split.
  { cbn [interpret]. rewrite Hd. cbn [mbind option_bind]. rewrite Hload. cbn [mbind option_bind]. by rewrite bool_decide_eq_true_2. }
  destruct (execute_one_meaning word_at b rest _ bs u Hb Hs Hl Hr Ha Hd regs vsp Hload) as (u' & E & S' & V & Hl' & _).
  exists u'. split_and!; [done|done|done|]. intros Hne E'. apply Hne. rewrite E' in V. unfold reg. rewrite V.
  rewrite length_insert in Hl'. by rewrite list_lookup_insert_eq by lia.
Qed.

(** An operand of 0xb2 of more than one byte is not read to its end: its first
    byte is taken as a number, continuation bit and all, and the next one
    is executed as an instruction. *)
Theorem wide_operand_truncated b2 rest u :
  stream word_at u = Some (b2 :: rest) → length (vrs u) = 16%nat → 0 <= remaining u → 0x80 <= b2 →
  ∃ u', execute_one word_at 0xb2 u = Done None u' ∧ stream word_at u' = Some rest ∧
    vrs u' = <[13%nat := u32 (reg (vrs u) 13 + (0x204 + 4 * b2))]> (vrs u) ∧
    ∀ op bs, decode (0xb2 :: b2 :: rest) = Some (op, bs) → bs ≠ rest.
Proof.
  intros Hs Hl Hr Hb2. destruct (vsp_operand_meaning word_at (0x204 + 4 * b2) (λ vsp next, u32 (vsp + 0x204 + Z.shiftl next 2)) b2 rest u)
    as (u' & E & S' & V & _); [done|done|done|intros vsp _; rewrite Z.shiftl_mul_pow2 by done; f_equal; lia|].
  exists u'. split_and!; [exact E|done|done|]. cbn [decode uleb128]. intros op bs Hd ->.
  cbn -[uleb128] in Hd. rewrite (proj2 (Z.ltb_ge b2 0x80)) in Hd by lia.
  destruct (uleb128 rest) as [[v rest']|] eqn:Eu; [|done]. cbn in Hd. injection Hd as _ ->. apply uleb128_shorter in Eu. lia.
Qed.

(** 0xb1 as the last byte takes the end of the stream for its mask, and pops
    registers without end: past r15, where the array of registers stops. *)
Theorem missing_mask_overruns u : length (vrs u) = 16%nat → remaining u = 0 → (∀ a, is_Some (word_at (u32 a))) →
  execute_one word_at 0xb1 u = Fault Overrun.
Proof.
  intros Hl Hr Hw. change (execute_one word_at 0xb1 u) with
    ((vsp <- get_vrs 13 ;; next <- unwind_get_next_byte word_at ;; vsp <- pop_mask word_at 33 (u32 next) 0 vsp ;; set_vrs 13 vsp ;;; ret (@None Z)) u).
  unfold bind at 1. rewrite get_vrs_run by (done || lia). unfold bind at 1. rewrite next_byte_end by done. unfold bind at 1.
  change (u32 (-1)) with (Z.ones 32). by rewrite (pop_ones_overruns word_at Hw 16 33 32 0) by (done || lia).
Qed.
End claims.

(** ** A small program

    Two functions, at 0x100 and 0x200: the first pops r4 and r14 from the stack
    at 0x2000, the second has a personality routine the unwinder does not know. *)
Definition sample_addrs : list Z := [0x100; 0x200].
Definition sample_word (a : Z) : option Z :=
  if a =? 0x1000 then Some (prel31_word 0x1000 0x100) else if a =? 0x1004 then Some 0x80a8b0b0
  else if a =? 0x1008 then Some (prel31_word 0x1008 0x200) else if a =? 0x100c then Some 0x82000000
  else if a =? 0x0fc then Some 0xff000010 else if a =? 0x1fc then Some 0xff00000c
  else if a =? 0x2000 then Some 44 else if a =? 0x2004 then Some 0x211
  else if a =? 0x3000 then Some 0x8201b0b0 else None.
Definition sample_frame : backtrace_frame := BacktraceFrame 0x2000 0x2000 0x100 0x110.
Definition sample_stuck : backtrace_frame := BacktraceFrame 0 0x2008 0x211 0x210.
Definition sample_block : unwind_control_block :=
  UnwindControlBlock (<[13%nat := 0x2000]> (replicate 16 0)) 0x1004 3 2.

Lemma sample_table : index_table sample_word 0x1000 0x1010 sample_addrs.
Proof.
  split; [done|done| |].
  - intros [|[|i]] a H; [injection H as <-..|done]; split_and!; by vm_compute.
  - intros [|[|i]] [|[|j]] a b Ha Hb Hij; try lia; by simplify_eq/=.
Qed.

Lemma sample_is_stuck : stuck sample_word 0x1000 0x1010 0x8000 0 sample_stuck 0x200 (NameAt (0x1fc - 0x0c)) sample_addrs.
Proof. split; [apply sample_table|done|done| |by vm_compute]. split; [done|]. split; [done|]. intros [H _]. by apply H. Qed.

Example backtrace_of_sample :
  _backtrace_unwind sample_word 0x1000 0x1010 0x8000 0 4 (Walk sample_frame []) =
    Done 4 (Walk (BacktraceFrame 0x2000 0x2008 0x211 0x210) [
      Backtrace 0x100 0x110 (NameAt 0xec); Backtrace 0x200 0x210 (NameAt 0x1f0);
      Backtrace 0x200 0x210 (NameAt 0x1f0); Backtrace 0x200 0x210 (NameAt 0x1f0)]).
Proof. by vm_compute. Qed.

Lemma prel31_round_trip_witness :
  prel31_to_addr sample_word 0x1008 tt = Done 0x200 tt ∧ ∀ w, - 2 ^ 30 <= prel31_offset w < 2 ^ 30.
Proof. apply prel31_round_trip; by vm_compute. Defined.

Lemma unwind_search_is_linear_witness :
  unwind_search_index sample_word 0x1000 0x1010 0x1fe tt = Done 0x1000 tt.
Proof. apply (unwind_search_is_linear sample_word 0x1000 0x1010 sample_addrs); [apply sample_table|done]. Defined.

Lemma unwind_instructions_refine_witness :
  ∃ u', unwind_execute_instruction sample_word (S max_instructions) sample_block = Done 0 u' ∧
    vrs u' = <[4%nat := 44]> (<[13%nat := 0x2008]> (<[14%nat := 0x211]> (<[15%nat := 0x211]> (replicate 16 0)))).
Proof. eapply (unwind_instructions_refine sample_word [0xa8; 0xb0; 0xb0]); first [lia|done|vm_compute; lia|by vm_compute]. Defined.

Lemma backtrace_bounds_witness :
  match _backtrace_unwind sample_word 0x1000 0x1010 0x8000 0 4 (Walk sample_frame []) with
  | Done count w' => 1 <= count <= 4 ∧ Z.of_nat (length (buffer w')) = 4 ∧
      ∀ i e, count <= Z.of_nat i → buffer w' !! i = Some e → e = no_entry
  | Fault f => f = BadPointer ∨ f = Overrun
  end.
Proof. by apply (backtrace_bounds sample_word 0x1000 0x1010 0x8000 0 4 (Walk sample_frame [])). Defined.

Lemma failed_unwind_repeats_frame_witness :
  _backtrace_unwind sample_word 0x1000 0x1010 0x8000 0 3 (Walk sample_stuck []) =
    Done 3 (Walk sample_stuck (replicate 3 (Backtrace 0x200 0x210 (NameAt 0x1f0)))).
Proof.
  exact (failed_unwind_repeats_frame sample_word 0x1000 0x1010 0x8000 0 sample_stuck 0x200 (NameAt 0x1f0) sample_addrs 3 []
    sample_is_stuck ltac:(lia)).
Defined.

(** The list r4, r13 at 0x2000, by 0x82 and 0x01: the words are 44 and 0x211. *)
Lemma popped_stack_pointer_lost_witness :
  ∃ u', execute_one sample_word 0x82 (UnwindControlBlock (<[13%nat := 0x2000]> (replicate 16 0)) 0x3000 3 2) = Done None u' ∧
    vrs u' = <[13%nat := 0x2008]> (<[13%nat := 0x211]> (<[4%nat := 44]> (replicate 16 0))) ∧
    vrs u' ≠ <[13%nat := 0x211]> (<[4%nat := 44]> (<[13%nat := 0x2000]> (replicate 16 0))).
Proof.
  destruct (popped_stack_pointer_lost sample_word 0x82 [1; 0xb0; 0xb0] [0xb0; 0xb0] [4; 13]
    (UnwindControlBlock (<[13%nat := 0x2000]> (replicate 16 0)) 0x3000 3 2)
    (<[13%nat := 0x211]> (<[4%nat := 44]> (<[13%nat := 0x2000]> (replicate 16 0)))) 0x2008)
    as (_ & u' & E & _ & V & N); [lia|by vm_compute|done|done|done|by vm_compute|set_solver|by vm_compute|].
  exists u'. split_and!; [exact E|by rewrite V|by apply N].
Defined.

Lemma wide_operand_truncated_witness :
  ∃ u', execute_one (λ _, Some 0x81b20100) 0xb2 (UnwindControlBlock (replicate 16 0) 0x1000 2 3) = Done None u' ∧
    vrs u' = <[13%nat := 0x204 + 4 * 0x81]> (replicate 16 0).
Proof.
  destruct (wide_operand_truncated (λ _, Some 0x81b20100) 0x81 [0xb2] (UnwindControlBlock (replicate 16 0) 0x1000 2 3))
    as (u' & E & _ & V & _); [by vm_compute|done|done|done|].
  exists u'. split; [exact E|by rewrite V].
Defined.

Lemma missing_mask_overruns_witness :
  execute_one (λ _, Some 0) 0xb1 (UnwindControlBlock (replicate 16 0) 0x1000 0 3) = Fault Overrun.
Proof. apply missing_mask_overruns; [done|done|]. intros a. by exists 0. Defined.
