(* ===== verification/Fault.v ===== *)
(** * The heap break and the fault report

    [picolibc-glue/sbrk.c] and [pico-fault/fault.c] with fault.h: where the heap
    ends, and what a fault leaves of the registers and the stack. *)
From S2P Require Import Prelude Backtrace BacktraceLaws UnwindLaws BacktraceClaims.

(** ** sbrk *)
Record heap := Heap { current_brk : Z; heap_errno : Z }.
#[export] Instance eta_heap : Eta heap := λ h, Heap (current_brk h) (heap_errno h).

Section sbrk.
(** The symbols of the linker, and the lock of the C library around the body. *)
Context (end_ __StackLimit : Z) (__LIBC_LOCK __LIBC_UNLOCK : M heap unit).

Definition ENOMEM : Z := 12.
Definition round_up (incr : Z) : Z := Z.land (u32 (incr + 7)) (not32 7).

Definition sbrk (incr : Z) : M heap Z :=
  __LIBC_LOCK ;;;
  old <- gets current_brk ;;
  let new_brk := u32 (old + round_up incr) in
  block <- (if (end_ <=? new_brk) || (new_brk <=? __StackLimit) then
              upd (λ h, h <| current_brk := new_brk |>) ;;; ret old
            else upd (λ h, h <| heap_errno := ENOMEM |>) ;;; ret (u32 (-1))) ;;
  __LIBC_UNLOCK ;;;
  ret block.
End sbrk.

(** ** The fault record *)
Record fault_frame := FaultFrame { ff_r0 : Z; ff_r1 : Z; ff_r2 : Z; ff_r3 : Z; ff_IP : Z; ff_LR : Z; ff_PC : Z; ff_PSR : Z }.
Record callee_registers := CalleeRegisters {
  cr_r8 : Z; cr_r9 : Z; cr_r10 : Z; cr_r11 : Z; cr_r4 : Z; cr_r5 : Z; cr_r6 : Z; cr_r7 : Z
}.
Record cortexm_fault := CortexmFault {
  f_r0 : Z; f_r1 : Z; f_r2 : Z; f_r3 : Z; f_r4 : Z; f_r5 : Z; f_r6 : Z; f_r7 : Z; f_r8 : Z; f_r9 : Z; f_r10 : Z; f_r11 : Z;
  f_IP : Z; f_LR : Z; f_SP : Z; f_PC : Z; f_PSR : Z; f_fault_type : Z; f_exception_return : Z; f_core : Z
}.

Definition SCB_ICSR_VECTACTIVE_Msk : Z := 0x1ff.
Definition FAULT_HANDLER_STACK_SIZE : Z := 512.
(** The entries of [fault_backtrace]. *)
Definition fault_entries : Z := 10.

Section fault.
Context (word_at : Z → option Z) (exidx_start exidx_end entry_point PSP : Z).
(** The registers of the core, and its number. *)
Context (ICSR core : Z).

(** The frame lies at [sp], where the exception entry pushed it. *)
Definition assemble_cortexm_fault (sp : Z) (fr : fault_frame) (callee : callee_registers) (exception_return : Z) : cortexm_fault := {|
  f_r0 := ff_r0 fr; f_r1 := ff_r1 fr; f_r2 := ff_r2 fr; f_r3 := ff_r3 fr;
  f_r4 := cr_r4 callee; f_r5 := cr_r5 callee; f_r6 := cr_r6 callee; f_r7 := cr_r7 callee;
  f_r8 := cr_r8 callee; f_r9 := cr_r9 callee; f_r10 := cr_r10 callee; f_r11 := cr_r11 callee;
  f_IP := ff_IP fr; f_SP := sp; f_LR := ff_LR fr; f_PC := ff_PC fr; f_PSR := ff_PSR fr;
  f_fault_type := Z.land ICSR SCB_ICSR_VECTACTIVE_Msk; f_exception_return := exception_return; f_core := core
|}.

Definition fault_pc (f : cortexm_fault) : Z := if f_exception_return f =? 0xfffffff1 then f_LR f else f_PC f.
Definition fault_backtrace_frame (f : cortexm_fault) : backtrace_frame := BacktraceFrame (f_r7 f) (f_SP f) (f_LR f) (fault_pc f).

(** [save_fault] up to its printing: the entries it prints, and their number. *)
Definition save_fault (f : cortexm_fault) : M walk Z :=
  upd (λ w, Walk (fault_backtrace_frame f) (buffer w)) ;;;
  _backtrace_unwind word_at exidx_start exidx_end entry_point PSP fault_entries.

(** The weak hook; multicore-glue.c defines one that stops the other core. *)
Definition init_fault : M walk unit := ret tt.

(** [hard_fault] up to [reset_fault], which aborts. *)
Definition hard_fault (sp : Z) (fr : fault_frame) (callee : callee_registers) (exception_return : Z) : M walk Z :=
  init_fault ;;;
  save_fault (assemble_cortexm_fault sp fr callee exception_return).

(** [fault_init]: the top of the stack of the handler. *)
Definition fault_init (end_ limit : Z) (lock unlock : M heap unit) : M heap Z :=
  stack <- sbrk end_ limit lock unlock FAULT_HANDLER_STACK_SIZE ;;
  ret (u32 (stack + FAULT_HANDLER_STACK_SIZE)).

(** The fault handler ends within its fuel whatever the fault left behind: it
    traps on an address of its own, overruns the registers of the unwinder
    ([backtrace_bounds]), or it reports between one and ten entries of
    the buffer.  The walk starts from the registers of the fault, at the return
    address when the exception came out of a handler and at the pc otherwise. *)
Theorem hard_fault_reports sp fr callee ret_ w :
  match hard_fault sp fr callee ret_ w with
  | Done count w' => 1 <= count <= fault_entries ∧ Z.of_nat (length (buffer w')) = fault_entries
  | Fault f => f = BadPointer ∨ f = Overrun
  end ∧
  let pc := if ret_ =? 0xfffffff1 then ff_LR fr else ff_PC fr in
  fault_backtrace_frame (assemble_cortexm_fault sp fr callee ret_) = BacktraceFrame (cr_r7 callee) sp (ff_LR fr) pc.
Proof.
  split; [|done]. unfold hard_fault, init_fault, save_fault, bind, ret, upd. set (w1 := Walk _ _).
  assert (safe (_backtrace_unwind word_at exidx_start exidx_end entry_point PSP fault_entries) (λ count w',
    walked fault_entries 0 (Walk (frame w1) (replicate (Z.to_nat fault_entries) no_entry)) count w') w1) as H.
  { apply safe_bind, safe_upd, walk_from_safe; unfold fault_entries; cbn [buffer]; rewrite ?length_replicate; lia. }
  unfold safe_in in H. destruct (_backtrace_unwind _ _ _ _ _ _ w1) as [count w'|]; [|done].
  destruct H as (Hc & Hl & _). cbn [buffer] in Hl. rewrite length_replicate in Hl. unfold fault_entries in *. split; lia.
Qed.
End fault.

(** ** The break *)

(** The heap is never refused memory: the test of the limit lets every break
    through, for a limit above the end of the data, since no address is both
    below the one and above the other.  The break moves by the increment rounded
    up to eight, past the limit or below the start, and errno stays. *)
Theorem sbrk_never_refuses end_ limit incr h :
  end_ <= limit →
  sbrk end_ limit (ret tt) (ret tt) incr h =
    Done (current_brk h) (h <| current_brk := u32 (current_brk h + round_up incr) |>).
Proof.
  intros He. unfold sbrk, bind, ret, gets, upd.
  replace ((end_ <=? _) || (_ <=? limit)) with true; [done|]. symmetry. apply orb_true_iff.
  destruct (Z.leb_spec end_ (u32 (current_brk h + round_up incr))); [by left|right]. apply Z.leb_le. lia.
Qed.

(** One byte more than the limit, granted. *)
Lemma sbrk_never_refuses_witness :
  sbrk 0x2000 0x3000 (ret tt) (ret tt) 0x1001 (Heap 0x2000 0) = Done 0x2000 (Heap 0x3008 0).
Proof. exact (sbrk_never_refuses 0x2000 0x3000 0x1001 (Heap 0x2000 0) ltac:(lia)). Defined.

Example sbrk_below_start : sbrk 0x2000 0x3000 (ret tt) (ret tt) (-16) (Heap 0x2000 0) = Done 0x2000 (Heap 0x1ff0 0).
Proof. by vm_compute. Qed.
