(* ===== verification/Threads.v ===== *)
(** * C11 threads

    [pico-threads/threads.c] and machine/_threads.h: one-time calls, condition
    variables, mutexes, thread-specific storage, and the threads themselves, on
    top of the tasks and futexes of the scheduler. *)
From S2P Require Import Prelude Scheduler SchedulerSvc SchedulerApi.

(** ** Constants and data *)
Definition __THRD_STACK_SIZE : Z := 1024.
Definition __THRD_PRIORITY : Z := SCHEDULER_NUM_TASK_PRIORITIES / 2.
Definition __THRD_KEYS_MAX : nat := 8.
Definition __THRD_MARKER : Z := 0x137cc731.
Definition TSS_DTOR_ITERATIONS : nat := 5.
Definition mtx_prio_inherit : Z := 0x8.

(** Error numbers of the C library. *)
Definition EAGAIN : Z := 11.
Definition ENOMEM : Z := 12.
Definition EBUSY : Z := 16.

(** What the calls of <threads.h> answer. *)
Inductive result := thrd_success | thrd_nomem | thrd_timedout | thrd_error | thrd_busy.
#[export] Instance result_eq_dec : EqDecision result.
Proof. solve_decision. Defined.

(** A mutex at [m]: its word at [m], its futex four further. *)
Record mtx := Mtx { mtx_type : Z; mtx_count : Z }.
Definition mtx_value (m : Z) : Z := m.
Definition mtx_futex (m : Z) : Z := m + 4.

(** A condition variable at [c]: the mutex it is bound to, the word that counts
    the wakes, and the futex. *)
Record cnd := Cnd { cnd_mutex : Z }.
Definition cnd_sequence (c : Z) : Z := c + 4.
Definition cnd_futex (c : Z) : Z := c + 8.

Record tss_slot := Tss { tss_used : bool; tss_destructor : Z }.

Record thrd := Thrd {
  th_func : Z; th_context : Z; th_ret : Z; th_detached : bool; th_terminated : bool; th_joiner : Z;
  th_tss : list Z; th_marker : Z
}.
#[export] Instance eta_thrd : Eta thrd :=
  λ t, Thrd (th_func t) (th_context t) (th_ret t) (th_detached t) (th_terminated t) (th_joiner t) (th_tss t) (th_marker t).
Definition thrd_joiners (t : Z) : Z := t + 20.
Definition thrd_node (t : Z) : Z := t + 56.
Definition SIZEOF_THRD : Z := 104.
Definition thrd_stack (t : Z) : Z := t + SIZEOF_THRD.

Record thrd_attr := ThrdAttr { at_flags : Z; at_priority : Z; at_affinity : Z; at_stack_size : Z }.
Record timespec := Timespec { tv_sec : Z; tv_nsec : Z }.

(** ** The state *)
Record threads := Threads {
  n_sched : sched;
  mtx_at : gmap Z mtx;
  cnd_at : gmap Z cnd;
  thrd_at : gmap Z thrd;
  tss_map : list tss_slot;
  thrds : list Z;            (* the nodes of the list *)
  main_task : Z
}.
#[export] Instance eta_threads : Eta threads := λ n,
  Threads (n_sched n) (mtx_at n) (cnd_at n) (thrd_at n) (tss_map n) (thrds n) (main_task n).

Abbreviation TM := (M threads).

Definition on_tasks {A} (m : SM A) : TM A := λ n,
  match m (n_sched n) with
  | Done a s => Done a (n <| n_sched := s |>)
  | Fault f => Fault f
  end.
Definition read (a : Z) : TM Z := on_tasks (get_word a).
Definition atomic_cas (a expected desired : Z) : TM (bool * Z) := on_tasks (compare_exchange a expected desired).
Definition errno_is (e : Z) : TM unit := on_tasks (set_errno e).

Definition get_mtx (m : Z) : TM mtx := get_opt (λ n, mtx_at n !! m) BadPointer.
Definition set_mtx_count (m c : Z) : TM unit :=
  mx <- get_mtx m ;; upd (λ n, n <| mtx_at ::= <[m := Mtx (mtx_type mx) (s32 c)]> |>).
Definition get_cnd (c : Z) : TM cnd := get_opt (λ n, cnd_at n !! c) BadPointer.
Definition get_thrd (t : Z) : TM thrd := get_opt (λ n, thrd_at n !! t) BadPointer.
Definition upd_thrd (t : Z) (g : thrd → thrd) : TM unit :=
  th <- get_thrd t ;; upd (λ n, n <| thrd_at := <[t := g th]> (thrd_at n) |>).
Definition get_slot (key : Z) : TM tss_slot := get_opt (λ n, tss_map n !! Z.to_nat key) OutOfBounds.
Definition set_slot (key : Z) (sl : tss_slot) : TM unit :=
  get_slot key ;;; upd (λ n, n <| tss_map ::= <[Z.to_nat key := sl]> |>).

(** What lies outside: the kinds of mutex of <threads.h>; the allocator; what
    the other tasks do while the caller waits; the functions of threads and
    destructors of keys; and the addresses and sizes the linker chooses. *)
Class ThreadsEnv := {
  mtx_plain : Z; mtx_recursive : Z; mtx_timed : Z;
  _thrd_alloc : Z → TM Z;
  _thrd_release : Z → TM unit;
  thrds_ran : TM unit;
  call_func : Z → Z → TM Z;
  call_destructor : Z → Z → TM unit;
  local_futex : Z → TM Z;
  thrds_reaper_init_flag : Z; thrds_init_flag : Z; thrds_reap : Z; thrds_lock : Z;
  scheduler_struct : Z; _tls_size : Z; read_tp_and_offset : Z;
  thdr_dispatch_at : Z; thrd_exit_handler_at : Z; thrds_reaper_at : Z
}.

Section threads.
Context `{Environment} `{Trap} `{ThreadsEnv} (core : Z).

(** A call of the scheduler that may run other tasks before it returns. *)
Definition switching {A} (m : SM A) : TM A := a <- on_tasks m ;; thrds_ran ;;; ret a.

(** ** One-time calls *)
Fixpoint await_flag (fuel : nat) (flag futex : Z) : TM unit :=
  match fuel with
  | O => fail OutOfFuel
  | S fuel =>
      cx <- atomic_cas flag 2 2 ;;
      if (cx.1 : bool) then ret tt
      else
        _status <- switching (scheduler_futex_wait core futex cx.2 SCHEDULER_WAIT_FOREVER) ;;
        await_flag fuel flag futex
  end.

Definition call_once (fuel : nat) (flag : Z) (func : TM unit) : TM unit :=
  done <- read flag ;;
  if done =? 2 then ret tt
  else
    futex <- local_futex flag ;;
    on_tasks (scheduler_futex_init futex flag 0) ;;;
    cx <- atomic_cas flag 0 1 ;;
    if negb cx.1 then await_flag fuel flag futex
    else
      func ;;;
      on_tasks (set_word flag 2) ;;;
      _status <- switching (scheduler_futex_wake core futex true) ;;
      ret tt.

(** ** Mutexes *)
Definition is_owner (value w : Z) : bool := value =? Z.land w (not32 SCHEDULER_FUTEX_CONTENTION_TRACKING).

(** The value word is written whatever it held. *)
Definition mtx_init (m type : Z) : TM result :=
  assert (negb (m =? 0)) ;;;
  on_tasks (upd (λ s, s <| word_at ::= <[mtx_value m := 0]> |>)) ;;;
  upd (λ n, n <| mtx_at ::= <[m := Mtx type 0]> |>) ;;;
  on_tasks (scheduler_futex_init (mtx_futex m) (mtx_value m)
    (if has type mtx_prio_inherit
     then Z.lor SCHEDULER_FUTEX_PI (Z.lor SCHEDULER_FUTEX_OWNER_TRACKING SCHEDULER_FUTEX_CONTENTION_TRACKING)
     else Z.lor SCHEDULER_FUTEX_OWNER_TRACKING SCHEDULER_FUTEX_CONTENTION_TRACKING)) ;;;
  ret thrd_success.

Definition mtx_destroy (m : Z) : TM unit := ret tt.

Definition mtx_trylock (m : Z) : TM result :=
  assert (negb (m =? 0)) ;;;
  value <- on_tasks (scheduler_task core) ;;
  mx <- get_mtx m ;;
  w <- read (mtx_value m) ;;
  if has (mtx_type mx) mtx_recursive && (w =? value) then
    set_mtx_count m (mtx_count mx + 1) ;;;
    ret thrd_success
  else
    cx <- atomic_cas (mtx_value m) 0 value ;;
    if negb cx.1 then errno_is EBUSY ;;; ret thrd_busy
    else
      when (has (mtx_type mx) mtx_recursive) (set_mtx_count m 1) ;;;
      ret thrd_success.

(** The loop of [_mtx_lock]: [thrd_success] once the mutex is owned. *)
Fixpoint lock_loop (fuel : nat) (m value msec : Z) : TM result :=
  match fuel with
  | O => fail OutOfFuel
  | S fuel =>
      cx <- atomic_cas (mtx_value m) 0 value ;;
      if (cx.1 : bool) then ret thrd_success
      else
        status <- switching (scheduler_futex_wait core (mtx_futex m) cx.2 msec) ;;
        if status <? 0 then
          errno_is (- status) ;;;
          ret (if status =? - ETIMEDOUT then thrd_timedout else thrd_error)
        else
          w <- read (mtx_value m) ;;
          if is_owner value w then ret thrd_success else lock_loop fuel m value msec
  end.

Definition _mtx_lock (fuel : nat) (m msec : Z) : TM result :=
  assert (negb (m =? 0)) ;;;
  value <- on_tasks (scheduler_task core) ;;
  mx <- get_mtx m ;;
  w <- read (mtx_value m) ;;
  if is_owner value w then
    if negb (has (mtx_type mx) mtx_recursive) then errno_is EINVAL ;;; ret thrd_error
    else set_mtx_count m (mtx_count mx + 1) ;;; ret thrd_success
  else
    r <- lock_loop fuel m value msec ;;
    if negb (bool_decide (r = thrd_success)) then ret r
    else
      when (has (mtx_type mx) mtx_recursive) (set_mtx_count m 1) ;;;
      ret thrd_success.

Definition mtx_lock (fuel : nat) (m : Z) : TM result := _mtx_lock fuel m SCHEDULER_WAIT_FOREVER.

(** The deadline in milliseconds, an [unsigned long long]. *)
Definition u64 (n : Z) : Z := n mod 2 ^ 64.
Definition deadline (tm : timespec) : Z := u64 (tv_sec tm * 1000 + Z.quot (tv_nsec tm) 1000000).
Definition missed (ticks tm_ticks : Z) : bool := (ticks <? tm_ticks) || (UINT32_MAX <=? u64 (tm_ticks - ticks)).

Definition mtx_timedlock (fuel : nat) (m : Z) (tm : option timespec) : TM result :=
  match tm with
  | None => fail AssertFailed
  | Some tm =>
      assert (negb (m =? 0)) ;;;
      mx <- get_mtx m ;;
      if negb (has (mtx_type mx) mtx_timed) then errno_is EINVAL ;;; ret thrd_error
      else
        ticks <- on_tasks (gets scheduler_get_ticks) ;;
        if missed ticks (deadline tm) then ret thrd_timedout
        else _mtx_lock fuel m (u32 (deadline tm - ticks))
  end.

(** The count goes down before the test of it. *)
Definition mtx_unlock (m : Z) : TM result :=
  assert (negb (m =? 0)) ;;;
  value <- on_tasks (scheduler_task core) ;;
  mx <- get_mtx m ;;
  w <- read (mtx_value m) ;;
  if negb (is_owner value w) then errno_is EINVAL ;;; ret thrd_error
  else
    when (has (mtx_type mx) mtx_recursive) (set_mtx_count m (mtx_count mx - 1)) ;;;
    if has (mtx_type mx) mtx_recursive && (0 <? s32 (mtx_count mx - 1)) then ret thrd_success
    else
      w <- read (mtx_value m) ;;
      cx <- (if w =? value then atomic_cas (mtx_value m) value 0 else ret (false, w)) ;;
      if (cx.1 : bool) then ret thrd_success
      else
        status <- switching (scheduler_futex_wake core (mtx_futex m) false) ;;
        if status <? 0 then errno_is (- status) ;;; ret thrd_error else ret thrd_success.

(** ** Condition variables *)
Definition cnd_destroy (c : Z) : TM unit := ret tt.

Definition cnd_init (c : Z) : TM result :=
  assert (negb (c =? 0)) ;;;
  upd (λ n, n <| cnd_at ::= <[c := Cnd 0]> |>) ;;;
  on_tasks (upd (λ s, s <| word_at ::= <[cnd_sequence c := 0]> |>)) ;;;
  on_tasks (scheduler_futex_init (cnd_futex c) (cnd_sequence c) 0) ;;;
  ret thrd_success.

(** [atomic_compare_exchange_strong(&cnd->mutex, &expected, mtx)] for a null
    [expected], whatever comes of it. *)
Definition bind_mutex (c m : Z) : TM unit :=
  cd <- get_cnd c ;;
  when (cnd_mutex cd =? 0) (upd (λ n, n <| cnd_at ::= <[c := Cnd m]> |>)).

Definition _cnd_wait (fuel : nat) (c m msec : Z) : TM result :=
  assert (negb (c =? 0) && negb (m =? 0)) ;;;
  sequence <- read (cnd_sequence c) ;;
  cd <- get_cnd c ;;
  when (negb (cnd_mutex cd =? m)) (bind_mutex c m) ;;;
  cd <- get_cnd c ;;
  if negb (cnd_mutex cd =? m) then errno_is EINVAL ;;; ret thrd_error
  else
    _r <- mtx_unlock (cnd_mutex cd) ;;
    status <- switching (scheduler_futex_wait core (cnd_futex c) sequence msec) ;;
    cd <- get_cnd c ;;
    _r <- mtx_lock fuel (cnd_mutex cd) ;;
    if status <? 0 then
      errno_is (- status) ;;;
      ret (if status =? - ETIMEDOUT then thrd_timedout else thrd_error)
    else ret thrd_success.

Definition cnd_wait (fuel : nat) (c m : Z) : TM result := _cnd_wait fuel c m SCHEDULER_WAIT_FOREVER.

Definition cnd_timedwait (fuel : nat) (c m : Z) (tm : option timespec) : TM result :=
  match tm with
  | None => fail AssertFailed
  | Some tm =>
      ticks <- on_tasks (gets scheduler_get_ticks) ;;
      if missed ticks (deadline tm) then ret thrd_timedout
      else _cnd_wait fuel c m (u32 (deadline tm - ticks))
  end.

Definition _cnd_wakeup (c : Z) (all : bool) : TM result :=
  assert (negb (c =? 0)) ;;;
  sequence <- read (cnd_sequence c) ;;
  on_tasks (set_word (cnd_sequence c) (u32 (sequence + 1))) ;;;
  _status <- switching (scheduler_futex_wake core (cnd_futex c) all) ;;
  ret thrd_success.
Definition cnd_signal (c : Z) : TM result := _cnd_wakeup c false.
Definition cnd_broadcast (c : Z) : TM result := _cnd_wakeup c true.

(** ** Thread-specific storage *)

(** The search for an unused slot, from slot [i] on, [n] slots left. *)
Fixpoint find_slot (n : nat) (i : Z) (destructor : Z) : TM (result * Z) :=
  match n with
  | O => errno_is EAGAIN ;;; ret (thrd_error, 0)
  | S n =>
      sl <- get_slot i ;;
      set_slot i (Tss true (tss_destructor sl)) ;;;
      if negb (tss_used sl) then set_slot i (Tss true destructor) ;;; ret (thrd_success, i)
      else find_slot n (i + 1) destructor
  end.
Definition tss_create (destructor : Z) : TM (result * Z) := find_slot __THRD_KEYS_MAX 0 destructor.

Definition past_keys (key : Z) : bool := Z.of_nat __THRD_KEYS_MAX <? key.

Definition tss_delete (key : Z) : TM unit :=
  if past_keys key then ret tt else set_slot key (Tss false 0).

(** [scheduler_task()->context] *)
Definition thrd_current : TM Z :=
  t <- on_tasks (scheduler_task core) ;;
  tk <- on_tasks (get_task t) ;;
  ret (t_context tk).

(** [key > MAX || !tss_map[key].used] *)
Definition unusable (key : Z) : TM bool :=
  if past_keys key then ret true else sl <- get_slot key ;; ret (negb (tss_used sl)).

Definition tss_get (key : Z) : TM Z :=
  bad <- unusable key ;;
  if (bad : bool) then ret 0
  else
    t <- thrd_current ;;
    get_opt (λ n, th ← thrd_at n !! t; th_tss th !! Z.to_nat key) OutOfBounds.

Definition set_value (t key v : Z) : TM unit :=
  get_opt (λ n, th ← thrd_at n !! t; th_tss th !! Z.to_nat key) OutOfBounds ;;;
  upd_thrd t (λ th, th <| th_tss ::= <[Z.to_nat key := v]> |>).

Definition tss_set (key v : Z) : TM result :=
  bad <- unusable key ;;
  if (bad : bool) then ret thrd_error
  else
    t <- thrd_current ;;
    set_value t key v ;;;
    ret thrd_success.

(** ** The end of a thread *)

(** One pass over the keys from [j] on, [k] left: how many values it destroyed. *)
Fixpoint destroy_keys (k : nat) (j : Z) (t : Z) : TM Z :=
  match k with
  | O => ret 0
  | S k =>
      sl <- get_slot j ;;
      v <- get_opt (λ n, th ← thrd_at n !! t; th_tss th !! Z.to_nat j) OutOfBounds ;;
      if tss_used sl && negb (tss_destructor sl =? 0) && negb (v =? 0) then
        set_value t j 0 ;;;
        call_destructor (tss_destructor sl) v ;;;
        more <- destroy_keys k (j + 1) t ;;
        ret (more + 1)
      else destroy_keys k (j + 1) t
  end.

Fixpoint destroy_rounds (i : nat) (t : Z) : TM unit :=
  match i with
  | O => ret tt
  | S i =>
      more <- destroy_keys __THRD_KEYS_MAX 0 t ;;
      if more =? 0 then ret tt else destroy_rounds i t
  end.

Definition thrd_exit (res : Z) : TM unit :=
  t <- thrd_current ;;
  destroy_rounds TSS_DTOR_ITERATIONS t ;;;
  t <- thrd_current ;;
  upd_thrd t (λ th, th <| th_ret := res |>) ;;;
  _status <- switching (scheduler_terminate core 0) ;;
  fail Aborted.

Definition thdr_dispatch (context : Z) : TM unit :=
  assert (negb (context =? 0)) ;;;
  th <- get_thrd context ;;
  res <- call_func (th_func th) (th_context th) ;;
  thrd_exit res.

Definition aborts_unless_success (r : result) : TM unit := when (negb (bool_decide (r = thrd_success))) (fail Aborted).

Definition thrd_exit_handler (task : Z) : TM unit :=
  assert (negb (task =? 0)) ;;;
  tk <- on_tasks (get_task task) ;;
  let thread := t_context tk in
  upd_thrd thread (λ th, th <| th_terminated := true |>) ;;;
  th <- get_thrd thread ;;
  r <- cnd_broadcast (if th_detached th then thrds_reap else thrd_joiners thread) ;;
  aborts_unless_success r.

(** ** The list of threads *)

(** [list_init(&thread->thrd_node)]: a node the list still holds is torn out of it. *)
Definition init_thrd_node (t : Z) : TM unit :=
  linked <- gets (λ n, bool_decide (thrd_node t ∈ thrds n)) ;; when linked (fail RingCorrupted).
Definition add_thrd (t : Z) : TM unit :=
  linked <- gets (λ n, bool_decide (thrd_node t ∈ thrds n)) ;;
  when linked (fail RingCorrupted) ;;;
  upd (λ n, n <| thrds ::= λ l, l ++ [thrd_node t] |>).
Definition remove_thrd (t : Z) : TM unit := upd (λ n, n <| thrds ::= without (thrd_node t) |>).
(** [list_remove(&thrds)] takes the head out of the ring: the list is empty. *)
Definition remove_list_head : TM unit := upd (λ n, n <| thrds := [] |>).

(** The fields a new thread block is given; the storage keeps the zeros of the
    allocator. *)
Definition init_thrd (t func arg : Z) : TM unit :=
  upd_thrd t (λ th, th <| th_func := func |> <| th_context := arg |> <| th_detached := false |>
    <| th_terminated := false |> <| th_joiner := 0 |> <| th_ret := 0 |>) ;;;
  init_thrd_node t ;;;
  upd_thrd t (λ th, th <| th_marker := __THRD_MARKER |>).

Definition thrds_init (fuel : nat) : TM unit :=
  _status <- on_tasks (scheduler_init scheduler_struct _tls_size) ;;
  upd (λ n, n <| thrds := [] |>) ;;;
  r <- mtx_init thrds_lock mtx_plain ;;
  aborts_unless_success r ;;;
  thread <- _thrd_alloc (SIZEOF_THRD + SIZEOF_TASK) ;;
  when (thread =? 0) (fail Aborted) ;;;
  task <- on_tasks (scheduler_create core (thrd_stack thread) 0
    (Some (Descriptor 0 thrd_exit_handler_at thread
       (Z.lor SCHEDULER_NO_TLS_INIT (Z.lor SCHEDULER_NO_FRAME_INIT SCHEDULER_PRIMORDIAL_TASK)) __THRD_PRIORITY 0))) ;;
  upd (λ n, n <| main_task := task |>) ;;;
  when (task =? 0) (fail Aborted) ;;;
  on_tasks (upd_task task (λ tk, tk <| t_tls := read_tp_and_offset |>)) ;;;
  init_thrd thread 0 0 ;;;
  r <- cnd_init (thrd_joiners thread) ;;
  aborts_unless_success r ;;;
  add_thrd thread ;;;
  on_tasks scheduler_startup_hook ;;;
  on_tasks (upd (λ s, s <| s_running := 1 |>)) ;;;
  switching (scheduler_yield core).

(** The wait at the end: one turn per unit of fuel. *)
Fixpoint await_shutdown (fuel : nat) : TM unit :=
  match fuel with
  | O => fail OutOfFuel
  | S fuel =>
      running <- on_tasks (gets scheduler_is_running) ;;
      if (running : bool) then thrds_ran ;;; await_shutdown fuel else ret tt
  end.

Definition thrds_fini (fuel : nat) : TM unit :=
  task <- gets main_task ;;
  if task =? 0 then ret tt
  else
    on_tasks (scheduler_set_flags core task SCHEDULER_IGNORE_VIABLE) ;;;
    on_tasks (upd (λ s, s <| s_running ::= λ n, s32 (n - 1) |>)) ;;;
    on_tasks scheduler_shutdown_hook ;;;
    await_shutdown fuel.

(** The error exits of [_thrd_create]. *)
Definition error_release_thrd (thread : Z) : TM (result * Z) := _thrd_release thread ;;; ret (thrd_error, 0).
Definition error_remove_thrds (fuel : nat) (thread : Z) : TM (result * Z) :=
  r <- mtx_lock fuel thrds_lock ;;
  aborts_unless_success r ;;;
  remove_list_head ;;;
  r <- mtx_unlock thrds_lock ;;
  aborts_unless_success r ;;;
  error_release_thrd thread.

(** The result, and the thread it stores on success. *)
Definition _thrd_create (fuel : nat) (func arg : Z) (attr : thrd_attr) : TM (result * Z) :=
  call_once fuel thrds_init_flag (thrds_init fuel) ;;;
  thread <- _thrd_alloc (at_stack_size attr) ;;
  if thread =? 0 then errno_is ENOMEM ;;; ret (thrd_error, 0)
  else
    init_thrd thread func arg ;;;
    r <- cnd_init (thrd_joiners thread) ;;
    if negb (bool_decide (r = thrd_success)) then ret (thrd_error, 0)
    else
      r <- mtx_lock fuel thrds_lock ;;
      if negb (bool_decide (r = thrd_success)) then error_release_thrd thread
      else
        add_thrd thread ;;;
        r <- mtx_unlock thrds_lock ;;
        if negb (bool_decide (r = thrd_success)) then error_remove_thrds fuel thread
        else
          task <- switching (scheduler_create core (thrd_stack thread) (u32 (at_stack_size attr - SIZEOF_THRD))
            (Some (Descriptor thdr_dispatch_at thrd_exit_handler_at thread
               (at_flags attr) (at_priority attr) (at_affinity attr)))) ;;
          if task =? 0 then error_remove_thrds fuel thread else ret (thrd_success, thread).

Definition thrd_create (fuel : nat) (func arg : Z) : TM (result * Z) :=
  assert (negb (func =? 0)) ;;;
  _thrd_create fuel func arg (ThrdAttr 0 __THRD_PRIORITY UINT32_MAX __THRD_STACK_SIZE).

(** The walk of the reaper over the nodes of the list. *)
Fixpoint reap_nodes (l : list Z) : TM unit :=
  match l with
  | [] => ret tt
  | node :: l =>
      let entry := node - thrd_node 0 in
      th <- get_thrd entry ;;
      when (th_detached th && th_terminated th) (remove_thrd entry ;;; _thrd_release entry) ;;;
      reap_nodes l
  end.

Fixpoint reap_forever (fuel : nat) : TM Z :=
  match fuel with
  | O => fail OutOfFuel
  | S fuel =>
      r <- cnd_wait fuel thrds_reap thrds_lock ;;
      aborts_unless_success r ;;;
      l <- gets thrds ;;
      reap_nodes l ;;;
      reap_forever fuel
  end.

(** What follows the endless loop is never reached. *)
Definition thrds_reaper (fuel : nat) : TM Z :=
  r <- mtx_lock fuel thrds_lock ;;
  aborts_unless_success r ;;;
  reap_forever fuel.

(** The first part of [thrds_reaper_init]: the reaper, created. *)
Definition start_reaper (fuel : nat) : TM Z :=
  r <- cnd_init thrds_reap ;;
  aborts_unless_success r ;;;
  created <- thrd_create fuel thrds_reaper_at 0 ;;
  aborts_unless_success created.1 ;;;
  ret created.2.

(** [thrds_reaper_init] calls [thrd_detach], which calls it: [detach] is the
    former's call of the latter. *)
Definition thrds_reaper_init (detach : Z → TM result) (fuel : nat) : TM unit :=
  reaper <- start_reaper fuel ;;
  r <- detach reaper ;;
  aborts_unless_success r.

Fixpoint thrd_detach (fuel : nat) (thrd : Z) : TM result :=
  match fuel with
  | O => fail OutOfFuel
  | S fuel =>
      call_once fuel thrds_reaper_init_flag (thrds_reaper_init (thrd_detach fuel) fuel) ;;;
      t <- (if thrd =? 0 then thrd_current else ret thrd) ;;
      on_tasks (scheduler_set_flags core (thrd_stack t) SCHEDULER_IGNORE_VIABLE) ;;;
      ret thrd_success
  end.

Definition thrd_equal (lhs rhs : Z) : bool := lhs =? rhs.

(** ** Joining *)
Fixpoint await_termination (fuel : nat) (thrd : Z) (status : result) : TM result :=
  match fuel with
  | O => fail OutOfFuel
  | S fuel =>
      th <- get_thrd thrd ;;
      if th_terminated th then ret status
      else
        status <- cnd_wait fuel (thrd_joiners thrd) thrds_lock ;;
        if negb (bool_decide (status = thrd_success)) then ret status else await_termination fuel thrd status
  end.

(** The status, and the result of the thread where one is stored. *)
Definition thrd_join (fuel : nat) (thrd : Z) : TM (result * option Z) :=
  assert (negb (thrd =? 0)) ;;;
  r <- mtx_lock fuel thrds_lock ;;
  aborts_unless_success r ;;;
  th <- get_thrd thrd ;;
  if th_detached th || negb (th_joiner th =? 0) then
    r <- mtx_unlock thrds_lock ;;
    aborts_unless_success r ;;;
    ret (thrd_error, None)
  else
    self <- thrd_current ;;
    upd_thrd thrd (λ th, th <| th_joiner := self |>) ;;;
    status <- await_termination fuel thrd thrd_success ;;
    remove_thrd thrd ;;;
    r <- mtx_unlock thrds_lock ;;
    aborts_unless_success r ;;;
    th <- get_thrd thrd ;;
    _thrd_release thrd ;;;
    ret (status, Some (th_ret th)).

Definition thrd_sleep (duration : option timespec) : TM (Z * timespec) :=
  match duration with
  | None => fail AssertFailed
  | Some d =>
      status <- switching (scheduler_sleep core (u32 (tv_sec d * 1000 + Z.quot (tv_nsec d) 1000000))) ;;
      ret (status, Timespec 0 0)
  end.

Definition thrd_yield : TM unit := switching (scheduler_yield core).

Definition _thdr_attr_init (flags priority stack_size affinity : Z) : thrd_attr :=
  ThrdAttr flags priority affinity stack_size.
End threads.
