(* ===== verification/ThreadsLaws.v ===== *)
(** * C11 threads: laws

    The calling thread and the words it reads; the mutex its owner nests; the
    deadlines; the keys and their values; and the runs that keep a word. *)
From S2P Require Import Prelude Scheduler SchedulerSvc SchedulerApi SchedulerInv Threads.

Section laws.
Context `{Environment} `{Trap} `{ThreadsEnv} (core : Z).
Implicit Types (n : threads).

(** ** The caller and the words *)
Definition word_in (n : threads) (a : Z) : option Z := word_at (n_sched n) !! a.
Definition with_word (a v : Z) (n : threads) : threads :=
  n <| n_sched := (n_sched n) <| word_at := <[a := v]> (word_at (n_sched n)) |> |>.

(** The task [t] runs on the core, for the thread [th]; its address is even. *)
Record runs_as (t th : Z) (n : threads) : Prop := {
  ra_present : s_present (n_sched n) = true;
  ra_current : current_task (cls (n_sched n) core) = t;
  ra_entry : ∃ tk, task_at (n_sched n) !! t = Some tk ∧ t_marker tk = SCHEDULER_TASK_MARKER ∧ t_context tk = th;
  ra_even : t ≠ 0 ∧ Z.land t (not32 SCHEDULER_FUTEX_CONTENTION_TRACKING) = t
}.

Lemma wp_on_tasks {A} (m : SM A) (Q : A → threads → Prop) n :
  wp m (λ a s, Q a (n <| n_sched := s |>)) (n_sched n) → wp (on_tasks m) Q n.
Proof. unfold wp, on_tasks. by destruct (m (n_sched n)). Qed.

Lemma wp_read a v (Q : Z → threads → Prop) n : word_in n a = Some v → Q v n → wp (read a) Q n.
Proof. intros Hv HQ. apply wp_on_tasks. unfold get_word. eapply wp_get_opt; [exact Hv|]. by destruct n. Qed.

Lemma wp_atomic_cas a expected desired w (Q : bool * Z → threads → Prop) n :
  word_in n a = Some w → (w = expected → Q (true, expected) (with_word a desired n)) → (w ≠ expected → Q (false, w) n) →
  wp (atomic_cas a expected desired) Q n.
Proof.
  intros Hw Ht Hf. apply wp_on_tasks. unfold compare_exchange, get_word. wp_step. eapply wp_get_opt; [exact Hw|].
  destruct (Z.eqb_spec w expected) as [E|E]; [|apply wp_ret; destruct n; by apply Hf].
  unfold set_word, get_word. wp_step. wp_step. eapply wp_get_opt; [exact Hw|]. apply wp_upd, wp_ret. by apply Ht.
Qed.

Lemma wp_errno_is e (Q : unit → threads → Prop) n :
  Q tt (n <| n_sched := (n_sched n) <| s_errno := e |> |>) → wp (errno_is e) Q n.
Proof. intros HQ. by apply wp_on_tasks, wp_upd. Qed.

Lemma wp_self t th (Q : Z → threads → Prop) n : runs_as t th n → Q t n → wp (on_tasks (scheduler_task core)) Q n.
Proof.
  intros [Hp Hc (tk & Htk & Hmk & _) [Hz _]] HQ. apply wp_on_tasks. unfold scheduler_task. do 2 wp_step. rewrite Hp.
  unfold sched_get_current. do 2 wp_step. rewrite Hc, (proj2 (Z.eqb_neq t 0)) by done. cbn [negb when]. wp_step.
  unfold marked_task. wp_step. apply (wp_get_task _ tk); [done|]. wp_step; [by rewrite Hmk, Z.eqb_refl|].
  wp_step. by destruct n.
Qed.

Lemma wp_thrd_current t th (Q : Z → threads → Prop) n : runs_as t th n → Q th n → wp (thrd_current core) Q n.
Proof.
  intros Hr HQ. unfold thrd_current. wp_step. eapply wp_self; [exact Hr|].
  destruct (ra_entry _ _ _ Hr) as (tk & Htk & _ & <-). wp_step. apply wp_on_tasks. apply (wp_get_task _ tk); [done|].
  wp_step. by destruct n.
Qed.

Lemma runs_as_with_word a v t th n : runs_as t th n → runs_as t th (with_word a v n).
Proof. by intros []. Qed.

Lemma word_with a v b n : word_in (with_word a v n) b = if decide (a = b) then Some v else word_in n b.
Proof. unfold word_in, with_word. rsimp. by rewrite lookup_insert. Qed.

(** ** Mutexes *)

(** A mutex of the kind [type], held [count] times, whose word is [w]. *)
Record mutex_is (m type count w : Z) (n : threads) : Prop := {
  mi_address : m ≠ 0;
  mi_mutex : mtx_at n !! m = Some (Mtx type count);
  mi_word : word_in n (mtx_value m) = Some w;
  mi_count : - 2 ^ 31 < count < 2 ^ 31 - 1
}.

Lemma wp_get_mtx m type count w (Q : mtx → threads → Prop) n :
  mutex_is m type count w n → Q (Mtx type count) n → wp (get_mtx m) Q n.
Proof. intros [_ Hm _ _] HQ. eapply wp_get_opt; [exact Hm|done]. Qed.

Definition with_count (m type c : Z) (n : threads) : threads := n <| mtx_at := <[m := Mtx type c]> (mtx_at n) |>.

Lemma wp_set_mtx_count m type count w c (Q : unit → threads → Prop) n :
  mutex_is m type count w n → - 2 ^ 31 <= c < 2 ^ 31 → Q tt (with_count m type c n) → wp (set_mtx_count m c) Q n.
Proof.
  intros Hm Hc HQ. unfold set_mtx_count. wp_step. eapply wp_get_mtx; [exact Hm|]. rewrite s32_small by done. by apply wp_upd.
Qed.

Lemma mutex_with_count m type count w c n : mutex_is m type count w n → - 2 ^ 31 < c < 2 ^ 31 - 1 →
  mutex_is m type c w (with_count m type c n).
Proof. intros [? ? ? ?] Hc. split; try done. apply lookup_insert_eq. Qed.

Lemma mutex_with_word m type count w v n : mutex_is m type count w n → mutex_is m type count v (with_word (mtx_value m) v n).
Proof. intros [? ? ? ?]. split; try done. by rewrite word_with, decide_True. Qed.

Lemma mutex_errno m type count w e n :
  mutex_is m type count w n → mutex_is m type count w (n <| n_sched := (n_sched n) <| s_errno := e |> |>).
Proof. by intros []. Qed.

Lemma runs_as_errno t th e n : runs_as t th n → runs_as t th (n <| n_sched := (n_sched n) <| s_errno := e |> |>).
Proof. by intros []. Qed.

Lemma is_owner_self t th n : runs_as t th n → is_owner t t = true ∧ is_owner t 0 = false.
Proof.
  intros [_ _ _ [Hz Ht]]. unfold is_owner. rewrite Ht, Z.eqb_refl, Z.land_0_l. split; [done|]. by apply Z.eqb_neq.
Qed.

(** The calls of a mutex leave the threads and the keys alone. *)
Definition same_threads (n n' : threads) : Prop :=
  thrd_at n' = thrd_at n ∧ thrds n' = thrds n ∧ tss_map n' = tss_map n ∧ cnd_at n' = cnd_at n.

Lemma same_trans n1 n2 n3 : same_threads n1 n2 → same_threads n2 n3 → same_threads n1 n3.
Proof. intros (? & ? & ? & ?) (? & ? & ? & ?). unfold same_threads. split_and!; congruence. Qed.

(** What nesting asks of the count after the mutex is taken or let go. *)
Definition counted (type count k : Z) : Z := if has type mtx_recursive then k else count.

Lemma wp_count_when m type count w k (Q : unit → threads → Prop) n :
  mutex_is m type count w n → - 2 ^ 31 < k < 2 ^ 31 - 1 →
  (∀ n', mutex_is m type (counted type count k) w n' → (∀ t th, runs_as t th n → runs_as t th n') → same_threads n n' →
     n_sched n' = n_sched n → Q tt n') →
  wp (when (has type mtx_recursive) (set_mtx_count m k)) Q n.
Proof.
  intros Hm Hk HQ. apply wp_when; intros E; unfold counted in HQ; rewrite E in HQ.
  - eapply wp_set_mtx_count; [exact Hm|lia|]. apply HQ; [by eapply mutex_with_count|by intros ?? []|done|done].
  - by apply HQ.
Qed.

(** An answer, and the mutex afterwards. *)
Definition leaves (m type t th : Z) (count w : Z) (answer : result) (n : threads) (r : result) (n' : threads) : Prop :=
  r = answer ∧ runs_as t th n' ∧ mutex_is m type count w n' ∧ same_threads n n'.

Section mutex.
Context (m type t th : Z) (count : Z) (n : threads).
Hypothesis Hr : runs_as t th n.

Lemma mtx_lock_free fuel : mutex_is m type count 0 n → (1 <= fuel)%nat →
  wp (mtx_lock core fuel m) (leaves m type t th (counted type count 1) t thrd_success n) n.
Proof.
  intros Hm Hf. destruct fuel as [|fuel]; [lia|]. destruct (is_owner_self _ _ _ Hr) as [_ Hfree].
  unfold mtx_lock, _mtx_lock. wp_step. wp_step; [by apply negb_true_iff, Z.eqb_neq, (mi_address _ _ _ _ _ Hm)|].
  wp_step. eapply wp_self; [exact Hr|]. wp_step. eapply wp_get_mtx; [exact Hm|]. wp_step. eapply wp_read; [apply Hm|].
  rewrite Hfree. wp_step. cbn [lock_loop]. wp_step. eapply wp_atomic_cas; [apply Hm|intros _|done]. cbn [fst]. wp_step.
  change (negb (bool_decide (thrd_success = thrd_success))) with false. cbn [mtx_type].
  wp_step. eapply wp_count_when; [by eapply mutex_with_word|lia|]. intros n' Hm' Hr' Hs' _. wp_step.
  split; [done|]. split; [by apply Hr', runs_as_with_word|]. split; [done|]. by eapply same_trans.
Qed.

Lemma mtx_lock_own fuel : mutex_is m type count t n → (has type mtx_recursive = true → count + 1 < 2 ^ 31 - 1) →
  wp (mtx_lock core fuel m)
    (leaves m type t th (counted type count (count + 1)) t (if has type mtx_recursive then thrd_success else thrd_error) n) n.
Proof.
  intros Hm Hc. destruct (is_owner_self _ _ _ Hr) as [Hown _]. pose proof (mi_count _ _ _ _ _ Hm).
  unfold mtx_lock, _mtx_lock, counted. wp_step. wp_step; [by apply negb_true_iff, Z.eqb_neq, (mi_address _ _ _ _ _ Hm)|].
  wp_step. eapply wp_self; [exact Hr|]. wp_step. eapply wp_get_mtx; [exact Hm|]. wp_step. eapply wp_read; [apply Hm|].
  rewrite Hown. cbn [mtx_type]. destruct (has type mtx_recursive) eqn:E; cbn [negb]; [specialize (Hc eq_refl)|].
  - wp_step. eapply wp_set_mtx_count; [exact Hm|cbn; lia|]. wp_step. split; [done|].
    split; [by destruct Hr|]. split; [eapply mutex_with_count; [exact Hm|cbn; lia]|done].
  - wp_step. apply wp_errno_is. wp_step. split; [done|]. split; [by apply runs_as_errno|]. split; [by apply mutex_errno|done].
Qed.

Lemma mtx_trylock_free : mutex_is m type count 0 n →
  wp (mtx_trylock core m) (leaves m type t th (counted type count 1) t thrd_success n) n.
Proof.
  intros Hm. unfold mtx_trylock. wp_step. wp_step; [by apply negb_true_iff, Z.eqb_neq, (mi_address _ _ _ _ _ Hm)|].
  wp_step. eapply wp_self; [exact Hr|]. wp_step. eapply wp_get_mtx; [exact Hm|]. wp_step. eapply wp_read; [apply Hm|].
  rewrite (proj2 (Z.eqb_neq 0 t)) by (destruct (ra_even _ _ _ Hr); done). rewrite andb_false_r. cbn [mtx_type].
  wp_step. eapply wp_atomic_cas; [apply Hm|intros _|done]. cbn [fst negb].
  wp_step. eapply wp_count_when; [by eapply mutex_with_word|lia|]. intros n' Hm' Hr' Hs' _. wp_step.
  split; [done|]. split; [by apply Hr', runs_as_with_word|]. split; [done|]. by eapply same_trans.
Qed.

(** Any other mutex is busy, but for a recursive one whose word is the caller's. *)
Lemma mtx_trylock_busy w : mutex_is m type count w n → w ≠ 0 → has type mtx_recursive && (w =? t) = false →
  wp (mtx_trylock core m) (leaves m type t th count w thrd_busy n) n.
Proof.
  intros Hm Hw E. unfold mtx_trylock. wp_step. wp_step; [by apply negb_true_iff, Z.eqb_neq, (mi_address _ _ _ _ _ Hm)|].
  wp_step. eapply wp_self; [exact Hr|]. wp_step. eapply wp_get_mtx; [exact Hm|]. wp_step. eapply wp_read; [apply Hm|].
  cbn [mtx_type]. rewrite E. wp_step. eapply wp_atomic_cas; [apply Hm|done|intros _]. cbn [fst negb].
  wp_step. apply wp_errno_is. wp_step. split; [done|]. split; [by apply runs_as_errno|]. split; [by apply mutex_errno|done].
Qed.

Lemma mtx_trylock_own : mutex_is m type count t n → (has type mtx_recursive = true → count + 1 < 2 ^ 31 - 1) →
  wp (mtx_trylock core m)
    (leaves m type t th (counted type count (count + 1)) t (if has type mtx_recursive then thrd_success else thrd_busy) n) n.
Proof.
  intros Hm Hc. destruct (has type mtx_recursive) eqn:E.
  - specialize (Hc eq_refl). unfold mtx_trylock, counted. rewrite E. pose proof (mi_count _ _ _ _ _ Hm).
    wp_step. wp_step; [by apply negb_true_iff, Z.eqb_neq, (mi_address _ _ _ _ _ Hm)|].
    wp_step. eapply wp_self; [exact Hr|]. wp_step. eapply wp_get_mtx; [exact Hm|]. wp_step. eapply wp_read; [apply Hm|].
    cbn [mtx_type]. rewrite E, Z.eqb_refl. cbn [andb]. wp_step. eapply wp_set_mtx_count; [exact Hm|cbn; lia|]. wp_step.
    split; [done|]. split; [by destruct Hr|]. split; [eapply mutex_with_count; [exact Hm|cbn; lia]|done].
  - unfold counted. rewrite E. apply mtx_trylock_busy; [done|by destruct (ra_even _ _ _ Hr)|by rewrite E].
Qed.

Definition still_held (k : Z) : bool := has type mtx_recursive && (0 <? k).

Lemma mtx_unlock_own : mutex_is m type count t n → 0 <= count →
  wp (mtx_unlock core m)
    (leaves m type t th (counted type count (count - 1)) (if still_held (count - 1) then t else 0) thrd_success n) n.
Proof.
  intros Hm Hc. destruct (is_owner_self _ _ _ Hr) as [Hown _]. pose proof (mi_count _ _ _ _ _ Hm).
  unfold mtx_unlock. wp_step. wp_step; [by apply negb_true_iff, Z.eqb_neq, (mi_address _ _ _ _ _ Hm)|].
  wp_step. eapply wp_self; [exact Hr|]. wp_step. eapply wp_get_mtx; [exact Hm|]. wp_step. eapply wp_read; [apply Hm|].
  rewrite Hown. cbn [negb mtx_type mtx_count]. wp_step. eapply wp_count_when; [exact Hm|lia|]. intros n' Hm' Hr' Hs' _.
  rewrite s32_small by lia. fold (still_held (count - 1)). destruct (still_held (count - 1)).
  - wp_step. split; [done|]. split; [by apply Hr'|]. split; [done|exact Hs'].
  - wp_step. eapply wp_read; [apply Hm'|]. rewrite Z.eqb_refl. wp_step. eapply wp_atomic_cas; [apply Hm'|intros _|done].
    cbn [fst]. wp_step. split; [done|]. split; [by apply runs_as_with_word, Hr'|]. split; [by eapply mutex_with_word|].
    by eapply same_trans.
Qed.

Lemma mtx_unlock_other w : mutex_is m type count w n → is_owner t w = false →
  wp (mtx_unlock core m) (leaves m type t th count w thrd_error n) n.
Proof.
  intros Hm Hw. unfold mtx_unlock. wp_step. wp_step; [by apply negb_true_iff, Z.eqb_neq, (mi_address _ _ _ _ _ Hm)|].
  wp_step. eapply wp_self; [exact Hr|]. wp_step. eapply wp_get_mtx; [exact Hm|]. wp_step. eapply wp_read; [apply Hm|].
  rewrite Hw. cbn [negb]. wp_step. apply wp_errno_is. wp_step. split; [done|].
  split; [by apply runs_as_errno|]. split; [by apply mutex_errno|done].
Qed.
End mutex.

(** *** Sequences of calls by one thread

    The abstract mutex is the number of times the thread holds it. *)
Inductive mtx_op := Lock | TryLock | Unlock.
Definition mtx_call (fuel : nat) (m : Z) (op : mtx_op) : TM result :=
  match op with Lock => mtx_lock core fuel m | TryLock => mtx_trylock core m | Unlock => mtx_unlock core m end.
Fixpoint mtx_calls (fuel : nat) (m : Z) (ops : list mtx_op) : TM (list result) :=
  match ops with [] => ret [] | op :: ops => r <- mtx_call fuel m op ;; rs <- mtx_calls fuel m ops ;; ret (r :: rs) end.

Definition nest (recursive : bool) (op : mtx_op) (held : nat) : result * nat :=
  match op, held with
  | Unlock, O => (thrd_error, O)
  | Unlock, S k => (thrd_success, k)
  | _, O => (thrd_success, 1%nat)
  | Lock, S _ => if recursive then (thrd_success, S held) else (thrd_error, held)
  | TryLock, S _ => if recursive then (thrd_success, S held) else (thrd_busy, held)
  end.
Fixpoint nests (recursive : bool) (ops : list mtx_op) (held : nat) : list result * nat :=
  match ops with
  | [] => ([], held)
  | op :: ops => let r := nest recursive op held in let rs := nests recursive ops r.2 in (r.1 :: rs.1, rs.2)
  end.

(** The thread holds the mutex [held] times, and nobody contends for it. *)
Definition holds (m type t th : Z) (held : nat) (n : threads) : Prop :=
  runs_as t th n ∧ ∃ count, mutex_is m type count (if decide (held = O) then 0 else t) n ∧ 0 <= count ∧
    (held ≠ O → if has type mtx_recursive then count = Z.of_nat held else held = 1%nat).

Lemma leaves_holds m type t th held count w (answer r : result) n0 n :
  leaves m type t th count w answer n0 r n → w = (if decide (held = O) then 0 else t) → 0 <= count →
  (held ≠ O → if has type mtx_recursive then count = Z.of_nat held else held = 1%nat) →
  r = answer ∧ holds m type t th held n.
Proof. intros (-> & Hr & Hm & _) -> Hc Hh. split; [done|]. split; [done|]. by exists count. Qed.

Lemma mtx_call_nests fuel m type t th op held n :
  holds m type t th held n → Z.of_nat held < 2 ^ 31 - 2 → (1 <= fuel)%nat →
  wp (mtx_call fuel m op) (λ r n', r = (nest (has type mtx_recursive) op held).1 ∧
    holds m type t th (nest (has type mtx_recursive) op held).2 n') n.
Proof.
  intros (Hr & count & Hm & Hc & Hh) Hb Hf. pose proof (mi_count _ _ _ _ _ Hm).
  destruct op, held as [|k]; cbn [mtx_call nest fst snd]; cbn [decide] in Hm; try specialize (Hh ltac:(done)).
  all: destruct (has type mtx_recursive) eqn:E; eapply wp_mono.
  all: try (by apply mtx_lock_free; [exact Hr|exact Hm|done]).
  all: try (by apply mtx_trylock_free; [exact Hr|exact Hm]).
  all: try (by apply mtx_unlock_other; [exact Hr|exact Hm|apply (is_owner_self _ _ _ Hr)]).
  all: try (by apply mtx_unlock_own; [exact Hr|exact Hm|done]).
  all: try (by apply mtx_lock_own; [exact Hr|exact Hm|intros ?; lia || congruence]).
  all: try (by apply mtx_trylock_own; [exact Hr|exact Hm|intros ?; lia || congruence]).
  all: intros r n' Hl; unfold counted, still_held in Hl; rewrite ?E in Hl; eapply leaves_holds; [exact Hl|..]; rewrite ?E.
  all: cbn [andb snd fst]; repeat case_decide; intros; try done; try lia; destruct (Z.ltb_spec 0 (count - 1)); done || lia.
Qed.

Lemma mtx_calls_nest fuel m type t th ops : ∀ held n,
  holds m type t th held n → Z.of_nat (held + length ops) < 2 ^ 31 - 2 → (1 <= fuel)%nat →
  wp (mtx_calls fuel m ops) (λ rs n', rs = (nests (has type mtx_recursive) ops held).1 ∧
    holds m type t th (nests (has type mtx_recursive) ops held).2 n') n.
Proof.
  induction ops as [|op ops IH]; intros held n Hh Hb Hf; cbn [mtx_calls nests length] in *; [by apply wp_ret|].
  wp_step. eapply wp_mono; [by eapply mtx_call_nests; [exact Hh|lia|]|]. intros r n1 [-> Hh1].
  assert ((nest (has type mtx_recursive) op held).2 <= S held)%nat as Hle.
  { destruct op, held; cbn; try destruct (has type mtx_recursive); cbn; lia. }
  wp_step. eapply wp_mono; [eapply IH; [exact Hh1|lia|done]|]. intros rs n2 [-> Hh2]. by wp_step.
Qed.

(** ** Deadlines *)
Lemma missed_iff ticks tm : is_u32 ticks → 0 <= tm < 2 ^ 64 → missed ticks tm = negb (tm =? ticks).
Proof.
  unfold is_u32, word, missed, u64. intros Ht Htm. destruct (Z.ltb_spec ticks tm); cbn [orb].
  - symmetry. apply negb_true_iff, Z.eqb_neq. lia.
  - destruct (Z.eqb_spec tm ticks) as [->|Hne]; cbn [negb].
    + by rewrite Z.sub_diag.
    + assert (tm - ticks = (tm - ticks + 2 ^ 64) + (-1) * 2 ^ 64) as -> by lia. rewrite Z_mod_plus_full.
      rewrite Z.mod_small by lia. apply Z.leb_le. unfold UINT32_MAX. lia.
Qed.

(** ** Keys *)

(** The storage of the thread [t]: a value for each key. *)
Record stores (t : Z) (b : thrd) (n : threads) : Prop := {
  so_keys : length (tss_map n) = __THRD_KEYS_MAX;
  so_block : thrd_at n !! t = Some b;
  so_values : length (th_tss b) = __THRD_KEYS_MAX
}.

Lemma map_same g n : g (tss_map n) = tss_map n → n <| tss_map ::= g |> = n.
Proof. intros E. destruct n as [a b c d m e f]. cbn in E. by rewrite <- E at 2. Qed.

Lemma find_slot_run d k : ∀ i n, length (tss_map n) = (i + k)%nat →
  find_slot k (Z.of_nat i) d n =
    match list_find (λ sl, tss_used sl = false) (drop i (tss_map n)) with
    | Some (j, _) => Done (thrd_success, Z.of_nat (i + j)) (n <| tss_map := <[(i + j)%nat := Tss true d]> (tss_map n) |>)
    | None => Done (thrd_error, 0) (n <| n_sched := (n_sched n) <| s_errno := EAGAIN |> |>)
    end.
Proof.
  induction k as [|k IH]; intros i n Hl; cbn [find_slot].
  - rewrite drop_ge by lia. done.
  - destruct (lookup_lt_is_Some_2 (tss_map n) i) as [sl Hsl]; [lia|].
    rewrite (drop_S _ _ _ Hsl). cbn [list_find].
    unfold bind at 1, get_slot at 1, get_opt. rewrite Nat2Z.id, Hsl.
    unfold bind at 1, set_slot at 1, get_slot, get_opt, bind at 1, upd. rewrite Nat2Z.id, Hsl.
    destruct (decide (tss_used sl = false)) as [E|E].
    + rewrite E. cbn [negb]. unfold bind at 1, set_slot, get_slot, get_opt, bind at 1, upd, ret. rsimp.
      rewrite Nat2Z.id, list_lookup_insert_eq by lia. rewrite Nat.add_0_r.
      by rewrite <- (list_insert_insert_eq (tss_map n) i (Tss true d) (Tss true (tss_destructor sl))).
    + destruct sl as [used d0]. apply not_false_is_true in E. cbn in E. subst used. cbn [tss_used tss_destructor negb].
      replace (n <| tss_map ::= <[i := Tss true d0]> |>) with n
        by (symmetry; by apply map_same, list_insert_id).
      replace (Z.of_nat i + 1) with (Z.of_nat (S i)) by lia. rewrite IH by lia.
      destruct (list_find _ (drop (S i) (tss_map n))) as [[j sl]|]; cbn; [|done].
      by rewrite Nat.add_succ_r.
Qed.

Lemma unusable_run key n sl : 0 <= key → tss_map n !! Z.to_nat key = Some sl → past_keys key = false →
  unusable key n = Done (negb (tss_used sl)) n.
Proof. intros Hk Hsl Hp. unfold unusable. rewrite Hp. unfold bind, get_slot, get_opt. by rewrite Hsl. Qed.

Lemma past_keys_false key : key <= 8 → past_keys key = false.
Proof. intros Hk. apply Z.ltb_ge. exact Hk. Qed.

Lemma thrd_current_run t th n : runs_as t th n → thrd_current core n = Done th n.
Proof.
  intros Hr. apply (wp_thrd_current t th (λ r n', r = th ∧ n' = n)) in Hr as Hw; [|done].
  apply wp_inv in Hw as (a & n' & -> & -> & ->). done.
Qed.

Lemma tss_get_run t th b key v n : runs_as t th n → stores th b n → 0 <= key < 8 →
  (∃ d, tss_map n !! Z.to_nat key = Some (Tss true d)) → th_tss b !! Z.to_nat key = Some v → tss_get core key n = Done v n.
Proof.
  intros Hr [_ Hb _] Hk [d Hd] Hv. unfold tss_get, bind at 1.
  rewrite (unusable_run _ _ (Tss true d)) by (lia || done || by apply past_keys_false; lia). cbn [tss_used negb].
  unfold bind. rewrite (thrd_current_run t th) by done. unfold get_opt. rewrite Hb. cbn. by rewrite Hv.
Qed.

Lemma set_value_run t b key v n : stores t b n → 0 <= key < 8 →
  set_value t key v n = Done tt (n <| thrd_at := <[t := b <| th_tss := <[Z.to_nat key := v]> (th_tss b) |>]> (thrd_at n) |>).
Proof.
  intros [_ Hb Hl] Hk. unfold set_value, bind at 1, get_opt. rewrite Hb. cbn.
  destruct (lookup_lt_is_Some_2 (th_tss b) (Z.to_nat key)) as [old ->]; [rewrite Hl; unfold __THRD_KEYS_MAX; lia|].
  unfold upd_thrd, bind, get_thrd, get_opt, upd. by rewrite Hb.
Qed.

Lemma tss_set_run t th b key v n : runs_as t th n → stores th b n → 0 <= key < 8 →
  (∃ d, tss_map n !! Z.to_nat key = Some (Tss true d)) →
  tss_set core key v n =
    Done thrd_success (n <| thrd_at := <[th := b <| th_tss := <[Z.to_nat key := v]> (th_tss b) |>]> (thrd_at n) |>).
Proof.
  intros Hr Hs Hk [d Hd]. unfold tss_set, bind at 1.
  rewrite (unusable_run _ _ (Tss true d)) by (lia || done || by apply past_keys_false; lia). cbn [tss_used negb].
  unfold bind. rewrite (thrd_current_run t th) by done. by rewrite (set_value_run _ b) by done.
Qed.

(** ** The values of an ending thread *)

(** The keys with a destructor and a value, in order. *)
Fixpoint pending (slots : list tss_slot) (values : list Z) (j : Z) : list (Z * Z * Z) :=
  match slots, values with
  | sl :: slots, v :: values =>
      (if tss_used sl && negb (tss_destructor sl =? 0) && negb (v =? 0) then [(j, tss_destructor sl, v)] else []) ++
      pending slots values (j + 1)
  | _, _ => []
  end.
(** Clear each value and hand it to its destructor. *)
Fixpoint destroy_each (l : list (Z * Z * Z)) (t : Z) : TM unit :=
  match l with
  | [] => ret tt
  | (j, d, v) :: l => set_value t j 0 ;;; call_destructor d v ;;; destroy_each l t
  end.
(** The values with a destructor, cleared. *)
Fixpoint cleared (slots : list tss_slot) (values : list Z) : list Z :=
  match slots, values with
  | sl :: slots, v :: values =>
      (if tss_used sl && negb (tss_destructor sl =? 0) then 0 else v) :: cleared slots values
  | _, _ => values
  end.

(** Destructors that leave keys and threads alone. *)
Definition clean_destructors : Prop := ∀ d v n, ∃ n',
  call_destructor d v n = Done tt n' ∧ tss_map n' = tss_map n ∧ thrd_at n' = thrd_at n.

Lemma pending_cleared slots : ∀ values j, pending slots (cleared slots values) j = [].
Proof.
  induction slots as [|sl slots IH]; intros [|v values] j; cbn; [done..|]. rewrite IH, app_nil_r.
  destruct (tss_used sl && negb (tss_destructor sl =? 0)) eqn:E; done.
Qed.

Lemma cleared_length slots : ∀ values, length (cleared slots values) = length values.
Proof. induction slots as [|sl slots IH]; intros [|v values]; cbn; [done..|]. by rewrite IH. Qed.

Lemma take_insert_S {A} (l : list A) i x y : l !! i = Some x → take (S i) (<[i := y]> l) = take i l ++ [y].
Proof.
  intros Hx. apply lookup_lt_Some in Hx. rewrite (take_S_r _ _ y) by by apply list_lookup_insert_eq.
  by rewrite take_insert_ge by lia.
Qed.

(** A pass destroys what is pending, counts it, and leaves the values cleared. *)
Lemma destroy_keys_run (Hd : clean_destructors) t k : ∀ j n b, stores t b n → (j + k = __THRD_KEYS_MAX)%nat →
  let l := pending (drop j (tss_map n)) (drop j (th_tss b)) (Z.of_nat j) in
  ∃ n', destroy_each l t n = Done tt n' ∧ destroy_keys k (Z.of_nat j) t n = Done (Z.of_nat (length l)) n' ∧
    tss_map n' = tss_map n ∧
    stores t (b <| th_tss := take j (th_tss b) ++ cleared (drop j (tss_map n)) (drop j (th_tss b)) |>) n'.
Proof.
  induction k as [|k IH]; intros j n b Hs Hj l.
  - pose proof Hs as [H1' H2' H3']. subst l. rewrite !drop_ge by lia. exists n. cbn. split_and!; [done..|].
    split; [done| |rsimp; rewrite app_nil_r, length_take; lia].
    rewrite app_nil_r, take_ge by lia. by destruct b.
  - pose proof Hs as [H1' H2' H3']. cbn [destroy_keys].
    destruct (lookup_lt_is_Some_2 (tss_map n) j) as [sl Hsl]; [lia|].
    destruct (lookup_lt_is_Some_2 (th_tss b) j) as [v Hv]; [lia|].
    subst l. rewrite (drop_S _ _ _ Hsl), (drop_S _ _ _ Hv). cbn [pending cleared].
    unfold bind at 1, get_slot, get_opt. rewrite Nat2Z.id, Hsl. unfold bind at 1. rewrite H2'. cbn [mbind option_bind].
    rewrite Hv. replace (Z.of_nat j + 1) with (Z.of_nat (S j)) by lia.
    destruct (tss_used sl && negb (tss_destructor sl =? 0)) eqn:Eu; cbn [andb]; [destruct (Z.eqb_spec v 0) as [->|Hv0]; cbn [negb]|].
    + destruct (IH (S j) n b Hs ltac:(lia)) as (n' & R1 & R2 & R3 & R4). exists n'. split_and!; [done..|].
      by rewrite (take_S_r _ _ _ Hv), <- app_assoc in R4.
    + set (b1 := b <| th_tss := <[j := 0]> (th_tss b) |>).
      set (n1 := n <| thrd_at := <[t := b1]> (thrd_at n) |>).
      assert (set_value t (Z.of_nat j) 0 n = Done tt n1) as Hset.
      { rewrite (set_value_run _ b) by (done || unfold __THRD_KEYS_MAX in *; lia). by rewrite Nat2Z.id. }
      destruct (Hd (tss_destructor sl) v n1) as (n2 & Hcall & Hmap & Hth).
      assert (stores t b1 n2) as Hs2.
      { split; [by rewrite Hmap|rewrite Hth; apply lookup_insert_eq|]. unfold b1. rsimp. by rewrite length_insert. }
      destruct (IH (S j) n2 b1 Hs2 ltac:(lia)) as (n' & R1 & R2 & R3 & R4).
      assert (drop (S j) (th_tss b1) = drop (S j) (th_tss b)) as Edrop by (unfold b1; rsimp; apply drop_insert_lt; lia).
      change (tss_map n1) with (tss_map n) in Hmap. rewrite Hmap, Edrop in *. exists n'. split_and!; [| | done|].
      * cbn [app destroy_each]. unfold bind at 1. rewrite Hset. unfold bind at 1. by rewrite Hcall.
      * unfold bind at 1. rewrite Hset. unfold bind at 1. rewrite Hcall. unfold bind. rewrite R2. cbn [app length]. unfold ret.
        f_equal. lia.
      * change (b1 <| th_tss := take (S j) (th_tss b1) ++ cleared (drop (S j) (tss_map n)) (drop (S j) (th_tss b)) |>)
          with (b <| th_tss := take (S j) (<[j := 0]> (th_tss b)) ++ cleared (drop (S j) (tss_map n)) (drop (S j) (th_tss b)) |>) in R4.
        by rewrite (take_insert_S _ _ _ _ Hv), <- app_assoc in R4.
    + destruct (IH (S j) n b Hs ltac:(lia)) as (n' & R1 & R2 & R3 & R4). exists n'. split_and!; [done..|].
      by rewrite (take_S_r _ _ _ Hv), <- app_assoc in R4.
Qed.

Lemma destroy_rounds_run (Hd : clean_destructors) t b n : stores t b n →
  ∃ n', destroy_each (pending (tss_map n) (th_tss b) 0) t n = Done tt n' ∧
    destroy_rounds TSS_DTOR_ITERATIONS t n = Done tt n' ∧ tss_map n' = tss_map n ∧
    stores t (b <| th_tss := cleared (tss_map n) (th_tss b) |>) n'.
Proof.
  intros Hs. destruct (destroy_keys_run Hd t __THRD_KEYS_MAX 0 n b Hs eq_refl) as (n1 & R1 & R2 & R3 & R4).
  change (Z.of_nat 0) with 0 in *. rewrite !drop_0 in R1, R2, R4. change (take 0 (th_tss b) ++ ?l) with l in R4. exists n1. split_and!; [done| |done|done]. unfold TSS_DTOR_ITERATIONS.
  cbn [destroy_rounds]. unfold bind at 1. rewrite R2. destruct (Z.of_nat _ =? 0); [done|].
  destruct (destroy_keys_run Hd t __THRD_KEYS_MAX 0 n1 _ R4 eq_refl) as (n2 & S1 & S2 & _ & _).
  change (Z.of_nat 0) with 0 in *. rewrite !drop_0, R3 in S1, S2.
  change (th_tss (b <| th_tss := cleared (tss_map n) (th_tss b) |>)) with (cleared (tss_map n) (th_tss b)) in S1, S2.
  rewrite pending_cleared in S1, S2. injection S1 as <-. unfold bind. by rewrite S2.
Qed.

(** ** Joining *)
Lemma aborts_not (Q : unit → threads → Prop) n : Q tt n → wp (aborts_unless_success thrd_success) Q n.
Proof. done. Qed.

Lemma wp_get_thrd t b (Q : thrd → threads → Prop) n : thrd_at n !! t = Some b → Q b n → wp (get_thrd t) Q n.
Proof. intros Hb HQ. by eapply wp_get_opt. Qed.

(** The lock of the list is free and not recursive. *)
Definition list_free (n : threads) : Prop := ∃ type count, has type mtx_recursive = false ∧ mutex_is thrds_lock type count 0 n.

Lemma wp_list_lock fuel t th (Q : result → threads → Prop) n : runs_as t th n → list_free n → (1 <= fuel)%nat →
  (∀ n' type count, has type mtx_recursive = false → runs_as t th n' → mutex_is thrds_lock type count t n' →
    same_threads n n' → Q thrd_success n') →
  wp (mtx_lock core fuel thrds_lock) Q n.
Proof.
  intros Hr (type & count & Ht & Hm) Hf HQ. eapply wp_mono; [by apply (mtx_lock_free _ type t th count)|].
  intros r n' (-> & Hr' & Hm' & Hs'). by eapply HQ.
Qed.

Lemma wp_list_unlock t th type count (Q : result → threads → Prop) n : runs_as t th n → has type mtx_recursive = false →
  mutex_is thrds_lock type count t n → (∀ n', same_threads n n' → list_free n' → runs_as t th n' → Q thrd_success n') →
  wp (mtx_unlock core thrds_lock) Q n.
Proof.
  intros Hr Ht Hm HQ. pose proof (mi_count _ _ _ _ _ Hm). unfold mtx_unlock.
  wp_step. wp_step; [by apply negb_true_iff, Z.eqb_neq, (mi_address _ _ _ _ _ Hm)|].
  wp_step. eapply wp_self; [exact Hr|]. wp_step. eapply wp_get_mtx; [exact Hm|]. wp_step. eapply wp_read; [apply Hm|].
  rewrite (proj1 (is_owner_self _ _ _ Hr)). cbn [negb mtx_type]. rewrite Ht. cbn [andb when]. wp_step. wp_step.
  wp_step. eapply wp_read; [apply Hm|]. rewrite Z.eqb_refl. wp_step. eapply wp_atomic_cas; [apply Hm|intros _|done].
  cbn [fst]. wp_step. apply HQ; [done| |by apply runs_as_with_word].
  exists type, count. split; [done|]. by eapply mutex_with_word.
Qed.

(** ** Runs that keep a word *)
Section claim.
Context (flag : Z).
Definition claimed (s : sched) : Prop := word_at s !! flag = Some 1.

(** A wait leaves a word that holds 1 as it is: the contention bit it may set is
    that bit. *)
Lemma exchange_keeps a e flags : keeps claimed (compare_exchange a e (contended flags e)).
Proof.
  intros s [ok v] s' Hc. unfold compare_exchange, get_word, set_word, bind, get_opt, upd, ret.
  destruct (word_at s !! a) as [w|] eqn:E; [|done]. destruct (Z.eqb_spec w e) as [<-|]; [|by intros [= <- <- <-]].
  unfold get_word, get_opt. rewrite E. intros [= <- <- <-]. unfold claimed in *. rsimp.
  destruct (decide (a = flag)) as [->|]; [|by rewrite lookup_insert_ne].
  rewrite lookup_insert_eq. assert (w = 1) as -> by congruence. unfold contended.
  by destruct (has flags _).
Qed.

(** Nothing else of a wait touches a word. *)
Ltac keeps_unfold :=
  unfold set_queue, get_queue, sched_queue_push, sched_queue_remove, sched_queue_highest_priority, sched_queue_reprioritize,
    scheduler_timer_push, sched_set_current, sched_get_current, scheduler_spin_lock, scheduler_spin_unlock, scheduler_request_switch,
    scheduler_switch_hook, marked_task, add_owned, upd_task, upd_futex, upd_frame, upd_cls, get_task, get_futex, get_frame, set_errno.

Lemma wait_svc_keeps fr : keeps claimed (scheduler_wait_svc core fr).
Proof.
  unfold scheduler_wait_svc. repeat (progress (keeps_unfold; keeps_steps); try apply exchange_keeps).
Qed.

Definition returns_keep : Prop := ∀ frame, keeps claimed (return_to_caller core frame).

Lemma futex_wait_keeps f v k : returns_keep → keeps claimed (scheduler_futex_wait core f v k).
Proof.
  intros Hret. unfold scheduler_futex_wait, marked_futex, svc_call. keeps_unfold.
  keeps_steps; first [by apply wait_svc_keeps|by apply Hret].
Qed.
End claim.
End laws.
