(* ===== verification/ThreadsWake.v ===== *)
(** * C11 threads: who is woken

    The hand-over of a contended mutex, the wakes of a condition variable, and
    the wake the end of a thread records, from the contract of the scheduler's
    wake; for a caller nothing disturbs. *)
From S2P Require Import Prelude Scheduler SchedulerSvc SchedulerApi SchedulerInv SchedulerSafe SchedulerWake SchedulerHandlers SchedulerSwitch SchedulerSystem SchedulerCalls WakeLaws Threads ThreadsLaws.

(** Nothing else runs while a call of the scheduler does. *)
Class Alone `{ThreadsEnv} : Prop := nothing_else n : thrds_ran n = Done tt n.

Section wakes.
Context `{EnvironmentLaws} `{Trap} {Hres : Resumes} `{ThreadsEnv} {Halone : Alone} (core : Z).
Implicit Types (n : threads).

Definition in_order (n : threads) : Prop := in_thread core (n_sched n).

Lemma wp_switching {A} (m : SM A) (Q : A → threads → Prop) n :
  wp m (λ a s, Q a (n <| n_sched := s |>)) (n_sched n) → wp (switching m) Q n.
Proof.
  intros Hm. unfold switching. wp_step. apply wp_on_tasks. eapply wp_mono; [exact Hm|]. intros a s HQ.
  wp_step. eapply wp_done; [apply nothing_else|]. by wp_step.
Qed.

(** ** Mutexes *)
Definition mtx_flags (type : Z) : Z :=
  if has type mtx_prio_inherit
  then Z.lor SCHEDULER_FUTEX_PI (Z.lor SCHEDULER_FUTEX_OWNER_TRACKING SCHEDULER_FUTEX_CONTENTION_TRACKING)
  else Z.lor SCHEDULER_FUTEX_OWNER_TRACKING SCHEDULER_FUTEX_CONTENTION_TRACKING.

(** The tasks of [l] wait for the mutex at [m], in the futex [mtx_init] made. *)
Record awaited (m type : Z) (l : list Z) (n : threads) : Prop := {
  aw_address : mtx_futex m ≠ 0;
  aw_futex : futex_at (n_sched n) !! mtx_futex m = Some (Futex (mtx_value m) l (mtx_flags type) SCHEDULER_FUTEX_MARKER)
}.

Lemma mtx_flags_track type :
  has (mtx_flags type) SCHEDULER_FUTEX_OWNER_TRACKING = true ∧ has (mtx_flags type) SCHEDULER_FUTEX_CONTENTION_TRACKING = true.
Proof. unfold mtx_flags. by destruct (has type mtx_prio_inherit). Qed.

Lemma awaited_after f fx v l1 l2 s s' m type l :
  fx = Futex (mtx_value m) l (mtx_flags type) SCHEDULER_FUTEX_MARKER → f = mtx_futex m → futex_at s !! f = Some fx →
  woken_by core f fx false v l1 l2 s s' →
  futex_at s' !! f = Some (Futex (mtx_value m) (drop 1 l1) (mtx_flags type) SCHEDULER_FUTEX_MARKER).
Proof.
  intros -> -> Hfx Hw. pose proof (wb_others _ _ _ _ _ _ _ _ _ Hw (mtx_futex m)) as Hid.
  pose proof (wb_queue _ _ _ _ _ _ _ _ _ Hw) as Hq. cbn [queue] in Hq.
  assert (l2 = drop 1 l1) as ->.
  { pose proof (wb_split _ _ _ _ _ _ _ _ _ Hw) as E. change (chosen _ false l1) with (take 1 l1) in E.
    rewrite <-(take_drop 1 l1) in E at 1. by apply app_inv_head in E. }
  destruct (futex_at s' !! mtx_futex m) as [[a' l' g' k']|]; [|done]. rewrite Hfx in Hid. unfold futex_id in Hid. cbn in *. congruence.
Qed.

(** The last unlock of a contended mutex. *)
Lemma mtx_unlock_contended m type count t th l n :
  in_order n → runs_as core t th n → mutex_is m type count (contended_word t) n → awaited m type l n →
  0 <= count → still_held type (count - 1) = false →
  wp (mtx_unlock core m) (λ r n', r = thrd_success ∧ in_order n' ∧ same_threads n n' ∧ ∃ l1,
    l1 ≡ₚ l ∧ (has type mtx_prio_inherit = false → l1 = l) ∧
    mutex_is m type (counted type count (count - 1)) (handed_word t l1) n' ∧ awaited m type (drop 1 l1) n' ∧
    ∀ u, u ∈ take 1 l1 → readied (n_sched n') u) n.
Proof.
  intros Hin Hr Hm [Hf Hfx] Hc Hk. pose proof (mi_count _ _ _ _ _ Hm). destruct (ra_even _ _ _ _ Hr) as [Hz Hev].
  change (owner_of t = t) in Hev. pose proof (owner_of_contended t Hev) as Hoc.
  assert (is_owner t (contended_word t) = true) as Hown by (apply Z.eqb_eq; symmetry; exact Hoc).
  unfold mtx_unlock. wp_step. wp_step; [by apply negb_true_iff, Z.eqb_neq, (mi_address _ _ _ _ _ Hm)|].
  wp_step. eapply wp_self; [exact Hr|]. wp_step. eapply wp_get_mtx; [exact Hm|]. wp_step. eapply wp_read; [apply Hm|].
  rewrite Hown. cbn [negb mtx_type mtx_count]. wp_step. eapply (wp_count_when core); [exact Hm|lia|]. intros n1 Hm1 Hr1 Hs1 Es.
  rewrite s32_small by lia. fold (still_held type (count - 1)). rewrite Hk.
  wp_step. eapply wp_read; [apply Hm1|]. rewrite (proj2 (Z.eqb_neq _ _)) by by apply contended_differs.
  wp_step. wp_step. cbn [fst]. wp_step. apply wp_switching. rewrite Es.
  pose proof (mi_word _ _ _ _ _ Hm) as Hw0. unfold word_in in Hw0.
  eapply wp_mono; [eapply (futex_wake_any core); [exact Hin|exact Hf|exact Hfx|done|exact Hw0|]|].
  { intros _. rewrite Hoc, <-(ra_current _ _ _ _ Hr). change (current (n_sched n) core ∈ s_tasks (n_sched n)).
    destruct (ix_current _ _ (proj1 (it_quiescent _ _ Hin)) core (it_task _ _ Hin)); set_solver. }
  intros r s (-> & l1 & l2 & Hw). rewrite (proj2 (Z.ltb_ge _ 0)) by lia. wp_step.
  split; [done|]. split; [apply Hw|]. split; [exact Hs1|].
  destruct (wb_order _ _ _ _ _ _ _ _ _ Hw) as [Hp Hord]. cbn in Hp, Hord.
  exists l1. split; [done|]. split; [intros E; apply Hord; unfold inherits, mtx_flags; cbn; by rewrite E|]. split; [|split; [split; [done|by eapply awaited_after]|]].
  - destruct Hm1 as [? ? _ ?]. split; [done|done| |done].
    change (word_at s !! mtx_value m = Some (handed_word t l1)).
    destruct (mtx_flags_track type) as [Ho Hcn]. rewrite <-(final_word_tracked (mtx_value m) l1 t _ Ho Hcn Hev).
    exact (wb_word _ _ _ _ _ _ _ _ _ Hw).
  - intros u Hu. eapply wb_readied; [exact Hw|exact Hu].
Qed.

(** ** Condition variables *)

(** Nobody but the waiters of [l] is woken, in the order they wait in: all of
    them, or the first. *)
Lemma cnd_wakeup_wakes c all l v n :
  in_order n → c ≠ 0 → plain_futex (cnd_futex c) (cnd_sequence c) l (n_sched n) → word_in n (cnd_sequence c) = Some v →
  wp (_cnd_wakeup core c all) (λ r n', r = thrd_success ∧ in_order n' ∧ same_threads n n' ∧
    word_in n' (cnd_sequence c) = Some (u32 (v + 1)) ∧
    plain_futex (cnd_futex c) (cnd_sequence c) (left_waiting all l) (n_sched n') ∧
    ∀ t, t ∈ first_or_all all l → readied (n_sched n') t) n.
Proof.
  intros Hin Hc Hp Hv. pose proof Hp as [Hf Hfx]. unfold _cnd_wakeup. wp_step. wp_step; [by apply negb_true_iff, Z.eqb_neq|].
  wp_step. eapply wp_read; [exact Hv|]. wp_step. apply wp_on_tasks. unfold set_word. wp_step. unfold get_word.
  eapply wp_get_opt; [exact Hv|]. apply wp_upd. set (s1 := (n_sched n) <| word_at := <[cnd_sequence c := u32 (v + 1)]> (word_at (n_sched n)) |>).
  assert (in_thread core s1) as Hin1.
  { apply in_thread_words; [done|]. intros b Hb. rewrite lookup_insert. case_decide; [eauto|done]. }
  assert (word_at s1 !! cnd_sequence c = Some (u32 (v + 1))) as Hv1 by apply lookup_insert_eq.
  wp_step. apply wp_switching. change (n_sched (n <| n_sched := _ |>)) with s1.
  eapply wp_mono; [eapply (futex_wake_any core); [exact Hin1|exact Hf|exact Hfx|done|exact Hv1|done]|].
  intros r s (_ & l1 & l2 & Hw). apply woken_plain in Hw; [|done|exact Hv1]. wp_step.
  split; [done|]. split; [apply Hw|]. split; [done|]. split; [|split; [apply Hw|exact (wn_readied _ _ _ _ _ _ _ _ Hw)]].
  unfold word_in. rsimp. rewrite (wn_word _ _ _ _ _ _ _ _ Hw). exact Hv1.
Qed.

(** ** The end of a thread *)

(** The handler runs inside the scheduler: the wake it asks for is recorded, and
    nothing but the slots and [errno] changes. *)
Lemma defer_wake_deferred w k : core ≠ UINT32_MAX → ∀ i s,
  length (deferred_wake (cls s core)) = SCHEDULER_MAX_DEFERED_WAKE → (i + k)%nat = SCHEDULER_MAX_DEFERED_WAKE →
  w ∉ take i (deferred_wake (cls s core)) → 0 ∉ take i (deferred_wake (cls s core)) →
  wp (defer_wake core k i w) (λ r s', deferred core w s r s' ∧ word_at s' = word_at s) s.
Proof.
  intros Hcore. induction k as [|k IH]; intros i s Hl Hn Hni Hz; cbn [defer_wake].
  { unfold set_errno. do 3 wp_step. rewrite take_ge in Hni, Hz by lia. split; [by apply deferred_full|done]. }
  do 2 wp_step. destruct (lookup_lt_is_Some_2 (deferred_wake (cls s core)) i) as [x Hx]; [lia|].
  rewrite (list_lookup_total_correct _ _ _ Hx). wp_step.
  - replace x with 0 in Hx by lia. wp_step. unfold upd_cls at 1. apply wp_upd. fold (fill_slot i w (cls s core)).
    fold (on_core core (fill_slot i w) s). wp_step. unfold upd_cls. apply wp_upd.
    set (s1 := on_core core (fill_slot i w) s). fold (give_wake (cls s1 core)). fold (on_core core give_wake s1).
    wp_step. apply wp_ask; [done|]. wp_step. set (s2 := on_core core give_wake s1).
    assert (cls (on_core core asks s2) core = asks (give_wake (fill_slot i w (cls s core)))) as E.
    { unfold s2, s1. by rewrite !cls_own. }
    split; [|done]. eapply (deferred_new _ _ _ _ _ i); try done; rewrite ?E; try done. intros _. by rewrite E.
  - assert (take (S i) (deferred_wake (cls s core)) = take i (deferred_wake (cls s core)) ++ [x]) as Et by (by apply take_S_r).
    wp_step.
    + assert (w = x) as -> by lia. wp_step. split; [|done]. apply deferred_coalesced; [done| |done].
      by eapply list_elem_of_lookup_2.
    + apply IH; [done|lia| |]; rewrite Et, elem_of_app, list_elem_of_singleton; intros [?|?]; try done; lia.
Qed.

(** Who is told of the end of a thread. *)
Definition exit_cnd (thread : Z) (b : thrd) : Z := if th_detached b then thrds_reap else thrd_joiners thread.

(** The condition variable at [c], as [cnd_init] made it, whoever waits. *)
Record signalled (c v : Z) (n : threads) : Prop := {
  sg_address : c ≠ 0 ∧ cnd_futex c ≠ 0;
  sg_futex : ∃ l, futex_at (n_sched n) !! cnd_futex c = Some (Futex (cnd_sequence c) l 0 SCHEDULER_FUTEX_MARKER);
  sg_sequence : word_in n (cnd_sequence c) = Some v
}.

Lemma thrd_exit_handler_run t tk b v n :
  core ≠ UINT32_MAX → ipsr (cls (n_sched n) core) ≠ 0 →
  length (deferred_wake (cls (n_sched n) core)) = SCHEDULER_MAX_DEFERED_WAKE →
  t ≠ 0 → task_at (n_sched n) !! t = Some tk → thrd_at n !! t_context tk = Some b →
  let c := exit_cnd (t_context tk) b in signalled c v n →
  wp (thrd_exit_handler core t) (λ _ n',
    thrd_at n' = <[t_context tk := b <| th_terminated := true |>]> (thrd_at n) ∧
    word_in n' (cnd_sequence c) = Some (u32 (v + 1)) ∧
    ∃ r, deferred core (Z.lor (cnd_futex c) 1)
      ((n_sched n) <| word_at := <[cnd_sequence c := u32 (v + 1)]> (word_at (n_sched n)) |>) r (n_sched n')) n.
Proof.
  intros Hcore Hirq Hl Ht Htk Hb c [[Hc Hf] [l Hfx] Hv]. unfold thrd_exit_handler. wp_step.
  wp_step; [by apply negb_true_iff, Z.eqb_neq|]. wp_step. apply wp_on_tasks. unfold get_task. eapply wp_get_opt; [exact Htk|].
  replace (n <| n_sched := n_sched n |>) with n by by destruct n. wp_step. unfold upd_thrd. wp_step.
  apply (wp_get_thrd _ b); [done|]. apply wp_upd. wp_step. apply (wp_get_thrd _ (b <| th_terminated := true |>)).
  { rsimp. apply lookup_insert_eq. }
  change (th_detached (b <| th_terminated := true |>)) with (th_detached b). fold (exit_cnd (t_context tk) b). fold c.
  wp_step. unfold cnd_broadcast, _cnd_wakeup. wp_step. wp_step; [by apply negb_true_iff, Z.eqb_neq|].
  wp_step. eapply wp_read; [exact Hv|]. wp_step. apply wp_on_tasks. unfold set_word. wp_step. unfold get_word.
  eapply wp_get_opt; [exact Hv|]. apply wp_upd. wp_step. apply wp_switching. rsimp.
  set (s1 := (n_sched n) <| word_at := _ |>).
  unfold scheduler_futex_wake, marked_futex. do 2 wp_step. eapply wp_get_opt; [exact Hfx|]. wp_step.
  wp_step; [by rewrite (proj2 (Z.eqb_neq _ _) Hf)|]. do 3 wp_step.
  change (cls s1 core) with (cls (n_sched n) core). rewrite (proj2 (Z.eqb_neq _ _) Hirq). cbn [negb].
  change (has _ PI_AND_OWNER) with false. cbn iota.
  eapply wp_mono; [apply defer_wake_deferred; [done|exact Hl|done|set_solver|set_solver]|].
  intros r s [Hd Hw]. wp_step. apply aborts_not. split; [done|]. split; [|by exists r].
  unfold word_in. rsimp. rewrite Hw. apply lookup_insert_eq.
Qed.
End wakes.
