(* ===== verification/ThreadsClaims.v ===== *)
(** * Properties of the C11 threads

    Mutexes that nest, deadlines, keys and their values, the end and the joining
    of a thread, and the calls that do not do what they mean to; with a small
    system of one core to run them on. *)
From S2P Require Import Prelude Scheduler SchedulerSvc SchedulerApi SchedulerInv Threads ThreadsLaws.

Section claims.
Context `{Environment} `{Trap} `{ThreadsEnv} (core : Z).

(** C13: A mutex nobody else wants is held as often as a counter says: from any
    hold, any sequence of locks, try-locks and unlocks by one thread runs without
    waiting and answers what the counter answers; recursive mutexes nest, others
    refuse a second lock, and nobody unlocks a mutex he does not hold. *)
Theorem mtx_nests fuel m type t th ops held n :
  holds core m type t th held n → Z.of_nat (held + length ops) < 2 ^ 31 - 2 → (1 <= fuel)%nat →
  wp (mtx_calls core fuel m ops) (λ rs n', rs = (nests (has type mtx_recursive) ops held).1 ∧
    holds core m type t th (nests (has type mtx_recursive) ops held).2 n') n.
Proof. intros. by apply mtx_calls_nest. Qed.

(** A timed call times out at once unless its deadline is this very
    millisecond: a deadline that lies ahead is taken for missed, one that has
    passed wraps around to more than can be waited for, and only a deadline equal
    to the tick count reaches the wait, with a time of zero. *)
Theorem timed_calls_need_now fuel m mx c tm n :
  is_u32 (scheduler_get_ticks (n_sched n)) → m ≠ 0 → mtx_at n !! m = Some mx → has (mtx_type mx) mtx_timed = true →
  let now := deadline tm =? scheduler_get_ticks (n_sched n) in
  mtx_timedlock core fuel m (Some tm) n = (if now then _mtx_lock core fuel m 0 n else Done thrd_timedout n) ∧
  cnd_timedwait core fuel c m (Some tm) n = (if now then _cnd_wait core fuel c m 0 n else Done thrd_timedout n).
Proof.
  intros Hticks Hm Hmx Ht now.
  assert (missed (scheduler_get_ticks (n_sched n)) (deadline tm) = negb now) as Emissed.
  { apply missed_iff; [done|]. unfold deadline, u64. apply Z.mod_pos_bound. lia. }
  assert (on_tasks (gets scheduler_get_ticks) n = Done (scheduler_get_ticks (n_sched n)) n) as Egets by by destruct n.
  assert (now = true → u32 (deadline tm - scheduler_get_ticks (n_sched n)) = 0) as Ezero.
  { intros E. apply Z.eqb_eq in E. by rewrite E, Z.sub_diag. }
  split.
  - unfold mtx_timedlock, bind at 1, assert. rewrite (proj2 (Z.eqb_neq m 0)) by done. cbn [negb]. unfold ret at 1.
    unfold bind at 1, get_mtx, get_opt. rewrite Hmx, Ht. cbn [negb]. unfold bind. rewrite Egets, Emissed.
    destruct now; [by rewrite Ezero|done].
  - unfold cnd_timedwait, bind. rewrite Egets, Emissed. destruct now; [by rewrite Ezero|done].
Qed.

(** C31: A key is the first slot nobody uses; what a thread sets for it is what it
    gets back, and no other key's value changes.  Without a free slot creation
    fails and changes nothing but errno. *)
Theorem tss_round_trip t th b d n : runs_as core t th n → stores th b n →
  (Forall (λ sl, tss_used sl = true) (tss_map n) ∧
   tss_create d n = Done (thrd_error, 0) (n <| n_sched := (n_sched n) <| s_errno := EAGAIN |> |>)) ∨
  ∃ key n1, 0 <= key < 8 ∧ (∃ d0, tss_map n !! Z.to_nat key = Some (Tss false d0)) ∧
    tss_create d n = Done (thrd_success, key) n1 ∧
    ∀ v, ∃ n2, tss_set core key v n1 = Done thrd_success n2 ∧ tss_get core key n2 = Done v n2 ∧
      ∀ other x, 0 <= other < 8 → other ≠ key → tss_get core other n1 = Done x n1 → tss_get core other n2 = Done x n2.
Proof.
  intros Hr Hs. pose proof (so_keys _ _ _ Hs) as Hk. pose proof (find_slot_run d __THRD_KEYS_MAX 0 n Hk) as Hrun.
  rewrite drop_0 in Hrun. change (Z.of_nat 0) with 0 in Hrun. fold (tss_create d) in Hrun.
  destruct (list_find _ (tss_map n)) as [[j sl]|] eqn:E; [right|left].
  - apply list_find_Some in E as (Hj & Hu & _). pose proof (lookup_lt_Some _ _ _ Hj) as Hlt. cbn [Nat.add] in Hrun.
    set (n1 := n <| tss_map := <[j := Tss true d]> (tss_map n) |>) in *. change (length (tss_map n) = 8%nat) in Hk.
    assert (0 <= Z.of_nat j < 8) as Hj8 by lia.
    assert (stores th b n1) as Hs1 by (destruct Hs; split; [unfold n1; rsimp; by rewrite length_insert|done|done]).
    assert (runs_as core t th n1) as Hr1 by by destruct Hr.
    assert (∃ d0, tss_map n1 !! Z.to_nat (Z.of_nat j) = Some (Tss true d0)) as Hused.
    { exists d. rewrite Nat2Z.id. by apply list_lookup_insert_eq. }
    exists (Z.of_nat j), n1. split; [done|]. split; [rewrite Nat2Z.id; destruct sl as [u d0]; cbn in Hu; subst u; by exists d0|].
    split; [done|]. intros v. eexists. split; [by eapply tss_set_run|].
    set (b2 := b <| th_tss := <[Z.to_nat (Z.of_nat j) := v]> (th_tss b) |>).
    set (n2 := n1 <| thrd_at := <[th := b2]> (thrd_at n1) |>).
    assert (runs_as core t th n2) as Hr2 by by destruct Hr1.
    assert (stores th b2 n2) as Hs2.
    { destruct Hs1. split; [done|apply lookup_insert_eq|]. unfold b2. rsimp. by rewrite length_insert. }
    split.
    + eapply (tss_get_run core t th b2); [done..|]. rewrite Nat2Z.id. unfold b2. rsimp. rewrite Nat2Z.id.
      apply list_lookup_insert_eq. rewrite (so_values _ _ _ Hs). unfold __THRD_KEYS_MAX. lia.
    + intros other x Ho Hne. unfold tss_get, unusable. rewrite past_keys_false by lia.
      unfold bind, get_slot, get_opt. change (tss_map n2) with (tss_map n1).
      destruct (tss_map n1 !! Z.to_nat other) as [so|]; [|done]. unfold ret. destruct (tss_used so); cbn [negb]; [|by intros [= <-]].
      rewrite !(thrd_current_run core t th) by done. rewrite (so_block _ _ _ Hs1), (so_block _ _ _ Hs2). cbn.
      change (th_tss b2) with (<[Z.to_nat (Z.of_nat j) := v]> (th_tss b)). rewrite list_lookup_insert_ne by lia.
      destruct (th_tss b !! Z.to_nat other); [|done]. by intros [= ->].
  - apply list_find_None in E. split; [|done]. eapply Forall_impl; [exact E|]. intros sl Hsl. cbn in Hsl. by apply not_false_is_true.
Qed.

(** C33: When a thread ends, every value with a destructor is cleared and handed
    to it, each once and in the order of the keys, before the result is stored and
    the task ends; destructors that leave the keys alone are never run again. *)
Theorem thrd_exit_destroys res t th b n : clean_destructors → runs_as core t th n → stores th b n →
  ∃ n1, destroy_each (pending (tss_map n) (th_tss b) 0) th n = Done tt n1 ∧
    stores th (b <| th_tss := cleared (tss_map n) (th_tss b) |>) n1 ∧
    thrd_exit core res n =
      (t <- thrd_current core ;; upd_thrd t (λ th, th <| th_ret := res |>) ;;;
       _status <- switching (scheduler_terminate core 0) ;; fail (A := unit) Aborted) n1.
Proof.
  intros Hd Hr Hs. destruct (destroy_rounds_run Hd th b n Hs) as (n1 & R1 & R2 & _ & R3). exists n1.
  split; [done|]. split; [done|]. unfold thrd_exit at 1, bind at 1. rewrite (thrd_current_run core t th) by done.
  unfold bind at 1. by rewrite R2.
Qed.

(** Joining a thread that has ended answers its result and takes it off the
    list; a detached one, or one somebody joins already, is refused and nothing
    changes.  Neither waits when the list is free. *)
Theorem thrd_join_collects fuel t th thread b n :
  (∀ a n', ∃ n2, _thrd_release a n' = Done tt n2 ∧ thrds n2 = thrds n') →
  runs_as core t th n → list_free n → thread ≠ 0 → (1 <= fuel)%nat → thrd_at n !! thread = Some b →
  let refused := th_detached b || negb (th_joiner b =? 0) in
  refused = true ∨ th_terminated b = true →
  wp (thrd_join core fuel thread) (λ r n',
    if refused then r = (thrd_error, None) ∧ same_threads n n'
    else r = (thrd_success, Some (th_ret b)) ∧ thrds n' = without (thrd_node thread) (thrds n)) n.
Proof.
  intros Hrel Hr Hlist Ht0 Hf Hb refused Hend. unfold thrd_join. wp_step. wp_step; [by apply negb_true_iff, Z.eqb_neq|].
  wp_step. eapply wp_list_lock; [exact Hr|exact Hlist|done|]. intros n1 type count Htype Hr1 Hm1 (St & Sl & Sm & Sc).
  wp_step. apply aborts_not. wp_step. apply (wp_get_thrd _ b); [by rewrite St|]. fold refused. destruct refused.
  - wp_step. eapply wp_list_unlock; [exact Hr1|exact Htype|exact Hm1|]. intros n2 (? & ? & ? & ?) _ _. wp_step.
    apply aborts_not. wp_step. split; [done|]. split_and!; congruence.
  - destruct Hend as [?|Hend]; [done|]. wp_step. eapply wp_thrd_current; [exact Hr1|]. wp_step.
    unfold upd_thrd. wp_step. apply (wp_get_thrd _ b); [by rewrite St|]. apply wp_upd.
    destruct fuel as [|fuel]; [lia|]. wp_step. cbn [await_termination]. wp_step.
    set (b2 := b <| th_joiner := th |>). eapply (wp_get_thrd _ b2); [rsimp; apply lookup_insert_eq|].
    change (th_terminated b2) with (th_terminated b). rewrite Hend. wp_step. wp_step. unfold remove_thrd. apply wp_upd.
    wp_step. eapply (wp_list_unlock core t th); [by destruct Hr1|exact Htype|by destruct Hm1|].
    intros n2 (St2 & Sl2 & _ & _) _ _. wp_step. apply aborts_not. wp_step.
    apply (wp_get_thrd _ b2); [rewrite St2; apply lookup_insert_eq|]. wp_step.
    destruct (Hrel thread n2) as (n3 & Erel & Hl3). eapply wp_done; [exact Erel|]. wp_step. split; [done|].
    rewrite Hl3, Sl2. rsimp. by rewrite Sl.
Qed.

(** ** The calls that do not do what they mean to *)

(** The last key is off by one: getting, setting or deleting key 8 passes the
    check, and reaches past the eight slots. *)
Theorem key_past_the_end v n : length (tss_map n) = __THRD_KEYS_MAX →
  tss_get core 8 n = Fault OutOfBounds ∧ tss_set core 8 v n = Fault OutOfBounds ∧ tss_delete 8 n = Fault OutOfBounds.
Proof.
  intros Hl. assert (get_slot 8 n = Fault OutOfBounds) as E.
  { unfold get_slot, get_opt. by rewrite lookup_ge_None_2 by (rewrite Hl; unfold __THRD_KEYS_MAX; lia). }
  unfold tss_get, tss_set, tss_delete, unusable, set_slot, bind. change (past_keys 8) with false. cbn [negb].
  by rewrite E.
Qed.

(** The word of the flag of [thrd_detach] while its initialiser runs. *)
Definition claims (n : threads) : Prop := word_in n thrds_reaper_init_flag = Some 1.

Lemma switching_wait_keeps f v k n a n' :
  returns_keep core thrds_reaper_init_flag → keeps claims thrds_ran → claims n →
  switching (scheduler_futex_wait core f v k) n = Done a n' → claims n'.
Proof.
  intros Hret Hran Hc. unfold switching, bind, on_tasks.
  destruct (scheduler_futex_wait core f v k (n_sched n)) as [status s|] eqn:E; [|done].
  apply (futex_wait_keeps core thrds_reaper_init_flag) in E; [|done|exact Hc].
  destruct (thrds_ran (n <| n_sched := s |>)) as [[] n1|] eqn:E1; [|done]. intros [= <- <-].
  by eapply (Hran (n <| n_sched := s |>)).
Qed.

Lemma await_own_claim futex fuel : returns_keep core thrds_reaper_init_flag → keeps claims thrds_ran →
  ∀ n r n', claims n → await_flag core fuel thrds_reaper_init_flag futex n ≠ Done r n'.
Proof.
  intros Hret Hran. induction fuel as [|fuel IH]; intros n r n' Hc; [done|]. cbn [await_flag]. unfold bind at 1.
  assert (atomic_cas thrds_reaper_init_flag 2 2 n = Done (false, 1) n) as ->.
  { apply (wp_atomic_cas thrds_reaper_init_flag 2 2 1 (λ r n', r = (false, 1) ∧ n' = n)) in Hc; [|done|done].
    apply wp_inv in Hc as (x & n1 & -> & -> & ->). done. }
  cbn [fst snd]. unfold bind at 1.
  destruct (switching _ n) as [status n1|] eqn:E; [|done]. apply IH. by eapply switching_wait_keeps.
Qed.

Lemma read_run a v n : word_in n a = Some v → read a n = Done v n.
Proof. intros Hv. unfold read, on_tasks, get_word, get_opt. unfold word_in in Hv. rewrite Hv. by destruct n. Qed.

Lemma init_keeps_claim futex : keeps claims (on_tasks (scheduler_futex_init futex thrds_reaper_init_flag 0)).
Proof.
  intros n a n1 Hc. unfold on_tasks, scheduler_futex_init, bind, assert, ret, upd.
  destruct (negb (futex =? 0)); [|done]. by intros [= <- <-].
Qed.

(** A [thrd_detach] called while the flag is claimed, as the initialiser of the
    reaper calls it for the reaper it has just started, waits for the flag: it
    does not return, wherever its local futex is, provided nobody else stores in
    the flag. *)
Theorem claimed_detach_waits fuel thrd n r n' :
  keeps claims (local_futex thrds_reaper_init_flag) → returns_keep core thrds_reaper_init_flag → keeps claims thrds_ran →
  claims n → thrd_detach core fuel thrd n ≠ Done r n'.
Proof.
  intros Hlocal Hret Hran Hc. destruct fuel as [|fuel]; [done|]. cbn [thrd_detach].
  assert (∀ func u n1, call_once core fuel thrds_reaper_init_flag func n ≠ Done u n1) as Hone.
  2: { unfold bind at 1. destruct (call_once _ _ _ _ n) as [u n1|] eqn:E; [|done]. by apply Hone in E. }
  intros func u n1. unfold call_once, bind at 1. rewrite (read_run _ 1) by done. cbn [Z.eqb Pos.eqb]. unfold bind at 1.
  destruct (local_futex thrds_reaper_init_flag n) as [futex n2|] eqn:E2; [|done]. apply Hlocal in E2; [|done].
  unfold bind at 1. destruct (on_tasks _ n2) as [[] n3|] eqn:E3; [|done]. apply init_keeps_claim in E3; [|done]. unfold bind at 1.
  assert (atomic_cas thrds_reaper_init_flag 0 1 n3 = Done (false, 1) n3) as ->.
  { pose proof E3 as Hv. apply (wp_atomic_cas thrds_reaper_init_flag 0 1 1 (λ r n', r = (false, 1) ∧ n' = n3)) in Hv; [|done|done].
    apply wp_inv in Hv as (x & n4 & -> & -> & ->). done. }
  cbn [fst negb]. by apply await_own_claim.
Qed.
End claims.

(** ** A small system

    One task on core 0, for the thread at 0x1000, whose first key has a destructor
    and a value; the thread at 0x2000 has ended; a recursive timed mutex at 0xa00. *)
From S2P Require Import SchedulerHandlers SchedulerSample.

Definition sample_self : Z := thrd_stack 0x1000.

(** A blocked caller is woken at once, for no reason. *)
Definition wake_spuriously (core : Z) : SM unit :=
  t <- gets (λ s, current_task (cls s core)) ;;
  if negb (t =? 0) then ret tt
  else sched_queue_remove sample_self ;;; upd_cls core (λ c, c <| current_task := sample_self |>).

Definition threads_trap : Trap := {|
  trap_frame _ _ := 2000;
  return_to_caller core _ := wake_spuriously core;
  scheduler_tls_init_hook _ := ret tt;
  scheduler_startup_hook := ret tt;
  scheduler_shutdown_hook := ret tt;
  scheduler_start_svc _ _ := ret tt
|}.

Definition blank_thrd : thrd := Thrd 0 0 0 false false 0 (replicate 8 0) 0.
Definition threads_env : ThreadsEnv := {|
  mtx_plain := 0; mtx_recursive := 1; mtx_timed := 2;
  _thrd_alloc _ := upd (λ n, n <| thrd_at ::= <[0x9000 := blank_thrd]> |>) ;;; ret 0x9000;
  _thrd_release _ := ret tt;
  thrds_ran := ret tt;
  call_func _ _ := ret 0;
  call_destructor _ _ := ret tt;
  local_futex _ := gets (λ n, 0x500 + 16 * Z.of_nat (size (futex_at (n_sched n))));
  thrds_reaper_init_flag := 0x600; thrds_init_flag := 0x604; thrds_reap := 0x700; thrds_lock := 0x800;
  scheduler_struct := 0x300; _tls_size := 16; read_tp_and_offset := 0;
  thdr_dispatch_at := 0x100; thrd_exit_handler_at := 0x104; thrds_reaper_at := 0x108
|}.

#[local] Existing Instances sample_env threads_trap threads_env.

Definition sample_main : task :=
  Task 0 0 0 TASK_RUNNING 0 UINT32_MAX 16 16 UINT32_MAX [] None 0x1000 0 0 SCHEDULER_TASK_MARKER.
Definition sample_threads : threads := Threads
  (Sched true 16 INT32_MAX [] [sample_self] [] 50 1 0 UINT32_MAX 0 SCHEDULER_MARKER false 0
    {[sample_self := sample_main]} ∅ {[2000 := no_regs]}
    (list_to_map [(0x600, 0); (0x604, 2); (0x800, 0); (0xa00, 0)])
    {[0 := cpu_reset <| current_task := sample_self |>]})
  (list_to_map [(0x800, Mtx 0 0); (0xa00, Mtx 3 0)]) ∅
  (list_to_map [(0x1000, Thrd 0 0 0 false false 0 [5; 0; 0; 0; 0; 0; 0; 0] __THRD_MARKER);
                (0x2000, Thrd 0 0 7 false true 0 (replicate 8 0) __THRD_MARKER)])
  (Tss true 77 :: replicate 7 (Tss false 0))
  [thrd_node 0x1000; thrd_node 0x2000] sample_self.

Lemma sample_runs : runs_as 0 sample_self 0x1000 sample_threads.
Proof. split; [done|done|by exists sample_main|done]. Qed.

Lemma sample_stores : stores 0x1000 (Thrd 0 0 0 false false 0 [5; 0; 0; 0; 0; 0; 0; 0] __THRD_MARKER) sample_threads.
Proof. by split. Qed.

Lemma sample_free : list_free sample_threads.
Proof. exists 0, 0. by repeat split. Qed.

Lemma mtx_nests_witness :
  wp (mtx_calls 0 1 0xa00 [Lock; TryLock; Unlock; Unlock; Unlock])
    (λ rs n', rs = [thrd_success; thrd_success; thrd_success; thrd_success; thrd_error] ∧
      holds 0 0xa00 3 sample_self 0x1000 0 n') sample_threads.
Proof.
  refine (mtx_nests 0 1 0xa00 3 sample_self 0x1000 [Lock; TryLock; Unlock; Unlock; Unlock] 0 sample_threads _ _ _); [|cbn; lia|lia].
  split; [apply sample_runs|]. exists 0. split; [by repeat split|]. split; [lia|done].
Defined.

(** Seventeen milliseconds from now are missed. *)
Lemma timed_calls_need_now_witness :
  mtx_timedlock 0 1 0xa00 (Some (Timespec 0 17000000)) sample_threads = Done thrd_timedout sample_threads ∧
  cnd_timedwait 0 1 0x900 0xa00 (Some (Timespec 0 17000000)) sample_threads = Done thrd_timedout sample_threads.
Proof. by apply (timed_calls_need_now 0 1 0xa00 (Mtx 3 0) 0x900 (Timespec 0 17000000) sample_threads). Defined.

Lemma tss_round_trip_witness :
  (Forall (λ sl, tss_used sl = true) (tss_map sample_threads) ∧
   tss_create 78 sample_threads = Done (thrd_error, 0) (sample_threads <| n_sched := (n_sched sample_threads) <| s_errno := EAGAIN |> |>)) ∨
  ∃ key n1, 0 <= key < 8 ∧ (∃ d0, tss_map sample_threads !! Z.to_nat key = Some (Tss false d0)) ∧
    tss_create 78 sample_threads = Done (thrd_success, key) n1 ∧
    ∀ v, ∃ n2, tss_set 0 key v n1 = Done thrd_success n2 ∧ tss_get 0 key n2 = Done v n2 ∧
      ∀ other x, 0 <= other < 8 → other ≠ key → tss_get 0 other n1 = Done x n1 → tss_get 0 other n2 = Done x n2.
Proof. exact (tss_round_trip 0 sample_self 0x1000 _ 78 sample_threads sample_runs sample_stores). Defined.

Lemma sample_clean : clean_destructors.
Proof. intros d v n. by exists n. Qed.

Lemma thrd_exit_destroys_witness :
  ∃ n1, destroy_each [(0, 77, 5)] 0x1000 sample_threads = Done tt n1 ∧
    stores 0x1000 (Thrd 0 0 0 false false 0 (replicate 8 0) __THRD_MARKER) n1 ∧
    thrd_exit 0 3 sample_threads =
      (t <- thrd_current 0 ;; upd_thrd t (λ th, th <| th_ret := 3 |>) ;;;
       _status <- switching (scheduler_terminate 0 0) ;; fail (A := unit) Aborted) n1.
Proof. exact (thrd_exit_destroys 0 3 sample_self 0x1000 _ sample_threads sample_clean sample_runs sample_stores). Defined.

Lemma thrd_join_collects_witness :
  wp (thrd_join 0 1 0x2000) (λ r n', r = (thrd_success, Some 7) ∧
    thrds n' = without (thrd_node 0x2000) [thrd_node 0x1000; thrd_node 0x2000]) sample_threads.
Proof.
  refine (thrd_join_collects 0 1 sample_self 0x1000 0x2000 (Thrd 0 0 7 false true 0 (replicate 8 0) __THRD_MARKER) sample_threads _ _ _ _ _ _ _);
    [intros a n'; by exists n'|apply sample_runs|apply sample_free|done|lia|done|by right].
Defined.

Lemma key_past_the_end_witness :
  tss_get 0 8 sample_threads = Fault OutOfBounds ∧ tss_set 0 8 1 sample_threads = Fault OutOfBounds ∧
  tss_delete 8 sample_threads = Fault OutOfBounds.
Proof. by apply key_past_the_end. Defined.

(** The first [thrd_detach]: it claims the flag, its initialiser starts the
    reaper and detaches it, and that call waits until the fuel is used up, each
    call with a futex of its own. *)
Example first_detach_waits_for_itself :
  Forall (λ fuel, thrd_detach 0 fuel 0x2000 sample_threads = Fault OutOfFuel) (seq 1 40).
Proof. repeat constructor. Qed.

(** The flag claimed: the state the inner call finds. *)
Definition claimed_sample : threads :=
  sample_threads <| n_sched := (n_sched sample_threads) <| word_at ::= <[0x600 := 1]> |> |>.

Lemma spurious_keeps frame : keeps (claimed thrds_reaper_init_flag) (return_to_caller 0 frame).
Proof.
  unfold return_to_caller. cbn. unfold wake_spuriously, sched_queue_remove, upd_task, upd_cls, get_task.
  intros s a s' Hc. unfold bind, gets, get_opt, upd, ret.
  destruct (negb _); [by intros [= <- <-]|]. destruct (task_at s !! sample_self); [|done].
  destruct (task_at (unlink_queue_node sample_self s) !! sample_self); [|done]. by intros [= <- <-].
Qed.

Lemma claimed_detach_waits_witness : ∀ fuel r n', thrd_detach 0 fuel 0x9000 claimed_sample ≠ Done r n'.
Proof.
  intros fuel r n'. refine (claimed_detach_waits 0 fuel 0x9000 claimed_sample r n' _ (spurious_keeps) _ eq_refl).
  - by intros n a n1 Hc [= <- <-].
  - by intros n a n1 Hc [= <- <-].
Qed.
