(* ===== verification/ThreadsWakeClaims.v ===== *)
(** * Properties of the C11 threads that wake each other

    The hand-over of a contended mutex, the signal and the broadcast of a
    condition variable and the end of a thread, on the contract of the
    scheduler's wake; with the small system of [ThreadsClaims], and tasks that
    wait in it. *)
From S2P Require Import Prelude Scheduler SchedulerSvc SchedulerApi SchedulerInv SchedulerSafe SchedulerCheck SchedulerWake SchedulerHandlers SchedulerSystem SchedulerCalls WakeLaws SchedulerSample Threads ThreadsLaws ThreadsWake ThreadsClaims.

Section claims.
Context `{EnvironmentLaws} `{Trap} {Hres : Resumes} `{ThreadsEnv} {Halone : Alone} (core : Z).

(** C37: The last unlock of a mutex that other threads wait for hands it over: the
    first waiter is ready (of the queue in its order, or, with priority
    inheritance, in the order the wake puts it in), its name is the word of the
    mutex, with the mark of contention exactly when others still wait, and those
    stay in the queue. *)
Theorem mtx_unlock_hands_over m type count t th l n :
  in_order core n → runs_as core t th n → mutex_is m type count (contended_word t) n → awaited m type l n →
  0 <= count → still_held type (count - 1) = false →
  wp (mtx_unlock core m) (λ r n', r = thrd_success ∧ in_order core n' ∧ same_threads n n' ∧ ∃ l1,
    l1 ≡ₚ l ∧ (has type mtx_prio_inherit = false → l1 = l) ∧
    mutex_is m type (counted type count (count - 1)) (handed_word t l1) n' ∧ awaited m type (drop 1 l1) n' ∧
    ∀ u, u ∈ take 1 l1 → readied (n_sched n') u) n.
Proof. intros. by apply (mtx_unlock_contended core m type count t th l). Qed.

(** C38: A signal readies the first waiter of a condition variable, a broadcast
    every one of them; the others stay in the queue, in order, and the sequence a
    waiter compares has moved on, so that no wake comes before its wait. *)
Theorem cnd_wakes c (all : bool) l v n :
  in_order core n → c ≠ 0 → plain_futex (cnd_futex c) (cnd_sequence c) l (n_sched n) → word_in n (cnd_sequence c) = Some v →
  wp (if all then cnd_broadcast core c else cnd_signal core c) (λ r n', r = thrd_success ∧ in_order core n' ∧ same_threads n n' ∧
    word_in n' (cnd_sequence c) = Some (u32 (v + 1)) ∧
    plain_futex (cnd_futex c) (cnd_sequence c) (left_waiting all l) (n_sched n') ∧
    ∀ t, t ∈ first_or_all all l → readied (n_sched n') t) n.
Proof. intros. destruct all; by apply cnd_wakeup_wakes. Qed.

(** When the task of a thread ends, inside the scheduler, the thread is marked
    and the broadcast to its joiners, or to the reaper when it is detached, is
    recorded for the next context switch: in a free slot, or in the one that
    already names it; when every slot is taken it is lost, for nobody looks at
    the answer of the wake. *)
Theorem thrd_exit_handler_records t tk b v n :
  core ≠ UINT32_MAX → ipsr (cls (n_sched n) core) ≠ 0 →
  length (deferred_wake (cls (n_sched n) core)) = SCHEDULER_MAX_DEFERED_WAKE →
  t ≠ 0 → task_at (n_sched n) !! t = Some tk → thrd_at n !! t_context tk = Some b →
  let c := exit_cnd (t_context tk) b in signalled c v n →
  wp (thrd_exit_handler core t) (λ _ n',
    thrd_at n' = <[t_context tk := b <| th_terminated := true |>]> (thrd_at n) ∧
    word_in n' (cnd_sequence c) = Some (u32 (v + 1)) ∧
    ∃ r, deferred core (Z.lor (cnd_futex c) 1)
      ((n_sched n) <| word_at := <[cnd_sequence c := u32 (v + 1)]> (word_at (n_sched n)) |>) r (n_sched n')) n.
Proof. intros. by apply thrd_exit_handler_run. Qed.
End claims.

(** ** A system with waiters

    The task of the thread at 0x1000 holds the mutex at 0xa00, which the tasks at
    0x5000 and 0x5100 wait for; those at 0x5200 and 0x5300 wait for the condition
    variable at 0xb00.  The thread at 0x1000 can be joined by nobody yet. *)
#[local] Existing Instances sample_env sample_env_laws threads_trap threads_env.

#[local] Instance threads_resume : Resumes.
Proof.
  intros core a s Hc. cbn. unfold wake_spuriously, bind, gets. change (current_task (cls s core)) with (current s core).
  by rewrite (proj2 (Z.eqb_neq _ _) Hc).
Qed.

#[local] Instance threads_alone : Alone.
Proof. by intros n. Qed.

Definition waiter (prio : Z) (q : queue_id) : task :=
  Task 1200 0 0 TASK_BLOCKED UINT32_MAX UINT32_MAX prio prio UINT32_MAX [] (Some q) 0 0 0 SCHEDULER_TASK_MARKER.

Definition wait_sched : sched :=
  Sched true 16 INT32_MAX [] [sample_self; 0x5000; 0x5100; 0x5200; 0x5300] [] UINT32_MAX 1 0 UINT32_MAX 0 SCHEDULER_MARKER false 0
    (list_to_map [
      (sample_self, sample_main <| t_owned_futexes := [mtx_futex 0xa00] |>);
      (0x5000, waiter 20 (waiters (mtx_futex 0xa00))); (0x5100, waiter 30 (waiters (mtx_futex 0xa00)));
      (0x5200, waiter 20 (waiters (cnd_futex 0xb00))); (0x5300, waiter 30 (waiters (cnd_futex 0xb00)))])
    (list_to_map [
      (mtx_futex 0xa00, Futex (mtx_value 0xa00) [0x5000; 0x5100] (mtx_flags 3) SCHEDULER_FUTEX_MARKER);
      (cnd_futex 0xb00, Futex (cnd_sequence 0xb00) [0x5200; 0x5300] 0 SCHEDULER_FUTEX_MARKER);
      (cnd_futex (thrd_joiners 0x1000), Futex (cnd_sequence (thrd_joiners 0x1000)) [] 0 SCHEDULER_FUTEX_MARKER)])
    (list_to_map [(1200, no_regs); (2000, no_regs)])
    (list_to_map [(mtx_value 0xa00, contended_word sample_self); (cnd_sequence 0xb00, 9); (cnd_sequence (thrd_joiners 0x1000), 0)])
    {[0 := cpu_reset <| current_task := sample_self |>]}.

Definition wait_threads (s : sched) : threads := sample_threads <| n_sched := s |> <| mtx_at := {[0xa00 := Mtx 3 1]} |>.

(** The same, while the scheduler ends the task. *)
Definition ending : sched := wait_sched <| cpu_at := {[0 := cpu_reset <| current_task := sample_self |> <| ipsr := 11 |>]} |>.

Lemma wait_in_order : in_order 0 (wait_threads wait_sched).
Proof. split; [apply checked_quiescent; vm_compute; reflexivity|done|done|done]. Qed.

Lemma wait_runs : runs_as 0 sample_self 0x1000 (wait_threads wait_sched).
Proof. split; [done|done|by eexists|done]. Qed.

Lemma mtx_unlock_hands_over_witness :
  wp (mtx_unlock 0 0xa00) (λ r n', r = thrd_success ∧
    mutex_is 0xa00 3 0 (contended_word 0x5000) n' ∧ awaited 0xa00 3 [0x5100] n' ∧ readied (n_sched n') 0x5000)
    (wait_threads wait_sched).
Proof.
  eapply wp_mono; [apply (mtx_unlock_hands_over 0 0xa00 3 1 sample_self 0x1000 [0x5000; 0x5100]);
    [apply wait_in_order|apply wait_runs|by split|by split|done|done]|].
  intros r n' (-> & _ & _ & l1 & _ & Hl & Hm & Ha & Hr). rewrite (Hl eq_refl) in *. split; [done|]. split; [done|]. split; [done|].
  apply Hr. by left.
Defined.

Lemma cnd_wakes_witness :
  wp (cnd_broadcast 0 0xb00) (λ r n', r = thrd_success ∧ readied (n_sched n') 0x5200 ∧ readied (n_sched n') 0x5300)
    (wait_threads wait_sched).
Proof.
  eapply wp_mono; [apply (cnd_wakes 0 0xb00 true [0x5200; 0x5300] 9); [apply wait_in_order|done|by split|done]|].
  intros r n' (-> & _ & _ & _ & _ & Hr). split; [done|]. split; apply Hr; set_solver.
Defined.

Lemma thrd_exit_handler_records_witness :
  wp (thrd_exit_handler 0 sample_self) (λ _ n', th_terminated <$> thrd_at n' !! 0x1000 = Some true ∧
    Z.lor (cnd_futex (thrd_joiners 0x1000)) 1 ∈ deferred_wake (cls (n_sched n') 0)) (wait_threads ending).
Proof.
  eapply wp_mono; [apply (thrd_exit_handler_records 0 sample_self (sample_main <| t_owned_futexes := [mtx_futex 0xa00] |>)
    (Thrd 0 0 0 false false 0 [5; 0; 0; 0; 0; 0; 0; 0] __THRD_MARKER) 0);
    [done|done|done|done|done|done|split; [done|by eexists|done]]|].
  intros _ n' (Et & _ & r & Hd). split; [by rewrite Et, lookup_insert_eq|].
  destruct Hd as [i _ Hi _ Es _ _ _|_ Hin _|_ Hz _ _].
  - rewrite Es. apply list_elem_of_lookup. exists i. apply list_lookup_insert_eq. by eapply lookup_lt_Some.
  - exfalso. revert Hin. vm_compute. set_solver.
  - exfalso. apply Hz. vm_compute. set_solver.
Defined.
