(* ===== verification/ThreadsPrograms.v ===== *)
(** * The C11 mutex as programs of accesses

    [_mtx_lock], [mtx_trylock] and [mtx_unlock], each a tree of the accesses its
    code makes to the word and the futex, with the proofs that the tree run alone
    is the function, and that it keeps the protocol of [MutexSystem]. *)
From S2P Require Import Prelude Scheduler SchedulerSvc SchedulerApi SchedulerInv SchedulerSafe SchedulerSystem WakeLaws MutexFrame MutexSystem Threads.

Section programs.
Context `{Environment} `{Trap} `{ThreadsEnv} (core m t : Z).

#[export] Instance thrd_accesses : Accesses threads := {|
  acc_read := read (mtx_value m);
  acc_cas := atomic_cas (mtx_value m);
  acc_add d := w <- read (mtx_value m) ;; on_tasks (set_word (mtx_value m) (u32 (w + d))) ;;; ret w;
  acc_wait e d := switching (scheduler_futex_wait core (mtx_futex m) e d);
  acc_wake := switching (scheduler_futex_wake core (mtx_futex m) false)
|}.

Notation program := (prog (TM Z) result).

Definition mtx_type_of : TM Z := assert (negb (m =? 0)) ;;; mx <- get_mtx m ;; ret (mtx_type mx).
(** [mtx->count += d]; the new count, an [int]. *)
Definition add_count (d : Z) : TM Z :=
  mx <- get_mtx m ;; set_mtx_count m (mtx_count mx + d) ;;; ret (s32 (mtx_count mx + d)).
Definition errno_prog (e : Z) (p : program) : program := Local (errno_is e ;;; ret 0) (λ _, p).

Definition count_one (type : Z) : program :=
  if has type mtx_recursive then Local (set_mtx_count m 1 ;;; ret 0) (λ _, Ret thrd_success) else Ret thrd_success.

Fixpoint loop_prog (fuel : nat) (type msec : Z) : program :=
  match fuel with
  | O => Local (fail OutOfFuel) (λ _, Ret thrd_error)
  | S fuel => Cas 0 t (λ ok w,
      if ok then count_one type
      else Wait w msec (λ status,
        if status <? 0 then errno_prog (- status) (Ret (if status =? - ETIMEDOUT then thrd_timedout else thrd_error))
        else Read (λ w, if is_owner t w then count_one type else loop_prog fuel type msec)))
  end.

Definition lock_prog (fuel : nat) (msec : Z) : program :=
  Local mtx_type_of (λ type, Read (λ w,
    if is_owner t w then
      if negb (has type mtx_recursive) then errno_prog EINVAL (Ret thrd_error)
      else Local (add_count 1) (λ _, Ret thrd_success)
    else loop_prog fuel type msec)).

Definition trylock_prog : program :=
  Local mtx_type_of (λ type, Read (λ w,
    if has type mtx_recursive && (w =? t) then Local (add_count 1) (λ _, Ret thrd_success)
    else Cas 0 t (λ ok _, if ok then count_one type else errno_prog EBUSY (Ret thrd_busy)))).

Definition wake_prog : program :=
  Wake (λ status, if status <? 0 then errno_prog (- status) (Ret thrd_error) else Ret thrd_success).
Definition release_prog : program :=
  Read (λ w, if w =? t then Cas t 0 (λ ok _, if ok then Ret thrd_success else wake_prog) else wake_prog).
Definition unlock_prog : program :=
  Local mtx_type_of (λ type, Read (λ w,
    if negb (is_owner t w) then errno_prog EINVAL (Ret thrd_error)
    else if has type mtx_recursive then Local (add_count (-1)) (λ c, if 0 <? c then Ret thrd_success else release_prog)
    else release_prog)).

(** ** Run alone, they are the functions *)
Lemma run_count_one type n :
  run (count_one type) n = (when (has type mtx_recursive) (set_mtx_count m 1) ;;; ret thrd_success) n.
Proof. unfold count_one. destruct (has type mtx_recursive); [|done]. cbn [run]. by rewrite bind_assoc. Qed.

Lemma run_loop fuel type msec n :
  run (loop_prog fuel type msec) n =
  (r <- lock_loop core fuel m t msec ;;
   if negb (bool_decide (r = thrd_success)) then ret r
   else when (has type mtx_recursive) (set_mtx_count m 1) ;;; ret thrd_success) n.
Proof.
  revert n. induction fuel as [|fuel IH]; intros n; [done|]. cbn [loop_prog run lock_loop]. rewrite bind_assoc.
  apply bind_ext. intros [[|] w] n1 _; cbn [fst snd]; [by rewrite run_count_one|]. cbn [run]. rewrite bind_assoc.
  apply bind_ext. intros status n2 _. destruct (status <? 0).
  - cbn [run errno_prog]. rewrite !bind_assoc. apply bind_ext. intros [] n3 _. by destruct (_ =? _).
  - cbn [run]. rewrite bind_assoc. apply bind_ext. intros v n3 _. destruct (is_owner t v); [by rewrite run_count_one|apply IH].
Qed.

(** The task runs on the core. *)
Definition self (n : threads) : Prop := on_tasks (scheduler_task core) n = Done t n.

Lemma read_mutex a w n n1 : read a n = Done w n1 → mtx_at n1 = mtx_at n.
Proof. unfold read, on_tasks. destruct (get_word a (n_sched n)); [|done]. by intros [= _ <-]. Qed.

(** The beginning the three calls share. *)
Lemma run_start (k : Z → Z → program) (k' : Z → mtx → Z → TM result) n :
  self n →
  (∀ mx w n1, mtx_at n !! m = Some mx → read (mtx_value m) n = Done w n1 → run (k (mtx_type mx) w) n1 = k' t mx w n1) →
  run (Local mtx_type_of (λ type, Read (k type))) n =
  (assert (negb (m =? 0)) ;;; value <- on_tasks (scheduler_task core) ;; mx <- get_mtx m ;;
   w <- read (mtx_value m) ;; k' value mx w) n.
Proof.
  intros Hself Hk. cbn [run]. unfold mtx_type_of. rewrite bind_assoc. apply bind_ext. intros [] n0 Ea.
  assert (n0 = n) as -> by (destruct (m =? 0); by inversion Ea). rewrite (bind_done_eq _ _ _ _ _ Hself), bind_assoc.
  apply bind_ext. intros mx n0 Em. unfold get_mtx, get_opt in Em. destruct (mtx_at n !! m) as [mx'|] eqn:E; [|done].
  injection Em as -> <-. change (bind (ret (mtx_type mx)) ?g n) with (g (mtx_type mx) n). cbn beta.
  apply bind_ext. intros w n1 Hw. by apply Hk.
Qed.

Lemma run_add_count d (p : Z → program) mx n : mtx_at n !! m = Some mx →
  run (Local (add_count d) p) n = (set_mtx_count m (mtx_count mx + d) ;;; run (p (s32 (mtx_count mx + d)))) n.
Proof.
  intros Hm. cbn [run]. unfold add_count. rewrite bind_assoc. unfold get_mtx at 1, get_opt at 1, bind at 1. rewrite Hm.
  by rewrite bind_assoc.
Qed.

Lemma run_lock fuel msec n : self n → run (lock_prog fuel msec) n = _mtx_lock core fuel m msec n.
Proof.
  intros Hself. unfold lock_prog, _mtx_lock. apply (run_start _ (λ value mx w, _) _ Hself). intros mx w n1 Hm Hw.
  pose proof (read_mutex _ _ _ _ Hw) as Hm1. destruct (is_owner t w).
  - destruct (negb (has (mtx_type mx) mtx_recursive)).
    + cbn [run errno_prog]. by rewrite bind_assoc.
    + rewrite (run_add_count 1 _ mx) by by rewrite Hm1. done.
  - apply run_loop.
Qed.

Lemma run_trylock n : self n → run trylock_prog n = mtx_trylock core m n.
Proof.
  intros Hself. unfold trylock_prog, mtx_trylock. apply (run_start _ (λ value mx w, _) _ Hself). intros mx w n1 Hm Hw.
  pose proof (read_mutex _ _ _ _ Hw) as Hm1. destruct (_ && _).
  - rewrite (run_add_count 1 _ mx) by by rewrite Hm1. done.
  - cbn [run]. apply bind_ext. intros [[|] v] n2 _; cbn [fst snd negb]; [apply run_count_one|].
    cbn [run errno_prog]. by rewrite bind_assoc.
Qed.

Lemma run_wake n :
  run wake_prog n = (status <- switching (scheduler_futex_wake core (mtx_futex m) false) ;;
                     if status <? 0 then errno_is (- status) ;;; ret thrd_error else ret thrd_success) n.
Proof.
  cbn [run wake_prog]. apply bind_ext. intros status n1 _. destruct (status <? 0); [|done]. cbn [run errno_prog]. by rewrite bind_assoc.
Qed.

Lemma run_release n :
  run release_prog n =
  (w <- read (mtx_value m) ;;
   cx <- (if w =? t then atomic_cas (mtx_value m) t 0 else ret (false, w)) ;;
   if (cx.1 : bool) then ret thrd_success
   else
     status <- switching (scheduler_futex_wake core (mtx_futex m) false) ;;
     if status <? 0 then errno_is (- status) ;;; ret thrd_error else ret thrd_success) n.
Proof.
  cbn [run release_prog]. apply bind_ext. intros w n1 _. destruct (w =? t); [|apply run_wake].
  cbn [run]. apply bind_ext. intros [[|] v] n2 _; [done|apply run_wake].
Qed.

Lemma run_unlock n : self n → run unlock_prog n = mtx_unlock core m n.
Proof.
  intros Hself. unfold unlock_prog, mtx_unlock. apply (run_start _ (λ value mx w, _) _ Hself). intros mx w n1 Hm Hw.
  pose proof (read_mutex _ _ _ _ Hw) as Hm1. destruct (is_owner t w); cbn [negb].
  - destruct (has (mtx_type mx) mtx_recursive); cbn [when andb]; [|apply run_release].
    rewrite (run_add_count (-1) _ mx) by by rewrite Hm1. apply bind_ext. intros [] n2 _.
    change (mtx_count mx - 1) with (mtx_count mx + -1). destruct (0 <? _); [done|apply run_release].
  - cbn [run errno_prog]. by rewrite bind_assoc.
Qed.

(** ** They keep the protocol *)
Definition granted (r : result) : bool := bool_decide (r = thrd_success).
Notation locked := (λ own r, granted r = true → own = true).

Lemma safe_count_one type : safe t locked true (count_one type).
Proof. unfold count_one. by destruct (has type mtx_recursive). Qed.

Lemma is_owner_eq w : is_owner t w = (owner_of w =? t).
Proof. unfold is_owner. apply Z.eqb_sym. Qed.

Lemma safe_loop fuel type msec : safe t locked false (loop_prog fuel type msec).
Proof.
  induction fuel as [|fuel IH]; [done|]. cbn [loop_prog safe]. left. split; [done|]. split; [done|].
  split; [apply safe_count_one|]. intros w Hw Hv. split; [done|]. split; [done|]. split; [done|].
  intros status. destruct (status <? 0).
  - intros _. by destruct (status =? - ETIMEDOUT).
  - intros v Hv' _. rewrite is_owner_eq. destruct (owner_of v =? t); [apply safe_count_one|apply IH].
Qed.

Lemma safe_lock fuel msec : safe t locked false (lock_prog fuel msec).
Proof.
  intros type w Hw _. rewrite is_owner_eq. destruct (owner_of w =? t); [|apply safe_loop].
  destruct (negb _); by intros z.
Qed.

Lemma safe_trylock : client t → safe t locked false trylock_prog.
Proof.
  intros Hc type w Hw _. destruct (has type mtx_recursive && (w =? t)) eqn:E.
  - intros _ _. apply andb_true_iff in E as [_ ->%Z.eqb_eq]. apply Z.eqb_eq, Hc.
  - left. split; [done|]. split; [done|]. split; [apply safe_count_one|]. by intros v _ _ z.
Qed.

Lemma safe_wake : safe t (λ _ _, True) true wake_prog.
Proof. split; [done|]. intros z. by destruct (z <? 0). Qed.

Lemma safe_release : safe t (λ _ _, True) true release_prog.
Proof.
  intros w Hw Ho. rewrite (Ho eq_refl), Z.eqb_refl. destruct (w =? t); [|apply safe_wake].
  right. split; [done|]. split; [done|]. split; [done|]. split; [done|]. intros v _ _. apply safe_wake.
Qed.

Lemma safe_unlock : safe t (λ _ _, True) true unlock_prog.
Proof.
  intros type w Hw Ho. rewrite is_owner_eq, (Ho eq_refl), Z.eqb_refl. cbn [negb].
  destruct (has type mtx_recursive); [|apply safe_release]. intros c. destruct (0 <? c); [done|apply safe_release].
Qed.
End programs.
