(* ===== verification/ThreadsSystem.v ===== *)
(** * Many threads and one C11 mutex

    The programs of [ThreadsPrograms] in the system of [MutexSystem]: no two
    threads are inside at once, however their accesses interleave with each other
    and with the scheduler, and a thread waits only behind a word that says so;
    with two cores that contend. *)
From S2P Require Import Prelude Scheduler SchedulerSvc SchedulerApi SchedulerInv SchedulerSafe SchedulerWake SchedulerHandlers SchedulerSwitch SchedulerSystem SchedulerCheck WakeLaws SchedulerSample MutexFrame MutexSystem MutexSample Threads ThreadsLaws ThreadsWake ThreadsPrograms ThreadsClaims.

(** The calls that take the mutex at [m], and the one that gives it back. *)
Definition mtx_locks `{ThreadsEnv} (m t : Z) (p : prog (TM Z) result) : Prop :=
  (∃ fuel msec, p = lock_prog m t fuel msec) ∨ p = trylock_prog m t.
Definition mtx_unlocks `{ThreadsEnv} (m t : Z) (p : prog (TM Z) result) : Prop := p = unlock_prog m t.

Section claims.
Context `{EnvironmentLaws} `{Trap} `{ThreadsEnv}.

(** C3: Any number of threads on any number of cores that lock, try and unlock a
    C11 mutex, their accesses interleaved in any order with each other and with
    service calls, context switches, ticks and deferred wakes: a thread inside is
    the one the word names, no two threads are inside, and while a thread waits the
    word names an owner and says that it is contended, so that the owner's unlock
    goes to the scheduler.  The programs that interleave are the code's: run alone
    by its task each is the function. *)
Theorem mtx_excludes m type (m0 mm : machine) :
  mtx_futex m ≠ 0 → Unaware (mtx_value m) (mtx_futex m) (mtx_flags type) →
  machine_start (mtx_value m) (mtx_futex m) (mtx_flags type) m0 →
  machine_reaches (mtx_value m) (mtx_futex m) granted (mtx_locks m) (mtx_unlocks m) m0 mm →
  (∀ core t fuel msec n, on_tasks (scheduler_task core) n = Done t n →
     let alone p := @run _ _ (thrd_accesses core m) p n in
     alone (lock_prog m t fuel msec) = _mtx_lock core fuel m msec n ∧
     alone (trylock_prog m t) = mtx_trylock core m n ∧
     alone (unlock_prog m t) = mtx_unlock core m n) ∧
  (∀ t, mc_phase mm t = Inside → ∃ v, word_at (mc_sched mm) !! mtx_value m = Some v ∧ owner_of v = t) ∧
  (∀ t u, mc_phase mm t = Inside → mc_phase mm u = Inside → t = u) ∧
  (∀ l, queue (mc_sched mm) (waiters (mtx_futex m)) = Some l → l ≠ [] →
     ∃ v, word_at (mc_sched mm) !! mtx_value m = Some v ∧ Z.testbit v 0 = true ∧ owner_of v ≠ 0).
Proof.
  intros Hf Hun Hm Hr. split; [intros; split_and!; [by apply run_lock|by apply run_trylock|by apply run_unlock]|].
  destruct (mtx_flags_track type) as [Ho Hc]. revert Hm Hr. apply machine_excludes; [done..| |].
  - intros t p Ht [(fuel & msec & ->)| ->]; [apply safe_lock|by apply safe_trylock].
  - intros t p _ ->. apply safe_unlock.
Qed.

End claims.

(** ** Two cores that contend *)
#[local] Existing Instances sample_env sample_env_laws threads_trap threads_env.

Definition contenders : machine := Machine (two_cores 0xa00 0xa04 (mtx_flags 0)) (λ _, Outside (L := TM Z) (R := result)).

Lemma contenders_start : machine_start 0xa00 0xa04 (mtx_flags 0) contenders.
Proof.
  split; [apply checked_quiescent; vm_compute; reflexivity|done| |done|done].
  intros g fx. cbn. intros [? <-]%lookup_singleton_Some _. done.
Qed.

Notation parked := (parked_behind 0xa00 0xa04 (mtx_flags 0)).

Lemma parks : run_event (ServiceCall 1 2000 SvcWait) (taken 0xa00 0xa04 (mtx_flags 0)) = Done tt parked.
Proof. vm_compute. reflexivity. Qed.

Lemma may_park : admissible (taken 0xa00 0xa04 (mtx_flags 0)) (ServiceCall 1 2000 SvcWait).
Proof.
  exists (Frame 0xa04 0x5000 SCHEDULER_WAIT_FOREVER 0 0 0 0 0). split; [done|]. split; [done|].
  exists (Futex 0xa00 [] (mtx_flags 0) SCHEDULER_FUTEX_MARKER), 0x5000. split; [|done]. by split.
Qed.

Notation reaches := (machine_reaches 0xa00 0xa04 granted (mtx_locks 0xa00) (mtx_unlocks 0xa00)).

Lemma contended_run : ∃ ph, reaches contenders (Machine parked ph) ∧ ph 0x5000 = Inside.
Proof.
  eassert (reaches contenders _) as R by apply reaches_start. unfold contenders at 2 in R.
  machine_goes R ltac:(eapply starts_lock with (t := 0x5000); [done|done|left; by exists 1%nat, SCHEDULER_WAIT_FOREVER]).
  machine_goes R ltac:(task_goes 0 ltac:(apply access_local with (z := 0))).
  machine_goes R ltac:(task_goes 0 ltac:(by apply access_read)).
  machine_goes R ltac:(task_goes 0 ltac:(by apply access_cas_done)).
  machine_goes R ltac:(by eapply lock_ends with (t := 0x5000) (r := thrd_success)).
  machine_goes R ltac:(eapply starts_lock with (t := 0x5200); [done|done|left; by exists 1%nat, SCHEDULER_WAIT_FOREVER]).
  machine_goes R ltac:(task_goes 1 ltac:(apply access_local with (z := 0))).
  machine_goes R ltac:(task_goes 1 ltac:(by apply access_read)).
  machine_goes R ltac:(task_goes 1 ltac:(by apply access_cas_failed with (w := 0x5000))).
  machine_goes R ltac:(task_goes 1 ltac:(eapply access_wait with (z := 0); [..|exact may_park|exact parks]; done)).
  eexists. split; [exact R|done].
Qed.

Lemma mtx_excludes_witness :
  ∃ ph, reaches contenders (Machine parked ph) ∧ (∀ u, ph u = Inside → u = 0x5000) ∧
    ∃ v, word_at parked !! 0xa00 = Some v ∧ Z.testbit v 0 = true ∧ owner_of v = 0x5000.
Proof.
  destruct contended_run as (ph & R & Hin). exists ph. split; [exact R|].
  destruct (mtx_excludes 0xa00 0 contenders (Machine parked ph)) as (_ & Hword & Hone & Hwait);
    [done|apply sample_unaware|apply contenders_start|exact R|].
  split; [intros u Hu; by apply Hone|].
  destruct (Hwait [0x5200]) as (v & Hv & Hb & _); [vm_compute; reflexivity|done|].
  destruct (Hword _ Hin) as (v' & Hv' & Ho). exists v. split; [exact Hv|]. split; [exact Hb|].
  cbn [mc_sched] in Hv, Hv'. congruence.
Defined.
