(* ===== verification/ThreadsCond.v ===== *)
(** * The C11 condition variable, and many threads that use one

    [_cnd_wait] and [_cnd_wakeup] as programs of accesses to the sequence and its
    futex, with the proofs that the program run alone is the function and that it
    keeps the protocols of [CondSystem]; no signal is lost. *)
From S2P Require Import Prelude Scheduler SchedulerSvc SchedulerApi SchedulerInv SchedulerSafe SchedulerWake SchedulerHandlers SchedulerSwitch SchedulerSystem SchedulerCheck WakeLaws SchedulerSample MutexFrame MutexSystem MutexSample CondSystem Threads ThreadsLaws ThreadsPrograms ThreadsWake ThreadsClaims.

Section programs.
Context `{Environment} `{Trap} `{ThreadsEnv} (core c : Z).

Definition cnd_accesses (all : bool) : Accesses threads := {|
  acc_read := read (cnd_sequence c);
  acc_cas := atomic_cas (cnd_sequence c);
  acc_add d := w <- read (cnd_sequence c) ;; on_tasks (set_word (cnd_sequence c) (u32 (w + d))) ;;; ret w;
  acc_wait e d := switching (scheduler_futex_wait core (cnd_futex c) e d);
  acc_wake := switching (scheduler_futex_wake core (cnd_futex c) all)
|}.
Notation program := (prog (TM Z) result).

(** The mutex of the condition variable, set to [m] if it has none. *)
Definition bound_mutex (m : Z) : TM Z :=
  cd <- get_cnd c ;;
  when (negb (cnd_mutex cd =? m)) (bind_mutex c m) ;;;
  cd <- get_cnd c ;;
  ret (cnd_mutex cd).
Definition unlock_bound (m : Z) : TM Z := _r <- mtx_unlock core m ;; ret 0.
Definition lock_bound (fuel : nat) : TM Z := cd <- get_cnd c ;; _r <- mtx_lock core fuel (cnd_mutex cd) ;; ret 0.

Definition wait_prog (fuel : nat) (m msec : Z) : program :=
  Local (assert (negb (c =? 0) && negb (m =? 0)) ;;; ret 0) (λ _,
    Read (λ sequence, Local (bound_mutex m) (λ bound,
      if negb (bound =? m) then errno_prog EINVAL (Ret thrd_error)
      else Local (unlock_bound bound) (λ _, Wait sequence msec (λ status, Local (lock_bound fuel) (λ _,
        if status <? 0 then errno_prog (- status) (Ret (if status =? - ETIMEDOUT then thrd_timedout else thrd_error))
        else Ret thrd_success)))))).

Definition wakeup_prog : program :=
  Local (assert (negb (c =? 0)) ;;; ret 0) (λ _, Add 1 (λ _, Wake (λ _, Ret thrd_success))).

(** ** Run alone, they are the functions *)
Lemma run_wait all fuel m msec n : @run _ _ (cnd_accesses all) (wait_prog fuel m msec) n = _cnd_wait core fuel c m msec n.
Proof.
  unfold wait_prog, _cnd_wait. cbn [run]. rewrite bind_assoc. apply bind_ext. intros [] n0 _. rewrite bind_ret. apply bind_ext. intros sequence n1 _.
  cbn [run]. unfold bound_mutex. rewrite bind_assoc. apply bind_ext. intros cd n2 _. rewrite bind_assoc. apply bind_ext. intros [] n3 _.
  rewrite bind_assoc. apply bind_ext. intros cd' n4 _. rewrite bind_ret.
  destruct (negb (cnd_mutex cd' =? m)); [cbn [run errno_prog]; by rewrite bind_assoc|].
  cbn [run]. unfold unlock_bound. rewrite bind_assoc. apply bind_ext. intros r n5 _. rewrite bind_ret. apply bind_ext. intros status n6 _.
  cbn [run]. unfold lock_bound. rewrite bind_assoc. apply bind_ext. intros cd2 n7 _. rewrite bind_assoc. apply bind_ext. intros r' n8 _.
  rewrite bind_ret. destruct (status <? 0); [|done].
  cbn [run errno_prog]. by rewrite bind_assoc.
Qed.

Lemma run_wakeup all n : @run _ _ (cnd_accesses all) wakeup_prog n = _cnd_wakeup core c all n.
Proof.
  unfold wakeup_prog, _cnd_wakeup. cbn [run]. rewrite bind_assoc. apply bind_ext. intros [] n0 _. cbn [acc_add cnd_accesses].
  rewrite bind_ret. cbn [run]. cbn [acc_add acc_wake cnd_accesses].
  rewrite bind_assoc. apply bind_ext. intros sequence n1 _. rewrite bind_assoc. by apply bind_ext.
Qed.

(** ** They keep the protocols *)
Lemma waits_wait fuel m msec : waits None (wait_prog fuel m msec).
Proof.
  intros _ sequence bound. destruct (negb (bound =? m)); [done|]. intros _. split; [done|]. intros status _.
  by destruct (status <? 0).
Qed.

Lemma signalling_wakeup : signalling wakeup_prog.
Proof. intros _. split; [done|]. intros w. split; [by eexists|done]. Qed.
End programs.

(** The calls of threads that wait for a condition variable, and of those that wake. *)
Definition cnd_call `{Environment} `{Trap} `{ThreadsEnv} (c : Z) (r : role) (p : prog (TM Z) result) : Prop :=
  match r with
  | Waiter => ∃ core fuel m msec, p = wait_prog core c fuel m msec
  | Signaller _ => p = wakeup_prog c
  end.

Section claims.
Context `{EnvironmentLaws} `{Trap} `{ThreadsEnv}.

(** C7: Any number of threads that wait for, signal and broadcast a C11 condition
    variable, their accesses interleaved in any order with each other and with
    service calls, context switches, ticks and deferred wakes: short of 2^32
    signals, whoever was put to sleep had missed no signal since he read the
    sequence, and when nobody is between moving the sequence and waking, everybody
    who sleeps read the sequence after the last broadcast.  The programs that
    interleave are the code's: run alone each is the function. *)
Theorem cnd_loses_no_wake c (m0 mm : cond) :
  cnd_futex c ≠ 0 → Unaware (cnd_sequence c) (cnd_futex c) 0 →
  cond_start (cnd_sequence c) (cnd_futex c) m0 →
  cond_reaches (cnd_sequence c) (cnd_futex c) (cnd_call c) m0 mm → Z.of_nat (signals (cm_log mm)) < word →
  (∀ core fuel m msec all n,
     let alone p := @run _ _ (cnd_accesses core c all) p n in
     alone (wait_prog core c fuel m msec) = _cnd_wait core fuel c m msec n ∧
     alone (wakeup_prog c) = _cnd_wakeup core c all n) ∧
  (∀ l1 t l2, cm_log mm = l1 ++ Parks t :: l2 → signals_since t l2 = Some 0%nat) ∧
  (∀ l t, queue (cm_sched mm) (waiters (cnd_futex c)) = Some l → t ∈ l →
     (∀ u, ¬ broadcasting (cm_party mm) u) → heard_all t (cm_log mm) = true).
Proof.
  intros Hf Hun Hm Hr Hn. split; [intros; split; [apply run_wait|apply run_wakeup]|].
  revert Hm Hr Hn. apply cond_loses_nothing; [done..| |].
  - intros p (core & fuel & m & msec & ->). apply waits_wait.
  - intros all p ->. apply signalling_wakeup.
Qed.
End claims.

(** ** A broadcast between two cores, for the condition variable at 0xa00 *)
#[local] Existing Instances sample_env sample_env_laws threads_trap threads_env.

(** The frame at 2000 asks to wait while the sequence is 1, the one at 2100 to
    wake everybody. *)
Definition cond_cores : sched :=
  (two_cores 0xa04 0xa08 0) <| frame_at := list_to_map
    [(2000, Frame 0xa08 1 SCHEDULER_WAIT_FOREVER 0 0 0 0 0); (2100, Frame 0xa08 1 0 0 0 0 0 0)] |>.
Definition parties : cond := Cond cond_cores (λ _, Resting (L := TM Z) (R := result)) [].
Notation parties_reach := (cond_reaches 0xa04 0xa08 (cnd_call 0xa00) parties).

Lemma parties_start : cond_start 0xa04 0xa08 parties.
Proof.
  split; [apply checked_quiescent; vm_compute; reflexivity|done| | |by exists 0|done|done].
  - intros g fx. cbn. intros E _.
    change (({[0xa08 := Futex 0xa04 [] 0 SCHEDULER_FUTEX_MARKER]} : gmap Z futex) !! g = Some fx) in E.
    by apply lookup_singleton_Some in E as [<- _].
  - intros c w Hin. left. unfold cls in Hin. cbn in Hin.
    assert (deferred_wake (default cpu_reset (cpu_at cond_cores !! c)) = deferred_wake cpu_reset) as E.
    { destruct (cpu_at cond_cores !! c) as [x|] eqn:Ex; [|done]. apply elem_of_list_to_map_2 in Ex.
      by repeat (apply elem_of_cons in Ex as [[= -> ->]|Ex]; [done|]); apply elem_of_nil in Ex. }
    rewrite E in Hin. by apply elem_of_replicate in Hin as [-> _].
Qed.

(** One more step of a run. *)
Ltac cond_goes R step :=
  let R' := fresh "R" in
  eassert (parties_reach _) as R' by (eapply cond_on; [exact R|step]);
  clear R; rename R' into R.

Definition signalled : sched := cond_cores <| word_at := {[0xa04 := 1]} |>.
Definition nobody_woken : sched :=
  match run_event (ServiceCall 0 2100 SvcWake) signalled with Done _ s => s | Fault _ => signalled end.
Definition asleep : sched :=
  match run_event (ServiceCall 1 2000 SvcWait) nobody_woken with Done _ s => s | Fault _ => nobody_woken end.

Lemma broadcast_runs : run_event (ServiceCall 0 2100 SvcWake) signalled = Done tt nobody_woken.
Proof. vm_compute. reflexivity. Qed.
Lemma sleeps : run_event (ServiceCall 1 2000 SvcWait) nobody_woken = Done tt asleep.
Proof. vm_compute. reflexivity. Qed.
Lemma may_broadcast : admissible signalled (ServiceCall 0 2100 SvcWake).
Proof.
  exists (Frame 0xa08 1 0 0 0 0 0 0). split; [done|]. exists (Futex 0xa04 [] 0 SCHEDULER_FUTEX_MARKER), 1. by split.
Qed.
Lemma may_sleep : admissible nobody_woken (ServiceCall 1 2000 SvcWait).
Proof.
  exists (Frame 0xa08 1 SCHEDULER_WAIT_FOREVER 0 0 0 0 0). split; [done|]. split; [done|].
  exists (Futex 0xa04 [] 0 SCHEDULER_FUTEX_MARKER), 1. split; [|done]. by split.
Qed.

(** The sequence is read between a broadcast's addition and its wake. *)
Lemma broadcast_run : ∃ m, parties_reach m ∧ cm_sched m = asleep ∧ (∀ u, ¬ broadcasting (cm_party m) u) ∧
  cm_log m = [Parks 0x5200; Reads 0x5200; Signals 0x5000 true].
Proof.
  eassert (parties_reach _) as R by apply cond_here. unfold parties at 2 in R.
  cond_goes R ltac:(eapply cond_starts with (t := 0x5000) (r := Signaller true); [done|reflexivity]).
  cond_goes R ltac:(eapply cond_local with (t := 0x5000) (z := 0); reflexivity).
  cond_goes R ltac:(eapply cond_adds with (t := 0x5000); reflexivity).
  cond_goes R ltac:(eapply cond_starts with (t := 0x5200) (r := Waiter); [done|by exists 1, 1%nat, 0xb00, SCHEDULER_WAIT_FOREVER]).
  cond_goes R ltac:(eapply cond_local with (t := 0x5200) (z := 0); reflexivity).
  cond_goes R ltac:(eapply cond_reads with (t := 0x5200); reflexivity).
  cond_goes R ltac:(eapply cond_wakes with (core := 0) (t := 0x5000) (z := 0);
    [..|exact may_broadcast|exact broadcast_runs]; reflexivity).
  cond_goes R ltac:(eapply cond_local with (t := 0x5200) (z := 0xb00); reflexivity).
  cond_goes R ltac:(eapply cond_local with (t := 0x5200) (z := 0); reflexivity).
  cond_goes R ltac:(eapply cond_waits with (core := 1) (t := 0x5200) (z := 0);
    [..|exact may_sleep|exact sleeps]; reflexivity).
  eexists. split; [exact R|]. split; [done|]. split.
  - intros u [k E]. cbn [cm_party] in E. unfold set_party in E. repeat case_decide; done.
  - cbn [cm_log]. unfold parked. vm_compute. reflexivity.
Qed.

Lemma cnd_loses_no_wake_witness :
  ∃ m, parties_reach m ∧ queue (cm_sched m) (waiters 0xa08) = Some [0x5200] ∧ heard_all 0x5200 (cm_log m) = true ∧
    signals_since 0x5200 [Reads 0x5200; Signals 0x5000 true] = Some 0%nat.
Proof.
  destruct broadcast_run as (m & R & Es & Hb & El). exists m. split; [exact R|].
  assert (queue (cm_sched m) (waiters 0xa08) = Some [0x5200]) as Hq by (rewrite Es; vm_compute; reflexivity).
  destruct (cnd_loses_no_wake 0xa00 parties m) as (_ & Hfresh & Hheard);
    [done|apply sample_unaware|apply parties_start|exact R|by rewrite El|].
  split; [exact Hq|]. split; [apply (Hheard _ _ Hq); [by left|exact Hb]|]. by apply (Hfresh []).
Defined.
