(* ===== verification/RetargetLock.v ===== *)
(** * The locks of the C library

    [picolibc-glue/retarget-lock.c] with retarget-lock.h, and the functions of
    [pico-scheduler/scheduler-glue.c] that take the place of its weak ones when
    the scheduler is linked.  A lock is a word that names its owner, with a count;
    who the caller is, and how it waits, is the runtime's. *)
From S2P Require Import Prelude Scheduler SchedulerSvc SchedulerApi.

Definition LIBC_LOCK_MARKER : Z := 0x89988998.
Definition EBUSY : Z := 16.

(** The fields of a struct __retarget_runtime_lock at [r]. *)
Definition value (r : Z) : Z := r.
Definition expected (r : Z) : Z := r + 4.
Definition count (r : Z) : Z := r + 8.
Definition allocated (r : Z) : Z := r + 12.
Definition marker (r : Z) : Z := r + 16.
Definition SIZEOF_RUNTIME_LOCK : Z := 20.
Definition SIZEOF_LOCK : Z := 4.
(** The field of a struct __lock. *)
Definition retarget_lock (lock : Z) : Z := lock.

(** What retarget-lock.c declares weak, the memory it works on, and what it calls
    of the C library. *)
Class LockRuntime (S : Type) := {
  peek : Z → M S Z;
  poke : Z → Z → M S unit;
  lock_errno : Z → M S unit;
  calloc : Z → M S Z;
  free : Z → M S unit;
  __SEV : M S unit;
  __retarget_runtime_lock_value : M S Z;
  __retarget_runtime_relax : Z → M S unit;
  __retarget_runtime_wake : Z → M S unit;
  SIZEOF_BLOCK : Z;              (* the runtime's lock structure *)
  init_block : Z → M S unit;     (* what it initialises besides the lock *)
  await_initializer : M S unit   (* one turn of the wait for it *)
}.

Section locks.
Context {S : Type} `{LockRuntime S}.

(** [atomic_compare_exchange_strong(a, e, desired)]: both words are read, and one
    of them is written, under the lock of the atomics. *)
Definition exchange (a e desired : Z) : M S bool :=
  v <- peek a ;;
  x <- peek e ;;
  if v =? x then poke a desired ;;; ret true else poke e v ;;; ret false.

Fixpoint await_marker (fuel : nat) (r : Z) : M S unit :=
  match fuel with
  | O => fail OutOfFuel
  | Datatypes.S fuel =>
      m <- peek (marker r) ;;
      if m =? LIBC_LOCK_MARKER then await_initializer ;;; await_marker fuel r else ret tt
  end.

Definition __retarget_runtime_lock_init_once (fuel : nat) (lock : Z) : M S unit :=
  assert (negb (lock =? 0)) ;;;
  r <- peek (retarget_lock lock) ;;
  m <- peek (marker r) ;;
  if m =? LIBC_LOCK_MARKER then ret tt
  else
    m <- peek (marker r) ;;
    if negb (m =? 0) then await_marker fuel r
    else
      poke (marker r) 1 ;;;
      poke (value r) 0 ;;;
      poke (count r) 0 ;;;
      init_block r ;;;
      poke (marker r) LIBC_LOCK_MARKER ;;;
      __SEV.

(** The lock a variable holds: its own, or a new one. *)
Definition __retarget_runtime_lock_init (lock : Z) : M S unit :=
  assert (negb (lock =? 0)) ;;;
  l <- peek lock ;;
  when (l =? 0)
    (l <- calloc (SIZEOF_LOCK + SIZEOF_BLOCK) ;;
     poke lock l ;;;
     when (l =? 0) (fail Aborted) ;;;
     let r := l + SIZEOF_LOCK in
     poke (allocated r) 1 ;;;
     poke (retarget_lock l) r).

Definition __retarget_runtime_lock_close (lock : Z) : M S unit :=
  assert (negb (lock =? 0)) ;;;
  r <- peek (retarget_lock lock) ;;
  a <- peek (allocated r) ;;
  when (negb (a =? 0)) (free lock).

(** The attempt at a lock the caller does not hold, in its three accesses. *)
Definition attempt_store (r : Z) : M S unit := poke (expected r) 0.
Definition attempt_exchange (r v : Z) : M S bool := exchange (value r) (expected r) v.
Definition attempt_count (r : Z) : M S unit := poke (count r) 1.

Definition __retarget_runtime_lock_try_acquire (lock : Z) : M S bool :=
  assert (negb (lock =? 0)) ;;;
  r <- peek (retarget_lock lock) ;;
  v <- __retarget_runtime_lock_value ;;
  w <- peek (value r) ;;
  if v =? w then
    c <- peek (count r) ;;
    poke (count r) (s32 (c + 1)) ;;;
    ret true
  else
    attempt_store r ;;;
    ok <- attempt_exchange r v ;;
    if negb ok then lock_errno EBUSY ;;; ret false
    else attempt_count r ;;; ret true.

(** The way out, in its accesses: [true] where the lock stays held. *)
Definition count_down (r v : Z) : M S bool :=
  w <- peek (value r) ;;
  if negb (w =? v) then ret false
  else
    c <- peek (count r) ;;
    poke (count r) (s32 (c - 1)) ;;;
    ret (0 <? s32 (c - 1)).
Definition give_up_store (r v : Z) : M S unit := poke (expected r) v.
Definition give_up_exchange (r : Z) : M S bool := exchange (value r) (expected r) 0.

Definition __retarget_runtime_lock_release (lock : Z) : M S unit :=
  assert (negb (lock =? 0)) ;;;
  r <- peek (retarget_lock lock) ;;
  v <- __retarget_runtime_lock_value ;;
  still <- count_down r v ;;
  if (still : bool) then ret tt
  else
    v <- __retarget_runtime_lock_value ;;
    give_up_store r v ;;;
    ok <- give_up_exchange r ;;
    when (negb ok) (fail Aborted).

(** ** What the C library calls

    The recursive variants are aliases of these. *)
Definition __retarget_lock_init : Z → M S unit := __retarget_runtime_lock_init.
Definition __retarget_lock_close : Z → M S unit := __retarget_runtime_lock_close.

Fixpoint acquire_loop (fuel : nat) (lock : Z) : M S unit :=
  match fuel with
  | O => fail OutOfFuel
  | Datatypes.S fuel =>
      ok <- __retarget_runtime_lock_try_acquire lock ;;
      if (ok : bool) then ret tt else __retarget_runtime_relax lock ;;; acquire_loop fuel lock
  end.

Definition __retarget_lock_acquire (fuel : nat) (lock : Z) : M S unit :=
  assert (negb (lock =? 0)) ;;;
  __retarget_runtime_lock_init_once fuel lock ;;;
  acquire_loop fuel lock.

Definition __retarget_lock_try_acquire (fuel : nat) (lock : Z) : M S bool :=
  __retarget_runtime_lock_init_once fuel lock ;;;
  __retarget_runtime_lock_try_acquire lock.

Definition __retarget_lock_release (lock : Z) : M S unit :=
  __retarget_runtime_lock_release lock ;;;
  __retarget_runtime_wake lock.
End locks.

(** ** Without the scheduler

    A core is its own caller, and waits for events. *)
Record core_memory := CoreMemory { words : gmap Z Z; core_errno : Z }.
#[export] Instance eta_core_memory : Eta core_memory := λ m, CoreMemory (words m) (core_errno m).

Definition core_runtime (get_core_num : Z) (alloc : Z → M core_memory Z) (release : Z → M core_memory unit)
    (wfe sev : M core_memory unit) : LockRuntime core_memory := {|
  peek a := get_opt (λ m, words m !! a) BadPointer;
  poke a v := upd (λ m, m <| words ::= <[a := v]> |>);
  lock_errno e := upd (λ m, m <| core_errno := e |>);
  calloc := alloc;
  free := release;
  __SEV := sev;
  __retarget_runtime_lock_value := ret (get_core_num + 1);
  __retarget_runtime_relax _ := wfe;
  __retarget_runtime_wake _ := sev;
  SIZEOF_BLOCK := SIZEOF_RUNTIME_LOCK;
  init_block _ := ret tt;
  await_initializer := wfe
|}.

(** ** With the scheduler: scheduler-glue.c

    The task that runs on the core is the caller, and waits on a futex behind the
    lock. *)
Section scheduled.
Context `{Environment} `{Trap} (core : Z) (alloc : Z → SM Z) (release : Z → SM unit) (wfe sev : SM unit).

Definition rtos_futex (r : Z) : Z := r + SIZEOF_RUNTIME_LOCK.
Definition SIZEOF_RTOS_RUNTIME_LOCK : Z := SIZEOF_RUNTIME_LOCK + 28.
(** [x & 0xfffffffc]: a task, and not only a core. *)
Definition names_task (x : Z) : bool := negb (Z.land x 0xfffffffc =? 0).

Definition rtos_lock_value : SM Z := t <- scheduler_task core ;; ret (Z.lor t (core + 1)).

Definition rtos_relax (lock : Z) : SM unit :=
  r <- get_word (retarget_lock lock) ;;
  v <- rtos_lock_value ;;
  if names_task v then
    e <- get_word (expected r) ;;
    status <- scheduler_futex_wait core (rtos_futex r) e SCHEDULER_WAIT_FOREVER ;;
    when (status <? 0) (fail Aborted)
  else wfe.

Definition rtos_wake (lock : Z) : SM unit :=
  r <- get_word (retarget_lock lock) ;;
  e <- get_word (expected r) ;;
  if negb (names_task e) then sev
  else
    status <- scheduler_futex_wake core (rtos_futex r) false ;;
    when (status <? 0) (fail Aborted).

Definition rtos_await_initializer : SM unit :=
  running <- gets scheduler_is_running ;;
  if (running : bool) then _status <- scheduler_sleep core 10 ;; ret tt else wfe.

Definition rtos_runtime : LockRuntime sched := {|
  peek := get_word;
  poke a v := upd (λ s, s <| word_at ::= <[a := v]> |>);
  lock_errno := set_errno;
  calloc := alloc;
  free := release;
  __SEV := sev;
  __retarget_runtime_lock_value := rtos_lock_value;
  __retarget_runtime_relax := rtos_relax;
  __retarget_runtime_wake := rtos_wake;
  SIZEOF_BLOCK := SIZEOF_RTOS_RUNTIME_LOCK;
  init_block r := scheduler_futex_init (rtos_futex r) (value r) 0;
  await_initializer := rtos_await_initializer
|}.

(** The file's own [__retarget_runtime_lock_init_once] and
    [__retarget_runtime_lock_init]: the same code over its block. *)
Definition rtos_lock_init_once (fuel : nat) (lock : Z) : SM unit :=
  __retarget_runtime_lock_init_once (H := rtos_runtime) fuel lock.
Definition rtos_lock_init (lock : Z) : SM unit := __retarget_runtime_lock_init (H := rtos_runtime) lock.
End scheduled.

(** ** Many callers

    The places of a caller between its accesses to the lock at [r]; a caller is the
    value it stores.  [Inside] is the code the lock protects. *)
Inductive place_in := Outside | ToStore | ToExchange | ToCount | Inside | ToGiveUp | ToLeave | Aborting.
(** Which way a caller goes, where it has a choice. *)
Inductive wish := In | Out.

Section callers.
Context {S : Type} `{LockRuntime S} (r : Z).

Definition caller_step (v : Z) (w : wish) (p : place_in) : M S place_in :=
  match p, w with
  | Outside, _ =>
      x <- peek (value r) ;;
      if v =? x then c <- peek (count r) ;; poke (count r) (s32 (c + 1)) ;;; ret Inside else ret ToStore
  | ToStore, _ => attempt_store r ;;; ret ToExchange
  | ToExchange, _ => ok <- attempt_exchange r v ;; ret (if (ok : bool) then ToCount else Outside)
  | ToCount, _ => attempt_count r ;;; ret Inside
  | Inside, In =>
      x <- peek (value r) ;;
      if v =? x then c <- peek (count r) ;; poke (count r) (s32 (c + 1)) ;;; ret Inside else ret ToStore
  | Inside, Out => still <- count_down r v ;; ret (if (still : bool) then Inside else ToGiveUp)
  | ToGiveUp, _ => give_up_store r v ;;; ret ToLeave
  | ToLeave, _ => ok <- give_up_exchange r ;; ret (if (ok : bool) then Outside else Aborting)
  | Aborting, _ => fail Aborted
  end.

(** The callers take their steps in any order. *)
Inductive callers : S → (Z → place_in) → S → (Z → place_in) → Prop :=
  | callers_none s ps : callers s ps s ps
  | callers_step s ps s1 ps1 v w p s2 :
      callers s ps s1 ps1 → caller_step v w (ps1 v) s1 = Done p s2 →
      callers s ps s2 (λ u, if u =? v then p else ps1 u).

(** A schedule: who steps, and the way it goes. *)
Fixpoint schedule (l : list (Z * wish)) (ps : Z → place_in) : M S (Z → place_in) :=
  match l with
  | [] => ret ps
  | (v, w) :: l => p <- caller_step v w (ps v) ;; schedule l (λ u, if u =? v then p else ps u)
  end.
End callers.
