(* ===== verification/RetargetLockClaims.v ===== *)
(** * Properties of the C library's locks

    What a runtime must promise; the lock as an owner and a depth, for callers
    whose calls do not overlap; the two runtimes; and what overlapping calls do. *)
From S2P Require Import Prelude Scheduler SchedulerSvc SchedulerApi SchedulerInv RetargetLock.

(** ** The contract of a runtime

    [view] is the memory; [identity] is who calls, where the runtime is [ready]. *)
Class RuntimeLaws (S : Type) `{LockRuntime S} := {
  view : S → gmap Z Z;
  ready : S → Prop;
  identity : S → Z;
  peek_view a s v : view s !! a = Some v → peek a s = Done v s;
  poke_view a v s : ∃ s', poke a v s = Done tt s' ∧ view s' = <[a := v]> (view s) ∧ (ready s → ready s' ∧ identity s' = identity s);
  errno_view e s : ∃ s', lock_errno e s = Done tt s' ∧ view s' = view s ∧ (ready s → ready s' ∧ identity s' = identity s);
  value_identity s : ready s → __retarget_runtime_lock_value s = Done (identity s) s;
  identity_nonzero s : ready s → identity s ≠ 0
}.

(** ** The abstract lock *)
Inductive owned := Free | Owned (by_ : Z) (depth : nat).
Inductive lock_op := TryAcquire | Release.

(** The answer and the lock afterwards; [None] aborts. *)
Definition owned_step (v : Z) (op : lock_op) (l : owned) : option (bool * owned) :=
  match op, l with
  | TryAcquire, Free => Some (true, Owned v 1)
  | TryAcquire, Owned u d => if u =? v then Some (true, Owned u (S d)) else Some (false, l)
  | Release, Free => None
  | Release, Owned u d =>
      if u =? v then Some (true, match d with S (S d) => Owned u (S d) | _ => Free end) else None
  end.

Section laws.
Context {S : Type} `{RuntimeLaws S}.
Implicit Types (s : S).

Definition lock_call (lock : Z) (op : lock_op) : M S bool :=
  match op with
  | TryAcquire => __retarget_runtime_lock_try_acquire lock
  | Release => __retarget_runtime_lock_release lock ;;; ret true
  end.

(** The lock at [lock], its block at [r], in the memory [m]. *)
Record lock_is (lock r : Z) (l : owned) (m : gmap Z Z) : Prop := {
  li_address : lock ≠ 0 ∧ m !! retarget_lock lock = Some r;
  li_apart : retarget_lock lock ∉ [value r; expected r; count r];
  li_expected : is_Some (m !! expected r);
  li_count : is_Some (m !! count r);
  li_state : match l with
             | Free => m !! value r = Some 0
             | Owned u d => m !! value r = Some u ∧ u ≠ 0 ∧ m !! count r = Some (Z.of_nat d)
             end
}.

Lemma wp_peek a v (Q : Z → S → Prop) s : view s !! a = Some v → Q v s → wp (peek a) Q s.
Proof. intros Hv HQ. eapply wp_done; [by apply peek_view|done]. Qed.

Lemma wp_poke a v (Q : unit → S → Prop) s :
  (∀ s', view s' = <[a := v]> (view s) → (ready s → ready s' ∧ identity s' = identity s) → Q tt s') → wp (poke a v) Q s.
Proof. intros HQ. destruct (poke_view a v s) as (s' & E & V & R). eapply wp_done; [exact E|auto]. Qed.

(** The two words of an exchange, and what they become. *)
Lemma wp_exchange a e desired v x (Q : bool → S → Prop) s :
  view s !! a = Some v → view s !! e = Some x →
  (∀ s', view s' = (if v =? x then <[a := desired]> (view s) else <[e := v]> (view s)) →
     (ready s → ready s' ∧ identity s' = identity s) → Q (v =? x) s') →
  wp (exchange a e desired) Q s.
Proof.
  intros Hv Hx HQ. unfold exchange. wp_step. eapply wp_peek; [exact Hv|]. wp_step. eapply wp_peek; [exact Hx|].
  destruct (v =? x); wp_step; apply wp_poke; intros s' V R; wp_step; by apply HQ.
Qed.

Lemma cells_apart r : value r ≠ expected r ∧ value r ≠ count r ∧ expected r ≠ count r.
Proof. unfold value, expected, count. lia. Qed.

(** The state a caller leaves: it is the same caller, and the lock is [l]. *)
Definition left_as (lock r : Z) (v : Z) (l : owned) (s' : S) : Prop := lock_is lock r l (view s') ∧ ready s' ∧ identity s' = v.

Lemma lock_written lock r l l' m (cells : list (Z * Z)) : lock_is lock r l m →
  Forall (λ c, c.1 ∈ [value r; expected r; count r]) cells →
  let m' := foldl (λ m c, <[c.1 := c.2]> m) m cells in
  match l' with
  | Free => m' !! value r = Some 0
  | Owned u d => m' !! value r = Some u ∧ u ≠ 0 ∧ m' !! count r = Some (Z.of_nat d)
  end → lock_is lock r l' m'.
Proof.
  intros [[Hl Hr] Ha He Hc _] Hcells m' Hs.
  assert (∀ a, is_Some (m !! a) → is_Some (m' !! a)) as Hkeep.
  { intros a. subst m'. clear. revert m. induction cells as [|c cells IH]; intros m Ha; [done|].
    apply IH. destruct (decide (c.1 = a)) as [<-|]; [rewrite lookup_insert_eq; eauto|by rewrite lookup_insert_ne]. }
  assert (m' !! retarget_lock lock = m !! retarget_lock lock) as Hsame.
  { subst m'. clear Hs Hkeep Hr He Hc. revert m. induction cells as [|c cells IH]; intros m; [done|].
    apply Forall_cons in Hcells as [Hc Hcells]. cbn [foldl]. rewrite IH by done. apply lookup_insert_ne.
    intros E. apply Ha. by rewrite <- E. }
  split; [by rewrite Hsame|done|by apply Hkeep|by apply Hkeep|done].
Qed.

(** The prefix every call shares. *)
Lemma lock_prefix {A} lock r l (k : Z → M S A) Q s : lock_is lock r l (view s) →
  wp (k r) Q s → wp (assert (negb (lock =? 0)) ;;; r <- peek (retarget_lock lock) ;; k r) Q s.
Proof.
  intros [[Hl Hr] _ _ _ _] Hk. wp_step. wp_step; [by apply negb_true_iff, Z.eqb_neq|]. wp_step. by eapply wp_peek.
Qed.

Lemma wp_caller (Q : Z → S → Prop) s : ready s → Q (identity s) s → wp __retarget_runtime_lock_value Q s.
Proof. intros Hr HQ. eapply wp_done; [by apply value_identity|done]. Qed.

Lemma value_of lock r l m : lock_is lock r l m → m !! value r = Some (match l with Free => 0 | Owned u _ => u end).
Proof. intros [_ _ _ _ Hs]. destruct l; [done|apply Hs]. Qed.

Lemma acquire_own lock r d s : ready s → lock_is lock r (Owned (identity s) d) (view s) → Z.of_nat d < 2 ^ 31 - 1 →
  wp (__retarget_runtime_lock_try_acquire lock) (λ b s', b = true ∧ left_as lock r (identity s) (Owned (identity s) (Datatypes.S d)) s') s.
Proof.
  intros Hr Hl Hd. pose proof (value_of _ _ _ _ Hl) as Hv. destruct (li_state _ _ _ _ Hl) as (_ & Hz & Hc).
  eapply lock_prefix; [exact Hl|]. wp_step. apply wp_caller; [done|]. wp_step. eapply wp_peek; [exact Hv|]. rewrite Z.eqb_refl.
  wp_step. eapply wp_peek; [exact Hc|]. wp_step. rewrite s32_small by lia. apply wp_poke. intros s' V R. wp_step. split; [done|].
  split; [|by apply R]. rewrite V. pose proof (cells_apart r) as (? & ? & ?).
  eapply (lock_written _ _ _ _ _ [(count r, Z.of_nat d + 1)]); [exact Hl|apply Forall_singleton; cbn; set_solver|]. cbn [foldl fst snd].
  rewrite lookup_insert_ne, lookup_insert_eq by done. split_and!; [done|done|f_equal; lia].
Qed.

Lemma acquire_free lock r s : ready s → lock_is lock r Free (view s) →
  wp (__retarget_runtime_lock_try_acquire lock) (λ b s', b = true ∧ left_as lock r (identity s) (Owned (identity s) 1) s') s.
Proof.
  intros Hr Hl. pose proof (value_of _ _ _ _ Hl) as Hv. pose proof (identity_nonzero _ Hr) as Hz.
  pose proof (cells_apart r) as (? & ? & ?).
  eapply lock_prefix; [exact Hl|]. wp_step. apply wp_caller; [done|]. wp_step. eapply wp_peek; [exact Hv|].
  rewrite (proj2 (Z.eqb_neq _ 0)) by done. wp_step. unfold attempt_store. apply wp_poke. intros s1 V1 R1.
  wp_step. unfold attempt_exchange. eapply wp_exchange; [by rewrite V1, lookup_insert_ne by done; exact Hv|by rewrite V1, lookup_insert_eq|].
  intros s2 V2 R2. cbn [Z.eqb negb] in *. unfold attempt_count. wp_step. apply wp_poke. intros s3 V3 R3. wp_step. split; [done|].
  destruct (R1 Hr) as [Hr1 I1], (R2 Hr1) as [Hr2 I2], (R3 Hr2) as [Hr3 I3]. split; [|split; [done|congruence]].
  rewrite V3, V2, V1. eapply (lock_written _ _ _ _ _ [(expected r, 0); (value r, identity s); (count r, 1)]); [exact Hl| |].
  - repeat constructor; cbn; set_solver.
  - cbn [foldl fst snd]. rewrite lookup_insert_ne, !lookup_insert_eq by done. split_and!; done || lia.
Qed.

Lemma acquire_busy lock r u d s : ready s → lock_is lock r (Owned u d) (view s) → u ≠ identity s →
  wp (__retarget_runtime_lock_try_acquire lock) (λ b s', b = false ∧ left_as lock r (identity s) (Owned u d) s') s.
Proof.
  intros Hr Hl Hu. pose proof (value_of _ _ _ _ Hl) as Hv. destruct (li_state _ _ _ _ Hl) as (_ & Hz & Hc).
  pose proof (cells_apart r) as (? & ? & ?).
  eapply lock_prefix; [exact Hl|]. wp_step. apply wp_caller; [done|]. wp_step. eapply wp_peek; [exact Hv|].
  rewrite (proj2 (Z.eqb_neq _ u)) by done. wp_step. unfold attempt_store. apply wp_poke. intros s1 V1 R1.
  wp_step. unfold attempt_exchange. eapply wp_exchange; [by rewrite V1, lookup_insert_ne by done; exact Hv|by rewrite V1, lookup_insert_eq|].
  intros s2 V2 R2. rewrite (proj2 (Z.eqb_neq u 0)) in * by done. cbn [negb].
  destruct (errno_view EBUSY s2) as (s3 & E3 & V3 & R3). wp_step. eapply wp_done; [exact E3|]. wp_step. split; [done|].
  destruct (R1 Hr) as [Hr1 I1], (R2 Hr1) as [Hr2 I2], (R3 Hr2) as [Hr3 I3]. split; [|split; [done|congruence]].
  rewrite V3, V2, V1. eapply (lock_written _ _ _ _ _ [(expected r, 0); (expected r, u)]); [exact Hl| |].
  - repeat constructor; cbn; set_solver.
  - cbn [foldl fst snd]. rewrite !lookup_insert_ne by done. split_and!; done.
Qed.

(** The end of a release by the last holder, or by somebody else. *)
Lemma release_gives_up lock r l v s : lock_is lock r l (view s) → ready s → identity s = v → v ≠ 0 →
  let m := match l with Free => 0 | Owned u _ => u end in
  let rest := v <- __retarget_runtime_lock_value ;; give_up_store r v ;;; ok <- give_up_exchange r ;; when (negb ok) (fail Aborted) in
  if m =? v then wp rest (λ _ s', left_as lock r v Free s') s else rest s = Fault Aborted.
Proof.
  intros Hl Hr Hi Hv0 m rest. pose proof (value_of _ _ _ _ Hl) as Hv. fold m in Hv. pose proof (cells_apart r) as (? & ? & ?).
  destruct (poke_view (expected r) v s) as (s1 & E1 & V1 & R1).
  assert (view s1 !! value r = Some m ∧ view s1 !! expected r = Some v) as [Hv1 He1].
  { by rewrite V1, lookup_insert_ne, lookup_insert_eq. }
  subst rest. unfold give_up_store, give_up_exchange. destruct (Z.eqb_spec m v) as [E|E].
  - wp_step. apply wp_caller; [done|]. rewrite Hi. wp_step. eapply wp_done; [exact E1|]. wp_step. eapply wp_exchange; [exact Hv1|exact He1|].
    rewrite (proj2 (Z.eqb_eq m v)) by done. intros s2 V2 R2. cbn [negb when]. wp_step.
    destruct (R1 Hr) as [Hr1 I1], (R2 Hr1) as [Hr2 I2]. split; [|split; [done|congruence]]. rewrite V2, V1.
    eapply (lock_written _ _ _ _ _ [(expected r, v); (value r, 0)]); [exact Hl| |].
    + repeat constructor; cbn; set_solver.
    + cbn [foldl fst snd]. by rewrite lookup_insert_eq.
  - apply bind_fault. apply wp_caller; [done|]. rewrite Hi. apply bind_fault. eapply wp_done; [exact E1|]. apply bind_fault. eapply wp_exchange; [exact Hv1|exact He1|].
    rewrite (proj2 (Z.eqb_neq m v)) by done. intros s2 V2 R2. done.
Qed.

Definition sound (l : owned) : Prop := match l with Free => True | Owned _ d => 0 < Z.of_nat d < 2 ^ 31 - 1 end.

(** The count of the owner goes down; anybody else leaves it. *)
Lemma wp_count_down lock r l (Q : bool → S → Prop) s : ready s → lock_is lock r l (view s) → sound l →
  (∀ s' l', ready s' → identity s' = identity s → lock_is lock r l' (view s') →
    l' = match l with Owned u d => if u =? identity s then Owned u (d - 1) else l | Free => Free end →
    Q (match l with Owned u d => (u =? identity s) && (2 <=? Z.of_nat d) | Free => false end) s') →
  wp (count_down r (identity s)) Q s.
Proof.
  intros Hr Hl Hs HQ. pose proof (value_of _ _ _ _ Hl) as Hv. pose proof (identity_nonzero _ Hr) as Hz. unfold count_down.
  wp_step. eapply wp_peek; [exact Hv|]. destruct l as [|u d].
  - rewrite (proj2 (Z.eqb_neq 0 _)) by done. cbn [negb]. wp_step. by eapply HQ.
  - destruct (Z.eqb_spec u (identity s)) as [->|Hne]; cbn [negb andb] in *; [|wp_step; by eapply HQ].
    destruct (li_state _ _ _ _ Hl) as (_ & _ & Hc). cbn in Hs. wp_step. eapply wp_peek; [exact Hc|]. wp_step.
    rewrite s32_small by lia. apply wp_poke. intros s' V R. destruct (R Hr) as [Hr' Hi']. wp_step.
    replace (0 <? Z.of_nat d - 1) with (2 <=? Z.of_nat d) by (destruct (Z.leb_spec 2 (Z.of_nat d)), (Z.ltb_spec 0 (Z.of_nat d - 1)); lia).
    eapply HQ; [done|done| |done]. rewrite V. pose proof (cells_apart r) as (? & ? & ?).
    eapply (lock_written _ _ _ _ _ [(count r, Z.of_nat d - 1)]); [exact Hl|apply Forall_singleton; cbn; set_solver|]. cbn [foldl fst snd].
    rewrite lookup_insert_ne, lookup_insert_eq by done. split_and!; [done|done|f_equal; lia].
Qed.

Lemma release_call lock r l s : ready s → lock_is lock r l (view s) → sound l →
  match owned_step (identity s) Release l with
  | Some (_, l') => wp (__retarget_runtime_lock_release lock) (λ _ s', left_as lock r (identity s) l' s') s
  | None => __retarget_runtime_lock_release lock s = Fault Aborted
  end.
Proof.
  intros Hr Hl Hs. pose proof (identity_nonzero _ Hr) as Hz. destruct (li_address _ _ _ _ Hl) as [Hlock Hptr].
  unfold __retarget_runtime_lock_release.
  assert (∀ u, u ≠ identity s → (match l with Free => 0 | Owned u _ => u end) = u →
    (assert (negb (lock =? 0)) ;;; r <- peek (retarget_lock lock) ;; v <- __retarget_runtime_lock_value ;;
     still <- count_down r v ;;
     if (still : bool) then ret tt
     else v <- __retarget_runtime_lock_value ;; give_up_store r v ;;; ok <- give_up_exchange r ;; when (negb ok) (fail Aborted)) s = Fault Aborted) as Hother.
  { intros u Hne Eu. apply bind_fault. apply wp_assert; [by apply negb_true_iff, Z.eqb_neq|].
    apply bind_fault. eapply wp_peek; [exact Hptr|]. apply bind_fault, wp_caller; [done|]. apply bind_fault.
    eapply wp_count_down; [done|exact Hl|done|]. intros s' l' Hr' Hi' Hl' El'.
    assert (l' = l) as -> by (destruct l; [done|]; rewrite El'; subst u; by rewrite (proj2 (Z.eqb_neq _ _))).
    pose proof (release_gives_up lock r l (identity s) s' Hl' Hr' Hi' Hz) as Hend. cbv zeta in Hend. rewrite Eu in Hend.
    rewrite (proj2 (Z.eqb_neq u (identity s))) in Hend by done.
    destruct l as [|u' d]; [exact Hend|]. subst u'. rewrite (proj2 (Z.eqb_neq u (identity s))) by done. exact Hend. }
  destruct l as [|u d]; cbn [owned_step]; [by apply (Hother 0)|].
  destruct (Z.eqb_spec u (identity s)) as [->|Hne]; [|by apply (Hother u)]. clear Hother.
  eapply lock_prefix; [exact Hl|]. wp_step. apply wp_caller; [done|]. wp_step. eapply wp_count_down; [done|exact Hl|done|].
  intros s' l' Hr' Hi' Hl' El'. cbv beta iota in El' |- *. rewrite Z.eqb_refl in El'. rewrite Z.eqb_refl. cbn [andb]. cbn in Hs. destruct (Z.leb_spec 2 (Z.of_nat d)).
  - wp_step. destruct d as [|[|d]]; [lia|lia|]. subst l'. by split.
  - pose proof (release_gives_up lock r l' (identity s) s' Hl' Hr' Hi' Hz) as Hend. subst l'. cbv zeta iota in Hend. rewrite Z.eqb_refl in Hend.
    destruct d as [|[|d]]; [lia| |lia]. exact Hend.
Qed.

(** One call, alone. *)
Lemma lock_call_refines lock r op l s : ready s → lock_is lock r l (view s) → sound l →
  match owned_step (identity s) op l with
  | Some (b, l') => wp (lock_call lock op) (λ b' s', b' = b ∧ left_as lock r (identity s) l' s') s
  | None => lock_call lock op s = Fault Aborted
  end.
Proof.
  intros Hr Hl Hs. destruct op; cbn [lock_call].
  - destruct l as [|u d]; cbn [owned_step]; [by apply acquire_free|]. destruct (Z.eqb_spec u (identity s)) as [->|Hne].
    + apply acquire_own; [done|done|apply Hs].
    + by apply acquire_busy.
  - pose proof (release_call lock r l s Hr Hl Hs) as Hrel. destruct (owned_step (identity s) Release l) as [[b l']|] eqn:E.
    + wp_step. eapply wp_mono; [exact Hrel|]. intros ? s' Hl'. wp_step. split; [|done].
      destruct l; cbn in E; [done|]. destruct (_ =? _); [|done]. by injection E.
    + unfold bind. by rewrite Hrel.
Qed.
End laws.

(** ** The runtimes keep the contract *)
Section core_runtime.
Context (alloc : Z → M core_memory Z) (release : Z → M core_memory unit) (wfe sev : M core_memory unit).

Lemma core_laws c : @RuntimeLaws core_memory (core_runtime c alloc release wfe sev).
Proof.
  refine (Build_RuntimeLaws _ _ words (λ _, 0 <= c) (λ _, c + 1) _ _ _ _ _); cbn.
  - intros a s v Hv. unfold get_opt. by rewrite Hv.
  - intros a v s. by eexists.
  - intros e s. by eexists.
  - done.
  - intros s Hc. lia.
Defined.

(** Calls by any of the cores, one at a time. *)
Fixpoint lock_calls (lock : Z) (ops : list (Z * lock_op)) : M core_memory (list bool) :=
  match ops with
  | [] => ret []
  | (c, op) :: ops =>
      b <- lock_call (H := core_runtime c alloc release wfe sev) lock op ;;
      bs <- lock_calls lock ops ;;
      ret (b :: bs)
  end.
Fixpoint owned_run (ops : list (Z * lock_op)) (l : owned) : option (list bool * owned) :=
  match ops with
  | [] => Some ([], l)
  | (c, op) :: ops =>
      '(b, l) ← owned_step (c + 1) op l;
      '(bs, l) ← owned_run ops l;
      Some (b :: bs, l)
  end.

Definition depth (l : owned) : nat := match l with Free => 0 | Owned _ d => d end.
Definition held_well (l : owned) : Prop := match l with Free => True | Owned _ d => (0 < d)%nat end.

Lemma owned_step_depth v op l b l' : owned_step v op l = Some (b, l') → held_well l → held_well l' ∧ (depth l' <= S (depth l))%nat.
Proof.
  destruct op, l as [|u d]; cbn; try destruct (u =? v); intros E Hw; simplify_eq; cbn; try lia.
  destruct d as [|[|d]]; cbn; lia.
Qed.

(** C22: For cores whose calls do not overlap a lock is an owner and a depth: any
    sequence of try-acquires and releases answers what the abstract lock answers,
    and aborts exactly where it does, at a release by a core that does not own it. *)
Theorem libc_locks_refine lock r ops l m :
  lock_is lock r l (words m) → held_well l → Forall (λ o, 0 <= o.1) ops → Z.of_nat (depth l + length ops) < 2 ^ 31 - 1 →
  match owned_run ops l with
  | Some (bs, l') => wp (lock_calls lock ops) (λ bs' m', bs' = bs ∧ lock_is lock r l' (words m')) m
  | None => lock_calls lock ops m = Fault Aborted
  end.
Proof.
  revert l m. induction ops as [|[c op] ops IH]; intros l m Hl Hw Hc Hb; cbn [owned_run lock_calls]; [by wp_step|].
  apply Forall_cons in Hc as [Hc Hcs]. cbn [fst length] in *.
  assert (sound l) as Hs by (destruct l; cbn in *; [done|lia]).
  pose proof (lock_call_refines (H0 := core_laws c) lock r op l m Hc Hl Hs) as H1.
  change (identity m) with (c + 1) in H1.
  destruct (owned_step (c + 1) op l) as [[b l1]|] eqn:E; cbn [mbind option_bind].
  - apply owned_step_depth in E as [Hw1 Hd]; [|done]. apply wp_inv in H1 as (b' & m1 & E1 & -> & Hl1 & _ & _).
    specialize (IH l1 m1 Hl1 Hw1 Hcs ltac:(lia)). destruct (owned_run ops l1) as [[bs l2]|]; cbn [mbind option_bind].
    + wp_step. eapply wp_done; [exact E1|]. wp_step. eapply wp_mono; [exact IH|]. intros bs' m2 [-> Hl2]. by wp_step.
    + unfold bind at 1. rewrite E1. unfold bind. by rewrite IH.
  - unfold bind. by rewrite H1.
Qed.
End core_runtime.

Section rtos_runtime.
Context `{Environment} `{Trap} (core : Z) (alloc : Z → SM Z) (release : Z → SM unit) (wfe sev : SM unit).

Definition rtos_ready (s : sched) : Prop := 0 <= core ∧ ∃ t, scheduler_task core s = Done t s.
Definition rtos_identity (s : sched) : Z := match scheduler_task core s with Done t _ => Z.lor t (core + 1) | Fault _ => 0 end.

(** Who calls depends on the tasks alone. *)
Lemma task_kept s s' : s_present s' = s_present s → cpu_at s' = cpu_at s → task_at s' = task_at s →
  rtos_ready s → rtos_ready s' ∧ rtos_identity s' = rtos_identity s.
Proof.
  intros Hp Hc Ht [H0' [t Hs]].
  assert (scheduler_task core s' = Done t s') as Hs'.
  { revert Hs. unfold scheduler_task, sched_get_current, marked_task, get_task, bind, gets, get_opt, when, assert, ret, cls.
    rewrite Hp. destruct (s_present s); [|by intros [= <-]]. rewrite Hc.
    destruct (negb (current_task _ =? 0)); [|by intros [= <-]]. rewrite Ht.
    destruct (task_at s !! _) as [tk|]; [|done]. destruct (t_marker tk =? _); [|done]. by intros [= <-]. }
  unfold rtos_ready, rtos_identity. rewrite Hs, Hs'. split; [|done]. split; [done|by exists t].
Qed.

Lemma rtos_laws : @RuntimeLaws sched (rtos_runtime core alloc release wfe sev).
Proof.
  refine (Build_RuntimeLaws _ _ word_at rtos_ready rtos_identity _ _ _ _ _); cbn.
  - intros a s v Hv. unfold get_word, get_opt. by rewrite Hv.
  - intros a v s. eexists. split; [done|]. split; [done|]. by apply task_kept.
  - intros e s. eexists. split; [done|]. split; [done|]. by apply task_kept.
  - intros s [Hc [t Ht]]. unfold rtos_lock_value, rtos_identity, bind. by rewrite Ht.
  - intros s [Hc [t Ht]]. unfold rtos_identity. rewrite Ht. intros E. apply Z.lor_eq_0_iff in E. lia.
Defined.
End rtos_runtime.

(** ** Initialisation *)
Section init.
Context (c : Z) (alloc : Z → M core_memory Z) (release : Z → M core_memory unit) (wfe : M core_memory unit).
#[local] Instance quiet_runtime : LockRuntime core_memory := core_runtime c alloc release wfe (ret tt).

(** The first use of a zeroed block leaves the lock free and marked; a later
    one changes nothing.  While another caller is still initialising the block
    (any other marker) the call does not wait for it: it returns at once, and the
    lock is as the initialiser left it so far. *)
Theorem init_once_returns fuel lock r k m :
  lock ≠ 0 → words m !! retarget_lock lock = Some r → words m !! marker r = Some k → is_Some (words m !! expected r) →
  retarget_lock lock ∉ [value r; expected r; count r; marker r] → (1 <= fuel)%nat →
  wp (__retarget_runtime_lock_init_once fuel lock) (λ _ m',
    if k =? 0 then lock_is lock r Free (words m') ∧ words m' !! marker r = Some LIBC_LOCK_MARKER else m' = m) m.
Proof.
  intros Hlock Hptr Hk He Ha Hf. unfold __retarget_runtime_lock_init_once.
  wp_step. wp_step; [by apply negb_true_iff, Z.eqb_neq|]. wp_step. cbn [peek quiet_runtime core_runtime].
  eapply wp_get_opt; [exact Hptr|]. wp_step. eapply wp_get_opt; [exact Hk|].
  destruct (Z.eqb_spec k LIBC_LOCK_MARKER) as [->|Hne]; [by wp_step|]. wp_step. eapply wp_get_opt; [exact Hk|].
  destruct (Z.eqb_spec k 0) as [->|Hk0]; cbn [negb].
  - cbn [poke init_block __SEV quiet_runtime core_runtime]. do 2 wp_step. do 2 wp_step. do 2 wp_step. do 2 wp_step. do 2 wp_step. wp_step.
    assert (marker r ≠ value r ∧ marker r ≠ count r ∧ value r ≠ count r ∧ expected r ≠ value r ∧ expected r ≠ count r ∧ expected r ≠ marker r)
      as (? & ? & ? & ? & ? & ?) by (unfold marker, value, count, expected; lia).
    rsimp. split; [|by rewrite lookup_insert_eq]. assert (∀ x, x ∈ [value r; expected r; count r; marker r] → x ≠ retarget_lock lock) as Hx.
    { intros x Hx ->. by apply Ha. }
    split; [split; [done|]|intros Hin; apply Ha; apply list_elem_of_In; apply list_elem_of_In in Hin; cbn in *; tauto| | |].
    + by rewrite !lookup_insert_ne by (apply Hx, list_elem_of_In; cbn; tauto).
    + by rewrite !lookup_insert_ne by done.
    + rewrite lookup_insert_ne, lookup_insert_eq by done. by eexists.
    + by rewrite lookup_insert_ne, lookup_insert_ne, lookup_insert_eq by done.
  - destruct fuel as [|fuel]; [lia|]. cbn [await_marker]. wp_step. eapply wp_get_opt; [exact Hk|].
    rewrite (proj2 (Z.eqb_neq k LIBC_LOCK_MARKER)) by done. by wp_step.
Qed.
End init.

(** ** Overlapping calls *)
Definition no_memory {A} : Z → M core_memory A := λ _, fail Aborted.
#[local] Instance sample_runtime : LockRuntime core_memory := core_runtime 0 no_memory no_memory (ret tt) (ret tt).

Lemma schedule_callers r l : ∀ s0 ps0 s ps s' ps', callers r s0 ps0 s ps → schedule r l ps s = Done ps' s' → callers r s0 ps0 s' ps'.
Proof.
  induction l as [|[v w] l IH]; intros s0 ps0 s ps s' ps' Hc; cbn [schedule]; [by intros [= <- <-]|].
  unfold bind. destruct (caller_step r v w (ps v) s) as [p s1|] eqn:E; [|done]. intros Hl. eapply IH; [|exact Hl].
  by econstructor.
Qed.

(** A free lock at 0x20, its block at 0x40. *)
Definition sample_lock : core_memory :=
  CoreMemory (list_to_map [(0x20, 0x40); (0x40, 0); (0x44, 0); (0x48, 0); (0x50, LIBC_LOCK_MARKER)]) 0.

(** Three tasks, and the two ways their accesses cross. *)
Definition stealing : list (Z * wish) :=
  [(0x1001, In); (0x1001, In); (0x1001, In); (0x1001, In); (0x2001, In); (0x2001, In); (0x3002, In); (0x3002, In); (0x3002, In);
   (0x2001, In); (0x2001, In)].
Definition crossing : list (Z * wish) :=
  [(0x1001, In); (0x1001, In); (0x1001, In); (0x1001, In); (0x2001, In); (0x2001, In); (0x1001, Out); (0x1001, Out);
   (0x2001, In); (0x1001, Out)].

Definition ends_in (l : list (Z * wish)) (P : (Z → place_in) → bool) : bool :=
  match schedule 0x40 l (λ _, Outside) sample_lock with Done ps _ => P ps | Fault _ => false end.

Definition is_inside (p : place_in) : bool := match p with Inside => true | _ => false end.
Definition is_aborting (p : place_in) : bool := match p with Aborting => true | _ => false end.

Lemma ends_in_callers l P : ends_in l P = true → ∃ m ps, callers 0x40 sample_lock (λ _, Outside) m ps ∧ P ps = true.
Proof.
  unfold ends_in. destruct (schedule 0x40 l (λ _, Outside) sample_lock) as [ps m|] eqn:E; [|done]. intros HP.
  exists m, ps. split; [|done]. eapply schedule_callers; [constructor|exact E].
Qed.

(** The word a try-acquire expects is a field of the lock, which every caller
    writes.  A caller that has stored its zero there and is overtaken by one that
    fails, or by the owner on its way out, finds the owner in it and takes the
    lock from it: two callers are inside together, or the owner that leaves
    aborts. *)
Theorem lock_is_stolen :
  (∃ m ps, callers 0x40 sample_lock (λ _, Outside) m ps ∧ ps 0x1001 = Inside ∧ ps 0x2001 = Inside) ∧
  (∃ m ps, callers 0x40 sample_lock (λ _, Outside) m ps ∧ ps 0x1001 = Aborting).
Proof.
  split.
  - destruct (ends_in_callers stealing (λ ps, is_inside (ps 0x1001) && is_inside (ps 0x2001))) as (m & ps & Hc & HP); [by vm_compute|].
    exists m, ps. split; [done|]. apply andb_true_iff in HP as [Ha Hb].
    by destruct (ps 0x1001), (ps 0x2001).
  - destruct (ends_in_callers crossing (λ ps, is_aborting (ps 0x1001))) as (m & ps & Hc & HP); [by vm_compute|].
    exists m, ps. split; [done|]. by destruct (ps 0x1001).
Qed.

Lemma sample_lock_free : lock_is 0x20 0x40 Free (words sample_lock).
Proof. split; [done|intros Hin%list_elem_of_In; vm_compute in Hin; naive_solver|by eexists..|done]. Qed.

Lemma libc_locks_refine_witness :
  wp (lock_calls no_memory no_memory (ret tt) (ret tt) 0x20
        [(0, TryAcquire); (1, TryAcquire); (0, TryAcquire); (0, Release); (0, Release); (1, TryAcquire)])
    (λ bs' m', bs' = [true; false; true; true; true; true] ∧ lock_is 0x20 0x40 (Owned 2 1) (words m')) sample_lock ∧
  lock_calls no_memory no_memory (ret tt) (ret tt) 0x20 [(0, TryAcquire); (1, Release)] sample_lock = Fault Aborted.
Proof.
  split.
  - refine (libc_locks_refine no_memory no_memory (ret tt) (ret tt) 0x20 0x40 
      [(0, TryAcquire); (1, TryAcquire); (0, TryAcquire); (0, Release); (0, Release); (1, TryAcquire)] Free sample_lock
      sample_lock_free I _ _); [repeat constructor; cbn; lia|cbn; lia].
  - refine (libc_locks_refine no_memory no_memory (ret tt) (ret tt) 0x20 0x40 [(0, TryAcquire); (1, Release)] Free sample_lock
      sample_lock_free I _ _); [repeat constructor; cbn; lia|cbn; lia].
Defined.

Lemma init_once_returns_witness :
  wp (__retarget_runtime_lock_init_once (H := core_runtime 0 no_memory no_memory (ret tt) (ret tt)) 1 0x20) (λ _ m',
    m' = CoreMemory (list_to_map [(0x20, 0x40); (0x44, 0); (0x50, 1)]) 0) (CoreMemory (list_to_map [(0x20, 0x40); (0x44, 0); (0x50, 1)]) 0).
Proof.
  refine (init_once_returns 0 no_memory no_memory (ret tt) 1 0x20 0x40 1 (CoreMemory (list_to_map [(0x20, 0x40); (0x44, 0); (0x50, 1)]) 0)
    _ _ _ _ _ _); [done|done|done|by eexists| |lia]. intros Hin%list_elem_of_In; vm_compute in Hin; naive_solver.
Defined.
