(* ===== verification/Tls.v ===== *)
(** * Core-local and thread-local storage

    [pico-tls/tls.c] and tls.h: each core has a copy of the core data, with the
    pointer [_tls] in it, and a first thread-local block behind it.  Memory is
    bytes; the linker's symbols are addresses. *)
From S2P Require Import Prelude.

Abbreviation bytes := (gmap Z Z).
Abbreviation BM := (M bytes).

Definition load8 (a : Z) : BM Z := get_opt (λ m, m !! a) BadPointer.
Definition store8 (a v : Z) : BM unit := upd (λ m, <[a := v]> m).

(** The C library's copy and fill, a byte at a time. *)
Fixpoint memcpy (n : nat) (dst src : Z) : BM unit :=
  match n with
  | O => ret tt
  | S n => b <- load8 src ;; store8 dst b ;;; memcpy n (dst + 1) (src + 1)
  end.
Fixpoint memset (n : nat) (dst v : Z) : BM unit :=
  match n with
  | O => ret tt
  | S n => store8 dst v ;;; memset n (dst + 1) v
  end.

(** Pointers, least significant byte first. *)
Definition load32 (a : Z) : BM Z :=
  b0 <- load8 a ;; b1 <- load8 (a + 1) ;; b2 <- load8 (a + 2) ;; b3 <- load8 (a + 3) ;;
  ret (b0 + 2 ^ 8 * b1 + 2 ^ 16 * b2 + 2 ^ 24 * b3).
Definition byte_of (i v : Z) : Z := v / 2 ^ (8 * i) mod 2 ^ 8.
Definition store32 (a v : Z) : BM unit :=
  store8 a (byte_of 0 v) ;;; store8 (a + 1) (byte_of 1 v) ;;; store8 (a + 2) (byte_of 2 v) ;;; store8 (a + 3) (byte_of 3 v).

Class LinkMap := {
  __core_data : Z; __core_data_size : Z; __core_0 : Z; __core_1 : Z;
  __tls_block_offset : Z; __arm32_tls_tcb_offset : Z;
  __tdata_source : Z; __tdata_size : Z; __tbss_size : Z; __tbss_offset : Z;
  _tls : Z     (* where the variable is in the core data *)
}.

Section tls.
Context `{LinkMap}.

Definition NUM_CORES : nat := 2.

Definition __aeabi_read_core_cls (core : Z) : Z := if core =? 0 then __core_0 else __core_1.
Definition cls_offset (datum : Z) : Z := datum - __core_data.
Definition cls_datum_core_ptr (core datum : Z) : Z := __aeabi_read_core_cls core + cls_offset datum.

(** On [core], which the assembly reads from the SIO. *)
Definition __aeabi_read_tp (core : Z) : BM Z := load32 (cls_datum_core_ptr core _tls).
Definition _set_tls (core tls : Z) : BM unit := store32 (cls_datum_core_ptr core _tls) (u32 (tls - __arm32_tls_tcb_offset)).

Definition _init_tls (tls : Z) : BM unit :=
  memcpy (Z.to_nat __tdata_size) tls __tdata_source ;;;
  memset (Z.to_nat __tbss_size) (tls + __tbss_offset) 0.

Definition core_tls_init (core : Z) : BM unit :=
  let cls := __aeabi_read_core_cls core in
  memcpy (Z.to_nat __core_data_size) cls __core_data ;;;
  _init_tls (cls + __tls_block_offset) ;;;
  store32 (cls_datum_core_ptr core _tls) (u32 (cls + __tls_block_offset - __arm32_tls_tcb_offset)).

Fixpoint cores_tls_init (n : nat) (core : Z) : BM unit :=
  match n with O => ret tt | S n => core_tls_init core ;;; cores_tls_init n (core + 1) end.
Definition _cls_tls_init : BM unit := cores_tls_init NUM_CORES 0.
End tls.

(** ** Laws of the accesses *)
Definition in_area (lo n a : Z) : bool := (lo <=? a) && (a <? lo + n).

Lemma in_area_true lo n a : in_area lo n a = true ↔ lo <= a < lo + n.
Proof. unfold in_area. rewrite andb_true_iff, Z.leb_le, Z.ltb_lt. done. Qed.
Lemma in_area_false lo n a : in_area lo n a = false ↔ a < lo ∨ lo + n <= a.
Proof. unfold in_area. rewrite andb_false_iff, Z.leb_gt, Z.ltb_ge. done. Qed.

(** What an area holds after a write, the rest being as it was. *)
Definition written (lo n : Z) (f : Z → option Z) (m m' : bytes) : Prop :=
  ∀ a, m' !! a = if in_area lo n a then f (a - lo) else m !! a.

Lemma written_in lo n f m m' a : written lo n f m m' → lo <= a < lo + n → m' !! a = f (a - lo).
Proof. intros Hw Ha. rewrite (Hw a). by rewrite (proj2 (in_area_true _ _ _) Ha). Qed.
Lemma written_out lo n f m m' a : written lo n f m m' → a < lo ∨ lo + n <= a → m' !! a = m !! a.
Proof. intros Hw Ha. rewrite (Hw a). by rewrite (proj2 (in_area_false _ _ _) Ha). Qed.

Lemma memcpy_run n : ∀ dst src m, (∀ i, 0 <= i < Z.of_nat n → is_Some (m !! (src + i))) →
  dst + Z.of_nat n <= src ∨ src + Z.of_nat n <= dst →
  ∃ m', memcpy n dst src m = Done tt m' ∧ written dst (Z.of_nat n) (λ i, m !! (src + i)) m m'.
Proof.
  induction n as [|n IH]; intros dst src m Hs Hd; cbn [memcpy].
  - exists m. split; [done|]. intros a. by rewrite (proj2 (in_area_false _ _ _)) by lia.
  - destruct (Hs 0 ltac:(lia)) as [b Hb]. rewrite Z.add_0_r in Hb.
    unfold bind at 1, load8, get_opt. rewrite Hb. unfold bind, store8, upd.
    destruct (IH (dst + 1) (src + 1) (<[dst := b]> m)) as (m' & -> & Hw); [|lia|].
    { intros i Hi. rewrite lookup_insert_ne by lia. replace (src + 1 + i) with (src + (i + 1)) by lia. apply Hs. lia. }
    exists m'. split; [done|]. intros a. destruct (in_area dst (Z.of_nat (S n)) a) eqn:E.
    + apply in_area_true in E. destruct (decide (a = dst)) as [->|].
      * rewrite (written_out _ _ _ _ _ _ Hw), lookup_insert_eq by lia. by rewrite Z.sub_diag, Z.add_0_r.
      * rewrite (written_in _ _ _ _ _ _ Hw) by lia. rewrite lookup_insert_ne by lia. f_equal. lia.
    + apply in_area_false in E. rewrite (written_out _ _ _ _ _ _ Hw) by lia. apply lookup_insert_ne. lia.
Qed.

Lemma memset_run n v : ∀ dst m, ∃ m', memset n dst v m = Done tt m' ∧ written dst (Z.of_nat n) (λ _, Some v) m m'.
Proof.
  induction n as [|n IH]; intros dst m; cbn [memset].
  - exists m. split; [done|]. intros a. by rewrite (proj2 (in_area_false _ _ _)) by lia.
  - unfold bind, store8, upd. destruct (IH (dst + 1) (<[dst := v]> m)) as (m' & -> & Hw). exists m'. split; [done|].
    intros a. destruct (in_area dst (Z.of_nat (S n)) a) eqn:E.
    + apply in_area_true in E. destruct (decide (a = dst)) as [->|].
      * by rewrite (written_out _ _ _ _ _ _ Hw), lookup_insert_eq by lia.
      * by rewrite (written_in _ _ _ _ _ _ Hw) by lia.
    + apply in_area_false in E. rewrite (written_out _ _ _ _ _ _ Hw) by lia. apply lookup_insert_ne. lia.
Qed.

Lemma store32_run a v m : ∃ m', store32 a v m = Done tt m' ∧ written a 4 (λ i, Some (byte_of i v)) m m'.
Proof.
  eexists. split; [reflexivity|]. intros b. destruct (in_area a 4 b) eqn:E.
  - apply in_area_true in E. assert (b = a ∨ b = a + 1 ∨ b = a + 2 ∨ b = a + 3) as [-> |[-> |[-> | ->]]] by lia.
    1: replace (a - a) with 0 by lia. 2: replace (a + 1 - a) with 1 by lia.
    3: replace (a + 2 - a) with 2 by lia. 4: replace (a + 3 - a) with 3 by lia.
    all: repeat (rewrite lookup_insert_ne by lia); by rewrite lookup_insert_eq.
  - apply in_area_false in E. by rewrite !lookup_insert_ne by lia.
Qed.

Lemma bytes_sum v : 0 <= v < 2 ^ 32 → byte_of 0 v + 2 ^ 8 * byte_of 1 v + 2 ^ 16 * byte_of 2 v + 2 ^ 24 * byte_of 3 v = v.
Proof. intros Hv. unfold byte_of. cbn [Z.mul]. change (2 ^ (8 * 0)) with 1. change (2 ^ (8 * 1)) with 256. change (2 ^ (8 * 2)) with 65536. change (2 ^ (8 * 3)) with 16777216. change (2 ^ 8) with 256. Z.div_mod_to_equations. lia. Qed.

Lemma load32_run a v m : 0 <= v < 2 ^ 32 → (∀ i, 0 <= i < 4 → m !! (a + i) = Some (byte_of i v)) → load32 a m = Done v m.
Proof.
  intros Hv Hb. unfold load32, load8, bind, get_opt, ret. pose proof (Hb 0 ltac:(lia)) as H0. rewrite Z.add_0_r in H0.
  rewrite H0, (Hb 1), (Hb 2), (Hb 3) by lia. by rewrite bytes_sum.
Qed.

Lemma load32_same a v m m' : (∀ i, 0 <= i < 4 → m' !! (a + i) = m !! (a + i)) → load32 a m = Done v m → load32 a m' = Done v m'.
Proof.
  intros Hs. pose proof (Hs 0 ltac:(lia)) as E0. pose proof (Hs 1 ltac:(lia)) as E1. pose proof (Hs 2 ltac:(lia)) as E2.
  pose proof (Hs 3 ltac:(lia)) as E3. rewrite Z.add_0_r in E0. unfold load32, load8, bind, get_opt, ret.
  rewrite E0. destruct (m !! a); [|done]. rewrite E1. destruct (m !! (a + 1)); [|done]. rewrite E2. destruct (m !! (a + 2)); [|done].
  rewrite E3. destruct (m !! (a + 3)); [|done].
  intros E. exact (f_equal (λ r, match r with Done x _ => Done x m' | Fault f => Fault f end) E).
Qed.

(** ** The layout the linker script makes *)
Section layout.
Context `{LinkMap}.

(** One region per core: its copy of the core data, then its block of
    [tls_extent] bytes; the sources lie apart from both. *)
Definition tls_extent : Z := __tbss_offset + __tbss_size.
Definition region_size : Z := __tls_block_offset + tls_extent.

Record layout_ok : Prop := {
  lo_sizes : 0 <= __core_data_size <= __tls_block_offset ∧ 0 <= __tdata_size <= __tbss_offset ∧ 0 <= __tbss_size;
  lo_pointer : 0 <= cls_offset _tls ∧ cls_offset _tls + 4 <= __core_data_size;
  lo_cores : __core_0 + region_size <= __core_1 ∨ __core_1 + region_size <= __core_0;
  lo_sources c : c = 0 ∨ c = 1 → let r := __aeabi_read_core_cls c in
    (r + region_size <= __core_data ∨ __core_data + __core_data_size <= r) ∧
    (r + region_size <= __tdata_source ∨ __tdata_source + __tdata_size <= r);
  lo_addresses c : c = 0 ∨ c = 1 → 0 <= __aeabi_read_core_cls c + __tls_block_offset - __arm32_tls_tcb_offset < 2 ^ 32
}.

(** The initial images are there. *)
Definition sources_in (m : bytes) : Prop :=
  (∀ i, 0 <= i < __core_data_size → is_Some (m !! (__core_data + i))) ∧
  (∀ i, 0 <= i < __tdata_size → is_Some (m !! (__tdata_source + i))).

(** What a core finds after the start: its thread pointer, and in its block and
    its data what the images [m0] hold. *)
Record core_ready (m0 : bytes) (c : Z) (m : bytes) : Prop := {
  cr_pointer : __aeabi_read_tp c m = Done (__aeabi_read_core_cls c + __tls_block_offset - __arm32_tls_tcb_offset) m;
  cr_data i : 0 <= i < __tdata_size → m !! (__aeabi_read_core_cls c + __tls_block_offset + i) = m0 !! (__tdata_source + i);
  cr_zero i : 0 <= i < __tbss_size → m !! (__aeabi_read_core_cls c + __tls_block_offset + __tbss_offset + i) = Some 0;
  cr_core i : 0 <= i < __core_data_size → (i < cls_offset _tls ∨ cls_offset _tls + 4 <= i) →
    m !! (__aeabi_read_core_cls c + i) = m0 !! (__core_data + i)
}.

(** A write elsewhere leaves a core as it was. *)
Lemma core_ready_stays (Hl : layout_ok) m0 c m m' : core_ready m0 c m →
  (∀ a, in_area (__aeabi_read_core_cls c) region_size a = true → m' !! a = m !! a) → core_ready m0 c m'.
Proof.
  intros [Hp Hd Hz Hc] Hsame. destruct (lo_sizes Hl) as (? & ? & ?), (lo_pointer Hl) as [? ?].
  assert (∀ i, 0 <= i < region_size → m' !! (__aeabi_read_core_cls c + i) = m !! (__aeabi_read_core_cls c + i)) as Hs.
  { intros i Hi. apply Hsame, in_area_true. lia. }
  unfold region_size, tls_extent in *. split.
  - eapply load32_same; [|exact Hp]. intros i Hi. unfold cls_datum_core_ptr. rewrite <- !Z.add_assoc. apply Hs. lia.
  - intros i Hi. rewrite <- (Hd i Hi), <- !Z.add_assoc. apply Hs. lia.
  - intros i Hi. rewrite <- (Hz i Hi), <- !Z.add_assoc. apply Hs. lia.
  - intros i Hi Ho. rewrite <- (Hc i Hi Ho). apply Hs. lia.
Qed.

Lemma init_tls_run (Hl : layout_ok) m0 c m : c = 0 ∨ c = 1 → sources_in m0 →
  (∀ i, 0 <= i < __tdata_size → m !! (__tdata_source + i) = m0 !! (__tdata_source + i)) →
  let tls := __aeabi_read_core_cls c + __tls_block_offset in
  ∃ m', _init_tls tls m = Done tt m' ∧ written tls tls_extent (λ i,
    if in_area 0 __tdata_size i then m0 !! (__tdata_source + i)
    else if in_area __tbss_offset __tbss_size i then Some 0 else m !! (tls + i)) m m'.
Proof.
  intros Hc [_ Hsrc] Hsame tls. destruct (lo_sizes Hl) as (? & ? & ?). destruct (lo_sources Hl c Hc) as [_ Hd].
  unfold region_size, tls_extent in *. unfold _init_tls.
  destruct (memcpy_run (Z.to_nat __tdata_size) tls __tdata_source m) as (m1 & E1 & W1).
  { intros i Hi. rewrite Hsame by lia. apply Hsrc. lia. }
  { unfold tls. lia. }
  destruct (memset_run (Z.to_nat __tbss_size) 0 (tls + __tbss_offset) m1) as (m2 & E2 & W2).
  exists m2. split; [unfold bind; by rewrite E1|]. rewrite Z2Nat.id in W1, W2 by lia.
  intros a. rewrite (W2 a), (W1 a). unfold in_area.
  destruct (Z.leb_spec tls a), (Z.ltb_spec a (tls + (__tbss_offset + __tbss_size))), (Z.leb_spec (tls + __tbss_offset) a),
    (Z.ltb_spec a (tls + __tbss_offset + __tbss_size)), (Z.ltb_spec a (tls + __tdata_size)), (Z.leb_spec 0 (a - tls)),
    (Z.ltb_spec (a - tls) (0 + __tdata_size)), (Z.leb_spec __tbss_offset (a - tls)), (Z.ltb_spec (a - tls) (__tbss_offset + __tbss_size));
    cbn [andb]; try lia; try done; try (apply Hsame; lia); f_equal; lia.
Qed.

(** The images, still as they were. *)
Definition images_kept (m0 m : bytes) : Prop :=
  (∀ i, 0 <= i < __core_data_size → m !! (__core_data + i) = m0 !! (__core_data + i)) ∧
  (∀ i, 0 <= i < __tdata_size → m !! (__tdata_source + i) = m0 !! (__tdata_source + i)).

Lemma images_stay (Hl : layout_ok) m0 m m' c : c = 0 ∨ c = 1 → images_kept m0 m →
  (∀ a, in_area (__aeabi_read_core_cls c) region_size a = false → m' !! a = m !! a) → images_kept m0 m'.
Proof.
  intros Hc [K1 K2] Hout. destruct (lo_sources Hl c Hc) as [D1 D2].
  split; intros i Hi; rewrite Hout; [by apply K1|apply in_area_false; lia|by apply K2|apply in_area_false; lia].
Qed.

Lemma core_tls_init_run (Hl : layout_ok) m0 c m : c = 0 ∨ c = 1 → sources_in m0 → images_kept m0 m →
  ∃ m', core_tls_init c m = Done tt m' ∧ core_ready m0 c m' ∧
    ∀ a, in_area (__aeabi_read_core_cls c) region_size a = false → m' !! a = m !! a.
Proof.
  intros Hc Hsrc [K1 K2]. destruct (lo_sizes Hl) as (? & ? & ?), (lo_pointer Hl) as [? ?]. destruct (lo_sources Hl c Hc) as [D1 D2].
  pose proof (lo_addresses Hl c Hc) as Haddr. set (cls := __aeabi_read_core_cls c) in *.
  unfold region_size, tls_extent in D1, D2.
  destruct (memcpy_run (Z.to_nat __core_data_size) cls __core_data m) as (m1 & E1 & W1); [| lia |].
  { intros i Hi. rewrite K1 by lia. apply Hsrc. lia. }
  rewrite Z2Nat.id in W1 by lia.
  destruct (init_tls_run Hl m0 c m1 Hc Hsrc) as (m2 & E2 & W2).
  { intros i Hi. rewrite (written_out _ _ _ _ _ _ W1) by lia. by apply K2. }
  fold cls in E2, W2.
  destruct (store32_run (cls_datum_core_ptr c _tls) (u32 (cls + __tls_block_offset - __arm32_tls_tcb_offset)) m2) as (m3 & E3 & W3).
  rewrite u32_small in E3, W3 by exact Haddr. unfold cls_datum_core_ptr in W3. fold cls in W3.
  exists m3. split; [|split; [split|]].
  - unfold core_tls_init. fold cls. cbv zeta. unfold bind at 1. rewrite E1. unfold bind. rewrite E2. rewrite u32_small by exact Haddr.
    unfold cls_datum_core_ptr in *. fold cls in E3 |- *. by rewrite E3.
  - unfold __aeabi_read_tp. apply load32_run; [exact Haddr|]. intros i Hi. unfold cls_datum_core_ptr. fold cls.
    rewrite (written_in _ _ _ _ _ _ W3) by lia. do 2 f_equal. lia.
  - intros i Hi. rewrite (written_out _ _ _ _ _ _ W3), (written_in _ _ _ _ _ _ W2) by (unfold tls_extent; lia).
    replace (cls + __tls_block_offset + i - (cls + __tls_block_offset)) with i by lia.
    by rewrite (proj2 (in_area_true 0 _ i)) by lia.
  - intros i Hi. rewrite (written_out _ _ _ _ _ _ W3), (written_in _ _ _ _ _ _ W2) by (unfold tls_extent; lia).
    replace (cls + __tls_block_offset + __tbss_offset + i - (cls + __tls_block_offset)) with (__tbss_offset + i) by lia.
    rewrite (proj2 (in_area_false 0 _ _)), (proj2 (in_area_true _ _ _)) by lia. done.
  - intros i Hi Ho. rewrite (written_out _ _ _ _ _ _ W3), (written_out _ _ _ _ _ _ W2), (written_in _ _ _ _ _ _ W1) by (unfold tls_extent; lia).
    rewrite <- K1 by lia. f_equal. lia.
  - intros a Ha. apply in_area_false in Ha. unfold region_size, tls_extent in Ha.
    by rewrite (written_out _ _ _ _ _ _ W3), (written_out _ _ _ _ _ _ W2), (written_out _ _ _ _ _ _ W1) by (unfold tls_extent; lia).
Qed.

(** C32: After the start every core finds its own copy of the core data, a thread
    pointer to its own block, and in the block the initialised and the zeroed
    variables; memory outside the two regions is untouched. *)
Theorem cls_tls_init_ready m : layout_ok → sources_in m →
  ∃ m', _cls_tls_init m = Done tt m' ∧ core_ready m 0 m' ∧ core_ready m 1 m' ∧
    ∀ a, in_area __core_0 region_size a = false → in_area __core_1 region_size a = false → m' !! a = m !! a.
Proof.
  intros Hl Hsrc. assert (images_kept m m) as K by done.
  destruct (core_tls_init_run Hl m 0 m (or_introl eq_refl) Hsrc K) as (m1 & E1 & R1 & O1).
  destruct (core_tls_init_run Hl m 1 m1 (or_intror eq_refl) Hsrc) as (m2 & E2 & R2 & O2).
  { eapply images_stay; [done|by left|exact K|exact O1]. }
  exists m2. change (__aeabi_read_core_cls 0) with __core_0 in O1. change (__aeabi_read_core_cls 1) with __core_1 in O2.
  split_and!; [|  |done|].
  - unfold _cls_tls_init, NUM_CORES. cbn [cores_tls_init]. unfold bind at 1. rewrite E1. unfold bind. change (0 + 1) with 1. by rewrite E2.
  - eapply core_ready_stays; [done|exact R1|]. intros a Ha. apply O2.
    change (__aeabi_read_core_cls 0) with __core_0 in Ha. apply in_area_true in Ha. apply in_area_false.
    destruct (lo_cores Hl); lia.
  - intros a H0' H1'. by rewrite O2, O1.
Qed.

(** The pointer a core is given is the one it reads, and the other core keeps its
    own. *)
Lemma set_tls_run c d tls m : layout_ok → (c = 0 ∧ d = 1) ∨ (c = 1 ∧ d = 0) →
  ∃ m', _set_tls c tls m = Done tt m' ∧ __aeabi_read_tp c m' = Done (u32 (tls - __arm32_tls_tcb_offset)) m' ∧
    ∀ v, __aeabi_read_tp d m = Done v m → __aeabi_read_tp d m' = Done v m'.
Proof.
  intros Hl Hcd. destruct (lo_pointer Hl) as [? ?], (lo_sizes Hl) as (? & ? & ?).
  destruct (store32_run (cls_datum_core_ptr c _tls) (u32 (tls - __arm32_tls_tcb_offset)) m) as (m' & E & W).
  exists m'. split; [exact E|]. split.
  - apply load32_run; [apply u32_range|]. intros i Hi. rewrite (written_in _ _ _ _ _ _ W) by lia. do 2 f_equal. lia.
  - intros v Hv. eapply load32_same; [|exact Hv]. intros i Hi. apply (written_out _ _ _ _ _ _ W).
    unfold cls_datum_core_ptr. pose proof (lo_cores Hl) as Hcores. unfold region_size, tls_extent in Hcores.
    destruct Hcd as [[-> ->]|[-> ->]]; cbn [__aeabi_read_core_cls Z.eqb]; unfold __aeabi_read_core_cls; cbn [Z.eqb]; lia.
Qed.

(** The thread pointer a core is given is the one it reads, and the other
    core keeps its own. *)
Theorem set_tls_round_trip c d tls m : layout_ok → (c = 0 ∧ d = 1) ∨ (c = 1 ∧ d = 0) →
  ∃ m', _set_tls c tls m = Done tt m' ∧ __aeabi_read_tp c m' = Done (u32 (tls - __arm32_tls_tcb_offset)) m' ∧
    ∀ v, __aeabi_read_tp d m = Done v m → __aeabi_read_tp d m' = Done v m'.
Proof. apply set_tls_run. Qed.
End layout.

(** ** A layout *)
#[export] Instance sample_map : LinkMap := {|
  __core_data := 100; __core_data_size := 8; __core_0 := 200; __core_1 := 300; __tls_block_offset := 8;
  __arm32_tls_tcb_offset := 8; __tdata_source := 120; __tdata_size := 3; __tbss_size := 4; __tbss_offset := 4; _tls := 104
|}.
Definition sample_image : bytes := list_to_map (zip (seqZ 100 40) (seqZ 1 40)).

Lemma sample_layout : layout_ok.
Proof.
  split; unfold region_size, tls_extent, cls_offset; [cbn; lia|cbn; lia|cbn; lia| |]; intros c [-> | ->];
    unfold __aeabi_read_core_cls; cbn; lia.
Qed.

Lemma sample_sources : sources_in sample_image.
Proof.
  assert (∀ a, 100 <= a < 140 → is_Some (sample_image !! a)) as Hall.
  { intros a Ha. assert (forallb (λ a, bool_decide (is_Some (sample_image !! a))) (seqZ 100 40) = true) as E by (vm_compute; reflexivity).
    eapply forallb_forall in E; [by apply bool_decide_eq_true in E|]. apply list_elem_of_In, elem_of_seqZ. lia. }
  split; intros i Hi; apply Hall; cbn in *; lia.
Qed.

Lemma cls_tls_init_ready_witness :
  ∃ m', _cls_tls_init sample_image = Done tt m' ∧ core_ready sample_image 0 m' ∧ core_ready sample_image 1 m' ∧
    ∀ a, in_area 200 16 a = false → in_area 300 16 a = false → m' !! a = sample_image !! a.
Proof. exact (cls_tls_init_ready sample_image sample_layout sample_sources). Defined.

Lemma set_tls_round_trip_witness :
  ∃ m', _set_tls 0 0x2000 sample_image = Done tt m' ∧ __aeabi_read_tp 0 m' = Done 0x1ff8 m' ∧
    ∀ v, __aeabi_read_tp 1 sample_image = Done v sample_image → __aeabi_read_tp 1 m' = Done v m'.
Proof. exact (set_tls_round_trip 0 1 0x2000 sample_image sample_layout (or_introl (conj eq_refl eq_refl))). Defined.
