(* ===== verification/Glue.v ===== *)
(** * The scheduler's start and end on a core

    [pico-scheduler/scheduler-glue.c]: the hooks that set a core's system timer
    and exception priorities up when the scheduler starts on it and stop the timer
    when it ends, the switch of the thread pointer, and the timer's handler.  The
    locks of the C library this file defines are in RetargetLock. *)
From S2P Require Import Prelude Tls.

Definition SCHEDULER_PRIOR_BITS : Z := 2.
Definition SCHEDULER_MAX_IRQ_PRIORITY : Z := 0x00.
Definition SCHEDULER_MIN_IRQ_PRIORITY : Z := SCHEDULER_PRIOR_BITS + 1.
Definition SCHEDULER_PENDSV_PRIORITY : Z := SCHEDULER_MIN_IRQ_PRIORITY.
Definition SCHEDULER_SVC_PRIORITY : Z := SCHEDULER_MIN_IRQ_PRIORITY - 1.
Definition SCHEDULER_SYSTICK_PRIORITY : Z := SCHEDULER_MAX_IRQ_PRIORITY.

(** [IRQn_Type] of the processor's exceptions, and bits of its registers. *)
Definition SVCall_IRQn : Z := -5.
Definition PendSV_IRQn : Z := -2.
Definition SysTick_IRQn : Z := -1.
Definition SCB_SCR_SEVONPEND_Msk : Z := Z.shiftl 1 4.
Definition SysTick_CTRL_COUNTFLAG_Msk : Z := Z.shiftl 1 16.
Definition SysTick_CTRL_CLKSOURCE_Msk : Z := Z.shiftl 1 2.
Definition SysTick_CTRL_TICKINT_Msk : Z := Z.shiftl 1 1.
Definition SysTick_CTRL_ENABLE_Msk : Z := 1.

(** The registers of the core, the priorities its exceptions were given, the
    handler of the system timer, the core's [old_tls], and the memory with the
    thread pointers. *)
Record core_regs := CoreRegs {
  SCR : Z; LOAD : Z; VAL : Z; CTRL : Z;
  priority_of : Z → Z;
  systick_handler : Z;
  old_tls : Z;
  memory : bytes
}.
#[export] Instance eta_core_regs : Eta core_regs :=
  λ r, CoreRegs (SCR r) (LOAD r) (VAL r) (CTRL r) (priority_of r) (systick_handler r) (old_tls r) (memory r).

Section glue.
(** The core; the clock; where the handler lies; the handler of scheduler.c; and
    the hooks of multicore-glue.c. *)
Context `{LinkMap} (core SystemCoreClock SysTick_Handler_at : Z).
Context (scheduler_tick multicore_startup_hook multicore_shutdown_hook : M core_regs unit).

Definition in_memory {A} (m : BM A) : M core_regs A := λ r,
  match m (memory r) with Done a b => Done a (r <| memory := b |>) | Fault f => Fault f end.

Definition NVIC_SetPriority (irq v : Z) : M core_regs unit :=
  upd (λ r, r <| priority_of ::= (λ p i, if i =? irq then v else p i) |>).

(** [task]: the field [tls] of the task to switch to, [None] for a null pointer. *)
Definition scheduler_switch_hook (task : option Z) : M core_regs unit :=
  in_memory (_set_tls core (match task with Some tls => tls | None => 0 end)).

(** The read of the control register clears the overflow. *)
Definition SysTick_Handler : M core_regs unit :=
  upd (λ r, r <| CTRL ::= (λ v, Z.ldiff v SysTick_CTRL_COUNTFLAG_Msk) |>) ;;;
  scheduler_tick.

Definition scheduler_startup_hook : M core_regs unit :=
  NVIC_SetPriority PendSV_IRQn SCHEDULER_PENDSV_PRIORITY ;;;
  NVIC_SetPriority SVCall_IRQn SCHEDULER_SVC_PRIORITY ;;;
  NVIC_SetPriority SysTick_IRQn SCHEDULER_SYSTICK_PRIORITY ;;;
  upd (λ r, r <| SCR := SCB_SCR_SEVONPEND_Msk |>) ;;;
  upd (λ r, r <| systick_handler := SysTick_Handler_at |>) ;;;
  tp <- in_memory (__aeabi_read_tp core) ;;
  upd (λ r, r <| old_tls := tp |>) ;;;
  upd (λ r, r <| LOAD := u32 (SystemCoreClock / 1000 - 1) |>) ;;;
  upd (λ r, r <| VAL := 0 |>) ;;;
  upd (λ r, r <| CTRL := Z.lor SysTick_CTRL_CLKSOURCE_Msk (Z.lor SysTick_CTRL_TICKINT_Msk SysTick_CTRL_ENABLE_Msk) |>) ;;;
  multicore_startup_hook.

Definition scheduler_shutdown_hook : M core_regs unit :=
  upd (λ r, r <| CTRL := 0 |>) ;;;
  tls <- gets old_tls ;;
  in_memory (_set_tls core tls) ;;;
  multicore_shutdown_hook.

(** ** Properties *)

(** A running core: the timer ticks every millisecond above the traps of the
    scheduler, and the switch runs below them all. *)
Record ticking (r : core_regs) : Prop := {
  tg_period : 1000 <= SystemCoreClock < word → LOAD r + 1 = SystemCoreClock / 1000;
  tg_enabled : CTRL r = 7 ∧ VAL r = 0 ∧ systick_handler r = SysTick_Handler_at;
  tg_order : priority_of r SysTick_IRQn < priority_of r SVCall_IRQn < priority_of r PendSV_IRQn
}.

Lemma startup_run r tp : __aeabi_read_tp core (memory r) = Done tp (memory r) →
  (∀ r, multicore_startup_hook r = Done tt r) →
  wp scheduler_startup_hook (λ _ r', ticking r' ∧ old_tls r' = tp ∧ memory r' = memory r) r.
Proof.
  intros Htp Hhook. unfold scheduler_startup_hook, wp, bind, NVIC_SetPriority, upd, in_memory. rsimp. rewrite Htp, Hhook.
  split; [|by rsimp]. split; rsimp; [|done|done].
  intros Hc. rewrite u32_small; [lia|]. unfold is_u32. Z.div_mod_to_equations. lia.
Qed.

(** The start of the scheduler on a core sets its timer to a millisecond, with
    the timer above the service calls and these above the switch, and leaves the
    thread pointer; its end stops the timer.  But it gives the thread pointer
    back lower by the size of the control block: the saved pointer already had
    it subtracted. *)
Theorem hooks_lose_thread_pointer c d r tp :
  layout_ok → (c = 0 ∧ d = 1) ∨ (c = 1 ∧ d = 0) → core = c →
  (∀ r, multicore_startup_hook r = Done tt r) → (∀ r, multicore_shutdown_hook r = Done tt r) →
  __aeabi_read_tp core (memory r) = Done tp (memory r) →
  wp scheduler_startup_hook (λ _ r1, ticking r1 ∧ memory r1 = memory r ∧
    wp scheduler_shutdown_hook (λ _ r2, CTRL r2 = 0 ∧
      __aeabi_read_tp core (memory r2) = Done (u32 (tp - __arm32_tls_tcb_offset)) (memory r2)) r1) r.
Proof.
  intros Hl Hcd <- Hup Hdown Htp. eapply wp_mono; [by apply startup_run|]. intros _ r1 (Ht & Hold & Hm). split; [done|]. split; [done|].
  destruct (set_tls_run core d tp (memory r1) Hl Hcd) as (m' & E & Hread & _).
  unfold scheduler_shutdown_hook, wp, bind, gets, upd, in_memory. rsimp. rewrite Hold, E, Hdown. by rsimp.
Qed.

(** A switch to a task gives its core the task's thread pointer, whatever ran
    before, and leaves the other core's. *)
Theorem switch_hook_restores c d tls other r :
  layout_ok → (c = 0 ∧ d = 1) ∨ (c = 1 ∧ d = 0) → core = c →
  wp (scheduler_switch_hook other ;;; scheduler_switch_hook (Some tls)) (λ _ r',
    __aeabi_read_tp core (memory r') = Done (u32 (tls - __arm32_tls_tcb_offset)) (memory r') ∧
    ∀ v, __aeabi_read_tp d (memory r) = Done v (memory r) → __aeabi_read_tp d (memory r') = Done v (memory r')) r.
Proof.
  intros Hl Hcd <-. unfold scheduler_switch_hook, wp, bind, in_memory.
  destruct (set_tls_run core d (match other with Some tls => tls | None => 0 end) (memory r) Hl Hcd) as (m1 & -> & _ & H1). rsimp.
  destruct (set_tls_run core d tls m1 Hl Hcd) as (m2 & -> & E & H2). rsimp. split; [done|]. intros v Hv. by apply H2, H1.
Qed.
End glue.

(** ** A core 0 at 125 MHz *)
Definition sample_core : core_regs := CoreRegs 0 0 0 0 (λ _, 0) 0 0 (match _cls_tls_init sample_image with Done _ m => m | Fault _ => ∅ end).

Lemma hooks_lose_thread_pointer_witness :
  wp (scheduler_startup_hook 0 125000000 0x10000501 (ret tt)) (λ _ r1, LOAD r1 + 1 = 125000 ∧
    wp (scheduler_shutdown_hook 0 (ret tt)) (λ _ r2, __aeabi_read_tp 0 (memory r2) = Done (200 + 8 - 8 - 8) (memory r2)) r1) sample_core.
Proof.
  eapply wp_mono; [apply (hooks_lose_thread_pointer 0 125000000 0x10000501 (ret tt) (ret tt) 0 1 sample_core 200 sample_layout
    (or_introl (conj eq_refl eq_refl)) eq_refl (λ _, eq_refl) (λ _, eq_refl)); vm_compute; reflexivity|].
  intros _ r1 (Ht & _ & Hdown). split; [apply Ht; unfold word; lia|]. eapply wp_mono; [exact Hdown|]. intros _ r2 (_ & E). exact E.
Defined.

Lemma switch_hook_restores_witness :
  wp (scheduler_switch_hook 0 None ;;; scheduler_switch_hook 0 (Some 0x2000)) (λ _ r',
    __aeabi_read_tp 0 (memory r') = Done 0x1ff8 (memory r')) sample_core.
Proof.
  eapply wp_mono; [exact (switch_hook_restores 0 0 1 0x2000 None sample_core sample_layout (or_introl (conj eq_refl eq_refl)) eq_refl)|].
  intros _ r' (E & _). exact E.
Defined.
